(* ===== verification/_CoqProject ===== *)
-Q . S2P
Prelude.v
ReuseList.v
EventLoop.v
Unicode.v
Encoding.v
IncrementalDecoder.v
CodecRef.v
StringDecoder.v
Querystring.v
QuerystringProofs.v
QuerystringRef.v
Url.v
UrlProofs.v
UrlRef.v
JsonEscape.v
JsonSpec.v
JsonStringify.v
JsonProofs.v
JsonCircular.v
JsonReplacer.v
Numbers.v
NumberRef.v
ObjectBytes.v
NodeBuffer.v
NodeBufferProofs.v
NodeBufferRef.v
Path.v
Resolver.v
ResolverProofs.v
ResolverRef.v
PackageLoader.v
ModuleLoader.v
ModuleLoaderProofs.v
ModuleLoaderRef.v
WireCodec.v
SharedBuffer.v
JsGraph.v
CloneWire.v
CloneEncode.v
CloneDecode.v
CloneProofs.v
Timers.v
TimerProofs.v
TimerLoop.v
TimerRef.v
StructuredClone.v
StructuredProofs.v
Effects.v
StreamQueue.v
WritableStream.v
WritableProofs.v
WritableRef.v
ReadableStream.v
ReadableProofs.v
ReadableRef.v
Events.v
EventProofs.v
EventRef.v
BytearrayBuffer.v
BufferProofs.v
BufferRef.v
