(* ===== verification/Prelude.v ===== *)
(** * A verification development of the raster runtime

    raster is a JavaScript runtime written in Rust: QuickJS (through the crate
    rquickjs) runs the scripts, tokio runs the tasks, and the crates under
    [src/libs] and [src/modules] implement the interfaces of Node and of the web.
    This library models the parts of it that compute by themselves, as functions
    and step relations on explicit state, and proves what makes them correct.
    Operating system, network, engine and third-party crates are parameters of
    the model where a modelled function calls them, with what their
    documentation promises as the laws of a type class; each such class has an
    instance in the library, so the laws are consistent.

    ** How the parts interact

    Scripts run on one thread.  Native objects that must keep the process alive
    hold references on the event loop ([EventLoop]); timers are such objects
    ([Timers]); emitters call script functions, which call back into emitters
    ([Events]); a readable stream moves bytes from a socket through a byte queue
    ([BytearrayBuffer]) to the emitter of its data event.  Servers keep their
    sockets in a slab ([ReuseList]).  The web streams call the functions of
    their sink or source, which call back into the stream ([WritableStream],
    [ReadableStream]); both keep their chunks in the queue of [StreamQueue], and
    both are written in the monad of [Effects], as is the emitter.  Values are
    copied within a thread by [StructuredClone], and between workers by the wire
    format ([WireCodec], [CloneWire]), which sends shared memory by its registry
    id ([SharedBuffer]).  Text enters and leaves by the encoders ([Encoding],
    which [NodeBuffer] calls), the streaming decoders ([IncrementalDecoder],
    which [Querystring] calls, and [StringDecoder]), the JSON serializer
    ([JsonEscape], [JsonStringify]) and number formatting ([Numbers]).  [Path] is
    node:path; [Resolver] finds the file of a specifier with it, and
    [PackageLoader] and [ModuleLoader] load what the resolver found.

    ** Conventions

    Bytes, code units and machine integers are [Z] (indices and sizes [nat]),
    with overflow and wrap-around written where the source can meet them.  A
    Rust [String] is the list of its characters; where the source works on bytes
    the model has bytes.  A fallible call returns [res E A] of this file: [Ok],
    [Err], or [Panic] for a Rust panic (index out of range, [unwrap] of [None],
    arithmetic overflow, stack overflow); that [Panic] does not occur is part of
    the theorems that say so.  Mutation is state passing, and shared objects
    live in a store, so aliasing, sharing and cycles are modelled.  User code is
    a parameter: a function from what it can observe to the calls it makes,
    restricted by nothing unless a theorem says so.

    Recursion that is not structural takes fuel, and the theorems that promise a
    result give a fuel that is enough: the nesting of the value for the
    serializer, the number of objects and of nodes for the clones, two turns for
    a queue writer, three for the allocation of a hook id, the length of the
    text for the scanners of paths and of query strings, the number of
    components of a path for the search of package scopes, and for [require] the
    number of modules that are not yet in progress.  For emitters and streams the
    fuel is the depth of the JavaScript stack, at whose end the call throws, and
    theorems hold for every depth.

    ** Files

    Runtime state.
    - [ReuseList] ([libs/raster_runtime_utils/src/reuse_list.rs]): the slab with
      its sorted free slots; [run_refines] shows that every sequence of calls is
      a run of a finite map and never panics.
    - [EventLoop] ([.../event_loop.rs]): reference and in-flight counters of the
      runtimes; [exec_counts] is the accounting invariant, [no_lost_wakeup] the
      notifications, [race_leaks] the interleaving that loses a count.
    - [Timers], [TimerProofs], [TimerLoop], [TimerRef]
      ([modules/raster_runtime_timers/src/lib.rs]): timers over the loop
      references.  A poll fires exactly the timers that are due, in order, and
      each once ([poll_fires_due]); a cleared timer stays silent
      ([cleared_never_fires]); ids are unique ([timer_ids_unique]); the
      background task does not oversleep ([no_oversleep]).  [TimerRef] has the
      sort, the witnesses and the situations in which Node behaves otherwise.
    - [Effects]: the monad of code that calls back into scripts (state,
      exceptions, panics and a stack depth) with a weakest-precondition calculus.
    - [Events], [EventProofs], [EventRef] ([modules/raster_runtime_events]): event
      lists with their locks, and listeners that re-enter, throw and catch.  A
      once listener runs at most once ([once_called_once]); lists stay well
      formed and no lock is taken twice ([emitter_well_formed]); emit calls the
      listeners it found, in order ([emit_calls_snapshot]).  The flow state of
      readable streams that [on_event_changed] maintains is included.
    - [BytearrayBuffer], [BufferProofs], [BufferRef] ([.../bytearray_buffer.rs]):
      the byte queue and its waiting writers, interleaved where they await:
      bounds and order for any interleaving ([buffer_bounds]), integrity and
      absence of lost wake-ups for one writer at a time
      ([serial_writes_in_order]), completion ([write_completes]).

    Web streams ([modules/raster_runtime_stream_web/src]).
    - [StreamQueue] ([queuing_strategy.rs], [utils/queue.rs]): values, promises
      and the queue with its total of sizes.
    - [WritableStream], [WritableProofs], [WritableRef] ([writable/]): the
      stream, its controller and writers, and the reactions to the promises of
      the sink.  No call panics ([writable_no_panic]); the sink sees start, then
      writes one at a time and in order, then close or abort ([sink_contract]);
      every request is settled or waits ([no_request_lost]); the ready promise
      shows backpressure ([ready_is_backpressure]); the stream goes on as long as
      the sink settles its promises ([stream_goes_on]).
    - [ReadableStream], [ReadableProofs], [ReadableRef] ([readable/], default
      controllers): pulls never overlap and stop at close and error
      ([source_contract]); reads get the chunks in the order both were made
      ([reads_refine]); the closed promise follows the state
      ([closed_follows]); an ended stream stays as it ended ([ended_for_good]).

    Text.
    - [Unicode]: the UTF-8 and UTF-16 functions of the Rust library.
    - [Encoding], [CodecRef] ([libs/raster_runtime_encoding/src/lib.rs]): the six
      encoders and their labels; round trips.  [CodecRef] implements the hex and
      base64 crates.
    - [IncrementalDecoder] ([.../incremental.rs] and
      [modules/raster_runtime_util/src/text_decoder.rs]): TextDecoder;
      [text_decoder_chunking] shows that the cuts between chunks do not matter.
    - [StringDecoder] ([modules/raster_runtime_string_decoder]): the same for
      node:string_decoder, per encoding.
    - [Querystring], [QuerystringProofs], [QuerystringRef]
      ([modules/raster_runtime_querystring]): escape, unescape, stringify and
      parse.  The one-pass scanner of parse computes what splitting computes
      ([parse_reference]) and reads back what stringify wrote
      ([parse_stringify]).
    - [Url], [UrlProofs], [UrlRef] ([modules/raster_runtime_url]): URL,
      URLSearchParams and the functions of node:url over the url crate as an
      interface.  The parameters behave as a list of pairs
      ([search_params_refine]), survive their text ([params_text_roundtrip]), and
      forEach returns when its callback changes them ([for_each_safe]).
    - [JsonEscape], [JsonSpec], [JsonStringify], [JsonProofs], [JsonCircular],
      [JsonReplacer] ([libs/raster_runtime_json]): JSON.stringify over a heap.
      [JsonSpec] is the text of a value and an RFC 8259 reader;
      [stringify_roundtrip] and [escape_roundtrip] relate the serializer to them,
      [stringify_circular] shows that it returns on every heap and reports
      exactly the cycles, [JsonReplacer] is about replacers and toJSON.
    - [Numbers], [NumberRef] ([libs/raster_runtime_numbers/src/lib.rs]): integers
      and doubles in every radix; [NumberRef] implements the digit crates and
      holds the witnesses of the JSON theorems.

    Files and modules.
    - [Path] ([modules/raster_runtime_path/src/lib.rs], the POSIX build): resolve
      and join normalize, relative and resolve are inverse, parse and format,
      dirname and basename.
    - [Resolver], [ResolverProofs], [ResolverRef] (the resolver of the module
      set): specifiers to files over a file system as a parameter.  A relative
      specifier resolves as the documented search ([path_resolution]), the result
      is a file ([resolved_is_file]), and bare names are looked up in the nearest
      node_modules that has them ([node_modules_lookup]).
    - [PackageLoader]: what is declared for a resolved name.
    - [ModuleLoader], [ModuleLoaderProofs], [ModuleLoaderRef]: CommonJS require
      with its caches and cycles.  It returns ([require_terminates]), runs a
      module at most once ([module_runs_once]), and leaves no module in progress
      ([require_settles]).

    Values.
    - [ObjectBytes] ([libs/raster_runtime_utils/src/bytes.rs]): the bytes behind
      views, strings and arrays on a heap of buffers that can be detached.
    - [NodeBuffer], [NodeBufferProofs], [NodeBufferRef]
      ([modules/raster_runtime_buffer]): node:buffer.  What a number writer wrote
      the reader returns ([write_read_number]); copy moves the bytes also when
      the ranges overlap ([copy_moves]); text is written in whole characters
      ([write_whole_characters]) and subarrays share memory ([subarray_slice]).
    - [JsGraph]: heaps of values and isomorphism of values in two heaps.
    - [WireCodec] ([libs/raster_runtime_utils/src/clone_wire.rs], bytes): what is
      written is read ([wire_roundtrip]), and reading never panics
      ([read_body_total]).
    - [CloneWire], [CloneEncode], [CloneDecode], [CloneProofs] (the same file,
      graphs): a clone is isomorphic to its original ([clone_roundtrip]);
      [cyclic_map_diverges] is the case the decoder does not survive.
    - [SharedBuffer] ([.../shared_array_buffer.rs]): the registry of shared blocks
      stays coherent; the length of a view in bytes is taken as elements.
    - [StructuredClone], [StructuredProofs] ([.../clone.rs]): structuredClone
      returns a fresh copy of plain data with its cycles
      ([structured_clone_copies]).

    Statements that record a defect of the code are examples next to the model
    they run on ([TimerRef], [EventRef], [BufferRef], [WritableRef],
    [ReadableRef], [QuerystringRef], [UrlRef], [NodeBufferRef], [ResolverRef],
    [ModuleLoaderRef], [PackageLoader], [StructuredProofs], [CloneProofs],
    [JsonReplacer], [Path], [StringDecoder], [IncrementalDecoder], [Numbers]).

    ** Not modelled

    Wrappers of third-party code (crypto, TLS, HTTP, WebAssembly, sqlite, zlib,
    Intl, Temporal; the url crate is a parameter), operating-system interfaces
    (fs, net, dgram, child_process, tty, os, process), JavaScript embedded in the
    sources other than node:querystring (the wrappers of timers, events.on,
    async_hooks, diagnostics_channel), fetch, JSON.parse, Node-API and the
    command line.  Of the web streams: byte controllers and BYOB readers, tee,
    pipes, transform streams, ReadableStream.from and async iteration.  Of
    module loading: registered hooks, the module loader of the engine and the
    fallback of require to ES modules.  Of the modelled modules: the Windows
    build of the path and URL functions, Debug formatting, and the registration
    of functions with the engine.

    This file has what the others share: outcomes, machine integers, byte
    strings, list lemmas and tactics. *)

From stdpp Require Export base list gmap strings sorting.
From Stdlib Require Export ZArith Lia ZifyNat.
From Stdlib Require Import Ascii.

Open Scope Z_scope.

(** * Outcomes of Rust calls *)

(** A Rust call returns a value, returns an [Err], or panics.  [Panic] stands
    for every abort the source can reach: a slice or index out of range, an
    [unwrap] of [None], an arithmetic overflow (the debug and test profiles
    check it). *)
Inductive res (E A : Type) : Type :=
  | Ok (a : A)
  | Err (e : E)
  | Panic.
Arguments Ok {E A} a.
Arguments Err {E A} e.
Arguments Panic {E A}.

#[export] Instance res_ret {E} : MRet (res E) := λ A a, Ok a.
#[export] Instance res_bind {E} : MBind (res E) := λ A B f m,
  match m with
  | Ok a => f a
  | Err e => Err e
  | Panic => Panic
  end.
#[export] Instance res_fmap {E} : FMap (res E) := λ A B f m,
  match m with
  | Ok a => Ok (f a)
  | Err e => Err e
  | Panic => Panic
  end.

#[export] Instance res_eq_dec {E A} `{EqDecision E, EqDecision A} :
  EqDecision (res E A).
Proof. solve_decision. Defined.

(** [Option::ok_or], an index that panics, and [expect] on an option. *)
Definition or_err {E A} (o : option A) (e : E) : res E A :=
  match o with Some a => Ok a | None => Err e end.
Definition or_panic {E A} (o : option A) : res E A :=
  match o with Some a => Ok a | None => Panic end.

Definition res_ok {E A} (r : res E A) : bool :=
  match r with Ok _ => true | _ => false end.
Definition res_panics {E A} (r : res E A) : bool :=
  match r with Panic => true | _ => false end.

Lemma bind_ok_inv {E A B} (m : res E A) (f : A → res E B) b :
  (m ≫= f) = Ok b → ∃ a, m = Ok a ∧ f a = Ok b.
Proof. destruct m; intros H; [by exists a | done | done]. Qed.

Lemma bind_ok {E A B} (f : A → res E B) a : (Ok a ≫= f) = f a.
Proof. done. Qed.

(** * Machine integers *)

Definition u8_ok (z : Z) : Prop := 0 ≤ z < 256.
Definition u16_ok (z : Z) : Prop := 0 ≤ z < 65536.
Definition u32_ok (z : Z) : Prop := 0 ≤ z < 4294967296.
Definition u64_ok (z : Z) : Prop := 0 ≤ z < 18446744073709551616.
Definition i64_ok (z : Z) : Prop :=
  -9223372036854775808 ≤ z < 9223372036854775808.

(** Two's complement wrap-around at 64 bits, and truncation [as u32]. *)
Definition wrap_i64 (z : Z) : Z :=
  (z + 9223372036854775808) `mod` 18446744073709551616 - 9223372036854775808.
Definition as_u32 (z : Z) : Z := z `mod` 4294967296.

Lemma wrap_i64_id z : i64_ok z → wrap_i64 z = z.
Proof. unfold i64_ok, wrap_i64. intros. rewrite Z.mod_small; lia. Qed.

Lemma as_u32_id z : u32_ok z → as_u32 z = z.
Proof. unfold u32_ok, as_u32. intros. by apply Z.mod_small. Qed.

(** A statement about a finite range is decided by checking its values. *)
Lemma forall_range (k : Z) (P : Z → bool) :
  forallb P (seqZ 0 k) = true → ∀ n, 0 ≤ n < k → P n = true.
Proof.
  rewrite forallb_forall. intros HP n Hn. apply HP, list_elem_of_In, elem_of_seqZ. lia.
Qed.

Definition all_bytes (P : Z → bool) : bool := forallb P (seqZ 0 256).

Lemma all_bytes_spec P : all_bytes P = true → ∀ b, u8_ok b → P b = true.
Proof. intros H b Hb. by apply (forall_range 256). Qed.

(** Likewise for pairs of bytes. *)
Lemma all_bytes2_spec (P : Z → Z → bool) :
  all_bytes (λ a, all_bytes (P a)) = true →
  ∀ a b, u8_ok a → u8_ok b → P a b = true.
Proof.
  intros H a b Ha Hb. apply all_bytes_spec; [|done].
  by apply (all_bytes_spec _ H).
Qed.

(** * Byte strings *)

(** A string literal as the list of its bytes. *)
Fixpoint bytes_of_string (s : String.string) : list Z :=
  match s with
  | String.EmptyString => []
  | String.String c s => Z.of_nat (nat_of_ascii c) :: bytes_of_string s
  end.

Definition bs : String.string → list Z := bytes_of_string.
Arguments bs s%_string.

(** * Lists *)

(** [rfind]: the position of the last element satisfying [P]. *)
Fixpoint rfind_pos {A} (P : A → bool) (l : list A) : option nat :=
  match l with
  | [] => None
  | x :: l =>
      match rfind_pos P l with
      | Some i => Some (S i)
      | None => if P x then Some 0%nat else None
      end
  end.

(** [find]: the position of the first element satisfying [P]. *)
Fixpoint find_pos {A} (P : A → bool) (l : list A) : option nat :=
  match l with
  | [] => None
  | x :: l => if P x then Some 0%nat else S <$> find_pos P l
  end.

Lemma find_pos_Some {A} (P : A → bool) l i :
  find_pos P l = Some i →
  ∃ x, l !! i = Some x ∧ P x = true ∧ Forall (λ y, P y = false) (take i l).
Proof.
  revert i. induction l as [|x l IH]; intros i H; [done|]. simpl in H.
  destruct (P x) eqn:Hx; simplify_eq; [by exists x|].
  destruct (find_pos P l) as [j|]; simplify_eq/=.
  destruct (IH j eq_refl) as (y & ? & ? & ?). exists y. auto.
Qed.

Lemma find_pos_None {A} (P : A → bool) l :
  find_pos P l = None ↔ Forall (λ y, P y = false) l.
Proof.
  induction l as [|x l IH]; simpl; [by split|].
  rewrite Forall_cons. destruct (P x); [naive_solver|].
  rewrite fmap_None. naive_solver.
Qed.

Lemma rfind_pos_None {A} (P : A → bool) l :
  rfind_pos P l = None ↔ Forall (λ y, P y = false) l.
Proof.
  induction l as [|x l IH]; simpl; [by split|].
  rewrite Forall_cons. destruct (rfind_pos P l) as [i|].
  - split; [done|]. intros [_ H]. by apply IH in H.
  - destruct (P x); naive_solver.
Qed.

Lemma rfind_pos_Some {A} (P : A → bool) l i :
  rfind_pos P l = Some i →
  ∃ x, l !! i = Some x ∧ P x = true ∧ Forall (λ y, P y = false) (drop (S i) l).
Proof.
  revert i. induction l as [|x l IH]; intros i H; [done|]. simpl in H.
  destruct (rfind_pos P l) as [j|] eqn:Hj.
  - simplify_eq. destruct (IH j eq_refl) as (y & ? & ? & ?). by exists y.
  - destruct (P x) eqn:Hx; simplify_eq. exists x. split_and!; try done.
    simpl. by apply rfind_pos_None.
Qed.

Lemma nonempty_match {A B} (l : list A) (x y : B) :
  l ≠ [] → match l with [] => x | _ :: _ => y end = y.
Proof. by destruct l. Qed.

(** * Automation *)

Create HintDb raster discriminated.
Create Rewrite HintDb raster_len.
#[export] Hint Rewrite @length_app @length_take @length_drop @length_insert
  @length_fmap @length_reverse @length_replicate : raster_len.

(** Simplify list lengths everywhere, then call [lia]. *)
Ltac len := autorewrite with raster_len in *; simpl in *; try lia.

(** [lia] with division and modulo by constants, on [nat] and [Z]. *)
Ltac dlia := zify; Z.div_mod_to_equations; lia.

(** Split on the innermost [match] or [if] of the goal, or of a hypothesis. *)
Ltac case_goal :=
  match goal with
  | |- context [match ?x with _ => _ end] =>
      lazymatch x with
      | context [match _ with _ => _ end] => fail
      | _ => destruct x eqn:?
      end
  end.
Ltac case_hyp H :=
  match type of H with
  | context [match ?x with _ => _ end] =>
      lazymatch x with
      | context [match _ with _ => _ end] => fail
      | _ => destruct x eqn:?
      end
  end.

(** Turn boolean comparisons of [Z] and [nat] into propositions. *)
Ltac bool_to_prop :=
  repeat match goal with
  | H : (_ && _) = true |- _ => apply andb_prop in H as [? ?]
  | H : (_ || _) = false |- _ => apply orb_false_elim in H as [? ?]
  | H : (_ =? _) = true |- _ => apply Z.eqb_eq in H
  | H : (_ =? _) = false |- _ => apply Z.eqb_neq in H
  | H : (_ <? _) = true |- _ => apply Z.ltb_lt in H
  | H : (_ <? _) = false |- _ => apply Z.ltb_ge in H
  | H : (_ <=? _) = true |- _ => apply Z.leb_le in H
  | H : (_ <=? _) = false |- _ => apply Z.leb_gt in H
  | H : (_ <? _)%nat = true |- _ => apply Nat.ltb_lt in H
  | H : (_ <? _)%nat = false |- _ => apply Nat.ltb_ge in H
  | H : (_ <=? _)%nat = true |- _ => apply Nat.leb_le in H
  | H : (_ <=? _)%nat = false |- _ => apply Nat.leb_gt in H
  | H : (_ =? _)%nat = true |- _ => apply Nat.eqb_eq in H
  | H : (_ =? _)%nat = false |- _ => apply Nat.eqb_neq in H
  | H : negb _ = true |- _ => apply negb_true_iff in H
  | H : negb _ = false |- _ => apply negb_false_iff in H
  end.

Lemma filter_all {A} (P : A → Prop) `{∀ x, Decision (P x)} l : Forall P l → filter P l = l.
Proof.
  induction 1 as [|x l Hx _ IH]; [done|]. rewrite filter_cons_True by done. by rewrite IH.
Qed.

Lemma Forall_sublist {A} (P : A → Prop) (l l' : list A) : l `sublist_of` l' → Forall P l' → Forall P l.
Proof. intros Hs. rewrite !Forall_forall. intros H x Hx. apply H. by eapply elem_of_sublist. Qed.

Lemma fmap_sublist {A B} (g : A → B) (l l' : list A) : l `sublist_of` l' → g <$> l `sublist_of` g <$> l'.
Proof. induction 1; cbn; by constructor. Qed.
