(* ===== verification/ReuseList.v ===== *)
(** The slot-reusing list of [libs/raster_runtime_utils/src/reuse_list.rs],
    which the TCP and TLS servers use to track open sockets by index.

    The record keeps the five fields of the Rust struct.  Every Rust index
    expression is written with its bounds check ([Panic] out of range), so
    that [append_spec] and [remove_spec] also say that the checks never fail.
    [slab_step] is the abstract contract (a finite map from indices to live
    items), and [run_refines] the refinement over arbitrary call sequences. *)

From S2P Require Import Prelude.

Open Scope nat_scope.

Record ReuseList (T : Type) : Type := mkReuseList {
  items : list (option T);
  slots : list nat;
  last_slot_idx : nat;
  len : nat;
  slot_size : nat;
}.
Arguments mkReuseList {T}.
Arguments items {T}.
Arguments slots {T}.
Arguments last_slot_idx {T}.
Arguments len {T}.
Arguments slot_size {T}.

(** Calls return a value or panic; they have no error case. *)
Abbreviation call A := (res Empty_set A).

Section Operations.
Context {T : Type}.
Implicit Types (l : ReuseList T) (x : T).

Definition with_capacity (capacity : nat) : ReuseList T :=
  {| items := []; slots := []; last_slot_idx := 0; len := 0; slot_size := 0 |}.

Definition new : ReuseList T := with_capacity 0.

Definition is_empty l : bool := len l =? 0.

(** [slots[last_slot_idx - 1]], with the subtraction and index checked. *)
Definition top_slot l : call nat :=
  if last_slot_idx l =? 0 then Panic
  else or_panic (slots l !! (last_slot_idx l - 1)).

(** No valid empty slot: push at the end. *)
Definition append_end l x : ReuseList T * nat :=
  ({| items := items l ++ [Some x]; slots := slots l;
      last_slot_idx := last_slot_idx l; len := len l + 1;
      slot_size := slot_size l |}, length (items l)).

(** Reuse the slot on top of the stack. *)
Definition append_reuse l x (slot : nat) : call (ReuseList T * nat) :=
  if slot - 1 <? length (items l) then
    Ok ({| items := <[slot - 1 := Some x]> (items l);
           slots := <[last_slot_idx l - 1 := 0]> (slots l);
           last_slot_idx := if 1 <? last_slot_idx l then last_slot_idx l - 1
                            else last_slot_idx l;
           len := len l + 1;
           slot_size := slot_size l |}, slot - 1)
  else Panic.

Definition append l x : call (ReuseList T * nat) :=
  if 0 <? slot_size l then
    slot ← top_slot l;
    if 0 <? slot then append_reuse l x slot else Ok (append_end l x)
  else Ok (append_end l x).

(** Record the freed index: overwrite the top slot when it is spent, push a
    new one otherwise.  [items'] are the items after [take]. *)
Definition push_slot l (items' : list (option T)) (index : nat) : call (ReuseList T) :=
  reuse ← (if 0 <? slot_size l then top ← top_slot l; Ok (top =? 0) else Ok false);
  if len l =? 0 then Panic
  else if (reuse : bool) then
    Ok {| items := items'; slots := <[last_slot_idx l - 1 := index + 1]> (slots l);
          last_slot_idx := last_slot_idx l; len := len l - 1;
          slot_size := slot_size l |}
  else
    Ok {| items := items'; slots := slots l ++ [index + 1];
          last_slot_idx := last_slot_idx l + 1; len := len l - 1;
          slot_size := slot_size l + 1 |}.

Definition remove l (index : nat) : call (ReuseList T * option T) :=
  if length (items l) <=? index then Ok (l, None)
  else
    item ← or_panic (items l !! index);
    let items' := <[index := None]> (items l) in
    match item with
    | None => Ok (l, None)
    | Some x => l' ← push_slot l items' index; Ok (l', Some x)
    end.

Definition get l (index : nat) : option T :=
  if length (items l) <=? index then None else items l !! index ≫= id.

(** [get_mut] hands out a mutable reference; [f] is what the caller does with it. *)
Definition get_mut l (index : nat) (f : T → T) : ReuseList T :=
  if length (items l) <=? index then l
  else {| items := alter (fmap f) index (items l); slots := slots l;
          last_slot_idx := last_slot_idx l; len := len l; slot_size := slot_size l |}.

Definition iter l : list T := omap id (items l).

Definition iter_mut l (f : T → T) : ReuseList T :=
  {| items := (λ o : option T, f <$> o) <$> items l; slots := slots l;
     last_slot_idx := last_slot_idx l; len := len l; slot_size := slot_size l |}.

Definition clear l : ReuseList T :=
  {| items := []; slots := []; last_slot_idx := 0; len := 0; slot_size := 0 |}.

Definition optimize l : ReuseList T :=
  {| items := filter is_Some (items l); slots := []; last_slot_idx := 0;
     len := len l; slot_size := 0 |}.

(** The calls a client can make, and what each returns. *)
Inductive op := Append (x : T) | Remove (i : nat) | Get (i : nat)
  | GetMut (i : nat) (f : T → T) | IterMut (f : T → T) | Clear | Optimize.
Inductive obs := ObsIndex (i : nat) | ObsItem (o : option T) | ObsUnit.

Definition step l (o : op) : call (ReuseList T * obs) :=
  match o with
  | Append x => '(l', i) ← append l x; Ok (l', ObsIndex i)
  | Remove i => '(l', y) ← remove l i; Ok (l', ObsItem y)
  | Get i => Ok (l, ObsItem (get l i))
  | GetMut i f => Ok (get_mut l i f, ObsUnit)
  | IterMut f => Ok (iter_mut l f, ObsUnit)
  | Clear => Ok (clear l, ObsUnit)
  | Optimize => Ok (optimize l, ObsUnit)
  end.

Fixpoint run l (os : list op) : call (ReuseList T * list obs) :=
  match os with
  | [] => Ok (l, [])
  | o :: os => '(l1, ob) ← step l o; '(l2, obs) ← run l1 os; Ok (l2, ob :: obs)
  end.

(** * The abstract contract *)

(** The live items by index. *)
Definition view l : gmap nat T := omap id (map_seq 0 (items l) : gmap nat (option T)).

(** What a client may rely on: an index map in which [append] picks a free
    index and [optimize] renumbers the items in index order. *)
Inductive slab_step (m : gmap nat T) : op → obs → gmap nat T → Prop :=
  | slab_append x i : m !! i = None → slab_step m (Append x) (ObsIndex i) (<[i:=x]> m)
  | slab_remove i : slab_step m (Remove i) (ObsItem (m !! i)) (delete i m)
  | slab_get i : slab_step m (Get i) (ObsItem (m !! i)) m
  | slab_get_mut i f : slab_step m (GetMut i f) ObsUnit (alter f i m)
  | slab_iter_mut f : slab_step m (IterMut f) ObsUnit (f <$> m)
  | slab_clear : slab_step m Clear ObsUnit ∅
  | slab_optimize ks :
      StronglySorted lt ks → (∀ k, k ∈ ks ↔ is_Some (m !! k)) →
      slab_step m Optimize ObsUnit (map_seq 0 (omap (λ k, m !! k) ks)).

Inductive slab_run : gmap nat T → list op → list obs → gmap nat T → Prop :=
  | slab_nil m : slab_run m [] [] m
  | slab_cons m o ob m1 os obs m2 :
      slab_step m o ob m1 → slab_run m1 os obs m2 →
      slab_run m (o :: os) (ob :: obs) m2.

(** * Representation invariant *)

(** Slot entries are indices plus one; zero marks a spent entry. *)
Record wf l : Prop := {
  wf_size : slot_size l = length (slots l);
  wf_last : last_slot_idx l ≤ length (slots l);
  wf_pos : slots l ≠ [] → 1 ≤ last_slot_idx l;
  wf_len : len l = length (iter l);
  wf_free : ∀ j s, slots l !! j = Some s → s ≠ 0 → items l !! (s - 1) = Some None;
  wf_nodup : ∀ i j s, slots l !! i = Some s → slots l !! j = Some s → s ≠ 0 → i = j;
}.

Lemma lookup_view l i : view l !! i = items l !! i ≫= id.
Proof. unfold view. rewrite lookup_omap, lookup_map_seq_0. done. Qed.

Lemma get_view l i : get l i = view l !! i.
Proof.
  unfold get. rewrite lookup_view. destruct (Nat.leb_spec (length (items l)) i); [|done].
  by rewrite lookup_ge_None_2.
Qed.

(** How an update of one cell changes the number of live items. *)
Lemma length_omap_insert (its : list (option T)) i o o' :
  its !! i = Some o →
  length (omap id (<[i:=o']> its)) + length (omap id [o]) =
  length (omap id its) + length (omap id [o']).
Proof.
  intros Hi. rewrite insert_take_drop by (by eapply lookup_lt_Some).
  rewrite <- (take_drop_middle its i o Hi) at 3.
  rewrite !omap_app. simpl. destruct o, o'; simpl; rewrite ?length_app; simpl; lia.
Qed.

Lemma top_slot_ok l :
  wf l → slots l ≠ [] → ∃ s, top_slot l = Ok s ∧ slots l !! (last_slot_idx l - 1) = Some s.
Proof.
  intros Hwf Hne. pose proof (wf_pos l Hwf Hne). pose proof (wf_last l Hwf).
  destruct (lookup_lt_is_Some_2 (slots l) (last_slot_idx l - 1)) as [s Hs]; [lia|].
  exists s. unfold top_slot. destruct (Nat.eqb_spec (last_slot_idx l) 0); [lia|].
  by rewrite Hs.
Qed.

Lemma insert_view l i o l' :
  i < length (items l) → items l' = <[i:=o]> (items l) →
  view l' = match o with Some x => <[i:=x]> (view l) | None => delete i (view l) end.
Proof.
  intros Hi Heq. apply map_eq. intros j. rewrite lookup_view, Heq.
  destruct (decide (i = j)) as [->|Hne].
  - rewrite list_lookup_insert_eq by done.
    destruct o; simpl; by rewrite ?lookup_insert_eq, ?lookup_delete_eq.
  - rewrite list_lookup_insert_ne by done.
    destruct o; rewrite ?lookup_insert_ne, ?lookup_delete_ne by done; by rewrite lookup_view.
Qed.

Lemma append_end_spec l x :
  wf l →
  wf (append_end l x).1 ∧ view l !! (append_end l x).2 = None ∧
  view (append_end l x).1 = <[(append_end l x).2 := x]> (view l).
Proof.
  intros [Hs Hl Hp Hn Hf Hd]. split_and!; simpl.
  - split; simpl; try done.
    + unfold iter in *. simpl. rewrite omap_app, length_app, <- Hn. simpl. lia.
    + intros j s Hj Hs0. rewrite lookup_app_l; [eauto|].
      eapply lookup_lt_Some, Hf; eauto.
  - rewrite lookup_view, lookup_ge_None_2 by lia. done.
  - apply map_eq. intros j. rewrite lookup_view. simpl.
    destruct (decide (j = length (items l))) as [->|Hne].
    + rewrite lookup_insert_eq, lookup_app_r by lia. by rewrite Nat.sub_diag.
    + rewrite lookup_insert_ne by done. rewrite lookup_view.
      destruct (decide (j < length (items l))).
      * by rewrite lookup_app_l.
      * rewrite !lookup_ge_None_2; [done|lia|rewrite length_app; simpl; lia].
Qed.

Lemma append_reuse_spec l x s :
  wf l → slots l !! (last_slot_idx l - 1) = Some s → s ≠ 0 →
  ∃ l', append_reuse l x s = Ok (l', s - 1) ∧ wf l' ∧
        view l !! (s - 1) = None ∧ view l' = <[s - 1 := x]> (view l).
Proof.
  intros [Hs Hl Hp Hn Hf Hd] Htop Hs0. pose proof (Hf _ _ Htop Hs0) as Hfree.
  pose proof (lookup_lt_Some _ _ _ Hfree) as Hlt.
  pose proof (lookup_lt_Some _ _ _ Htop) as Hlts.
  unfold append_reuse. destruct (Nat.ltb_spec (s - 1) (length (items l))); [|lia].
  eexists. split; [done|]. split_and!.
  - split; simpl.
    + by rewrite length_insert.
    + rewrite length_insert. destruct (1 <? last_slot_idx l); lia.
    + intros _. destruct (Nat.ltb_spec 1 (last_slot_idx l)); [lia|].
      apply Hp. intros Hnil. by rewrite Hnil in Htop.
    + pose proof (length_omap_insert _ _ _ (Some x) Hfree) as Hlen.
      unfold iter in *. simpl in *. lia.
    + intros j t Hj Ht. apply list_lookup_insert_Some in Hj as [(_ & <- & _)|(Hne & Hj)]; [done|].
      rewrite list_lookup_insert_ne; [eauto|]. intros Heq. apply Hne.
      assert (t = s) as -> by lia. by apply (Hd _ _ s).
    + intros i j t Hi Hj Ht.
      apply list_lookup_insert_Some in Hi as [(_ & <- & _)|(_ & Hi)]; [done|].
      apply list_lookup_insert_Some in Hj as [(_ & <- & _)|(_ & Hj)]; [done|]. eauto.
  - by rewrite lookup_view, Hfree.
  - by rewrite (insert_view l (s - 1) (Some x)).
Qed.

(** [append] never panics, keeps the invariant, and stores the item at an
    index that held none. *)
Lemma append_spec l x :
  wf l → ∃ l' i, append l x = Ok (l', i) ∧ wf l' ∧
    view l !! i = None ∧ view l' = <[i := x]> (view l).
Proof.
  intros Hwf. pose proof (append_end_spec l x Hwf) as (He1 & He2 & He3).
  unfold append. destruct (Nat.ltb_spec 0 (slot_size l)) as [Hpos|Hpos].
  - destruct (top_slot_ok l Hwf) as (s & -> & Hs).
    { intros Hnil. rewrite (wf_size l Hwf), Hnil in Hpos. simpl in Hpos. lia. }
    simpl. destruct (Nat.ltb_spec 0 s); [|by eauto 10].
    destruct (append_reuse_spec l x s Hwf Hs) as (l' & ? & ? & ? & ?); [lia|]. eauto 10.
  - eauto 10.
Qed.

Lemma wf_take_slot l its' i x slots' last' :
  wf l → items l !! i = Some (Some x) → its' = <[i:=None]> (items l) →
  (∃ j, slots' = <[j := i + 1]> (slots l) ∧ slots l !! j = Some 0 ∧ last' = last_slot_idx l) ∨
  (slots' = slots l ++ [i + 1] ∧ last' = last_slot_idx l + 1) →
  wf {| items := its'; slots := slots'; last_slot_idx := last'; len := len l - 1;
        slot_size := length slots' |}.
Proof.
  intros [Hs Hl Hp Hn Hf Hd] Hi -> Hslots.
  assert (Hnew : ∀ j s, slots' !! j = Some s → s ≠ 0 →
            (s = i + 1 ∧ ∀ j', slots' !! j' = Some (i + 1) → j' = j) ∨
            (slots l !! j = Some s ∧ s ≠ i + 1)).
  { assert (Hfresh : ∀ j, slots l !! j ≠ Some (i + 1)).
    { intros j Hj. pose proof (Hf j (i + 1) Hj ltac:(lia)) as Hc.
      replace (i + 1 - 1) with i in Hc by lia. congruence. }
    intros j s Hj Hs0. destruct Hslots as [(k & -> & Hk & _)|(-> & _)].
    - pose proof (lookup_lt_Some _ _ _ Hk).
      apply list_lookup_insert_Some in Hj as [(-> & <- & _)|(Hne & Hj)].
      + left. split; [done|]. intros j'. rewrite list_lookup_insert_Some.
        intros [(-> & _)|(_ & Hc)]; [done|]. by destruct (Hfresh j').
      + right. split; [done|]. intros ->. by destruct (Hfresh j).
    - apply lookup_app_Some in Hj as [Hj|(Hge & Hj)].
      + right. split; [done|]. intros ->. by destruct (Hfresh j).
      + apply list_lookup_singleton_Some in Hj as [Hj <-]. left. split; [done|].
        intros j'. rewrite lookup_app_Some.
        intros [Hc|(? & Hc)]; [by destruct (Hfresh j')|].
        apply list_lookup_singleton_Some in Hc as [? _]. lia. }
  split; simpl; [done| | | | |].
  - destruct Hslots as [(k & -> & _ & ->)|(-> & ->)]; len.
  - destruct Hslots as [(k & -> & Hk & ->)|(-> & ->)]; [|lia]. intros _. apply Hp.
    intros Hnil. by rewrite Hnil in Hk.
  - pose proof (length_omap_insert _ _ _ None Hi) as Hlen. unfold iter in *. simpl in *. lia.
  - intros j s Hj Hs0. destruct (Hnew j s Hj Hs0) as [(-> & _)|(Hj' & Hne)].
    + replace (i + 1 - 1) with i by lia.
      by rewrite list_lookup_insert_eq by (by eapply lookup_lt_Some).
    + rewrite list_lookup_insert_ne by lia. eauto.
  - intros j1 j2 s H1 H2 Hs0.
    destruct (Hnew j1 s H1 Hs0) as [(-> & Hu)|(Hj1 & Hne)]; [symmetry; by apply Hu|].
    destruct (Hnew j2 s H2 Hs0) as [(-> & Hu)|(Hj2 & _)]; [done|]. eauto.
Qed.

Lemma push_slot_spec l i x :
  wf l → items l !! i = Some (Some x) →
  ∃ l', push_slot l (<[i:=None]> (items l)) i = Ok l' ∧ wf l' ∧
        items l' = <[i:=None]> (items l).
Proof.
  intros Hwf Hi. pose proof (wf_size l Hwf) as Hsize.
  assert (len l ≠ 0) as Hlen.
  { pose proof (length_omap_insert _ _ _ None Hi) as Hc.
    pose proof (wf_len l Hwf). unfold iter in *. simpl in Hc. lia. }
  assert (Hpush : ∀ sl la, _ → wf {| items := _; slots := sl; last_slot_idx := la;
            len := len l - 1; slot_size := length sl |}) by
    (intros sl la; exact (wf_take_slot l _ i x sl la Hwf Hi eq_refl)).
  unfold push_slot. destruct (Nat.ltb_spec 0 (slot_size l)) as [Hpos|Hpos].
  - destruct (top_slot_ok l Hwf) as (s & -> & Hs).
    { intros Hnil. rewrite Hsize, Hnil in Hpos. simpl in Hpos. lia. }
    simpl. apply Nat.eqb_neq in Hlen as ->. destruct (Nat.eqb_spec s 0) as [->|Hs0].
    + eexists. split_and!; [done| |done]. rewrite Hsize.
      erewrite <- (length_insert (slots l)). apply Hpush. left. eauto.
    + eexists. split_and!; [done| |done]. rewrite Hsize.
      replace (length (slots l) + 1) with (length (slots l ++ [i + 1])) by len.
      apply Hpush. by right.
  - simpl. apply Nat.eqb_neq in Hlen as ->.
    eexists. split_and!; [done| |done]. rewrite Hsize.
    replace (length (slots l) + 1) with (length (slots l ++ [i + 1])) by len.
    apply Hpush. by right.
Qed.

(** [remove] never panics, keeps the invariant, returns what the index held
    and frees it; an index that holds nothing is left alone. *)
Lemma remove_spec l i :
  wf l → ∃ l', remove l i = Ok (l', view l !! i) ∧ wf l' ∧ view l' = delete i (view l).
Proof.
  intros Hwf. unfold remove. rewrite lookup_view.
  destruct (Nat.leb_spec (length (items l)) i) as [Hge|Hlt].
  - rewrite (lookup_ge_None_2 _ _ Hge). exists l. split_and!; [done|done|].
    rewrite delete_id; [done|]. by rewrite lookup_view, lookup_ge_None_2.
  - destruct (lookup_lt_is_Some_2 (items l) i Hlt) as [o Ho]. rewrite Ho. simpl.
    destruct o as [x|]; simpl.
    + destruct (push_slot_spec l i x Hwf Ho) as (l' & -> & Hwf' & Hits).
      exists l'. split_and!; [done|done|]. by rewrite (insert_view l i None).
    + exists l. split_and!; [done|done|].
      rewrite delete_id; [done|]. by rewrite lookup_view, Ho.
Qed.

Lemma new_wf : wf new.
Proof. split; simpl; try done; try lia; intros ? ?; rewrite lookup_nil; done. Qed.

Lemma clear_wf l : wf (clear l).
Proof. exact new_wf. Qed.

Lemma view_nil l : items l = [] → view l = ∅.
Proof. intros H. apply map_eq. intros i. by rewrite lookup_view, H, lookup_empty. Qed.

(** Mapping over the cells keeps which of them are live. *)
Lemma length_omap_fmap (f : T → T) (its : list (option T)) :
  length (omap id ((λ o : option T, f <$> o) <$> its)) = length (omap id its).
Proof. induction its as [|[y|] its IH]; simpl; auto. Qed.

Lemma iter_mut_wf l f : wf l → wf (iter_mut l f).
Proof.
  intros [Hs Hl Hp Hn Hf Hd]. split; simpl; try done.
  - unfold iter in *. simpl. by rewrite length_omap_fmap.
  - intros j s Hj Hs0. rewrite list_lookup_fmap, (Hf j s Hj Hs0). done.
Qed.

Lemma iter_mut_view l f : view (iter_mut l f) = f <$> view l.
Proof.
  apply map_eq. intros i. rewrite lookup_fmap, !lookup_view. simpl.
  rewrite list_lookup_fmap. destruct (items l !! i) as [[x|]|]; done.
Qed.

Lemma get_mut_wf l i f : wf l → wf (get_mut l i f).
Proof.
  intros Hwf. unfold get_mut. destruct (length (items l) <=? i); [done|].
  destruct Hwf as [Hs Hl Hp Hn Hf Hd]. split; simpl; try done.
  - unfold iter in *. simpl. rewrite Hn. clear. revert i.
    induction (items l) as [|[y|] its IH]; intros [|i]; simpl; try done;
      [f_equal|]; apply (IH i).
  - intros j s Hj Hs0. pose proof (Hf j s Hj Hs0) as Hc.
    destruct (decide (i = s - 1)) as [->|Hne].
    + by rewrite list_lookup_alter_eq, Hc.
    + by rewrite list_lookup_alter_ne.
Qed.

Lemma get_mut_view l i f : view (get_mut l i f) = alter f i (view l).
Proof.
  apply map_eq. intros j. rewrite lookup_alter, !lookup_view. unfold get_mut.
  destruct (Nat.leb_spec (length (items l)) i) as [Hge|Hlt]; simpl.
  - case_decide as Hij; [subst|done]. by rewrite (lookup_ge_None_2 _ _ Hge).
  - rewrite list_lookup_alter. case_decide as Hij; [subst|done].
    destruct (items l !! j) as [[x|]|]; done.
Qed.

(** [optimize] renumbers the live items in index order. *)
Fixpoint live_indices (n : nat) (its : list (option T)) : list nat :=
  match its with
  | [] => []
  | Some _ :: its => n :: live_indices (S n) its
  | None :: its => live_indices (S n) its
  end.

Lemma live_indices_elem n its k :
  k ∈ live_indices n its ↔ n ≤ k ∧ ∃ x, its !! (k - n) = Some (Some x).
Proof.
  revert n. induction its as [|o its IH]; intros n; simpl.
  - rewrite elem_of_nil. setoid_rewrite lookup_nil. naive_solver.
  - assert (Hstep : (S n ≤ k ∧ ∃ x, its !! (k - S n) = Some (Some x)) ↔
              (n < k ∧ ∃ x, (o :: its) !! (k - n) = Some (Some x))).
    { split; intros [Hle [x Hx]]; (split; [lia|]); exists x;
        replace (k - n) with (S (k - S n)) in * by lia; done. }
    destruct o as [y|]; rewrite ?elem_of_cons, IH, Hstep; clear IH Hstep.
    + split.
      * intros [->|[? ?]]; [|split; [lia|done]]. rewrite Nat.sub_diag. eauto.
      * intros [Hle ?]. destruct (decide (k = n)); [by left|right]. split; [lia|done].
    + split; [intros [? ?]; split; [lia|done]|]. intros [Hle [x Hx]].
      destruct (decide (k = n)) as [->|]; [|split; [lia|by exists x]].
      by rewrite Nat.sub_diag in Hx.
Qed.

Lemma live_indices_sorted n its : StronglySorted lt (live_indices n its).
Proof.
  revert n. induction its as [|[y|] its IH]; intros n; simpl; [constructor| |done].
  constructor; [done|]. apply Forall_forall. intros k Hk.
  apply live_indices_elem in Hk. lia.
Qed.

Lemma omap_live_indices l :
  omap (λ k, view l !! k) (live_indices 0 (items l)) = iter l.
Proof.
  unfold iter.
  assert (Hgen : ∀ pre its, items l = pre ++ its →
            omap (λ k, view l !! k) (live_indices (length pre) its) = omap id its).
  { intros pre its. revert pre. induction its as [|o its IH]; intros pre Hl; [done|].
    specialize (IH (pre ++ [o])). rewrite length_app, Nat.add_1_r, <- (assoc_L (++)) in IH.
    specialize (IH Hl). destruct o as [y|]; simpl; [|done].
    rewrite lookup_view, Hl, lookup_app_r, Nat.sub_diag by lia. simpl. f_equal. exact IH. }
  by apply (Hgen []).
Qed.

Lemma filter_is_Some (its : list (option T)) : filter is_Some its = Some <$> omap id its.
Proof.
  induction its as [|[y|] its IH]; [done| |].
  - rewrite filter_cons_True by done. by rewrite IH.
  - rewrite filter_cons_False; [done|]. by intros [? ?].
Qed.

Lemma omap_Some (l : list T) : omap id (Some <$> l) = l.
Proof. induction l; simpl; by f_equal. Qed.

Lemma optimize_iter l : iter (optimize l) = iter l.
Proof. unfold iter. simpl. by rewrite filter_is_Some, omap_Some. Qed.

Lemma optimize_wf l : wf l → wf (optimize l).
Proof.
  intros Hwf. split; simpl; try done; try lia.
  - by rewrite optimize_iter, (wf_len l Hwf).
Qed.

Lemma optimize_view l :
  view (optimize l) = map_seq 0 (omap (λ k, view l !! k) (live_indices 0 (items l))).
Proof.
  rewrite omap_live_indices. apply map_eq. intros i.
  rewrite lookup_view, lookup_map_seq_0. simpl. rewrite filter_is_Some, list_lookup_fmap.
  unfold iter. by destruct (omap id (items l) !! i).
Qed.

Lemma step_refines l o :
  wf l → ∃ l' ob, step l o = Ok (l', ob) ∧ wf l' ∧ slab_step (view l) o ob (view l').
Proof.
  intros Hwf. destruct o as [x|i|i|i f|f| |]; simpl.
  - destruct (append_spec l x Hwf) as (l' & i & -> & ? & ? & Hv). simpl.
    do 2 eexists. split_and!; [done|done|]. rewrite Hv. by constructor.
  - destruct (remove_spec l i Hwf) as (l' & -> & ? & Hv). simpl.
    do 2 eexists. split_and!; [done|done|]. rewrite Hv. constructor.
  - rewrite get_view. do 2 eexists. split_and!; [done|done|]. constructor.
  - do 2 eexists. split_and!; [done|by apply get_mut_wf|].
    rewrite get_mut_view. constructor.
  - do 2 eexists. split_and!; [done|by apply iter_mut_wf|].
    rewrite iter_mut_view. constructor.
  - do 2 eexists. split_and!; [done|apply clear_wf|].
    rewrite (view_nil (clear l)) by done. constructor.
  - do 2 eexists. split_and!; [done|by apply optimize_wf|]. rewrite optimize_view.
    constructor; [apply live_indices_sorted|]. intros k.
    rewrite live_indices_elem, Nat.sub_0_r, lookup_view. split.
    + intros [_ [x ->]]. done.
    + destruct (items l !! k) as [[x|]|] eqn:Hk; intros [y Hy]; try done.
      split; [lia|eauto].
Qed.

(** The number [len] reports is the number of live indices. *)
Lemma len_view l : wf l → len l = size (view l).
Proof.
  intros Hwf. rewrite (wf_len l Hwf), <- omap_live_indices.
  set (ks := live_indices 0 (items l)).
  assert (Hdom : dom (view l) = list_to_set ks).
  { apply set_eq. intros k. rewrite elem_of_dom, elem_of_list_to_set. unfold ks.
    rewrite live_indices_elem, Nat.sub_0_r, lookup_view. split.
    - destruct (items l !! k) as [[x|]|]; intros [y Hy]; try done. split; [lia|eauto].
    - intros [_ [x ->]]. done. }
  rewrite <- size_dom, Hdom, size_list_to_set.
  - assert (Hall : ∀ k, k ∈ ks → is_Some (view l !! k)).
    { intros k Hk. apply elem_of_dom. rewrite Hdom. by apply elem_of_list_to_set. }
    clearbody ks. clear Hdom. induction ks as [|k ks IH]; [done|]. simpl.
    destruct (Hall k) as [x ->]; [by constructor|]. simpl. f_equal. apply IH.
    intros j Hj. apply Hall. by constructor.
  - assert (Hsort : StronglySorted lt ks) by apply live_indices_sorted.
    clearbody ks. clear Hdom. induction Hsort as [|k ks _ IH Hlt]; constructor; [|done].
    intros Hin. rewrite Forall_forall in Hlt. specialize (Hlt k Hin). lia.
Qed.

End Operations.

(** A hole can be lost: after three removals and two appends, the slot pushed
    by the next removal lands above spent entries, and the following append
    grows the list although two holes are free. *)
Example append_misses_hole :
  (λ r, match r with Ok (l, obs) => (slots l, last_slot_idx l, drop 9 obs) | _ => ([], 0, []) end)
    (run new [Append 0; Append 1; Append 2; Append 3; Remove 0; Remove 1; Remove 2;
              Append 4; Append 5; Remove 3; Append 6])
  = ([1; 0; 0; 4], 2, [ObsItem (Some 3); ObsIndex 4]).
Proof. reflexivity. Qed.
