(* ===== verification/EventLoop.v ===== *)
(** Reference counting of event-loop handles:
    [libs/raster_runtime_utils/src/event_loop.rs].

    [world] holds the process-wide [RUNTIMES] map, the [Arc<EventLoopRef>]
    objects by location, and the log of wake-ups.  Every Rust function that
    touches a runtime goes through [state_for], which inserts a fresh state on
    first use; the model keeps that insertion.  Counters are [usize] and wrap
    at 64 bits.  [exec_counts] is the accounting theorem, [race_leaks] shows
    what the two-step [reference] and [unreference] allow when they interleave. *)

From S2P Require Import Prelude.

Abbreviation RtKey := nat (only parsing).
Abbreviation loc := nat (only parsing).

Definition usize_add (a d : Z) : Z := (a + d) `mod` 18446744073709551616.
Definition usize_sub (a d : Z) : Z := (a - d) `mod` 18446744073709551616.

Record RuntimeLoopState := mkRuntimeLoopState {
  refs : Z;
  http_inflight : Z;
}.

Definition RuntimeLoopState_new : RuntimeLoopState :=
  {| refs := 0; http_inflight := 0 |}.

Record EventLoopRef := mkEventLoopRef {
  ref_rt : RtKey;
  referenced : bool;
}.

(** What a waiter can observe: the [quiescent] notification of a runtime, and
    a wake-up of its native drivers. *)
Inductive wake := Quiescent (rt : RtKey) | WakeDrivers (rt : RtKey).

Record world := mkWorld {
  RUNTIMES : gmap RtKey RuntimeLoopState;
  handles : gmap loc EventLoopRef;
  wakes : list wake;
}.

Definition set_runtime (rt : RtKey) (s : RuntimeLoopState) (w : world) : world :=
  {| RUNTIMES := <[rt := s]> (RUNTIMES w); handles := handles w; wakes := wakes w |}.
Definition set_handle (l : loc) (h : EventLoopRef) (w : world) : world :=
  {| RUNTIMES := RUNTIMES w; handles := <[l := h]> (handles w); wakes := wakes w |}.
Definition log_wake (k : wake) (w : world) : world :=
  {| RUNTIMES := RUNTIMES w; handles := handles w; wakes := wakes w ++ [k] |}.

(** The state of a runtime, inserted on first use. *)
Definition state_for (rt : RtKey) (w : world) : RuntimeLoopState * world :=
  match RUNTIMES w !! rt with
  | Some s => (s, w)
  | None => (RuntimeLoopState_new, set_runtime rt RuntimeLoopState_new w)
  end.

Definition unregister_runtime (rt : RtKey) (w : world) : world :=
  {| RUNTIMES := delete rt (RUNTIMES w); handles := handles w; wakes := wakes w |}.

Definition has_refed_handles (rt : RtKey) (w : world) : bool * world :=
  let '(s, w) := state_for rt w in (0 <? refs s, w).

Definition has_http_inflight (rt : RtKey) (w : world) : bool * world :=
  let '(s, w) := state_for rt w in (0 <? http_inflight s, w).

(** [has_refed_handles(rt) || has_http_inflight(rt)], short-circuiting. *)
Definition should_keep_process_alive (rt : RtKey) (w : world) : bool * world :=
  let '(r, w) := has_refed_handles rt w in
  if r then (true, w) else has_http_inflight rt w.

(** [delta : i32]; the negation of a negative [i32] is taken modulo 2^64. *)
Definition adjust_http_inflight (rt : RtKey) (delta : Z) (w : world) : world :=
  let '(s, w) := state_for rt w in
  let n := if 0 <=? delta then usize_add (http_inflight s) delta
           else usize_sub (http_inflight s) (- delta) in
  log_wake (WakeDrivers rt) (set_runtime rt {| refs := refs s; http_inflight := n |} w).

Definition increment_ref (rt : RtKey) (w : world) : world :=
  let '(s, w) := state_for rt w in
  set_runtime rt {| refs := usize_add (refs s) 1; http_inflight := http_inflight s |} w.

(** [saturating_sub]; the transition from one to zero notifies. *)
Definition decrement_ref (rt : RtKey) (w : world) : world :=
  let '(s, w) := state_for rt w in
  let prev := refs s in
  let w := set_runtime rt {| refs := Z.max 0 (prev - 1); http_inflight := http_inflight s |} w in
  if prev =? 1 then log_wake (WakeDrivers rt) (log_wake (Quiescent rt) w) else w.

(** [Arc::new] picks an unused location. *)
Definition new_referenced (rt : RtKey) (l : loc) (w : world) : world :=
  set_handle l {| ref_rt := rt; referenced := true |} (increment_ref rt w).
Definition new_unreferenced (rt : RtKey) (l : loc) (w : world) : world :=
  set_handle l {| ref_rt := rt; referenced := false |} w.

Definition is_referenced (l : loc) (w : world) : bool :=
  match handles w !! l with Some h => referenced h | None => false end.

(** [referenced.swap(v)]: the old value, and the handle updated. *)
Definition swap_referenced (l : loc) (v : bool) (w : world) : option (bool * RtKey) * world :=
  match handles w !! l with
  | Some h => (Some (referenced h, ref_rt h), set_handle l {| ref_rt := ref_rt h; referenced := v |} w)
  | None => (None, w)
  end.

Definition reference (l : loc) (w : world) : world :=
  let '(old, w) := swap_referenced l true w in
  match old with
  | Some (false, rt) => increment_ref rt w
  | _ => w
  end.

Definition unreference (l : loc) (w : world) : world :=
  let '(old, w) := swap_referenced l false w in
  match old with
  | Some (true, rt) => decrement_ref rt w
  | _ => w
  end.

(** The last [Arc] goes away: [Drop for EventLoopRef]. *)
Definition drop_ref (l : loc) (w : world) : world :=
  match handles w !! l with
  | Some h =>
      let w := if referenced h then decrement_ref (ref_rt h) w else w in
      {| RUNTIMES := RUNTIMES w; handles := delete l (handles w); wakes := wakes w |}
  | None => w
  end.

(** A handle keeps I/O tasks alive while it, or any other handle of its
    runtime, is referenced. *)
Definition keeps_event_loop_alive (l : loc) (w : world) : bool * world :=
  match handles w !! l with
  | Some h => if referenced h then (true, w) else has_refed_handles (ref_rt h) w
  | None => (false, w)
  end.

(** One poll of [wait_until_io_unref]: it resolves as soon as nothing keeps the
    loop alive, and parks on the [quiescent] notification otherwise. *)
Definition poll_wait_until_io_unref (l : loc) (w : world) : bool * world :=
  let '(alive, w) := keeps_event_loop_alive l w in (negb alive, w).

(** * Accounting *)

Definition holds (rt : RtKey) (p : loc * EventLoopRef) : Prop :=
  ref_rt p.2 = rt ∧ referenced p.2 = true.
#[export] Instance holds_dec rt p : Decision (holds rt p) := ltac:(unfold holds; apply _).

(** The number of live handles that hold runtime [rt]. *)
Definition ref_count (rt : RtKey) (w : world) : Z :=
  Z.of_nat (size (filter (holds rt) (handles w))).

Definition refs_of (rt : RtKey) (w : world) : Z :=
  match RUNTIMES w !! rt with Some s => refs s | None => 0 end.

(** The counter of every runtime is the number of handles that hold it. *)
Definition counted (w : world) : Prop := ∀ rt, refs_of rt w = ref_count rt w.

(** The calls on handles and runtimes. *)
Inductive op :=
  | NewReferenced (rt : RtKey) (l : loc)
  | NewUnreferenced (rt : RtKey) (l : loc)
  | Reference (l : loc)
  | Unreference (l : loc)
  | DropRef (l : loc)
  | AdjustHttp (rt : RtKey) (delta : Z)
  | QueryRefed (rt : RtKey)
  | Unregister (rt : RtKey).

Definition exec (o : op) (w : world) : world :=
  match o with
  | NewReferenced rt l => new_referenced rt l w
  | NewUnreferenced rt l => new_unreferenced rt l w
  | Reference l => reference l w
  | Unreference l => unreference l w
  | DropRef l => drop_ref l w
  | AdjustHttp rt d => adjust_http_inflight rt d w
  | QueryRefed rt => (has_refed_handles rt w).2
  | Unregister rt => unregister_runtime rt w
  end.

(** Allocation returns an unused location of a 64-bit address space, and a
    runtime is unregistered only once nothing holds it. *)
Definition allowed (o : op) (w : world) : Prop :=
  match o with
  | NewReferenced _ l | NewUnreferenced _ l =>
      handles w !! l = None ∧ Z.of_nat (size (handles w)) < 18446744073709551614
  | Unregister rt => ref_count rt w = 0
  | _ => True
  end.

Fixpoint exec_all (os : list op) (w : world) : world :=
  match os with [] => w | o :: os => exec_all os (exec o w) end.
Fixpoint all_allowed (os : list op) (w : world) : Prop :=
  match os with [] => True | o :: os => allowed o w ∧ all_allowed os (exec o w) end.

Definition world_init : world := {| RUNTIMES := ∅; handles := ∅; wakes := [] |}.

Lemma state_for_spec rt w :
  refs (state_for rt w).1 = refs_of rt w ∧
  (∀ rt', refs_of rt' (state_for rt w).2 = refs_of rt' w) ∧
  handles (state_for rt w).2 = handles w ∧ wakes (state_for rt w).2 = wakes w.
Proof.
  unfold state_for, refs_of. destruct (RUNTIMES w !! rt) as [s|] eqn:Hs; simpl; [done|].
  split_and!; try done. intros rt'. destruct (decide (rt = rt')) as [->|Hne].
  - by rewrite lookup_insert_eq, Hs.
  - by rewrite lookup_insert_ne.
Qed.

Lemma refs_of_set rt rt' s w :
  refs_of rt' (set_runtime rt s w) = if decide (rt = rt') then refs s else refs_of rt' w.
Proof.
  unfold refs_of. simpl. rewrite lookup_insert. by destruct (decide (rt = rt')).
Qed.

Lemma increment_ref_spec rt w :
  handles (increment_ref rt w) = handles w ∧ wakes (increment_ref rt w) = wakes w ∧
  ∀ rt', refs_of rt' (increment_ref rt w) =
         if decide (rt = rt') then usize_add (refs_of rt w) 1 else refs_of rt' w.
Proof.
  unfold increment_ref. pose proof (state_for_spec rt w) as (H1 & H2 & H3 & H4).
  destruct (state_for rt w) as [s w1]; simpl in *. split_and!; [done..|].
  intros rt'. rewrite refs_of_set. simpl. by rewrite H1, H2.
Qed.

Lemma decrement_ref_spec rt w :
  handles (decrement_ref rt w) = handles w ∧
  wakes (decrement_ref rt w) =
    wakes w ++ (if refs_of rt w =? 1 then [Quiescent rt; WakeDrivers rt] else []) ∧
  ∀ rt', refs_of rt' (decrement_ref rt w) =
         if decide (rt = rt') then Z.max 0 (refs_of rt w - 1) else refs_of rt' w.
Proof.
  unfold decrement_ref. pose proof (state_for_spec rt w) as (H1 & H2 & H3 & H4).
  destruct (state_for rt w) as [s w1]; simpl in *. rewrite H1.
  split_and!.
  - by destruct (refs_of rt w =? 1).
  - destruct (refs_of rt w =? 1); simpl; rewrite H4, ?app_nil_r, <- ?(assoc_L (++)); done.
  - intros rt'. rewrite <- (H2 rt').
    transitivity (refs_of rt' (set_runtime rt
      {| refs := Z.max 0 (refs_of rt w - 1); http_inflight := http_inflight s |} w1)).
    + by destruct (refs_of rt w =? 1).
    + by rewrite refs_of_set.
Qed.

(** What one handle adds to the count of [rt]. *)
Definition share (rt : RtKey) (o : option EventLoopRef) : Z :=
  match o with
  | Some h => if decide (ref_rt h = rt) then (if referenced h then 1 else 0) else 0
  | None => 0
  end.

Lemma size_filter_delete rt (m : gmap loc EventLoopRef) l :
  Z.of_nat (size (filter (holds rt) (delete l m))) + share rt (m !! l) =
  Z.of_nat (size (filter (holds rt) m)).
Proof.
  destruct (m !! l) as [h|] eqn:Hl; [|rewrite delete_id by done; simpl; lia].
  rewrite <- (insert_delete_id m l h Hl) at 2.
  assert (Hd : filter (holds rt) (delete l m) !! l = None).
  { apply map_lookup_filter_None. left. apply lookup_delete_eq. }
  simpl. destruct (decide (ref_rt h = rt)) as [Hrt|Hrt]; [destruct (referenced h) eqn:Hr|].
  - rewrite map_filter_insert_True by done. rewrite map_size_insert_None by done. lia.
  - rewrite map_filter_insert_False, delete_delete_eq; [lia|].
    intros [_ Hc]. simpl in Hc. congruence.
  - rewrite map_filter_insert_False, delete_delete_eq; [lia|]. by intros [Hc _].
Qed.

Lemma size_filter_insert rt (m : gmap loc EventLoopRef) l h :
  Z.of_nat (size (filter (holds rt) (<[l:=h]> m))) =
  Z.of_nat (size (filter (holds rt) m)) - share rt (m !! l) + share rt (Some h).
Proof.
  pose proof (size_filter_delete rt m l) as H1.
  pose proof (size_filter_delete rt (<[l:=h]> m) l) as H2.
  rewrite lookup_insert_eq, delete_insert_eq in H2. lia.
Qed.

Lemma ref_count_bound rt w : 0 ≤ ref_count rt w ≤ Z.of_nat (size (handles w)).
Proof.
  unfold ref_count. split; [lia|]. apply Nat2Z.inj_le.
  apply map_size_filter.
Qed.

(** ** One call changes one runtime's counter and count by the same amount *)

Definition at_rt (rt rt' : RtKey) (d : Z) : Z := if decide (rt = rt') then d else 0.

Record effect (w w' : world) (rt : RtKey) (d : Z) (ks : list wake) : Prop := {
  eff_range : -1 ≤ d ≤ 1;
  eff_refs : ∀ rt', refs_of rt' w' = refs_of rt' w + at_rt rt rt' d;
  eff_count : ∀ rt', ref_count rt' w' = ref_count rt' w + at_rt rt rt' d;
  eff_wakes : wakes w' = wakes w ++ ks;
  eff_quiet : ∀ rt', Quiescent rt' ∈ ks ↔ rt' = rt ∧ d = -1 ∧ ref_count rt w = 1;
}.

Definition inv (w : world) : Prop :=
  counted w ∧ Z.of_nat (size (handles w)) ≤ 18446744073709551614.

Lemma share_at rt rt' b :
  share rt' (Some {| ref_rt := rt; referenced := b |}) = at_rt rt rt' (if b then 1 else 0).
Proof. unfold share, at_rt. simpl. by destruct (decide _), b. Qed.

Lemma share_at_handle rt' h : share rt' (Some h) = at_rt (ref_rt h) rt' (if referenced h then 1 else 0).
Proof. destruct h. apply share_at. Qed.

(** Keep the counters, change no share: no effect. *)
Lemma effect_none w w' rt :
  (∀ rt', refs_of rt' w' = refs_of rt' w) → handles w' = handles w →
  (∃ ks, wakes w' = wakes w ++ ks ∧ ∀ rt', Quiescent rt' ∉ ks) →
  ∃ ks, effect w w' rt 0 ks.
Proof.
  intros Hr Hh (ks & Hk & Hq). exists ks. split; [lia| | |done|].
  - intros rt'. rewrite Hr. unfold at_rt. case_decide; lia.
  - intros rt'. unfold ref_count. rewrite Hh. unfold at_rt. case_decide; lia.
  - intros rt'. split; [intros H; by destruct (Hq rt')|lia].
Qed.

Lemma effect_same_share w l h :
  (∀ rt', share rt' (handles w !! l) = share rt' (Some h)) →
  effect w (set_handle l h w) (ref_rt h) 0 [].
Proof.
  intros Hs. split; [lia| | | |].
  - intros rt'. unfold at_rt, refs_of. simpl. case_decide; lia.
  - intros rt'. unfold ref_count. simpl. rewrite size_filter_insert, Hs.
    unfold at_rt. case_decide; lia.
  - simpl. by rewrite app_nil_r.
  - intros rt'. rewrite elem_of_nil. lia.
Qed.

Lemma effect_acquire w l rt :
  inv w → (∀ rt', share rt' (handles w !! l) = 0) →
  ∀ w', handles w' = <[l := {| ref_rt := rt; referenced := true |}]> (handles w) →
        (∀ rt', refs_of rt' w' =
           if decide (rt = rt') then usize_add (refs_of rt w) 1 else refs_of rt' w) →
        wakes w' = wakes w → effect w w' rt 1 [].
Proof.
  intros [Hc Hsz] Hz w' Hh Hr Hw.
  assert (Hcnt : ∀ rt', ref_count rt' w' = ref_count rt' w + at_rt rt rt' 1).
  { intros rt'. unfold ref_count. rewrite Hh, size_filter_insert, Hz, share_at. lia. }
  split; [lia| |done|by rewrite app_nil_r|].
  - intros rt'. rewrite Hr. unfold at_rt. case_decide; [subst|lia]. unfold usize_add.
    rewrite Z.mod_small; [done|]. rewrite (Hc rt'). pose proof (ref_count_bound rt' w). lia.
  - intros rt'. rewrite elem_of_nil. lia.
Qed.

Lemma effect_release w w' h :
  counted w → referenced h = true → 1 ≤ ref_count (ref_rt h) w →
  (∀ rt', ref_count rt' w' = ref_count rt' w + at_rt (ref_rt h) rt' (-1)) →
  (∀ rt', refs_of rt' w' =
     if decide (ref_rt h = rt') then Z.max 0 (refs_of (ref_rt h) w - 1) else refs_of rt' w) →
  wakes w' = wakes w ++ (if refs_of (ref_rt h) w =? 1
                         then [Quiescent (ref_rt h); WakeDrivers (ref_rt h)] else []) →
  effect w w' (ref_rt h) (-1)
    (if refs_of (ref_rt h) w =? 1 then [Quiescent (ref_rt h); WakeDrivers (ref_rt h)] else []).
Proof.
  intros Hc Hh Hpos Hcnt Hr Hw. split; [lia| |done|done|].
  - intros rt'. rewrite Hr. unfold at_rt. case_decide; [subst|lia].
    rewrite (Hc (ref_rt h)). lia.
  - intros rt'. rewrite (Hc (ref_rt h)). destruct (Z.eqb_spec (ref_count (ref_rt h) w) 1).
    + rewrite !elem_of_cons, elem_of_nil. naive_solver.
    + rewrite elem_of_nil. naive_solver.
Qed.

Lemma ref_count_pos w l h :
  handles w !! l = Some h → referenced h = true → 1 ≤ ref_count (ref_rt h) w.
Proof.
  intros Hl Hr. pose proof (size_filter_delete (ref_rt h) (handles w) l) as Hd.
  rewrite Hl, share_at_handle, Hr in Hd. unfold at_rt in Hd. rewrite decide_True in Hd by done.
  unfold ref_count. lia.
Qed.

(** No handle at the location: the call does nothing. *)
Lemma effect_missing w : ∃ rt d ks, effect w w rt d ks.
Proof.
  exists 0%nat, 0. eapply effect_none; [done|done|]. exists []. rewrite app_nil_r. set_solver.
Qed.

Lemma new_effect rt l (b : bool) w :
  inv w → handles w !! l = None →
  ∃ d ks, effect w ((if b then new_referenced else new_unreferenced) rt l w) rt d ks.
Proof.
  intros Hinv Hl. destruct b.
  - exists 1, []. unfold new_referenced.
    pose proof (increment_ref_spec rt w) as (H1 & H2 & H3).
    apply (effect_acquire w l rt); [done| | |done|done].
    + intros rt'. by rewrite Hl.
    + simpl. by rewrite H1.
  - exists 0, []. apply (effect_same_share w l {| ref_rt := rt; referenced := false |}).
    intros rt'. rewrite Hl, share_at. unfold at_rt. by case_decide.
Qed.

Lemma reference_effect l w : inv w → ∃ rt d ks, effect w (reference l w) rt d ks.
Proof.
  intros Hinv. unfold reference, swap_referenced.
  destruct (handles w !! l) as [h|] eqn:Hl; [|apply effect_missing].
  destruct (referenced h) eqn:Hr; simpl.
  - exists (ref_rt h), 0, [].
    apply (effect_same_share w l {| ref_rt := ref_rt h; referenced := true |}).
    intros rt'. by rewrite Hl, share_at_handle, share_at, Hr.
  - exists (ref_rt h), 1, [].
    pose proof (increment_ref_spec (ref_rt h)
      (set_handle l {| ref_rt := ref_rt h; referenced := true |} w)) as (H1 & H2 & H3).
    apply (effect_acquire w l); [done| | |done|done].
    + intros rt'. rewrite Hl, share_at_handle, Hr. unfold at_rt. by case_decide.
    + by rewrite H1.
Qed.

Lemma unreference_effect l w : inv w → ∃ rt d ks, effect w (unreference l w) rt d ks.
Proof.
  intros [Hc Hsz]. unfold unreference, swap_referenced.
  destruct (handles w !! l) as [h|] eqn:Hl; [|apply effect_missing].
  destruct (referenced h) eqn:Hr; simpl.
  - pose proof (decrement_ref_spec (ref_rt h)
      (set_handle l {| ref_rt := ref_rt h; referenced := false |} w)) as (H1 & H2 & H3).
    do 3 eexists. apply (effect_release w _ h); [done|done| | |done|done].
    + by eapply ref_count_pos.
    + intros rt'. unfold ref_count. rewrite H1. simpl.
      rewrite size_filter_insert, Hl, share_at_handle, share_at, Hr.
      unfold at_rt. case_decide; lia.
  - exists (ref_rt h), 0, [].
    apply (effect_same_share w l {| ref_rt := ref_rt h; referenced := false |}).
    intros rt'. by rewrite Hl, share_at_handle, share_at, Hr.
Qed.

Lemma drop_effect l w : inv w → ∃ rt d ks, effect w (drop_ref l w) rt d ks.
Proof.
  intros [Hc Hsz]. unfold drop_ref.
  destruct (handles w !! l) as [h|] eqn:Hl; [|apply effect_missing].
  assert (Hd : ∀ rt', Z.of_nat (size (filter (holds rt') (delete l (handles w)))) =
                      ref_count rt' w - at_rt (ref_rt h) rt' (if referenced h then 1 else 0)).
  { intros rt'. pose proof (size_filter_delete rt' (handles w) l) as Hd.
    rewrite Hl, share_at_handle in Hd. unfold ref_count. lia. }
  destruct (referenced h) eqn:Hr.
  - pose proof (decrement_ref_spec (ref_rt h) w) as (H1 & H2 & H3).
    do 3 eexists. apply (effect_release w _ h); [done|done| | |done|done].
    + by eapply ref_count_pos.
    + intros rt'. unfold ref_count at 1. simpl. rewrite H1, Hd.
      unfold at_rt in *. case_decide; lia.
  - exists (ref_rt h), 0, []. split; [lia| | | |].
    + intros rt'. unfold at_rt, refs_of. simpl. case_decide; lia.
    + intros rt'. unfold ref_count at 1. simpl. rewrite Hd. unfold at_rt. case_decide; lia.
    + simpl. by rewrite app_nil_r.
    + intros rt'. rewrite elem_of_nil. lia.
Qed.

Lemma adjust_effect rt d w : ∃ ks, effect w (adjust_http_inflight rt d w) rt 0 ks.
Proof.
  unfold adjust_http_inflight. pose proof (state_for_spec rt w) as (H1 & H2 & H3 & H4).
  destruct (state_for rt w) as [s w1]; simpl in *. eapply effect_none.
  - intros rt'. rewrite <- H2. unfold log_wake.
    transitivity (if decide (rt = rt') then refs s else refs_of rt' w1);
      [apply (refs_of_set rt rt' {| refs := refs s; http_inflight := _ |} w1)|].
    case_decide; [subst; by rewrite H1, H2|done].
  - done.
  - simpl. rewrite H4. exists [WakeDrivers rt]. split; [done|]. set_solver.
Qed.

Lemma unregister_effect rt w :
  counted w → ref_count rt w = 0 → ∃ ks, effect w (unregister_runtime rt w) rt 0 ks.
Proof.
  intros Hc Ha. eapply effect_none; [|done|].
  - intros rt'. pose proof (Hc rt') as Hr. unfold refs_of in *. simpl.
    destruct (decide (rt = rt')) as [->|Hne].
    + rewrite lookup_delete_eq. by rewrite Ha in Hr.
    + by rewrite lookup_delete_ne.
  - exists []. rewrite app_nil_r. set_solver.
Qed.

Lemma query_effect rt w : ∃ ks, effect w (has_refed_handles rt w).2 rt 0 ks.
Proof.
  unfold has_refed_handles. pose proof (state_for_spec rt w) as (H1 & H2 & H3 & H4).
  destruct (state_for rt w) as [s w1]; simpl in *.
  eapply effect_none; [done|done|]. exists []. rewrite app_nil_r. set_solver.
Qed.

#[local] Hint Resolve new_effect reference_effect unreference_effect drop_effect
  adjust_effect unregister_effect query_effect : raster.

Lemma exec_effect o w :
  inv w → allowed o w → ∃ rt d ks, effect w (exec o w) rt d ks.
Proof.
  intros Hinv Ha. pose proof Hinv as [Hc _].
  destruct o as [rt l|rt l|l|l|l|rt d|rt|rt]; simpl in *.
  - exists rt. destruct Ha as [Ha _]. exact (new_effect rt l true w Hinv Ha).
  - exists rt. destruct Ha as [Ha _]. exact (new_effect rt l false w Hinv Ha).
  - auto with raster.
  - auto with raster.
  - auto with raster.
  - exists rt, 0. auto with raster.
  - exists rt, 0. auto with raster.
  - exists rt, 0. auto with raster.
Qed.

Lemma handles_decrement rt w : handles (decrement_ref rt w) = handles w.
Proof. apply decrement_ref_spec. Qed.

Lemma handles_increment rt w : handles (increment_ref rt w) = handles w.
Proof. apply increment_ref_spec. Qed.

Lemma size_insert_le (m : gmap loc EventLoopRef) l h :
  (size (<[l:=h]> m) ≤ S (size m))%nat ∧ (is_Some (m !! l) → size (<[l:=h]> m) = size m).
Proof.
  split; [|by apply map_size_insert_Some]. rewrite map_size_insert. destruct (m !! l); simpl; lia.
Qed.

(** Only allocation adds a handle. *)
Lemma exec_size o w : inv w → allowed o w → Z.of_nat (size (handles (exec o w))) ≤ 18446744073709551614.
Proof.
  intros [_ Hsz] Ha. destruct o as [rt l|rt l|l|l|l|rt d|rt|rt]; simpl in *.
  - destruct Ha as [_ Ha]. rewrite handles_increment. pose proof (proj1 (size_insert_le (handles w) l
      {| ref_rt := rt; referenced := true |})). lia.
  - destruct Ha as [_ Ha]. pose proof (proj1 (size_insert_le (handles w) l
      {| ref_rt := rt; referenced := false |})). lia.
  - unfold reference, swap_referenced. destruct (handles w !! l) as [h|] eqn:Hl; [|done].
    destruct (referenced h); simpl; rewrite ?handles_increment; simpl;
      rewrite (proj2 (size_insert_le _ _ _)); [done|by eexists|done|by eexists].
  - unfold unreference, swap_referenced. destruct (handles w !! l) as [h|] eqn:Hl; [|done].
    destruct (referenced h); simpl; rewrite ?handles_decrement; simpl;
      rewrite (proj2 (size_insert_le _ _ _)); [done|by eexists|done|by eexists].
  - unfold drop_ref. destruct (handles w !! l) as [h|] eqn:Hl; [|done].
    destruct (referenced h); simpl; rewrite ?handles_decrement, map_size_delete, Hl; simpl; lia.
  - unfold adjust_http_inflight. pose proof (state_for_spec rt w) as (_ & _ & H3 & _).
    destruct (state_for rt w); simpl in *. by rewrite H3.
  - unfold has_refed_handles. pose proof (state_for_spec rt w) as (_ & _ & H3 & _).
    destruct (state_for rt w); simpl in *. by rewrite H3.
  - done.
Qed.

Lemma exec_inv o w : inv w → allowed o w → inv (exec o w).
Proof.
  intros Hinv Ha. split; [|by apply exec_size].
  destruct (exec_effect o w Hinv Ha) as (rt & d & ks & He). intros rt'.
  rewrite (eff_refs _ _ _ _ _ He), (eff_count _ _ _ _ _ He). by rewrite (proj1 Hinv rt').
Qed.

Lemma exec_all_inv os w : inv w → all_allowed os w → inv (exec_all os w).
Proof.
  revert w. induction os as [|o os IH]; intros w Hinv; simpl; [done|].
  intros [Ha Hs]. apply IH; [|done]. by apply exec_inv.
Qed.

Lemma init_inv : inv world_init.
Proof.
  split; [|simpl; rewrite map_size_empty; lia]. intros rt. unfold refs_of, ref_count, world_init. simpl.
  by rewrite lookup_empty, map_filter_empty, map_size_empty.
Qed.

Lemma ref_count_zero rt w :
  ref_count rt w = 0 ↔ ∀ l h, handles w !! l = Some h → ref_rt h = rt → referenced h = false.
Proof.
  unfold ref_count. split.
  - intros H l h Hl Hrt. destruct (referenced h) eqn:Hr; [|done].
    pose proof (ref_count_pos w l h Hl Hr) as Hp. subst rt. unfold ref_count in Hp. lia.
  - intros H. assert (filter (holds rt) (handles w) = ∅) as ->; [|done].
    apply map_eq. intros l. rewrite lookup_empty. apply map_lookup_filter_None. right.
    intros h Hl [Hrt Hr]. simpl in *. by rewrite (H l h Hl Hrt) in Hr.
Qed.


Lemma exec_all_quiet os w rt :
  inv w → all_allowed os w → 0 < ref_count rt w → ref_count rt (exec_all os w) = 0 →
  ∃ ks, wakes (exec_all os w) = wakes w ++ ks ∧ Quiescent rt ∈ ks.
Proof.
  revert w. induction os as [|o os IH]; intros w Hinv Ha Hp Hz; simpl in *; [lia|].
  destruct Ha as [Ha Hs]. destruct (exec_effect o w Hinv Ha) as (rt1 & d & ks & He).
  pose proof (exec_inv o w Hinv Ha) as Hinv1.
  assert (Hext : ∀ os w, inv w → all_allowed os w → ∃ ks, wakes (exec_all os w) = wakes w ++ ks).
  { clear. induction os as [|o os IH]; intros w Hinv Ha; simpl in *.
    - exists []. by rewrite app_nil_r.
    - destruct Ha as [Ha Hs]. destruct (exec_effect o w Hinv Ha) as (rt1 & d & ks & He).
      destruct (IH _ (exec_inv o w Hinv Ha) Hs) as [ks' ->].
      rewrite (eff_wakes _ _ _ _ _ He), <- (assoc_L (++)). eauto. }
  pose proof (ref_count_bound rt (exec o w)) as Hb.
  destruct (decide (ref_count rt (exec o w) = 0)) as [Hz1|Hnz].
  - destruct (Hext os _ Hinv1 Hs) as [ks' Hw']. exists (ks ++ ks').
    rewrite Hw', (eff_wakes _ _ _ _ _ He), <- (assoc_L (++)). split; [done|].
    apply elem_of_app. left. apply (eff_quiet _ _ _ _ _ He).
    pose proof (eff_count _ _ _ _ _ He rt) as Hcnt. pose proof (eff_range _ _ _ _ _ He) as Hd.
    unfold at_rt in Hcnt. case_decide; [subst|lia]. split_and!; [done|lia|lia].
  - destruct (IH _ Hinv1 Hs) as (ks' & Hw' & Hin); [lia|done|].
    exists (ks ++ ks'). rewrite Hw', (eff_wakes _ _ _ _ _ He), <- (assoc_L (++)).
    split; [done|]. apply elem_of_app. by right.
Qed.

Lemma poll_wait_spec l h w :
  inv w → handles w !! l = Some h →
  (poll_wait_until_io_unref l w).1 = (ref_count (ref_rt h) w =? 0).
Proof.
  intros [Hc _] Hl. unfold poll_wait_until_io_unref, keeps_event_loop_alive. rewrite Hl.
  destruct (referenced h) eqn:Hr; simpl.
  - pose proof (ref_count_pos w l h Hl Hr). symmetry. apply Z.eqb_neq. lia.
  - unfold has_refed_handles. pose proof (state_for_spec (ref_rt h) w) as (H1 & _).
    destruct (state_for (ref_rt h) w) as [s w1]; simpl in *. rewrite H1, (Hc (ref_rt h)).
    pose proof (ref_count_bound (ref_rt h) w).
    destruct (Z.ltb_spec 0 (ref_count (ref_rt h) w)), (Z.eqb_spec (ref_count (ref_rt h) w) 0);
      simpl; lia || done.
Qed.

(** No wake-up is lost: when [wait_until_io_unref] parks because the
    runtime is still held, and later calls release the last referenced
    handle, a [quiescent] notification for that runtime was sent in between,
    and polling again resolves the wait. *)
Theorem no_lost_wakeup (os1 os2 : list op) (l : loc) (h h' : EventLoopRef) :
  let w := exec_all os1 world_init in
  let w' := exec_all os2 w in
  all_allowed os1 world_init → all_allowed os2 w →
  handles w !! l = Some h → (poll_wait_until_io_unref l w).1 = false →
  handles w' !! l = Some h' → ref_rt h' = ref_rt h → ref_count (ref_rt h) w' = 0 →
  (poll_wait_until_io_unref l w').1 = true ∧
  ∃ ks, wakes w' = wakes w ++ ks ∧ Quiescent (ref_rt h) ∈ ks.
Proof.
  intros w w' Ha1 Ha2 Hl Hp Hl' Hrt Hz.
  pose proof (exec_all_inv os1 _ init_inv Ha1) as Hinv. fold w in Hinv.
  pose proof (exec_all_inv os2 _ Hinv Ha2) as Hinv'. fold w' in Hinv'.
  rewrite (poll_wait_spec l h w Hinv Hl) in Hp. apply Z.eqb_neq in Hp.
  pose proof (ref_count_bound (ref_rt h) w). split.
  - rewrite (poll_wait_spec l h' w' Hinv' Hl'), Hrt, Hz. done.
  - apply exec_all_quiet; [done|done|lia|done].
Qed.

Definition demo_ops : list op :=
  [NewReferenced 7 0; NewUnreferenced 7 1; Reference 1; Unreference 0].


Lemma no_lost_wakeup_witness :
  let w := exec_all demo_ops world_init in
  let w' := exec_all [Unreference 1] w in
  (poll_wait_until_io_unref 0 w').1 = true ∧
  ∃ ks, wakes w' = wakes w ++ ks ∧ Quiescent 7 ∈ ks.
Proof.
  refine (no_lost_wakeup demo_ops [Unreference 1] 0
    {| ref_rt := 7; referenced := false |} {| ref_rt := 7; referenced := false |}
    _ _ _ _ _ _ _); vm_compute; tauto.
Defined.

(** * Interleaving *)

(** [reference] and [unreference] are two atomic steps: the swap of the
    handle's flag, then the update of the runtime's counter.  [pending] is
    what a thread still has to do after its swap. *)
Inductive pending := PNone | PIncrement (rt : RtKey) | PDecrement (rt : RtKey).

Definition swap_step (l : loc) (v : bool) (w : world) : pending * world :=
  let '(old, w) := swap_referenced l v w in
  match old, v with
  | Some (false, rt), true => (PIncrement rt, w)
  | Some (true, rt), false => (PDecrement rt, w)
  | _, _ => (PNone, w)
  end.

Definition count_step (p : pending) (w : world) : world :=
  match p with
  | PNone => w
  | PIncrement rt => increment_ref rt w
  | PDecrement rt => decrement_ref rt w
  end.

Lemma reference_two_steps l w :
  reference l w = count_step (swap_step l true w).1 (swap_step l true w).2.
Proof.
  unfold reference, swap_step. destruct (swap_referenced l true w) as [[[[] rt]|] w1]; done.
Qed.

Lemma unreference_two_steps l w :
  unreference l w = count_step (swap_step l false w).1 (swap_step l false w).2.
Proof.
  unfold unreference, swap_step. destruct (swap_referenced l false w) as [[[[] rt]|] w1]; done.
Qed.

(** Thread A starts [reference], thread B runs [unreference] in between. *)
Definition race (l : loc) (w : world) : world :=
  let '(a, w) := swap_step l true w in
  let '(b, w) := swap_step l false w in
  let w := count_step b w in
  count_step a w.

(** When a thread's [unreference] runs between the flag swap and the
    counter update of another thread's [reference] on the runtime's only
    handle, the decrement saturates at zero and the counter ends at one with
    no referenced handle: the process is kept alive for ever. *)
Theorem race_leaks (rt : RtKey) (l : loc) :
  let w := race l (new_unreferenced rt l world_init) in
  ref_count rt w = 0 ∧ refs_of rt w = 1 ∧ (should_keep_process_alive rt w).1 = true.
Proof.
  unfold race, new_unreferenced, swap_step, swap_referenced. simpl.
  rewrite !lookup_insert_eq. simpl. rewrite !lookup_insert_eq. simpl.
  set (w := set_handle l _ _).
  pose proof (decrement_ref_spec rt w) as (D1 & _ & D3).
  pose proof (increment_ref_spec rt (decrement_ref rt w)) as (I1 & _ & I3).
  assert (Hr : refs_of rt w = 0).
  { unfold refs_of, w. simpl. by rewrite lookup_empty. }
  assert (Hone : refs_of rt (increment_ref rt (decrement_ref rt w)) = 1).
  { rewrite I3, D3, !decide_True by done. by rewrite Hr. }
  split_and!; [|done|].
  - apply ref_count_zero. rewrite I1, D1. unfold w. simpl. rewrite !insert_insert_eq.
    intros l' h Hl _. apply lookup_singleton_Some in Hl as [_ <-]. done.
  - unfold should_keep_process_alive, has_refed_handles.
    pose proof (state_for_spec rt (increment_ref rt (decrement_ref rt w))) as (H1 & _).
    destruct (state_for rt _) as [s w1]. simpl in H1. rewrite H1, Hone. done.
Qed.
