(* ===== verification/Unicode.v ===== *)
(** The parts of Rust's standard library the text components rest on:
    [str::from_utf8] with its [Utf8Error], [String::from_utf8_lossy],
    [char::encode_utf8], [String::from_utf16], [from_utf16_lossy] and
    [encode_utf16].

    A Rust [String] is modelled by the list of its [char]s (Unicode scalar
    values), a byte slice by a list of [Z] in 0..255, UTF-16 code units by [Z]
    in 0..65535.  The laws proved here (segmentation, boundaries, round trips)
    are what the decoders' theorems use. *)

From S2P Require Import Prelude.

Abbreviation rstring := (list Z) (only parsing).

Definition REPLACEMENT : Z := 65533.

Definition is_surrogate (c : Z) : bool := (55296 <=? c) && (c <=? 57343).
Definition is_scalar (c : Z) : bool :=
  (0 <=? c) && (c <=? 1114111) && negb (is_surrogate c).

(** * UTF-8 *)

Definition is_cont (b : Z) : bool := (128 <=? b) && (b <=? 191).

(** The second byte of a three or four byte sequence is restricted by the first. *)
Definition second3 (b0 b1 : Z) : bool :=
  if b0 =? 224 then (160 <=? b1) && (b1 <=? 191)
  else if b0 =? 237 then (128 <=? b1) && (b1 <=? 159)
  else is_cont b1.
Definition second4 (b0 b1 : Z) : bool :=
  if b0 =? 240 then (144 <=? b1) && (b1 <=? 191)
  else if b0 =? 244 then (128 <=? b1) && (b1 <=? 143)
  else is_cont b1.

(** What the validator finds at the head of a slice: the end, a character of
    [n] bytes, an invalid sequence ([error_len = Some n]) or a sequence cut off
    by the end of the slice ([error_len = None]). *)
Inductive utf8_item :=
  | U8End
  | U8Char (c : Z) (n : nat)
  | U8Invalid (n : nat)
  | U8Incomplete.

Definition next2 (b0 : Z) (r : list Z) : utf8_item :=
  match r with
  | [] => U8Incomplete
  | b1 :: _ => if is_cont b1 then U8Char ((b0 - 192) * 64 + (b1 - 128)) 2 else U8Invalid 1
  end.

Definition next3 (b0 : Z) (r : list Z) : utf8_item :=
  match r with
  | [] => U8Incomplete
  | [b1] => if second3 b0 b1 then U8Incomplete else U8Invalid 1
  | b1 :: b2 :: _ =>
      if second3 b0 b1 then
        if is_cont b2 then U8Char ((b0 - 224) * 4096 + (b1 - 128) * 64 + (b2 - 128)) 3
        else U8Invalid 2
      else U8Invalid 1
  end.

Definition next4 (b0 : Z) (r : list Z) : utf8_item :=
  match r with
  | [] => U8Incomplete
  | [b1] => if second4 b0 b1 then U8Incomplete else U8Invalid 1
  | [b1; b2] =>
      if second4 b0 b1 then if is_cont b2 then U8Incomplete else U8Invalid 2
      else U8Invalid 1
  | b1 :: b2 :: b3 :: _ =>
      if second4 b0 b1 then
        if is_cont b2 then
          if is_cont b3 then
            U8Char ((b0 - 240) * 262144 + (b1 - 128) * 4096 + (b2 - 128) * 64 + (b3 - 128)) 4
          else U8Invalid 3
        else U8Invalid 2
      else U8Invalid 1
  end.

Definition utf8_next (l : list Z) : utf8_item :=
  match l with
  | [] => U8End
  | b0 :: r =>
      if b0 <? 128 then U8Char b0 1
      else if (194 <=? b0) && (b0 <=? 223) then next2 b0 r
      else if (224 <=? b0) && (b0 <=? 239) then next3 b0 r
      else if (240 <=? b0) && (b0 <=? 244) then next4 b0 r
      else U8Invalid 1
  end.

(** The valid prefix of a slice, and what follows it. *)
Fixpoint scan_fuel (fuel : nat) (l : list Z) : rstring * list Z :=
  match fuel with
  | O => ([], l)
  | S fuel =>
      match utf8_next l with
      | U8Char c n => let '(cs, rest) := scan_fuel fuel (drop n l) in (c :: cs, rest)
      | _ => ([], l)
      end
  end.
Definition scan (l : list Z) : rstring * list Z := scan_fuel (length l) l.

Record Utf8Error := mkUtf8Error { valid_up_to : nat; error_len : option nat }.

Definition from_utf8 (l : list Z) : res Utf8Error rstring :=
  let '(cs, rest) := scan l in
  let valid := (length l - length rest)%nat in
  match utf8_next rest with
  | U8End | U8Char _ _ => Ok cs
  | U8Invalid n => Err {| valid_up_to := valid; error_len := Some n |}
  | U8Incomplete => Err {| valid_up_to := valid; error_len := None |}
  end.

Fixpoint lossy_fuel (fuel : nat) (l : list Z) : rstring :=
  match fuel with
  | O => []
  | S fuel =>
      match utf8_next l with
      | U8End => []
      | U8Char c n => c :: lossy_fuel fuel (drop n l)
      | U8Invalid n => REPLACEMENT :: lossy_fuel fuel (drop n l)
      | U8Incomplete => [REPLACEMENT]
      end
  end.
Definition from_utf8_lossy (l : list Z) : rstring := lossy_fuel (length l) l.

Definition encode_char (c : Z) : list Z :=
  if c <? 128 then [c]
  else if c <? 2048 then [192 + c `div` 64; 128 + c `mod` 64]
  else if c <? 65536 then
    [224 + c `div` 4096; 128 + (c `div` 64) `mod` 64; 128 + c `mod` 64]
  else
    [240 + c `div` 262144; 128 + (c `div` 4096) `mod` 64;
     128 + (c `div` 64) `mod` 64; 128 + c `mod` 64].

(** [String::as_bytes] / [into_bytes]. *)
Definition to_utf8 (s : rstring) : list Z := mjoin (encode_char <$> s).

(** * UTF-16 *)

Definition is_lead (u : Z) : bool := (55296 <=? u) && (u <=? 56319).
Definition is_trail (u : Z) : bool := (56320 <=? u) && (u <=? 57343).
Definition combine_surrogates (u v : Z) : Z := 65536 + (u - 55296) * 1024 + (v - 56320).

Fixpoint from_utf16_lossy (us : list Z) : rstring :=
  match us with
  | [] => []
  | u :: r =>
      if is_lead u then
        match r with
        | v :: r' => if is_trail v then combine_surrogates u v :: from_utf16_lossy r'
                     else REPLACEMENT :: from_utf16_lossy r
        | [] => [REPLACEMENT]
        end
      else if is_trail u then REPLACEMENT :: from_utf16_lossy r
      else u :: from_utf16_lossy r
  end.

Fixpoint from_utf16 (us : list Z) : option rstring :=
  match us with
  | [] => Some []
  | u :: r =>
      if is_lead u then
        match r with
        | v :: r' => if is_trail v then cons (combine_surrogates u v) <$> from_utf16 r' else None
        | [] => None
        end
      else if is_trail u then None
      else cons u <$> from_utf16 r
  end.

Definition encode_utf16_char (c : Z) : list Z :=
  if c <? 65536 then [c]
  else [55296 + (c - 65536) `div` 1024; 56320 + (c - 65536) `mod` 1024].
Definition encode_utf16 (s : rstring) : list Z := mjoin (encode_utf16_char <$> s).

Definition u16_le_bytes (u : Z) : list Z := [u `mod` 256; u `div` 256].
Definition u16_be_bytes (u : Z) : list Z := [u `div` 256; u `mod` 256].
Definition u16_from_le (b0 b1 : Z) : Z := b0 + 256 * b1.
Definition u16_from_be (b0 b1 : Z) : Z := 256 * b0 + b1.

(** * Laws of the UTF-8 validator *)

Ltac utf8_cases :=
  unfold utf8_next, next2, next3, next4 in *;
  simpl in *; repeat (case_match; simpl in *; simplify_eq; try done); simplify_eq; try done.

Lemma utf8_next_char_len l c n : utf8_next l = U8Char c n → (1 ≤ n ≤ length l)%nat.
Proof. intros H. destruct l as [|b0 [|b1 [|b2 [|b3 r]]]]; utf8_cases; lia. Qed.

Lemma utf8_next_invalid_len l n : utf8_next l = U8Invalid n → (1 ≤ n ≤ length l)%nat.
Proof. intros H. destruct l as [|b0 [|b1 [|b2 [|b3 r]]]]; utf8_cases; lia. Qed.

Lemma utf8_next_end l : utf8_next l = U8End ↔ l = [].
Proof. split; [|by intros ->]. intros H. destruct l as [|b0 [|b1 [|b2 [|b3 r]]]]; utf8_cases. Qed.

(** A decided item does not depend on what follows. *)
Lemma utf8_next_app l r :
  match utf8_next l with
  | U8Char c n => utf8_next (l ++ r) = U8Char c n
  | U8Invalid n => utf8_next (l ++ r) = U8Invalid n
  | _ => True
  end.
Proof.
  destruct l as [|b0 [|b1 [|b2 [|b3 l]]]]; try done;
    unfold utf8_next; simpl; repeat case_match; try done;
    unfold next2, next3, next4 in *; simplify_eq/=; try done;
    repeat (case_match; simplify_eq/=; try done).
Qed.

(** A cut-off sequence is a lead byte and at most two continuation bytes. *)
Lemma utf8_next_incomplete l :
  utf8_next l = U8Incomplete →
  l ≠ [] ∧ (length l ≤ 3)%nat ∧
  ∃ b0 r, l = b0 :: r ∧ 194 ≤ b0 ≤ 244 ∧ Forall (λ b, is_cont b = true) r.
Proof.
  assert (Hs3 : ∀ a x, second3 a x = true → is_cont x = true)
    by (intros a x; unfold second3, is_cont; repeat case_match; intros; bool_to_prop; lia).
  assert (Hs4 : ∀ a x, second4 a x = true → is_cont x = true)
    by (intros a x; unfold second4, is_cont; repeat case_match; intros; bool_to_prop; lia).
  intros H. destruct l as [|b0 r]; [done|]. unfold utf8_next in H.
  case_match; [done|]. split; [done|].
  assert (Hb : (length (b0 :: r) ≤ 3)%nat ∧ 194 ≤ b0 ≤ 244 ∧ Forall (λ b, is_cont b = true) r).
  { destruct r as [|b1 [|b2 [|b3 r]]]; utf8_cases; bool_to_prop; repeat split; try lia;
      repeat constructor; eauto. }
  destruct Hb as (? & ? & ?). split; [done|]. eauto.
Qed.

(** Followed by a byte that does not continue it, a cut-off sequence is invalid
    as a whole. *)
Lemma utf8_next_incomplete_app l b r :
  utf8_next l = U8Incomplete → is_cont b = false →
  utf8_next (l ++ b :: r) = U8Invalid (length l).
Proof.
  assert (Hs3 : ∀ a, is_cont b = false → second3 a b = false)
    by (intros a; unfold second3, is_cont; repeat case_match; intros; bool_to_prop;
        try done; destruct (128 <=? b) eqn:?, (b <=? 191) eqn:?; simpl in *; try done;
        bool_to_prop; lia).
  assert (Hs4 : ∀ a, is_cont b = false → second4 a b = false)
    by (intros a; unfold second4, is_cont; repeat case_match; intros; bool_to_prop;
        try done; destruct (128 <=? b) eqn:?, (b <=? 191) eqn:?; simpl in *; try done;
        bool_to_prop; lia).
  intros H Hb.
  destruct l as [|b0 [|b1 [|b2 [|b3 l]]]]; utf8_cases;
    rewrite ?Hs3, ?Hs4 in * by done; congruence.
Qed.

(** ** Decoding a prefix *)

(** What a slice decodes to whatever follows it, and the cut-off sequence at
    its end (empty when the slice ends between sequences). *)
Fixpoint stream_fuel (fuel : nat) (l : list Z) : rstring * list Z :=
  match fuel with
  | O => ([], [])
  | S fuel =>
      match utf8_next l with
      | U8End => ([], [])
      | U8Char c n => let '(cs, t) := stream_fuel fuel (drop n l) in (c :: cs, t)
      | U8Invalid n => let '(cs, t) := stream_fuel fuel (drop n l) in (REPLACEMENT :: cs, t)
      | U8Incomplete => ([], l)
      end
  end.
Definition utf8_stream (l : list Z) : rstring * list Z := stream_fuel (length l) l.

(** Fuel beyond the length changes nothing. *)
Lemma stream_fuel_enough fuel l :
  (length l ≤ fuel)%nat → stream_fuel fuel l = utf8_stream l.
Proof.
  unfold utf8_stream. revert l. induction fuel as [fuel IH] using lt_wf_ind. intros l Hf.
  destruct fuel as [|fuel]; [by destruct l; [|simpl in Hf; lia]|].
  destruct (length l) as [|k] eqn:Hl; [by destruct l|]. simpl.
  destruct (utf8_next l) as [|c n|n|] eqn:Hn; try done.
  - pose proof (utf8_next_char_len _ _ _ Hn).
    rewrite (IH fuel), (IH k) by (rewrite ?length_drop; lia). done.
  - pose proof (utf8_next_invalid_len _ _ Hn).
    rewrite (IH fuel), (IH k) by (rewrite ?length_drop; lia). done.
Qed.

Lemma utf8_stream_unfold l :
  utf8_stream l =
  match utf8_next l with
  | U8End => ([], [])
  | U8Char c n => let '(cs, t) := utf8_stream (drop n l) in (c :: cs, t)
  | U8Invalid n => let '(cs, t) := utf8_stream (drop n l) in (REPLACEMENT :: cs, t)
  | U8Incomplete => ([], l)
  end.
Proof.
  unfold utf8_stream at 1. destruct (length l) as [|k] eqn:Hl; [by destruct l|]. simpl.
  destruct (utf8_next l) as [|c n|n|] eqn:Hn; try done.
  - pose proof (utf8_next_char_len _ _ _ Hn). by rewrite stream_fuel_enough by len.
  - pose proof (utf8_next_invalid_len _ _ Hn). by rewrite stream_fuel_enough by len.
Qed.

Lemma lossy_fuel_stream fuel l :
  (length l ≤ fuel)%nat →
  lossy_fuel fuel l = (utf8_stream l).1 ++
    (if decide ((utf8_stream l).2 = []) then [] else [REPLACEMENT]).
Proof.
  revert l. induction fuel as [|fuel IH]; intros l Hf.
  { destruct l; [done|simpl in Hf; lia]. }
  simpl. rewrite utf8_stream_unfold. destruct (utf8_next l) as [|c n|n|] eqn:Hn; try done.
  - pose proof (utf8_next_char_len _ _ _ Hn). rewrite IH by len.
    by destruct (utf8_stream (drop n l)).
  - pose proof (utf8_next_invalid_len _ _ Hn). rewrite IH by len.
    by destruct (utf8_stream (drop n l)).
  - pose proof (utf8_next_incomplete _ Hn) as (? & _). simpl. by rewrite decide_False.
Qed.

Lemma lossy_stream l :
  from_utf8_lossy l = (utf8_stream l).1 ++
    (if decide ((utf8_stream l).2 = []) then [] else [REPLACEMENT]).
Proof. by apply lossy_fuel_stream. Qed.

Lemma utf8_stream_tail l :
  (utf8_stream l).2 = [] ∨ utf8_next (utf8_stream l).2 = U8Incomplete.
Proof.
  remember (length l) as k eqn:Hk. revert l Hk.
  induction k as [k IH] using lt_wf_ind. intros l ->.
  rewrite utf8_stream_unfold. destruct (utf8_next l) as [|c n|n|] eqn:Hn; [by left| | |by right].
  - pose proof (utf8_next_char_len _ _ _ Hn).
    specialize (IH (length (drop n l)) ltac:(len) (drop n l) eq_refl).
    by destruct (utf8_stream (drop n l)).
  - pose proof (utf8_next_invalid_len _ _ Hn).
    specialize (IH (length (drop n l)) ltac:(len) (drop n l) eq_refl).
    by destruct (utf8_stream (drop n l)).
Qed.

(** Decoding can be cut anywhere: the cut-off tail is carried over. *)
Lemma utf8_stream_app a b :
  utf8_stream (a ++ b) =
  ((utf8_stream a).1 ++ (utf8_stream ((utf8_stream a).2 ++ b)).1,
   (utf8_stream ((utf8_stream a).2 ++ b)).2).
Proof.
  remember (length a) as k eqn:Hk. revert a Hk.
  induction k as [k IH] using lt_wf_ind. intros a ->.
  rewrite (utf8_stream_unfold a).
  pose proof (utf8_next_app a b) as Happ.
  destruct (utf8_next a) as [|c n|n|] eqn:Hn.
  - apply utf8_next_end in Hn as ->. simpl. by destruct (utf8_stream b).
  - pose proof (utf8_next_char_len _ _ _ Hn). rewrite utf8_stream_unfold, Happ.
    rewrite drop_app_le by lia.
    rewrite (IH (length (drop n a)) ltac:(len) (drop n a) eq_refl).
    by destruct (utf8_stream (drop n a)).
  - pose proof (utf8_next_invalid_len _ _ Hn). rewrite utf8_stream_unfold, Happ.
    rewrite drop_app_le by lia.
    rewrite (IH (length (drop n a)) ltac:(len) (drop n a) eq_refl).
    by destruct (utf8_stream (drop n a)).
  - simpl. by destruct (utf8_stream (a ++ b)).
Qed.

Lemma lossy_app a b :
  from_utf8_lossy (a ++ b) = (utf8_stream a).1 ++ from_utf8_lossy ((utf8_stream a).2 ++ b).
Proof. rewrite !lossy_stream, utf8_stream_app. simpl. by rewrite (assoc_L (++)). Qed.

(** A cut after a complete sequence splits lossy decoding in two. *)
Lemma lossy_app_complete a b :
  (utf8_stream a).2 = [] → from_utf8_lossy (a ++ b) = from_utf8_lossy a ++ from_utf8_lossy b.
Proof.
  intros Ht. rewrite lossy_app, Ht. simpl. f_equal. rewrite lossy_stream, Ht.
  by rewrite decide_True, app_nil_r.
Qed.

(** So does a cut before any byte that is not a continuation byte. *)
Lemma lossy_app_boundary a b r :
  is_cont b = false →
  from_utf8_lossy (a ++ b :: r) = from_utf8_lossy a ++ from_utf8_lossy (b :: r).
Proof.
  intros Hb. destruct (utf8_stream_tail a) as [Ht|Ht]; [by apply lossy_app_complete|].
  rewrite lossy_app, (lossy_stream a). destruct (utf8_next_incomplete _ Ht) as (Hne & _).
  rewrite decide_False by done. rewrite <- (assoc_L (++)). f_equal.
  rewrite (lossy_stream (_ ++ _)), utf8_stream_unfold.
  rewrite (utf8_next_incomplete_app _ _ _ Ht Hb), drop_app_length.
  rewrite lossy_stream. by destruct (utf8_stream (b :: r)).
Qed.

Lemma lossy_incomplete l : utf8_next l = U8Incomplete → from_utf8_lossy l = [REPLACEMENT].
Proof.
  intros H. rewrite lossy_stream, utf8_stream_unfold, H. simpl.
  by rewrite decide_False by (by apply utf8_next_incomplete).
Qed.

Lemma lossy_nil : from_utf8_lossy [] = [].
Proof. done. Qed.

(** ** Strict decoding and round trips *)

Lemma scan_fuel_enough fuel l : (length l ≤ fuel)%nat → scan_fuel fuel l = scan l.
Proof.
  unfold scan. revert l. induction fuel as [fuel IH] using lt_wf_ind. intros l Hf.
  destruct fuel as [|fuel]; [by destruct l; [|simpl in Hf; lia]|].
  destruct (length l) as [|k] eqn:Hl; [by destruct l|]. simpl.
  destruct (utf8_next l) as [|c n|n|] eqn:Hn; try done.
  pose proof (utf8_next_char_len _ _ _ Hn).
  rewrite (IH fuel), (IH k) by (rewrite ?length_drop; lia). done.
Qed.

Lemma scan_unfold l :
  scan l = match utf8_next l with
           | U8Char c n => let '(cs, rest) := scan (drop n l) in (c :: cs, rest)
           | _ => ([], l)
           end.
Proof.
  unfold scan at 1. destruct (length l) as [|k] eqn:Hl; [by destruct l|]. simpl.
  destruct (utf8_next l) as [|c n|n|] eqn:Hn; try done.
  pose proof (utf8_next_char_len _ _ _ Hn). by rewrite scan_fuel_enough by len.
Qed.

Lemma utf8_next_encode c r :
  is_scalar c = true → utf8_next (encode_char c ++ r) = U8Char c (length (encode_char c)).
Proof.
  unfold is_scalar, is_surrogate. intros H. bool_to_prop.
  assert (Hsur : ¬ (55296 ≤ c ≤ 57343)).
  { intros [? ?]. destruct (Z.leb_spec 55296 c), (Z.leb_spec c 57343); simpl in *; try done; lia. }
  unfold encode_char. repeat case_match; bool_to_prop; simpl;
    unfold next2, next3, next4, second3, second4, is_cont;
    repeat (case_match; bool_to_prop; try (exfalso; dlia));
    try (f_equal; dlia);
    exfalso; repeat match goal with
    | H : (_ && _) = false |- _ => apply andb_false_iff in H as [H|H]; bool_to_prop
    end; dlia.
Qed.

Lemma utf8_next_char l c n :
  Forall u8_ok l → utf8_next l = U8Char c n → is_scalar c = true ∧ take n l = encode_char c.
Proof.
  intros Hu H. unfold is_scalar, is_surrogate, encode_char.
  destruct l as [|b0 [|b1 [|b2 [|b3 r]]]]; unfold u8_ok in Hu; decompose_Forall_hyps;
    unfold utf8_next, next2, next3, next4, second3, second4, is_cont in H;
    repeat (case_match; simplify_eq/=; try done; bool_to_prop);
    simplify_eq/=; bool_to_prop; try lia;
    (split; [repeat (apply andb_true_intro; split); try apply negb_true_iff;
             try (apply andb_false_iff); rewrite ?Z.leb_le, ?Z.leb_gt; lia
            | repeat f_equal; dlia]).
Qed.

Lemma scan_rest l : ∀ c n, utf8_next (scan l).2 ≠ U8Char c n.
Proof.
  remember (length l) as k eqn:Hk. revert l Hk.
  induction k as [k IH] using lt_wf_ind. intros l -> c0 n0.
  rewrite scan_unfold. destruct (utf8_next l) as [|c n|n|] eqn:Hn; simpl; try congruence.
  pose proof (utf8_next_char_len _ _ _ Hn).
  specialize (IH (length (drop n l)) ltac:(len) (drop n l) eq_refl c0 n0).
  by destruct (scan (drop n l)).
Qed.

Lemma to_utf8_cons c s : to_utf8 (c :: s) = encode_char c ++ to_utf8 s.
Proof. done. Qed.

Lemma encode_utf16_cons c s : encode_utf16 (c :: s) = encode_utf16_char c ++ encode_utf16 s.
Proof. done. Qed.

(** Characters in front of a slice are scanned off it. *)
Lemma scan_encode s r :
  Forall (λ c, is_scalar c = true) s →
  scan (to_utf8 s ++ r) = (s ++ (scan r).1, (scan r).2).
Proof.
  induction 1 as [|c s Hc Hs IH]; [apply surjective_pairing|].
  rewrite to_utf8_cons, <- (assoc_L (++)), scan_unfold.
  rewrite (utf8_next_encode _ _ Hc), drop_app_length, IH. done.
Qed.

(** [String::from_utf8(s.into_bytes())] gives [s] back. *)
Lemma from_utf8_encode s :
  Forall (λ c, is_scalar c = true) s → from_utf8 (to_utf8 s) = Ok s.
Proof.
  intros Hs. unfold from_utf8. pose proof (scan_encode s [] Hs) as H.
  rewrite app_nil_r in H. rewrite H. by rewrite app_nil_r.
Qed.

Lemma scan_decode l :
  Forall u8_ok l →
  l = to_utf8 (scan l).1 ++ (scan l).2 ∧ Forall (λ c, is_scalar c = true) (scan l).1.
Proof.
  remember (length l) as k eqn:Hk. revert l Hk.
  induction k as [k IH] using lt_wf_ind. intros l -> Hu. rewrite scan_unfold.
  destruct (utf8_next l) as [|c n|n|] eqn:Hn; simpl; auto.
  pose proof (utf8_next_char_len _ _ _ Hn).
  destruct (utf8_next_char _ _ _ Hu Hn) as [Hc Ht].
  destruct (IH (length (drop n l)) ltac:(len) (drop n l) eq_refl) as [H1 H2];
    [by apply Forall_drop|].
  destruct (scan (drop n l)) as [cs rest]; simpl in *. split; [|by constructor].
  rewrite <- (take_drop n l) at 1. rewrite Ht, H1, to_utf8_cons.
  by rewrite (assoc_L (++)).
Qed.

Lemma from_utf8_decode l s :
  Forall u8_ok l → from_utf8 l = Ok s →
  to_utf8 s = l ∧ Forall (λ c, is_scalar c = true) s.
Proof.
  intros Hu H. destruct (scan_decode l Hu) as [H1 H2]. unfold from_utf8 in H.
  pose proof (scan_rest l) as Hr. destruct (scan l) as [cs rest]; simpl in *.
  destruct (utf8_next rest) as [|c n|n|] eqn:Hn; try done; [|by destruct (Hr c n)].
  injection H as <-. apply utf8_next_end in Hn as ->. by rewrite app_nil_r in H1.
Qed.

(** Where strict decoding succeeds, lossy decoding agrees. *)
Lemma scan_stream l :
  utf8_stream l = ((scan l).1 ++ (utf8_stream (scan l).2).1, (utf8_stream (scan l).2).2).
Proof.
  remember (length l) as k eqn:Hk. revert l Hk.
  induction k as [k IH] using lt_wf_ind. intros l ->. rewrite (scan_unfold l).
  destruct (utf8_next l) as [|c n|n|] eqn:Hn; simpl; try by destruct (utf8_stream l).
  pose proof (utf8_next_char_len _ _ _ Hn). rewrite utf8_stream_unfold, Hn.
  rewrite (IH (length (drop n l)) ltac:(len) (drop n l) eq_refl).
  by destruct (scan (drop n l)).
Qed.

Lemma from_utf8_Ok_scan l s : from_utf8 l = Ok s ↔ scan l = (s, []).
Proof.
  unfold from_utf8. pose proof (scan_rest l) as Hr.
  destruct (scan l) as [cs rest] eqn:Hs; simpl in *. split.
  - destruct (utf8_next rest) as [|c n|n|] eqn:Hn; intros; simplify_eq.
    + by apply utf8_next_end in Hn as ->.
    + by destruct (Hr c n).
  - intros; simplify_eq. done.
Qed.

Lemma from_utf8_lossy_ok l s : from_utf8 l = Ok s → from_utf8_lossy l = s.
Proof.
  intros H%from_utf8_Ok_scan. rewrite lossy_stream, scan_stream, H. simpl.
  by rewrite !app_nil_r.
Qed.

Lemma lossy_encode s :
  Forall (λ c, is_scalar c = true) s → from_utf8_lossy (to_utf8 s) = s.
Proof. intros. by apply from_utf8_lossy_ok, from_utf8_encode. Qed.

Lemma to_utf8_app s t : to_utf8 (s ++ t) = to_utf8 s ++ to_utf8 t.
Proof. unfold to_utf8. by rewrite fmap_app, join_app. Qed.

Lemma encode_char_u8 c : is_scalar c = true → Forall u8_ok (encode_char c).
Proof.
  unfold is_scalar, encode_char, u8_ok. intros H. bool_to_prop.
  repeat case_match; bool_to_prop; repeat constructor; dlia.
Qed.

Lemma to_utf8_u8 s : Forall (λ c, is_scalar c = true) s → Forall u8_ok (to_utf8 s).
Proof.
  induction 1 as [|c s Hc _ IH]; [constructor|]. rewrite to_utf8_cons.
  apply Forall_app. split; [by apply encode_char_u8|done].
Qed.

(** * Laws of UTF-16 *)

Lemma utf16_lossy_ok us s : from_utf16 us = Some s → from_utf16_lossy us = s.
Proof.
  remember (length us) as k eqn:Hk. revert us s Hk.
  induction k as [k IH] using lt_wf_ind. intros [|u r] s -> H; simpl in *; [by simplify_eq|].
  destruct (is_lead u); [|destruct (is_trail u); [done|]].
  - destruct r as [|v r']; [done|]. destruct (is_trail v); [|done].
    apply fmap_Some in H as (s' & H & ->). f_equal. eapply IH; [|done|done]. simpl. lia.
  - apply fmap_Some in H as (s' & H & ->). f_equal. eapply IH; [|done|done]. lia.
Qed.

Lemma from_utf16_char c us :
  is_scalar c = true → from_utf16 (encode_utf16_char c ++ us) = cons c <$> from_utf16 us.
Proof.
  unfold is_scalar, is_surrogate, encode_utf16_char. intros H. bool_to_prop.
  destruct (Z.ltb_spec c 65536); simpl; unfold is_lead, is_trail.
  - destruct (Z.leb_spec 55296 c), (Z.leb_spec c 57343); simpl in *; try done;
      destruct (Z.leb_spec c 56319), (Z.leb_spec 56320 c); simpl; try done; lia.
  - set (d := c - 65536).
    destruct (Z.leb_spec 55296 (55296 + d `div` 1024)), (Z.leb_spec (55296 + d `div` 1024) 56319);
      simpl; try (exfalso; subst d; dlia).
    destruct (Z.leb_spec 56320 (56320 + d `mod` 1024)), (Z.leb_spec (56320 + d `mod` 1024) 57343);
      simpl; try (exfalso; subst d; dlia).
    unfold combine_surrogates.
    replace (65536 + (55296 + d `div` 1024 - 55296) * 1024 + (56320 + d `mod` 1024 - 56320)) with c;
      [done|]. subst d. dlia.
Qed.

Lemma from_utf16_encode s :
  Forall (λ c, is_scalar c = true) s → from_utf16 (encode_utf16 s) = Some s.
Proof.
  induction 1 as [|c s Hc _ IH]; [done|]. rewrite encode_utf16_cons.
  by rewrite (from_utf16_char _ _ Hc), IH.
Qed.
