(* ===== verification/Encoding.v ===== *)
(** The [Encoder] of [libs/raster_runtime_encoding/src/lib.rs]: labels, and
    conversion between bytes and strings.

    The hex and base64 routines come from the crates [hex_simd] and
    [base64_simd], which are not part of the repository: they are the fields of
    the class [CodecLib], and what their documentation promises (RFC 4648 and
    the WHATWG forgiving decode) is the class [CodecLaws].  [CodecRef] has an
    implementation that satisfies the laws. *)

From stdpp Require Import pretty.
From S2P Require Import Prelude Unicode.

(** * The third-party codecs *)

(** Errors are reported as strings ([err.to_string()]). *)
Class CodecLib := {
  hex_encode : list Z → list Z;
  hex_decode : list Z → res rstring (list Z);
  b64_encode : list Z → list Z;
  b64_forgiving_decode : list Z → res rstring (list Z);
  b64url_encode : list Z → list Z;
  b64url_decode : list Z → res rstring (list Z);
}.

Definition ascii (l : list Z) : Prop := Forall (λ c, 0 ≤ c < 128) l.

(** URL-safe base64 without padding, from the standard alphabet. *)
Definition to_url_alphabet (c : Z) : Z := if c =? 43 then 45 else if c =? 47 then 95 else c.
Definition drop_padding (l : list Z) : list Z := filter (λ c, c ≠ 61) l.

Class CodecLaws `{CodecLib} := {
  hex_ascii : ∀ l, ascii (hex_encode l);
  hex_length : ∀ l, length (hex_encode l) = (2 * length l)%nat;
  hex_roundtrip : ∀ l, Forall u8_ok l → hex_decode (hex_encode l) = Ok l;
  b64_ascii : ∀ l, ascii (b64_encode l);
  b64_no_url : ∀ l, Forall (λ c, c ≠ 45 ∧ c ≠ 95) (b64_encode l);
  b64_group : ∀ l1 l2, (length l1 `mod` 3 = 0)%nat →
                b64_encode (l1 ++ l2) = b64_encode l1 ++ b64_encode l2;
  b64_roundtrip : ∀ l, Forall u8_ok l → b64_forgiving_decode (b64_encode l) = Ok l;
  b64_unpadded : ∀ l, Forall u8_ok l →
                   b64_forgiving_decode (drop_padding (b64_encode l)) = Ok l;
  b64url_spec : ∀ l, b64url_encode l = to_url_alphabet <$> drop_padding (b64_encode l);
}.

(** * Labels *)

Inductive Encoder := Hex | Base64 | Windows1252 | Utf8 | Utf16le | Utf16be.

#[export] Instance Encoder_eq_dec : EqDecision Encoder.
Proof. solve_decision. Defined.

Definition ENCODING_MAP : list (list Z * Encoder) :=
  [ (bs "hex", Hex);
    (bs "base64", Base64);
    (bs "unicode-1-1-utf-8", Utf8);
    (bs "unicode11utf8", Utf8);
    (bs "unicode20utf8", Utf8);
    (bs "utf-8", Utf8);
    (bs "utf8", Utf8);
    (bs "x-unicode20utf8", Utf8);
    (bs "csunicode", Utf16le);
    (bs "iso-10646-ucs-2", Utf16le);
    (bs "ucs-2", Utf16le);
    (bs "ucs2", Utf16le);
    (bs "unicode", Utf16le);
    (bs "unicodefeff", Utf16le);
    (bs "utf-16", Utf16le);
    (bs "utf-16le", Utf16le);
    (bs "utf16le", Utf16le);
    (bs "unicodefffe", Utf16be);
    (bs "utf-16be", Utf16be);
    (bs "ansi_x3.4-1968", Windows1252);
    (bs "ascii", Windows1252);
    (bs "cp1252", Windows1252);
    (bs "cp819", Windows1252);
    (bs "csisolatin1", Windows1252);
    (bs "ibm819", Windows1252);
    (bs "iso-8859-1", Windows1252);
    (bs "iso-ir-100", Windows1252);
    (bs "iso8859-1", Windows1252);
    (bs "iso88591", Windows1252);
    (bs "iso_8859-1", Windows1252);
    (bs "iso_8859-1:1987", Windows1252);
    (bs "l1", Windows1252);
    (bs "latin1", Windows1252);
    (bs "us-ascii", Windows1252);
    (bs "windows-1252", Windows1252);
    (bs "x-cp1252", Windows1252) ].

(** [phf::Map::get]: keys are distinct, so the first hit is the entry. *)
Fixpoint map_get (m : list (list Z * Encoder)) (k : list Z) : option Encoder :=
  match m with
  | [] => None
  | (k', e) :: m => if decide (k' = k) then Some e else map_get m k
  end.

(** [u8::is_ascii_whitespace], [trim_ascii], [to_ascii_lowercase]. *)
Definition is_ascii_whitespace (c : Z) : bool :=
  (c =? 32) || (c =? 9) || (c =? 10) || (c =? 12) || (c =? 13).
Fixpoint trim_ascii_start (l : list Z) : list Z :=
  match l with
  | c :: l' => if is_ascii_whitespace c then trim_ascii_start l' else l
  | [] => []
  end.
Definition trim_ascii (l : list Z) : list Z :=
  reverse (trim_ascii_start (reverse (trim_ascii_start l))).
Definition to_ascii_lowercase (c : Z) : Z :=
  if (65 <=? c) && (c <=? 90) then c + 32 else c.

(** The error message; 34 is the double quote. *)
Definition unsupported (encoding : list Z) : rstring :=
  bs "The " ++ [34] ++ encoding ++ [34] ++ bs " encoding is not supported".

Definition from_str (encoding : list Z) : res rstring Encoder :=
  or_err (map_get ENCODING_MAP (to_ascii_lowercase <$> trim_ascii encoding))
         (unsupported encoding).

Definition from_optional_str (encoding : option (list Z)) : res rstring Encoder :=
  match encoding with
  | Some label => if decide (label = []) then Ok Utf8 else from_str label
  | None => Ok Utf8
  end.

Definition as_label (e : Encoder) : list Z :=
  match e with
  | Hex => bs "hex"
  | Base64 => bs "base64"
  | Windows1252 => bs "windows-1252"
  | Utf8 => bs "utf-8"
  | Utf16le => bs "utf-16le"
  | Utf16be => bs "utf-16be"
  end.

(** * Conversions *)

Inductive Endian := Little | Big.

Definition u16_from (e : Endian) (b0 b1 : Z) : Z :=
  match e with Little => u16_from_le b0 b1 | Big => u16_from_be b0 b1 end.
Definition u16_to (e : Endian) (u : Z) : list Z :=
  match e with Little => u16_le_bytes u | Big => u16_be_bytes u end.

(** [chunks_exact(2)] drops a trailing odd byte. *)
Fixpoint u16_chunks (e : Endian) (l : list Z) : list Z :=
  match l with
  | b0 :: b1 :: l => u16_from e b0 b1 :: u16_chunks e l
  | _ => []
  end.

(** The [Display] texts of [Utf8Error] and [FromUtf16Error]. *)
Definition utf8_error_text (e : Utf8Error) : rstring :=
  match error_len e with
  | Some n => bs "invalid utf-8 sequence of " ++ bs (pretty n) ++
              bs " bytes from index " ++ bs (pretty (valid_up_to e))
  | None => bs "incomplete utf-8 byte sequence from index " ++ bs (pretty (valid_up_to e))
  end.
Definition utf16_error_text : rstring := bs "invalid utf-16: lone surrogate found".

Definition bytes_to_utf8_string (bytes : list Z) (lossy : bool) : res rstring rstring :=
  if lossy then Ok (from_utf8_lossy bytes)
  else match from_utf8 bytes with
       | Ok s => Ok s
       | Err e => Err (utf8_error_text e)
       | Panic => Panic
       end.

Definition bytes_to_utf16_string (bytes : list Z) (endian : Endian) (lossy : bool) :
    res rstring rstring :=
  if negb lossy && negb (Nat.even (length bytes))
  then Err (bs "Input byte slice length must be even")
  else
    let data16 := u16_chunks endian bytes in
    if lossy then Ok (from_utf16_lossy data16)
    else or_err (from_utf16 data16) utf16_error_text.

Section Codecs.
Context `{CodecLib}.

Definition bytes_to_hex (bytes : list Z) : list Z := hex_encode bytes.
Definition bytes_from_hex (hex_bytes : list Z) : res rstring (list Z) := hex_decode hex_bytes.
Definition bytes_to_b64 (bytes : list Z) : list Z := b64_encode bytes.

(** The string forms: the output is ASCII, so its characters are its bytes. *)
Definition bytes_to_hex_string (bytes : list Z) : rstring := hex_encode bytes.
Definition bytes_to_b64_string (bytes : list Z) : rstring := b64_encode bytes.
Definition bytes_to_b64_url_safe_string (bytes : list Z) : rstring := b64url_encode bytes.
Definition bytes_from_b64_url_safe (bytes : list Z) : res rstring (list Z) := b64url_decode bytes.

(** [memchr2_iter(b'-', b'_', &bytes)]: the positions of the URL-safe bytes. *)
Fixpoint url_safe_byte_positions (i : nat) (l : list Z) : list nat :=
  match l with
  | [] => []
  | c :: l => if (c =? 45) || (c =? 95) then i :: url_safe_byte_positions (S i) l
              else url_safe_byte_positions (S i) l
  end.

(** The replacement loop; the last arm is [unreachable!()]. *)
Fixpoint replace_url_safe (positions : list nat) (bytes : list Z) : res rstring (list Z) :=
  match positions with
  | [] => Ok bytes
  | pos :: positions =>
      match bytes !! pos with
      | Some 45 => replace_url_safe positions (<[pos := 43]> bytes)
      | Some 95 => replace_url_safe positions (<[pos := 47]> bytes)
      | _ => Panic
      end
  end.

Definition bytes_from_b64 (bytes : list Z) : res rstring (list Z) :=
  match url_safe_byte_positions 0 bytes with
  | [] => b64_forgiving_decode bytes
  | positions => bytes ← replace_url_safe positions bytes; b64_forgiving_decode bytes
  end.

Definition encode_to_string (e : Encoder) (bytes : list Z) (lossy : bool) : res rstring rstring :=
  match e with
  | Hex => Ok (bytes_to_hex_string bytes)
  | Base64 => Ok (bytes_to_b64_string bytes)
  | Utf8 | Windows1252 => bytes_to_utf8_string bytes lossy
  | Utf16le => bytes_to_utf16_string bytes Little lossy
  | Utf16be => bytes_to_utf16_string bytes Big lossy
  end.

Definition encode (e : Encoder) (bytes : list Z) : res rstring (list Z) :=
  match e with
  | Hex => Ok (bytes_to_hex bytes)
  | Base64 => Ok (bytes_to_b64 bytes)
  | Utf8 | Windows1252 | Utf16le | Utf16be => Ok bytes
  end.

Definition decode (e : Encoder) (bytes : list Z) : res rstring (list Z) :=
  match e with
  | Hex => bytes_from_hex bytes
  | Base64 => bytes_from_b64 bytes
  | Utf8 | Windows1252 | Utf16le | Utf16be => Ok bytes
  end.

Definition decode_from_string (e : Encoder) (string : rstring) : res rstring (list Z) :=
  match e with
  | Hex => bytes_from_hex (to_utf8 string)
  | Base64 => bytes_from_b64 (to_utf8 string)
  | Utf8 | Windows1252 => Ok (to_utf8 string)
  | Utf16le => Ok (mjoin (u16_le_bytes <$> encode_utf16 string))
  | Utf16be => Ok (mjoin (u16_be_bytes <$> encode_utf16 string))
  end.
End Codecs.

(** * Labels: theorems *)

Lemma trim_ascii_start_app ws l :
  Forall (λ c, is_ascii_whitespace c = true) ws →
  trim_ascii_start (ws ++ l) = trim_ascii_start l.
Proof. induction 1 as [|c ws Hc _ IH]; simpl; [done|]. by rewrite Hc. Qed.

Lemma trim_ascii_start_all ws :
  Forall (λ c, is_ascii_whitespace c = true) ws → trim_ascii_start ws = [].
Proof. intros H. rewrite <- (app_nil_r ws). by rewrite trim_ascii_start_app. Qed.

Lemma trim_ascii_start_keep l r :
  trim_ascii_start l ≠ [] → trim_ascii_start (l ++ r) = trim_ascii_start l ++ r.
Proof.
  induction l as [|c l IH]; simpl; [done|]. by destruct (is_ascii_whitespace c).
Qed.

Lemma trim_ascii_surround ws1 ws2 l :
  Forall (λ c, is_ascii_whitespace c = true) ws1 →
  Forall (λ c, is_ascii_whitespace c = true) ws2 →
  trim_ascii (ws1 ++ l ++ ws2) = trim_ascii l.
Proof.
  intros H1 H2. unfold trim_ascii. rewrite trim_ascii_start_app by done.
  destruct (decide (trim_ascii_start l = [])) as [He|Hne].
  - assert (Hall : Forall (λ c, is_ascii_whitespace c = true) l).
    { clear -He. induction l as [|c l IH]; [done|]. simpl in He.
      destruct (is_ascii_whitespace c) eqn:?; [|done]. constructor; auto. }
    rewrite (trim_ascii_start_all (l ++ ws2)) by (by apply Forall_app). by rewrite He.
  - rewrite trim_ascii_start_keep, reverse_app, trim_ascii_start_app; [done| |done].
    by apply Forall_reverse.
Qed.

Lemma is_ascii_whitespace_lower c :
  is_ascii_whitespace (to_ascii_lowercase c) = is_ascii_whitespace c.
Proof.
  unfold to_ascii_lowercase. destruct ((65 <=? c) && (c <=? 90)) eqn:Hc; [|done].
  bool_to_prop. unfold is_ascii_whitespace.
  repeat match goal with |- context [?x =? ?y] => destruct (Z.eqb_spec x y); try lia end; done.
Qed.

Lemma trim_ascii_start_fmap l :
  trim_ascii_start (to_ascii_lowercase <$> l) = to_ascii_lowercase <$> trim_ascii_start l.
Proof.
  induction l as [|c l IH]; simpl; [done|]. rewrite is_ascii_whitespace_lower.
  destruct (is_ascii_whitespace c); [exact IH|done].
Qed.

Lemma trim_ascii_fmap l :
  trim_ascii (to_ascii_lowercase <$> l) = to_ascii_lowercase <$> trim_ascii l.
Proof.
  unfold trim_ascii.
  by rewrite trim_ascii_start_fmap, <- fmap_reverse, trim_ascii_start_fmap, fmap_reverse.
Qed.

Lemma to_ascii_lowercase_idem c : to_ascii_lowercase (to_ascii_lowercase c) = to_ascii_lowercase c.
Proof.
  unfold to_ascii_lowercase. destruct ((65 <=? c) && (c <=? 90)) eqn:Hc; [|by rewrite Hc].
  bool_to_prop. destruct (Z.leb_spec (c + 32) 90); [lia|]. by rewrite andb_false_r.
Qed.

(** Encoder labels: the canonical label of every encoder parses back to
    it, and parsing ignores ASCII case and surrounding ASCII whitespace. *)
Theorem label_roundtrip (e : Encoder) (label ws1 ws2 : list Z) :
  (to_ascii_lowercase <$> label) = as_label e →
  Forall (λ c, is_ascii_whitespace c = true) ws1 →
  Forall (λ c, is_ascii_whitespace c = true) ws2 →
  from_str (ws1 ++ label ++ ws2) = Ok e.
Proof.
  intros Hl H1 H2. unfold from_str. rewrite trim_ascii_surround by done.
  rewrite <- trim_ascii_fmap, Hl. by destruct e.
Qed.

Lemma label_roundtrip_witness :
  from_str ([32; 9] ++ bs "UTF-16LE" ++ [10]) = Ok Utf16le.
Proof.
  apply (label_roundtrip Utf16le (bs "UTF-16LE") [32; 9] [10]);
    [reflexivity| |]; repeat constructor.
Defined.

(** * Conversions: theorems *)

Section CodecTheorems.
Context `{CodecLaws}.

Definition from_url_alphabet (c : Z) : Z := if c =? 45 then 43 else if c =? 95 then 47 else c.

Lemma replace_url_safe_spec l pre :
  replace_url_safe (url_safe_byte_positions (length pre) l) (pre ++ l) =
  Ok (pre ++ (from_url_alphabet <$> l)).
Proof.
  revert pre. induction l as [|c l IH]; intros pre; [done|]. simpl.
  specialize (IH (pre ++ [from_url_alphabet c])).
  rewrite length_app, Nat.add_1_r, <- !(assoc_L (++)) in IH. unfold from_url_alphabet in *.
  destruct (Z.eqb_spec c 45) as [->|H45]; [|destruct (Z.eqb_spec c 95) as [->|H95]]; simpl in *;
    rewrite ?lookup_app_r, ?Nat.sub_diag by lia; simpl;
    rewrite ?insert_app_r_alt, ?Nat.sub_diag by lia; exact IH.
Qed.

Lemma from_url_alphabet_id l :
  url_safe_byte_positions 0 l = [] → from_url_alphabet <$> l = l.
Proof.
  generalize 0%nat. induction l as [|c l IH]; intros i; [done|]. simpl. unfold from_url_alphabet.
  destruct (Z.eqb_spec c 45), (Z.eqb_spec c 95); try done. simpl. intros Hl.
  f_equal. by apply (IH (S i)).
Qed.

Lemma bytes_from_b64_spec l :
  bytes_from_b64 l = b64_forgiving_decode (from_url_alphabet <$> l).
Proof.
  unfold bytes_from_b64. pose proof (replace_url_safe_spec l []) as Hr. simpl in Hr.
  destruct (url_safe_byte_positions 0 l) as [|p ps] eqn:Hp.
  - by rewrite from_url_alphabet_id.
  - by rewrite Hr.
Qed.

Lemma from_to_url_alphabet l :
  Forall (λ c, c ≠ 45 ∧ c ≠ 95) l → from_url_alphabet <$> (to_url_alphabet <$> l) = l.
Proof.
  induction 1 as [|c l [H45 H95] _ IH]; [done|]. simpl. f_equal; [|exact IH].
  unfold to_url_alphabet. destruct (Z.eqb_spec c 43) as [->|]; [done|].
  destruct (Z.eqb_spec c 47) as [->|]; [done|].
  unfold from_url_alphabet. by rewrite (proj2 (Z.eqb_neq c 45)), (proj2 (Z.eqb_neq c 95)).
Qed.

Lemma from_url_alphabet_plain l :
  Forall (λ c, c ≠ 45 ∧ c ≠ 95) l → from_url_alphabet <$> l = l.
Proof.
  induction 1 as [|c l [H45 H95] _ IH]; [done|]. simpl. f_equal; [|exact IH].
  unfold from_url_alphabet. by rewrite (proj2 (Z.eqb_neq c 45)), (proj2 (Z.eqb_neq c 95)).
Qed.

(** Base64 round trips through the runtime's decoder in both alphabets:
    decoding the standard encoding and the URL-safe unpadded encoding of a
    byte string gives the bytes back, and the in-place alphabet rewrite never
    reaches its [unreachable!()] arm on any input. *)
Theorem b64_both_alphabets (l bytes : list Z) :
  Forall u8_ok l →
  bytes_from_b64 (bytes_to_b64 l) = Ok l ∧
  bytes_from_b64 (bytes_to_b64_url_safe_string l) = Ok l ∧
  replace_url_safe (url_safe_byte_positions 0 bytes) bytes =
    Ok (from_url_alphabet <$> bytes).
Proof.
  intros Hl. unfold bytes_to_b64, bytes_to_b64_url_safe_string.
  rewrite !bytes_from_b64_spec, b64url_spec, from_to_url_alphabet.
  - rewrite (from_url_alphabet_plain (b64_encode l)) by apply b64_no_url.
    split_and!; [by apply b64_roundtrip|by apply b64_unpadded|].
    exact (replace_url_safe_spec bytes []).
  - apply Forall_forall. intros c Hc. apply list_elem_of_filter in Hc as [_ Hc].
    revert c Hc. apply Forall_forall, b64_no_url.
Qed.

Lemma u16_chunks_bytes e us :
  Forall u16_ok us → u16_chunks e (mjoin (u16_to e <$> us)) = us.
Proof.
  induction 1 as [|u us Hu _ IH]; [done|].
  destruct e; cbn [fmap list_fmap mjoin list_join app u16_to u16_le_bytes u16_be_bytes u16_chunks];
    unfold u16_from, u16_from_le, u16_from_be, u16_ok in *; f_equal; try exact IH;
    dlia.
Qed.

Lemma encode_utf16_u16 s : Forall (λ c, is_scalar c = true) s → Forall u16_ok (encode_utf16 s).
Proof.
  induction 1 as [|c s Hc _ IH]; [constructor|]. rewrite encode_utf16_cons.
  apply Forall_app. split; [|done]. unfold is_scalar, encode_utf16_char, u16_ok in *.
  bool_to_prop. destruct (Z.ltb_spec c 65536); repeat constructor; dlia.
Qed.

Lemma even_u16_bytes e us : Nat.even (length (mjoin (u16_to e <$> us))) = true.
Proof.
  induction us as [|u us IH]; [done|]. destruct e; exact IH.
Qed.

Lemma utf16_string_roundtrip e s lossy :
  Forall (λ c, is_scalar c = true) s →
  bytes_to_utf16_string (mjoin (u16_to e <$> encode_utf16 s)) e lossy = Ok s.
Proof.
  intros Hs. unfold bytes_to_utf16_string. rewrite even_u16_bytes, andb_false_r.
  rewrite u16_chunks_bytes by (by apply encode_utf16_u16).
  pose proof (from_utf16_encode s Hs) as Hd.
  destruct lossy; [by rewrite (utf16_lossy_ok _ _ Hd)|by rewrite Hd].
Qed.

Lemma to_utf8_ascii l : ascii l → to_utf8 l = l.
Proof.
  induction 1 as [|c l Hc _ IH]; [done|]. rewrite to_utf8_cons, IH. unfold encode_char.
  destruct (Z.ltb_spec c 128); [done|lia].
Qed.

Lemma text_roundtrip (e : Encoder) (s : rstring) (lossy : bool) :
  Forall (λ c, is_scalar c = true) s → e ≠ Hex → e ≠ Base64 →
  (t ← decode_from_string e s; encode_to_string e t lossy) = Ok s.
Proof.
  intros Hs Hh Hb. destruct e; try done; simpl.
  - unfold bytes_to_utf8_string. rewrite from_utf8_encode, lossy_encode by done. by destruct lossy.
  - unfold bytes_to_utf8_string. rewrite from_utf8_encode, lossy_encode by done. by destruct lossy.
  - apply (utf16_string_roundtrip Little s lossy Hs).
  - apply (utf16_string_roundtrip Big s lossy Hs).
Qed.

(** Every encoder inverts itself: a text encoder ([Utf8], [Windows1252],
    [Utf16le], [Utf16be]) turns any string into bytes that decode, strictly
    or lossily, to that string; a binary encoder ([Hex], [Base64]) turns any
    bytes into a string that decodes to those bytes. *)
Theorem encoder_roundtrip (e : Encoder) (s : rstring) (l : list Z) (lossy : bool) :
  Forall (λ c, is_scalar c = true) s → Forall u8_ok l →
  match e with
  | Hex | Base64 => (t ← encode_to_string e l lossy; decode_from_string e t) = Ok l
  | _ => (t ← decode_from_string e s; encode_to_string e t lossy) = Ok s
  end.
Proof.
  intros Hs Hl. destruct e; try (by apply text_roundtrip); simpl.
  - unfold bytes_from_hex, bytes_to_hex_string.
    rewrite to_utf8_ascii by apply hex_ascii. by apply hex_roundtrip.
  - unfold bytes_to_b64_string. rewrite to_utf8_ascii by apply b64_ascii.
    rewrite bytes_from_b64_spec, from_url_alphabet_plain by apply b64_no_url.
    by apply b64_roundtrip.
Qed.
End CodecTheorems.
