(* ===== verification/IncrementalDecoder.v ===== *)
(** The streaming decoder of [libs/raster_runtime_encoding/src/incremental.rs]
    and the [TextDecoder] class built on it
    ([modules/raster_runtime_util/src/text_decoder.rs]).

    A call returns its result together with the decoder it leaves behind, also
    when the result is an error: the source returns with [?] out of methods
    that have already changed [self].  The main theorem is that cutting the
    input into chunks does not change the decoded text. *)

From S2P Require Import Prelude Unicode Encoding.

(** * State *)

Record IncrementalDecoder := mkDecoder {
  pending : list Z;
  bom_resolved : bool;
  pending_bom : option (list Z);
  utf16_odd_byte : option Z;
  utf16_lead_surrogate : option Z;
}.

Definition IncrementalDecoder_new : IncrementalDecoder := mkDecoder [] false None None None.
Definition reset (d : IncrementalDecoder) : IncrementalDecoder := IncrementalDecoder_new.

(** * Byte-order marks *)

Definition bom_prefix (e : Encoder) : list Z :=
  match e with
  | Utf8 => [239; 187; 191]
  | Utf16le => [255; 254]
  | Utf16be => [254; 255]
  | _ => []
  end.

Fixpoint starts_with (data prefix : list Z) {struct prefix} : bool :=
  match prefix, data with
  | [], _ => true
  | p :: prefix, b :: data => (b =? p) && starts_with data prefix
  | _ :: _, [] => false
  end.

(** [data.iter().zip(prefix).take_while(|(l, r)| l == r).count()] *)
Fixpoint shared_count (data prefix : list Z) : nat :=
  match data, prefix with
  | b :: data, p :: prefix => if b =? p then S (shared_count data prefix) else 0
  | _, _ => 0
  end.

(** The bytes to decode, and the new [bom_resolved] and [pending_bom]. *)
Definition process_bom (e : Encoder) (bytes : list Z) (stream bom_finalize : bool)
    (resolved : bool) (pend : option (list Z)) : list Z * bool * option (list Z) :=
  let prefix := bom_prefix e in
  match prefix with
  | [] => (bytes, true, pend)
  | _ =>
      let data := match pend with Some p => p ++ bytes | None => bytes end in
      if starts_with data prefix then (drop (length prefix) data, true, None)
      else
        let shared := shared_count data prefix in
        if stream && negb bom_finalize && ((shared =? length data) && (shared <? length prefix))%nat
        then ([], resolved, Some data)
        else (data, true, None)
  end.

(** * UTF-8 *)

(** [from_utf8_unchecked] is undefined on invalid bytes. *)
Definition from_utf8_unchecked (l : list Z) : res rstring rstring :=
  match from_utf8 l with Ok s => Ok s | _ => Panic end.

(** The loop of [decode_utf8_like]; [bytes] is the slice from [pos] on. *)
Fixpoint utf8_loop (fuel : nat) (bytes : list Z) (lossy : bool) (output : rstring)
    (pend : list Z) : res rstring rstring * list Z :=
  match fuel with
  | O => (Panic, pend)
  | S fuel =>
      match bytes with
      | [] => (Ok output, pend)
      | _ =>
          match from_utf8 bytes with
          | Ok valid => (Ok (output ++ valid), pend)
          | Panic => (Panic, pend)
          | Err error =>
              let n := valid_up_to error in
              match (if (0 <? n)%nat then from_utf8_unchecked (take n bytes) else Ok []) with
              | Ok s =>
                  let output := output ++ s in
                  let bytes := drop n bytes in
                  match error_len error with
                  | Some invalid_len =>
                      if lossy
                      then utf8_loop fuel (drop invalid_len bytes) lossy (output ++ [REPLACEMENT]) pend
                      else (Err (utf8_error_text error), pend)
                  | None => (Ok output, pend ++ bytes)
                  end
              | _ => (Panic, pend)
              end
          end
      end
  end.

Definition decode_utf8_like (bytes : list Z) (lossy stream : bool) (pend : list Z) :
    res rstring rstring * list Z :=
  if stream then utf8_loop (S (length bytes)) bytes lossy [] pend
  else (bytes_to_utf8_string bytes lossy, pend).

(** * UTF-16 *)

Definition incomplete_utf16 : rstring := bs "Incomplete UTF-16 sequence".
Definition invalid_utf16 : rstring := bs "Invalid UTF-16 sequence".

(** One turn of the [while] loop: go on with the remaining input, leave the
    loop, or return an error. *)
Inductive turn :=
  | Continue (rest : list Z) (odd lead : option Z) (units : list Z)
  | Break (odd lead : option Z) (units : list Z)
  | Return (e : rstring) (odd lead : option Z).

(** The end of the turn: a lone trail surrogate, or a plain unit. *)
Definition utf16_finish_unit (unit : Z) (rest : list Z) (lossy : bool) (odd : option Z)
    (units : list Z) : turn :=
  if is_trail unit then
    if lossy then Continue rest odd None (units ++ [REPLACEMENT])
    else Return invalid_utf16 odd None
  else Continue rest odd None (units ++ [unit]).

(** The turn after a possible held lead surrogate has been dealt with. *)
Definition utf16_unit (unit : Z) (rest : list Z) (endian : Endian) (lossy stream : bool)
    (odd : option Z) (units : list Z) : turn :=
  if is_lead unit then
    match rest with
    | n0 :: n1 :: rest' =>
        let next := u16_from endian n0 n1 in
        if is_trail next then Continue rest' odd None (units ++ [unit; next])
        else if lossy
        then utf16_finish_unit next rest' lossy odd (units ++ [REPLACEMENT])
        else Return invalid_utf16 odd None
    | [b] =>
        if stream then Break (Some b) (Some unit) units
        else if lossy
        then utf16_finish_unit unit rest lossy odd (units ++ [REPLACEMENT])
        else Return invalid_utf16 odd None
    | [] =>
        if stream then Break odd (Some unit) units
        else if lossy then Continue [] odd None (units ++ [REPLACEMENT])
        else Return invalid_utf16 odd None
    end
  else utf16_finish_unit unit rest lossy odd units.

Definition utf16_turn (input : list Z) (endian : Endian) (lossy stream : bool)
    (odd lead : option Z) (units : list Z) : turn :=
  match input with
  | [] => Break odd lead units
  | [b] =>
      if stream then Break (Some b) lead units
      else if lossy then Break odd lead (units ++ [REPLACEMENT])
      else Return incomplete_utf16 odd lead
  | b0 :: b1 :: rest =>
      let unit := u16_from endian b0 b1 in
      match lead with
      | Some l =>
          if is_trail unit then Continue rest odd None (units ++ [l; unit])
          else if lossy
          then utf16_unit unit rest endian lossy stream odd (units ++ [REPLACEMENT])
          else Return invalid_utf16 odd None
      | None => utf16_unit unit rest endian lossy stream odd units
      end
  end.

Fixpoint utf16_loop (fuel : nat) (input : list Z) (endian : Endian) (lossy stream : bool)
    (odd lead : option Z) (units : list Z) : res rstring (list Z) * (option Z * option Z) :=
  match fuel with
  | O => (Panic, (odd, lead))
  | S fuel =>
      match utf16_turn input endian lossy stream odd lead units with
      | Continue rest odd lead units => utf16_loop fuel rest endian lossy stream odd lead units
      | Break odd lead units => (Ok units, (odd, lead))
      | Return e odd lead => (Err e, (odd, lead))
      end
  end.

Definition decode_utf16_stream (bytes : list Z) (endian : Endian) (lossy stream : bool)
    (odd lead : option Z) : res rstring rstring * (option Z * option Z) :=
  let input := match odd with Some b => b :: bytes | None => bytes end in
  let '(r, st) := utf16_loop (S (length input)) input endian lossy stream None lead [] in
  (units ← r;
   if lossy then Ok (from_utf16_lossy units)
   else or_err (from_utf16 units) utf16_error_text, st).

(** * The decoder *)

Section Decoder.
Context `{CodecLib}.

Definition with_utf16 (d : IncrementalDecoder) (r : res rstring rstring * (option Z * option Z)) :
    res rstring rstring * IncrementalDecoder :=
  (r.1, mkDecoder (pending d) (bom_resolved d) (pending_bom d) r.2.1 r.2.2).

Definition decode_bytes (d : IncrementalDecoder) (e : Encoder) (input : list Z)
    (lossy stream ignore_bom bom_finalize : bool) : res rstring rstring * IncrementalDecoder :=
  let combined := pending d ++ input in
  let '(bytes, resolved, pend) :=
    if bom_resolved d || ignore_bom then (combined, bom_resolved d, pending_bom d)
    else process_bom e combined stream bom_finalize (bom_resolved d) (pending_bom d) in
  let d := mkDecoder [] resolved pend (utf16_odd_byte d) (utf16_lead_surrogate d) in
  match e with
  | Utf8 | Windows1252 =>
      let '(r, p) := decode_utf8_like bytes lossy stream [] in
      (r, mkDecoder p resolved pend (utf16_odd_byte d) (utf16_lead_surrogate d))
  | Utf16le =>
      with_utf16 d (decode_utf16_stream bytes Little lossy stream
                      (utf16_odd_byte d) (utf16_lead_surrogate d))
  | Utf16be =>
      with_utf16 d (decode_utf16_stream bytes Big lossy stream
                      (utf16_odd_byte d) (utf16_lead_surrogate d))
  | Hex | Base64 =>
      if stream
      then (Ok [], mkDecoder bytes resolved pend (utf16_odd_byte d) (utf16_lead_surrogate d))
      else (encode_to_string e bytes lossy, d)
  end.

Definition decode_chunk (d : IncrementalDecoder) (e : Encoder) (input : list Z)
    (lossy stream ignore_bom : bool) : res rstring rstring * IncrementalDecoder :=
  match decode_bytes d e input lossy stream ignore_bom false with
  | (Ok output, d) => (Ok output, if stream then d else reset d)
  | r => r
  end.

(** The end of [flush]: what is still held when the input is over. *)
Definition flush_rest (d : IncrementalDecoder) (e : Encoder) (lossy : bool) (output : rstring) :
    res rstring rstring * IncrementalDecoder :=
  match e with
  | Utf8 | Windows1252 =>
      match pending d with
      | [] => (Ok output, reset d)
      | _ => if lossy then (Ok (output ++ [REPLACEMENT]), reset d)
             else (Err (bs "Incomplete UTF-8 sequence"), d)
      end
  | Utf16le | Utf16be =>
      match utf16_lead_surrogate d, utf16_odd_byte d with
      | None, None => (Ok output, reset d)
      | _, _ => if lossy then (Ok (output ++ [REPLACEMENT]), reset d)
                else (Err incomplete_utf16, d)
      end
  | Hex | Base64 =>
      match pending d with
      | [] => (Ok output, reset d)
      | p => match encode_to_string e p lossy with
             | Ok s => (Ok (output ++ s), reset d)
             | r => (r, d)
             end
      end
  end.

Definition flush (d : IncrementalDecoder) (e : Encoder) (lossy ignore_bom : bool) :
    res rstring rstring * IncrementalDecoder :=
  let '(r, d) :=
    if negb ignore_bom && negb (bom_resolved d) then
      match pending_bom d with
      | Some p =>
          let d := mkDecoder (pending d) true None (utf16_odd_byte d) (utf16_lead_surrogate d) in
          decode_bytes d e p lossy false true true
      | None => (Ok [], d)
      end
    else (Ok [], d) in
  match r with
  | Ok output =>
      match decode_bytes d e [] lossy true ignore_bom true with
      | (Ok s, d) => flush_rest d e lossy (output ++ s)
      | r => r
      end
  | r => (r, d)
  end.

(** * [TextDecoder] *)

Record TextDecoder := mkTextDecoder {
  td_encoder : Encoder;
  fatal : bool;
  ignore_bom : bool;
  decoder : IncrementalDecoder;
  do_not_flush : bool;
}.

(** The constructor; a label that no encoder has is a [RangeError]. *)
Definition TextDecoder_new (label : option (list Z)) (fatal ignore_bom : option bool) :
    res rstring TextDecoder :=
  encoder ← from_optional_str label;
  Ok (mkTextDecoder encoder (default false fatal) (default false ignore_bom)
        IncrementalDecoder_new false).

Definition encoding (t : TextDecoder) : list Z := as_label (td_encoder t).

Definition set_decoder (t : TextDecoder) (d : IncrementalDecoder) (keep : bool) : TextDecoder :=
  mkTextDecoder (td_encoder t) (fatal t) (ignore_bom t) d keep.

(** [decode(input, { stream })]; a missing input has no bytes. *)
Definition td_decode (t : TextDecoder) (input : option (list Z)) (stream : bool) :
    res rstring rstring * TextDecoder :=
  let bytes := default [] input in
  let lossy := negb (fatal t) in
  if stream then
    let '(r, d) := decode_chunk (decoder t) (td_encoder t) bytes lossy true (ignore_bom t) in
    (r, set_decoder t d true)
  else if do_not_flush t then
    match decode_chunk (decoder t) (td_encoder t) bytes lossy true (ignore_bom t) with
    | (Ok output, d) =>
        let '(r, d) := flush d (td_encoder t) lossy (ignore_bom t) in
        (s ← r; Ok (output ++ s), set_decoder t d false)
    | (r, d) => (r, set_decoder t d false)
    end
  else
    let '(r, d) := decode_chunk (reset (decoder t)) (td_encoder t) bytes lossy false (ignore_bom t) in
    (r, set_decoder t d false).

(** A stream of chunks: every call but the last passes [stream: true]; a
    thrown exception ends the loop. *)
Fixpoint decode_stream (t : TextDecoder) (chunks : list (list Z)) (last : option (list Z)) :
    res rstring rstring * TextDecoder :=
  match chunks with
  | [] => td_decode t last false
  | c :: chunks =>
      match td_decode t (Some c) true with
      | (Ok s, t) =>
          let '(r, t) := decode_stream t chunks last in
          (s' ← r; Ok (s ++ s'), t)
      | r => r
      end
  end.
End Decoder.

(** * The UTF-8 loop *)

Lemma utf8_next_take l c n : utf8_next l = U8Char c n → utf8_next (take n l) = U8Char c n.
Proof.
  intros H. destruct l as [|b0 [|b1 [|b2 [|b3 r]]]]; utf8_cases;
    cbn [take utf8_next next2 next3 next4]; repeat (case_match; simplify_eq); done.
Qed.

(** What [scan] consumes is valid UTF-8 on its own. *)
Lemma scan_prefix l : ∃ p, l = p ++ (scan l).2 ∧ scan p = ((scan l).1, []).
Proof.
  remember (length l) as k eqn:Hk. revert l Hk.
  induction k as [k IH] using lt_wf_ind. intros l ->.
  rewrite (scan_unfold l). destruct (utf8_next l) as [|c n|n|] eqn:Hn; try (by exists []).
  pose proof (utf8_next_char_len _ _ _ Hn) as Hlen.
  destruct (IH (length (drop n l)) ltac:(len) (drop n l) eq_refl) as (p & Hp & Hs).
  destruct (scan (drop n l)) as [cs rest]. simpl in *.
  exists (take n l ++ p). split.
  - by rewrite <- (assoc_L (++)), <- Hp, take_drop.
  - rewrite scan_unfold. pose proof (utf8_next_app (take n l) p) as Ha.
    rewrite (utf8_next_take _ _ _ Hn) in Ha. rewrite Ha.
    rewrite drop_app_length' by len. by rewrite Hs.
Qed.

Lemma from_utf8_valid_prefix l :
  let n := (length l - length (scan l).2)%nat in
  (if (0 <? n)%nat then from_utf8_unchecked (take n l) else Ok []) = Ok (scan l).1 ∧
  drop n l = (scan l).2.
Proof.
  intros n. destruct (scan_prefix l) as (p & Hp & Hs).
  assert (Hn : n = length p) by (unfold n; rewrite Hp at 1; len).
  rewrite Hn. clearbody n. split.
  - destruct (Nat.ltb_spec 0 (length p)).
    + rewrite Hp at 1. rewrite take_app_length. unfold from_utf8_unchecked.
      by rewrite (proj2 (from_utf8_Ok_scan p _) Hs).
    + destruct p; [|simpl in *; lia]. rewrite scan_unfold in Hs. simpl in Hs.
      by injection Hs as <-.
  - rewrite Hp at 1. by rewrite drop_app_length.
Qed.

(** The streaming strict decoder: the valid text and the incomplete tail, or
    nothing when a sequence is invalid. *)
Definition utf8_strict (l : list Z) : option (rstring * list Z) :=
  match utf8_next (scan l).2 with
  | U8Invalid _ => None
  | _ => Some (scan l)
  end.

Lemma utf8_loop_unfold fuel l lossy out pend :
  utf8_loop (S fuel) l lossy out pend =
  match utf8_next (scan l).2 with
  | U8Invalid n =>
      if lossy
      then utf8_loop fuel (drop n (scan l).2) lossy ((out ++ (scan l).1) ++ [REPLACEMENT]) pend
      else (Err (utf8_error_text (mkUtf8Error (length l - length (scan l).2) (Some n))), pend)
  | _ => (Ok (out ++ (scan l).1), pend ++ (scan l).2)
  end.
Proof.
  destruct (decide (l = [])) as [->|Hl]; [simpl; by rewrite !app_nil_r|].
  assert (He : ∀ T (x y : T), match l with [] => x | _ => y end = y) by (by destruct l).
  cbn [utf8_loop]. rewrite He. destruct (from_utf8_valid_prefix l) as [Hv Hd]. unfold from_utf8.
  pose proof (scan_rest l) as Hr. destruct (scan l) as [cs rest]. cbn [fst snd] in *.
  destruct (utf8_next rest) as [|c n|n|] eqn:Hn; cbn [valid_up_to error_len].
  - apply utf8_next_end in Hn as ->. by rewrite app_nil_r.
  - by destruct (Hr c n).
  - by rewrite Hv, Hd.
  - by rewrite Hv, Hd.
Qed.

Lemma utf8_loop_lossy fuel l out pend :
  (length l < fuel)%nat →
  utf8_loop fuel l true out pend = (Ok (out ++ (utf8_stream l).1), pend ++ (utf8_stream l).2).
Proof.
  revert l out. induction fuel as [|fuel IH]; intros l out Hf; [lia|].
  rewrite utf8_loop_unfold, (scan_stream l), (utf8_stream_unfold (scan l).2). cbn [fst snd].
  pose proof (scan_rest l) as Hr.
  destruct (utf8_next (scan l).2) as [|c n|n|] eqn:Hn.
  - apply utf8_next_end in Hn. rewrite Hn. by rewrite !app_nil_r.
  - by destruct (Hr c n).
  - pose proof (utf8_next_invalid_len _ _ Hn).
    destruct (scan_prefix l) as (p & Hp & _). apply (f_equal length) in Hp.
    rewrite IH by len. destruct (utf8_stream (drop n (scan l).2)) as [cs' t]. simpl.
    by rewrite <- !(assoc_L (++)).
  - by rewrite app_nil_r.
Qed.

Lemma utf8_loop_strict fuel l out pend :
  (length l < fuel)%nat →
  match utf8_strict l with
  | Some (s, t) => utf8_loop fuel l false out pend = (Ok (out ++ s), pend ++ t)
  | None => ∃ e, utf8_loop fuel l false out pend = (Err e, pend)
  end.
Proof.
  destruct fuel as [|fuel]; intros Hf; [lia|]. rewrite utf8_loop_unfold. unfold utf8_strict.
  destruct (scan l) as [cs rest]. cbn [fst snd].
  destruct (utf8_next rest) as [|c n|n|]; eauto.
Qed.

(** * Streaming specifications *)

(** Text in front of a streaming result. *)
Definition prepend (s : rstring) (o : option (rstring * list Z)) : option (rstring * list Z) :=
  '(s', t) ← o; Some (s ++ s', t).

Lemma prepend_app s1 s2 o : prepend s1 (prepend s2 o) = prepend (s1 ++ s2) o.
Proof. destruct o as [[s' t]|]; [|done]. simpl. by rewrite (assoc_L (++)). Qed.

Lemma prepend_nil o : prepend [] o = o.
Proof. by destruct o as [[]|]. Qed.

Lemma prepend_cons c o t : prepend [c] o ≠ Some ([], t).
Proof. by destruct o as [[]|]. Qed.

(** A decoder can be resumed: what it holds stands for what it has read. *)
Definition resumable (spec : list Z → option (rstring * list Z)) : Prop :=
  ∀ a b, spec (a ++ b) = '(s, t) ← spec a; prepend s (spec (t ++ b)).

Lemma scan_app a b :
  scan (a ++ b) = ((scan a).1 ++ (scan ((scan a).2 ++ b)).1, (scan ((scan a).2 ++ b)).2).
Proof.
  remember (length a) as k eqn:Hk. revert a Hk.
  induction k as [k IH] using lt_wf_ind. intros a ->. rewrite (scan_unfold a).
  destruct (utf8_next a) as [|c n|n|] eqn:Hn; try apply surjective_pairing.
  pose proof (utf8_next_char_len _ _ _ Hn). pose proof (utf8_next_app a b) as Ha.
  rewrite Hn in Ha. rewrite scan_unfold, Ha, drop_app_le by lia.
  rewrite (IH (length (drop n a))) by len.
  by destruct (scan (drop n a)).
Qed.

Lemma utf8_strict_resumable : resumable utf8_strict.
Proof.
  intros a b. unfold utf8_strict. rewrite (scan_app a b). cbn [fst snd].
  destruct (scan a) as [s t]. cbn [fst snd].
  destruct (utf8_next t) as [|c n|n|] eqn:Hn; simpl.
  2: pose proof (utf8_next_app t b) as Ha; rewrite Hn in Ha.
  3: { pose proof (utf8_next_app t b) as Ha. rewrite Hn in Ha.
       rewrite scan_unfold, Ha. simpl. by rewrite Ha. }
  all: by destruct (scan (t ++ b)) as [s' t']; simpl; destruct (utf8_next t').
Qed.

Lemma utf8_lossy_resumable : resumable (λ l, Some (utf8_stream l)).
Proof.
  intros a b. rewrite utf8_stream_app. destruct (utf8_stream a) as [s t]. simpl.
  by destruct (utf8_stream (t ++ b)).
Qed.

(** UTF-16: the text, and the bytes of an unfinished unit or pair. *)
Fixpoint u16_scan (e : Endian) (l : list Z) : option (rstring * list Z) :=
  match l with
  | b0 :: b1 :: r =>
      let u := u16_from e b0 b1 in
      if is_lead u then
        match r with
        | n0 :: n1 :: r' =>
            let v := u16_from e n0 n1 in
            if is_trail v then prepend [combine_surrogates u v] (u16_scan e r') else None
        | _ => Some ([], l)
        end
      else if is_trail u then None
      else prepend [u] (u16_scan e r)
  | _ => Some ([], l)
  end.

(** Induction that follows [u16_scan]: the four shapes of a held tail, the two
    ill-formed heads, a unit and a pair. *)
Lemma u16_scan_ind e (P : list Z → Prop) :
  P [] → (∀ b, P [b]) →
  (∀ b0 b1, is_lead (u16_from e b0 b1) = true → P [b0; b1]) →
  (∀ b0 b1 b2, is_lead (u16_from e b0 b1) = true → P [b0; b1; b2]) →
  (∀ b0 b1 r, is_lead (u16_from e b0 b1) = false → is_trail (u16_from e b0 b1) = true →
     P (b0 :: b1 :: r)) →
  (∀ b0 b1 n0 n1 r, is_lead (u16_from e b0 b1) = true → is_trail (u16_from e n0 n1) = false →
     P (b0 :: b1 :: n0 :: n1 :: r)) →
  (∀ b0 b1 r, is_lead (u16_from e b0 b1) = false → is_trail (u16_from e b0 b1) = false →
     P r → P (b0 :: b1 :: r)) →
  (∀ b0 b1 n0 n1 r, is_lead (u16_from e b0 b1) = true → is_trail (u16_from e n0 n1) = true →
     P r → P (b0 :: b1 :: n0 :: n1 :: r)) →
  ∀ l, P l.
Proof.
  intros H0 H1 H2 H3 Hbt Hbl Hu Hp l. remember (length l) as k eqn:Hk. revert l Hk.
  induction k as [k IH] using lt_wf_ind. intros l ->.
  destruct l as [|b0 [|b1 r]]; [done..|].
  destruct (is_lead (u16_from e b0 b1)) eqn:Hl.
  - destruct r as [|n0 [|n1 r]]; [auto..|].
    destruct (is_trail (u16_from e n0 n1)) eqn:Ht; [|auto].
    apply Hp; [done..|]. apply (IH (length r)); simpl; lia.
  - destruct (is_trail (u16_from e b0 b1)) eqn:Ht; [auto|].
    apply Hu; [done..|]. apply (IH (length r)); simpl; lia.
Qed.

(** Evaluate the surrogate tests the context decides. *)
Ltac surrogates :=
  repeat match goal with
  | H : is_lead _ = _ |- _ => rewrite !H; clear H
  | H : is_trail _ = _ |- _ => rewrite !H; clear H
  end.

Lemma u16_scan_resumable e : resumable (u16_scan e).
Proof.
  intros a b. induction a using (u16_scan_ind e).
  1-4: match goal with |- context [u16_scan ?e ?x ≫= _] =>
         assert (Hs : u16_scan e x = Some ([], x)) by (simpl; by surrogates)
       end; rewrite Hs; simpl; by rewrite prepend_nil.
  all: cbn [app u16_scan]; surrogates; try done.
  - rewrite IHa. destruct (u16_scan e a) as [[s t]|]; [|done]. simpl. by rewrite prepend_app.
  - rewrite IHa. destruct (u16_scan e a) as [[s t]|]; [|done]. simpl. by rewrite prepend_app.
Qed.

(** A whole input: strict decoding of the units of an even number of bytes. *)
Lemma u16_scan_whole e l s :
  u16_scan e l = Some (s, []) ↔
  Nat.even (length l) = true ∧ from_utf16 (u16_chunks e l) = Some s.
Proof.
  revert s. induction l as [| | | | | |? ? l ? ? IH|? ? ? ? l ? ? IH] using (u16_scan_ind e);
    intros s; cbn [u16_scan u16_chunks from_utf16 length Nat.even]; surrogates.
  1-6: naive_solver.
  all: specialize (IH (tail s));
    destruct (u16_scan e l) as [[s' t]|], (from_utf16 (u16_chunks e l)); simpl in *; naive_solver.
Qed.

Lemma from_utf16_app a b s :
  from_utf16 a = Some s → from_utf16 (a ++ b) = app s <$> from_utf16 b.
Proof.
  remember (length a) as k eqn:Hk. revert a s Hk.
  induction k as [k IH] using lt_wf_ind. intros [|u r] s -> Ha; simpl in Ha.
  { simplify_eq/=. by destruct (from_utf16 b). }
  cbn [app from_utf16]. destruct (is_lead u).
  - destruct r as [|v r]; [done|]. cbn [app]. destruct (is_trail v); [|done].
    destruct (from_utf16 r) as [s'|] eqn:Hr; simplify_eq/=.
    rewrite (IH (length r) ltac:(lia) r s') by done. by destruct (from_utf16 b).
  - destruct (is_trail u); [done|].
    destruct (from_utf16 r) as [s'|] eqn:Hr; simplify_eq/=.
    rewrite (IH (length r) ltac:(lia) r s') by done. by destruct (from_utf16 b).
Qed.

Lemma from_utf16_snoc units s u :
  from_utf16 units = Some s → is_lead u = false → is_trail u = false →
  from_utf16 (units ++ [u]) = Some (s ++ [u]).
Proof. intros Hs Hl Ht. rewrite (from_utf16_app _ _ _ Hs). simpl. by surrogates. Qed.

Lemma from_utf16_snoc_pair units s u v :
  from_utf16 units = Some s → is_lead u = true → is_trail v = true →
  from_utf16 (units ++ [u; v]) = Some (s ++ [combine_surrogates u v]).
Proof. intros Hs Hl Ht. rewrite (from_utf16_app _ _ _ Hs). simpl. by surrogates. Qed.

(** The [utf16_odd_byte] and [utf16_lead_surrogate] that hold a tail. *)
Definition held (e : Endian) (t : list Z) : option Z * option Z :=
  match t with
  | [b] => (Some b, None)
  | [b0; b1] => (None, Some (u16_from e b0 b1))
  | [b0; b1; b] => (Some b, Some (u16_from e b0 b1))
  | _ => (None, None)
  end.

(** What a call should return: a tail is held only while streaming. *)
Definition u16_result (e : Endian) (stream : bool) (l : list Z) : option (rstring * list Z) :=
  '(s, t) ← u16_scan e l;
  if stream then Some (s, t) else match t with [] => Some (s, t) | _ => None end.

Lemma u16_result_prepend e stream l l' s :
  u16_scan e l = prepend s (u16_scan e l') →
  u16_result e stream l = prepend s (u16_result e stream l').
Proof.
  unfold u16_result. intros ->.
  by destruct (u16_scan e l') as [[s' [|]]|], stream.
Qed.

Definition utf16_ok (e : Endian) (lossy : bool) (s0 : rstring) (want : option (rstring * list Z))
    (r : res rstring (list Z) * (option Z * option Z)) : Prop :=
  match want with
  | Some (s, t) => ∃ units, r = (Ok units, held e t) ∧ from_utf16 units = Some (s0 ++ s)
  | None => lossy = false → ∃ msg st, r = (Err msg, st)
  end.

Lemma utf16_ok_prepend e lossy s0 s want r :
  utf16_ok e lossy (s0 ++ s) want r → utf16_ok e lossy s0 (prepend s want) r.
Proof.
  destruct want as [[s' t]|]; [|done]. simpl. intros (units & -> & Hu). exists units.
  by rewrite (assoc_L (++)).
Qed.

Lemma utf16_loop_ok fuel l e lossy stream units s0 :
  (length l < fuel)%nat → from_utf16 units = Some s0 →
  utf16_ok e lossy s0 (u16_result e stream l)
    (utf16_loop fuel l e lossy stream None None units).
Proof.
  revert fuel units s0.
  induction l as [| |b0 b1 Hl|b0 b1 b2 Hl|b0 b1 r Hl Ht|b0 b1 n0 n1 r Hl Ht
                 |b0 b1 r Hl Ht IH|b0 b1 n0 n1 r Hl Ht IH] using (u16_scan_ind e);
    intros [|fuel] units s0 Hf Hu; cbn [length] in Hf; try lia; cbn [utf16_loop].
  7: { rewrite (u16_result_prepend _ _ _ r [u16_from e b0 b1]) by (simpl; by surrogates).
       apply utf16_ok_prepend. unfold utf16_turn, utf16_unit, utf16_finish_unit. rewrite Hl, Ht.
       apply IH; [lia|by apply from_utf16_snoc]. }
  7: { rewrite (u16_result_prepend _ _ _ r [combine_surrogates (u16_from e b0 b1) (u16_from e n0 n1)])
         by (simpl; by surrogates).
       apply utf16_ok_prepend. unfold utf16_turn, utf16_unit. rewrite Hl, Ht.
       apply IH; [lia|by apply from_utf16_snoc_pair]. }
  all: unfold u16_result, utf16_turn, utf16_unit, utf16_finish_unit; cbn [u16_scan mbind option_bind];
    surrogates; destruct stream; simpl; intros; subst; rewrite ?app_nil_r; eauto.
Qed.

(** Resuming with a held lead surrogate. *)
Lemma utf16_loop_lead fuel b0 b1 l e lossy :
  (length l < fuel)%nat → is_lead (u16_from e b0 b1) = true →
  utf16_ok e lossy [] (u16_scan e (b0 :: b1 :: l))
    (utf16_loop fuel l e lossy true None (Some (u16_from e b0 b1)) []).
Proof.
  intros Hf Hl. destruct fuel as [|fuel]; [lia|]. cbn [utf16_loop].
  destruct l as [|n0 [|n1 r]].
  - cbn [u16_scan]. rewrite Hl. by exists [].
  - cbn [u16_scan]. rewrite Hl. by exists [].
  - cbn [length] in Hf. destruct (is_trail (u16_from e n0 n1)) eqn:Ht; cbn [u16_scan utf16_turn].
    + rewrite Hl, Ht. apply utf16_ok_prepend.
      pose proof (utf16_loop_ok fuel r e lossy true [u16_from e b0 b1; u16_from e n0 n1]
                    [combine_surrogates (u16_from e b0 b1) (u16_from e n0 n1)] ltac:(lia)) as Hk.
      unfold u16_result in Hk. destruct (u16_scan e r) as [[s t]|]; apply Hk; simpl; by surrogates.
    + rewrite Hl, Ht. intros ->. eauto.
Qed.

Definition string_ok {St} (lossy : bool) (want : option (rstring * St))
    (r : res rstring rstring * St) : Prop :=
  match want with
  | Some (s, st) => r = (Ok s, st)
  | None => lossy = false → ∃ msg st, r = (Err msg, st)
  end.

Lemma utf16_finish e lossy want r :
  utf16_ok e lossy [] want r →
  string_ok lossy ('(s, t) ← want; Some (s, held e t))
    (let '(r, st) := r in
     (units ← r; if lossy then Ok (from_utf16_lossy units)
                 else or_err (from_utf16 units) utf16_error_text, st)).
Proof.
  destruct want as [[s t]|]; simpl.
  - intros (units & -> & Hu). simpl. destruct lossy; [by rewrite (utf16_lossy_ok _ _ Hu)|].
    by rewrite Hu.
  - intros Hr Hf. destruct (Hr Hf) as (msg & st & ->). simpl. eauto.
Qed.

(** A streaming call resumes from the tail it holds. *)
Lemma decode_utf16_stream_ok e lossy h bytes :
  u16_scan e h = Some ([], h) →
  string_ok lossy ('(s, t) ← u16_scan e (h ++ bytes); Some (s, held e t))
    (decode_utf16_stream bytes e lossy true (held e h).1 (held e h).2).
Proof.
  intros Hh. unfold decode_utf16_stream. apply utf16_finish.
  pose proof (λ l, utf16_loop_ok (S (length l)) l e lossy true [] [] (Nat.lt_succ_diag_r _) eq_refl) as Hr.
  assert (Heq : ∀ l, u16_result e true l = u16_scan e l)
    by (intros l; unfold u16_result; by destruct (u16_scan e l) as [[]|]).
  setoid_rewrite Heq in Hr.
  destruct h as [|b0 [|b1 h]]; [exact (Hr bytes)|exact (Hr (b0 :: bytes))|].
  cbn [u16_scan] in Hh. destruct (is_lead (u16_from e b0 b1)) eqn:Hl.
  - destruct h as [|b2 [|b3 h]].
    + apply utf16_loop_lead; [simpl; lia|done].
    + apply (utf16_loop_lead _ b0 b1 (b2 :: bytes)); [simpl; lia|done].
    + destruct (is_trail _); [|done]. by destruct (u16_scan e h) as [[]|].
  - destruct (is_trail _); [done|]. by destruct (u16_scan e h) as [[]|].
Qed.

(** A call on a whole input. *)
Lemma decode_utf16_whole e lossy bytes :
  string_ok lossy
    ('(s, t) ← u16_scan e bytes; match t with [] => Some (s, (None, None)) | _ => None end)
    (decode_utf16_stream bytes e lossy false None None).
Proof.
  pose proof (utf16_loop_ok (S (length bytes)) bytes e lossy false [] [] (Nat.lt_succ_diag_r _) eq_refl) as Hr.
  apply utf16_finish in Hr. unfold u16_result in Hr.
  by destruct (u16_scan e bytes) as [[s [|]]|].
Qed.

(** * Byte-order marks *)

Definition strip_bom (e : Encoder) (ignore_bom : bool) (data : list Z) : list Z :=
  if negb ignore_bom && starts_with data (bom_prefix e)
  then drop (length (bom_prefix e)) data else data.

(** The data so far may still become a byte-order mark. *)
Definition bom_partial (e : Encoder) (ignore_bom : bool) (data : list Z) : bool :=
  negb ignore_bom &&
  ((shared_count data (bom_prefix e) =? length data) &&
   (shared_count data (bom_prefix e) <? length (bom_prefix e)))%nat.

Lemma starts_with_app data p x :
  ((shared_count data p =? length data) && (shared_count data p <? length p))%nat = false →
  starts_with (data ++ x) p = starts_with data p.
Proof.
  revert p. induction data as [|b data IH]; intros [|c p] Hp; simpl in *; try done.
  destruct (Z.eqb_spec b c); simpl; [|done]. apply IH. simpl in Hp. exact Hp.
Qed.

Lemma starts_with_length data p : starts_with data p = true → (length p ≤ length data)%nat.
Proof.
  revert data. induction p as [|c p IH]; intros [|b data] Hs; simpl in *; try lia; try done.
  apply andb_prop in Hs as [_ Hs]. apply IH in Hs. lia.
Qed.

Lemma strip_bom_app e ig data x :
  bom_partial e ig data = false → strip_bom e ig (data ++ x) = strip_bom e ig data ++ x.
Proof.
  unfold bom_partial, strip_bom. destruct ig; [done|]. cbn [negb andb]. intros Hp.
  rewrite (starts_with_app _ _ _ Hp). destruct (starts_with data _) eqn:Hs; [|done].
  by rewrite drop_app_le by (by apply starts_with_length).
Qed.

Lemma bom_partial_starts e ig data :
  bom_partial e ig data = true → ig = false ∧ starts_with data (bom_prefix e) = false.
Proof.
  unfold bom_partial. destruct ig; [done|]. cbn [negb andb]. intros Hp. split; [done|].
  bool_to_prop. destruct (starts_with data _) eqn:Hs; [|done].
  apply starts_with_length in Hs. lia.
Qed.

Lemma no_bom e ig data :
  bom_prefix e = [] → bom_partial e ig data = false ∧ strip_bom e ig data = data.
Proof.
  unfold bom_partial, strip_bom. intros ->. rewrite drop_0.
  split; [|by case_match]. by rewrite (andb_false_r (_ =? _)%nat), andb_false_r.
Qed.

Lemma process_bom_spec e bytes stream fin pend :
  let data := default [] pend ++ bytes in
  bom_prefix e ≠ [] →
  process_bom e bytes stream fin false pend =
  if stream && negb fin && bom_partial e false data then ([], false, Some data)
  else (strip_bom e false data, true, None).
Proof.
  intros data Hne. unfold process_bom. fold data.
  assert (Hd : match pend with Some p => p ++ bytes | None => bytes end = data) by (by destruct pend).
  rewrite Hd. pose proof (bom_partial_starts e false data) as Hps.
  unfold strip_bom, bom_partial in *. cbn [negb andb] in *.
  destruct (bom_prefix e) as [|p0 p]; [done|].
  destruct (starts_with data (p0 :: p)).
  - destruct (_ && _)%nat; [naive_solver|]. by rewrite andb_false_r.
  - done.
Qed.

(** * Chunks *)

Section Chunks.
Context `{CodecLaws}.

Definition stream_spec (e : Encoder) (lossy : bool) (l : list Z) : option (rstring * list Z) :=
  match e with
  | Utf8 | Windows1252 => if lossy then Some (utf8_stream l) else utf8_strict l
  | Utf16le => u16_scan Little l
  | Utf16be => u16_scan Big l
  | Hex | Base64 => Some ([], l)
  end.

(** The decoder that holds tail [t], its byte-order mark settled. *)
Definition state_of (e : Encoder) (ig : bool) (t : list Z) : IncrementalDecoder :=
  match e with
  | Utf16le => mkDecoder [] (negb ig) None (held Little t).1 (held Little t).2
  | Utf16be => mkDecoder [] (negb ig) None (held Big t).1 (held Big t).2
  | _ => mkDecoder t (negb ig) None None None
  end.

Lemma stream_spec_resumable e lossy : resumable (stream_spec e lossy).
Proof.
  destruct e; try apply u16_scan_resumable; try done.
  all: destruct lossy; [apply utf8_lossy_resumable|apply utf8_strict_resumable].
Qed.

(** What is held decodes to nothing yet. *)
Lemma stream_spec_tail e lossy l s t :
  stream_spec e lossy l = Some (s, t) → stream_spec e lossy t = Some ([], t).
Proof.
  intros Hl. pose proof (stream_spec_resumable e lossy l []) as Hr.
  rewrite !app_nil_r, Hl in Hr. simpl in Hr. rewrite app_nil_r in Hr.
  destruct (stream_spec e lossy t) as [[s' t']|]; simplify_eq/=.
  f_equal. f_equal. apply (app_inv_head s). by rewrite app_nil_r.
Qed.

Lemma decode_utf8_stream_ok lossy l :
  string_ok lossy (if lossy then Some (utf8_stream l) else utf8_strict l)
    (decode_utf8_like l lossy true []).
Proof.
  unfold decode_utf8_like. destruct lossy.
  - rewrite utf8_loop_lossy by lia. simpl. by destruct (utf8_stream l).
  - pose proof (utf8_loop_strict (S (length l)) l [] [] ltac:(lia)) as Hs.
    destruct (utf8_strict l) as [[s t]|]; [exact Hs|].
    intros _. destruct Hs as [e ->]. eauto.
Qed.

Lemma string_ok_map {St St'} lossy want r (f : St → St') :
  string_ok lossy want r →
  string_ok lossy ('(s, st) ← want; Some (s, f st)) (r.1, f r.2).
Proof.
  destruct want as [[s st]|]; simpl.
  - by intros ->.
  - intros Hr Hl. destruct (Hr Hl) as (msg & st & ->). simpl. eauto.
Qed.

(** A streaming call once the byte-order mark is settled. *)
Lemma decode_bytes_stream e lossy ig t input fin :
  stream_spec e lossy t = Some ([], t) →
  string_ok lossy ('(s, t') ← stream_spec e lossy (t ++ input); Some (s, state_of e ig t'))
    (decode_bytes (state_of e ig t) e input lossy true ig fin).
Proof.
  intros Ht. unfold decode_bytes.
  assert (Hr : bom_resolved (state_of e ig t) || ig = true) by (by destruct e, ig).
  rewrite Hr. destruct e; cbn [state_of pending bom_resolved pending_bom utf16_odd_byte
    utf16_lead_surrogate stream_spec app] in *; try done.
  1,2: pose proof (decode_utf8_stream_ok lossy (t ++ input)) as Hd;
    apply (string_ok_map _ _ _ (λ p, mkDecoder p (negb ig) None None None)) in Hd;
    by destruct (decode_utf8_like (t ++ input) lossy true []).
  1: pose proof (decode_utf16_stream_ok Little lossy t input Ht) as Hd.
  2: pose proof (decode_utf16_stream_ok Big lossy t input Ht) as Hd.
  all: apply (string_ok_map _ _ _ (λ p, mkDecoder [] (negb ig) None p.1 p.2)) in Hd;
    unfold with_utf16; cbn [pending bom_resolved pending_bom];
    by destruct (u16_scan _ (t ++ input)) as [[]|].
Qed.

(** Output and decoder after streaming [data]. *)
Definition progress (e : Encoder) (lossy ig : bool) (data : list Z) :
    option (rstring * IncrementalDecoder) :=
  if bom_partial e ig data then Some ([], mkDecoder [] false (Some data) None None)
  else '(s, t) ← stream_spec e lossy (strip_bom e ig data); Some (s, state_of e ig t).

(** A decoder whose byte-order mark is not settled yet. *)
Definition unsettled (pend : option (list Z)) : IncrementalDecoder := mkDecoder [] false pend None None.

(** Settling the byte-order mark: the rest of the call sees the stripped data. *)
Lemma decode_bytes_unsettled e lossy fin pend input :
  (bom_prefix e = [] → pend = None) →
  let data := default [] pend ++ input in
  decode_bytes (unsettled pend) e input lossy true false fin =
  if negb fin && bom_partial e false data then (Ok [], unsettled (Some data))
  else decode_bytes (state_of e false []) e (strip_bom e false data) lossy true false fin.
Proof.
  intros Hp data. unfold decode_bytes at 1. cbn [unsettled bom_resolved pending pending_bom
    utf16_odd_byte utf16_lead_surrogate orb app].
  destruct (decide (bom_prefix e = [])) as [He|He].
  - destruct (no_bom e false data He) as [-> ->].
    unfold process_bom, data. rewrite He, andb_false_r, (Hp He). by destruct e.
  - rewrite process_bom_spec by done. fold data. cbn [andb].
    destruct (negb fin && bom_partial e false data); by destruct e, lossy.
Qed.

Lemma decode_chunk_stream d e input lossy ig :
  decode_chunk d e input lossy true ig = decode_bytes d e input lossy true ig false.
Proof. unfold decode_chunk. by destruct (decode_bytes _ _ _ _ _ _ _) as [[]]. Qed.

(** The decoder after [data]; a new decoder has seen nothing. *)
Definition reached (e : Encoder) (lossy ig : bool) (data : list Z) (s : rstring)
    (d : IncrementalDecoder) : Prop :=
  (data = [] ∧ s = [] ∧ d = IncrementalDecoder_new) ∨ progress e lossy ig data = Some (s, d).

Definition extends_to {St} (lossy : bool) (s0 : rstring) (want : option (rstring * St))
    (r : res rstring rstring * St) : Prop :=
  match want with
  | Some (s1, st) => ∃ s, r = (Ok s, st) ∧ s1 = s0 ++ s
  | None => lossy = false → ∃ msg st, r = (Err msg, st)
  end.

Lemma string_ok_extends {St} lossy s0 (o : option (rstring * list Z)) (f : list Z → St) r :
  string_ok lossy ('(s, t) ← o; Some (s, f t)) r →
  extends_to lossy s0 ('(s, t) ← prepend s0 o; Some (s, f t)) r.
Proof. destruct o as [[s t]|]; simpl; [|done]. intros ->. eauto. Qed.

Lemma stream_spec_nil e lossy : stream_spec e lossy [] = Some ([], []).
Proof. by destruct e, lossy. Qed.

Lemma step_settled e lossy ig data s0 t input :
  bom_partial e ig data = false →
  stream_spec e lossy (strip_bom e ig data) = Some (s0, t) →
  bom_partial e ig (data ++ input) = false →
  extends_to lossy s0 (progress e lossy ig (data ++ input))
    (decode_bytes (state_of e ig t) e input lossy true ig false).
Proof.
  intros Hp Hs Hp'. unfold progress. rewrite Hp', strip_bom_app by done.
  rewrite (stream_spec_resumable e lossy (strip_bom e ig data) input), Hs.
  cbn [mbind option_bind]. apply string_ok_extends, decode_bytes_stream.
  by eapply stream_spec_tail.
Qed.

Lemma step_unsettled e lossy pend input :
  (bom_prefix e = [] → pend = None) →
  extends_to lossy [] (progress e lossy false (default [] pend ++ input))
    (decode_bytes (unsettled pend) e input lossy true false false).
Proof.
  intros Hp. rewrite decode_bytes_unsettled by done. unfold progress. cbn [negb andb].
  destruct (bom_partial e false (default [] pend ++ input)); [simpl; eauto|].
  pose proof (decode_bytes_stream e lossy false [] (strip_bom e false (default [] pend ++ input)) false
                (stream_spec_nil e lossy)) as Hd.
  apply (string_ok_extends _ []) in Hd. by rewrite prepend_nil in Hd.
Qed.

(** Not a prefix of the mark now, so never. *)
Lemma bom_partial_app e ig data x :
  bom_partial e ig data = false → bom_partial e ig (data ++ x) = false.
Proof.
  unfold bom_partial. destruct ig; [done|]. cbn [negb andb]. generalize (bom_prefix e) as p.
  induction data as [|b data IH]; intros [|c p]; simpl; try done.
  - by destruct x.
  - destruct (b =? c); [apply (IH p)|done].
Qed.

Lemma decode_chunk_step e lossy ig data s0 d input :
  reached e lossy ig data s0 d →
  extends_to lossy s0 (progress e lossy ig (data ++ input))
    (decode_chunk d e input lossy true ig).
Proof.
  rewrite decode_chunk_stream. intros [(-> & -> & ->)|Hp].
  - destruct ig.
    + assert (Hn : IncrementalDecoder_new = state_of e true []) by (by destruct e). rewrite Hn.
      by apply (step_settled e lossy true []); [|apply stream_spec_nil|].
    + by apply (step_unsettled e lossy None).
  - unfold progress in Hp. destruct (bom_partial e ig data) eqn:Hb.
    + simplify_eq. destruct (bom_partial_starts _ _ _ Hb) as [-> _].
      apply (step_unsettled e lossy (Some data)). intros Hne.
      by rewrite (proj1 (no_bom e false data Hne)) in Hb.
    + destruct (stream_spec e lossy (strip_bom e ig data)) as [[s t]|] eqn:Hs; simplify_eq/=.
      apply step_settled; [done..|]. by apply bom_partial_app.
Qed.

(** The text of a whole input: the streamed text, and what its tail becomes. *)
Definition finish_tail (e : Encoder) (lossy : bool) (t : list Z) : option rstring :=
  match e, t with
  | _, [] => Some []
  | (Utf8 | Windows1252), _ => if lossy then Some [REPLACEMENT] else None
  | (Utf16le | Utf16be), _ => None
  | Hex, _ => Some (hex_encode t)
  | Base64, _ => Some (b64_encode t)
  end.

Definition finish_spec (e : Encoder) (lossy : bool) (body : list Z) : option rstring :=
  '(s, t) ← stream_spec e lossy body; app s <$> finish_tail e lossy t.

Lemma utf8_strict_whole l :
  match from_utf8 l with
  | Ok s => utf8_strict l = Some (s, [])
  | _ => ∀ s, utf8_strict l ≠ Some (s, [])
  end.
Proof.
  unfold from_utf8, utf8_strict. pose proof (scan_rest l) as Hr.
  destruct (scan l) as [cs rest]. cbn [fst snd] in *.
  destruct (utf8_next rest) as [|c n|n|] eqn:Hn.
  - by apply utf8_next_end in Hn as ->.
  - by destruct (Hr c n).
  - done.
  - intros s. destruct rest; [done|]. intros ?; simplify_eq.
Qed.

Lemma finish_utf16 e lossy l :
  match '(s, t) ← u16_scan e l; app s <$> (match t with [] => Some [] | _ => None end) with
  | Some s => bytes_to_utf16_string l e lossy = Ok s
  | None => lossy = false → ∃ m, bytes_to_utf16_string l e lossy = Err m
  end.
Proof.
  pose proof (u16_scan_whole e l) as Hw. unfold bytes_to_utf16_string.
  destruct (u16_scan e l) as [[s [|b t]]|] eqn:Hs; simpl.
  - destruct (proj1 (Hw s) eq_refl) as [He Hf]. rewrite He, andb_false_r, app_nil_r.
    destruct lossy; [by rewrite (utf16_lossy_ok _ _ Hf)|by rewrite Hf].
  - intros ->. cbn [negb andb]. destruct (Nat.even (length l)) eqn:He; [|by eauto].
    destruct (from_utf16 (u16_chunks e l)) as [s'|] eqn:Hf; [|simpl; eauto].
    by pose proof (proj2 (Hw s') (conj eq_refl eq_refl)).
  - intros ->. cbn [negb andb]. destruct (Nat.even (length l)) eqn:He; [|by eauto].
    destruct (from_utf16 (u16_chunks e l)) as [s'|] eqn:Hf; [|simpl; eauto].
    by pose proof (proj2 (Hw s') (conj eq_refl eq_refl)).
Qed.

Lemma finish_utf8 lossy l :
  match '(s, t) ← (if lossy then Some (utf8_stream l) else utf8_strict l);
        app s <$> finish_tail Utf8 lossy t with
  | Some s => bytes_to_utf8_string l lossy = Ok s
  | None => lossy = false → ∃ m, bytes_to_utf8_string l lossy = Err m
  end.
Proof.
  unfold bytes_to_utf8_string. destruct lossy.
  - rewrite lossy_stream. by destruct (utf8_stream l) as [s [|b t]].
  - pose proof (utf8_strict_whole l) as Hw. unfold from_utf8 in *.
    destruct (scan l) as [cs rest]. destruct (utf8_next rest); simpl in Hw.
    1,2: rewrite Hw; simpl; by rewrite app_nil_r.
    all: destruct (utf8_strict l) as [[s [|b t]]|]; simpl; [|by eauto|by eauto]; by destruct (Hw s).
Qed.

(** Streaming to the end is decoding in one go. *)
Lemma finish_encode e lossy l :
  match finish_spec e lossy l with
  | Some s => encode_to_string e l lossy = Ok s
  | None => lossy = false → ∃ m, encode_to_string e l lossy = Err m
  end.
Proof.
  unfold finish_spec. destruct e; cbn [stream_spec encode_to_string].
  3,4: apply finish_utf8.
  3: exact (finish_utf16 Little lossy l).
  3: exact (finish_utf16 Big lossy l).
  all: destruct l as [|b l]; simpl; [|done]; f_equal; apply nil_length_inv.
  - by rewrite hex_length.
  - pose proof (b64_group [] [] eq_refl) as Hb. simpl in Hb.
    apply (f_equal length) in Hb. rewrite length_app in Hb. unfold bytes_to_b64_string. lia.
Qed.

Definition done_with (o : option rstring) : option (rstring * IncrementalDecoder) :=
  s ← o; Some (s, IncrementalDecoder_new).

Lemma held_tail e t : u16_scan e t = Some ([], t) → held e t = (None, None) → t = [].
Proof.
  destruct t as [|b0 [|b1 [|b2 [|b3 t]]]]; try done. cbn [u16_scan].
  intros Hs _. destruct (is_lead (u16_from e b0 b1)).
  - destruct (is_trail _); [|done]. by apply prepend_cons in Hs.
  - destruct (is_trail (u16_from e b0 b1)); [done|]. by apply prepend_cons in Hs.
Qed.

Lemma flush_rest_state e lossy ig t out :
  stream_spec e lossy t = Some ([], t) →
  extends_to lossy out (done_with (app out <$> finish_tail e lossy t))
    (let '(r, d) := flush_rest (state_of e ig t) e lossy [] in (r, d)).
Proof.
  intros Ht. destruct e; cbn [state_of flush_rest pending utf16_odd_byte utf16_lead_surrogate].
  1-4: destruct t as [|b t]; simpl; eauto; destruct lossy; simpl; eauto.
  all: cbn [stream_spec] in Ht; pose proof (held_tail _ t Ht) as Hh;
    destruct t as [|b t]; [simpl; eauto|];
    destruct (held _ (b :: t)) as [[o|] [l|]]; [..|by discriminate Hh];
    simpl; intros ->; eauto.
Qed.

Lemma flush_settled e lossy ig t s0 :
  stream_spec e lossy t = Some ([], t) →
  extends_to lossy s0 (done_with (app s0 <$> finish_tail e lossy t))
    (flush (state_of e ig t) e lossy ig).
Proof.
  intros Ht. unfold flush.
  assert (Hr : negb ig && negb (bom_resolved (state_of e ig t)) = false) by (by destruct e, ig).
  rewrite Hr. pose proof (decode_bytes_stream e lossy ig t [] true Ht) as Hd.
  rewrite app_nil_r, Ht in Hd. cbn [mbind option_bind string_ok] in Hd. rewrite Hd. cbn [app].
  pose proof (flush_rest_state e lossy ig t s0 Ht) as Hf.
  by destruct (flush_rest (state_of e ig t) e lossy []).
Qed.

(** A call on a whole input, the byte-order mark settled. *)
Lemma decode_bytes_whole e lossy ig ig' body fin :
  negb ig || ig' = true →
  string_ok lossy (s ← finish_spec e lossy body; Some (s, state_of e ig []))
    (decode_bytes (state_of e ig []) e body lossy false ig' fin).
Proof.
  intros Hig. unfold decode_bytes.
  assert (Hr : bom_resolved (state_of e ig []) = negb ig) by (by destruct e). rewrite Hr, Hig.
  pose proof (finish_encode e lossy body) as Hf. unfold finish_spec in *.
  destruct e; cbn [state_of pending pending_bom utf16_odd_byte utf16_lead_surrogate held fst snd
    app decode_utf8_like encode_to_string stream_spec] in *.
  5: pose proof (decode_utf16_whole Little lossy body) as Hd.
  6: pose proof (decode_utf16_whole Big lossy body) as Hd.
  5,6: apply (string_ok_map _ _ _ (λ p, mkDecoder [] (negb ig) None p.1 p.2)) in Hd;
    unfold with_utf16; cbn [pending bom_resolved pending_bom];
    destruct (u16_scan _ body) as [[s [|]]|]; simpl in *; rewrite ?app_nil_r; exact Hd.
  all: destruct (_ ≫= _) as [s|]; simpl; [by rewrite Hf|].
  all: intros Hl; destruct (Hf Hl) as [m ->]; eauto.
Qed.

Lemma flush_unsettled e lossy data :
  bom_partial e false data = true →
  extends_to lossy [] (done_with (finish_spec e lossy data))
    (flush (unsettled (Some data)) e lossy false).
Proof.
  intros Hp. unfold flush. cbn [unsettled bom_resolved pending_bom negb andb pending
    utf16_odd_byte utf16_lead_surrogate].
  assert (Hd : mkDecoder [] true None None None = state_of e false []) by (by destruct e).
  rewrite Hd. pose proof (decode_bytes_whole e lossy false true data true eq_refl) as Hw.
  destruct (finish_spec e lossy data) as [s|]; cbn [mbind option_bind string_ok] in Hw.
  - rewrite Hw. pose proof (decode_bytes_stream e lossy false [] [] true (stream_spec_nil e lossy)) as Hs.
    cbn [app] in Hs. rewrite stream_spec_nil in Hs. cbn [mbind option_bind string_ok] in Hs.
    rewrite Hs. simpl. exists s. split; [|done]. rewrite app_nil_r. by destruct e.
  - intros Hl. destruct (Hw Hl) as (msg & st & ->). eauto.
Qed.

Lemma flush_ok e lossy ig data s0 d :
  progress e lossy ig data = Some (s0, d) →
  extends_to lossy s0 (done_with (finish_spec e lossy (strip_bom e ig data)))
    (flush d e lossy ig).
Proof.
  unfold progress. destruct (bom_partial e ig data) eqn:Hp; intros Hd.
  - simplify_eq. destruct (bom_partial_starts _ _ _ Hp) as [-> Hs].
    unfold strip_bom. rewrite Hs. by apply flush_unsettled.
  - destruct (stream_spec e lossy (strip_bom e ig data)) as [[s t]|] eqn:Hs; simplify_eq/=.
    unfold finish_spec. rewrite Hs. cbn [mbind option_bind].
    apply flush_settled. by eapply stream_spec_tail.
Qed.

Lemma decode_once e lossy ig bytes :
  string_ok lossy (done_with (finish_spec e lossy (strip_bom e ig bytes)))
    (decode_chunk IncrementalDecoder_new e bytes lossy false ig).
Proof.
  unfold decode_chunk.
  assert (Hd : decode_bytes IncrementalDecoder_new e bytes lossy false ig false =
               decode_bytes (state_of e ig []) e (strip_bom e ig bytes) lossy false ig false).
  { destruct ig; [by destruct e|]. unfold decode_bytes. cbn [IncrementalDecoder_new bom_resolved
      pending pending_bom orb app].
    destruct (decide (bom_prefix e = [])) as [He|He]; [|rewrite process_bom_spec by done; by destruct e].
    unfold process_bom. rewrite (proj2 (no_bom e false bytes He)). by destruct e. }
  rewrite Hd. pose proof (decode_bytes_whole e lossy ig ig (strip_bom e ig bytes) false
                            ltac:(by destruct ig)) as Hw.
  destruct (finish_spec e lossy (strip_bom e ig bytes)) as [s|]; simpl in *; [by rewrite Hw|].
  intros Hl. destruct (Hw Hl) as (msg & st & ->). eauto.
Qed.

Lemma progress_None e lossy ig data rest :
  progress e lossy ig data = None → finish_spec e lossy (strip_bom e ig (data ++ rest)) = None.
Proof.
  unfold progress, finish_spec. destruct (bom_partial e ig data) eqn:Hp; [done|].
  rewrite strip_bom_app by done. intros Hn.
  rewrite (stream_spec_resumable e lossy (strip_bom e ig data) rest).
  by destruct (stream_spec e lossy (strip_bom e ig data)) as [[]|].
Qed.

Definition text_decoder (e : Encoder) (fatal ig : bool) : TextDecoder :=
  mkTextDecoder e fatal ig IncrementalDecoder_new false.

Definition finished (e : Encoder) (fatal ig : bool) (bytes : list Z) :
    option (rstring * TextDecoder) :=
  s ← finish_spec e (negb fatal) (strip_bom e ig bytes); Some (s, text_decoder e fatal ig).

Lemma td_decode_chunk e fatal ig data s0 d flag c :
  reached e (negb fatal) ig data s0 d →
  extends_to (negb fatal) s0
    ('(s, d) ← progress e (negb fatal) ig (data ++ c); Some (s, mkTextDecoder e fatal ig d true))
    (td_decode (mkTextDecoder e fatal ig d flag) (Some c) true).
Proof.
  intros Hr. pose proof (decode_chunk_step e (negb fatal) ig data s0 d c Hr) as Hs.
  unfold td_decode. cbn [td_encoder IncrementalDecoder.fatal ignore_bom decoder default].
  destruct (progress _ _ _ _) as [[s1 d1]|]; simpl in *.
  - destruct Hs as (s & -> & ->). unfold set_decoder. simpl. eauto.
  - intros Hl. destruct (Hs Hl) as (msg & st & ->). eauto.
Qed.

Lemma td_decode_last e fatal ig data s0 d last :
  reached e (negb fatal) ig data s0 d →
  extends_to (negb fatal) s0 (finished e fatal ig (data ++ default [] last))
    (td_decode (mkTextDecoder e fatal ig d true) last false).
Proof.
  intros Hr. pose proof (decode_chunk_step _ _ _ _ _ _ (default [] last) Hr) as Hs.
  unfold td_decode, finished. cbn [td_encoder IncrementalDecoder.fatal ignore_bom decoder do_not_flush].
  destruct (progress _ _ _ _) as [[s1 d1]|] eqn:Hp.
  - destruct Hs as (s & -> & ->). pose proof (flush_ok _ _ _ _ _ _ Hp) as Hf.
    destruct (finish_spec _ _ _) as [s2|]; simpl in *.
    + destruct Hf as (s3 & -> & ->). exists (s ++ s3). by rewrite (assoc_L (++)).
    + intros Hl. destruct (Hf Hl) as (msg & st & ->). simpl. eauto.
  - apply (progress_None _ _ _ _ []) in Hp. rewrite app_nil_r in Hp. rewrite Hp. simpl in *.
    intros Hl. destruct (Hs Hl) as (msg & st & ->). simpl. eauto.
Qed.

Lemma decode_stream_from e fatal ig data s0 d chunks last :
  reached e (negb fatal) ig data s0 d →
  extends_to (negb fatal) s0 (finished e fatal ig (data ++ mjoin chunks ++ default [] last))
    (decode_stream (mkTextDecoder e fatal ig d true) chunks last).
Proof.
  revert data s0 d. induction chunks as [|c chunks IH]; intros data s0 d Hr.
  { by apply td_decode_last. }
  pose proof (td_decode_chunk _ _ _ _ _ _ true c Hr) as Hs. cbn [decode_stream mjoin list_join].
  rewrite <- (assoc_L (++)), (assoc_L (++) data c).
  destruct (progress e (negb fatal) ig (data ++ c)) as [[s1 d1]|] eqn:Hp;
    cbn [mbind option_bind extends_to] in Hs.
  - destruct Hs as (s & -> & ->). specialize (IH _ _ _ (or_intror Hp)).
    destruct (finished _ _ _ _) as [[s2 t]|]; simpl in *.
    + destruct IH as (s3 & -> & ->). exists (s ++ s3). by rewrite (assoc_L (++)).
    + intros Hl. destruct (IH Hl) as (msg & st & ->). simpl. eauto.
  - unfold finished. rewrite (progress_None _ _ _ _ _ Hp). intros Hl.
    destruct (Hs Hl) as (msg & st & ->). eauto.
Qed.

Lemma decode_stream_new e fatal ig chunks last :
  string_ok (negb fatal) (finished e fatal ig (mjoin chunks ++ default [] last))
    (decode_stream (text_decoder e fatal ig) chunks last).
Proof.
  destruct chunks as [|c chunks].
  - pose proof (decode_once e (negb fatal) ig (default [] last)) as Ho.
    cbn [decode_stream mjoin list_join app]. unfold td_decode, text_decoder, finished.
    cbn [td_encoder IncrementalDecoder.fatal ignore_bom decoder do_not_flush]. unfold reset.
    destruct (finish_spec _ _ _) as [s|]; simpl in *; [by rewrite Ho|].
    intros Hl. destruct (Ho Hl) as (msg & st & ->). eauto.
  - assert (Hr : reached e (negb fatal) ig [] [] IncrementalDecoder_new) by (by left).
    assert (Heq : decode_stream (text_decoder e fatal ig) (c :: chunks) last =
                  decode_stream (mkTextDecoder e fatal ig IncrementalDecoder_new true)
                    (c :: chunks) last) by done.
    rewrite Heq. pose proof (decode_stream_from _ _ _ _ _ _ (c :: chunks) last Hr) as Hs.
    cbn [app] in Hs. destruct (finished _ _ _ _) as [[s t]|]; [|exact Hs].
    by destruct Hs as (s' & -> & ->).
Qed.

Definition is_utf16 (e : Encoder) : bool :=
  match e with Utf16le | Utf16be => true | _ => false end.

Lemma finish_spec_lossy e body :
  (is_utf16 e = true → ∃ s, encode_to_string e body false = Ok s) →
  ∃ s, finish_spec e true body = Some s.
Proof.
  intros Hu. pose proof (finish_encode e false body) as Hf. unfold finish_spec in *.
  destruct e; cbn [stream_spec mbind option_bind] in *.
  5,6: destruct (Hu eq_refl) as [s Hs]; rewrite Hs in Hf;
       destruct (u16_scan _ body) as [[s' [|]]|]; simpl in *;
         [by eexists|destruct (Hf eq_refl); done..].
  3,4: destruct (utf8_stream body) as [s [|]]; by eexists.
  all: destruct body; by eexists.
Qed.

(** C3. Chunking is invisible: a [TextDecoder] that receives its input in any
    chunks ([stream: true] on all calls but the last) returns, concatenated,
    what [Encoder::encode_to_string] makes of the whole input without its
    byte-order mark (kept under [ignoreBOM]), wherever the chunks are cut, and
    is then as new; when the whole input is malformed a fatal decoder throws.
    For the two UTF-16 encodings in replacement mode the input must be
    well formed ([utf16_replacement_differs] shows why). *)
Theorem text_decoder_chunking (e : Encoder) (fatal ig : bool) (chunks : list (list Z))
    (last : option (list Z)) :
  let body := strip_bom e ig (mjoin chunks ++ default [] last) in
  (is_utf16 e = true → fatal = false → ∃ s, encode_to_string e body false = Ok s) →
  match encode_to_string e body (negb fatal) with
  | Ok s => decode_stream (text_decoder e fatal ig) chunks last = (Ok s, text_decoder e fatal ig)
  | _ => ∃ msg t, decode_stream (text_decoder e fatal ig) chunks last = (Err msg, t)
  end.
Proof.
  intros body Hu. pose proof (decode_stream_new e fatal ig chunks last) as Hs.
  pose proof (finish_encode e (negb fatal) body) as Hf. unfold finished in Hs. fold body in Hs.
  destruct (finish_spec e (negb fatal) body) as [s|] eqn:Hfin.
  - by rewrite Hf.
  - destruct fatal; cbn [negb] in *.
    + destruct (Hf eq_refl) as [m ->]. apply (Hs eq_refl).
    + destruct (finish_spec_lossy e body) as [s Hl]; [naive_solver|congruence].
Qed.

(** In replacement mode UTF-16 decoding does depend on the calls: a lead
    surrogate that follows an unpaired lead is not paired with its trail, so
    three units decode to three replacements where the platform decoder
    ([from_utf16_lossy]) finds U+10000; and a lead surrogate with half a unit
    after it yields three replacements in one call, one in two calls. *)
Example utf16_replacement_differs :
  let t := text_decoder Utf16le false false in
  let broken := [0; 216; 0; 216; 0; 220] in
  (decode_stream t [] (Some broken)).1 = Ok [REPLACEMENT; REPLACEMENT; REPLACEMENT] ∧
  encode_to_string Utf16le broken true = Ok [REPLACEMENT; 65536] ∧
  (decode_stream t [] (Some [61; 216; 65])).1 = Ok [REPLACEMENT; REPLACEMENT; REPLACEMENT] ∧
  (decode_stream t [[61; 216; 65]] None).1 = Ok [REPLACEMENT].
Proof. split_and!; vm_compute; reflexivity. Qed.

(** A fatal [TextDecoder] that throws when a stream ends inside a
    character keeps the unfinished bytes: a new stream of plain ASCII then
    throws as well, although a new decoder accepts it. *)
Example fatal_flush_keeps_bytes :
  let t := text_decoder Utf8 true false in
  let '(r1, t1) := decode_stream t [[226; 130]] None in
  let '(r2, t2) := td_decode t1 (Some (bs "ok")) true in
  (∃ m, r1 = Err m) ∧ (∃ m, r2 = Err m) ∧ pending (decoder t1) = [226; 130] ∧
  (td_decode t (Some (bs "ok")) true).1 = Ok (bs "ok").
Proof. vm_compute. split_and!; eauto. Qed.
End Chunks.
