(* ===== verification/CodecRef.v ===== *)
(** A reference implementation of the third-party codecs behind
    [Encoding.CodecLib]: lowercase hex, RFC 4648 base64, the WHATWG forgiving
    decode, and unpadded URL-safe base64.  It shows that [Encoding.CodecLaws]
    is consistent, and lets witnesses run the encoders on concrete input. *)

From S2P Require Import Prelude Unicode Encoding IncrementalDecoder.

(** * Hex *)

Definition hex_digits : list Z := bs "0123456789abcdef".
Definition hex_digit (n : Z) : Z := nth (Z.to_nat (n `mod` 16)) hex_digits 48.
Definition ref_hex_encode (l : list Z) : list Z :=
  mjoin ((λ c, [hex_digit (c `div` 16); hex_digit (c `mod` 16)]) <$> l).

Definition hex_value (c : Z) : option Z :=
  if (48 <=? c) && (c <=? 57) then Some (c - 48)
  else if (97 <=? c) && (c <=? 102) then Some (c - 87)
  else if (65 <=? c) && (c <=? 70) then Some (c - 55)
  else None.

Definition codec_error : rstring := bs "codec error".

Fixpoint ref_hex_decode (l : list Z) : res rstring (list Z) :=
  match l with
  | [] => Ok []
  | h :: o :: l =>
      match hex_value h, hex_value o with
      | Some a, Some c => r ← ref_hex_decode l; Ok (16 * a + c :: r)
      | _, _ => Err codec_error
      end
  | [_] => Err codec_error
  end.

(** * Base64 *)

Definition b64_alphabet : list Z :=
  bs "ABCDEFGHIJKLMNOPQRSTUVWXYZabcdefghijklmnopqrstuvwxyz0123456789+/".
Definition b64_char (n : Z) : Z := nth (Z.to_nat (n `mod` 64)) b64_alphabet 65.
Definition b64_value (c : Z) : option Z :=
  Z.of_nat <$> find_pos (Z.eqb c) b64_alphabet.

(** The characters without padding. *)
Fixpoint b64_core (l : list Z) : list Z :=
  match l with
  | a :: c :: d :: l =>
      b64_char (a `div` 4) :: b64_char (a `mod` 4 * 16 + c `div` 16) ::
      b64_char (c `mod` 16 * 4 + d `div` 64) :: b64_char (d `mod` 64) :: b64_core l
  | [a; c] => [b64_char (a `div` 4); b64_char (a `mod` 4 * 16 + c `div` 16); b64_char (c `mod` 16 * 4)]
  | [a] => [b64_char (a `div` 4); b64_char (a `mod` 4 * 16)]
  | [] => []
  end.

Fixpoint b64_pad (l : list Z) : list Z :=
  match l with
  | _ :: _ :: _ :: l => b64_pad l
  | [_; _] => [61]
  | [_] => [61; 61]
  | [] => []
  end.

Definition ref_b64_encode (l : list Z) : list Z := b64_core l ++ b64_pad l.

Fixpoint b64_decode_core (l : list Z) : res rstring (list Z) :=
  match l with
  | [] => Ok []
  | [_] => Err codec_error
  | [x; y] =>
      match b64_value x, b64_value y with
      | Some a, Some c => Ok [a * 4 + c `div` 16]
      | _, _ => Err codec_error
      end
  | [x; y; z] =>
      match b64_value x, b64_value y, b64_value z with
      | Some a, Some c, Some d => Ok [a * 4 + c `div` 16; c `mod` 16 * 16 + d `div` 4]
      | _, _, _ => Err codec_error
      end
  | x :: y :: z :: t :: l =>
      match b64_value x, b64_value y, b64_value z, b64_value t with
      | Some a, Some c, Some d, Some e =>
          r ← b64_decode_core l;
          Ok (a * 4 + c `div` 16 :: c `mod` 16 * 16 + d `div` 4 :: d `mod` 4 * 64 + e :: r)
      | _, _, _, _ => Err codec_error
      end
  end.

(** Drop at most two trailing padding characters. *)
Definition strip_pad (l : list Z) : list Z :=
  match reverse l with
  | 61 :: 61 :: r => reverse r
  | 61 :: r => reverse r
  | _ => l
  end.

Definition ref_forgiving_decode (l : list Z) : res rstring (list Z) :=
  let l := filter (λ c, is_ascii_whitespace c = false) l in
  let l := if (length l `mod` 4 =? 0)%nat then strip_pad l else l in
  b64_decode_core l.

Definition ref_b64url_encode (l : list Z) : list Z :=
  to_url_alphabet <$> drop_padding (ref_b64_encode l).
Definition ref_b64url_decode (l : list Z) : res rstring (list Z) :=
  b64_decode_core (from_url_alphabet <$> l).

#[export] Instance ref_codec : CodecLib := {|
  hex_encode := ref_hex_encode;
  hex_decode := ref_hex_decode;
  b64_encode := ref_b64_encode;
  b64_forgiving_decode := ref_forgiving_decode;
  b64url_encode := ref_b64url_encode;
  b64url_decode := ref_b64url_decode;
|}.

(** * The laws *)

Lemma b64_char_mod n : b64_char (n `mod` 64) = b64_char n.
Proof. unfold b64_char. by rewrite Zmod_mod. Qed.

Lemma b64_char_plain n :
  0 ≤ b64_char n < 128 ∧ b64_char n ≠ 45 ∧ b64_char n ≠ 95 ∧ b64_char n ≠ 61 ∧
  is_ascii_whitespace (b64_char n) = false.
Proof.
  rewrite <- b64_char_mod.
  pose proof (forall_range 64 (λ n, (0 <=? b64_char n) && (b64_char n <? 128) &&
    negb (b64_char n =? 45) && negb (b64_char n =? 95) && negb (b64_char n =? 61) &&
    negb (is_ascii_whitespace (b64_char n))) ltac:(vm_compute; reflexivity)
    (n `mod` 64) ltac:(dlia)) as H. cbv beta in H.
  bool_to_prop. split_and!; done || lia.
Qed.

Lemma b64_value_char n : 0 ≤ n < 64 → b64_value (b64_char n) = Some n.
Proof.
  assert (H : forallb (λ n, bool_decide (b64_value (b64_char n) = Some n)) (seqZ 0 64) = true)
    by (vm_compute; reflexivity).
  intros Hn. pose proof (forall_range 64 _ H n Hn) as Hv. cbv beta in Hv.
  by apply bool_decide_eq_true in Hv.
Qed.

(** Induction three elements at a time. *)
Lemma list_ind3 {A} (P : list A → Prop) :
  P [] → (∀ a, P [a]) → (∀ a c, P [a; c]) →
  (∀ a c d l, P l → P (a :: c :: d :: l)) → ∀ l, P l.
Proof.
  intros H0 H1 H2 H3. fix IH 1. intros [|a [|c [|d l]]]; [done|done|done|].
  apply H3, IH.
Qed.

Lemma b64_core_plain l :
  Forall (λ c, 0 ≤ c < 128 ∧ c ≠ 45 ∧ c ≠ 95 ∧ c ≠ 61 ∧ is_ascii_whitespace c = false) (b64_core l).
Proof.
  induction l using list_ind3; simpl;
    repeat (apply Forall_cons_2; [apply b64_char_plain|]); auto using Forall_nil_2.
Qed.

Lemma b64_pad_cases l : b64_pad l = [] ∨ b64_pad l = [61] ∨ b64_pad l = [61; 61].
Proof. induction l using list_ind3; simpl; auto. Qed.

Lemma b64_core_group l1 l2 :
  (length l1 `mod` 3 = 0)%nat →
  b64_core (l1 ++ l2) = b64_core l1 ++ b64_core l2 ∧ b64_pad (l1 ++ l2) = b64_pad l2 ∧
  b64_pad l1 = [].
Proof.
  induction l1 as [|a|a c|a c d l1 IH] using list_ind3; intros Hm; try done.
  cbn [app b64_core b64_pad]. rewrite !length_cons in Hm.
  destruct IH as (-> & -> & ->); [dlia|done].
Qed.

Lemma b64_decode_encode l : Forall u8_ok l → b64_decode_core (b64_core l) = Ok l.
Proof.
  unfold u8_ok.
  induction l as [|a|a c|a c d l IH] using list_ind3; intros Hl; decompose_Forall_hyps; simpl.
  - done.
  - rewrite !b64_value_char by dlia.
    repeat f_equal; dlia.
  - rewrite !b64_value_char by dlia.
    repeat f_equal; dlia.
  - rewrite !b64_value_char by dlia.
    rewrite IH by done. simpl. repeat f_equal; dlia.
Qed.

Lemma b64_lengths l :
  ((length (b64_core l) + length (b64_pad l)) `mod` 4 = 0)%nat.
Proof.
  induction l as [|a|a c|a c d l IH] using list_ind3; try done.
  cbn [b64_core b64_pad]. rewrite !length_cons. dlia.
Qed.

Lemma strip_pad_core l : Forall (λ c, c ≠ 61) l → strip_pad l = l.
Proof.
  intros Hl. unfold strip_pad. pose proof (Forall_reverse (λ c, c ≠ 61) l) as Hr.
  apply Hr in Hl. destruct (reverse l) as [|c r]; [done|].
  apply Forall_cons in Hl as [Hc _]. repeat case_match; done.
Qed.

Lemma strip_pad_padded l : strip_pad (b64_core l ++ b64_pad l) = b64_core l.
Proof.
  assert (Hn : Forall (λ c, c ≠ 61) (b64_core l))
    by (eapply Forall_impl; [apply b64_core_plain|naive_solver]).
  destruct (b64_pad_cases l) as [-> |[-> | ->]].
  - rewrite app_nil_r. by apply strip_pad_core.
  - unfold strip_pad. rewrite reverse_app. simpl.
    pose proof (Forall_reverse (λ c, c ≠ 61) (b64_core l)) as Hr. apply Hr in Hn.
    destruct (reverse (b64_core l)) as [|c r] eqn:He.
    + apply (f_equal reverse) in He. rewrite reverse_involutive in He. by rewrite He.
    + apply Forall_cons in Hn as [Hc _].
      apply (f_equal reverse) in He. rewrite reverse_involutive in He. rewrite He.
      repeat case_match; try done; lia.
  - unfold strip_pad. rewrite reverse_app. simpl. by rewrite reverse_involutive.
Qed.

Lemma not_whitespace_padded l :
  Forall (λ c, is_ascii_whitespace c = false) (b64_core l ++ b64_pad l).
Proof.
  apply Forall_app. split.
  - eapply Forall_impl; [apply b64_core_plain|naive_solver].
  - destruct (b64_pad_cases l) as [-> |[-> | ->]]; repeat constructor.
Qed.

Lemma drop_padding_core l : drop_padding (ref_b64_encode l) = b64_core l.
Proof.
  unfold drop_padding, ref_b64_encode. rewrite filter_app, filter_all.
  - destruct (b64_pad_cases l) as [-> |[-> | ->]]; simpl; by rewrite app_nil_r.
  - eapply Forall_impl; [apply b64_core_plain|naive_solver].
Qed.

Lemma hex_value_digit n : 0 ≤ n < 16 → hex_value (hex_digit n) = Some n.
Proof.
  assert (H : forallb (λ n, bool_decide (hex_value (hex_digit n) = Some n)) (seqZ 0 16) = true)
    by (vm_compute; reflexivity).
  intros Hn. pose proof (forall_range 16 _ H n Hn) as Hv. cbv beta in Hv.
  by apply bool_decide_eq_true in Hv.
Qed.

Lemma hex_digit_ascii n : 0 ≤ hex_digit n < 128.
Proof.
  unfold hex_digit.
  assert (Hall : Forall (λ c, 0 ≤ c < 128) hex_digits) by (vm_compute; repeat constructor; discriminate).
  destruct (nth_in_or_default (Z.to_nat (n `mod` 16)) hex_digits 48) as [Hin| ->]; [|lia].
  rewrite Forall_forall in Hall. apply Hall. by apply list_elem_of_In.
Qed.

#[export] Instance ref_codec_laws : CodecLaws.
Proof.
  split; simpl.
  - intros l. unfold ascii, ref_hex_encode. induction l as [|c l IH]; simpl; [constructor|].
    repeat constructor; auto; apply hex_digit_ascii.
  - intros l. induction l as [|c l IH]; [done|].
    change (ref_hex_encode (c :: l)) with
      (hex_digit (c `div` 16) :: hex_digit (c `mod` 16) :: ref_hex_encode l).
    rewrite !length_cons, IH. lia.
  - intros l. induction 1 as [|c l Hc _ IH]; [done|]. unfold u8_ok in Hc.
    change (ref_hex_encode (c :: l)) with
      (hex_digit (c `div` 16) :: hex_digit (c `mod` 16) :: ref_hex_encode l). simpl.
    rewrite !hex_value_digit by dlia. rewrite IH. simpl.
    f_equal. f_equal. dlia.
  - intros l. apply Forall_app. split.
    + eapply Forall_impl; [apply b64_core_plain|naive_solver].
    + destruct (b64_pad_cases l) as [-> |[-> | ->]]; repeat constructor; lia.
  - intros l. apply Forall_app. split.
    + eapply Forall_impl; [apply b64_core_plain|naive_solver].
    + destruct (b64_pad_cases l) as [-> |[-> | ->]]; repeat constructor; lia.
  - intros l1 l2 Hm. unfold ref_b64_encode.
    destruct (b64_core_group l1 l2 Hm) as (-> & -> & ->). by rewrite app_nil_r, (assoc_L (++)).
  - intros l Hl. unfold ref_forgiving_decode, ref_b64_encode.
    rewrite (filter_all _ _ (not_whitespace_padded l)), length_app, b64_lengths. simpl.
    rewrite strip_pad_padded. by apply b64_decode_encode.
  - intros l Hl. unfold ref_forgiving_decode. rewrite drop_padding_core, filter_all.
    + rewrite strip_pad_core.
      * destruct (length (b64_core l) `mod` 4 =? 0)%nat; by apply b64_decode_encode.
      * eapply Forall_impl; [apply b64_core_plain|naive_solver].
    + eapply Forall_impl; [apply b64_core_plain|naive_solver].
  - done.
Qed.

(** * Witnesses of the encoder theorems *)

Lemma b64_both_alphabets_witness :
  bytes_from_b64 (bytes_to_b64 (bs "Man?>")) = Ok (bs "Man?>") ∧
  bytes_from_b64 (bytes_to_b64_url_safe_string (bs "Man?>")) = Ok (bs "Man?>") ∧
  replace_url_safe (url_safe_byte_positions 0 (bs "a-b_")) (bs "a-b_") =
    Ok (from_url_alphabet <$> bs "a-b_").
Proof.
  apply (b64_both_alphabets (bs "Man?>") (bs "a-b_")).
  change (bs "Man?>") with [77; 97; 110; 63; 62].
  repeat (apply Forall_cons; split; [unfold u8_ok; lia|]). apply Forall_nil_2.
Defined.

Lemma encoder_roundtrip_witness :
  (t ← decode_from_string Utf16le [128216; 65]; encode_to_string Utf16le t false) = Ok [128216; 65].
Proof.
  apply (encoder_roundtrip Utf16le [128216; 65] [1; 2] false).
  - repeat (apply Forall_cons; split; [reflexivity|]). apply Forall_nil_2.
  - repeat (apply Forall_cons; split; [unfold u8_ok; lia|]). apply Forall_nil_2.
Defined.

(** The pile-of-poo character in UTF-16LE behind a byte-order mark, cut in the
    middle of the mark and of both surrogates. *)
Lemma text_decoder_chunking_witness :
  decode_stream (text_decoder Utf16le false false) [[255]; [254; 61]; [216]; [169]] (Some [220]) =
  (Ok [128169], text_decoder Utf16le false false).
Proof.
  apply (text_decoder_chunking Utf16le false false [[255]; [254; 61]; [216]; [169]] (Some [220])).
  intros _ _. exists [128169]. reflexivity.
Defined.
