(* ===== verification/StringDecoder.v ===== *)
(** Node's [StringDecoder]
    ([modules/raster_runtime_string_decoder/src/string_decoder.rs]): text out
    of chunks of bytes, with an incomplete character kept for the next chunk.

    The theorems compare the text a decoder returns over all its calls with
    the decoding of the concatenated chunks.  Arithmetic on [usize] that would
    underflow and slices out of range are [Panic]; that no call panics is part
    of the theorems. *)

From S2P Require Import Prelude Unicode Encoding IncrementalDecoder CodecRef.

Record StringDecoder := mkStringDecoder {
  encoder : Encoder;
  buffer : list Z;
  buffered_bytes : nat;
  missing_bytes : nat;
}.

Definition usize_minus {E} (a b : nat) : res E nat := if (b <=? a)%nat then Ok (a - b)%nat else Panic.

Section StringDecoder.
Context `{CodecLib}.

Definition make_string (d : StringDecoder) (data : list Z) : res rstring rstring :=
  match encode_to_string (encoder d) data true with
  | Err _ => Err (bs "Encoding error")
  | r => r
  end.

(** ** Finishing the character of the previous chunk *)

(** The two alignment loops over [data[i]], [i < data.len() && i < missing]. *)
Definition utf8_align (d : StringDecoder) (data : list Z) : StringDecoder * list Z :=
  match find_pos (λ b, negb (Z.land b 192 =? 128)) (take (missing_bytes d) data) with
  | Some i =>
      (mkStringDecoder (encoder d) (buffer d ++ take i data) (buffered_bytes d + i) 0, drop i data)
  | None => (d, data)
  end.

Definition utf16_align (d : StringDecoder) (data : list Z) : StringDecoder :=
  match find_pos (λ b, Z.land b 252 =? 216) (take (missing_bytes d) data) with
  | Some _ => mkStringDecoder (encoder d) (buffer d) (buffered_bytes d) 3
  | None => d
  end.

(** [if self.missing_bytes > 0 { ... }]: the text of the finished character,
    the remaining data and the decoder. *)
Definition finish_missing (d : StringDecoder) (data : list Z) :
    res rstring (rstring * list Z * StringDecoder) :=
  if (0 <? missing_bytes d)%nat then
    let '(d, data) :=
      match encoder d with
      | Utf8 => utf8_align d data
      | Utf16le => (utf16_align d data, data)
      | _ => (d, data)
      end in
    let found_bytes := Nat.min (length data) (missing_bytes d) in
    let buf := buffer d ++ take found_bytes data in
    let data := drop found_bytes data in
    missing ← usize_minus (missing_bytes d) found_bytes;
    if (missing =? 0)%nat then
      s ← make_string d buf;
      Ok (s, data, mkStringDecoder (encoder d) [] 0 missing)
    else Ok ([], data, mkStringDecoder (encoder d) buf (buffered_bytes d + found_bytes) missing)
  else Ok ([], data, d).

(** ** Cutting off the last character of the chunk *)

(** The backwards loop from byte [i]; [d] has the counters so far. *)
Fixpoint utf8_cut (d : StringDecoder) (data : list Z) (i : nat) : res rstring StringDecoder :=
  b ← or_panic (data !! i);
  let buffered := S (buffered_bytes d) in
  let leading (width : nat) :=
    if (width <=? buffered)%nat then Ok (mkStringDecoder (encoder d) (buffer d) 0 0)
    else missing ← usize_minus width buffered;
         Ok (mkStringDecoder (encoder d) (buffer d) buffered missing) in
  if Z.land b 192 =? 128 then
    if ((4 <=? buffered) || (i =? 0))%nat
    then Ok (mkStringDecoder (encoder d) [] 0 (missing_bytes d))
    else match i with
         | O => Panic
         | S i => utf8_cut (mkStringDecoder (encoder d) (buffer d) buffered (missing_bytes d)) data i
         end
  else if Z.land b 224 =? 192 then leading 2%nat
  else if Z.land b 240 =? 224 then leading 3%nat
  else if Z.land b 248 =? 240 then leading 4%nat
  else Ok (mkStringDecoder (encoder d) (buffer d) 0 (missing_bytes d)).

Definition utf16_cut (d : StringDecoder) (data : list Z) : res rstring StringDecoder :=
  let n := length data in
  if (n `mod` 2 =? 1)%nat then
    high ← (if (3 <=? n)%nat then b ← or_panic (data !! (n - 2)%nat); Ok (Z.land b 252 =? 216)
            else Ok false);
    Ok (mkStringDecoder (encoder d) (buffer d) (if (high : bool) then 3 else 1) 1)
  else
    b ← or_panic (data !! (n - 1)%nat);
    Ok (if Z.land b 252 =? 216 then mkStringDecoder (encoder d) (buffer d) 2 2 else d).

Definition base64_cut (d : StringDecoder) (data : list Z) : StringDecoder :=
  let buffered := (length data `mod` 3)%nat in
  mkStringDecoder (encoder d) (buffer d) buffered
    (if (0 <? buffered)%nat then (3 - buffered)%nat else missing_bytes d).

Definition cut_incomplete (d : StringDecoder) (data : list Z) : res rstring StringDecoder :=
  match encoder d with
  | Utf8 =>
      b ← or_panic (data !! (length data - 1)%nat);
      if negb (Z.land b 128 =? 0) then utf8_cut d data (length data - 1) else Ok d
  | Utf16le => utf16_cut d data
  | Base64 => Ok (base64_cut d data)
  | _ => Ok d
  end.

(** The bytes kept for the next chunk move to the buffer. *)
Definition keep_tail (d : StringDecoder) (data : list Z) : res rstring (StringDecoder * list Z) :=
  if (0 <? buffered_bytes d)%nat then
    n ← usize_minus (length data) (buffered_bytes d);
    Ok (mkStringDecoder (encoder d) (buffer d ++ drop n data) (buffered_bytes d) (missing_bytes d),
        take n data)
  else Ok (d, data).

Definition decode_data (d : StringDecoder) (data : list Z) : res rstring (rstring * StringDecoder) :=
  match encoder d with
  | Utf8 | Utf16le | Base64 =>
      '(result, data, d) ← finish_missing d data;
      match data with
      | [] => Ok (result, d)
      | _ =>
          d ← cut_incomplete d data;
          '(d, data) ← keep_tail d data;
          match data with
          | [] => Ok (result, d)
          | _ => s ← make_string d data; Ok (result ++ s, d)
          end
      end
  | _ => s ← make_string d data; Ok (s, d)
  end.

(** ** Flushing *)

Definition flush (d : StringDecoder) : res rstring (rstring * StringDecoder) :=
  d ← (if bool_decide (encoder d = Utf16le) && (buffered_bytes d `mod` 2 =? 1)%nat then
         missing ← usize_minus (missing_bytes d) 1;
         buffered ← usize_minus (buffered_bytes d) 1;
         Ok (mkStringDecoder (encoder d) (buffer d) buffered missing)
       else Ok d);
  if (buffered_bytes d =? 0)%nat then Ok ([], d)
  else s ← make_string d (buffer d); Ok (s, mkStringDecoder (encoder d) [] 0 0).

(** ** The class *)

Definition unknown_encoding (label : list Z) : rstring := bs "Unknown encoding: " ++ label.

Definition StringDecoder_new (label : option (list Z)) : res rstring StringDecoder :=
  let label := default (bs "utf-8") label in
  match from_str label with
  | Ok e => Ok (mkStringDecoder e [] 0 0)
  | Err _ => Err (unknown_encoding label)
  | Panic => Panic
  end.

Definition write (d : StringDecoder) (data : list Z) : res rstring (rstring * StringDecoder) :=
  decode_data d data.

Definition end_ (d : StringDecoder) (data : option (list Z)) : res rstring (rstring * StringDecoder) :=
  '(output, d) ← (match data with Some data => decode_data d data | None => Ok ([], d) end);
  '(flushed, d) ← flush d;
  Ok (output ++ flushed, d).

(** All the text of a stream: a [write] per chunk, then [end]. *)
Fixpoint decode_all (d : StringDecoder) (chunks : list (list Z)) (last : option (list Z)) :
    res rstring (rstring * StringDecoder) :=
  match chunks with
  | [] => end_ d last
  | c :: chunks =>
      '(s, d) ← write d c;
      '(s', d) ← decode_all d chunks last;
      Ok (s ++ s', d)
  end.
End StringDecoder.

Definition fresh (e : Encoder) : StringDecoder := mkStringDecoder e [] 0 0.

Lemma keep_tail_ok e m p r :
  keep_tail (mkStringDecoder e [] (length r) m) (p ++ r) =
  Ok (mkStringDecoder e r (length r) m, p).
Proof.
  unfold keep_tail, usize_minus. cbn [buffered_bytes encoder buffer missing_bytes app].
  rewrite length_app. destruct (Nat.ltb_spec 0 (length r)).
  - destruct (Nat.leb_spec (length r) (length p + length r)); [|lia].
    rewrite Nat.add_sub. cbn [mbind res_bind]. by rewrite drop_app_length, take_app_length.
  - destruct r; [|simpl in *; lia]. by rewrite app_nil_r.
Qed.

(** * Streams in general *)

Section Streams.
Context `{CodecLib}.
Variable e : Encoder.
(** The decoding of a whole input, the inputs it is meant for, and the
    decoders in between chunks. *)
Variable enc : list Z → rstring.
Variable good : list Z → Prop.
Variable inv : StringDecoder → Prop.

Definition resumes (d : StringDecoder) (data rest : list Z) (out : rstring) (d' : StringDecoder) :
    Prop :=
  inv d' ∧ good (buffer d' ++ rest) ∧
  enc (buffer d ++ data ++ rest) = out ++ enc (buffer d' ++ rest).

Hypothesis step_ok : ∀ d data rest,
  inv d → good (buffer d ++ data ++ rest) →
  ∃ out d', decode_data d data = Ok (out, d') ∧ resumes d data rest out d'.
Hypothesis flush_ok : ∀ d, inv d → good (buffer d) → flush d = Ok (enc (buffer d), fresh e).

Lemma end_ok d last :
  inv d → good (buffer d ++ default [] last) →
  end_ d last = Ok (enc (buffer d ++ default [] last), fresh e).
Proof.
  intros Hi Hg. unfold end_. destruct last as [data|]; simpl in *.
  - pose proof (step_ok d data []) as Hs. rewrite !app_nil_r in Hs.
    destruct Hs as (out & d' & -> & Hi' & Hg' & He); [done..|].
    rewrite app_nil_r in Hg'. rewrite !app_nil_r in He. simpl. rewrite flush_ok by done. simpl. by rewrite He.
  - rewrite !app_nil_r in *. by rewrite flush_ok.
Qed.

Lemma decode_all_ok d chunks last :
  inv d → good (buffer d ++ mjoin chunks ++ default [] last) →
  decode_all d chunks last = Ok (enc (buffer d ++ mjoin chunks ++ default [] last), fresh e).
Proof.
  revert d. induction chunks as [|c chunks IH]; intros d Hi Hg; [by apply end_ok|].
  cbn [decode_all mjoin list_join] in *. rewrite <- (assoc_L (++) c) in *.
  destruct (step_ok d c _ Hi Hg) as (out & d' & Hd & Hi' & Hg' & He).
  unfold write. rewrite Hd. simpl. rewrite (IH d' Hi' Hg'). simpl. by rewrite He.
Qed.
End Streams.

(** * UTF-8 *)

(** The length a lead byte announces. *)
Definition lead_width (b : Z) : option nat :=
  if Z.land b 224 =? 192 then Some 2%nat
  else if Z.land b 240 =? 224 then Some 3%nat
  else if Z.land b 248 =? 240 then Some 4%nat
  else None.

Lemma trailing_bits b : u8_ok b → (Z.land b 192 =? 128) = is_cont b.
Proof.
  intros Hb. apply eqb_prop.
  by apply (all_bytes_spec (λ b, eqb (Z.land b 192 =? 128) (is_cont b))).
Qed.

Lemma ascii_bits b : u8_ok b → (Z.land b 128 =? 0) = (b <? 128).
Proof.
  intros Hb. apply eqb_prop.
  by apply (all_bytes_spec (λ b, eqb (Z.land b 128 =? 0) (b <? 128))).
Qed.

Lemma lead_width_range b :
  u8_ok b →
  lead_width b =
    if (192 <=? b) && (b <=? 223) then Some 2%nat
    else if (224 <=? b) && (b <=? 239) then Some 3%nat
    else if (240 <=? b) && (b <=? 247) then Some 4%nat else None.
Proof.
  intros Hb. unfold lead_width.
  assert (H : all_bytes (λ b, eqb (Z.land b 224 =? 192) ((192 <=? b) && (b <=? 223)) &&
                              eqb (Z.land b 240 =? 224) ((224 <=? b) && (b <=? 239)) &&
                              eqb (Z.land b 248 =? 240) ((240 <=? b) && (b <=? 247))) = true)
    by (vm_compute; reflexivity).
  pose proof (all_bytes_spec _ H b Hb) as Hw. cbv beta in Hw.
  apply andb_prop in Hw as [Hw H4]. apply andb_prop in Hw as [H2 H3].
  by rewrite (eqb_prop _ _ H2), (eqb_prop _ _ H3), (eqb_prop _ _ H4).
Qed.

Notation conts := (Forall (λ b, is_cont b = true)).

Lemma incomplete_width b0 r w :
  u8_ok b0 → utf8_next (b0 :: r) = U8Incomplete → lead_width b0 = Some w → (S (length r) < w)%nat.
Proof.
  intros Hb H Hw. rewrite (lead_width_range _ Hb) in Hw. revert Hw.
  destruct r as [|b1 [|b2 [|b3 r]]]; utf8_cases; bool_to_prop.
  all: repeat (case_match; bool_to_prop); intros ?; simplify_eq; simpl; try lia.
Qed.

Lemma stream_suffix l : ∃ p, l = p ++ (utf8_stream l).2.
Proof.
  remember (length l) as k eqn:Hk. revert l Hk.
  induction k as [k IH] using lt_wf_ind. intros l ->. rewrite (utf8_stream_unfold l).
  destruct (utf8_next l) as [|c n|n|] eqn:Hn; simpl.
  - apply utf8_next_end in Hn as ->. by exists [].
  - apply utf8_next_char_len in Hn as Hlen.
    destruct (IH (length (drop n l)) ltac:(len) (drop n l) eq_refl) as [p Hp].
    destruct (utf8_stream (drop n l)) as [cs t]. exists (take n l ++ p). simpl in *.
    by rewrite <- (assoc_L (++)), <- Hp, take_drop.
  - apply utf8_next_invalid_len in Hn as Hlen.
    destruct (IH (length (drop n l)) ltac:(len) (drop n l) eq_refl) as [p Hp].
    destruct (utf8_stream (drop n l)) as [cs t]. exists (take n l ++ p). simpl in *.
    by rewrite <- (assoc_L (++)), <- Hp, take_drop.
  - by exists [].
Qed.

(** A non-empty tail is a lead byte and too few continuation bytes. *)
Lemma stream_tail_shape l :
  Forall u8_ok l → (utf8_stream l).2 ≠ [] →
  ∃ p b0 r w, l = p ++ b0 :: r ∧ is_cont b0 = false ∧ conts r ∧ (length r < 3)%nat ∧
              lead_width b0 = Some w ∧ (S (length r) < w)%nat.
Proof.
  intros Hu Ht. destruct (utf8_stream_tail l) as [?|Hn]; [done|].
  destruct (stream_suffix l) as [p Hp].
  destruct (utf8_next_incomplete _ Hn) as (_ & Hlen & b0 & r & Hr & Hb & Hc).
  rewrite Hr in *. assert (Hb0 : u8_ok b0) by (unfold u8_ok; lia).
  assert (Hw : ∃ w, lead_width b0 = Some w).
  { rewrite (lead_width_range _ Hb0). repeat (case_match; bool_to_prop); eauto.
    exfalso. repeat match goal with H : (_ && _) = false |- _ => apply andb_false_iff in H as [H|H] end;
      bool_to_prop; lia. }
  destruct Hw as [w Hw]. exists p, b0, r, w. split_and!; [done| |done| |done|].
  - unfold is_cont. apply andb_false_iff. right. apply Z.leb_gt. lia.
  - simpl in Hlen. lia.
  - by eapply incomplete_width.
Qed.

Lemma app_conts_inj p q b c r s :
  p ++ b :: r = q ++ c :: s → is_cont b = false → is_cont c = false → conts r → conts s →
  p = q ∧ b = c ∧ r = s.
Proof.
  intros Heq Hb Hc Hr Hs.
  assert (Hin : ∀ x l, is_cont x = false → conts l → x ∉ l).
  { intros x l Hx Hl Hel. rewrite Forall_forall in Hl. by rewrite (Hl x Hel) in Hx. }
  apply app_eq_inv in Heq as [(k & -> & Hk)|(k & -> & Hk)]; destruct k as [|x k]; simplify_eq/=;
    rewrite ?app_nil_r; try done.
  - exfalso. apply (Hin b (k ++ b :: r)); [done|done|]. set_solver.
  - exfalso. apply (Hin c (k ++ c :: s)); [done|done|]. set_solver.
Qed.

(** Data after which no character can be pending. *)
Lemma no_tail_full p b0 r :
  Forall u8_ok (p ++ b0 :: r) → is_cont b0 = false → conts r →
  (∀ w, lead_width b0 = Some w → (w ≤ S (length r))%nat) →
  (utf8_stream (p ++ b0 :: r)).2 = [].
Proof.
  intros Hu Hb Hr Hw. destruct (decide ((utf8_stream (p ++ b0 :: r)).2 = [])); [done|].
  destruct (stream_tail_shape _ Hu) as (q & c & s & w & Heq & Hc & Hs & _ & Hcw & Hlt); [done|].
  apply app_conts_inj in Heq as (-> & -> & ->); [|done..]. apply Hw in Hcw. lia.
Qed.

Lemma no_tail_conts p r :
  Forall u8_ok (p ++ r) → conts r → p = [] ∨ (4 ≤ length r)%nat → (utf8_stream (p ++ r)).2 = [].
Proof.
  intros Hu Hr Hp. destruct (decide ((utf8_stream (p ++ r)).2 = [])); [done|].
  destruct (stream_tail_shape _ Hu) as (q & c & s & w & Heq & Hc & Hs & Hlen & _ & _); [done|].
  exfalso. assert (Hcr : c ∈ r).
  { apply app_eq_inv in Heq as [(k & -> & Hk)|(k & -> & Hk)].
    - destruct k as [|x k]; simplify_eq/=.
      + left.
      + destruct Hp as [Hp| Hp]; [|rewrite length_app in Hlen; lia].
        by destruct q.
    - set_solver. }
  rewrite Forall_forall in Hr. by rewrite (Hr c Hcr) in Hc.
Qed.

(** A character cut off after [b0 :: r], [w] bytes long. *)
Definition cut_off (b0 : Z) (r : list Z) (w : nat) : Prop :=
  is_cont b0 = false ∧ conts r ∧ lead_width b0 = Some w ∧ (S (length r) < w)%nat.

Definition utf8_inv (d : StringDecoder) : Prop :=
  d = fresh Utf8 ∨
  ∃ b0 r w, cut_off b0 r w ∧ d = mkStringDecoder Utf8 (b0 :: r) (S (length r)) (w - S (length r)).

(** The verdict of the cutting step on [data]. *)
Definition utf8_verdict (data : list Z) (d' : StringDecoder) : Prop :=
  (d' = fresh Utf8 ∧ (utf8_stream data).2 = []) ∨
  ∃ p b0 r w, data = p ++ b0 :: r ∧ cut_off b0 r w ∧
              d' = mkStringDecoder Utf8 [] (S (length r)) (w - S (length r)).

Lemma utf8_cut_lead p b r :
  Forall u8_ok (p ++ b :: r) → is_cont b = false → conts r →
  ∃ d', utf8_cut (mkStringDecoder Utf8 [] (length r) 0) (p ++ b :: r) (length p) = Ok d' ∧
        utf8_verdict (p ++ b :: r) d'.
Proof.
  intros Hu Hb Hr. assert (Hub : u8_ok b) by (by decompose_Forall_hyps).
  assert (Hn : (p ++ b :: r) !! length p = Some b) by (by apply list_lookup_middle).
  set (data := p ++ b :: r) in *.
  assert (Hlead : utf8_cut (mkStringDecoder Utf8 [] (length r) 0) data (length p) =
    match lead_width b with
    | Some w => if (w <=? S (length r))%nat then Ok (fresh Utf8)
                else Ok (mkStringDecoder Utf8 [] (S (length r)) (w - S (length r)))
    | None => Ok (fresh Utf8)
    end).
  { destruct (length p); cbn [utf8_cut]; rewrite Hn; cbn [or_panic mbind res_bind encoder buffer
      buffered_bytes missing_bytes]; rewrite (trailing_bits b Hub), Hb; unfold lead_width, usize_minus;
      repeat (case_match; bool_to_prop; try done; try lia). }
  rewrite Hlead. destruct (lead_width b) as [w|] eqn:Hw.
  - destruct (Nat.leb_spec w (S (length r))).
    + exists (fresh Utf8). split; [done|]. left. split; [done|].
      apply no_tail_full; [done..|]. intros w' Hw'. simplify_eq. lia.
    + eexists. split; [done|]. right. exists p, b, r, w. by unfold cut_off.
  - exists (fresh Utf8). split; [done|]. left. split; [done|].
    apply no_tail_full; [done..|]. intros w' Hw'. congruence.
Qed.

Lemma utf8_cut_ok p b r :
  Forall u8_ok (p ++ b :: r) → conts r → (length r < 4)%nat →
  ∃ d', utf8_cut (mkStringDecoder Utf8 [] (length r) 0) (p ++ b :: r) (length p) = Ok d' ∧
        utf8_verdict (p ++ b :: r) d'.
Proof.
  revert b r. induction p as [|x p IH] using rev_ind; intros b r Hu Hr Hlen;
    destruct (is_cont b) eqn:Hb; try by apply utf8_cut_lead.
  - exists (fresh Utf8). simpl. assert (Hub : u8_ok b) by (by decompose_Forall_hyps).
    rewrite (trailing_bits b Hub), Hb, orb_true_r. split; [done|]. left. split; [done|].
    apply (no_tail_conts []); [done|by constructor|by left].
  - assert (Hub : u8_ok b) by (by decompose_Forall_hyps).
    assert (Hn : ((p ++ [x]) ++ b :: r) !! S (length p) = Some b).
    { apply list_lookup_middle. len. }
    rewrite length_app, Nat.add_1_r. cbn [utf8_cut]. rewrite Hn.
    cbn [or_panic mbind res_bind encoder buffer buffered_bytes missing_bytes].
    rewrite (trailing_bits b Hub), Hb, orb_false_r.
    destruct (Nat.leb_spec 4 (S (length r))).
    + exists (fresh Utf8). split; [done|]. left. split; [done|].
      apply no_tail_conts; [done|by constructor|right; simpl; lia].
    + rewrite <- (assoc_L (++)) in *. simpl in *.
      apply (IH x (b :: r)); [done|by constructor|simpl; lia].
Qed.

Lemma cut_incomplete_utf8 data :
  Forall u8_ok data → data ≠ [] →
  ∃ d', cut_incomplete (fresh Utf8) data = Ok d' ∧ utf8_verdict data d'.
Proof.
  intros Hu Hne. destruct data as [|b p _] using rev_ind; [done|].
  assert (Hub : u8_ok b) by (by decompose_Forall_hyps).
  unfold cut_incomplete. cbn [encoder fresh]. rewrite length_app. cbn [length].
  rewrite Nat.add_sub, list_lookup_middle by done. cbn [or_panic mbind res_bind].
  rewrite (ascii_bits b Hub). destruct (Z.ltb_spec b 128); cbn [negb].
  - eexists. split; [done|]. left. split; [done|].
    apply no_tail_full; [done| |done|].
    + unfold is_cont. apply andb_false_iff. left. apply Z.leb_gt. lia.
    + intros w Hw. rewrite (lead_width_range _ Hub) in Hw. unfold u8_ok in Hub.
      repeat (case_match; bool_to_prop; try lia). done.
  - apply (utf8_cut_ok p b []); [done|done|simpl; lia].
Qed.

Section Utf8.
Context `{CodecLib}.

Notation good := (Forall u8_ok).

Lemma make_string_utf8 d data :
  encoder d = Utf8 → make_string d data = Ok (from_utf8_lossy data).
Proof. unfold make_string. by intros ->. Qed.

Lemma find_cont_spec n data :
  good data →
  match find_pos (λ b, negb (Z.land b 192 =? 128)) (take n data) with
  | Some i => (i < n)%nat ∧ ∃ p b q, data = p ++ b :: q ∧ length p = i ∧ is_cont b = false
  | None => conts (take n data)
  end.
Proof.
  intros Hu. destruct (find_pos _ _) as [i|] eqn:Hf.
  - apply find_pos_Some in Hf as (b & Hl & Hb & _).
    apply lookup_take_Some in Hl as [Hl Hi]. split; [done|].
    exists (take i data), b, (drop (S i) data).
    assert (u8_ok b) by (by eapply Forall_lookup_1).
    rewrite trailing_bits in Hb by done. apply negb_true_iff in Hb.
    split_and!; [by rewrite take_drop_middle| |done].
    rewrite length_take. apply lookup_lt_Some in Hl. lia.
  - apply find_pos_None in Hf. assert (Hu' : good (take n data)) by (by apply Forall_take).
    revert Hf Hu'. generalize (take n data). induction l as [|b l IH]; intros Hf Hu'; [done|].
    decompose_Forall_hyps. constructor; [|by apply IH].
    rewrite trailing_bits in * by done. by apply negb_false_iff.
Qed.

(** A complete character can be decoded without what follows. *)
Lemma lossy_cut_complete b0 r w rest :
  good (b0 :: r) → is_cont b0 = false → conts r → lead_width b0 = Some w → S (length r) = w →
  from_utf8_lossy ((b0 :: r) ++ rest) = from_utf8_lossy (b0 :: r) ++ from_utf8_lossy rest.
Proof.
  intros Hu Hb Hr Hw Hl. apply lossy_app_complete.
  apply (no_tail_full []); [done..|]. intros w' Hw'. simplify_eq. lia.
Qed.

(** What the first phase of a call does to the stream. *)
Definition utf8_finishes (d : StringDecoder) (data : list Z) (out : rstring) (data' : list Z)
    (d' : StringDecoder) : Prop :=
  utf8_inv d' ∧ (data' ≠ [] → d' = fresh Utf8) ∧ good (buffer d' ++ data') ∧
  ∀ rest, from_utf8_lossy (buffer d ++ data ++ rest) =
          out ++ from_utf8_lossy (buffer d' ++ data' ++ rest).

(** An unexpected byte ends the pending character. *)
Lemma utf8_finishes_break b0 r n m p b q :
  good (b :: q) → is_cont b = false →
  utf8_finishes (mkStringDecoder Utf8 (b0 :: r) n m) (p ++ b :: q)
    (from_utf8_lossy ((b0 :: r) ++ p)) (b :: q) (fresh Utf8).
Proof.
  intros Hg Hb. split_and!; [by left|done|done|]. intros rest. cbn [buffer].
  assert (Hs : (b0 :: r) ++ (p ++ b :: q) ++ rest = ((b0 :: r) ++ p) ++ b :: (q ++ rest))
    by (simpl; by rewrite <- !(assoc_L (++))).
  rewrite Hs. by apply lossy_app_boundary.
Qed.

(** Enough continuation bytes complete it. *)
Lemma utf8_finishes_full b0 r w m data :
  good (b0 :: r) → good data → cut_off b0 r w → m = (w - S (length r))%nat →
  (m ≤ length data)%nat → conts (take m data) →
  utf8_finishes (mkStringDecoder Utf8 (b0 :: r) (S (length r)) m) data
    (from_utf8_lossy ((b0 :: r) ++ take m data)) (drop m data) (fresh Utf8).
Proof.
  intros Hg Hd (Hb & Hr & Hw & Hlt) Hm Hle Hc.
  split_and!; [by left|done|by apply Forall_drop|]. intros rest. cbn [buffer].
  assert (Hs : (b0 :: r) ++ data ++ rest = (b0 :: (r ++ take m data)) ++ drop m data ++ rest).
  { rewrite <- (take_drop m data) at 1. simpl. by rewrite <- !(assoc_L (++)). }
  rewrite Hs. apply (lossy_cut_complete b0 (r ++ take m data) w); [|done| |done|len].
  - apply Forall_cons in Hg as [??]. constructor; [done|]. apply Forall_app.
    split; [done|by apply Forall_take].
  - by apply Forall_app.
Qed.

(** Too few leave it pending. *)
Lemma utf8_finishes_more b0 r w m data :
  good (b0 :: r) → good data → cut_off b0 r w → m = (w - S (length r))%nat →
  (length data < m)%nat → conts data →
  utf8_finishes (mkStringDecoder Utf8 (b0 :: r) (S (length r)) m) data [] []
    (mkStringDecoder Utf8 ((b0 :: r) ++ data) (S (length r) + length data) (m - length data)).
Proof.
  intros Hg Hd (Hb & Hr & Hw & Hlt) Hm Hle Hc. split_and!; [right|done| |].
  - exists b0, (r ++ data), w. unfold cut_off. rewrite length_app.
    split_and!; [done|by apply Forall_app|done|lia|]. f_equal; lia.
  - cbn [buffer]. rewrite app_nil_r. by apply Forall_app.
  - intros rest. simpl. by rewrite <- (assoc_L (++)).
Qed.

Lemma finish_missing_utf8 d data :
  utf8_inv d → good (buffer d ++ data) →
  ∃ out data' d', finish_missing d data = Ok (out, data', d') ∧ utf8_finishes d data out data' d'.
Proof.
  intros [->|(b0 & r & w & Hcut & ->)] Hg.
  { exists [], data, (fresh Utf8). split; [done|]. split_and!; try done. by left. }
  unfold finish_missing. cbn [missing_bytes encoder buffer] in *. pose proof Hcut as (_ & _ & _ & Hlt).
  destruct (Nat.ltb_spec 0 (w - S (length r))); [|lia].
  apply Forall_app in Hg as [Hg1 Hg2]. unfold utf8_align. cbn [missing_bytes encoder buffer buffered_bytes].
  pose proof (find_cont_spec (w - S (length r)) data Hg2) as Hf.
  destruct (find_pos _ _) as [i|].
  - destruct Hf as (Hi & p & b & q & -> & <- & Hbc).
    rewrite take_app_length, drop_app_length. cbn [missing_bytes encoder buffer buffered_bytes].
    rewrite Nat.min_0_r, take_0, drop_0, app_nil_r. cbn [usize_minus mbind res_bind Nat.leb Nat.sub Nat.eqb].
    rewrite make_string_utf8 by done. do 3 eexists. split; [done|].
    apply utf8_finishes_break; [by apply Forall_app in Hg2 as [_ ?]|done].
  - cbn [missing_bytes encoder buffer buffered_bytes].
    set (m := (w - S (length r))%nat) in *. unfold usize_minus.
    destruct (Nat.leb_spec (Nat.min (length data) m) m); [|lia]. cbn [mbind res_bind].
    destruct (Nat.eqb_spec (m - Nat.min (length data) m) 0) as [Hm|Hm].
    + rewrite Nat.min_r, Nat.sub_diag, make_string_utf8 by (done || lia).
      do 3 eexists. split; [done|]. by apply (utf8_finishes_full b0 r w); [..|lia|].
    + rewrite Nat.min_l, take_ge, drop_ge by lia. rewrite take_ge in Hf by lia.
      do 3 eexists. split; [done|]. by apply (utf8_finishes_more b0 r w); [..|lia|].
Qed.

Lemma utf8_step d data rest :
  utf8_inv d → good (buffer d ++ data ++ rest) →
  ∃ out d', decode_data d data = Ok (out, d') ∧
            resumes from_utf8_lossy good utf8_inv d data rest out d'.
Proof.
  intros Hi Hg. rewrite (assoc_L (++)) in Hg. apply Forall_app in Hg as [Hg Hrest].
  assert (He : encoder d = Utf8) by (by destruct Hi as [->|(? & ? & ? & _ & ->)]).
  unfold decode_data. rewrite He.
  destruct (finish_missing_utf8 d data Hi Hg) as (out & data' & d1 & -> & Hi1 & Hf & Hg1 & Hl).
  cbn [mbind res_bind]. unfold resumes. setoid_rewrite Hl.
  destruct (decide (data' = [])) as [->|Hne].
  { exists out, d1. rewrite app_nil_r in Hg1. split_and!; try done. by apply Forall_app. }
  rewrite nonempty_match, (Hf Hne) in * by done. cbn [fresh buffer app] in *.
  destruct (cut_incomplete_utf8 data' Hg1 Hne) as (d2 & -> & Hv). cbn [mbind res_bind].
  destruct Hv as [[-> Ht]|(p & b0 & r & w & Hp & Hcut & ->)].
  - unfold keep_tail. cbn [buffered_bytes Nat.ltb Nat.leb mbind res_bind fresh].
    rewrite nonempty_match, make_string_utf8 by done. cbn [mbind res_bind]. do 2 eexists. split; [done|].
    split; [by left|]. split; [done|]. simpl.
    by rewrite (lossy_app_complete _ _ Ht), (assoc_L (++)).
  - rewrite Hp in *. rewrite (keep_tail_ok Utf8 _ p (b0 :: r) : keep_tail (mkStringDecoder Utf8 [] (S (length r)) _) _ = _).
    cbn [mbind res_bind].
    set (d3 := mkStringDecoder Utf8 (b0 :: r) (S (length r)) (w - S (length r))).
    assert (Hi3 : utf8_inv d3) by (right; by exists b0, r, w).
    assert (Hg3 : good (buffer d3 ++ rest)) by (apply Forall_app in Hg1 as [_ ?]; by apply Forall_app).
    exists (out ++ from_utf8_lossy p), d3. split.
    { destruct p; [by rewrite app_nil_r|]. by rewrite make_string_utf8. }
    split_and!; [done|done|]. rewrite <- (assoc_L (++) p), <- (assoc_L (++) out).
    f_equal. apply lossy_app_boundary. apply Hcut.
Qed.

Lemma utf8_flush d : utf8_inv d → good (buffer d) → flush d = Ok (from_utf8_lossy (buffer d), fresh Utf8).
Proof. by intros [->|(b0 & r & w & Hcut & ->)] Hg. Qed.

(** C39. For UTF-8 the chunks do not matter: the text a [StringDecoder]
    returns from its [write] calls and [end], for any bytes cut anywhere, is
    the lossy decoding of all the bytes; no call panics (the byte counters
    never underflow), and the decoder ends up empty. *)
Theorem string_decoder_utf8 (chunks : list (list Z)) (last : option (list Z)) :
  good (mjoin chunks ++ default [] last) →
  decode_all (fresh Utf8) chunks last =
    Ok (from_utf8_lossy (mjoin chunks ++ default [] last), fresh Utf8).
Proof.
  intros Hg. apply (decode_all_ok Utf8 from_utf8_lossy good utf8_inv utf8_step utf8_flush); [|done].
  by left.
Qed.
End Utf8.

(** * Base64 *)

Section Base64.
Context `{CodecLaws}.

(** At most two bytes wait for their group of three. *)
Definition b64_state (buf : list Z) : StringDecoder :=
  mkStringDecoder Base64 buf (length buf) (if (0 <? length buf)%nat then (3 - length buf)%nat else 0%nat).
Definition b64_inv (d : StringDecoder) : Prop := ∃ buf, (length buf < 3)%nat ∧ d = b64_state buf.

Lemma b64_nil : b64_encode [] = [].
Proof.
  apply nil_length_inv. pose proof (b64_group [] [] eq_refl) as Hb. simpl in Hb.
  apply (f_equal length) in Hb. rewrite length_app in Hb. lia.
Qed.

Lemma make_string_b64 d data : encoder d = Base64 → make_string d data = Ok (b64_encode data).
Proof. unfold make_string. by intros ->. Qed.

Lemma finish_missing_b64 buf data :
  (length buf < 3)%nat →
  ∃ out data' buf', finish_missing (b64_state buf) data = Ok (out, data', b64_state buf') ∧
    (length buf' < 3)%nat ∧ (data' ≠ [] → buf' = []) ∧
    ∀ rest, b64_encode (buf ++ data ++ rest) = out ++ b64_encode (buf' ++ data' ++ rest).
Proof.
  intros Hlen. unfold finish_missing. unfold b64_state at 1 2 3 4 5. cbn [missing_bytes encoder buffer].
  destruct (Nat.ltb_spec 0 (length buf)) as [Hpos|Hpos].
  2: { destruct buf; [|simpl in *; lia]. exists [], data, []. by split_and!. }
  destruct (Nat.ltb_spec 0 (3 - length buf)); [|lia]. cbn [missing_bytes encoder buffer buffered_bytes].
  set (m := (3 - length buf)%nat). unfold usize_minus.
  destruct (Nat.leb_spec (Nat.min (length data) m) m); [|lia]. cbn [mbind res_bind].
  destruct (Nat.eqb_spec (m - Nat.min (length data) m) 0) as [Hm|Hm].
  - rewrite Nat.min_r, Nat.sub_diag, make_string_b64 by (done || lia).
    exists (b64_encode (buf ++ take m data)), (drop m data), []. split_and!; [done|simpl; lia|done|].
    intros rest. cbn [app]. rewrite <- b64_group.
    + rewrite <- (take_drop m data) at 1. by rewrite !(assoc_L (++)).
    + replace (length (buf ++ take m data)) with 3%nat by len. done.
  - rewrite Nat.min_l, take_ge, drop_ge by lia. exists [], [], (buf ++ data).
    split_and!; [|len|done|].
    + f_equal. unfold b64_state. rewrite length_app. f_equal. f_equal.
      destruct (Nat.ltb_spec 0 (length buf + length data)); lia.
    + intros rest. simpl. by rewrite <- (assoc_L (++)).
Qed.

Lemma cut_b64 data :
  data ≠ [] →
  ∃ p r, data = p ++ r ∧ (length p `mod` 3 = 0)%nat ∧ (length r < 3)%nat ∧
    cut_incomplete (b64_state []) data =
      Ok (mkStringDecoder Base64 [] (length r) (missing_bytes (b64_state r))).
Proof.
  intros Hne. exists (take (length data - length data `mod` 3) data),
    (drop (length data - length data `mod` 3) data).
  assert (Hmod : (length data `mod` 3 ≤ length data)%nat) by dlia.
  rewrite take_drop, length_take, length_drop, Nat.min_l by lia.
  assert (Hr : (length data - (length data - length data `mod` 3) = length data `mod` 3)%nat) by lia.
  split_and!; [done|dlia|rewrite Hr; dlia|].
  unfold cut_incomplete, base64_cut, b64_state. cbn [encoder buffer missing_bytes length].
  rewrite length_drop, Hr. by destruct (0 <? length data `mod` 3)%nat.
Qed.

Lemma b64_step d data rest :
  b64_inv d → True →
  ∃ out d', decode_data d data = Ok (out, d') ∧
            resumes b64_encode (λ _, True) b64_inv d data rest out d'.
Proof.
  intros (buf & Hbuf & ->) _. unfold decode_data.
  assert (He : encoder (b64_state buf) = Base64) by done. rewrite He.
  destruct (finish_missing_b64 buf data Hbuf) as (out & data' & buf' & Hf & Hb' & Hn & Hl).
  rewrite Hf. cbn [mbind res_bind]. unfold resumes.
  setoid_rewrite Hl. destruct (decide (data' = [])) as [->|Hne].
  { exists out, (b64_state buf'). split_and!; try done. by exists buf'. }
  rewrite nonempty_match by done. rewrite (Hn Hne) in *.
  destruct (cut_b64 data' Hne) as (p & r & -> & Hp & Hr & ->). cbn [mbind res_bind].
  rewrite keep_tail_ok. cbn [mbind res_bind].
  exists (out ++ b64_encode p), (b64_state r). split.
  { destruct p; [by rewrite b64_nil, app_nil_r|]. by rewrite make_string_b64. }
  split_and!; [by exists r|done|]. cbn [app b64_state buffer].
  by rewrite <- (assoc_L (++) p), b64_group, (assoc_L (++)).
Qed.

Lemma b64_flush d : b64_inv d → True → flush d = Ok (b64_encode (buffer d), fresh Base64).
Proof.
  intros (buf & Hlen & ->) _. destruct buf as [|b buf]; cbn [b64_state buffer].
  - unfold flush. simpl. by rewrite b64_nil.
  - done.
Qed.

(** Base64 output is aligned: whatever the chunks, the text of all calls
    is the base64 encoding of all the bytes, padding only at the end. *)
Theorem string_decoder_base64 (chunks : list (list Z)) (last : option (list Z)) :
  decode_all (fresh Base64) chunks last =
    Ok (b64_encode (mjoin chunks ++ default [] last), fresh Base64).
Proof.
  apply (decode_all_ok Base64 b64_encode (λ _, True) b64_inv b64_step b64_flush); [|done].
  exists []. split; [simpl; lia|done].
Qed.
End Base64.

(** * UTF-16LE *)

Section Utf16.
Context `{CodecLib}.

Notation scan16 := (u16_scan Little).

(** The first byte of the trail surrogate of [c] does not look like the second
    byte of a lead surrogate. *)
Definition trail_safe (c : Z) : bool :=
  (c <? 65536) || negb ((216 <=? c `mod` 256) && (c `mod` 256 <=? 219)).

Definition utf16_good (l : list Z) : Prop :=
  Forall u8_ok l ∧ ∃ s, scan16 l = Some (s, []) ∧ Forall (λ c, trail_safe c = true) s.

Definition utf16_text (l : list Z) : rstring :=
  match scan16 l with Some (s, _) => s | None => [] end.

Definition utf16_missing (n : nat) : nat :=
  (match n with 1 => 1 | 2 => 2 | 3 => 1 | _ => 0 end)%nat.
Definition utf16_state (h : list Z) : StringDecoder :=
  mkStringDecoder Utf16le h (length h) (utf16_missing (length h)).
Definition utf16_inv (d : StringDecoder) : Prop :=
  ∃ h, scan16 h = Some ([], h) ∧ d = utf16_state h.

Lemma lead_bits b0 b1 :
  u8_ok b0 → u8_ok b1 → (Z.land b1 252 =? 216) = is_lead (u16_from Little b0 b1).
Proof.
  intros H0 H1.
  assert (Hb : (Z.land b1 252 =? 216) = ((216 <=? b1) && (b1 <=? 219))).
  { apply eqb_prop.
    by apply (all_bytes_spec (λ b, eqb (Z.land b 252 =? 216) ((216 <=? b) && (b <=? 219)))). }
  rewrite Hb. unfold is_lead, u16_from, u16_from_le, u8_ok in *. apply eq_bool_prop_intro.
  rewrite !andb_True, !Is_true_true, !Z.leb_le. lia.
Qed.

Lemma trail_not_lead_bits b0 b1 :
  u8_ok b0 → u8_ok b1 → is_trail (u16_from Little b0 b1) = true → (Z.land b1 252 =? 216) = false.
Proof.
  intros H0 H1 Ht. rewrite (lead_bits b0 b1) by done. unfold is_trail, is_lead in *. bool_to_prop.
  apply andb_false_iff. right. apply Z.leb_gt. lia.
Qed.

Lemma trail_safe_bits u n0 n1 :
  is_lead u = true → u8_ok n0 → is_trail (u16_from Little n0 n1) = true →
  trail_safe (combine_surrogates u (u16_from Little n0 n1)) = true → (Z.land n0 252 =? 216) = false.
Proof.
  intros Hl Hn Ht Hs.
  assert (Hb : (Z.land n0 252 =? 216) = ((216 <=? n0) && (n0 <=? 219))).
  { apply eqb_prop.
    by apply (all_bytes_spec (λ b, eqb (Z.land b 252 =? 216) ((216 <=? b) && (b <=? 219)))). }
  rewrite Hb. unfold is_trail, is_lead, trail_safe, combine_surrogates, u16_from, u16_from_le, u8_ok in *.
  apply orb_prop in Hs as [Hs|Hs]; bool_to_prop; [lia|].
  replace ((65536 + (u - 55296) * 1024 + (n0 + 256 * n1 - 56320)) `mod` 256) with n0 in Hs; [done|].
  apply (Z.mod_unique_pos _ _ (256 + (u - 55296) * 4 + n1 - 220)); lia.
Qed.

Lemma make_string_utf16 d p s :
  encoder d = Utf16le → scan16 p = Some (s, []) → make_string d p = Ok s.
Proof.
  intros He Hs. unfold make_string. rewrite He. cbn [encode_to_string].
  pose proof (finish_utf16 Little true p) as Hf. rewrite Hs in Hf. simpl in Hf.
  rewrite app_nil_r in Hf. by rewrite Hf.
Qed.

(** Dropping what has been decoded. *)
Lemma utf16_good_app q s l :
  scan16 q = Some (s, []) → utf16_good (q ++ l) →
  utf16_good l ∧ utf16_text (q ++ l) = s ++ utf16_text l ∧ Forall (λ c, trail_safe c = true) s.
Proof.
  intros Hq [Hu (s' & Hs & Hsafe)]. unfold utf16_good, utf16_text.
  rewrite (u16_scan_resumable Little q l), Hq in *. cbn [mbind option_bind app] in *.
  destruct (scan16 l) as [[s2 t]|]; simpl in *; [|done]. simplify_eq.
  apply Forall_app in Hsafe as [H1 H2]. apply Forall_app in Hu as [_ Hu]. split_and!; eauto.
Qed.

Lemma scan16_unit b0 b1 :
  is_lead (u16_from Little b0 b1) = false → is_trail (u16_from Little b0 b1) = false →
  scan16 [b0; b1] = Some ([u16_from Little b0 b1], []).
Proof. intros Hl Ht. cbn [u16_scan]. by rewrite Hl, Ht. Qed.

Lemma scan16_pair b0 b1 n0 n1 :
  is_lead (u16_from Little b0 b1) = true → is_trail (u16_from Little n0 n1) = true →
  scan16 [b0; b1; n0; n1] =
    Some ([combine_surrogates (u16_from Little b0 b1) (u16_from Little n0 n1)], []).
Proof. intros Hl Ht. cbn [u16_scan]. by rewrite Hl, Ht. Qed.

(** The first unit or pair of a well-formed text. *)
Lemma good_unit b0 b1 l :
  utf16_good (b0 :: b1 :: l) → is_lead (u16_from Little b0 b1) = false →
  is_trail (u16_from Little b0 b1) = false.
Proof.
  intros [_ (s & Hs & _)] Hl. cbn [u16_scan] in Hs. rewrite Hl in Hs. by destruct (is_trail _).
Qed.

Lemma good_pair b0 b1 n0 n1 l :
  utf16_good (b0 :: b1 :: n0 :: n1 :: l) → is_lead (u16_from Little b0 b1) = true →
  is_trail (u16_from Little n0 n1) = true ∧
  (Z.land n0 252 =? 216) = false ∧ (Z.land n1 252 =? 216) = false.
Proof.
  intros Hg Hl. assert (Ht : is_trail (u16_from Little n0 n1) = true).
  { destruct Hg as [_ (s & Hs & _)]. cbn [u16_scan] in Hs. rewrite Hl in Hs.
    by destruct (is_trail (u16_from Little n0 n1)). }
  destruct (utf16_good_app _ _ l (scan16_pair _ _ _ _ Hl Ht) Hg) as (_ & _ & Hsafe).
  destruct Hg as [Hu _]. decompose_Forall_hyps. split_and!; [done| |].
  - by apply (trail_safe_bits (u16_from Little b0 b1) n0 n1).
  - by apply (trail_not_lead_bits n0).
Qed.

(** A lead surrogate is followed by a unit. *)
Lemma good_lead_rest b0 b1 l :
  utf16_good (b0 :: b1 :: l) → is_lead (u16_from Little b0 b1) = true →
  ∃ n0 n1 l', l = n0 :: n1 :: l'.
Proof.
  intros [_ (s & Hs & _)] Hl. cbn [u16_scan] in Hs. rewrite Hl in Hs.
  destruct l as [|n0 [|n1 l]]; simplify_eq; eauto.
Qed.

(** What the first phase of a call decodes, and what it leaves. *)
Definition utf16_finishes (h data : list Z) (out : rstring) (data' h' : list Z) : Prop :=
  scan16 h' = Some ([], h') ∧ (data' ≠ [] → h' = []) ∧
  ∃ q, h ++ data = q ++ h' ++ data' ∧ scan16 q = Some (out, []).

#[local] Opaque make_string.

Ltac run_finish :=
  unfold finish_missing, utf16_align; cbn [utf16_state missing_bytes length utf16_missing encoder
    Nat.ltb Nat.leb take find_pos]; surrogates;
  repeat match goal with H : (Z.land _ 252 =? 216) = _ |- _ => rewrite !H; clear H end;
  simpl; rewrite ?Nat.min_0_r, ?take_0, ?drop_0; simpl.

Lemma finish_half b data rest :
  utf16_good ([b] ++ data ++ rest) →
  ∃ out data' h', finish_missing (utf16_state [b]) data = Ok (out, data', utf16_state h') ∧
    utf16_finishes [b] data out data' h'.
Proof.
  intros Hg. pose proof Hg as [Hu _]. destruct data as [|c data].
  { exists [], [], [b]. split; [done|]. split_and!; [done..|]. by exists []. }
  simpl in Hu, Hg. decompose_Forall_hyps.
  pose proof (lead_bits b c ltac:(done) ltac:(done)) as Hb.
  destruct (is_lead (u16_from Little b c)) eqn:Hl.
  - destruct (good_lead_rest _ _ _ Hg Hl) as (n0 & n1 & l & Hr).
    destruct data as [|m0 [|m1 data]].
    + exists [], [], [b; c]. split; [run_finish; done|]. split_and!; [|done|by exists []].
      cbn [u16_scan]. by rewrite Hl.
    + exists [], [], [b; c; m0]. split; [run_finish; done|]. split_and!; [|done|by exists []].
      cbn [u16_scan]. by rewrite Hl.
    + destruct (good_pair b c m0 m1 (data ++ rest) Hg Hl) as (Ht & _ & _).
      pose proof (scan16_pair _ _ _ _ Hl Ht) as Hp.
      do 2 eexists. exists []. split.
      { run_finish. erewrite make_string_utf16; [done|done|exact Hp]. }
      split_and!; [done..|]. by exists [b; c; m0; m1].
  - pose proof (scan16_unit _ _ Hl (good_unit _ _ _ Hg Hl)) as Hp.
    do 2 eexists. exists []. split.
    { run_finish. erewrite make_string_utf16; [done|done|exact Hp]. }
    split_and!; [done..|]. by exists [b; c].
Qed.

Lemma finish_lead b0 b1 data rest :
  is_lead (u16_from Little b0 b1) = true → utf16_good ([b0; b1] ++ data ++ rest) →
  ∃ out data' h', finish_missing (utf16_state [b0; b1]) data = Ok (out, data', utf16_state h') ∧
    utf16_finishes [b0; b1] data out data' h'.
Proof.
  intros Hl Hg. assert (Htail : ∀ t, (length t < 2)%nat → scan16 (b0 :: b1 :: t) = Some ([], b0 :: b1 :: t)).
  { intros [|x [|y t]] Ht; cbn [u16_scan]; rewrite Hl; try done. simpl in Ht. lia. }
  destruct (good_lead_rest _ _ _ Hg Hl) as (n0 & n1 & l & Hr).
  rewrite Hr in Hg. destruct (good_pair _ _ _ _ _ Hg Hl) as (Ht & Hn0 & Hn1).
  destruct data as [|m0 [|m1 data]]; simplify_eq/=.
  - exists [], [], [b0; b1]. split; [run_finish; done|]. split_and!; [by apply Htail; simpl; lia|done|by exists []].
  - exists [], [], [b0; b1; n0]. split; [run_finish; done|].
    split_and!; [by apply Htail; simpl; lia|done|by exists []].
  - pose proof (scan16_pair _ _ _ _ Hl Ht) as Hp. do 2 eexists. exists []. split.
    { run_finish. erewrite make_string_utf16; [done|done|exact Hp]. }
    split_and!; [done..|]. by exists [b0; b1; n0; n1].
Qed.

Lemma finish_lead_half b0 b1 n0 data rest :
  is_lead (u16_from Little b0 b1) = true → utf16_good ([b0; b1; n0] ++ data ++ rest) →
  ∃ out data' h', finish_missing (utf16_state [b0; b1; n0]) data = Ok (out, data', utf16_state h') ∧
    utf16_finishes [b0; b1; n0] data out data' h'.
Proof.
  intros Hl Hg. destruct data as [|n1 data].
  - exists [], [], [b0; b1; n0]. split; [run_finish; done|].
    split_and!; [cbn [u16_scan]; by rewrite Hl|done|by exists []].
  - destruct (good_pair b0 b1 n0 n1 (data ++ rest) Hg Hl) as (Ht & Hn0 & Hn1).
    pose proof (scan16_pair _ _ _ _ Hl Ht) as Hp. do 2 eexists. exists []. split.
    { run_finish. erewrite make_string_utf16; [done|done|exact Hp]. }
    split_and!; [done..|]. by exists [b0; b1; n0; n1].
Qed.

Lemma finish_missing_utf16 h data rest :
  scan16 h = Some ([], h) → utf16_good (h ++ data ++ rest) →
  ∃ out data' h', finish_missing (utf16_state h) data = Ok (out, data', utf16_state h') ∧
    utf16_finishes h data out data' h'.
Proof.
  intros Ht Hg. destruct h as [|b0 [|b1 h]].
  - exists [], data, []. split; [done|]. split_and!; [done..|]. by exists [].
  - by apply (finish_half _ _ rest).
  - cbn [u16_scan] in Ht. destruct (is_lead (u16_from Little b0 b1)) eqn:Hl.
    + destruct h as [|n0 [|n1 h]].
      * by apply (finish_lead _ _ _ rest).
      * by apply (finish_lead_half _ _ _ _ rest).
      * destruct (is_trail _); [|done]. by apply prepend_cons in Ht.
    + destruct (is_trail _); [done|]. by apply prepend_cons in Ht.
Qed.

(** The cut only looks at the last unit. *)
Lemma utf16_cut_shift d b0 b1 r :
  r ≠ [] → (length r = 1%nat → (Z.land b1 252 =? 216) = false) →
  utf16_cut d (b0 :: b1 :: r) = utf16_cut d r.
Proof.
  intros Hne Hb. unfold utf16_cut. cbn [length].
  assert (Hm : (S (S (length r)) `mod` 2 = length r `mod` 2)%nat) by dlia. rewrite Hm.
  destruct r as [|x r]; [done|]. cbn [length] in *.
  replace (S (S (S (length r))) - 2)%nat with (S (length r)) by lia.
  replace (S (S (S (length r))) - 1)%nat with (S (S (length r))) by lia.
  replace (S (length r) - 1)%nat with (length r) by lia.
  replace (3 <=? S (S (S (length r))))%nat with true by done.
  destruct (Nat.eqb_spec (S (length r) `mod` 2) 1) as [Ho|Ho]; [|done].
  destruct (length r) as [|[|k]] eqn:Hr; [|done|].
  - cbn [lookup list_lookup or_panic mbind res_bind]. by rewrite Hb.
  - replace (S (S (S k)) - 2)%nat with (S k) by lia. done.
Qed.

Lemma cut_utf16 data s t :
  Forall u8_ok data → data ≠ [] → scan16 data = Some (s, t) →
  ∃ p, data = p ++ t ∧ scan16 p = Some (s, []) ∧
    utf16_cut (fresh Utf16le) data =
      Ok (mkStringDecoder Utf16le [] (length t) (utf16_missing (length t))).
Proof.
  revert s t. induction data as [|b|b0 b1 Hl|b0 b1 b2 Hl|b0 b1 r Hl Ht|b0 b1 n0 n1 r Hl Ht
                 |b0 b1 r Hl Ht IH|b0 b1 n0 n1 r Hl Ht IH] using (u16_scan_ind Little);
    intros s t Hu Hne Hs; [done|..]; cbn [u16_scan] in Hs; rewrite ?Hl, ?Ht in Hs; simplify_eq.
  - by exists [].
  - assert (Hb : (Z.land b1 252 =? 216) = true)
      by (etrans; [apply (lead_bits b0 b1); by decompose_Forall_hyps|exact Hl]).
    exists []. split_and!; [done..|]. unfold utf16_cut. simpl. by rewrite Hb.
  - assert (Hb : (Z.land b1 252 =? 216) = true)
      by (etrans; [apply (lead_bits b0 b1); by decompose_Forall_hyps|exact Hl]).
    exists []. split_and!; [done..|]. unfold utf16_cut. simpl. by rewrite Hb.
  - assert (Hb : (Z.land b1 252 =? 216) = false)
      by (etrans; [apply (lead_bits b0 b1); by decompose_Forall_hyps|exact Hl]).
    destruct (scan16 r) as [[s' t']|] eqn:Hr; simplify_eq/=.
    destruct (decide (r = [])) as [->|Hn]; simplify_eq/=.
    { exists [b0; b1]. split_and!; [done|by rewrite (scan16_unit _ _ Hl Ht)|].
      unfold utf16_cut. simpl. by rewrite Hb. }
    destruct (IH s' t) as (p & -> & Hp & Hc); [by decompose_Forall_hyps|done..|].
    exists (b0 :: b1 :: p). split_and!; [done| |by rewrite utf16_cut_shift].
    simpl. by rewrite Hl, Ht, Hp.
  - assert (Hb : (Z.land n1 252 =? 216) = false)
      by (apply (trail_not_lead_bits n0); [by decompose_Forall_hyps..|exact Ht]).
    destruct (scan16 r) as [[s' t']|] eqn:Hr; simplify_eq/=.
    rewrite (utf16_cut_shift _ b0 b1) by (simpl; done || lia).
    destruct (decide (r = [])) as [->|Hn]; simplify_eq/=.
    { exists [b0; b1; n0; n1]. split_and!; [done|by rewrite (scan16_pair _ _ _ _ Hl Ht)|].
      unfold utf16_cut. simpl. by rewrite Hb. }
    destruct (IH s' t) as (p & -> & Hp & Hc); [by decompose_Forall_hyps|done..|].
    exists (b0 :: b1 :: n0 :: n1 :: p). split_and!; [done| |by rewrite utf16_cut_shift].
    simpl. by rewrite Hl, Ht, Hp.
Qed.

Lemma scan16_tail l s t : scan16 l = Some (s, t) → scan16 t = Some ([], t).
Proof. apply (stream_spec_tail Utf16le true). Qed.

(** A prefix of a good text scans. *)
Lemma utf16_good_scan l rest :
  utf16_good (l ++ rest) → ∃ s t, scan16 l = Some (s, t).
Proof.
  intros [_ (s & Hs & _)]. rewrite (u16_scan_resumable Little l rest) in Hs.
  destruct (scan16 l) as [[s' t]|]; [by eauto|done].
Qed.

Lemma utf16_step d data rest :
  utf16_inv d → utf16_good (buffer d ++ data ++ rest) →
  ∃ out d', decode_data d data = Ok (out, d') ∧
            resumes utf16_text utf16_good utf16_inv d data rest out d'.
Proof.
  intros (h & Hh & ->) Hg. unfold decode_data, resumes.
  assert (He : encoder (utf16_state h) = Utf16le) by done. rewrite He.
  change (buffer (utf16_state h)) with h in *.
  destruct (finish_missing_utf16 h data rest Hh Hg) as (out & data' & h' & Hf & Hh' & Hn & q & Hq & Hs).
  rewrite Hf. cbn [mbind res_bind].
  rewrite (assoc_L (++)), Hq, <- !(assoc_L (++)) in Hg |- *.
  destruct (utf16_good_app _ _ _ Hs Hg) as (Hg1 & -> & _).
  destruct (decide (data' = [])) as [->|Hne].
  { exists out, (utf16_state h'). split_and!; [done|by exists h'|done..]. }
  rewrite nonempty_match, (Hn Hne) in * by done. cbn [app] in *.
  destruct (utf16_good_scan _ _ Hg1) as (s & t & Ht).
  destruct (cut_utf16 data' s t) as (p & -> & Hp & Hc); [|done..|].
  { destruct Hg1 as [Hu _]. by apply Forall_app in Hu as [? _]. }
  rewrite <- (assoc_L (++)) in Hg1 |- *. destruct (utf16_good_app _ _ _ Hp Hg1) as (Hg2 & -> & _).
  change (cut_incomplete (utf16_state []) (p ++ t)) with (utf16_cut (fresh Utf16le) (p ++ t)).
  rewrite Hc. cbn [mbind res_bind]. rewrite keep_tail_ok. cbn [mbind res_bind].
  exists (out ++ s), (utf16_state t). split; [|split_and!].
  - destruct p as [|b p]; [simplify_eq/=; by rewrite app_nil_r|].
    by erewrite make_string_utf16 by done.
  - exists t. split; [|done]. by eapply scan16_tail.
  - done.
  - by rewrite (assoc_L (++)).
Qed.

Lemma utf16_flush d :
  utf16_inv d → utf16_good (buffer d) → flush d = Ok (utf16_text (buffer d), fresh Utf16le).
Proof.
  intros (h & Hh & ->) [_ (s & Hs & _)]. cbn [buffer utf16_state] in *.
  rewrite Hh in Hs. by simplify_eq.
Qed.

Lemma scan16_encode s : Forall (λ c, is_scalar c = true) s → scan16 (mjoin (u16_le_bytes <$> encode_utf16 s)) = Some (s, []).
Proof.
  intros Hs. apply u16_scan_whole. split; [apply (even_u16_bytes Little)|].
  rewrite (u16_chunks_bytes Little) by (by apply encode_utf16_u16). by apply from_utf16_encode.
Qed.

Lemma u16_bytes_u8 us : Forall u16_ok us → Forall u8_ok (mjoin (u16_le_bytes <$> us)).
Proof.
  induction 1 as [|u us Hu _ IH]; [constructor|]. cbn [fmap list_fmap mjoin list_join].
  apply Forall_app. split; [|exact IH]. unfold u16_le_bytes, u8_ok, u16_ok in *.
  repeat constructor; dlia.
Qed.

(** For UTF-16LE text without a trail surrogate whose first byte is
    0xD8..0xDB the chunks do not matter: all calls together return the text,
    wherever its bytes are cut. *)
Theorem string_decoder_utf16 (s : rstring) (chunks : list (list Z)) (last : option (list Z)) :
  Forall (λ c, is_scalar c = true) s → Forall (λ c, trail_safe c = true) s →
  mjoin chunks ++ default [] last = mjoin (u16_le_bytes <$> encode_utf16 s) →
  decode_all (fresh Utf16le) chunks last = Ok (s, fresh Utf16le).
Proof.
  intros Hs Hsafe Hb. pose proof (scan16_encode s Hs) as Hscan. rewrite <- Hb in Hscan.
  assert (Ht : utf16_text (mjoin chunks ++ default [] last) = s)
    by (unfold utf16_text; by rewrite Hscan).
  rewrite <- Ht at 1.
  apply (decode_all_ok Utf16le utf16_text utf16_good utf16_inv utf16_step utf16_flush).
  - by exists [].
  - split; [|by exists s]. cbn [fresh buffer app]. rewrite Hb. by apply u16_bytes_u8, encode_utf16_u16.
Qed.

(** The restriction is needed: U+1F4D8 has the trail surrogate 0xDCD8.
    Cut in its middle, the first byte of the trail is taken for a lead
    surrogate, one byte too many is consumed, and the A that follows is lost. *)
Example string_decoder_utf16_misaligned :
  let text := [128216; 65] in
  let bytes := mjoin (u16_le_bytes <$> encode_utf16 text) in
  decode_all (fresh Utf16le) [bytes] None = Ok (text, fresh Utf16le) ∧
  ∃ d, decode_all (fresh Utf16le) [take 2 bytes; drop 2 bytes] None = Ok ([128216], d).
Proof. split; [vm_compute; reflexivity|]. eexists. vm_compute. reflexivity. Qed.

(** [end] on an odd byte leaves the byte in the buffer: the decoder's next
    stream, cut in the middle of its first character, starts with it. *)
Example string_decoder_stale_byte :
  ∃ d, decode_all (fresh Utf16le) [] (Some [65]) = Ok ([], d) ∧ buffer d = [65] ∧
       buffered_bytes d = 0%nat ∧
       (fst <$> decode_all d [[66]; [0]] None) = Ok [65 + 256 * 66] ∧
       (fst <$> decode_all (fresh Utf16le) [[66]; [0]] None) = Ok [66].
Proof. eexists. split; [vm_compute; reflexivity|]. split_and!; vm_compute; reflexivity. Qed.
End Utf16.

(** * Witnesses *)

(** The euro sign cut after its first byte, then a stray continuation byte. *)
Lemma string_decoder_utf8_witness :
  decode_all (fresh Utf8) [[226]; [130; 172; 128]] (Some [65]) = Ok ([8364; REPLACEMENT; 65], fresh Utf8).
Proof.
  apply (string_decoder_utf8 [[226]; [130; 172; 128]] (Some [65])).
  cbn. repeat (apply Forall_cons; split; [unfold u8_ok; lia|]). apply Forall_nil_2.
Defined.

Lemma string_decoder_utf16_witness :
  decode_all (fresh Utf16le) [[61]; [216; 169]; [220; 65]] (Some [0]) = Ok ([128169; 65], fresh Utf16le).
Proof.
  apply (string_decoder_utf16 [128169; 65] [[61]; [216; 169]; [220; 65]] (Some [0]));
    [repeat (apply Forall_cons; split; [reflexivity|]); apply Forall_nil_2..|reflexivity].
Defined.

Lemma string_decoder_base64_witness :
  decode_all (fresh Base64) [[102; 111]; [111; 98]] (Some [97]) = Ok (bs "Zm9vYmE=", fresh Base64).
Proof. rewrite (string_decoder_base64 [[102; 111]; [111; 98]] (Some [97])). vm_compute. reflexivity. Defined.
