(* ===== verification/Querystring.v ===== *)
(** node:querystring ([modules/raster_runtime_querystring/src/lib.rs]), a module
    of JavaScript embedded in the source.

    A JavaScript string is the list of its code units.  Exceptions are [Err];
    an object of parameters is the list of its own enumerable properties in the
    order of [Object.keys] where it is read, and a finite map where it is built.
    [TextDecoder] is the one of [IncrementalDecoder]. *)

From S2P Require Import Prelude Unicode Encoding IncrementalDecoder.

Notation jstring := (list Z).

(** [str.slice(from, to)] for indices in range. *)
Definition slice (from to : nat) (s : jstring) : jstring := take (to - from) (drop from s).

(** * Tables *)

Definition hex_digit (n : Z) : Z := if n <? 10 then 48 + n else 55 + n.

(** [hexTable[i]] for a byte. *)
Definition hexTable (i : Z) : jstring := [37; hex_digit (i `div` 16); hex_digit (i `mod` 16)].

Definition isHexTable : list Z :=
  replicate 48 0 ++
  [1; 1; 1; 1; 1; 1; 1; 1; 1; 1; 0; 0; 0; 0; 0; 0;
   0; 1; 1; 1; 1; 1; 1; 0; 0; 0; 0; 0; 0; 0; 0; 0] ++
  replicate 16 0 ++
  [0; 1; 1; 1; 1; 1; 1; 0; 0; 0; 0; 0; 0; 0; 0; 0] ++
  replicate 144 0.

Definition unhexTable : list Z :=
  replicate 48 (-1) ++
  [0; 1; 2; 3; 4; 5; 6; 7; 8; 9; -1; -1; -1; -1; -1; -1;
   -1; 10; 11; 12; 13; 14; 15; -1; -1; -1; -1; -1; -1; -1; -1; -1] ++
  replicate 16 (-1) ++
  [-1; 10; 11; 12; 13; 14; 15; -1; -1; -1; -1; -1; -1; -1; -1; -1] ++
  replicate 144 (-1).

Definition noEscape : list Z :=
  replicate 32 0 ++
  [0; 1; 0; 0; 0; 0; 0; 1; 1; 1; 1; 0; 0; 1; 1; 0;
   1; 1; 1; 1; 1; 1; 1; 1; 1; 1; 0; 0; 0; 0; 0; 0;
   0; 1; 1; 1; 1; 1; 1; 1; 1; 1; 1; 1; 1; 1; 1; 1;
   1; 1; 1; 1; 1; 1; 1; 1; 1; 1; 1; 0; 0; 0; 0; 1;
   0; 1; 1; 1; 1; 1; 1; 1; 1; 1; 1; 1; 1; 1; 1; 1;
   1; 1; 1; 1; 1; 1; 1; 1; 1; 1; 1; 0; 0; 0; 1; 0].

(** An element of a table; [undefined] out of range. *)
Definition at_ (table : list Z) (c : Z) : option Z := table !! Z.to_nat c.
Definition is_hex (c : Z) : bool := bool_decide (at_ isHexTable c = Some 1).

(** * Escaping *)

Definition URIError : rstring := bs "URI malformed".

(** One turn per code unit: the inner loop over the code units below 0x80 and
    the outer one over the others. *)
Fixpoint encode_loop (fuel : nat) (str : jstring) (i lastPos : nat) (out : jstring) :
    res rstring jstring :=
  match fuel, str !! i with
  | S fuel, Some c =>
      if c <? 128 then
        if bool_decide (at_ noEscape c = Some 1) then encode_loop fuel str (i + 1) lastPos out
        else
          let out := if (lastPos <? i)%nat then out ++ slice lastPos i str else out in
          encode_loop fuel str (i + 1) (i + 1) (out ++ hexTable c)
      else
        let out := if (lastPos <? i)%nat then out ++ slice lastPos i str else out in
        if c <? 2048 then
          encode_loop fuel str (i + 1) (i + 1)
            (out ++ hexTable (Z.lor 192 (Z.shiftr c 6)) ++ hexTable (Z.lor 128 (Z.land c 63)))
        else if (c <? 55296) || (57344 <=? c) then
          encode_loop fuel str (i + 1) (i + 1)
            (out ++ hexTable (Z.lor 224 (Z.shiftr c 12)) ++
             hexTable (Z.lor 128 (Z.land (Z.shiftr c 6) 63)) ++ hexTable (Z.lor 128 (Z.land c 63)))
        else
          match str !! (i + 1)%nat with
          | None => Err URIError
          | Some c2 =>
              let c := 65536 + Z.lor (Z.shiftl (Z.land c 1023) 10) (Z.land c2 1023) in
              encode_loop fuel str (i + 2) (i + 2)
                (out ++ hexTable (Z.lor 240 (Z.shiftr c 18)) ++
                 hexTable (Z.lor 128 (Z.land (Z.shiftr c 12) 63)) ++
                 hexTable (Z.lor 128 (Z.land (Z.shiftr c 6) 63)) ++
                 hexTable (Z.lor 128 (Z.land c 63)))
          end
  | _, _ => Ok (if (lastPos <? length str)%nat then out ++ drop lastPos str else out)
  end.

Definition encodeStr (str : jstring) : res rstring jstring :=
  if (length str =? 0)%nat then Ok [] else encode_loop (length str) str 0 0 [].

(** [escape] of a string. *)
Definition qsEscape (str : jstring) : res rstring jstring := encodeStr str.

(** * Unescaping *)

(** The language's [decodeURIComponent]; [None] is the [URIError]. *)
Definition hex_value (c : Z) : option Z :=
  if (48 <=? c) && (c <=? 57) then Some (c - 48)
  else if (65 <=? c) && (c <=? 70) then Some (c - 55)
  else if (97 <=? c) && (c <=? 102) then Some (c - 87)
  else None.

Definition read_escape (s : jstring) : option (Z * jstring) :=
  match s with
  | p :: h :: l :: s =>
      if p =? 37 then h ← hex_value h; l ← hex_value l; Some (h * 16 + l, s) else None
  | _ => None
  end.

Fixpoint read_escapes (n : nat) (s : jstring) : option (list Z * jstring) :=
  match n with
  | O => Some ([], s)
  | S n => '(b, s) ← read_escape s; '(bytes, s) ← read_escapes n s; Some (b :: bytes, s)
  end.

(** The number of bytes of the sequence a byte begins. *)
Definition sequence_length (b : Z) : option nat :=
  if b <? 128 then Some 1%nat
  else if b <? 192 then None
  else if b <? 224 then Some 2%nat
  else if b <? 240 then Some 3%nat
  else if b <? 248 then Some 4%nat
  else None.

Definition read_char (s : jstring) : option (Z * jstring) :=
  '(b, _) ← read_escape s;
  n ← sequence_length b;
  '(bytes, s) ← read_escapes n s;
  match from_utf8 bytes with Ok [c] => Some (c, s) | _ => None end.

Fixpoint decode_uri (fuel : nat) (s : jstring) : option jstring :=
  match fuel, s with
  | S fuel, c :: r =>
      if c =? 37 then
        '(c, r) ← read_char s;
        rest ← decode_uri fuel r; Some (encode_utf16_char c ++ rest)
      else rest ← decode_uri fuel r; Some (c :: rest)
  | _, _ => Some []
  end.
Definition decodeURIComponent (s : jstring) : option jstring := decode_uri (length s) s.

(** The object [parse] makes: a value, or the array of a key given twice. *)
Inductive param := One (s : jstring) | Many (l : list jstring).
Abbreviation params := (gmap jstring param) (only parsing).

Section Querystring.
Context `{CodecLib}.

(** [new TextDecoder('utf-8', { fatal: false }).decode(bytes)]. *)
Definition text_decode (bytes : list Z) : res rstring jstring :=
  t ← TextDecoder_new (Some (bs "utf-8")) (Some false) None;
  s ← (td_decode t (Some bytes) false).1;
  Ok (encode_utf16 s).

(** [out[outIndex++] = v] on a [Uint8Array]: modulo 256, nothing out of range. *)
Definition put (v : Z) (o : list Z * nat) : list Z * nat :=
  (<[o.2 := v `mod` 256]> o.1, (o.2 + 1)%nat).

(** [!(unhexTable[c] >= 0)] is [None]. *)
Definition unhex (c : Z) : option Z :=
  v ← at_ unhexTable c; if 0 <=? v then Some v else None.

(** A turn of the loop at [index] takes one code unit or one escape.  After
    [s.charCodeAt(++index)] with no first digit the loop goes on at the digit;
    with no second digit the first one is copied. *)
Fixpoint unescape_loop (fuel : nat) (s : jstring) (decodeSpaces : bool) (index : nat)
    (out : list Z * nat) : list Z * nat :=
  match fuel, s !! index with
  | S fuel, Some c =>
      if (c =? 43) && decodeSpaces then unescape_loop fuel s decodeSpaces (index + 1) (put 32 out)
      else if (c =? 37) && (index + 2 <? length s)%nat then
        let c1 := default 0 (s !! (index + 1)%nat) in
        match unhex c1 with
        | None => unescape_loop fuel s decodeSpaces (index + 1) (put 37 out)
        | Some hexHigh =>
            match unhex (default 0 (s !! (index + 2)%nat)) with
            | None => unescape_loop fuel s decodeSpaces (index + 2) (put c1 (put 37 out))
            | Some hexLow =>
                unescape_loop fuel s decodeSpaces (index + 3) (put (hexHigh * 16 + hexLow) out)
            end
        end
      else unescape_loop fuel s decodeSpaces (index + 1) (put c out)
  | _, _ => out
  end.

(** The bytes before they are decoded. *)
Definition unescape_bytes (s : jstring) (decodeSpaces : bool) : list Z :=
  let o := unescape_loop (length s) s decodeSpaces 0 (replicate (length s) 0, 0%nat) in
  take o.2 o.1.

Definition unescapeBuffer (s : jstring) (decodeSpaces : bool) : res rstring jstring :=
  text_decode (unescape_bytes s decodeSpaces).

Definition qsUnescape (s : jstring) (decodeSpaces : option bool) : res rstring jstring :=
  match decodeURIComponent s with
  | Some r => Ok r
  | None => unescapeBuffer s (default true decodeSpaces)
  end.

(** * Printing *)

(** A property value.  A number has its text, and whether it is finite and
    below 1e21 in magnitude. *)
Inductive prim :=
  | PString (s : jstring)
  | PNumber (finite below : bool) (text : jstring)
  | PBigint (text : jstring)
  | PBool (b : bool)
  | POther.
Inductive value := Prim (v : prim) | Arr (l : list prim).

Definition bool_text (b : bool) : jstring := if b then bs "true" else bs "false".

Definition stringifyPrimitive (v : prim) : jstring :=
  match v with
  | PString s => s
  | PNumber true _ text => text
  | PBigint text => text
  | PBool b => bool_text b
  | _ => []
  end.

Definition encodeStringified (v : prim) (encode : jstring → res rstring jstring) : res rstring jstring :=
  match v with
  | PString s => if (length s =? 0)%nat then Ok [] else encode s
  | PNumber true below text => if below : bool then Ok text else encode text
  | PBigint text => Ok text
  | PBool b => Ok (bool_text b)
  | _ => Ok []
  end.

Definition encodeStringifiedCustom (v : prim) (encode : jstring → res rstring jstring) :
    res rstring jstring :=
  encode (stringifyPrimitive v).

(** [encode] is the option, when it is a function. *)
Section Stringify.
Context (sep eq : jstring) (encode : option (jstring → res rstring jstring)).

Definition convert (v : prim) : res rstring jstring :=
  match encode with
  | None => encodeStringified v qsEscape
  | Some f => encodeStringifiedCustom v f
  end.

(** The elements of an array after its first [j]. *)
Fixpoint stringify_items (ks : jstring) (j : nat) (vs : list prim) (fields : jstring) :
    res rstring jstring :=
  match vs with
  | [] => Ok fields
  | v :: vs =>
      let fields := if (j =? 0)%nat then fields else fields ++ sep in
      t ← convert v;
      stringify_items ks (j + 1) vs (fields ++ ks ++ t)
  end.

Definition add_sep (fields : jstring) : jstring := if fields is [] then fields else fields ++ sep.

Fixpoint stringify_fields (obj : list (jstring * value)) (fields : jstring) : res rstring jstring :=
  match obj with
  | [] => Ok fields
  | (k, v) :: obj =>
      ks ← convert (PString k);
      let ks := ks ++ eq in
      fields ← match v with
        | Arr [] => Ok fields
        | Arr vs => stringify_items ks 0 vs (add_sep fields)
        | Prim v => t ← convert v; Ok (add_sep fields ++ ks ++ t)
        end;
      stringify_fields obj fields
  end.
End Stringify.

(** [sep || '&'], [eq || '=']; [obj] is [None] when it is not an object. *)
Definition or_default (s : option jstring) (d : jstring) : jstring :=
  match s with Some (c :: s) => c :: s | _ => d end.

Definition stringify (obj : option (list (jstring * value))) (sep eq : option jstring)
    (encode : option (jstring → res rstring jstring)) : res rstring jstring :=
  match obj with
  | Some obj => stringify_fields (or_default sep [38]) (or_default eq [61]) encode obj []
  | None => Ok []
  end.

(** * Parsing *)

(** [decode] is the option, when it is a function; [None] is an exception. *)
Section Parse.
Context (sepCodes eqCodes : list Z) (decode : option (jstring → option jstring)).

Definition customDecode : bool := match decode with Some _ => true | None => false end.
Definition plusChar : jstring := if customDecode then [37; 50; 48] else [32].

Definition decodeStr (s : jstring) : res rstring jstring :=
  match decode with
  | None => qsUnescape s None
  | Some f => match f s with Some r => Ok r | None => qsUnescape s (Some true) end
  end.

Definition addKeyVal (obj : params) (key value : jstring) (keyEncoded valEncoded : bool) :
    res rstring params :=
  key ← (if (0 <? length key)%nat && keyEncoded then decodeStr key else Ok key);
  value ← (if (0 <? length value)%nat && valEncoded then decodeStr value else Ok value);
  Ok (match obj !! key with
      | None => <[key := One value]> obj
      | Some (Many l) => <[key := Many (l ++ [value])]> obj
      | Some (One v) => <[key := Many [v; value]]> obj
      end).

Record parse_state := mkP {
  lastPos : nat;
  sepIdx : nat;
  eqIdx : nat;
  key : jstring;
  val : jstring;
  keyEncoded : bool;
  valEncoded : bool;
  encodeCheck : nat;
  pairs : Z;
  obj : params
}.

(** What a turn of the loop does: it goes on, or [parse] returns. *)
Inductive turn := Go (s : parse_state) | Return (obj : params).

(** [if (lastPos < end) text += qs.slice(lastPos, end)]. *)
Definition grab (qs : jstring) (from to : nat) (text : jstring) : jstring :=
  if (from <? to)%nat then text ++ slice from to qs else text.

(** The end of a separator at [i]. *)
Definition end_pair (qs : jstring) (i : nat) (s : parse_state) : res rstring turn :=
  let to := (i - sepIdx s)%nat in
  let next obj pairs := mkP (i + 1) 0 0 [] [] customDecode customDecode 0 pairs obj in
  if (eqIdx s <? length eqCodes)%nat && negb (lastPos s <? to)%nat && (length (key s) =? 0)%nat then
    if pairs s - 1 =? 0 then Ok (Return (obj s))
    else Ok (Go (mkP (i + 1) 0 0 (key s) (val s) (keyEncoded s) (valEncoded s) (encodeCheck s)
      (pairs s - 1) (obj s)))
  else
    let k := if (eqIdx s <? length eqCodes)%nat then grab qs (lastPos s) to (key s) else key s in
    let v := if (eqIdx s <? length eqCodes)%nat then val s else grab qs (lastPos s) to (val s) in
    obj ← addKeyVal (obj s) k v (keyEncoded s) (valEncoded s);
    if pairs s - 1 =? 0 then Ok (Return obj) else Ok (Go (next obj (pairs s - 1))).

(** The code after the checks of the key: a code unit of the value, or one of
    the key that the checks did not take. *)
Definition value_code (qs : jstring) (i : nat) (code : Z) (s : parse_state) : parse_state :=
  if code =? 43 then
    mkP (i + 1) (sepIdx s) (eqIdx s) (key s) (grab qs (lastPos s) i (val s) ++ plusChar)
      (keyEncoded s) (valEncoded s) (encodeCheck s) (pairs s) (obj s)
  else if valEncoded s then s
  else
    let e := if code =? 37 then 1%nat
             else if (0 <? encodeCheck s)%nat then
               if is_hex code then (encodeCheck s + 1)%nat else 0%nat
             else encodeCheck s in
    mkP (lastPos s) (sepIdx s) (eqIdx s) (key s) (val s) (keyEncoded s)
      ((0 <? encodeCheck s)%nat && is_hex code && (e =? 3)%nat) e (pairs s) (obj s).

Definition key_plus (qs : jstring) (i : nat) (s : parse_state) : parse_state :=
  mkP (i + 1) (sepIdx s) (eqIdx s) (grab qs (lastPos s) i (key s) ++ plusChar) (val s)
    (keyEncoded s) (valEncoded s) (encodeCheck s) (pairs s) (obj s).

(** A code unit before the end of [eq]. *)
Definition key_code (qs : jstring) (i : nat) (code : Z) (s : parse_state) : parse_state :=
  if decide (eqCodes !! eqIdx s = Some code) then
    if (eqIdx s + 1 =? length eqCodes)%nat then
      mkP (i + 1) (sepIdx s) (eqIdx s + 1) (grab qs (lastPos s) (i - eqIdx s) (key s)) (val s)
        (keyEncoded s) (valEncoded s) 0 (pairs s) (obj s)
    else
      mkP (lastPos s) (sepIdx s) (eqIdx s + 1) (key s) (val s)
        (keyEncoded s) (valEncoded s) (encodeCheck s) (pairs s) (obj s)
  else
    let check e enc := mkP (lastPos s) (sepIdx s) 0 (key s) (val s) enc (valEncoded s) e (pairs s) (obj s) in
    let rest s := if code =? 43 then key_plus qs i s else value_code qs i code s in
    if keyEncoded s then rest (check (encodeCheck s) true)
    else if code =? 37 then check 1%nat false
    else if (0 <? encodeCheck s)%nat then
      if is_hex code then check (encodeCheck s + 1)%nat (encodeCheck s + 1 =? 3)%nat
      else rest (check 0%nat false)
    else rest (check (encodeCheck s) false).

Definition parse_code (qs : jstring) (i : nat) (code : Z) (s : parse_state) : res rstring turn :=
  if decide (sepCodes !! sepIdx s = Some code) then
    if (sepIdx s + 1 =? length sepCodes)%nat then end_pair qs i s
    else Ok (Go (mkP (lastPos s) (sepIdx s + 1) (eqIdx s) (key s) (val s)
      (keyEncoded s) (valEncoded s) (encodeCheck s) (pairs s) (obj s)))
  else
    let s := mkP (lastPos s) 0 (eqIdx s) (key s) (val s)
      (keyEncoded s) (valEncoded s) (encodeCheck s) (pairs s) (obj s) in
    Ok (Go (if (eqIdx s <? length eqCodes)%nat then key_code qs i code s else value_code qs i code s)).

(** The loop over the code units [rest], the first of them at [i]. *)
Fixpoint parse_loop (qs : jstring) (i : nat) (rest : jstring) (s : parse_state) : res rstring turn :=
  match rest with
  | [] => Ok (Go s)
  | code :: rest =>
      t ← parse_code qs i code s;
      match t with
      | Go s => parse_loop qs (i + 1) rest s
      | Return obj => Ok (Return obj)
      end
  end.

Definition parse_end (qs : jstring) (s : parse_state) : res rstring params :=
  if (lastPos s <? length qs)%nat then
    if (eqIdx s <? length eqCodes)%nat then
      addKeyVal (obj s) (key s ++ drop (lastPos s) qs) (val s) (keyEncoded s) (valEncoded s)
    else if (sepIdx s <? length sepCodes)%nat then
      addKeyVal (obj s) (key s) (val s ++ drop (lastPos s) qs) (keyEncoded s) (valEncoded s)
    else addKeyVal (obj s) (key s) (val s) (keyEncoded s) (valEncoded s)
  else if (eqIdx s =? 0)%nat && (length (key s) =? 0)%nat then Ok (obj s)
  else addKeyVal (obj s) (key s) (val s) (keyEncoded s) (valEncoded s).

Definition parse_from (qs : jstring) (maxPairs : Z) : res rstring params :=
  t ← parse_loop qs 0 qs (mkP 0 0 0 [] [] customDecode customDecode 0 maxPairs ∅);
  match t with Return obj => Ok obj | Go s => parse_end qs s end.
End Parse.

(** [parse]; [maxKeys] is the option, when it is a number (an integer). *)
Definition parse (qs : option jstring) (sep eq : option jstring) (maxKeys : option Z)
    (decode : option (jstring → option jstring)) : res rstring params :=
  match qs with
  | Some (c :: qs) =>
      let pairs := match maxKeys with Some n => if 0 <? n then n else -1 | None => 1000 end in
      parse_from (or_default sep [38]) (or_default eq [61]) decode (c :: qs) pairs
  | _ => Ok ∅
  end.
End Querystring.
