(* ===== verification/QuerystringProofs.v ===== *)
(** node:querystring: [escape] writes the percent-encoded UTF-8 of a string and
    [unescape] reads it back; the flags of [parse] are an optimisation of the
    plain reading of a query; and [parse] undoes [stringify]. *)

From S2P Require Import Prelude Unicode Encoding IncrementalDecoder Querystring.

(** * Escaping *)

(** The escape of a character: itself, or its UTF-8 bytes. *)
Definition esc_char (c : Z) : jstring :=
  if bool_decide (at_ noEscape c = Some 1) then [c] else mjoin (hexTable <$> encode_char c).
Definition esc (s : rstring) : jstring := mjoin (esc_char <$> s).

Lemma slice_snoc l i (s : jstring) c :
  (l ≤ i)%nat → s !! i = Some c → slice l (i + 1) s = slice l i s ++ [c].
Proof.
  intros Hl Hc. unfold slice. replace (i + 1 - l)%nat with (S (i - l)) by lia.
  apply take_S_r. rewrite lookup_drop. by replace (l + (i - l))%nat with i by lia.
Qed.
Lemma slice_nil i (s : jstring) : slice i i s = [].
Proof. unfold slice. by rewrite Nat.sub_diag. Qed.
Lemma slice_all l (s : jstring) : slice l (length s) s = drop l s.
Proof. unfold slice. apply take_ge. by rewrite length_drop. Qed.

(** Text gathered so far, and the piece since [lastPos] not yet added. *)
Lemma grab_eq (s : jstring) l i text : (l ≤ i)%nat → grab s l i text = text ++ slice l i s.
Proof.
  intros Hl. unfold grab. case_match eqn:E; [done|]. apply Nat.ltb_ge in E.
  replace i with l by lia. by rewrite slice_nil, app_nil_r.
Qed.

Lemma noEscape_ascii c : at_ noEscape c = Some 1 → 0 ≤ c → c < 128.
Proof.
  unfold at_. intros Hc%lookup_lt_Some H0. change (length noEscape) with 128%nat in Hc. lia.
Qed.

(** ** Bytes *)

Lemma lor_add n a b : 0 ≤ n → 0 ≤ b < 2 ^ n → Z.lor (a * 2 ^ n) b = a * 2 ^ n + b.
Proof.
  intros Hn Hb. assert (Z.land (a * 2 ^ n) b = 0) as Hz.
  { apply Z.bits_inj'. intros i Hi. rewrite Z.land_spec, Z.bits_0.
    destruct (Z.lt_ge_cases i n).
    - by rewrite Z.mul_pow2_bits_low.
    - rewrite <- (Z.mod_small b (2 ^ n)) by done. by rewrite Z.mod_pow2_bits_high, andb_false_r by lia. }
  by rewrite Z.add_nocarry_lxor, Z.lxor_lor.
Qed.

Lemma low6 c : Z.land c 63 = c `mod` 64.
Proof. apply (Z.land_ones c 6). lia. Qed.
Lemma low10 c : Z.land c 1023 = c `mod` 1024.
Proof. apply (Z.land_ones c 10). lia. Qed.
Lemma shr6 c : Z.shiftr c 6 = c `div` 64.
Proof. apply Z.shiftr_div_pow2. lia. Qed.
Lemma shr12 c : Z.shiftr c 12 = c `div` 4096.
Proof. apply Z.shiftr_div_pow2. lia. Qed.
Lemma shr18 c : Z.shiftr c 18 = c `div` 262144.
Proof. apply Z.shiftr_div_pow2. lia. Qed.
Lemma lor128 c : 0 ≤ c < 64 → Z.lor 128 c = 128 + c.
Proof. intros. by apply (lor_add 6 2). Qed.
Lemma lor192 c : 0 ≤ c < 64 → Z.lor 192 c = 192 + c.
Proof. intros. by apply (lor_add 6 3). Qed.
Lemma lor224 c : 0 ≤ c < 32 → Z.lor 224 c = 224 + c.
Proof. intros. by apply (lor_add 5 7). Qed.
Lemma lor240 c : 0 ≤ c < 16 → Z.lor 240 c = 240 + c.
Proof. intros. by apply (lor_add 4 15). Qed.

Lemma not_plain c : 128 ≤ c → bool_decide (at_ noEscape c = Some 1) = false.
Proof. intros Hc. apply bool_decide_eq_false. intros Hn%noEscape_ascii; lia. Qed.

Lemma esc_two c : 128 ≤ c < 2048 →
  esc_char c = hexTable (Z.lor 192 (Z.shiftr c 6)) ++ hexTable (Z.lor 128 (Z.land c 63)).
Proof.
  intros Hc. unfold esc_char, encode_char. rewrite not_plain by lia.
  rewrite (proj2 (Z.ltb_ge c 128)), (proj2 (Z.ltb_lt c 2048)) by lia.
  rewrite shr6, low6, lor192, lor128 by dlia. done.
Qed.
Lemma esc_three c : 2048 ≤ c < 65536 →
  esc_char c = hexTable (Z.lor 224 (Z.shiftr c 12)) ++ hexTable (Z.lor 128 (Z.land (Z.shiftr c 6) 63)) ++
    hexTable (Z.lor 128 (Z.land c 63)).
Proof.
  intros Hc. unfold esc_char, encode_char. rewrite not_plain by lia.
  rewrite (proj2 (Z.ltb_ge c 128)), (proj2 (Z.ltb_ge c 2048)), (proj2 (Z.ltb_lt c 65536)) by lia.
  rewrite shr12, shr6, !low6, lor224, !lor128 by dlia. done.
Qed.
Lemma esc_four c : 65536 ≤ c < 1114112 →
  esc_char c = hexTable (Z.lor 240 (Z.shiftr c 18)) ++ hexTable (Z.lor 128 (Z.land (Z.shiftr c 12) 63)) ++
    hexTable (Z.lor 128 (Z.land (Z.shiftr c 6) 63)) ++ hexTable (Z.lor 128 (Z.land c 63)).
Proof.
  intros Hc. unfold esc_char, encode_char. rewrite not_plain by lia.
  rewrite (proj2 (Z.ltb_ge c 128)), (proj2 (Z.ltb_ge c 2048)), (proj2 (Z.ltb_ge c 65536)) by lia.
  rewrite shr18, shr12, shr6, !low6, lor240, !lor128 by dlia. done.
Qed.

Lemma surrogate_value u v :
  is_lead u = true → is_trail v = true →
  65536 + Z.lor (Z.shiftl (Z.land u 1023) 10) (Z.land v 1023) = combine_surrogates u v.
Proof.
  unfold is_lead, is_trail, combine_surrogates. intros Hu Hv. bool_to_prop.
  rewrite !low10, Z.shiftl_mul_pow2, (lor_add 10) by dlia. dlia.
Qed.

Lemma drop_cons i (s : jstring) c r : drop i s = c :: r → s !! i = Some c ∧ drop (i + 1) s = r.
Proof.
  intros Hd. split.
  - rewrite <- (Nat.add_0_r i), <- lookup_drop, Hd. done.
  - by rewrite <- drop_drop, Hd.
Qed.
Lemma drop_nil i (s : jstring) : drop i s = [] → (length s ≤ i)%nat.
Proof. intros Hd. apply (f_equal length) in Hd. rewrite length_drop in Hd. simpl in Hd. lia. Qed.

Lemma esc_cons c s : esc (c :: s) = esc_char c ++ esc s.
Proof. done. Qed.

Lemma encode_end str i lastPos out :
  drop i str = [] → (lastPos ≤ i ≤ length str)%nat →
  (if (lastPos <? length str)%nat then out ++ drop lastPos str else out) = out ++ slice lastPos i str ++ esc [].
Proof.
  intros Hd Hl. pose proof (drop_nil _ _ Hd). assert (i = length str) as -> by lia.
  rewrite slice_all, app_nil_r. case_match eqn:E; [done|].
  apply Nat.ltb_ge in E. rewrite drop_ge by lia. by rewrite app_nil_r.
Qed.

(** [escape] writes the escapes of the characters, for text without lone
    surrogates. *)
Lemma encode_loop_ok fuel str i lastPos out s :
  Forall u16_ok (drop i str) → from_utf16 (drop i str) = Some s → (lastPos ≤ i ≤ length str)%nat →
  (length (drop i str) ≤ fuel)%nat →
  encode_loop fuel str i lastPos out = Ok (out ++ slice lastPos i str ++ esc s).
Proof.
  revert i lastPos out s. induction fuel as [|fuel IH]; intros i lastPos out s Hu Hs Hl Hf.
  { destruct (drop i str) eqn:Hd; [|simpl in Hf; lia]. simpl in Hs. simplify_eq. simpl.
    by rewrite (encode_end str i). }
  destruct (drop i str) as [|c r] eqn:Hd.
  { simpl in Hs. simplify_eq. simpl. rewrite (lookup_ge_None_2 _ _ (drop_nil _ _ Hd)). by rewrite (encode_end str i). }
  destruct (drop_cons _ _ _ _ Hd) as [Hc Hd']. pose proof (lookup_lt_Some _ _ _ Hc) as Hlt.
  apply Forall_cons in Hu as [Hcu Hu]. unfold u16_ok in Hcu.
  assert (Hstep : ∀ s' lastPos' out', from_utf16 r = Some s' → (lastPos' ≤ i + 1)%nat →
    encode_loop fuel str (i + 1) lastPos' out' = Ok (out' ++ slice lastPos' (i + 1) str ++ esc s')).
  { intros s' lastPos' out' Hs' Hl'. apply IH; rewrite ?Hd'; try done; simpl in Hf; lia. }
  cbn [encode_loop]. rewrite Hc. change (if (lastPos <? i)%nat then out ++ slice lastPos i str else out) with (grab str lastPos i out).
  rewrite grab_eq by lia. simpl in Hs. destruct (c <? 128) eqn:H1.
  - destruct (is_lead c) eqn:Hld; [unfold is_lead in Hld; bool_to_prop; lia|].
    destruct (is_trail c) eqn:Htr; [unfold is_trail in Htr; bool_to_prop; lia|].
    apply fmap_Some in Hs as (s' & Hs' & ->). rewrite esc_cons. unfold esc_char.
    case_bool_decide as Hn.
    + rewrite (Hstep s') by (done || lia). by rewrite (slice_snoc _ _ _ c) by (done || lia); rewrite <- !app_assoc.
    + rewrite (Hstep s') by (done || lia). rewrite slice_nil. unfold encode_char. rewrite H1. by rewrite <- !app_assoc.
  - destruct (c <? 2048) eqn:H2; [|destruct ((c <? 55296) || (57344 <=? c)) eqn:H3].
    + destruct (is_lead c) eqn:Hld; [unfold is_lead in Hld; bool_to_prop; lia|].
      destruct (is_trail c) eqn:Htr; [unfold is_trail in Htr; bool_to_prop; lia|]. bool_to_prop.
      apply fmap_Some in Hs as (s' & Hs' & ->). rewrite (Hstep s'), slice_nil, esc_cons, esc_two by (done || lia).
      by rewrite <- !app_assoc.
    + destruct (is_lead c) eqn:Hld; [unfold is_lead in Hld; bool_to_prop; naive_solver lia|].
      destruct (is_trail c) eqn:Htr; [unfold is_trail in Htr; bool_to_prop; naive_solver lia|].
      apply fmap_Some in Hs as (s' & Hs' & ->). bool_to_prop. rewrite (Hstep s'), slice_nil, esc_cons, esc_three by (done || lia).
      by rewrite <- !app_assoc.
    + destruct (is_lead c) eqn:Hld.
      2: { exfalso. unfold is_lead in Hld. destruct (is_trail c) eqn:Htr; [done|]. unfold is_trail in Htr.
           apply orb_false_iff in H3 as []. bool_to_prop.
           apply andb_false_iff in Hld as [Hld|Hld], Htr as [Htr|Htr]; bool_to_prop; lia. }
      destruct r as [|v r]; [done|]. destruct (is_trail v) eqn:Htr; [|done].
      apply fmap_Some in Hs as (s' & Hs' & ->). destruct (drop_cons _ _ _ _ Hd') as [Hv Hd2]. rewrite Hv.
      rewrite surrogate_value by done. replace (i + 1 + 1)%nat with (i + 2)%nat in Hd2 by lia.
      pose proof (lookup_lt_Some _ _ _ Hv). rewrite (IH (i + 2)%nat _ _ s');
        rewrite ?Hd2; try done; [|by inversion Hu|lia|simpl in Hf; lia].
      rewrite slice_nil, esc_cons, esc_four by (unfold combine_surrogates, is_lead, is_trail in *; bool_to_prop; lia).
      by rewrite <- !app_assoc.
Qed.

Lemma qs_escape_ok str s :
  Forall u16_ok str → from_utf16 str = Some s → qsEscape str = Ok (esc s).
Proof.
  intros Hu Hs. unfold qsEscape, encodeStr. destruct str as [|c str]; [by simplify_eq/=|].
  cbn [length Nat.eqb]. rewrite (encode_loop_ok _ _ _ _ _ s); try done. simpl. lia.
Qed.

(** * Unescaping *)

Lemma uri_hex_digit n : 0 ≤ n < 16 → hex_value (hex_digit n) = Some n.
Proof.
  intros Hn. apply (bool_decide_unpack (hex_value (hex_digit n) = Some n)).
  apply Is_true_true. revert n Hn. by apply forall_range.
Qed.

Lemma read_escape_hex b r : u8_ok b → read_escape (hexTable b ++ r) = Some (b, r).
Proof.
  unfold u8_ok. intros Hb. simpl. rewrite !uri_hex_digit by dlia. simpl. do 2 f_equal. dlia.
Qed.

Lemma read_escapes_hex bytes r :
  Forall u8_ok bytes → read_escapes (length bytes) (mjoin (hexTable <$> bytes) ++ r) = Some (bytes, r).
Proof.
  induction 1 as [|b bytes Hb Hbs IH]; [done|]. cbn [length read_escapes].
  change (mjoin (hexTable <$> b :: bytes)) with (hexTable b ++ mjoin (hexTable <$> bytes)).
  rewrite <- app_assoc, read_escape_hex by done. cbn [mbind option_bind]. by rewrite IH.
Qed.

Lemma from_utf8_char c : is_scalar c = true → from_utf8 (encode_char c) = Ok [c].
Proof.
  intros Hc. pose proof (from_utf8_encode [c]) as Hf. unfold to_utf8 in Hf. simpl in Hf.
  rewrite app_nil_r in Hf. by rewrite Hf by (by constructor).
Qed.

Lemma encode_char_head c : is_scalar c = true →
  ∃ b bytes, encode_char c = b :: bytes ∧ sequence_length b = Some (length (b :: bytes)).
Proof.
  unfold is_scalar, encode_char, sequence_length. intros Hc. bool_to_prop.
  repeat case_match; bool_to_prop; eexists _, _; (split; [done|]); simpl;
    repeat (case_match; bool_to_prop; try done; try (exfalso; dlia)).
Qed.

Lemma read_char_esc c r :
  is_scalar c = true → read_char (mjoin (hexTable <$> encode_char c) ++ r) = Some (c, r).
Proof.
  intros Hc. pose proof (encode_char_u8 c Hc) as Hu.
  destruct (encode_char_head c Hc) as (b & bytes & E & Hlen). rewrite E in *.
  unfold read_char. pose proof (Forall_inv Hu) as Hb.
  assert (read_escape (mjoin (hexTable <$> b :: bytes) ++ r) = Some (b, mjoin (hexTable <$> bytes) ++ r)) as ->.
  { change (mjoin (hexTable <$> b :: bytes)) with (hexTable b ++ mjoin (hexTable <$> bytes)).
    rewrite <- app_assoc. by apply read_escape_hex. }
  cbn [mbind option_bind]. rewrite Hlen. cbn [mbind option_bind].
  rewrite read_escapes_hex by done. cbn [mbind option_bind]. by rewrite <- E, from_utf8_char.
Qed.

Lemma esc_head c : is_scalar c = true →
  (esc_char c = [c] ∧ c <? 65536 = true ∧ c =? 37 = false) ∨
  (esc_char c = mjoin (hexTable <$> encode_char c) ∧ ∃ r, esc_char c = 37 :: r).
Proof.
  intros Hc. unfold esc_char. case_bool_decide as Hn.
  - left. assert (0 ≤ c) by (unfold is_scalar in Hc; bool_to_prop; lia).
    pose proof (noEscape_ascii c Hn ltac:(done)). split_and!; [done|apply Z.ltb_lt; lia|].
    apply Z.eqb_neq. by intros ->.
  - right. split; [done|]. destruct (encode_char_head c Hc) as (b & bytes & -> & _). by eexists.
Qed.

Lemma decode_uri_esc fuel s :
  Forall (λ c, is_scalar c = true) s → (length (esc s) ≤ fuel)%nat →
  decode_uri fuel (esc s) = Some (encode_utf16 s).
Proof.
  intros Hs. revert fuel. induction Hs as [|c s Hc Hs IH]; intros fuel Hf; [by destruct fuel|].
  rewrite esc_cons in *. rewrite length_app in Hf. rewrite encode_utf16_cons.
  destruct (esc_head c Hc) as [(E & Hlt & Hne)|(E & r & E')].
  - rewrite E in *. destruct fuel as [|fuel]; simpl in Hf; [lia|]. simpl. rewrite Hne, IH by lia. simpl.
    unfold encode_utf16_char. by rewrite Hlt.
  - destruct fuel as [|fuel]; [rewrite E' in Hf; simpl in Hf; lia|].
    pose proof (read_char_esc c (esc s) Hc) as Hr. rewrite <- E, E' in Hr. rewrite E' in *. cbn [app decode_uri].
    change (37 =? 37) with true. cbn iota. cbn [app] in Hr. rewrite Hr. cbn [mbind option_bind].
    rewrite IH by (simpl in Hf; lia). done.
Qed.

(** ** Hexadecimal digits *)

Lemma is_hex_spec c : 0 ≤ c → is_hex c = match hex_value c with Some _ => true | None => false end.
Proof.
  intros Hc. destruct (Z.lt_ge_cases c 256).
  - apply eqb_prop. revert c Hc H. assert (∀ c, 0 ≤ c < 256 →
      Bool.eqb (is_hex c) (match hex_value c with Some _ => true | None => false end) = true) as Ht
      by (by apply forall_range). intros. by apply Ht.
  - unfold is_hex, at_. rewrite lookup_ge_None_2 by (change (length isHexTable) with 256%nat; lia).
    unfold hex_value. rewrite (proj2 (Z.leb_gt c 57)), (proj2 (Z.leb_gt c 70)), (proj2 (Z.leb_gt c 102)) by lia.
    by rewrite !andb_false_r.
Qed.
Lemma unhex_spec c : 0 ≤ c → unhex c = hex_value c.
Proof.
  intros Hc. destruct (Z.lt_ge_cases c 256).
  - apply (bool_decide_unpack (unhex c = hex_value c)). apply Is_true_true. revert c Hc H.
    assert (∀ c, 0 ≤ c < 256 → bool_decide (unhex c = hex_value c) = true) as Ht
      by (by apply forall_range). intros. by apply Ht.
  - unfold unhex, at_. rewrite lookup_ge_None_2 by (change (length unhexTable) with 256%nat; lia). simpl.
    unfold hex_value. rewrite (proj2 (Z.leb_gt c 57)), (proj2 (Z.leb_gt c 70)), (proj2 (Z.leb_gt c 102)) by lia.
    by rewrite !andb_false_r.
Qed.

(** ** The bytes of [unescapeBuffer] *)

(** The unescaping of a string, without the indices. *)
Fixpoint unescape_ref (spaces : bool) (s : jstring) : list Z :=
  match s with
  | [] => []
  | c :: r =>
      if (c =? 43) && spaces then 32 :: unescape_ref spaces r
      else if c =? 37 then
        match r with
        | h :: ((l :: r2) as r1) =>
            match unhex h, unhex l with
            | None, _ => 37 :: unescape_ref spaces r
            | Some _, None => 37 :: h `mod` 256 :: unescape_ref spaces r1
            | Some hi, Some lo => (hi * 16 + lo) `mod` 256 :: unescape_ref spaces r2
            end
        | _ => 37 :: unescape_ref spaces r
        end
      else c `mod` 256 :: unescape_ref spaces r
  end.

(** The array with [done] written to it and room for [k] more bytes. *)
Definition filled (done : list Z) (k : nat) : list Z * nat := (done ++ replicate k 0, length done).

Lemma put_filled v done k : put v (filled done (S k)) = filled (done ++ [v `mod` 256]) k.
Proof.
  unfold put, filled. simpl. rewrite insert_app_r_alt, Nat.sub_diag by lia. simpl.
  rewrite <- app_assoc, length_app. done.
Qed.

Lemma unescape_loop_ok fuel s spaces index done k r :
  drop index s = r → (length r ≤ fuel)%nat → (length r ≤ k)%nat →
  let o := unescape_loop fuel s spaces index (filled done k) in
  take o.2 o.1 = done ++ unescape_ref spaces r.
Proof.
  revert index done k r. induction fuel as [|fuel IH]; intros index done k r Hr Hf Hk; cbn zeta.
  { destruct r; [|simpl in Hf; lia]. simpl. by rewrite take_app_length, app_nil_r. }
  destruct r as [|c r].
  { cbn [unescape_loop]. rewrite lookup_ge_None_2 by (by apply drop_nil). simpl. by rewrite take_app_length, app_nil_r. }
  destruct (drop_cons _ _ _ _ Hr) as [Hc Hr1]. destruct k as [|k]; [simpl in Hk; lia|]. simpl in Hf, Hk.
  assert (Hlen : length s = (index + S (length r))%nat).
  { apply (f_equal length) in Hr. rewrite length_drop in Hr. simpl in Hr. lia. }
  cbn [unescape_loop]. rewrite Hc. cbn [unescape_ref].
  destruct ((c =? 43) && spaces) eqn:Hplus.
  { rewrite put_filled, (IH _ _ _ r) by (done || lia). by rewrite <- app_assoc. }
  destruct (c =? 37) eqn:Hpct; simpl.
  2: { rewrite put_filled, (IH _ _ _ r) by (done || lia). by rewrite <- app_assoc. }
  apply Z.eqb_eq in Hpct as ->.
  destruct r as [|h [|l r]].
  - rewrite (proj2 (Nat.ltb_ge _ _)) by (simpl in Hlen; lia).
    rewrite put_filled, (IH _ _ _ []) by (done || simpl; lia). by rewrite <- app_assoc.
  - rewrite (proj2 (Nat.ltb_ge _ _)) by (simpl in Hlen; lia).
    rewrite put_filled, (IH _ _ _ [h]) by (done || simpl in *; lia). by rewrite <- app_assoc.
  - rewrite (proj2 (Nat.ltb_lt _ _)) by (simpl in Hlen; lia).
    destruct (drop_cons _ _ _ _ Hr1) as [Hh Hr2]. rewrite Hh. change (default 0 (Some h)) with h.
    replace (index + 1 + 1)%nat with (index + 2)%nat in Hr2 by lia.
    destruct (drop_cons _ _ _ _ Hr2) as [Hl Hr3]. rewrite Hl. change (default 0 (Some l)) with l.
    replace (index + 2 + 1)%nat with (index + 3)%nat in Hr3 by lia. simpl in Hf, Hk.
    destruct (unhex h) as [hi|].
    + destruct (unhex l) as [lo|].
      * rewrite put_filled, (IH _ _ _ r) by (done || lia). by rewrite <- app_assoc.
      * destruct k as [|k]; [lia|]. rewrite !put_filled, (IH _ _ _ (l :: r)) by (done || simpl; lia).
        by rewrite <- !app_assoc.
    + rewrite put_filled, (IH _ _ _ (h :: l :: r)) by (done || simpl; lia). by rewrite <- app_assoc.
Qed.

Lemma unescape_bytes_ok s spaces : unescape_bytes s spaces = unescape_ref spaces s.
Proof. unfold unescape_bytes. by apply (unescape_loop_ok (length s) s spaces 0 [] (length s) s). Qed.

(** * Pieces of a query *)

(** The pieces of [s] between the occurrences of [a]. *)
Fixpoint split_on (a : Z) (s : jstring) : list jstring :=
  match s with
  | [] => [[]]
  | c :: s =>
      if decide (c = a) then [] :: split_on a s
      else match split_on a s with p :: ps => (c :: p) :: ps | [] => [[c]] end
  end.

(** The text before the first [b], and the text after it. *)
Fixpoint cut (b : Z) (s : jstring) : jstring * jstring :=
  match s with
  | [] => ([], [])
  | c :: s => if decide (c = b) then ([], s) else (c :: (cut b s).1, (cut b s).2)
  end.

(** A positive limit counts the pieces. *)
Definition limit {A} (n : Z) (l : list A) : list A := if 0 <? n then take (Z.to_nat n) l else l.

Lemma cut_key b s : b ∉ s → cut b s = (s, []).
Proof.
  induction s as [|c s IH]; [done|]. intros Hb. simpl. rewrite decide_False by set_solver.
  by rewrite IH by set_solver.
Qed.

Lemma cut_both b k v : b ∉ k → cut b (k ++ b :: v) = (k, v).
Proof.
  induction k as [|c k IH]; intros Hb; simpl; [by rewrite decide_True|].
  rewrite decide_False by set_solver. by rewrite IH by set_solver.
Qed.

Lemma limit_cons {A} n (x : A) l :
  limit n (x :: l) = x :: (if n - 1 =? 0 then [] else limit (n - 1) l).
Proof.
  unfold limit. destruct (Z.ltb_spec 0 n) as [Hn|Hn].
  - replace (Z.to_nat n) with (S (Z.to_nat (n - 1))) by lia. cbn [take]. f_equal.
    destruct (Z.eqb_spec (n - 1) 0) as [->|]; [done|]. by rewrite (proj2 (Z.ltb_lt _ _)) by lia.
  - rewrite (proj2 (Z.eqb_neq _ _)), (proj2 (Z.ltb_ge _ _)) by lia. done.
Qed.

(** [seg] in front of the first piece. *)
Definition after (seg : jstring) (pieces : list jstring) : list jstring :=
  match pieces with p :: ps => (seg ++ p) :: ps | [] => [seg] end.

Lemma after_cons a c seg s : c ≠ a → after seg (split_on a (c :: s)) = after (seg ++ [c]) (split_on a s).
Proof.
  intros Hc. simpl. rewrite decide_False by done. by destruct (split_on a s); simpl; rewrite <- ?app_assoc.
Qed.

Fixpoint join_pieces (ps : list jstring) : jstring :=
  match ps with
  | [] => []
  | [p] => p
  | p :: ps => p ++ 38 :: join_pieces ps
  end.

Lemma join_nonempty p ps : p ≠ [] → join_pieces (p :: ps) ≠ [].
Proof. destruct p; [done|]. by destruct ps. Qed.

Lemma join_snoc ps p :
  Forall (λ q, q ≠ []) ps → join_pieces (ps ++ [p]) = add_sep [38] (join_pieces ps) ++ p.
Proof.
  induction 1 as [|q ps Hq Hps IH]; [done|]. destruct ps as [|q' ps].
  - simpl. destruct q; [done|]. simpl. by rewrite <- app_assoc.
  - change (join_pieces ((q :: q' :: ps) ++ [p])) with (q ++ 38 :: join_pieces ((q' :: ps) ++ [p])).
    rewrite IH. change (join_pieces (q :: q' :: ps)) with (q ++ 38 :: join_pieces (q' :: ps)).
    assert (join_pieces (q' :: ps) ≠ []) as Hne.
    { inversion Hps; subst. by apply join_nonempty. }
    unfold add_sep. destruct (join_pieces (q' :: ps)); [done|]. destruct q as [|x q]; [done|]. simpl.
    by rewrite <- !app_assoc.
Qed.

Lemma split_on_join ps : ps ≠ [] → Forall (λ p, 38 ∉ p) ps → split_on 38 (join_pieces ps) = ps.
Proof.
  intros Hne Hps. destruct Hps as [|p ps Hp Hps]; [done|]. clear Hne.
  assert (Hcons : ∀ p s, 38 ∉ p → split_on 38 (p ++ s) = after p (split_on 38 s)).
  { clear. induction p as [|c p IH]; intros s Hp; [by destruct s; simpl; repeat case_match|].
    simpl. rewrite decide_False by set_solver. rewrite IH by set_solver. by destruct (split_on 38 s). }
  revert p Hp. induction Hps as [|q ps Hq Hps IH]; intros p Hp.
  - simpl. rewrite <- (app_nil_r p) at 1. rewrite Hcons by done. simpl. by rewrite app_nil_r.
  - change (join_pieces (p :: q :: ps)) with (p ++ 38 :: join_pieces (q :: ps)).
    rewrite Hcons by done. cbn [split_on]. rewrite decide_True by done. cbn [after]. by rewrite app_nil_r, IH.
Qed.

(** ** The text of [unescapeBuffer] *)

Section Unescape.
Context `{CodecLaws}.

Lemma text_decode_ok bytes :
  text_decode bytes = Ok (encode_utf16 (from_utf8_lossy (strip_bom Utf8 false bytes))).
Proof.
  unfold text_decode. change (TextDecoder_new (Some (bs "utf-8")) (Some false) None) with
    (Ok (E := rstring) (mkTextDecoder Utf8 false false IncrementalDecoder_new false)).
  rewrite bind_ok. unfold td_decode. cbn [do_not_flush fatal decoder td_encoder ignore_bom negb default].
  pose proof (decode_once Utf8 true false bytes) as Hd.
  destruct (finish_spec_lossy Utf8 (strip_bom Utf8 false bytes) ltac:(done)) as [s Hs].
  pose proof (finish_encode Utf8 true (strip_bom Utf8 false bytes)) as He. rewrite Hs in *. simpl in Hd.
  change (reset IncrementalDecoder_new) with IncrementalDecoder_new. change (id bytes) with bytes.
  rewrite Hd. cbn [fst]. rewrite bind_ok. cbn [encode_to_string] in He. by simplify_eq/=.
Qed.

Lemma ascii_scalar l : ascii l → Forall (λ c, is_scalar c = true) l.
Proof.
  intros Hl. apply (Forall_impl _ _ _ Hl). intros c Hc. unfold is_scalar, is_surrogate.
  rewrite (proj2 (Z.leb_le 0 c)), (proj2 (Z.leb_le c 1114111)), (proj2 (Z.leb_gt 55296 c)) by lia. done.
Qed.

Lemma encode_utf16_ascii l : ascii l → encode_utf16 l = l.
Proof.
  induction 1 as [|c l Hc _ IH]; [done|]. rewrite encode_utf16_cons, IH. unfold encode_utf16_char.
  by rewrite (proj2 (Z.ltb_lt _ _)) by lia.
Qed.

Lemma text_decode_ascii l : ascii l → text_decode l = Ok l.
Proof.
  intros Hl. rewrite text_decode_ok.
  assert (strip_bom Utf8 false l = l) as ->.
  { unfold strip_bom. destruct Hl as [|c l Hc Hl]; [done|].
    change (bom_prefix Utf8) with [239; 187; 191]. simpl.
    case_match eqn:E; [|done]. bool_to_prop. lia. }
  rewrite <- (to_utf8_ascii l) at 1 by done.
  by rewrite lossy_encode, encode_utf16_ascii by (by apply ascii_scalar || done).
Qed.

(** ** Text without escapes *)

(** No [%] with two hexadecimal digits after it. *)
Definition plain (s : jstring) : Prop :=
  ∀ pre h l post, s = pre ++ [37; h; l] ++ post → is_hex h && is_hex l = false.

Lemma plain_nil : plain [].
Proof. by intros [] ? ? ? ?. Qed.
Lemma plain_tail c s : plain (c :: s) → plain s.
Proof. intros Hp pre h l post ->. by apply (Hp (c :: pre) h l post). Qed.
Lemma plain_snoc s c :
  plain s → (∀ pre h, s = pre ++ [37; h] → is_hex h && is_hex c = false) → plain (s ++ [c]).
Proof.
  intros Hs Hc pre h l post E. destruct post as [|x post _] using rev_ind.
  - assert (s ++ [c] = (pre ++ [37; h]) ++ [l]) as E' by (by rewrite E, <- app_assoc).
    apply app_inj_tail in E' as [-> ->]. by apply (Hc pre).
  - rewrite !app_assoc in E. apply app_inj_tail in E as [-> _]. by apply (Hs pre h l post); rewrite <- app_assoc.
Qed.

Lemma decode_uri_plain fuel s :
  Forall (λ c, 0 ≤ c) s → plain s → (length s ≤ fuel)%nat →
  decode_uri fuel s = Some s ∨ decode_uri fuel s = None.
Proof.
  revert s. induction fuel as [|fuel IH]; intros s Hs Hp Hf; [destruct s; simpl in *; [by left|lia]|].
  destruct s as [|c r]; [by left|]. simpl in Hf. cbn [decode_uri].
  inversion Hs as [|? ? Hc Hr]; subst. destruct (c =? 37) eqn:Hpct.
  - right. apply Z.eqb_eq in Hpct as ->. unfold read_char.
    destruct r as [|h [|l r]]; [done..|]. cbn [read_escape].
    inversion Hr as [|? ? Hh Hl']; subst. inversion Hl' as [|? ? Hl _]; subst.
    pose proof (Hp [] h l r eq_refl) as Hx. rewrite !is_hex_spec in Hx by done. simpl.
    destruct (hex_value h); [|done]. by destruct (hex_value l).
  - destruct (IH r Hr (plain_tail _ _ Hp) ltac:(lia)) as [E|E]; rewrite E; [by left|by right].
Qed.

Lemma unescape_ref_plain spaces s :
  ascii s → plain s → 43 ∉ s → unescape_ref spaces s = s.
Proof.
  remember (length s) as n eqn:Hn. revert s Hn. induction n as [n IH] using lt_wf_ind.
  intros s -> Ha Hp Hs. destruct s as [|c r]; [done|]. inversion Ha as [|? ? Hc Hr]; subst.
  assert (c =? 43 = false) as E43 by (apply Z.eqb_neq; set_solver).
  assert (unescape_ref spaces r = r) as Er.
  { apply (IH (length r)); [simpl; lia|done..|by eapply plain_tail|set_solver]. }
  cbn [unescape_ref]. rewrite E43. cbn [andb]. destruct (c =? 37) eqn:E37.
  2: { by rewrite Er, Z.mod_small by lia. }
  apply Z.eqb_eq in E37 as ->. destruct r as [|h [|l r]]; [done..|by rewrite Er|].
  inversion Hr as [|? ? Hh Hr']; subst. inversion Hr' as [|? ? Hl Hr'']; subst.
  pose proof (Hp [] h l r eq_refl) as Hx. rewrite !is_hex_spec, <- !unhex_spec in Hx by lia.
  destruct (unhex h); [|by rewrite Er]. destruct (unhex l); [done|].
  rewrite (IH (length (l :: r))), Z.mod_small; [done|lia|simpl; lia|done|done| |set_solver].
  by do 2 eapply plain_tail.
Qed.

Lemma unescape_plain s spaces :
  ascii s → plain s → 43 ∉ s → qsUnescape s spaces = Ok s.
Proof.
  intros Ha Hp Hs. unfold qsUnescape, decodeURIComponent.
  destruct (decode_uri_plain (length s) s) as [->| ->]; try done.
  - apply (Forall_impl _ _ _ Ha). lia.
  - unfold unescapeBuffer. by rewrite unescape_bytes_ok, unescape_ref_plain, text_decode_ascii.
Qed.

Lemma unescape_esc s spaces :
  Forall (λ c, is_scalar c = true) s → qsUnescape (esc s) spaces = Ok (encode_utf16 s).
Proof. intros Hs. unfold qsUnescape, decodeURIComponent. by rewrite decode_uri_esc. Qed.

(** * Parsing *)

(** A further value for a key. *)
Definition add_param (k v : jstring) (m : params) : params :=
  <[k := match m !! k with
         | None => One v
         | Some (One w) => Many [w; v]
         | Some (Many l) => Many (l ++ [v])
         end]> m.

Section Reference.
Context (decode : option (jstring → option jstring)).

Definition unplus (s : jstring) : jstring :=
  mjoin ((λ c, if c =? 43 then plusChar decode else [c]) <$> s).

Definition decode_text (s : jstring) : res rstring jstring :=
  if s is [] then Ok [] else decodeStr decode s.

(** A piece is a key and a value, each decoded; an empty piece is skipped. *)
Definition add_piece (b : Z) (m : params) (piece : jstring) : res rstring params :=
  if piece is [] then Ok m
  else
    k ← decode_text (unplus (cut b piece).1);
    v ← decode_text (unplus (cut b piece).2);
    Ok (add_param k v m).

Fixpoint add_pieces (b : Z) (m : params) (pieces : list jstring) : res rstring params :=
  match pieces with
  | [] => Ok m
  | p :: pieces => m ← add_piece b m p; add_pieces b m pieces
  end.

(** ** The flags *)

(** What a flag and the count of [%XX] seen say about the text so far. *)
Record seen (enc : bool) (e : nat) (text : jstring) : Prop := {
  seen_none : enc = false → decode = None;
  seen_plain : enc = false → plain text;
  seen_pct : enc = false → ∀ pre, text = pre ++ [37] → e = 1%nat;
  seen_digit : enc = false → ∀ pre h, text = pre ++ [37; h] → is_hex h = true → e = 2%nat
}.

Lemma seen_nil enc e : (enc = false → decode = None) → seen enc e [].
Proof.
  intros Hd. split; [done|intros; apply plain_nil|..]; intros ? pre ?; destruct pre; done.
Qed.
Lemma seen_start e : seen (customDecode decode) e [].
Proof. apply seen_nil. by destruct decode. Qed.

(** The count after a code unit that is not [+]. *)
Definition next_check (e : nat) (code : Z) : nat :=
  if code =? 37 then 1%nat else if (0 <? e)%nat then if is_hex code then (e + 1)%nat else 0%nat else e.

Lemma seen_next e text c :
  seen false e text →
  seen ((0 <? e)%nat && is_hex c && (next_check e c =? 3)%nat) (next_check e c) (text ++ [c]).
Proof.
  intros [Hn Hp Hpct Hdig]. split; [by auto|..]; intros Hf.
  - apply plain_snoc; [by auto|]. intros pre h E. destruct (is_hex h) eqn:Hh; [|done].
    pose proof (Hdig eq_refl pre h E Hh) as ->. destruct (is_hex c) eqn:Hc; [|done].
    unfold next_check in Hf. destruct (c =? 37) eqn:E37; [by apply Z.eqb_eq in E37 as ->|].
    by rewrite Hc in Hf.
  - intros pre E. apply app_inj_tail in E as [_ ->]. done.
  - intros pre h E Hh. assert (text ++ [c] = (pre ++ [37]) ++ [h]) as E' by (by rewrite E, <- app_assoc).
    apply app_inj_tail in E' as [E1 <-]. pose proof (Hpct eq_refl pre E1) as ->.
    unfold next_check. destruct (c =? 37) eqn:E37; [by apply Z.eqb_eq in E37 as ->|]. by rewrite Hh.
Qed.

Lemma seen_true e text : seen true e text.
Proof. by split. Qed.

Lemma seen_plus enc e e' text : seen enc e text → seen enc e' (text ++ plusChar decode).
Proof.
  intros [Hn Hp _ _]. destruct enc; [apply seen_true|]. specialize (Hn eq_refl). specialize (Hp eq_refl).
  unfold plusChar, customDecode. rewrite Hn. split; [done|..]; intros _.
  - apply plain_snoc; [done|]. intros. by rewrite andb_false_r.
  - intros pre E. by apply app_inj_tail in E as [_ [=]].
  - intros pre h E. assert (text ++ [32] = (pre ++ [37]) ++ [h]) as E' by (by rewrite E, <- app_assoc).
    by apply app_inj_tail in E' as [_ <-].
Qed.
(** ** The text of a piece *)

Lemma unplus_app s t : unplus (s ++ t) = unplus s ++ unplus t.
Proof. unfold unplus. by rewrite fmap_app, join_app. Qed.
Lemma unplus_single c : c ≠ 43 → unplus [c] = [c].
Proof. intros Hc. unfold unplus. simpl. by rewrite (proj2 (Z.eqb_neq _ _) Hc). Qed.
Lemma unplus_plus : unplus [43] = plusChar decode.
Proof. unfold unplus. simpl. by rewrite app_nil_r. Qed.
Lemma unplus_nil s : unplus s = [] → s = [].
Proof.
  destruct s as [|c s]; [done|]. change (c :: s) with ([c] ++ s). rewrite unplus_app.
  destruct (decide (c = 43)) as [->|Hc]; [|by rewrite unplus_single].
  rewrite unplus_plus. unfold plusChar. by destruct (customDecode decode).
Qed.

Lemma unplus_ascii s : decode = None → ascii s → ascii (unplus s) ∧ 43 ∉ unplus s.
Proof.
  intros Hd. induction 1 as [|c s Hc Hs [IH1 IH2]]; [by split; [constructor|set_solver]|].
  change (c :: s) with ([c] ++ s). rewrite unplus_app. destruct (decide (c = 43)) as [->|Hne].
  - rewrite unplus_plus. unfold plusChar, customDecode. rewrite Hd.
    split; [by repeat constructor|set_solver].
  - rewrite unplus_single by done. split; [by constructor|set_solver].
Qed.

(** Text is decoded when its flag asks for it, or as it stands when it is plain. *)
Lemma flagged_text s enc e :
  (decode = None → ascii s) → seen enc e (unplus s) →
  (if (0 <? length (unplus s))%nat && enc then decodeStr decode (unplus s) else Ok (unplus s)) =
  decode_text (unplus s).
Proof.
  intros Ha [Hn Hp _ _]. unfold decode_text. destruct (unplus s) as [|c t] eqn:E; [done|].
  cbn [length Nat.ltb Nat.leb andb]. destruct enc; [done|]. specialize (Hn eq_refl). specialize (Hp eq_refl).
  destruct (unplus_ascii s Hn (Ha Hn)) as [Hs H43]. rewrite E in *. unfold decodeStr. rewrite Hn.
  by rewrite unescape_plain.
Qed.

Lemma add_key_val m k v kenc venc e e' :
  (decode = None → ascii k) → (decode = None → ascii v) →
  seen kenc e (unplus k) → seen venc e' (unplus v) →
  addKeyVal decode m (unplus k) (unplus v) kenc venc =
  (k ← decode_text (unplus k); v ← decode_text (unplus v); Ok (add_param k v m)).
Proof.
  intros Hk Hv Hsk Hsv. unfold addKeyVal.
  rewrite (flagged_text k _ e), (flagged_text v _ e') by done.
  destruct (decode_text (unplus k)) as [k'| |]; [|done..]. rewrite !bind_ok.
  destruct (decode_text (unplus v)) as [v'| |]; [|done..]. rewrite !bind_ok. f_equal.
  unfold add_param. by destruct (m !! k') as [[]|].
Qed.

(** ** The loop *)

Section Loop.
Context (a b : Z) (qs : jstring) (Hqs : decode = None → ascii qs).

(** At [i], inside the key [seg]. *)
Record in_key (i : nat) (seg : jstring) (s : parse_state) : Prop := {
  ik_eq : eqIdx s = 0%nat;
  ik_sep : sepIdx s = 0%nat;
  ik_last : (lastPos s ≤ i)%nat;
  ik_val : val s = [];
  ik_key : key s ++ slice (lastPos s) i qs = unplus seg;
  ik_b : b ∉ seg;
  ik_ascii : decode = None → ascii seg;
  ik_seen : seen (keyEncoded s) (encodeCheck s) (unplus seg);
  ik_venc : valEncoded s = false → decode = None
}.

(** At [i], inside the value [v] of the key [k]. *)
Record in_value (i : nat) (k v : jstring) (s : parse_state) : Prop := {
  iv_eq : eqIdx s = 1%nat;
  iv_sep : sepIdx s = 0%nat;
  iv_last : (lastPos s ≤ i)%nat;
  iv_key : key s = unplus k;
  iv_val : val s ++ slice (lastPos s) i qs = unplus v;
  iv_b : b ∉ k;
  iv_kascii : decode = None → ascii k;
  iv_vascii : decode = None → ascii v;
  iv_kseen : ∃ e, seen (keyEncoded s) e (unplus k);
  iv_seen : seen (valEncoded s) (encodeCheck s) (unplus v)
}.

Definition in_piece (i : nat) (seg : jstring) (s : parse_state) : Prop :=
  in_key i seg s ∨ ∃ k v, seg = k ++ b :: v ∧ in_value i k v s.

Lemma code_ascii i c : qs !! i = Some c → decode = None → 0 ≤ c < 128.
Proof. intros Hc Hd. exact (Forall_lookup_1 _ _ _ _ (Hqs Hd) Hc). Qed.
Lemma snoc_ascii i c seg :
  qs !! i = Some c → (decode = None → ascii seg) → decode = None → ascii (seg ++ [c]).
Proof. intros Hc Hs Hd. apply Forall_app. split; [by apply Hs|]. constructor; [by eapply code_ascii|constructor]. Qed.

(** The state with other flags. *)
Definition flags (s : parse_state) (enc venc : bool) (e : nat) : parse_state :=
  mkP (lastPos s) (sepIdx s) (eqIdx s) (key s) (val s) enc venc e (pairs s) (obj s).

Lemma flags_id s : flags s (keyEncoded s) (valEncoded s) (encodeCheck s) = s.
Proof. by destruct s. Qed.

Lemma value_code_idle i c s enc venc :
  c ≠ 43 → c ≠ 37 → value_code decode qs i c (flags s enc venc 0) = flags s enc venc 0.
Proof.
  intros H43 H37. unfold value_code.
  rewrite (proj2 (Z.eqb_neq _ _) H43), (proj2 (Z.eqb_neq _ _) H37). by destruct venc.
Qed.

Lemma key_plus_ok i seg s e :
  qs !! i = Some 43 → 43 ≠ b → in_key i seg s →
  in_key (i + 1) (seg ++ [43]) (key_plus decode qs i (flags s (keyEncoded s) (valEncoded s) e)).
Proof.
  intros Hc Hb []. split; simpl; try done; try lia.
  - rewrite grab_eq, ik_key0, slice_nil, app_nil_r by done. by rewrite unplus_app, unplus_plus.
  - set_solver.
  - by eapply snoc_ascii.
  - rewrite unplus_app, unplus_plus. by eapply seen_plus.
Qed.

(** A code unit of the key that changes only the flags. *)
Lemma key_more i c seg s e enc venc :
  qs !! i = Some c → c ≠ b → c ≠ 43 → in_key i seg s →
  seen enc e (unplus seg ++ [c]) → (venc = false → decode = None) →
  in_key (i + 1) (seg ++ [c]) (flags s enc venc e).
Proof.
  intros Hc Hb H43 [] Hseen Hv. split; simpl; try done; try lia.
  - by rewrite (slice_snoc _ _ _ c), app_assoc, ik_key0, unplus_app, unplus_single.
  - set_solver.
  - by eapply snoc_ascii.
  - by rewrite unplus_app, unplus_single.
Qed.

Lemma value_code_key i c seg s :
  qs !! i = Some c → c ≠ b → c ≠ 43 → in_key i seg s → keyEncoded s = true →
  in_key (i + 1) (seg ++ [c]) (value_code decode qs i c s).
Proof.
  intros Hc Hb H43 Hk He. unfold value_code. rewrite (proj2 (Z.eqb_neq _ _) H43).
  destruct (valEncoded s) eqn:Hv.
  - rewrite <- flags_id, He, Hv. by apply key_more; try apply seen_true.
  - fold (flags s (keyEncoded s)). rewrite He. apply key_more; try done.
    intros _. by apply (ik_venc _ _ _ Hk).
Qed.

Lemma key_code_ok i c seg s :
  qs !! i = Some c → c ≠ b → in_key i seg s →
  in_key (i + 1) (seg ++ [c]) (key_code [b] decode qs i c s).
Proof.
  intros Hc Hb Hk. pose proof Hk as []. unfold key_code. rewrite ik_eq0.
  rewrite decide_False by (intros [=]; congruence). cbn zeta.
  assert (Hfl : ∀ enc e, mkP (lastPos s) (sepIdx s) 0 (key s) (val s) enc (valEncoded s) e (pairs s) (obj s) =
    flags s enc (valEncoded s) e) by (unfold flags; by rewrite ik_eq0).
  rewrite !Hfl.
  pose proof (key_plus_ok i seg s) as Hplus. pose proof (key_more i c seg s) as Hmore.
  destruct (keyEncoded s) eqn:Henc.
  { destruct (c =? 43) eqn:E43; bool_to_prop.
    - subst c. by apply Hplus.
    - rewrite <- Henc, flags_id. by apply value_code_key. }
  pose proof (seen_next _ _ c ik_seen0) as Hnext. unfold next_check in Hnext.
  destruct (c =? 37) eqn:E37; bool_to_prop.
  { subst c. apply Hmore; try done. by rewrite andb_false_r in Hnext. }
  assert (Hidle : seen false 0 (unplus seg ++ [c]) → in_key (i + 1) (seg ++ [c])
      (if c =? 43 then key_plus decode qs i (flags s false (valEncoded s) 0)
       else value_code decode qs i c (flags s false (valEncoded s) 0))).
  { intros Hz. destruct (c =? 43) eqn:E43; bool_to_prop; [subst c; by apply Hplus|].
    rewrite value_code_idle by done. by apply Hmore. }
  destruct (encodeCheck s) as [|e]; cbn [Nat.ltb Nat.leb andb] in *; [by apply Hidle|].
  destruct (is_hex c) eqn:Hhex; [|by apply Hidle].
  apply Hmore; try done. by intros ->.
Qed.

Lemma key_end_ok i seg s :
  qs !! i = Some b → in_key i seg s → in_value (i + 1) seg [] (key_code [b] decode qs i b s).
Proof.
  intros Hc []. unfold key_code. rewrite ik_eq0, decide_True by done. simpl.
  split; simpl; try done; try lia.
  - by rewrite Nat.sub_0_r, grab_eq.
  - by rewrite slice_nil, app_nil_r.
  - by constructor.
  - by eexists.
  - by apply seen_nil.
Qed.

Lemma value_code_ok i c k v s :
  qs !! i = Some c → in_value i k v s → in_value (i + 1) k (v ++ [c]) (value_code decode qs i c s).
Proof.
  intros Hc Hv. pose proof Hv as []. unfold value_code. destruct (c =? 43) eqn:E43; bool_to_prop.
  { subst c. split; simpl; try done; try lia.
    - rewrite slice_nil, app_nil_r, grab_eq, iv_val0 by done. by rewrite unplus_app, unplus_plus.
    - by eapply snoc_ascii.
    - rewrite unplus_app, unplus_plus. by eapply seen_plus. }
  assert (Hmore : ∀ enc e, seen enc e (unplus v ++ [c]) →
    in_value (i + 1) k (v ++ [c]) (flags s (keyEncoded s) enc e)).
  { intros enc e Hs. split; simpl; try done; try lia.
    - by rewrite (slice_snoc _ _ _ c), app_assoc, iv_val0, unplus_app, unplus_single.
    - by eapply snoc_ascii.
    - by rewrite unplus_app, unplus_single. }
  destruct (valEncoded s) eqn:Henc.
  - rewrite <- flags_id, Henc. apply Hmore, seen_true.
  - apply Hmore. by apply seen_next.
Qed.

Lemma frame_value_code i c s :
  obj (value_code decode qs i c s) = obj s ∧ pairs (value_code decode qs i c s) = pairs s.
Proof. unfold value_code. by repeat case_match. Qed.
Lemma frame_key_code i c s :
  obj (key_code [b] decode qs i c s) = obj s ∧ pairs (key_code [b] decode qs i c s) = pairs s.
Proof.
  unfold key_code. cbn zeta.
  repeat (case_match; try (by split); try (match goal with |- context [value_code _ _ _ _ ?t] =>
    by destruct (frame_value_code i c t) as [-> ->] end)).
Qed.

(** A code unit that does not end the piece is added to it. *)
Lemma parse_code_ok i c seg s :
  qs !! i = Some c → c ≠ a → in_piece i seg s →
  ∃ s', parse_code [a] [b] decode qs i c s = Ok (Go s') ∧ in_piece (i + 1) (seg ++ [c]) s' ∧
        obj s' = obj s ∧ pairs s' = pairs s.
Proof.
  intros Hc Ha Hp. assert (Hsep : sepIdx s = 0%nat) by (destruct Hp as [[]|(k & v & _ & [])]; done).
  unfold parse_code. rewrite Hsep, decide_False by (intros [=]; congruence). cbn zeta.
  replace (mkP (lastPos s) 0 (eqIdx s) (key s) (val s) (keyEncoded s) (valEncoded s) (encodeCheck s)
    (pairs s) (obj s)) with s by (destruct s; simpl in *; by subst).
  eexists. split; [done|]. destruct Hp as [Hk|(k & v & -> & Hv)].
  - rewrite (ik_eq _ _ _ Hk). cbn [length Nat.ltb Nat.leb]. split; [|apply frame_key_code].
    destruct (decide (c = b)) as [->|Hb].
    + right. eexists seg, []. split; [done|]. by apply key_end_ok.
    + left. by apply key_code_ok.
  - rewrite (iv_eq _ _ _ _ Hv). cbn [length Nat.ltb Nat.leb]. split; [|apply frame_value_code].
    right. exists k, (v ++ [c]). split; [by rewrite <- app_assoc|]. by apply value_code_ok.
Qed.

(** The piece is empty when nothing was gathered and nothing is pending. *)
Lemma piece_empty i seg s :
  in_key i seg s → (i ≤ length qs)%nat →
  negb (lastPos s <? i)%nat && (length (key s) =? 0)%nat = true ↔ seg = [].
Proof.
  intros [] Hi. split.
  - intros [H1 H2]%andb_prop. apply negb_true_iff, Nat.ltb_ge in H1. apply Nat.eqb_eq, nil_length_inv in H2.
    apply unplus_nil. rewrite <- ik_key0, H2. replace (lastPos s) with i by lia. by rewrite slice_nil.
  - intros ->. apply app_nil in ik_key0 as [-> Hs]. apply andb_true_intro. split; [|done].
    apply negb_true_iff, Nat.ltb_ge. apply (f_equal length) in Hs. unfold slice in Hs.
    rewrite length_take, length_drop in Hs. simpl in Hs. lia.
Qed.

Lemma add_piece_key i seg s :
  in_key i seg s → seg ≠ [] →
  addKeyVal decode (obj s) (unplus seg) [] (keyEncoded s) (valEncoded s) = add_piece b (obj s) seg.
Proof.
  intros [] Hne. unfold add_piece. destruct seg as [|c seg]; [done|]. rewrite cut_key by done. cbn [fst snd].
  apply (add_key_val _ _ [] _ _ (encodeCheck s) 0); try done; [by constructor|by apply seen_nil].
Qed.
Lemma add_piece_value i k v s :
  in_value i k v s →
  addKeyVal decode (obj s) (unplus k) (unplus v) (keyEncoded s) (valEncoded s) =
  add_piece b (obj s) (k ++ b :: v).
Proof.
  intros [? ? ? ? ? ? ? ? [e He] ?]. unfold add_piece. destruct (k ++ b :: v) as [|x l] eqn:E; [by destruct k|].
  rewrite <- E, cut_both by done. by eapply add_key_val.
Qed.

(** The end of a separator adds the piece. *)
Lemma end_pair_ok i seg s :
  in_piece i seg s → (i ≤ length qs)%nat →
  ∃ f, end_pair [b] decode qs i s =
       (m ← add_piece b (obj s) seg; Ok (if pairs s - 1 =? 0 then Return m else Go (f m))) ∧
       ∀ m, in_piece (i + 1) [] (f m) ∧ obj (f m) = m ∧ pairs (f m) = pairs s - 1.
Proof.
  intros Hp Hi. unfold end_pair.
  assert (Hnew : ∀ m n, in_piece (i + 1) [] (mkP (i + 1) 0 0 [] [] (customDecode decode) (customDecode decode) 0 n m)).
  { intros m n. left. split; simpl; try done; [by rewrite slice_nil|set_solver|by constructor|apply seen_start|].
    by destruct decode. }
  destruct Hp as [Hk|(k & v & -> & Hv)].
  - pose proof Hk as []. rewrite ik_eq0, ik_sep0, Nat.sub_0_r. cbn [length Nat.ltb Nat.leb andb].
    pose proof (piece_empty i seg s Hk Hi) as He. destruct (negb _ && _).
    + pose proof (proj1 He eq_refl) as ->. exists (λ m, mkP (i + 1) 0 0 (key s) (val s) (keyEncoded s) (valEncoded s)
        (encodeCheck s) (pairs s - 1) m). split; [simpl; by case_match|]. intros m. split; [|done]. left.
      apply app_nil in ik_key0 as [Hk0 _]. split; simpl; try done.
      by rewrite Hk0, slice_nil.
    + exists (λ m, mkP (i + 1) 0 0 [] [] (customDecode decode) (customDecode decode) 0 (pairs s - 1) m).
      split; [|auto]. rewrite grab_eq, ik_key0, ik_val0 by done.
      rewrite (add_piece_key i) by (done || by intros E; apply He in E).
      destruct (add_piece _ _ _); [|done..]. rewrite !bind_ok. by case_match.
  - pose proof Hv as []. rewrite iv_eq0, iv_sep0, Nat.sub_0_r. cbn [length Nat.ltb Nat.leb andb].
    exists (λ m, mkP (i + 1) 0 0 [] [] (customDecode decode) (customDecode decode) 0 (pairs s - 1) m).
    split; [|auto]. rewrite grab_eq, iv_val0, iv_key0 by done. rewrite (add_piece_value i) by done.
    destruct (add_piece _ _ _); [|done..]. rewrite !bind_ok. by case_match.
Qed.

Lemma parse_end_ok seg s :
  in_piece (length qs) seg s → parse_end [a] [b] decode qs s = add_piece b (obj s) seg.
Proof.
  intros [Hk|(k & v & -> & Hv)]; unfold parse_end.
  - pose proof Hk as []. rewrite ik_eq0, ik_sep0, ik_val0. change (0 <? length [b])%nat with true. cbn [andb Nat.eqb].
    pose proof (piece_empty _ seg s Hk ltac:(done)) as He. destruct (Nat.ltb_spec (lastPos s) (length qs)).
    + rewrite <- slice_all, ik_key0. apply (add_piece_key (length qs)); [done|].
      intros E. by apply He in E.
    + destruct (length (key s) =? 0)%nat; [by rewrite (proj1 He)|].
      replace (lastPos s) with (length qs) in ik_key0 by lia. rewrite slice_nil, app_nil_r in ik_key0.
      rewrite ik_key0. apply (add_piece_key (length qs)); [done|]. intros E. by apply He in E.
  - pose proof Hv as []. rewrite iv_eq0, iv_sep0, iv_key0.
    change (1 <? length [b])%nat with false. change (0 <? length [a])%nat with true. cbn [andb Nat.eqb].
    rewrite <- (add_piece_value (length qs)) by done. case_match eqn:E; [by rewrite <- slice_all, iv_val0|].
    apply Nat.ltb_ge in E. replace (lastPos s) with (length qs) in iv_val0 by lia.
    rewrite slice_nil, app_nil_r in iv_val0. by rewrite iv_val0.
Qed.

Lemma parse_loop_ok rest i seg s :
  drop i qs = rest → (i ≤ length qs)%nat → in_piece i seg s →
  (t ← parse_loop [a] [b] decode qs i rest s;
   match t with Return m => Ok m | Go s => parse_end [a] [b] decode qs s end) =
  add_pieces b (obj s) (limit (pairs s) (after seg (split_on a rest))).
Proof.
  revert i seg s. induction rest as [|c rest IH]; intros i seg s Hd Hi Hp; cbn [parse_loop].
  { apply drop_nil in Hd. assert (i = length qs) as -> by lia. rewrite bind_ok, (parse_end_ok seg) by done.
    simpl. rewrite limit_cons, app_nil_r. replace (if _ =? 0 then [] else _) with (@nil jstring).
    2: { unfold limit. by repeat case_match; rewrite ?take_nil. }
    cbn [add_pieces]. by destruct (add_piece b (obj s) seg). }
  destruct (drop_cons _ _ _ _ Hd) as [Hc Hd']. pose proof (lookup_lt_Some _ _ _ Hc) as Hlt.
  destruct (decide (c = a)) as [->|Ha].
  - assert (Hsep : sepIdx s = 0%nat) by (destruct Hp as [[]|(k & v & _ & [])]; done).
    unfold parse_code at 1. rewrite Hsep, decide_True by done. cbn [length Nat.eqb Nat.add].
    destruct (end_pair_ok i seg s Hp Hi) as (f & -> & Hf). cbn [split_on]. rewrite decide_True by done.
    cbn [after]. rewrite app_nil_r, limit_cons. cbn [add_pieces].
    destruct (add_piece b (obj s) seg) as [m| |]; [|done..]. rewrite !bind_ok. destruct (Hf m) as (Hm1 & Hm2 & Hm3).
    destruct (pairs s - 1 =? 0); [done|]. rewrite (IH (i + 1)%nat [] (f m)), Hm2, Hm3 by (done || lia).
    by destruct (split_on a rest) eqn:E; [destruct rest; simpl in E; repeat case_match|].
  - destruct (parse_code_ok i c seg s Hc Ha Hp) as (s' & -> & Hp' & <- & <-). rewrite bind_ok.
    rewrite (IH (i + 1)%nat (seg ++ [c]) s') by (done || lia). by rewrite after_cons.
Qed.
End Loop.

(** The parser adds the decoded keys and values of the pieces, up to the limit. *)
Lemma parse_from_ok a b qs n :
  (decode = None → ascii qs) →
  parse_from [a] [b] decode qs n = add_pieces b ∅ (limit n (split_on a qs)).
Proof.
  intros Hqs. unfold parse_from. rewrite (parse_loop_ok a b qs Hqs qs 0 []); simpl; try done; try lia.
  - by destruct (split_on a qs) eqn:E; [destruct qs; simpl in E; repeat case_match|].
  - left. split; simpl; try done; [set_solver|by constructor|apply seen_start|by destruct decode].
Qed.
End Reference.

(** C26. The index arithmetic, flags and counters of [parse] are only an
    optimisation: for any one-unit separators, any [maxKeys] and any decoder,
    and ASCII input when the decoder is the built-in one, the result is that of
    cutting the query at the separator, taking the first [maxKeys] pieces,
    cutting each at its first [eq], turning [+] into a space, decoding both
    sides, and adding the value to the key. *)
Theorem parse_reference qs sep eq maxKeys decode a b :
  or_default sep [38] = [a] → or_default eq [61] = [b] → (decode = None → ascii qs) →
  parse (Some qs) sep eq maxKeys decode =
  add_pieces decode b ∅ (limit (default 1000 maxKeys) (split_on a qs)).
Proof.
  intros Ha Hb Hqs. unfold parse. rewrite Ha, Hb. destruct qs as [|c qs].
  - simpl. rewrite limit_cons. simpl. case_match; [done|]. unfold limit. case_match; by rewrite ?take_nil.
  - rewrite parse_from_ok by done. destruct maxKeys as [n|]; [|done]. unfold limit. simpl.
    destruct (0 <? n) eqn:E; [by rewrite E|done].
Qed.

(** * Printing and parsing *)

Lemma from_utf16_inv us s :
  Forall u16_ok us → from_utf16 us = Some s → encode_utf16 s = us ∧ Forall (λ c, is_scalar c = true) s.
Proof.
  remember (length us) as n eqn:Hn. revert us s Hn. induction n as [n IH] using lt_wf_ind.
  intros [|u r] s -> Hu Hs; [by simplify_eq/=|]. inversion Hu as [|? ? Hu0 Hr]; subst. simpl in Hs.
  destruct (is_lead u) eqn:Hl.
  - destruct r as [|v r]; [done|]. destruct (is_trail v) eqn:Ht; [|done].
    apply fmap_Some in Hs as (s' & Hs' & ->). inversion Hr as [|? ? Hv Hr']; subst.
    destruct (IH (length r) ltac:(simpl; lia) r s' eq_refl Hr' Hs') as [E Hsc].
    rewrite encode_utf16_cons, E. unfold encode_utf16_char, combine_surrogates, is_lead, is_trail in *. bool_to_prop.
    rewrite (proj2 (Z.ltb_ge _ _)) by lia. split; [simpl; repeat f_equal; dlia|].
    constructor; [|done]. unfold is_scalar, is_surrogate.
    rewrite (proj2 (Z.leb_le _ _)), (proj2 (Z.leb_le _ 1114111)), (proj2 (Z.leb_gt _ 57343)), andb_false_r by lia.
    done.
  - destruct (is_trail u) eqn:Ht; [done|]. apply fmap_Some in Hs as (s' & Hs' & ->).
    destruct (IH (length r) ltac:(simpl; lia) r s' eq_refl Hr Hs') as [E Hsc].
    rewrite encode_utf16_cons, E. unfold encode_utf16_char, u16_ok in *.
    rewrite (proj2 (Z.ltb_lt _ _)) by lia. split; [done|]. constructor; [|done].
    unfold is_scalar, is_surrogate, is_lead, is_trail in *. apply andb_true_intro. split.
    + rewrite (proj2 (Z.leb_le _ _)), (proj2 (Z.leb_le _ _)) by lia. done.
    + apply negb_true_iff, andb_false_iff. apply andb_false_iff in Hl as [Hl|Hl], Ht as [Ht|Ht]; bool_to_prop;
        first [left; apply Z.leb_gt; lia|right; apply Z.leb_gt; lia].
Qed.

(** The code units of an escape. *)
Definition unreserved (c : Z) : Prop := 0 ≤ c ∧ at_ noEscape c = Some 1.

Lemma esc_units s :
  Forall (λ c, is_scalar c = true) s → Forall (λ c, unreserved c ∨ c = 37) (esc s).
Proof.
  induction 1 as [|c s Hc Hs IH]; [constructor|]. rewrite esc_cons. apply Forall_app. split; [|done].
  unfold esc_char. case_bool_decide as Hn.
  { repeat constructor; [|done]. unfold is_scalar in Hc. by bool_to_prop. }
  pose proof (encode_char_u8 c Hc) as Hu. induction Hu as [|x l Hx _ IHl]; [constructor|].
  assert (Hd : ∀ n, 0 ≤ n < 16 → unreserved (hex_digit n)).
  { intros n Hn'. assert (bool_decide (0 ≤ hex_digit n ∧ at_ noEscape (hex_digit n) = Some 1) = true) as Hb.
    { revert n Hn'. by apply forall_range. } by apply bool_decide_eq_true in Hb. }
  unfold u8_ok in Hx. simpl. constructor; [by right|]. constructor; [left; apply Hd; dlia|].
  constructor; [left; apply Hd; dlia|]. exact IHl.
Qed.

Lemma esc_free s c :
  Forall (λ c, is_scalar c = true) s → at_ noEscape c ≠ Some 1 → c ≠ 37 → c ∉ esc s.
Proof.
  intros Hs Hc H37 Hin. pose proof (esc_units s Hs) as Hu. rewrite Forall_forall in Hu.
  destruct (Hu c Hin) as [[_ ?]|?]; done.
Qed.

(** A string of well-formed UTF-16, and the escape of its characters. *)
Definition text_ok (s : jstring) : Prop := Forall u16_ok s ∧ from_utf16 s ≠ None.
Definition etext (s : jstring) : jstring := esc (default [] (from_utf16 s)).

Lemma text_chars s : text_ok s →
  from_utf16 s = Some (default [] (from_utf16 s)) ∧ encode_utf16 (default [] (from_utf16 s)) = s ∧
  Forall (λ c, is_scalar c = true) (default [] (from_utf16 s)).
Proof.
  intros [Hu Hs]. destruct (from_utf16 s) as [t|] eqn:E; [|done]. split; [done|]. by apply from_utf16_inv.
Qed.

Lemma esc_unreserved s : Forall unreserved s → esc s = s.
Proof.
  induction 1 as [|c s [_ Hc] _ IH]; [done|]. rewrite esc_cons, IH. unfold esc_char.
  by rewrite bool_decide_true.
Qed.
Lemma from_utf16_unreserved s : Forall unreserved s → from_utf16 s = Some s.
Proof.
  induction 1 as [|c s [Hz Hc] _ IH]; [done|]. pose proof (noEscape_ascii c Hc Hz). simpl. rewrite IH.
  unfold is_lead, is_trail. by rewrite (proj2 (Z.leb_gt 55296 c)), (proj2 (Z.leb_gt 56320 c)) by lia.
Qed.

(** A value whose text is well formed; a number below 1e21 and a bigint, which
    are printed as they are, have texts of unreserved code units. *)
Definition prim_ok (v : prim) : Prop :=
  match v with
  | PString s | PNumber true false s => text_ok s
  | PNumber true true s | PBigint s => Forall unreserved s
  | _ => True
  end.

Lemma unreserved_ok s : Forall unreserved s → text_ok s ∧ etext s = s.
Proof.
  intros Hs. unfold etext, text_ok. rewrite from_utf16_unreserved by done. split; [|by apply esc_unreserved].
  split; [|done]. apply (Forall_impl _ _ _ Hs). intros c [Hz Hc]. pose proof (noEscape_ascii c Hc Hz).
  unfold u16_ok. lia.
Qed.

Lemma prim_text_ok v : prim_ok v → text_ok (stringifyPrimitive v).
Proof.
  destruct v as [s|[] [] s|s|[]|]; simpl; try done; try (by intros [? _]%unreserved_ok).
  all: intros _; apply unreserved_ok; unfold unreserved; apply (bool_decide_unpack _); by vm_compute.
Qed.

Lemma convert_ok v : prim_ok v → convert None v = Ok (etext (stringifyPrimitive v)).
Proof.
  intros Hv. pose proof (prim_text_ok v Hv) as Ht. destruct (text_chars _ Ht) as (Hc & _ & _).
  destruct Ht as [Hu _]. unfold convert, etext.
  destruct v as [s|[] [] s|s|[]|]; simpl in *; try done.
  - destruct s as [|c s]; [done|]. by apply qs_escape_ok.
  - by rewrite from_utf16_unreserved, esc_unreserved.
  - by apply qs_escape_ok.
  - by rewrite from_utf16_unreserved, esc_unreserved.
Qed.

(** ** The pieces of a printed object *)

Definition value_items (v : value) : list prim := match v with Prim p => [p] | Arr l => l end.
Definition field_pairs (f : jstring * value) : list (jstring * prim) := pair f.1 <$> value_items f.2.
Definition obj_pairs (obj : list (jstring * value)) : list (jstring * prim) := mjoin (field_pairs <$> obj).
Definition pair_ok (p : jstring * prim) : Prop := text_ok p.1 ∧ prim_ok p.2.
Definition piece_of (p : jstring * prim) : jstring := etext p.1 ++ [61] ++ etext (stringifyPrimitive p.2).

Lemma pieces_nonempty ps : Forall (λ q, q ≠ []) (piece_of <$> ps).
Proof. apply Forall_fmap, Forall_true. intros p. unfold piece_of. simpl. by destruct (etext p.1). Qed.

Lemma items_ok k vs ps j :
  Forall prim_ok vs → ps ≠ [] → j ≠ 0%nat →
  stringify_items [38] None (etext k ++ [61]) j vs (join_pieces (piece_of <$> ps)) =
  Ok (join_pieces (piece_of <$> ps ++ (pair k <$> vs))).
Proof.
  intros Hvs. revert ps j. induction Hvs as [|v vs Hv Hvs IH]; intros ps j Hps Hj.
  { simpl. by rewrite app_nil_r. }
  cbn [stringify_items]. rewrite (proj2 (Nat.eqb_neq _ _) Hj), convert_ok, bind_ok by done.
  assert (Hadd : join_pieces (piece_of <$> ps ++ [(k, v)]) =
    (join_pieces (piece_of <$> ps) ++ [38]) ++ (etext k ++ [61]) ++ etext (stringifyPrimitive v)).
  { rewrite fmap_app. simpl. rewrite join_snoc by apply pieces_nonempty. unfold piece_of at 2. simpl.
    rewrite <- (app_assoc (etext k)). f_equal. unfold add_sep.
    destruct (join_pieces (piece_of <$> ps)) eqn:E; [|done]. exfalso.
    destruct ps as [|p ps]; [done|]. revert E. apply join_nonempty.
    exact (Forall_inv (pieces_nonempty (p :: ps))). }
  rewrite <- Hadd, IH by (try lia; by destruct ps). by rewrite <- app_assoc.
Qed.

Lemma fields_ok obj ps :
  Forall pair_ok (obj_pairs obj) → Forall (λ f, text_ok f.1) obj →
  stringify_fields [38] [61] None obj (join_pieces (piece_of <$> ps)) =
  Ok (join_pieces (piece_of <$> ps ++ obj_pairs obj)).
Proof.
  intros Hp Hk. revert ps. induction Hk as [|[k v] obj Hk Hks IH]; intros ps.
  { simpl. by rewrite app_nil_r. }
  change (obj_pairs ((k, v) :: obj)) with (field_pairs (k, v) ++ obj_pairs obj) in *.
  apply Forall_app in Hp as [Hp1 Hp2]. specialize (IH Hp2).
  assert (Hvs : Forall prim_ok (value_items v)).
  { unfold field_pairs in Hp1. simpl in Hp1. rewrite Forall_fmap in Hp1.
    apply (Forall_impl _ _ _ Hp1). by intros ? []. }
  cbn [stringify_fields]. rewrite (convert_ok (PString k)), bind_ok by done. cbn [stringifyPrimitive].
  assert (Hone : ∀ x, add_sep [38] (join_pieces (piece_of <$> ps)) ++
      (etext k ++ [61]) ++ etext (stringifyPrimitive x) = join_pieces (piece_of <$> ps ++ [(k, x)])).
  { intros x. rewrite fmap_app. simpl. rewrite join_snoc by apply pieces_nonempty. unfold piece_of at 3. simpl.
    by rewrite <- !app_assoc. }
  destruct v as [x|[|x vs]].
  - simpl in Hvs. inversion Hvs; subst. rewrite convert_ok, bind_ok, bind_ok, Hone, IH by done.
    by rewrite <- app_assoc.
  - rewrite bind_ok. apply IH.
  - simpl in Hvs. inversion Hvs; subst. cbn [stringify_items Nat.eqb]. rewrite convert_ok, bind_ok, Hone by done.
    rewrite items_ok by (done || by destruct ps). rewrite bind_ok, IH.
    f_equal. f_equal. f_equal. by rewrite <- !app_assoc.
Qed.

Lemma stringify_ok obj :
  Forall pair_ok (obj_pairs obj) → Forall (λ f, text_ok f.1) obj →
  stringify (Some obj) None None None = Ok (join_pieces (piece_of <$> obj_pairs obj)).
Proof. intros. by apply (fields_ok obj []). Qed.

(** ** Reading the pieces *)

Lemma read_piece m p :
  pair_ok p → add_piece None 61 m (piece_of p) = Ok (add_param p.1 (stringifyPrimitive p.2) m).
Proof.
  destruct p as [k v]. intros [Hk Hv%prim_text_ok]. simpl in *.
  destruct (text_chars _ Hk) as (_ & Ek & Hks). destruct (text_chars _ Hv) as (_ & Ev & Hvs).
  unfold add_piece, piece_of. simpl.
  destruct (etext k ++ 61 :: etext (stringifyPrimitive v)) eqn:E; [by destruct (etext k)|]. rewrite <- E.
  rewrite cut_both by (by apply esc_free). cbn [fst snd].
  assert (Hdec : ∀ s, text_ok s → decode_text None (unplus None (etext s)) = Ok s).
  { clear. intros s Hs. destruct (text_chars _ Hs) as (_ & Es & Hss).
    assert (unplus None (etext s) = etext s) as ->.
    { assert (43 ∉ etext s) as Hn by (by apply esc_free). induction (etext s) as [|c l IH]; [done|].
      change (c :: l) with ([c] ++ l). rewrite unplus_app, unplus_single, IH by set_solver. done. }
    unfold decode_text. destruct (etext s) as [|c l] eqn:E.
    - rewrite <- Es. unfold etext in E. destruct (default [] (from_utf16 s)) as [|x t]; [done|].
      rewrite esc_cons in E. inversion Hss; subst. by destruct (esc_head x) as [[Hx _]|[_ [r Hx]]]; rewrite ?Hx in E.
    - rewrite <- E. unfold decodeStr, etext. by rewrite unescape_esc, Es. }
  by rewrite !Hdec.
Qed.

Definition add_params (m : params) (ps : list (jstring * prim)) : params :=
  foldl (λ m p, add_param p.1 (stringifyPrimitive p.2) m) m ps.

Lemma read_pieces m ps :
  Forall pair_ok ps → add_pieces None 61 m (piece_of <$> ps) = Ok (add_params m ps).
Proof.
  intros Hps. revert m. induction Hps as [|p ps Hp Hps IH]; intros m; [done|].
  simpl. by rewrite read_piece, bind_ok, IH.
Qed.

(** What [parse] holds for a key given these values. *)
Definition collect (l : list jstring) : option param :=
  match l with [] => None | [v] => Some (One v) | _ => Some (Many l) end.
Definition texts (k : jstring) (ps : list (jstring * prim)) : list jstring :=
  (λ p, stringifyPrimitive p.2) <$> filter (λ p, p.1 = k) ps.

Lemma add_param_collect m k v k' l :
  m !! k' = collect l →
  add_param k v m !! k' = collect (l ++ (if decide (k = k') then [v] else [])).
Proof.
  intros Hl. unfold add_param. case_decide as E.
  - subst k'. rewrite lookup_insert_eq, Hl. by destruct l as [|x [|y l]].
  - by rewrite lookup_insert_ne, app_nil_r.
Qed.

Lemma add_params_collect ps m k l :
  m !! k = collect l → add_params m ps !! k = collect (l ++ texts k ps).
Proof.
  revert m l. induction ps as [|p ps IH]; intros m l Hl; [by rewrite app_nil_r|]. cbn [add_params foldl].
  fold (add_params (add_param p.1 (stringifyPrimitive p.2) m) ps).
  rewrite (IH _ _ (add_param_collect m p.1 (stringifyPrimitive p.2) k l Hl)). f_equal.
  unfold texts. rewrite filter_cons, <- app_assoc. by case_decide.
Qed.

Lemma etext_ascii s : text_ok s → ascii (etext s).
Proof.
  intros Hs. destruct (text_chars _ Hs) as (_ & _ & Hc). apply (Forall_impl _ _ _ (esc_units _ Hc)).
  intros c [[Hz Hn]| ->]; [|lia]. pose proof (noEscape_ascii c Hn Hz). lia.
Qed.

Lemma pieces_text ps :
  Forall pair_ok ps → ascii (join_pieces (piece_of <$> ps)) ∧ Forall (λ p, 38 ∉ p) (piece_of <$> ps).
Proof.
  intros Hps. assert (Hpiece : ∀ p, pair_ok p → ascii (piece_of p) ∧ 38 ∉ piece_of p).
  { intros p [Hk Hv%prim_text_ok]. unfold piece_of. simpl. split.
    - apply Forall_app. split; [by apply etext_ascii|]. constructor; [lia|by apply etext_ascii].
    - destruct (text_chars _ Hk) as (_ & _ & Hks). destruct (text_chars _ Hv) as (_ & _ & Hvs).
      rewrite elem_of_app, elem_of_cons. intros [Hin|[Hin|Hin]]; [|done|]; revert Hin; by apply esc_free. }
  split.
  - induction Hps as [|p ps Hp Hps IH]; [constructor|]. destruct (Hpiece p Hp) as [Ha _].
    destruct ps as [|q ps]; [done|]. apply Forall_app. split; [done|]. constructor; [lia|exact IH].
  - apply Forall_fmap, (Forall_impl _ _ _ Hps). intros p Hp. by destruct (Hpiece p Hp).
Qed.

Lemma parse_pieces ps :
  Forall pair_ok ps → (length ps ≤ 1000)%nat →
  parse (Some (join_pieces (piece_of <$> ps))) None None None None = Ok (add_params ∅ ps).
Proof.
  intros Hp Hlen. destruct (pieces_text ps Hp) as [Ha Hs]. destruct ps as [|p ps]; [done|].
  pose proof (Forall_inv (pieces_nonempty (p :: ps))) as Hne. simpl in Hne.
  pose proof (join_nonempty (piece_of p) (piece_of <$> ps) Hne) as Hj.
  change (piece_of <$> p :: ps) with (piece_of p :: (piece_of <$> ps)) in *.
  unfold parse. destruct (join_pieces _) as [|c t] eqn:E; [done|]. rewrite <- E in *. cbn [or_default].
  rewrite parse_from_ok, split_on_join by done. unfold limit. simpl (0 <? 1000).
  rewrite take_ge by (cbn [length] in *; rewrite length_fmap; lia).
  by apply (read_pieces ∅ (p :: ps)).
Qed.

(** C27. [parse] undoes [stringify]: for an object whose keys and values have
    well-formed texts and at most 1000 values in all, reading what was printed
    gives every key its texts, in order: a string for one value, an array for
    several, and no property for none. *)
Theorem parse_stringify obj :
  Forall (λ f, text_ok f.1) obj → Forall pair_ok (obj_pairs obj) → (length (obj_pairs obj) ≤ 1000)%nat →
  ∃ text m, stringify (Some obj) None None None = Ok text ∧
    parse (Some text) None None None None = Ok m ∧
    ∀ k, m !! k = collect (texts k (obj_pairs obj)).
Proof.
  intros Hk Hp Hlen. eexists _, (add_params ∅ (obj_pairs obj)). split; [by apply stringify_ok|].
  split; [|intros k; by apply (add_params_collect _ ∅ k [])].
  by apply parse_pieces.
Qed.
End Unescape.
