(* ===== verification/QuerystringRef.v ===== *)
(** Runs of node:querystring with the reference codecs: applications of the
    theorems of [QuerystringProofs], and texts the code treats specially. *)

From S2P Require Import Prelude Unicode Encoding IncrementalDecoder CodecRef Querystring QuerystringProofs.

(** [a=1&b=%C3%A9+x&a=2&&=], of which four pieces are read. *)
Lemma parse_reference_witness :
  parse (Some (bs "a=1&b=%C3%A9+x&a=2&&=")) None None (Some 4) None =
  add_pieces None 61 ∅ (limit 4 (split_on 38 (bs "a=1&b=%C3%A9+x&a=2&&="))).
Proof.
  apply parse_reference; [done..|]. intros _. apply (bool_decide_unpack _). by vm_compute.
Defined.

(** The object [{ a: ['1', 2], 'é&': '=', none: [] }]. *)
Definition sample_obj : list (jstring * value) :=
  [(bs "a", Arr [PString (bs "1"); PNumber true true (bs "2")]);
   ([233; 38], Prim (PString [61]));
   (bs "none", Arr [])].

Lemma parse_stringify_witness :
  ∃ text m, stringify (Some sample_obj) None None None = Ok text ∧
    parse (Some text) None None None None = Ok m ∧
    m !! bs "a" = Some (Many [bs "1"; bs "2"]) ∧ m !! [233; 38] = Some (One [61]) ∧ m !! bs "none" = None.
Proof.
  destruct (parse_stringify sample_obj) as (text & m & Ht & Hm & Hk).
  - repeat constructor; simpl; try done; apply (bool_decide_unpack _); by vm_compute.
  - repeat constructor; simpl; try done; try (apply (bool_decide_unpack _); by vm_compute).
  - by vm_compute; lia.
  - exists text, m. rewrite !Hk. split_and!; [exact Ht|exact Hm|by vm_compute..].
Defined.

(** A lone surrogate is escaped as half of a pair: with the unit after it,
    whatever that is, and with an exception at the end of the text. *)
Example lone_surrogate :
  qsEscape [55296; 65] = Ok (bs "%F0%90%81%81") ∧ qsEscape [65; 55296] = Err (bs "URI malformed").
Proof. by vm_compute. Qed.

(** A stray [%] makes [unescape] read the code units as bytes, and the
    non-ASCII ones are lost. *)
Example stray_percent :
  qsUnescape [233; 32; 37] None = Ok [65533; 32; 37] ∧ qsUnescape [233; 32] None = Ok [233; 32].
Proof. by vm_compute. Qed.
