(* ===== verification/Url.v ===== *)
(** [URL], [URLSearchParams] and node:url
    ([modules/raster_runtime_url/src/lib.rs], [url_class.rs] and
    [url_search_params.rs]).

    The parser and the serializer are those of the [url] crate: [UrlLib] has
    what the code calls, [UrlLaws] what the crate documents of it.  A [URL] and
    its [URLSearchParams] share one [Rc<RefCell<Url>>]: the cell is part of the
    state, with the count of its borrows, and a conflicting borrow panics. *)

From S2P Require Import Prelude Unicode Querystring QuerystringProofs.

(** * The [url] crate *)

(** The components [quirks] reads and writes. *)
Inductive component :=
  | Hash | Host | Hostname | Href | Origin | Password | Pathname | Port | Protocol | Search | Username.

Abbreviation pairs_of := (list (rstring * rstring)) (only parsing).

Class UrlLib := {
  Url : Type;
  url_parse : rstring → option Url;
  join : Url → rstring → option Url;
  scheme : Url → rstring;
  path : Url → rstring;
  fragment : Url → option rstring;
  query : Url → option rstring;
  set_path : rstring → Url → Url;
  query_pairs : Url → pairs_of;
  (** [query_pairs_mut().append_pair], [.extend_pairs], [.clear().extend_pairs]. *)
  append_pair : rstring → rstring → Url → Url;
  extend_pairs : pairs_of → Url → Url;
  replace_pairs : pairs_of → Url → Url;
  (** [set_query(None)]. *)
  no_query : Url → Url;
  quirks_get : component → Url → rstring;
  quirks_set : component → rstring → Url → Url;
  (** [form_urlencoded::byte_serialize]. *)
  byte_serialize : list Z → rstring;
  domain_to_unicode : rstring → rstring;
  (** [to_file_path] and [from_file_path]. *)
  to_file_path : Url → option rstring;
  from_file_path : rstring → option Url
}.

(** The form encoding of the URL standard, which the crate implements. *)
Definition form_plain (b : Z) : bool :=
  ((48 <=? b) && (b <=? 57)) || ((65 <=? b) && (b <=? 90)) || ((97 <=? b) && (b <=? 122)) ||
  (b =? 42) || (b =? 45) || (b =? 46) || (b =? 95).
Definition form_byte (b : Z) : rstring :=
  if form_plain b then [b] else if b =? 32 then [43] else hexTable b.
Definition form_text (bytes : list Z) : rstring := mjoin (form_byte <$> bytes).
Definition form_decode (s : rstring) : rstring := from_utf8_lossy (unescape_ref true s).
Definition form_pair (piece : rstring) : rstring * rstring :=
  (form_decode (cut 61 piece).1, form_decode (cut 61 piece).2).
Definition form_pairs (q : rstring) : pairs_of :=
  form_pair <$> filter (λ p, p ≠ []) (split_on 38 q).

(** The text of a query the serializer makes. *)
Definition query_char (c : Z) : bool :=
  form_plain c || (c =? 37) || (c =? 38) || (c =? 43) || (c =? 61).

Definition example_url : rstring := bs "http://example.com".

Class UrlLaws `{UrlLib} := {
  byte_serialize_form : ∀ bytes, byte_serialize bytes = form_text bytes;
  query_pairs_form : ∀ u q, query u = Some q → forallb (λ c, (0 <=? c) && (c <? 128)) q = true →
    query_pairs u = form_pairs q;
  no_query_pairs : ∀ u, query_pairs (no_query u) = [];
  append_pairs : ∀ u k v, query_pairs (append_pair k v u) = query_pairs u ++ [(k, v)];
  extend_pairs_law : ∀ u ps, query_pairs (extend_pairs ps u) = query_pairs u ++ ps;
  replace_pairs_law : ∀ u ps, query_pairs (replace_pairs ps u) = ps;
  set_path_pairs : ∀ u p, query_pairs (set_path p u) = query_pairs u;
  example_parses : ∃ u, url_parse example_url = Some u ∧ query_pairs u = [];
  (** Joining a query that has nothing to encode. *)
  join_query : ∀ u q, url_parse example_url = Some u → forallb query_char q = true →
    ∃ u', join u (63 :: q) = Some u' ∧ query u' = Some q;
  join_total : ∀ u q, url_parse example_url = Some u → join u (63 :: q) ≠ None
}.

Section Url.
Context `{UrlLib}.

(** * [lib.rs] *)

Definition special_schemes : list rstring :=
  [bs "file"; bs "ftp"; bs "http"; bs "https"; bs "ws"; bs "wss"].

Definition convert_trailing_space (u : Url) : Url :=
  if bool_decide (scheme u ∈ special_schemes) then u
  else
    let has_remaining := bool_decide (is_Some (fragment u)) || bool_decide (is_Some (query u)) in
    if bool_decide (last (path u) = Some 32) && has_remaining
    then set_path (take (length (path u) - 1) (path u) ++ bs "%20") u
    else u.

(** The scan of the bytes of the path from [i]; POSIX. *)
Fixpoint scan_separators (fuel : nat) (bytes : list Z) (i : nat) : bool :=
  match fuel with
  | O => false
  | S fuel =>
      if (i + 2 <? length bytes)%nat then
        let at_ j := default 0 (bytes !! j) in
        if (at_ i =? 37) && ((at_ (i + 1)%nat =? 50) && (Z.lor (at_ (i + 2)%nat) 32 =? 102)) then true
        else scan_separators fuel bytes (i + 1)
      else false
  end.

Definition reject_encoded_path_separators (u : Url) : res rstring () :=
  let bytes := to_utf8 (path u) in
  if scan_separators (length bytes) bytes 0
  then Err (bs "File URL path must not include encoded / characters") else Ok ().

Definition file_path_from_url (u : Url) : res rstring rstring :=
  if bool_decide (scheme u ≠ bs "file") then Err (bs "The URL must be of scheme file")
  else
    _ ← reject_encoded_path_separators u;
    or_err (to_file_path u) (bs "File URL path must be absolute").

(** [fileURLToPath] of a [URL] or of a text. *)
Definition file_url_to_path (url : Url + rstring) : res rstring rstring :=
  parsed ← match url with
    | inl u => Ok u
    | inr text => or_err (url_parse text) (bs "Invalid URL")
    end;
  file_path_from_url parsed.

Definition path_to_file_url (p : rstring) : res rstring Url :=
  or_err (from_file_path p) (bs "Path is not absolute: " ++ p).

Record format_options := mkFormat { unicode : bool; auth : bool; include_fragment : bool; search : bool }.

Definition url_format (u : Url) (o : format_options) : rstring :=
  let string := quirks_get Protocol u ++ bs "//" in
  let username := quirks_get Username u in
  let password := quirks_get Password u in
  let string :=
    if auth o then
      match username with
      | [] => string
      | _ => string ++ username ++ (match password with [] => [] | _ => [58] ++ password end) ++ [64]
      end
    else string in
  let string := string ++ (if unicode o then domain_to_unicode (quirks_get Host u) else quirks_get Host u) in
  let string := string ++ quirks_get Pathname u in
  let string := if search o then string ++ quirks_get Search u else string in
  if include_fragment o then string ++ quirks_get Hash u else string.

(** * [url_class.rs] *)

(** A colon with no closing bracket after the last one. *)
Definition has_colon_delimiter (hostname : rstring) : bool :=
  match rfind_pos (λ c, c =? 58) hostname with
  | Some last_colon_index => bool_decide (93 ∉ drop last_colon_index hostname)
  | None => false
  end.

(** The base argument: absent or undefined, null, with a text (a string, the
    [href] of an object or what the value is coerced to), or with none. *)
Inductive base_arg := NoBase | NullBase | BaseText (base : rstring) | BaseOther.

(** The crate's description of a parse error is left out of the messages. *)
Definition url_new (input : option rstring) (base : base_arg) : res rstring Url :=
  match base with
  | NullBase => Err (bs "Invalid URL")
  | BaseText base =>
      u ← or_err (url_parse base) (bs "Invalid base URL");
      match input with
      | Some input => or_err (join u input) (bs "Invalid URL")
      | None => Ok u
      end
  | NoBase | BaseOther =>
      match input with
      | Some input => or_err (url_parse input) (bs "Invalid URL")
      | None => Err (bs "Invalid URL")
      end
  end.
Definition can_parse (input : option rstring) (base : base_arg) : bool := res_ok (url_new input base).
(** [URL.parse]: null instead of an exception. *)
Definition parse_or_null (input : option rstring) (base : base_arg) : option Url :=
  match url_new input base with Ok u => Some u | _ => None end.

(** The fields of the object, in the order they are set. *)
Definition url_to_http_options (u : Url) : pairs_of :=
  let nonempty k v := match v with [] => [] | _ => [(k, v)] end in
  [(bs "protocol", quirks_get Protocol u); (bs "hostname", quirks_get Hostname u)] ++
  nonempty (bs "hash") (default [] (fragment u)) ++
  nonempty (bs "search") (quirks_get Search u) ++
  [(bs "pathname", quirks_get Pathname u);
   (bs "path", quirks_get Pathname u ++ quirks_get Search u);
   (bs "href", quirks_get Href u)] ++
  (match quirks_get Username u with
   | [] => []
   | username => [(bs "auth", username ++ [58] ++ quirks_get Password u)]
   end) ++
  nonempty (bs "port") (quirks_get Port u).

(** The setters; [port] keeps its value for null, undefined and negative
    integers, which are [None]. *)
Definition set_component (c : component) (v : option rstring) (u : Url) : Url :=
  let u := convert_trailing_space u in
  match c, v with
  | Hostname, Some v => if has_colon_delimiter v then u else quirks_set c v u
  | Origin, _ => u
  | _, Some v => quirks_set c v u
  | _, None => u
  end.

(** * [url_search_params.rs] *)

Definition to_pair_array (l : list (option (rstring * rstring))) : res rstring pairs_of :=
  foldr (λ p acc, p ← or_err p (bs "Invalid tuple: Each query pair must be an iterable [name, value] tuple");
                  acc ← acc; Ok (p :: acc)) (Ok []) l.

(** The argument of the constructor: a string, an array of tuples or what
    [Array.from] makes of an iterable, the properties of another object, or
    something else. *)
Inductive init_arg :=
  | InitString (s : rstring)
  | InitArray (l : list (option (rstring * rstring)))
  | InitObject (ps : pairs_of)
  | InitOther.

Definition params_from_str (q : rstring) : res rstring Url :=
  let q := match q with 63 :: _ => q | _ => 63 :: q end in
  u ← or_panic (url_parse example_url);
  or_panic (join u q).
Definition params_from_pairs (ps : pairs_of) : res rstring Url :=
  u ← or_panic (url_parse example_url);
  Ok (extend_pairs ps u).
Definition params_new (init : init_arg) : res rstring Url :=
  match init with
  | InitString s => params_from_str s
  | InitArray l => ps ← to_pair_array l; params_from_pairs ps
  | InitObject ps => params_from_pairs ps
  | InitOther => or_panic (url_parse example_url)
  end.

Definition size (u : Url) : nat := length (query_pairs u).

Definition append (k v : rstring) (u : Url) : Url := append_pair k v (convert_trailing_space u).

Definition delete (k : rstring) (value : option rstring) (u : Url) : Url :=
  let u := convert_trailing_space u in
  let keep p := match value with
    | Some value => negb (bool_decide (p.1 = k) && bool_decide (p.2 = value))
    | None => bool_decide (p.1 ≠ k)
    end in
  match filter (λ p, keep p = true) (query_pairs u) with
  | [] => no_query u
  | new_pairs => replace_pairs new_pairs u
  end.

Definition get (k : rstring) (u : Url) : option rstring :=
  snd <$> List.find (λ p, bool_decide (p.1 = k)) (query_pairs u).
Definition get_all (k : rstring) (u : Url) : list rstring :=
  omap (λ p, if decide (p.1 = k) then Some p.2 else None) (query_pairs u).
Definition has (k : rstring) (value : option rstring) (u : Url) : bool :=
  existsb (λ p, match value with
    | Some value => bool_decide (p.1 = k) && bool_decide (p.2 = value)
    | None => bool_decide (p.1 = k)
    end) (query_pairs u).
Definition keys (u : Url) : list rstring := fst <$> query_pairs u.
Definition values (u : Url) : list rstring := snd <$> query_pairs u.

(** [if uniques.insert(pair.clone()) { new_query_pairs.push(pair) }]. *)
Definition push_unique (new_query_pairs : pairs_of) (pair : rstring * rstring) : pairs_of :=
  if decide (pair ∈ new_query_pairs) then new_query_pairs else new_query_pairs ++ [pair].

Definition set (k v : rstring) (u : Url) : Url :=
  let u := convert_trailing_space u in
  let updated := (λ p, (p.1, if decide (p.1 = k) then v else p.2)) <$> query_pairs u in
  replace_pairs (push_unique (foldl push_unique [] updated) (k, v)) u.

(** [a.cmp(b)] of two strings: the order of their bytes. *)
Fixpoint bytes_le (a b : list Z) : bool :=
  match a, b with
  | [], _ => true
  | _ :: _, [] => false
  | x :: a, y :: b => if x <? y then true else if y <? x then false else bytes_le a b
  end.
Definition key_le (p q : rstring * rstring) : bool := bytes_le (to_utf8 p.1) (to_utf8 q.1).

(** [sort_by] is stable. *)
Fixpoint insert_pair (p : rstring * rstring) (l : pairs_of) : pairs_of :=
  match l with
  | [] => [p]
  | q :: l => if key_le p q then p :: q :: l else q :: insert_pair p l
  end.
Definition sort_pairs (l : pairs_of) : pairs_of := foldr insert_pair [] l.

Definition sort (u : Url) : Url :=
  match sort_pairs (query_pairs u) with
  | [] => no_query u
  | new_pairs => replace_pairs new_pairs u
  end.

Definition serialize_pair (acc : rstring) (p : rstring * rstring) : rstring :=
  (match acc with [] => [] | _ => acc ++ [38] end) ++
  byte_serialize (to_utf8 p.1) ++ [61] ++ byte_serialize (to_utf8 p.2).
Definition params_to_string (u : Url) : rstring := foldl serialize_pair [] (query_pairs u).

(** [URLSearchParamsIter]: its state is the index, a [u32]; a missing value is
    [done]. *)
Definition iter_next (index : Z) (u : Url) : option (rstring * rstring) * Z :=
  (query_pairs u !! Z.to_nat index, (index + 1) mod 2 ^ 32).

(** ** The shared cell *)

(** [RefCell<Url>] with its number of shared borrows. *)
Record cell := mkCell { inner : Url; borrows : nat }.

(** What JavaScript does to the [URL] or to its parameters; [ForEach] calls
    the callback, itself a list of actions, on each pair. *)
Inductive action :=
  | Append (k v : rstring)
  | Delete (k : rstring) (value : option rstring)
  | Set_ (k v : rstring)
  | Sort_
  | SetComponent (c : component) (v : option rstring)
  | Read       (** [has], [size], [toString], [entries] *)
  | ReadMut    (** [get], [getAll], [keys] and [values] take [&mut self] *)
  | ForEach (callback : rstring * rstring → list action).

(** [conflict] is what the binding layer does when a method that takes the
    parameters mutably is called while [forEach] runs. *)
Section Run.
Context (conflict : res rstring cell).

Definition mutate_params (f : Url → Url) (c : cell) : res rstring cell :=
  if (borrows c =? 0)%nat then Ok (mkCell (f (inner c)) 0) else conflict.

(** [borrow_mut] of the cell panics while it is borrowed. *)
Definition mutate_url (f : Url → Url) (c : cell) : res rstring cell :=
  if (borrows c =? 0)%nat then Ok (mkCell (f (inner c)) 0) else Panic.

Fixpoint act (a : action) (c : cell) : res rstring cell :=
  match a with
  | Append k v => mutate_params (append k v) c
  | Delete k value => mutate_params (delete k value) c
  | Set_ k v => mutate_params (set k v) c
  | Sort_ => mutate_params sort c
  | SetComponent comp v => mutate_url (set_component comp v) c
  | Read => Ok c
  | ReadMut => mutate_params id c
  | ForEach callback =>
      let run := fix run (l : list action) (c : cell) : res rstring cell :=
        match l with [] => Ok c | a :: l => c ← act a c; run l c end in
      (** The borrow lasts until the last call. *)
      c ← foldl (λ r p, c ← r; run (callback p) c) (Ok (mkCell (inner c) (borrows c + 1)))
            (query_pairs (inner c));
      Ok (mkCell (inner c) (borrows c - 1))
  end.

Fixpoint run (l : list action) (c : cell) : res rstring cell :=
  match l with [] => Ok c | a :: l => c ← act a c; run l c end.
End Run.
End Url.
