(* ===== verification/UrlProofs.v ===== *)
(** [URLSearchParams]: its operations are those of the URL standard on the list
    of pairs, its text reads back as the same pairs, and [forEach] is safe as
    long as its callback does not set the [URL]. *)

From S2P Require Import Prelude Unicode Querystring QuerystringProofs Url.

(** * The form encoding *)

Lemma unescape_byte b s : u8_ok b → unescape_ref true (form_byte b ++ s) = b :: unescape_ref true s.
Proof.
  intros Hb. unfold u8_ok in Hb. unfold form_byte. destruct (form_plain b) eqn:Hp.
  - assert (b ≠ 43 ∧ b ≠ 37) as [H43 H37] by (split; intros ->; done).
    cbn [app unescape_ref]. rewrite (proj2 (Z.eqb_neq _ _) H43), (proj2 (Z.eqb_neq _ _) H37). simpl.
    by rewrite Z.mod_small by lia.
  - destruct (Z.eqb_spec b 32) as [->|_]; [done|]. unfold hexTable. cbn [app unescape_ref]. simpl.
    assert (Hd : ∀ n, 0 ≤ n < 16 → 0 ≤ hex_digit n) by (unfold hex_digit; intros; case_match; lia).
    rewrite !unhex_spec, !uri_hex_digit by (try apply Hd; dlia). f_equal. dlia.
Qed.

Lemma unescape_form bytes : Forall u8_ok bytes → unescape_ref true (form_text bytes) = bytes.
Proof.
  induction 1 as [|b bytes Hb _ IH]; [done|].
  change (form_text (b :: bytes)) with (form_byte b ++ form_text bytes). by rewrite unescape_byte, IH.
Qed.

Lemma form_byte_chars b :
  u8_ok b → forallb (λ c, form_plain c || (c =? 37) || (c =? 43)) (form_byte b) = true.
Proof. revert b. apply all_bytes_spec. by vm_compute. Qed.

Lemma form_text_chars bytes :
  Forall u8_ok bytes → forallb (λ c, form_plain c || (c =? 37) || (c =? 43)) (form_text bytes) = true.
Proof.
  induction 1 as [|b bytes Hb _ IH]; [done|].
  change (form_text (b :: bytes)) with (form_byte b ++ form_text bytes).
  by rewrite forallb_app, form_byte_chars, IH.
Qed.

Lemma form_text_free bytes c :
  Forall u8_ok bytes → form_plain c || (c =? 37) || (c =? 43) = false → c ∉ form_text bytes.
Proof.
  intros Hb Hc Hin. pose proof (form_text_chars bytes Hb) as Hf. rewrite forallb_forall in Hf.
  apply list_elem_of_In, Hf in Hin. congruence.
Qed.

Lemma utf8_bytes s : Forall (λ c, is_scalar c = true) s → Forall u8_ok (to_utf8 s).
Proof.
  induction 1 as [|c s Hc _ IH]; [constructor|]. rewrite to_utf8_cons. apply Forall_app.
  split; [by apply encode_char_u8|done].
Qed.

Definition scalar_pair (p : rstring * rstring) : Prop :=
  Forall (λ c, is_scalar c = true) p.1 ∧ Forall (λ c, is_scalar c = true) p.2.
Definition form_piece (p : rstring * rstring) : rstring :=
  form_text (to_utf8 p.1) ++ [61] ++ form_text (to_utf8 p.2).

Lemma form_decode_text s : Forall (λ c, is_scalar c = true) s → form_decode (form_text (to_utf8 s)) = s.
Proof. intros Hs. unfold form_decode. by rewrite unescape_form, lossy_encode by (done || by apply utf8_bytes). Qed.

Lemma form_pair_piece p : scalar_pair p → form_pair (form_piece p) = p.
Proof.
  destruct p as [k v]. intros [Hk Hv]. unfold form_pair, form_piece. simpl in *.
  rewrite cut_both by (by apply form_text_free; [apply utf8_bytes|]). simpl. by rewrite !form_decode_text.
Qed.

Lemma form_piece_ok p : scalar_pair p → form_piece p ≠ [] ∧ 38 ∉ form_piece p ∧ forallb query_char (form_piece p) = true.
Proof.
  intros [Hk Hv]. unfold form_piece. split; [|split].
  - by destruct (form_text (to_utf8 p.1)).
  - simpl. rewrite elem_of_app, elem_of_cons.
    intros [Hin|[Hin|Hin]]; [|done|]; revert Hin; by apply form_text_free; [apply utf8_bytes|].
  - assert (Hq : ∀ s, Forall (λ c, is_scalar c = true) s → forallb query_char (form_text (to_utf8 s)) = true).
    { intros s Hs. pose proof (form_text_chars _ (utf8_bytes s Hs)) as Hc. rewrite forallb_forall in Hc |- *.
      intros c Hin. specialize (Hc c Hin). unfold query_char. by destruct (form_plain c), (c =? 37), (c =? 43), (c =? 38). }
    by rewrite !forallb_app, !Hq.
Qed.

(** The pairs of a serialized list are the list. *)
Lemma form_pairs_join ps :
  Forall scalar_pair ps → form_pairs (join_pieces (form_piece <$> ps)) = ps.
Proof.
  intros Hps. destruct ps as [|p ps]; [done|]. unfold form_pairs.
  rewrite split_on_join.
  - rewrite filter_all, <- list_fmap_compose.
    + rewrite <- (list_fmap_id (p :: ps)) at 2. apply Forall_fmap_ext_1, (Forall_impl _ _ _ Hps).
      intros q Hq. by apply form_pair_piece.
    + apply Forall_fmap, (Forall_impl _ _ _ Hps). intros q Hq. by apply form_piece_ok.
  - done.
  - apply Forall_fmap, (Forall_impl _ _ _ Hps). intros q Hq. by apply form_piece_ok.
Qed.

Lemma join_chars ps :
  Forall (λ p, forallb query_char p = true) ps → forallb query_char (join_pieces ps) = true.
Proof.
  induction 1 as [|p ps Hp Hps IH]; [done|]. destruct ps as [|q ps]; [done|].
  change (join_pieces (p :: q :: ps)) with (p ++ 38 :: join_pieces (q :: ps)). rewrite forallb_app, Hp. exact IH.
Qed.

Section Params.
Context `{UrlLaws}.

Lemma serialize_ok ps qs :
  Forall scalar_pair qs → Forall scalar_pair ps →
  foldl serialize_pair (join_pieces (form_piece <$> qs)) ps = join_pieces (form_piece <$> qs ++ ps).
Proof.
  intros Hqs Hps. revert qs Hqs. induction Hps as [|p ps Hp Hps IH]; intros qs Hqs; [by rewrite app_nil_r|].
  cbn [foldl]. assert (serialize_pair (join_pieces (form_piece <$> qs)) p = join_pieces (form_piece <$> qs ++ [p])) as ->.
  { rewrite fmap_app. cbn [fmap list_fmap]. rewrite join_snoc.
    - generalize (join_pieces (form_piece <$> qs)) as acc. intros acc.
      unfold serialize_pair, add_sep, form_piece. rewrite !byte_serialize_form. by destruct acc.
    - apply Forall_fmap, (Forall_impl _ _ _ Hqs). intros q Hq. by apply form_piece_ok. }
  rewrite IH by (apply Forall_app; by split; [|constructor]). by rewrite <- app_assoc.
Qed.

(** C29. The text of the parameters reads back as the same pairs, in the same
    order: [new URLSearchParams(params.toString())] has the pairs of [params],
    whatever characters they contain. *)
Theorem params_text_roundtrip u :
  Forall scalar_pair (query_pairs u) →
  ∃ u', params_new (InitString (params_to_string u)) = Ok u' ∧ query_pairs u' = query_pairs u.
Proof.
  intros Hps. pose proof (serialize_ok (query_pairs u) [] ltac:(constructor) Hps) as Hs.
  unfold params_to_string. change ([] : rstring) with (join_pieces (form_piece <$> [])) at 1. rewrite Hs. cbn [app].
  set (text := join_pieces _).
  assert (Hq : forallb query_char text = true).
  { apply join_chars, Forall_fmap, (Forall_impl _ _ _ Hps). intros p Hp. by apply form_piece_ok. }
  destruct example_parses as (base & Hbase & _). destruct (join_query base text Hbase Hq) as (u' & Hj & Hu').
  exists u'. split.
  - cbn [params_new]. unfold params_from_str. rewrite Hbase. cbn [or_panic]. rewrite bind_ok.
    assert (match text with 63 :: _ => text | _ => 63 :: text end = 63 :: text) as ->.
    { destruct text as [|c t]; [done|]. simpl in Hq. apply andb_prop in Hq as [Hc _].
      destruct (decide (c = 63)) as [->|Hne]; [done|]. by repeat (case_match; try done). }
    by rewrite Hj.
  - rewrite (query_pairs_form u' text Hu').
    + by apply form_pairs_join.
    + rewrite forallb_forall in Hq |- *. intros c Hin. specialize (Hq c Hin). unfold query_char, form_plain in Hq.
      bool_to_prop. lia.
Qed.
End Params.

(** * The operations of the standard *)

Abbreviation params_list := (list (rstring * rstring)) (only parsing).

(** [set]: the first value of the key is replaced and the others removed, or
    the pair is added. *)
Fixpoint replace_first (k v : rstring) (l : params_list) : params_list :=
  match l with
  | [] => []
  | p :: l => if decide (p.1 = k) then (k, v) :: filter (λ q, q.1 ≠ k) l else p :: replace_first k v l
  end.
Definition std_set (k v : rstring) (l : params_list) : params_list :=
  if decide (Exists (λ p, p.1 = k) l) then replace_first k v l else l ++ [(k, v)].

Definition updated (k v : rstring) (p : rstring * rstring) : rstring * rstring :=
  (p.1, if decide (p.1 = k) then v else p.2).

Lemma push_unique_in acc p : p ∈ acc → push_unique acc p = acc.
Proof. intros. unfold push_unique. by rewrite decide_True. Qed.
Lemma push_unique_new acc p : p ∉ acc → push_unique acc p = acc ++ [p].
Proof. intros. unfold push_unique. by rewrite decide_False. Qed.

Lemma updated_other k v p : p.1 ≠ k → updated k v p = p.
Proof. intros Hk. unfold updated. rewrite decide_False by done. by destruct p. Qed.
Lemma updated_key k v p : p.1 = k → updated k v p = (k, v).
Proof. intros <-. unfold updated. by rewrite decide_True. Qed.

(** After the key was met, its other pairs vanish. *)
Lemma uniques_rest k v l acc :
  NoDup l → (k, v) ∈ acc → Forall (λ p, p.1 ≠ k → p ∉ acc) l →
  foldl push_unique acc (updated k v <$> l) = acc ++ filter (λ p, p.1 ≠ k) l.
Proof.
  intros Hl. revert acc. induction Hl as [|p l Hp Hl IH]; intros acc Hk Hf; [by rewrite app_nil_r|].
  apply Forall_cons in Hf as [Hpf Hf]. cbn [fmap list_fmap foldl]. destruct (decide (p.1 = k)) as [E|E].
  - rewrite updated_key, push_unique_in, IH by done. by rewrite filter_cons_False by (intros Hn; exact (Hn E)).
  - rewrite updated_other, push_unique_new by auto. rewrite IH.
    + rewrite filter_cons_True by done. by rewrite <- app_assoc.
    + rewrite elem_of_app. by left.
    + apply Forall_forall. intros q Hq Hqk. rewrite Forall_forall in Hf. specialize (Hf q Hq Hqk).
      rewrite elem_of_app, list_elem_of_singleton. intros [?| ->]; done.
Qed.

(** Before the key was met, the pairs are kept. *)
Lemma uniques_first k v l acc :
  NoDup l → Forall (λ p, p ∉ acc) l → (k, v) ∉ acc →
  foldl push_unique acc (updated k v <$> l) =
  acc ++ (if decide (Exists (λ p, p.1 = k) l) then replace_first k v l else l).
Proof.
  intros Hl. revert acc. induction Hl as [|p l Hp Hl IH]; intros acc Hf Hk.
  { by rewrite decide_False, app_nil_r by (by intros ?%Exists_nil). }
  apply Forall_cons in Hf as [Hpf Hf]. cbn [fmap list_fmap foldl replace_first].
  destruct (decide (p.1 = k)) as [E|E].
  - rewrite updated_key, push_unique_new by done. rewrite uniques_rest.
    + rewrite decide_True by (by left). by rewrite <- app_assoc.
    + done.
    + rewrite elem_of_app, list_elem_of_singleton. by right.
    + apply (Forall_impl _ _ _ Hf). intros q Hq Hqk. rewrite elem_of_app, list_elem_of_singleton.
      intros [?| ->]; done.
  - rewrite updated_other, push_unique_new by done. rewrite IH.
    + rewrite <- app_assoc. f_equal. cbn [app].
      destruct (decide (Exists _ l)) as [He|He]; [by rewrite decide_True by (by right)|].
      rewrite decide_False; [done|]. by intros [?|?]%Exists_cons.
    + apply Forall_forall. intros q Hq. rewrite Forall_forall in Hf. specialize (Hf q Hq).
      rewrite elem_of_app, list_elem_of_singleton. intros [?| ->]; done.
    + rewrite elem_of_app, list_elem_of_singleton. intros [?|<-]; done.
Qed.

Lemma replace_first_in k v l : Exists (λ p, p.1 = k) l → (k, v) ∈ replace_first k v l.
Proof.
  induction 1 as [p l E|p l He IH]; simpl; [rewrite decide_True by done; by left|].
  case_decide; [by left|by right].
Qed.

(** On pairs without repetition, [set] is that of the standard. *)
Lemma set_pairs_std k v l :
  NoDup l → push_unique (foldl push_unique [] (updated k v <$> l)) (k, v) = std_set k v l.
Proof.
  intros Hl. rewrite uniques_first by (try done; by set_solver || (apply Forall_forall; set_solver)).
  cbn [app]. unfold std_set. case_decide as He.
  - by rewrite push_unique_in by (by apply replace_first_in).
  - apply push_unique_new. intros Hin. apply He, Exists_exists. by exists (k, v).
Qed.

(** ** Sorting *)

Lemma bytes_le_total a b : bytes_le a b = true ∨ bytes_le b a = true.
Proof.
  revert b. induction a as [|x a IH]; intros [|y b]; simpl; [by left|by left|by right|].
  destruct (Z.ltb_spec x y); [by left|]. destruct (Z.ltb_spec y x); [by right|]. apply IH.
Qed.
Lemma bytes_le_refl a : bytes_le a a = true.
Proof. induction a as [|x a IH]; simpl; [done|]. by rewrite Z.ltb_irrefl. Qed.

Definition same_key (k : rstring) (l : params_list) : params_list := filter (λ p, p.1 = k) l.

(** A stable sort by key. *)
Record sorted_by_key (l l' : params_list) : Prop := {
  sorted_perm : l ≡ₚ l';
  sorted_order : Sorted (λ p q, key_le p q = true) l';
  sorted_stable : ∀ k, same_key k l' = same_key k l
}.

Lemma insert_pair_perm p l : p :: l ≡ₚ insert_pair p l.
Proof.
  induction l as [|q l IH]; [done|]. simpl. case_match; [done|]. rewrite <- IH. apply Permutation_swap.
Qed.
Lemma insert_pair_sorted p l :
  Sorted (λ p q, key_le p q = true) l → Sorted (λ p q, key_le p q = true) (insert_pair p l).
Proof.
  induction 1 as [|q l Hl IH Hq]; simpl; [by repeat constructor|]. destruct (key_le p q) eqn:E.
  - repeat constructor; done.
  - constructor; [done|]. assert (Hqp : key_le q p = true).
    { unfold key_le in *. destruct (bytes_le_total (to_utf8 q.1) (to_utf8 p.1)); [done|congruence]. }
    destruct l as [|r l]; simpl; [by constructor|]. case_match; constructor; [done|].
    by inversion Hq.
Qed.
Lemma insert_pair_stable p l k : same_key k (insert_pair p l) = same_key k (p :: l).
Proof.
  unfold same_key. induction l as [|q l IH]; [done|]. simpl insert_pair. destruct (key_le p q) eqn:E; [done|].
  rewrite (filter_cons _ q), IH, !(filter_cons _ p), (filter_cons _ q).
  destruct (decide (q.1 = k)) as [Hq|Hq], (decide (p.1 = k)) as [Hp|Hp]; try done.
  unfold key_le in E. rewrite Hq, Hp, bytes_le_refl in E. done.
Qed.

Lemma sort_pairs_ok l : sorted_by_key l (sort_pairs l).
Proof.
  induction l as [|p l [IHp IHs IHk]]; [by split|]. cbn [sort_pairs foldr].
  fold (sort_pairs l). split.
  - rewrite <- insert_pair_perm. by rewrite <- IHp.
  - by apply insert_pair_sorted.
  - intros k. rewrite insert_pair_stable. unfold same_key in *. rewrite !filter_cons. by rewrite IHk.
Qed.

(** ** Runs *)

Definition std_delete (k : rstring) (value : option rstring) (l : params_list) : params_list :=
  match value with Some v => filter (λ p, p ≠ (k, v)) l | None => filter (λ p, p.1 ≠ k) l end.

(** What the standard says of an action on the parameters. *)
Definition std_step (a : action) (l l' : params_list) : Prop :=
  match a with
  | Append k v => l' = l ++ [(k, v)]
  | Delete k value => l' = std_delete k value l
  | Set_ k v => NoDup l → l' = std_set k v l
  | Sort_ => sorted_by_key l l'
  | Read | ReadMut => l' = l
  | SetComponent _ _ | ForEach _ => False
  end.
Inductive std_run : list action → params_list → params_list → Prop :=
  | run_nil l : std_run [] l l
  | run_cons a acts l l' l'' : std_step a l l' → std_run acts l' l'' → std_run (a :: acts) l l''.

Definition on_params (a : action) : bool :=
  match a with SetComponent _ _ | ForEach _ => false | _ => true end.

Section Runs.
Context `{UrlLaws} (conflict : res rstring cell).

Lemma convert_pairs u : query_pairs (convert_trailing_space u) = query_pairs u.
Proof. unfold convert_trailing_space. repeat case_match; try done. apply set_path_pairs. Qed.

Lemma delete_pairs k value u : query_pairs (delete k value u) = std_delete k value (query_pairs u).
Proof.
  unfold delete, std_delete. rewrite convert_pairs.
  assert (Hf : ∀ (P : rstring * rstring → Prop) `{∀ p, Decision (P p)} (l : params_list),
    query_pairs (match filter P l with [] => no_query (convert_trailing_space u)
                 | ps => replace_pairs ps (convert_trailing_space u) end) = filter P l).
  { intros P ? l. destruct (filter P l); [by rewrite no_query_pairs|by rewrite replace_pairs_law]. }
  rewrite Hf. destruct value as [v|]; apply list_filter_iff; intros [k' v']; simpl.
  - rewrite negb_true_iff, andb_false_iff, !bool_decide_eq_false.
    destruct (decide (k' = k)), (decide (v' = v)); naive_solver.
  - by rewrite bool_decide_eq_true.
Qed.

Lemma act_refines a u :
  on_params a = true →
  ∃ u', act conflict a (mkCell u 0) = Ok (mkCell u' 0) ∧ std_step a (query_pairs u) (query_pairs u').
Proof.
  intros Ha. destruct a as [k v|k value|k v| | | | |]; try done; eexists; (split; [done|]); simpl; try done.
  - unfold append. by rewrite append_pairs, convert_pairs.
  - apply delete_pairs.
  - unfold set. rewrite replace_pairs_law, convert_pairs. apply set_pairs_std.
  - unfold sort. pose proof (sort_pairs_ok (query_pairs u)) as Hs.
    destruct (sort_pairs (query_pairs u)); [by rewrite no_query_pairs|by rewrite replace_pairs_law].
Qed.

End Runs.

(** * [forEach] *)

Lemma action_induction (P : action → Prop) :
  (∀ a, match a with ForEach _ => False | _ => True end → P a) →
  (∀ callback, (∀ p, Forall P (callback p)) → P (ForEach callback)) →
  ∀ a, P a.
Proof.
  intros Hleaf Hfe. fix IH 1. intros a. destruct a as [| | | | | | |callback]; [by apply Hleaf..|].
  apply Hfe. intros p. exact ((fix all l : Forall P l :=
    match l with [] => List.Forall_nil P | a :: l => proj2 (Forall_cons P a l) (conj (IH a) (all l)) end) (callback p)).
Qed.

(** No setter of the [URL], at any depth. *)
Fixpoint calm (a : action) : Prop :=
  match a with
  | SetComponent _ _ => False
  | ForEach callback => ∀ p,
      (fix all (l : list action) : Prop := match l with [] => True | a :: l => calm a ∧ all l end) (callback p)
  | _ => True
  end.
Definition all_calm (l : list action) : Prop := Forall calm l.
Definition calm_callbacks (a : action) : Prop :=
  match a with ForEach callback => ∀ p, all_calm (callback p) | _ => True end.

Lemma calm_for_each callback : calm (ForEach callback) ↔ ∀ p, all_calm (callback p).
Proof.
  simpl. unfold all_calm. split; intros Hc p; specialize (Hc p); induction (callback p) as [|a l IH].
  - constructor.
  - destruct Hc as [Ha Hl]. constructor; [exact Ha|exact (IH Hl)].
  - exact I.
  - apply Forall_cons in Hc as [Ha Hl]. split; [exact Ha|exact (IH Hl)].
Qed.

Section ForEach.
Context `{UrlLaws} (e : rstring).

Lemma act_for_each callback c :
  act (Err e) (ForEach callback) c =
  (c ← foldl (λ r p, c ← r; run (Err e) (callback p) c) (Ok (mkCell (inner c) (borrows c + 1)))
         (query_pairs (inner c));
   Ok (mkCell (inner c) (borrows c - 1))).
Proof. done. Qed.

(** Inside a callback nothing changes the [Url]: a mutation throws. *)
Definition undisturbed (r : res rstring cell) (c : cell) : Prop :=
  match r with Ok c' => c' = c | Err _ => True | Panic => False end.

Lemma run_undisturbed l c :
  Forall (λ a, ∀ c, (0 < borrows c)%nat → undisturbed (act (Err e) a c) c) l → (0 < borrows c)%nat →
  undisturbed (run (Err e) l c) c.
Proof.
  intros Hl Hb. induction Hl as [|a l Ha Hl IH]; [done|]. cbn [run]. specialize (Ha c Hb).
  destruct (act (Err e) a c) as [c'| |]; [|done..]. simpl in Ha. subst c'. by rewrite bind_ok.
Qed.

Lemma for_each_undisturbed callback c :
  (∀ p, Forall (λ a, ∀ c, (0 < borrows c)%nat → undisturbed (act (Err e) a c) c) (callback p)) →
  undisturbed (act (Err e) (ForEach callback) c) c.
Proof.
  intros Hcb. rewrite act_for_each. set (c1 := mkCell (inner c) (borrows c + 1)).
  assert (Hfold : ∀ ps r, undisturbed r c1 →
    undisturbed (foldl (λ r p, c ← r; run (Err e) (callback p) c) r ps) c1).
  { induction ps as [|p ps IH]; intros r Hr; [done|]. apply IH. destruct r as [c'| |]; [|done..].
    simpl in Hr. subst c'. rewrite bind_ok. apply run_undisturbed; [apply Hcb|simpl; lia]. }
  specialize (Hfold (query_pairs (inner c)) (Ok c1) eq_refl).
  destruct (foldl _ _ _) as [c'| |]; [|done..]. simpl in Hfold. subst c'. rewrite bind_ok. simpl.
  rewrite Nat.add_sub. by destruct c.
Qed.

Lemma calm_undisturbed a : calm a → ∀ c, (0 < borrows c)%nat → undisturbed (act (Err e) a c) c.
Proof.
  induction a as [a Ha|callback IH] using action_induction; intros Hc c Hb.
  - destruct a; try done; simpl; unfold mutate_params; by rewrite (proj2 (Nat.eqb_neq _ _)) by lia.
  - apply for_each_undisturbed. intros p. pose proof (proj1 (calm_for_each callback) Hc p) as Hp.
    specialize (IH p). unfold all_calm in Hp. rewrite Forall_forall in Hp, IH. apply Forall_forall. eauto.
Qed.

End ForEach.

(** * Paths *)

(** [%2F] or [%2f] in a path. *)
Definition has_encoded_slash (bytes : list Z) : Prop :=
  ∃ pre c post, bytes = pre ++ [37; 50; c] ++ post ∧ (c = 70 ∨ c = 102).

Lemma lower_f c : 0 ≤ c < 256 → (Z.lor c 32 =? 102) = (c =? 70) || (c =? 102).
Proof. revert c. intros c Hc. apply eqb_prop. revert c Hc. by apply forall_range. Qed.

Lemma scan_separators_ok fuel bytes i :
  Forall u8_ok bytes → (length bytes ≤ fuel + i)%nat →
  scan_separators fuel bytes i = true ↔ has_encoded_slash (drop i bytes).
Proof.
  intros Hb. revert i. induction fuel as [|fuel IH]; intros i Hf; cbn [scan_separators].
  { split; [done|]. intros (pre & c & post & E & _). rewrite drop_ge in E by lia. by destruct pre. }
  destruct (Nat.ltb_spec (i + 2) (length bytes)) as [Hlt|Hge].
  2: { split; [done|]. intros (pre & c & post & E & _). apply (f_equal length) in E.
       rewrite length_drop, !length_app in E. simpl in E. lia. }
  destruct (lookup_lt_is_Some_2 bytes i ltac:(lia)) as [x Hx].
  destruct (lookup_lt_is_Some_2 bytes (i + 1) ltac:(lia)) as [y Hy].
  destruct (lookup_lt_is_Some_2 bytes (i + 2) ltac:(lia)) as [z Hz]. rewrite Hx, Hy, Hz. cbn zeta.
  change (default 0 (Some x)) with x. change (default 0 (Some y)) with y. change (default 0 (Some z)) with z.
  rewrite lower_f by (by apply (Forall_lookup_1 _ _ _ _ Hb Hz)).
  assert (Hd : drop i bytes = x :: y :: z :: drop (i + 3) bytes).
  { rewrite (drop_S _ _ _ Hx). replace (S i) with (i + 1)%nat by lia. rewrite (drop_S _ _ _ Hy).
    replace (S (i + 1)) with (i + 2)%nat by lia. rewrite (drop_S _ _ _ Hz). do 4 f_equal. lia. }
  assert (Hd1 : drop (i + 1) bytes = y :: z :: drop (i + 3) bytes).
  { rewrite (drop_S _ _ _ Hy). replace (S (i + 1)) with (i + 2)%nat by lia. rewrite (drop_S _ _ _ Hz). do 3 f_equal. lia. }
  destruct ((x =? 37) && ((y =? 50) && ((z =? 70) || (z =? 102)))) eqn:E.
  - split; [|done]. intros _. bool_to_prop. exists [], z, (drop (i + 3) bytes).
    rewrite Hd. naive_solver lia.
  - rewrite IH by lia. rewrite Hd, Hd1. split.
    + intros (pre & c & post & E' & Hc). exists (x :: pre), c, post. by rewrite E'.
    + intros ([|w pre] & c & post & E' & Hc); simplify_eq/=.
      * destruct Hc as [-> | ->]; done.
      * by exists pre, c, post.
Qed.

Section Paths.
Context `{UrlLaws}.

(** A path with an encoded slash has no file. *)
Lemma reject_encoded_ok u :
  Forall (λ c, is_scalar c = true) (path u) →
  reject_encoded_path_separators u = Ok () ↔ ¬ has_encoded_slash (to_utf8 (path u)).
Proof.
  intros Hp. unfold reject_encoded_path_separators.
  pose proof (scan_separators_ok (length (to_utf8 (path u))) _ 0 (utf8_bytes _ Hp) ltac:(lia)) as Hs.
  rewrite drop_0 in Hs. rewrite <- Hs. by destruct (scan_separators _ _ _).
Qed.
End Paths.
