(* ===== verification/UrlRef.v ===== *)
(** A URL to run [URLSearchParams] on, which satisfies the laws of [UrlLib]:
    [http://example.com] with any query and fragment.  The theorems of
    [UrlProofs] are applied to it, and the texts and sequences of calls the
    code treats unlike the standard are evaluated. *)

From S2P Require Import Prelude Unicode Encoding Querystring QuerystringProofs Url UrlProofs.

(** * The reference *)

(** A query is text the parser made, or the pairs the serializer was given. *)
Inductive ref_query := NoQuery | Text (q : rstring) | Pairs (ps : list (rstring * rstring)).
Record ref_url := mkRef { ref_path : rstring; the_query : ref_query; the_fragment : option rstring }.

Definition scalar_pairb (p : rstring * rstring) : bool := forallb is_scalar p.1 && forallb is_scalar p.2.
Lemma scalar_pairb_spec ps : forallb scalar_pairb ps = true → Forall scalar_pair ps.
Proof.
  rewrite forallb_forall, Forall_forall. intros Hps p Hp. apply list_elem_of_In, Hps in Hp. unfold scalar_pairb in Hp.
  apply andb_prop in Hp as [Hk Hv]. rewrite forallb_forall in Hk, Hv.
  split; apply Forall_forall; intros c Hc; apply list_elem_of_In in Hc; auto.
Qed.

Definition query_text (q : ref_query) : option rstring :=
  match q with
  | NoQuery => None
  | Text q => Some q
  | Pairs ps => if forallb scalar_pairb ps then Some (join_pieces (form_piece <$> ps)) else None
  end.
Definition query_list (q : ref_query) : list (rstring * rstring) :=
  match q with NoQuery => [] | Text q => form_pairs q | Pairs ps => ps end.

(** The query state of the parser: tabs and newlines are dropped, the
    special-query percent-encode set is encoded and [#] ends the query. *)
Definition query_plain (b : Z) : bool :=
  (33 <=? b) && (b <=? 126) && negb (bool_decide (b ∈ [34; 35; 39; 60; 62])).
Definition encode_query (q : rstring) : rstring :=
  mjoin ((λ b, if query_plain b then [b] else hexTable b) <$> to_utf8 (filter (λ c, c ∉ [9; 10; 13]) q)).
Definition parse_query (q : rstring) (u : ref_url) : ref_url :=
  mkRef (ref_path u) (Text (encode_query (cut 35 q).1))
    (if bool_decide (35 ∈ q) then Some (cut 35 q).2 else None).

Definition ref_set (f : list (rstring * rstring) → list (rstring * rstring)) (u : ref_url) : ref_url :=
  mkRef (ref_path u) (Pairs (f (query_list (the_query u)))) (the_fragment u).

#[local] Instance ref_lib : UrlLib := {|
  Url := ref_url;
  url_parse s := if bool_decide (s = example_url) then Some (mkRef [47] NoQuery None) else None;
  join u s := match s with 63 :: q => Some (parse_query q u) | _ => None end;
  scheme _ := bs "http";
  path := ref_path;
  fragment := the_fragment;
  query u := query_text (the_query u);
  set_path p u := mkRef p (the_query u) (the_fragment u);
  query_pairs u := query_list (the_query u);
  append_pair k v := ref_set (λ ps, ps ++ [(k, v)]);
  extend_pairs qs := ref_set (λ ps, ps ++ qs);
  replace_pairs qs := ref_set (λ _, qs);
  no_query u := mkRef (ref_path u) NoQuery (the_fragment u);
  quirks_get c u := match c with Search => default [] (query_text (the_query u)) | _ => [] end;
  quirks_set c v u := match c with Search => parse_query v u | _ => u end;
  byte_serialize := form_text;
  domain_to_unicode s := s;
  to_file_path _ := None;
  from_file_path _ := None
|}.

(** * Its laws *)

Lemma query_char_ascii c : query_char c = true → 33 ≤ c < 127 ∧ query_plain c = true ∧ c ∉ [9; 10; 13; 35].
Proof.
  intros Hc. assert (Hr : 33 ≤ c < 127).
  { unfold query_char, form_plain in Hc. repeat (apply orb_prop in Hc as [Hc|Hc]); bool_to_prop; lia. }
  split; [done|]. cut (negb (query_char c) || (query_plain c && negb (bool_decide (c ∈ [9; 10; 13; 35]))) = true).
  { rewrite Hc. simpl. intros Hq. apply andb_prop in Hq as [-> Hn]. split; [done|].
    by apply negb_true_iff, bool_decide_eq_false in Hn. }
  clear Hc. assert (Hr' : 0 ≤ c < 127) by lia. clear Hr. revert c Hr'. by apply forall_range.
Qed.

Lemma encode_query_id q : forallb query_char q = true → encode_query q = q ∧ 35 ∉ q.
Proof.
  intros Hq. assert (Hc : ∀ c, c ∈ q → 33 ≤ c < 127 ∧ query_plain c = true ∧ c ∉ [9; 10; 13; 35]).
  { intros c Hc. apply query_char_ascii. rewrite forallb_forall in Hq. by apply Hq, list_elem_of_In. }
  split; [|intros H35; apply Hc in H35; set_solver]. unfold encode_query.
  rewrite filter_all by (apply Forall_forall; intros c Hin; apply Hc in Hin; set_solver).
  rewrite to_utf8_ascii by (apply Forall_forall; intros c Hin; apply Hc in Hin; lia).
  clear Hq. induction q as [|c q IH]; [done|]. cbn [fmap list_fmap mjoin list_join].
  destruct (Hc c ltac:(by left)) as (_ & -> & _). cbn [app]. f_equal. apply IH. intros c' Hc'. apply Hc. by right.
Qed.

#[local] Instance ref_laws : UrlLaws.
Proof.
  split; try done.
  - intros u q. simpl. destruct (the_query u) as [|q'|ps]; simpl; [done|congruence|].
    destruct (forallb scalar_pairb ps) eqn:E; [|done]. intros [= <-] _. symmetry.
    by apply form_pairs_join, scalar_pairb_spec.
  - by exists (mkRef [47] NoQuery None).
  - intros u q _ Hq. destruct (encode_query_id q Hq) as [Hid H35]. exists (parse_query q u). split; [done|].
    simpl. rewrite cut_key by done. simpl. by rewrite Hid.
Qed.

(** * Applications *)

(** [{ 'a b': 'é&', a: '' }]. *)
Definition sample_pairs : list (rstring * rstring) := [(bs "a b", [233; 38]); (bs "a", [])].
Definition sample : ref_url := mkRef [47] (Pairs sample_pairs) None.

Lemma params_text_roundtrip_witness :
  params_to_string sample = bs "a+b=%C3%A9%26&a=" ∧
  ∃ u', params_new (InitString (params_to_string sample)) = Ok u' ∧ query_pairs u' = query_pairs sample.
Proof. split; [by vm_compute|]. apply params_text_roundtrip, scalar_pairb_spec. by vm_compute. Defined.

(** [append], [set] of a key with two values, [delete] and [sort]. *)
Definition sample_actions : list action :=
  [Append (bs "c") (bs "1"); Append (bs "a") (bs "2"); Set_ (bs "a") (bs "3"); Delete (bs "c") None; Sort_].



(** * What the code does *)

(** The borrow of [forEach] lasts while the callback runs:
    [params.forEach(() => { url.search = '?x' })] panics. *)
Example for_each_setter_panics :
  (c ← run (Err []) [ForEach (λ _, [SetComponent Search (Some (bs "x"))])] (mkCell sample 0);
   Ok (query_pairs (inner c))) = Panic.
Proof. by vm_compute. Qed.

(** [set] merges equal pairs of the other keys: [x=1&x=1&y=2] with
    [set('y', '3')]. *)
Example set_drops_duplicates :
  let u := mkRef [47] (Text (bs "x=1&x=1&y=2")) None in
  query_pairs (set (bs "y") (bs "3") u) = [(bs "x", bs "1"); (bs "y", bs "3")] ∧
  std_set (bs "y") (bs "3") (query_pairs u) = [(bs "x", bs "1"); (bs "x", bs "1"); (bs "y", bs "3")].
Proof. by vm_compute. Qed.

(** [new URLSearchParams('a=1#b&c=2')]: the text is parsed as part of a URL,
    and its end becomes the fragment. *)
Example hash_ends_query :
  (u ← params_new (InitString (bs "a=1#b&c=2")); Ok (query_pairs u)) = Ok [(bs "a", bs "1")] ∧
  form_pairs (bs "a=1#b&c=2") = [(bs "a", bs "1#b"); (bs "c", bs "2")].
Proof. by vm_compute. Qed.

(** The keys U+FFFD and U+1F600: the first is the smaller in UTF-8, the second
    in UTF-16. *)
Example sort_by_utf8 :
  sort_pairs [([128512], []); ([65533], [])] = [([65533], []); ([128512], [])] ∧
  encode_utf16 [128512] = [55357; 56832].
Proof. by vm_compute. Qed.

(** A hostname with a port is not set. *)
Example hostname_with_port :
  has_colon_delimiter (bs "a:80") = true ∧ has_colon_delimiter (bs "[::1]") = false.
Proof. by vm_compute. Qed.

(** A setter, or even a read with [get], inside [forEach] is an exception, when
    that is what the binding layer makes of the second borrow. *)
Example for_each_get_throws :
  (c ← run (Err (bs "borrowed")) [ForEach (λ _, [Read; ReadMut])] (mkCell sample 0); Ok (query_pairs (inner c))) =
  Err (bs "borrowed").
Proof. by vm_compute. Qed.
