(* ===== verification/JsonEscape.v ===== *)
(** String escaping of [JSON.stringify]
    ([libs/raster_runtime_json/src/escape.rs]).

    The input is the bytes of a JavaScript string as QuickJS hands them out:
    UTF-8, with a lone surrogate as the three bytes 0xED 0xA0..0xBF 0x80..0xBF.
    The output is modelled as bytes too, since the source appends unchecked
    slices of the input to it. *)

From S2P Require Import Prelude Unicode.

(** * Tables *)

(** The index of a byte's escape; 34 for a byte that is copied. *)
Definition JSON_ESCAPE_CHARS : list nat :=
  seq 0 32 ++ [34; 34; 32]%nat ++ replicate 57 34%nat ++ [33%nat] ++ replicate 163 34%nat.

Definition hex_char (h : Z) : Z := if h <? 10 then 48 + h else 97 + h - 10.
(** [\u00xy] *)
Definition u00 (n : Z) : list Z := [92; 117; 48; 48; hex_char (n `div` 16); hex_char (n `mod` 16)].

Definition JSON_ESCAPE_QUOTES : list (list Z) :=
  (u00 <$> seqZ 0 8) ++ [[92; 98]; [92; 116]; [92; 110]] ++ (u00 <$> [11]) ++ [[92; 102]; [92; 114]] ++
  (u00 <$> seqZ 14 18) ++ [[92; 34]; [92; 92]].

Definition ESCAPE_LEN : nat := 34.

(** * Code *)

Record cursor := mkCursor { result : list Z; index : nat; start : nat }.

(** [&bytes[a..b]] *)
Definition slice (bytes : list Z) (a b : nat) : res rstring (list Z) :=
  if ((a <=? b) && (b <=? length bytes))%nat then Ok (take (b - a) (drop a bytes)) else Panic.

Definition write_surrogate_escape (result bytes : list Z) (i : nat) : res rstring (list Z * nat) :=
  b0 ← or_panic (bytes !! i);
  b1 ← or_panic (bytes !! (i + 1)%nat);
  b2 ← or_panic (bytes !! (i + 2)%nat);
  let code_point := Z.lor (Z.lor (Z.shiftl (Z.land b0 15) 12) (Z.shiftl (Z.land b1 63) 6)) (Z.land b2 63) in
  let hex := [Z.shiftr code_point 12; Z.land (Z.shiftr code_point 8) 15;
              Z.land (Z.shiftr code_point 4) 15; Z.land code_point 15] in
  Ok (result ++ [92; 117] ++ (hex_char <$> hex), 3%nat).

(** The pending unescaped bytes are copied before an escape. *)
Definition copy_pending (bytes : list Z) (c : cursor) : res rstring (list Z) :=
  if (start c <? index c)%nat
  then s ← slice bytes (start c) (index c); Ok (result c ++ s)
  else Ok (result c).

Definition is_surrogate_at (bytes : list Z) (byte : Z) (i len : nat) : bool :=
  (i + 2 <? len)%nat && (byte =? 237) && (i + 1 <? len)%nat &&
  (160 <=? Z.land (default 0 (bytes !! (i + 1)%nat)) 240).

Definition process_byte (bytes : list Z) (len : nat) (c : cursor) (byte : Z) : res rstring cursor :=
  if is_surrogate_at bytes byte (index c) len then
    r ← copy_pending bytes c;
    '(r, n) ← write_surrogate_escape r bytes (index c);
    Ok (mkCursor r (index c + n) (index c + n))
  else
    e ← or_panic (JSON_ESCAPE_CHARS !! Z.to_nat byte);
    if (e <? ESCAPE_LEN)%nat then
      r ← copy_pending bytes c;
      q ← or_panic (JSON_ESCAPE_QUOTES !! e);
      Ok (mkCursor (r ++ q) (index c + 1) (index c + 1))
    else Ok (mkCursor (result c) (index c + 1) (start c)).

Fixpoint process_bytes (bytes : list Z) (len : nat) (c : cursor) (l : list Z) : res rstring cursor :=
  match l with
  | [] => Ok c
  | byte :: l => c ← process_byte bytes len c byte; process_bytes bytes len c l
  end.

Definition is_special (b : Z) : bool := (b <? 32) || (b =? 34) || (b =? 92).

(** [bytes.as_chunks::<8>()]: whole chunks and the tail. *)
Fixpoint as_chunks (fuel : nat) (l : list Z) : list (list Z) * list Z :=
  match fuel with
  | O => ([], l)
  | S fuel =>
      if (8 <=? length l)%nat
      then let '(cs, t) := as_chunks fuel (drop 8 l) in (take 8 l :: cs, t)
      else ([], l)
  end.

Fixpoint process_chunks (bytes : list Z) (len : nat) (c : cursor) (chunks : list (list Z)) :
    res rstring cursor :=
  match chunks with
  | [] => Ok c
  | chunk :: chunks =>
      c ← (if existsb is_special chunk then process_bytes bytes len c chunk
           else Ok (mkCursor (result c) (index c + 8) (start c)));
      process_chunks bytes len c chunks
  end.

Definition escape_json_string_simple (res0 bytes : list Z) : res rstring (list Z) :=
  let len := length bytes in
  let '(chunks, tail) := as_chunks len bytes in
  c ← process_chunks bytes len (mkCursor res0 0 0) chunks;
  c ← process_bytes bytes len c tail;
  if (start c <? len)%nat then s ← slice bytes (start c) len; Ok (result c ++ s) else Ok (result c).

Definition escape_json_string (res0 bytes : list Z) : res rstring (list Z) :=
  escape_json_string_simple res0 bytes.

Definition escape_json (bytes : list Z) : res rstring (list Z) := escape_json_string [] bytes.

(** * Specification *)

(** The escape of one byte. *)
Definition escape_byte (b : Z) : list Z :=
  if b =? 8 then [92; 98] else if b =? 9 then [92; 116] else if b =? 10 then [92; 110]
  else if b =? 12 then [92; 102] else if b =? 13 then [92; 114]
  else if b <? 32 then u00 b
  else if b =? 34 then [92; 34] else if b =? 92 then [92; 92] else [b].

Definition escape_spec (l : list Z) : list Z := mjoin (escape_byte <$> l).

(** No encoded surrogate starts in the string. *)
Fixpoint no_surrogates (l : list Z) : bool :=
  match l with
  | b :: l => negb ((b =? 237) && match l with b1 :: _ => 160 <=? Z.land b1 240 | [] => false end)
              && no_surrogates l
  | [] => true
  end.

(** The value of a hexadecimal digit. *)
Definition hex_digit_value (c : Z) : option Z :=
  if (48 <=? c) && (c <=? 57) then Some (c - 48)
  else if (97 <=? c) && (c <=? 102) then Some (c - 97 + 10)
  else if (65 <=? c) && (c <=? 70) then Some (c - 65 + 10)
  else None.

Definition hex4_value (a b c d : Z) : option Z :=
  a ← hex_digit_value a; b ← hex_digit_value b; c ← hex_digit_value c; d ← hex_digit_value d;
  Some (a * 4096 + b * 256 + c * 16 + d).

(** A reader of the body of a JSON string (RFC 8259) up to its closing quote:
    the bytes it denotes and the rest of the text. *)
Fixpoint read_string (l : list Z) : option (list Z * list Z) :=
  let put s o := '(t, r) ← o; Some (s ++ t, r) in
  match l with
  | [] => None
  | c :: l =>
      if c =? 34 then Some ([], l)
      else if c =? 92 then
        match l with
        | [] => None
        | e :: l =>
            if e =? 34 then put [34] (read_string l)
            else if e =? 92 then put [92] (read_string l)
            else if e =? 47 then put [47] (read_string l)
            else if e =? 98 then put [8] (read_string l)
            else if e =? 102 then put [12] (read_string l)
            else if e =? 110 then put [10] (read_string l)
            else if e =? 114 then put [13] (read_string l)
            else if e =? 116 then put [9] (read_string l)
            else if e =? 117 then
              match l with
              | h1 :: h2 :: h3 :: h4 :: l =>
                  v ← hex4_value h1 h2 h3 h4; put (encode_char v) (read_string l)
              | _ => None
              end
            else None
        end
      else if c <? 32 then None
      else put [c] (read_string l)
  end.

(** * The tables *)

Definition table_entry_ok (b : Z) : bool :=
  match JSON_ESCAPE_CHARS !! Z.to_nat b with
  | Some e => bool_decide ((e <? ESCAPE_LEN)%nat = is_special b) &&
              bool_decide ((if is_special b then JSON_ESCAPE_QUOTES !! e else Some [b]) =
                           Some (escape_byte b))
  | None => false
  end.

Lemma escape_tables b :
  u8_ok b →
  ∃ e, JSON_ESCAPE_CHARS !! Z.to_nat b = Some e ∧ (e <? ESCAPE_LEN)%nat = is_special b ∧
       (if is_special b then JSON_ESCAPE_QUOTES !! e else Some [b]) = Some (escape_byte b).
Proof.
  intros Hb. assert (H : all_bytes table_entry_ok = true) by (vm_compute; reflexivity).
  pose proof (all_bytes_spec _ H b Hb) as He. unfold table_entry_ok in He.
  destruct (JSON_ESCAPE_CHARS !! Z.to_nat b) as [e|]; [|done].
  apply andb_prop in He as [H1 H2]. apply bool_decide_eq_true in H1, H2. eauto.
Qed.

Lemma escape_spec_cons b l : escape_spec (b :: l) = escape_byte b ++ escape_spec l.
Proof. done. Qed.

Lemma escape_spec_app a b : escape_spec (a ++ b) = escape_spec a ++ escape_spec b.
Proof. unfold escape_spec. by rewrite fmap_app, join_app. Qed.

Lemma escape_spec_plain l :
  Forall u8_ok l → existsb is_special l = false → escape_spec l = l.
Proof.
  induction 1 as [|b l Hb _ IH]; [done|]. simpl. intros Hs.
  apply orb_false_elim in Hs as [Hs1 Hs2]. rewrite escape_spec_cons, IH by done.
  destruct (escape_tables b Hb) as (e & _ & _ & Hq). rewrite Hs1 in Hq. by injection Hq as <-.
Qed.

(** * The loop *)

Section Loop.
Variable res0 : list Z.

(** After the bytes [pre]: what has been written and the pending slice make up
    the escape of [pre]. *)
Definition cursor_at (pre : list Z) (c : cursor) : Prop :=
  index c = length pre ∧ (start c ≤ length pre)%nat ∧
  result c ++ drop (start c) pre = res0 ++ escape_spec pre.

Lemma copy_pending_ok pre post c :
  cursor_at pre c → copy_pending (pre ++ post) c = Ok (res0 ++ escape_spec pre).
Proof.
  intros (Hi & Hs & Hr). unfold copy_pending, slice. rewrite Hi, length_app.
  destruct (Nat.ltb_spec (start c) (length pre)).
  - destruct (Nat.leb_spec (start c) (length pre)), (Nat.leb_spec (length pre) (length pre + length post));
      try lia. simpl. rewrite drop_app_le by lia. rewrite take_app_length' by len. by rewrite Hr.
  - rewrite drop_ge, app_nil_r in Hr by lia. by rewrite Hr.
Qed.

Lemma no_surrogate_at pre b post :
  no_surrogates (b :: post) = true →
  is_surrogate_at (pre ++ b :: post) b (length pre) (length (pre ++ b :: post)) = false.
Proof.
  intros H. unfold is_surrogate_at. rewrite lookup_app_r by lia.
  replace (length pre + 1 - length pre)%nat with 1%nat by lia.
  cbn [no_surrogates] in H. apply andb_prop in H as [H _]. apply negb_true_iff in H.
  destruct post as [|b1 post]; cbn [lookup list_lookup default].
  - rewrite length_app. cbn [length]. destruct (Nat.ltb_spec (length pre + 2) (length pre + 1)); [lia|done].
  - change (id b1) with b1.
    destruct (b =? 237); [|by rewrite !andb_false_r]. cbn [andb] in H.
    rewrite H. by rewrite !andb_false_r.
Qed.

Lemma process_byte_ok pre b post c :
  u8_ok b → no_surrogates (b :: post) = true → cursor_at pre c →
  ∃ c', process_byte (pre ++ b :: post) (length (pre ++ b :: post)) c b = Ok c' ∧
        cursor_at (pre ++ [b]) c'.
Proof.
  intros Hb Hn Hc. unfold process_byte. rewrite (proj1 Hc), no_surrogate_at by done.
  destruct (escape_tables b Hb) as (e & -> & He & Hq). cbn [or_panic mbind res_bind]. rewrite He.
  rewrite (copy_pending_ok _ _ _ Hc). unfold cursor_at. rewrite length_app, escape_spec_app.
  unfold escape_spec at 3. cbn [fmap list_fmap mjoin list_join length]. rewrite app_nil_r.
  destruct (is_special b).
  - rewrite Hq. cbn [or_panic mbind res_bind]. eexists. split; [done|]. simpl.
    split_and!; [done..|]. rewrite drop_ge by len. by rewrite app_nil_r, (assoc_L (++)).
  - eexists. split; [done|]. simpl. destruct Hc as (Hi & Hs & Hr). injection Hq as Hq.
    split_and!; [done|lia|]. rewrite drop_app_le by lia.
    rewrite (assoc_L (++)), Hr, <- (assoc_L (++)). by rewrite Hq.
Qed.

Lemma no_surrogates_app a b : no_surrogates (a ++ b) = true → no_surrogates b = true.
Proof. induction a as [|x a IH]; [done|]. simpl. intros [_ H]%andb_prop. by apply IH. Qed.

Lemma process_bytes_ok bytes pre l post c :
  bytes = pre ++ l ++ post → Forall u8_ok l → no_surrogates (l ++ post) = true → cursor_at pre c →
  ∃ c', process_bytes bytes (length bytes) c l = Ok c' ∧ cursor_at (pre ++ l) c'.
Proof.
  revert pre c. induction l as [|b l IH]; intros pre c -> Hu Hn Hc.
  { exists c. by rewrite app_nil_r. }
  apply Forall_cons in Hu as [Hb Hu]. cbn [app process_bytes].
  destruct (process_byte_ok pre b (l ++ post) c Hb Hn Hc) as (c1 & -> & Hc1). cbn [mbind res_bind].
  destruct (IH (pre ++ [b]) c1) as (c2 & Hp & Hc2); [by rewrite <- (assoc_L (++))|done| |done|].
  - by apply (no_surrogates_app [b]).
  - exists c2. by rewrite <- (assoc_L (++)) in Hc2.
Qed.

Lemma process_chunk_skip pre l c :
  Forall u8_ok l → existsb is_special l = false → length l = 8%nat → cursor_at pre c →
  cursor_at (pre ++ l) (mkCursor (result c) (index c + 8) (start c)).
Proof.
  intros Hu Hs Hl (Hi & Hst & Hr). unfold cursor_at. simpl. rewrite length_app.
  split_and!; [lia|lia|]. rewrite drop_app_le, (assoc_L (++)), Hr by lia.
  rewrite escape_spec_app, (escape_spec_plain l) by done. by rewrite (assoc_L (++)).
Qed.

Lemma process_chunks_ok bytes pre chunks post c :
  bytes = pre ++ mjoin chunks ++ post → Forall u8_ok bytes → no_surrogates bytes = true →
  Forall (λ l, length l = 8%nat) chunks → cursor_at pre c →
  ∃ c', process_chunks bytes (length bytes) c chunks = Ok c' ∧ cursor_at (pre ++ mjoin chunks) c'.
Proof.
  revert pre c. induction chunks as [|l chunks IH]; intros pre c Hb Hu Hn Hl Hc.
  { exists c. simpl. by rewrite app_nil_r. }
  apply Forall_cons in Hl as [Hlen Hl]. cbn [process_chunks mjoin list_join] in *.
  rewrite <- (assoc_L (++)) in Hb.
  assert (Hul : Forall u8_ok l) by (subst bytes; by decompose_Forall_hyps).
  assert (Hstep : ∃ c1, (if existsb is_special l then process_bytes bytes (length bytes) c l
            else Ok (mkCursor (result c) (index c + 8) (start c))) = Ok c1 ∧ cursor_at (pre ++ l) c1).
  { destruct (existsb is_special l) eqn:Hs.
    - apply (process_bytes_ok bytes pre l (mjoin chunks ++ post)); [done..| |done].
      subst bytes. by apply no_surrogates_app in Hn.
    - eexists. split; [done|]. by apply process_chunk_skip. }
  destruct Hstep as (c1 & -> & Hc1). cbn [mbind res_bind].
  destruct (IH (pre ++ l) c1) as (c2 & Hp & Hc2); [by rewrite <- (assoc_L (++))|done..|].
  exists c2. by rewrite <- (assoc_L (++)) in Hc2.
Qed.

Lemma as_chunks_ok fuel l :
  let '(cs, t) := as_chunks fuel l in l = mjoin cs ++ t ∧ Forall (λ c, length c = 8%nat) cs.
Proof.
  revert l. induction fuel as [|fuel IH]; intros l; [done|]. cbn [as_chunks].
  destruct (Nat.leb_spec 8 (length l)); [|done].
  specialize (IH (drop 8 l)). destruct (as_chunks fuel (drop 8 l)) as [cs t].
  destruct IH as [Hl Hc]. split; [|constructor; [rewrite length_take; lia|done]].
  rewrite <- (take_drop 8 l) at 1. rewrite Hl. apply (assoc_L (++)).
Qed.

Lemma escape_ok bytes :
  Forall u8_ok bytes → no_surrogates bytes = true →
  escape_json_string res0 bytes = Ok (res0 ++ escape_spec bytes).
Proof.
  intros Hu Hn. unfold escape_json_string, escape_json_string_simple.
  pose proof (as_chunks_ok (length bytes) bytes) as Hc.
  destruct (as_chunks (length bytes) bytes) as [chunks tail]. destruct Hc as [Hb Hl].
  destruct (process_chunks_ok bytes [] chunks tail (mkCursor res0 0 0)) as (c1 & -> & Hc1);
    [done..| |].
  { unfold cursor_at. simpl. auto. }
  cbn [mbind res_bind]. rewrite Hb in Hu, Hn. cbn [app] in Hc1.
  destruct (process_bytes_ok bytes (mjoin chunks) tail [] c1) as (c2 & -> & Hc2).
  - by rewrite app_nil_r.
  - by apply Forall_app in Hu as [_ ?].
  - rewrite app_nil_r. by apply no_surrogates_app in Hn.
  - done.
  - cbn [mbind res_bind]. rewrite <- Hb in Hc2. pose proof (copy_pending_ok bytes [] c2 Hc2) as Hp.
    unfold copy_pending in Hp. rewrite app_nil_r, (proj1 Hc2) in Hp. exact Hp.
Qed.
End Loop.

(** * Reading back *)

Lemma hex_digit_char h : 0 ≤ h < 16 → hex_digit_value (hex_char h) = Some h.
Proof.
  assert (H : forallb (λ h, bool_decide (hex_digit_value (hex_char h) = Some h)) (seqZ 0 16) = true)
    by (vm_compute; reflexivity).
  intros Hh. pose proof (forall_range 16 _ H h Hh) as Hv. by apply bool_decide_eq_true in Hv.
Qed.

Lemma read_u00 b l :
  0 ≤ b < 32 → read_string (u00 b ++ l) = '(t, r) ← read_string l; Some (b :: t, r).
Proof.
  intros Hb. unfold u00.
  change (read_string ([92; 117; 48; 48; hex_char (b `div` 16); hex_char (b `mod` 16)] ++ l)) with
    (v ← hex4_value 48 48 (hex_char (b `div` 16)) (hex_char (b `mod` 16));
     '(t, r) ← read_string l; Some (encode_char v ++ t, r)).
  unfold hex4_value. change (hex_digit_value 48) with (Some 0).
  rewrite !hex_digit_char by dlia. cbn [mbind option_bind].
  replace (0 * 4096 + 0 * 256 + b `div` 16 * 16 + b `mod` 16) with b by dlia.
  unfold encode_char. destruct (Z.ltb_spec b 128); [done|lia].
Qed.

Lemma read_escape_byte b l :
  u8_ok b → read_string (escape_byte b ++ l) = '(t, r) ← read_string l; Some (b :: t, r).
Proof.
  intros Hb. unfold u8_ok in Hb. unfold escape_byte.
  destruct (Z.eqb_spec b 8) as [->|]; [done|]. destruct (Z.eqb_spec b 9) as [->|]; [done|].
  destruct (Z.eqb_spec b 10) as [->|]; [done|]. destruct (Z.eqb_spec b 12) as [->|]; [done|].
  destruct (Z.eqb_spec b 13) as [->|]; [done|].
  destruct (Z.ltb_spec b 32) as [Hlt|Hge]; [apply read_u00; lia|].
  destruct (Z.eqb_spec b 34) as [->|H34]; [done|]. destruct (Z.eqb_spec b 92) as [->|H92]; [done|].
  cbn [app read_string]. rewrite (proj2 (Z.eqb_neq b 34) H34), (proj2 (Z.eqb_neq b 92) H92).
  by rewrite (proj2 (Z.ltb_ge b 32) Hge).
Qed.

Lemma read_escaped l rest :
  Forall u8_ok l → read_string (escape_spec l ++ 34 :: rest) = Some (l, rest).
Proof.
  induction 1 as [|b l Hb _ IH]; [done|].
  rewrite escape_spec_cons, <- (assoc_L (++)), read_escape_byte by done. by rewrite IH.
Qed.

(** Escaping a string without encoded surrogates is exact: the 8-byte
    fast path and the byte loop together append the escape of every byte, no
    slice is out of range, and a JSON reader gets the same bytes back from
    between the quotes. *)
Theorem escape_roundtrip (out bytes rest : list Z) :
  Forall u8_ok bytes → no_surrogates bytes = true →
  ∃ t, escape_json_string out bytes = Ok (out ++ t) ∧ t = escape_spec bytes ∧
       read_string (t ++ 34 :: rest) = Some (bytes, rest).
Proof.
  intros Hu Hn. exists (escape_spec bytes). split_and!; [by apply escape_ok|done|by apply read_escaped].
Qed.

(** A quote, a newline and a two-byte character across a chunk boundary. *)
Lemma escape_roundtrip_witness :
  ∃ t, escape_json_string [34] (bs "a line" ++ [10; 195; 169] ++ bs "q:" ++ [34]) = Ok ([34] ++ t) ∧
       t = escape_spec (bs "a line" ++ [10; 195; 169] ++ bs "q:" ++ [34]) ∧
       read_string (t ++ 34 :: [44]) = Some (bs "a line" ++ [10; 195; 169] ++ bs "q:" ++ [34], [44]).
Proof.
  apply (escape_roundtrip [34] (bs "a line" ++ [10; 195; 169] ++ bs "q:" ++ [34]) [44]); [|reflexivity].
  change (bs "a line" ++ [10; 195; 169] ++ bs "q:" ++ [34]) with
    [97; 32; 108; 105; 110; 101; 10; 195; 169; 113; 58; 34].
  repeat (apply Forall_cons; split; [unfold u8_ok; lia|]). apply Forall_nil_2.
Defined.

(** A lone surrogate is escaped by moving the index three bytes ahead
    while the loop still visits its other two bytes.  So a quote after it
    panics (slice past the end), a later escape copies a raw newline into the
    output, and a surrogate in an 8-byte chunk without special bytes is not
    escaped at all. *)
Example escape_surrogate_desync :
  escape_json [237; 160; 128] = Ok (bs "\ud800") ∧
  escape_json [237; 160; 128; 34] = Panic ∧
  escape_json [237; 160; 128; 97; 10; 98; 99; 100] =
    Ok (bs "\ud800a" ++ [10] ++ bs "b\nd") ∧
  escape_json ([237; 160; 128] ++ bs "aaaaa") = Ok ([237; 160; 128] ++ bs "aaaaa").
Proof. split_and!; vm_compute; reflexivity. Qed.
