(* ===== verification/JsonSpec.v ===== *)
(** JSON values, their text and a reader: the specification that
    [JsonStringify] is compared with.

    The reader follows RFC 8259 on bytes.  It keeps the lexeme of a number
    instead of its value, so that it does not depend on how digits are
    produced. *)

From S2P Require Import Prelude JsonEscape.

Inductive jv :=
  | JNull
  | JBool (b : bool)
  | JNum (lexeme : list Z)
  | JStr (s : list Z)
  | JArr (l : list jv)
  | JObj (l : list (list Z * jv)).

(** Induction on a JSON value and all it contains. *)
Section JvInd.
Variable P : jv → Prop.
Hypothesis Hnull : P JNull.
Hypothesis Hbool : ∀ b, P (JBool b).
Hypothesis Hnum : ∀ n, P (JNum n).
Hypothesis Hstr : ∀ s, P (JStr s).
Hypothesis Harr : ∀ l, Forall P l → P (JArr l).
Hypothesis Hobj : ∀ l, Forall (λ kv, P kv.2) l → P (JObj l).

Fixpoint jv_nested_ind (j : jv) : P j :=
  match j with
  | JNull => Hnull
  | JBool b => Hbool b
  | JNum n => Hnum n
  | JStr s => Hstr s
  | JArr l =>
      Harr l ((fix go l : Forall P l :=
        match l with
        | [] => Forall_nil_2 _
        | j :: l => Forall_cons_2 _ _ _ (jv_nested_ind j) (go l)
        end) l)
  | JObj l =>
      Hobj l ((fix go l : Forall (λ kv, P kv.2) l :=
        match l with
        | [] => Forall_nil_2 _
        | kv :: l => Forall_cons_2 _ _ _ (jv_nested_ind kv.2) (go l)
        end) l)
  end.
End JvInd.

(** * Text *)

Definition is_ws (c : Z) : bool := (c =? 32) || (c =? 10) || (c =? 13) || (c =? 9).
Definition is_num_char (c : Z) : bool :=
  ((48 <=? c) && (c <=? 57)) || (c =? 45) || (c =? 43) || (c =? 46) || (c =? 101) || (c =? 69).

(** A number lexeme starts with a digit or a minus sign. *)
Definition is_lexeme (l : list Z) : bool :=
  match l with
  | c :: _ => (((48 <=? c) && (c <=? 57)) || (c =? 45)) && forallb is_num_char l
  | [] => false
  end.

Fixpoint repeat_str (s : list Z) (n : nat) : list Z :=
  match n with O => [] | S n => s ++ repeat_str s n end.

(** Line break and indentation at depth [d]; nothing without indentation. *)
Definition sep (ind : option (list Z)) (d : nat) : list Z :=
  match ind with Some i => 10 :: repeat_str i d | None => [] end.

Definition key_text (ind : option (list Z)) (k : list Z) : list Z :=
  [34] ++ escape_spec k ++ [34; 58] ++ match ind with Some _ => [32] | None => [] end.

(** Items with commas in between; [comma] when something precedes. *)
Fixpoint items {A} (f : A → list Z) (comma : bool) (l : list A) : list Z :=
  match l with
  | [] => []
  | x :: l => (if comma then [44] else []) ++ f x ++ items f true l
  end.

Definition close {A} (ind : option (list Z)) (d : nat) (l : list A) : list Z :=
  match l with [] => [] | _ => sep ind (d - 1) end.

(** The text of a value, its items at depth [d]. *)
Fixpoint print (ind : option (list Z)) (d : nat) (j : jv) : list Z :=
  match j with
  | JNull => bs "null"
  | JBool true => bs "true"
  | JBool false => bs "false"
  | JNum n => n
  | JStr s => [34] ++ escape_spec s ++ [34]
  | JArr l => [91] ++ items (λ j, sep ind d ++ print ind (S d) j) false l ++ close ind d l ++ [93]
  | JObj l =>
      [123] ++ items (λ kv, sep ind d ++ key_text ind kv.1 ++ print ind (S d) kv.2) false l ++
      close ind d l ++ [125]
  end.

(** * Reader *)

Fixpoint skip_ws (l : list Z) : list Z :=
  match l with
  | c :: l' => if is_ws c then skip_ws l' else l
  | [] => []
  end.

Fixpoint span_num (l : list Z) : list Z * list Z :=
  match l with
  | c :: l' => if is_num_char c then let '(a, b) := span_num l' in (c :: a, b) else ([], l)
  | [] => ([], [])
  end.

Fixpoint strip (p l : list Z) : option (list Z) :=
  match p, l with
  | [], _ => Some l
  | c :: p, d :: l => if c =? d then strip p l else None
  | _, _ => None
  end.

(** Items read by [item], separated by commas, up to the byte [fin]. *)
Fixpoint read_items {A} (item : list Z → option (A * list Z)) (fin : Z) (n : nat) (l : list Z) :
    option (list A * list Z) :=
  match n with
  | O => None
  | S n =>
      '(x, l) ← item l;
      match skip_ws l with
      | c :: l =>
          if c =? fin then Some ([x], l)
          else if c =? 44 then '(xs, l) ← read_items item fin n l; Some (x :: xs, l)
          else None
      | [] => None
      end
  end.

Definition read_list {A} (item : list Z → option (A * list Z)) (fin : Z) (n : nat) (l : list Z) :
    option (list A * list Z) :=
  match strip [fin] (skip_ws l) with
  | Some l => Some ([], l)
  | None => read_items item fin n l
  end.

(** A property: its key, a colon and its value. *)
Definition read_prop (value : list Z → option (jv * list Z)) (l : list Z) :
    option ((list Z * jv) * list Z) :=
  l ← strip [34] (skip_ws l);
  '(k, l) ← read_string l;
  l ← strip [58] (skip_ws l);
  '(v, l) ← value l;
  Some ((k, v), l).

Fixpoint read_value (fuel : nat) (l : list Z) : option (jv * list Z) :=
  match fuel with
  | O => None
  | S fuel =>
      match skip_ws l with
      | [] => None
      | c :: r =>
          if c =? 34 then '(s, r) ← read_string r; Some (JStr s, r)
          else if c =? 91 then
            '(xs, r) ← read_list (read_value fuel) 93 (length r) r; Some (JArr xs, r)
          else if c =? 123 then
            '(xs, r) ← read_list (read_prop (read_value fuel)) 125 (length r) r; Some (JObj xs, r)
          else if c =? 110 then r ← strip (bs "ull") r; Some (JNull, r)
          else if c =? 116 then r ← strip (bs "rue") r; Some (JBool true, r)
          else if c =? 102 then r ← strip (bs "alse") r; Some (JBool false, r)
          else
            match span_num (c :: r) with
            | ([], _) => None
            | (n, r) => Some (JNum n, r)
            end
      end
  end.

(** A whole text. *)
Definition read_json (l : list Z) : option jv :=
  '(j, r) ← read_value (S (length l)) l;
  match skip_ws r with [] => Some j | _ => None end.

(** * Reading what is printed *)

(** Values whose strings are bytes and whose numbers are lexemes. *)
Fixpoint jv_ok (j : jv) : Prop :=
  match j with
  | JNum n => is_lexeme n = true
  | JStr s => Forall u8_ok s
  | JArr l => foldr (λ j P, jv_ok j ∧ P) True l
  | JObj l => foldr (λ kv P, (Forall u8_ok kv.1 ∧ jv_ok kv.2) ∧ P) True l
  | _ => True
  end.

Definition ind_ok (ind : option (list Z)) : Prop :=
  match ind with Some i => forallb is_ws i = true | None => True end.

(** What may follow a number. *)
Definition boundary (l : list Z) : Prop :=
  match l with c :: _ => is_num_char c = false | [] => True end.

Lemma foldr_Forall {A} (P : A → Prop) l : foldr (λ x Q, P x ∧ Q) True l ↔ Forall P l.
Proof. induction l as [|x l IH]; simpl; [by split|]. by rewrite Forall_cons, IH. Qed.

Lemma skip_ws_app w l : forallb is_ws w = true → skip_ws (w ++ l) = skip_ws l.
Proof. induction w as [|c w IH]; [done|]. simpl. intros [-> Hw]%andb_prop. by apply IH. Qed.

Lemma sep_ws ind d : ind_ok ind → forallb is_ws (sep ind d) = true.
Proof.
  destruct ind as [i|]; [|done]. simpl. intros Hi. induction d as [|d IH]; [done|]. simpl.
  by rewrite forallb_app, Hi.
Qed.

Lemma strip_app p l : strip p (p ++ l) = Some l.
Proof. induction p as [|c p IH]; [done|]. simpl. by rewrite Z.eqb_refl. Qed.

Lemma span_num_app n rest :
  forallb is_num_char n = true → boundary rest → span_num (n ++ rest) = (n, rest).
Proof.
  intros Hn Hr. induction n as [|c n IH]; simpl in *.
  - destruct rest as [|c rest]; [done|]. simpl in *. by rewrite Hr.
  - apply andb_prop in Hn as [-> Hn]. by rewrite IH.
Qed.

(** The first byte of a text tells what it is. *)
Definition starts_value (c : Z) : bool :=
  (c =? 34) || (c =? 91) || (c =? 123) || (c =? 110) || (c =? 116) || (c =? 102) ||
  ((48 <=? c) && (c <=? 57)) || (c =? 45).

Lemma print_head ind d j :
  jv_ok j → ∃ c t, print ind d j = c :: t ∧ starts_value c = true.
Proof.
  intros Hj. destruct j as [|[]|[|c n]|s|l|l]; simpl in *; try (do 2 eexists; split; reflexivity); [done|].
  apply andb_prop in Hj as [Hc _]. exists c, n. split; [done|]. unfold starts_value.
  apply orb_prop in Hc as [Hc|Hc]; rewrite Hc; by rewrite ?orb_true_r.
Qed.

Lemma starts_value_facts c :
  starts_value c = true → is_ws c = false ∧ c ≠ 93 ∧ c ≠ 125 ∧ c ≠ 44.
Proof.
  unfold starts_value, is_ws. intros Hc.
  repeat match goal with H : _ || _ = true |- _ => apply orb_prop in H as [H|H] end; bool_to_prop;
    split_and!; try lia; repeat (rewrite (proj2 (Z.eqb_neq _ _)) by lia); done.
Qed.

Lemma skip_ws_print ind d j rest : jv_ok j → skip_ws (print ind d j ++ rest) = print ind d j ++ rest.
Proof.
  intros Hj. destruct (print_head ind d j Hj) as (c & t & -> & Hc). simpl.
  by destruct (starts_value_facts c Hc) as (-> & _).
Qed.

(** A list of items, each read back by [item]. *)
Section Items.
Context {A : Type} (f : A → list Z) (item : list Z → option (A * list Z)) (fin : Z) (tail rest : list Z).
Hypothesis Hfin : fin ≠ 44.
Hypothesis Htail : skip_ws tail = fin :: rest.
Hypothesis Hbound : boundary tail.

Definition reads_back (x : A) : Prop := ∀ r, boundary r → item (f x ++ r) = Some (x, r).

Lemma read_items_ok l n :
  l ≠ [] → (length l ≤ n)%nat → Forall reads_back l →
  read_items item fin n (items f false l ++ tail) = Some (l, rest).
Proof.
  revert n. induction l as [|x l IH]; intros n Hne Hn Hl; [done|].
  apply Forall_cons in Hl as [Hx Hl]. destruct n as [|n]; [simpl in Hn; lia|].
  cbn [items read_items app]. rewrite <- (assoc_L (++)). destruct l as [|y l].
  - rewrite Hx by done. simpl. rewrite Htail. by rewrite Z.eqb_refl.
  - rewrite Hx by done. cbn [mbind option_bind items app skip_ws].
    change (is_ws 44) with false. cbn iota. rewrite (proj2 (Z.eqb_neq 44 fin)) by done.
    change (44 =? 44) with true. cbn [mbind option_bind]. specialize (IH n).
    cbn [items app] in IH. rewrite IH; [done|done|simpl in *; lia|done].
Qed.

Lemma read_list_ok l n :
  (length l ≤ n)%nat → Forall reads_back l →
  Forall (λ x, ∀ r, ∃ c t, skip_ws (f x ++ r) = c :: t ∧ c ≠ fin) l →
  read_list item fin n (items f false l ++ tail) = Some (l, rest).
Proof.
  intros Hn Hl Hh. unfold read_list. destruct l as [|x l].
  - cbn [items app]. rewrite Htail. simpl. by rewrite Z.eqb_refl.
  - apply Forall_cons in Hh as [Hx _].
    assert (Hs : strip [fin] (skip_ws (items f false (x :: l) ++ tail)) = None).
    { cbn [items app]. rewrite <- (assoc_L (++)).
      destruct (Hx (items f true l ++ tail)) as (c & t & -> & Hc). simpl.
      by rewrite (proj2 (Z.eqb_neq fin c)). }
    rewrite Hs. by apply read_items_ok.
Qed.
End Items.

Lemma items_length {A} (f : A → list Z) b l :
  Forall (λ x, f x ≠ []) l → (length l ≤ length (items f b l))%nat.
Proof.
  revert b. induction l as [|x l IH]; intros b Hl; [simpl; lia|].
  apply Forall_cons in Hl as [Hx Hl]. specialize (IH true Hl). simpl.
  rewrite !length_app. destruct (f x) eqn:Hf; [done|]. simpl. lia.
Qed.

Lemma items_length_elem {A} (f : A → list Z) b l x :
  x ∈ l → (length (f x) ≤ length (items f b l))%nat.
Proof.
  revert b. induction l as [|y l IH]; intros b Hx; [by apply not_elem_of_nil in Hx|].
  simpl. rewrite !length_app. apply elem_of_cons in Hx as [->|Hx]; [lia|].
  specialize (IH true Hx). lia.
Qed.

Lemma close_tail {A} ind d (l : list A) fin rest :
  ind_ok ind → is_ws fin = false → is_num_char fin = false →
  skip_ws (close ind d l ++ fin :: rest) = fin :: rest ∧ boundary (close ind d l ++ fin :: rest).
Proof.
  intros Hi Hw Hn. assert (Hs : forallb is_ws (close ind d l) = true)
    by (destruct l; [done|by apply sep_ws]).
  rewrite skip_ws_app by done. simpl. rewrite Hw. split; [done|].
  destruct l; [done|]. by destruct ind.
Qed.

Section ReadPrint.
Variable ind : option (list Z).
Hypothesis Hind : ind_ok ind.

(** [j] is read back from its text, at any depth, with fuel for its length. *)
Definition prints_back (j : jv) : Prop :=
  ∀ d fuel rest, (length (print ind d j) < fuel)%nat → boundary rest →
    read_value fuel (print ind d j ++ rest) = Some (j, rest).

Lemma read_value_sep fuel d l : read_value fuel (sep ind d ++ l) = read_value fuel l.
Proof. destruct fuel; [done|]. cbn [read_value]. by rewrite skip_ws_app by (by apply sep_ws). Qed.

Lemma elem_reads_back d fuel j :
  prints_back j → (length (print ind (S d) j) < fuel)%nat →
  reads_back (λ j, sep ind d ++ print ind (S d) j) (read_value fuel) j.
Proof. intros Hj Hf r Hr. rewrite <- (assoc_L (++)), read_value_sep. by apply Hj. Qed.

Lemma prop_reads_back d fuel kv :
  Forall u8_ok kv.1 → prints_back kv.2 → (length (print ind (S d) kv.2) < fuel)%nat →
  reads_back (λ kv, sep ind d ++ key_text ind kv.1 ++ print ind (S d) kv.2)
    (read_prop (read_value fuel)) kv.
Proof.
  intros Hk Hj Hf r Hr. destruct kv as [k j]. cbn [fst snd] in *. unfold read_prop, key_text.
  rewrite <- (assoc_L (++)), skip_ws_app by (by apply sep_ws).
  rewrite <- !(assoc_L (++)). cbn [app skip_ws strip].
  change (is_ws 34) with false. cbn iota. change (34 =? 34) with true. cbn [mbind option_bind].
  rewrite read_escaped by done. cbn [mbind option_bind app skip_ws].
  change (is_ws 58) with false. cbn iota. cbn [strip]. change (58 =? 58) with true.
  cbn [mbind option_bind].
  assert (Hv : read_value fuel (match ind with Some _ => [32] | None => [] end ++ print ind (S d) j ++ r) =
               Some (j, r)).
  { rewrite <- (Hj (S d) fuel r Hf Hr). destruct fuel; [done|]. cbn [read_value].
    by rewrite skip_ws_app by (by destruct ind). }
  by rewrite Hv.
Qed.

Lemma read_print_arr l :
  Forall (λ j, jv_ok j ∧ prints_back j) l → prints_back (JArr l).
Proof.
  intros Hl d [|fuel] rest Hf Hr; [simpl in Hf; lia|]. cbn [read_value print] in *.
  rewrite <- !(assoc_L (++)). cbn [app skip_ws]. change (is_ws 91) with false. cbn iota.
  change (91 =? 34) with false. change (91 =? 91) with true. cbn iota.
  set (f := λ j, sep ind d ++ print ind (S d) j) in *.
  destruct (close_tail ind d l 93 rest Hind eq_refl eq_refl) as [Ht Hb].
  rewrite (read_list_ok f _ 93 _ rest); [done|done|done|done| | |].
  - rewrite length_app. etrans; [apply (items_length f false)|lia].
    eapply Forall_impl; [exact Hl|]. intros j [Hj _]. unfold f.
    destruct (print_head ind (S d) j Hj) as (c & t & -> & _). by destruct (sep ind d).
  - rewrite Forall_forall in Hl |- *. intros j Hjl. apply elem_reads_back; [by apply Hl|].
    pose proof (items_length_elem f false l j Hjl) as Hlen. unfold f in Hlen at 1.
    rewrite !length_app in *. simpl in Hf. lia.
  - eapply Forall_impl; [exact Hl|]. intros j [Hj _] r. unfold f.
    rewrite <- (assoc_L (++)), skip_ws_app, skip_ws_print by (done || by apply sep_ws).
    destruct (print_head ind (S d) j Hj) as (c & t & -> & Hc). exists c, (t ++ r).
    split; [done|]. by apply starts_value_facts.
Qed.

Lemma read_print_obj l :
  Forall (λ kv, Forall u8_ok kv.1 ∧ prints_back kv.2) l → prints_back (JObj l).
Proof.
  intros Hl d [|fuel] rest Hf Hr; [simpl in Hf; lia|]. cbn [read_value print] in *.
  rewrite <- !(assoc_L (++)). cbn [app skip_ws]. change (is_ws 123) with false. cbn iota.
  change (123 =? 34) with false. change (123 =? 91) with false. change (123 =? 123) with true. cbn iota.
  set (f := λ kv : list Z * jv, sep ind d ++ key_text ind kv.1 ++ print ind (S d) kv.2) in *.
  destruct (close_tail ind d l 125 rest Hind eq_refl eq_refl) as [Ht Hb].
  rewrite (read_list_ok f _ 125 _ rest); [done|done|done|done| | |].
  - rewrite length_app. etrans; [apply (items_length f false)|lia].
    apply Forall_true. intros [k j]. unfold f, key_text. by destruct (sep ind d).
  - rewrite Forall_forall in Hl |- *. intros kv Hkv. apply prop_reads_back; [by apply Hl..|].
    pose proof (items_length_elem f false l kv Hkv) as Hlen. unfold f in Hlen at 1.
    rewrite !length_app in *. simpl in Hf. lia.
  - apply Forall_true. intros [k j] r. unfold f, key_text.
    rewrite <- (assoc_L (++)), skip_ws_app by (by apply sep_ws). simpl. by eexists _, _.
Qed.

Lemma read_print_num n : is_lexeme n = true → prints_back (JNum n).
Proof.
  intros Hj d [|fuel] rest Hf Hr; [simpl in Hf; lia|].
  cbn [read_value]. rewrite skip_ws_print by done. cbn [print] in *. simpl in Hj.
  destruct n as [|c n]; [done|]. pose proof Hj as [Hc Hn]%andb_prop.
  assert (Hd : 45 ≤ c ≤ 57) by (apply orb_prop in Hc as [Hc|Hc]; bool_to_prop; lia).
  cbn [app]. repeat (rewrite (proj2 (Z.eqb_neq c _)) by lia).
  by rewrite (span_num_app (c :: n) rest Hn Hr : span_num (c :: n ++ rest) = _).
Qed.

Lemma read_print j : jv_ok j → prints_back j.
Proof.
  induction j as [| | n | s | l IH | l IH] using jv_nested_ind; intros Hj.
  - intros d [|fuel] rest Hf Hr; [simpl in Hf; lia|done].
  - intros d [|fuel] rest Hf Hr; [simpl in Hf; lia|by destruct b].
  - by apply read_print_num.
  - intros d [|fuel] rest Hf Hr; [simpl in Hf; lia|].
    cbn [read_value print]. simpl in Hj. rewrite <- !(assoc_L (++)). cbn [app skip_ws].
    change (is_ws 34) with false. cbn iota. change (34 =? 34) with true. cbn iota.
    by rewrite read_escaped.
  - simpl in Hj. apply foldr_Forall in Hj. apply read_print_arr.
    rewrite Forall_forall in IH, Hj |- *. auto.
  - simpl in Hj. apply foldr_Forall in Hj. apply read_print_obj.
    rewrite Forall_forall in IH, Hj |- *. intros kv Hkv. destruct (Hj kv Hkv). auto.
Qed.
End ReadPrint.

(** The text of a value reads as the value. *)
Lemma read_json_print ind d j :
  ind_ok ind → jv_ok j → read_json (print ind d j) = Some j.
Proof.
  intros Hi Hj. unfold read_json. rewrite <- (app_nil_r (print ind d j)) at 2.
  by rewrite (read_print ind Hi j Hj) by (done || lia).
Qed.
