(* ===== verification/JsonStringify.v ===== *)
(** [JSON.stringify] ([libs/raster_runtime_json/src/stringify.rs] and the
    argument handling of [lib.rs]).

    JavaScript values live in a heap of objects and arrays, so that shared and
    circular structures are modelled.  What QuickJS provides is a parameter:
    the heap, and the results of the calls to user code ([toJSON] methods and
    the replacer function), taken as functions of their arguments.  The digits
    of numbers come from the crates [itoa] and [ryu] (class [NumberFormat]).
    Recursion takes fuel; running out of it is [Panic], as a stack overflow
    would be. *)

From S2P Require Import Prelude Unicode JsonEscape JsonSpec.

Class NumberFormat := {
  itoa : Z → list Z;
  ryu_finite : Z → list Z;
}.

(** * Values *)

Notation loc := positive (only parsing).

Inductive value :=
  | VUndefined
  | VNull
  | VBool (b : bool)
  | VInt (n : Z)
  | VFloat (bits : Z)
  | VString (bytes : list Z)
  | VSymbol
  | VBigInt
  | VFunction
  | VConstructor
  | VOther
  | VObject (l : loc)
  | VArray (l : loc).

#[export] Instance value_eq_dec : EqDecision value.
Proof. solve_decision. Defined.

Inductive js_error :=
  | TypeError (msg : list Z)
  | Thrown (v : value)
  | FromJsError.

(** What reading [toJSON] from an object finds: nothing, something that is not
    callable, or a function with the outcome of calling it. *)
Inductive to_json_prop :=
  | NoToJSON
  | NotCallable
  | ToJSON (outcome : res js_error value).

(** An object (also an exception or a proxy) has its own enumerable string
    keys in order; an array its elements. *)
Inductive cell :=
  | CObject (props : list (list Z * value)) (to_json : to_json_prop)
  | CArray (elems : list value).

Notation heap := (gmap loc cell).

(** The replacer argument: a function of the holder, the key and the value, or
    the set of keys of an array. *)
Record options := mkOptions {
  replacer_fn : option (option loc → list Z → value → res js_error value);
  include_keys_replacer : option (list (list Z));
}.

Definition no_options : options := mkOptions None None.

(** [StringifyContext], without the two buffers and the mutable parts. *)
Record StringifyContext := mkContext {
  c_value : value;
  c_depth : nat;
  c_indentation : option (list Z);
  c_key : option (list Z);
  c_index : option nat;
  c_parent : option loc;
}.

(** The mutable parts: [result] and [ancestors]. *)
Record state := mkState { out : list Z; ancestors : list (loc * list Z) }.

Inductive PrimitiveStatus :=
  | Written
  | Ignored
  | Iterate (new_value : option value).

Definition CIRCULAR_REF_DETECTION_DEPTH : nat := 20.

Definition push (s : list Z) (st : state) : state := mkState (out st ++ s) (ancestors st).

Section Stringify.
Context `{NumberFormat}.
Variable h : heap.
Variable opts : options.

(** * Writing *)

Definition escape_into (s : list Z) (st : state) : res js_error state :=
  match escape_json_string (out st) s with
  | Ok o => Ok (mkState o (ancestors st))
  | _ => Panic
  end.

Definition write_sep (add_comma has_indentation : bool) (st : state) : state :=
  push ((if add_comma then [44] else []) ++ (if has_indentation then [10] else [])) st.

Definition write_key (key : list Z) (indent : bool) (st : state) : res js_error state :=
  st ← escape_into key (push [34] st);
  Ok (push ([34; 58] ++ if indent then [32] else []) st).

Definition write_string (s : list Z) (st : state) : res js_error state :=
  st ← escape_into s (push [34] st);
  Ok (push [34] st).

Definition write_indented_separator (key : option (list Z)) (add_comma : bool)
    (indentation : list Z) (depth : nat) (st : state) : res js_error state :=
  let st := push (repeat_str indentation depth) (write_sep add_comma true st) in
  match key with Some key => write_key key true st | None => Ok st end.

Definition write_indentation (indentation : option (list Z)) (depth : nat) (st : state) : state :=
  match indentation with
  | Some i => push ([10] ++ repeat_str i (depth - 1)) st
  | None => st
  end.

Definition get_key_or_index (key : option (list Z)) (index : option nat) : list Z :=
  match key with Some key => key | None => itoa (Z.of_nat (default 0%nat index)) end.

(** Finite floats are written by [ryu], without a trailing [.0]. *)
Definition EXP_MASK : Z := 9218868437227405312.

Definition write_float (bits : Z) (st : state) : res js_error state :=
  if Z.land bits EXP_MASK =? EXP_MASK then Ok (push (bs "null") st)
  else
    let str := ryu_finite bits in
    let len := length str in
    if (len <? 2)%nat then Panic
    else if bool_decide (drop (len - 2) str = bs ".0") then Ok (push (take (len - 2) str) st)
    else Ok (push str st).

Definition is_ignorable (v : value) : bool :=
  match v with VSymbol | VUndefined | VFunction | VConstructor => true | _ => false end.

Definition write_primitive2 (c : StringifyContext) (add_comma : bool) (new_value : option value)
    (st : state) : res js_error (PrimitiveStatus * state) :=
  let v := default (c_value c) new_value in
  if match c_index c with None => is_ignorable v | Some _ => false end then Ok (Ignored, st)
  else if match v with VBigInt => true | _ => false end
  then Err (TypeError (bs "Do not know how to serialize a BigInt"))
  else if match include_keys_replacer opts with
          | Some keys => negb (bool_decide (get_key_or_index (c_key c) (c_index c) ∈ keys))
          | None => false
          end
  then Ok (Ignored, st)
  else
    st ← (match c_indentation c with
          | Some i => write_indented_separator (c_key c) add_comma i (c_depth c) st
          | None =>
              let st := write_sep add_comma false st in
              match c_key c with Some key => write_key key false st | None => Ok st end
          end);
    match v with
    | VNull | VUndefined => Ok (Written, push (bs "null") st)
    | VBool b => Ok (Written, push (if b then bs "true" else bs "false") st)
    | VInt n => Ok (Written, push (itoa n) st)
    | VFloat bits => st ← write_float bits st; Ok (Written, st)
    | VString s => st ← write_string s st; Ok (Written, st)
    | _ => Ok (Iterate new_value, st)
    end.

Definition run_replacer (c : StringifyContext)
    (f : option loc → list Z → value → res js_error value) (add_comma : bool) (st : state) :
    res js_error (PrimitiveStatus * state) :=
  new_value ← f (c_parent c) (get_key_or_index (c_key c) (c_index c)) (c_value c);
  write_primitive2 c add_comma (Some new_value) st.

Definition write_primitive (c : StringifyContext) (add_comma : bool) (st : state) :
    res js_error (PrimitiveStatus * state) :=
  match replacer_fn opts with
  | Some f => run_replacer c f add_comma st
  | None => write_primitive2 c add_comma None st
  end.

(** * Circular references *)

(** Pop until the last entry is the parent. *)
Fixpoint pop_rev (parent : loc) (rev_anc : list (loc * list Z)) : list (loc * list Z) :=
  match rev_anc with
  | [] => []
  | (p, k) :: r => if decide (p = parent) then rev_anc else pop_rev parent r
  end.
Definition pop_to (parent : loc) (anc : list (loc * list Z)) : list (loc * list Z) :=
  reverse (pop_rev parent (reverse anc)).

Definition dot_key (key : list Z) : list Z :=
  match key with 91 :: _ => key | _ => 46 :: key end.

(** The message names the last four entries after the first, then the first. *)
Definition circular_message (anc : list (loc * list Z)) : list Z :=
  match anc with
  | [] => []
  | first :: rest =>
      bs "Circular reference detected at: " ++ [34; 46; 46] ++
      mjoin ((λ e, dot_key e.2) <$> drop (length rest - 4) rest) ++ dot_key first.2 ++ [34]
  end.

Definition path_key (key : option (list Z)) (index : option nat) : list Z :=
  match key with
  | Some k => k
  | None => [91] ++ itoa (Z.of_nat (default 0%nat index)) ++ [93]
  end.

Definition detect_circular_reference (c : StringifyContext) (current : loc) (st : state) :
    res js_error state :=
  parent ← or_panic (c_parent c);
  let anc := pop_to parent (ancestors st) in
  if bool_decide (current ∈ anc.*1) then Err (TypeError (circular_message anc))
  else Ok (mkState (out st) (anc ++ [(current, path_key (c_key c) (c_index c))])).

Definition check_circular (c : StringifyContext) (current : loc) (st : state) : res js_error state :=
  if (CIRCULAR_REF_DETECTION_DEPTH <? c_depth c)%nat then detect_circular_reference c current st
  else Ok st.

(** * Recursion *)

Definition with_depth (c : StringifyContext) (d : nat) : StringifyContext :=
  mkContext (c_value c) d (c_indentation c) (c_key c) (c_index c) (c_parent c).

(** [append_value], given [iterate]: whether something was written. *)
Definition append_value
    (iterate : StringifyContext → option value → state → res js_error state)
    (c : StringifyContext) (add_comma : bool) (st : state) : res js_error (bool * state) :=
  '(status, st) ← write_primitive c add_comma st;
  match status with
  | Written => Ok (true, st)
  | Ignored => Ok (false, st)
  | Iterate new_value =>
      st ← iterate (with_depth c (c_depth c + 1)) new_value st;
      Ok (true, st)
  end.

(** The loops over the keys of an object and the elements of an array; [c] is
    the context of the object or array. *)
Definition prop_context (c : StringifyContext) (l : loc) (key : list Z) (v : value) : StringifyContext :=
  mkContext v (c_depth c) (c_indentation c) (Some key) None (Some l).
Definition elem_context (c : StringifyContext) (l : loc) (i : nat) (v : value) : StringifyContext :=
  mkContext v (c_depth c) (c_indentation c) None (Some i) (Some l).

Fixpoint object_loop (append : StringifyContext → bool → state → res js_error (bool * state))
    (c : StringifyContext) (l : loc) (props : list (list Z * value)) (value_written : bool)
    (st : state) : res js_error (bool * state) :=
  match props with
  | [] => Ok (value_written, st)
  | (key, v) :: props =>
      '(add_comma, st) ← append (prop_context c l key v) value_written st;
      object_loop append c l props (value_written || add_comma) st
  end.

Fixpoint array_loop (append : StringifyContext → bool → state → res js_error (bool * state))
    (c : StringifyContext) (l : loc) (i : nat) (elems : list value) (add_comma value_written : bool)
    (st : state) : res js_error (bool * state) :=
  match elems with
  | [] => Ok (value_written, st)
  | v :: elems =>
      '(add_comma, st) ← append (elem_context c l i v) add_comma st;
      array_loop append c l (S i) elems add_comma (value_written || add_comma) st
  end.

Definition run_to_json (append : StringifyContext → bool → state → res js_error (bool * state))
    (c : StringifyContext) (l : loc) (outcome : res js_error value) (st : state) : res js_error state :=
  v ← outcome;
  let indentation :=
    match v with VObject _ | VArray _ => c_indentation c | _ => None end in
  '(_, st) ← append (mkContext v (c_depth c) indentation None None (Some l)) false st;
  Ok st.

Fixpoint iterate (fuel : nat) (c : StringifyContext) (new_value : option value) (st : state) :
    res js_error state :=
  match fuel with
  | O => Panic
  | S fuel =>
      let append := append_value (iterate fuel) in
      match default (c_value c) new_value with
      | VObject l =>
          match h !! l with
          | Some (CObject props NotCallable) => Err FromJsError
          | Some (CObject props (ToJSON outcome)) => run_to_json append c l outcome st
          | Some (CObject props NoToJSON) =>
              st ← check_circular c l st;
              '(value_written, st) ← object_loop append c l props false (push [123] st);
              let st := if (value_written : bool)
                        then write_indentation (c_indentation c) (c_depth c) st else st in
              Ok (push [125] st)
          | _ => Panic
          end
      | VArray l =>
          match h !! l with
          | Some (CArray elems) =>
              st ← check_circular c l (push [91] st);
              '(value_written, st) ← array_loop append c l 0 elems false false st;
              let st := if (value_written : bool)
                        then write_indentation (c_indentation c) (c_depth c) st else st in
              Ok (push [93] st)
          | _ => Panic
          end
      | _ => Ok st
      end
  end.

Definition top_context (v : value) (depth : nat) (indentation : option (list Z)) : StringifyContext :=
  mkContext v depth indentation None None None.

(** The text, or nothing for a value that has no JSON form. *)
Definition json_stringify_replacer_space (fuel : nat) (v : value) (indentation : option (list Z)) :
    res js_error (option (list Z)) :=
  let st := mkState [] [] in
  '(status, st) ← write_primitive (top_context v 0 None) false st;
  match status with
  | Written => Ok (Some (out st))
  | Ignored => Ok None
  | Iterate _ =>
      st ← iterate fuel (top_context v 1 indentation) None st;
      Ok (Some (out st))
  end.
End Stringify.

(** * Arguments *)

(** The replacer argument of [json_stringify_replacer_space]: the keys of an
    array are its strings and numbers. *)
Section Arguments.
Context `{NumberFormat}.

(** [ryu_buffer.format], which also takes the numbers that are not finite. *)
Definition ryu_format (bits : Z) : list Z :=
  if Z.land bits EXP_MASK =? EXP_MASK then
    if negb (Z.land bits (2 ^ 52 - 1) =? 0) then bs "NaN"
    else if negb (Z.land bits (2 ^ 63) =? 0) then bs "-inf" else bs "inf"
  else ryu_finite bits.

Definition replacer_key (v : value) : option (list Z) :=
  match v with
  | VString s => Some s
  | VInt n => Some (itoa n)
  | VFloat bits => Some (ryu_format bits)
  | _ => None
  end.

Definition replacer_keys (elems : list value) : list (list Z) := omap replacer_key elems.

Inductive replacer_arg :=
  | ReplacerFunction (f : option loc → list Z → value → res js_error value)
  | ReplacerArray (elems : list value)
  | ReplacerOther.

Definition options_of (replacer : option replacer_arg) : options :=
  match replacer with
  | Some (ReplacerFunction f) => mkOptions (Some f) None
  | Some (ReplacerArray elems) => mkOptions None (Some (replacer_keys elems))
  | _ => no_options
  end.

(** [space]: a string is truncated to 20 bytes, a number gives up to ten
    blanks; only looked at when a replacer argument is present.  [truncate]
    panics inside a character.  [SpaceNone] is every other argument. *)
Inductive space_arg := SpaceNone | SpaceString (s : rstring) | SpaceInt (n : Z).

Fixpoint truncate_chars (s : rstring) (n : nat) : option rstring :=
  match s with
  | [] => Some []
  | c :: s =>
      if (n =? 0)%nat then Some []
      else if (length (encode_char c) <=? n)%nat
      then cons c <$> truncate_chars s (n - length (encode_char c))
      else None
  end.

Definition space_value (has_replacer : bool) (space : space_arg) : res js_error (option (list Z)) :=
  if has_replacer then
    match space with
    | SpaceString s => s ← or_panic (truncate_chars s 20); Ok (Some (to_utf8 s))
    | SpaceInt n => Ok (if 0 <? n then Some (replicate (Z.to_nat (Z.min 10 n)) 32) else None)
    | SpaceNone => Ok None
    end
  else Ok None.

(** [JSON.stringify(value, replacer, space)] *)
Definition stringify (h : heap) (fuel : nat) (v : value) (replacer : option replacer_arg)
    (space : space_arg) : res js_error (option (list Z)) :=
  indentation ← space_value (bool_decide (is_Some replacer)) space;
  json_stringify_replacer_space h (options_of replacer) fuel v indentation.
End Arguments.
