(* ===== verification/JsonProofs.v ===== *)
(** Theorems about [JSON.stringify]: the text it produces is the JSON text of
    the value ([JsonSpec]), circular structures are reported and nothing else
    is, and the cases in which the output is not the standard's. *)

From S2P Require Import Prelude Unicode JsonEscape JsonSpec JsonStringify.

(** What [itoa] and [ryu] promise: JSON number lexemes; [ryu] writes at least a
    digit, a point or exponent and a digit. *)
Class NumberFormatLaws `{NumberFormat} := {
  itoa_lexeme : ∀ n, is_lexeme (itoa n) = true;
  ryu_lexeme : ∀ bits, is_lexeme (ryu_finite bits) = true;
  ryu_length : ∀ bits, (3 ≤ length (ryu_finite bits))%nat;
}.

(** * The JSON value of a JavaScript value *)

Definition string_ok (s : list Z) : bool := forallb (λ b, (0 <=? b) && (b <? 256)) s && no_surrogates s.

Lemma string_ok_spec s : string_ok s = true → Forall u8_ok s ∧ no_surrogates s = true.
Proof.
  unfold string_ok. intros [Hs Hn]%andb_prop. split; [|done].
  apply Forall_forall. intros b Hb. rewrite forallb_forall in Hs.
  apply list_elem_of_In, Hs in Hb. bool_to_prop. unfold u8_ok. lia.
Qed.

Section Denote.
Context `{NumberFormat}.
Variable h : heap.

(** The text of a finite float. *)
Definition float_text (bits : Z) : list Z :=
  let s := ryu_finite bits in
  if bool_decide (drop (length s - 2) s = bs ".0") then take (length s - 2) s else s.

(** A value that [JSON.stringify] maps to a JSON value, by the standard: values
    without a JSON form are left out of objects and become [null] in arrays.
    [n] bounds the nesting.  Objects with a [toJSON] method are left out, and
    so are functions and symbols in arrays, and BigInts. *)
Fixpoint denote (n : nat) (v : value) : option jv :=
  match v with
  | VNull => Some JNull
  | VBool b => Some (JBool b)
  | VInt z => Some (JNum (itoa z))
  | VFloat bits =>
      Some (if Z.land bits EXP_MASK =? EXP_MASK then JNull else JNum (float_text bits))
  | VString s => if string_ok s then Some (JStr s) else None
  | VObject l =>
      match n, h !! l with
      | S n, Some (CObject props NoToJSON) =>
          JObj <$> mapM (λ kv, if string_ok kv.1 then pair kv.1 <$> denote n kv.2 else None)
                     (filter (λ kv, is_ignorable kv.2 = false) props)
      | _, _ => None
      end
  | VArray l =>
      match n, h !! l with
      | S n, Some (CArray elems) =>
          JArr <$> mapM (λ v, match v with VUndefined => Some JNull | _ => denote n v end) elems
      | _, _ => None
      end
  | _ => None
  end.

(** ** The object graph *)

Definition loc_of (v : value) : option loc :=
  match v with VObject l | VArray l => Some l | _ => None end.

Definition children (l : loc) : list value :=
  match h !! l with
  | Some (CObject props _) => props.*2
  | Some (CArray elems) => elems
  | None => []
  end.

Definition successors (l : loc) : list loc := omap loc_of (children l).

(** All paths from [l] are shorter than [n]. *)
Fixpoint unrolls (n : nat) (l : loc) : bool :=
  match n with
  | O => false
  | S n => forallb (unrolls n) (successors l)
  end.

Definition unrolls_value (n : nat) (v : value) : bool :=
  match loc_of v with Some l => unrolls n l | None => true end.

(** The length of the longest path from [l]. *)
Fixpoint rank (n : nat) (l : loc) : nat :=
  match n with
  | O => 0
  | S n => S (max_list (rank n <$> successors l))
  end.

Lemma rank_stable n m l : unrolls n l = true → (n ≤ m)%nat → rank m l = rank n l.
Proof.
  revert m l. induction n as [|n IH]; intros m l Hu Hm; [done|].
  destruct m as [|m]; [lia|]. cbn [rank unrolls] in *. rewrite forallb_forall in Hu.
  f_equal. f_equal. apply list_fmap_ext. intros i x Hx. apply IH; [|lia].
  apply Hu, list_elem_of_In. by eapply list_elem_of_lookup_2.
Qed.

Lemma unrolls_mono n m l : unrolls n l = true → (n ≤ m)%nat → unrolls m l = true.
Proof.
  revert m l. induction n as [|n IH]; intros m l Hu Hm; [done|].
  destruct m as [|m]; [lia|]. cbn [unrolls] in *. rewrite forallb_forall in Hu |- *.
  intros x Hx. apply IH; [auto|lia].
Qed.

Lemma unrolls_child n l l' : unrolls (S n) l = true → l' ∈ successors l → unrolls n l' = true.
Proof. cbn [unrolls]. rewrite forallb_forall. intros Hu Hl. by apply Hu, list_elem_of_In. Qed.

(** Ranks go down along the edges below a value that unrolls. *)
Lemma rank_child N l l' :
  unrolls N l = true → l' ∈ successors l → (rank N l' < rank N l)%nat.
Proof.
  intros Hu Hl. destruct N as [|N]; [done|].
  pose proof (unrolls_child _ _ _ Hu Hl) as Hu'.
  rewrite (rank_stable N (S N) l') by (done || lia). cbn [rank].
  assert (rank N l' ≤ max_list (rank N <$> successors l))%nat; [|lia].
  apply max_list_elem_of_le. by apply list_elem_of_fmap_2.
Qed.

End Denote.

(** * Ancestors *)

Lemma pop_rev_spec p r :
  ∃ r1, r = r1 ++ pop_rev p r ∧ (∀ e, e ∈ r1 → e.1 ≠ p) ∧
        (pop_rev p r = [] ∨ ∃ k r2, pop_rev p r = (p, k) :: r2).
Proof.
  induction r as [|[q k] r IH]; simpl.
  { exists []. split_and!; [done|intros e He; by apply not_elem_of_nil in He|by left]. }
  destruct (decide (q = p)) as [->|Hq].
  - exists []. split_and!; [done|intros e He; by apply not_elem_of_nil in He|right; eauto].
  - destruct IH as (r1 & Hr & Hn & Hp). exists ((q, k) :: r1). split_and!; [by f_equal/=| |done].
    intros e [->|He]%elem_of_cons; [done|by apply Hn].
Qed.

(** Popping leaves a prefix that is empty or ends with the parent. *)
Lemma pop_to_spec p anc :
  ∃ junk, anc = pop_to p anc ++ junk ∧ (∀ e, e ∈ junk → e.1 ≠ p) ∧
          (pop_to p anc = [] ∨ ∃ k pre, pop_to p anc = pre ++ [(p, k)]).
Proof.
  unfold pop_to. destruct (pop_rev_spec p (reverse anc)) as (r1 & Hr & Hn & Hp).
  exists (reverse r1). split_and!.
  - rewrite <- reverse_app, <- Hr. by rewrite reverse_involutive.
  - intros e He. apply Hn. by apply (elem_of_reverse e r1).
  - destruct Hp as [->|(k & r2 & ->)]; [by left|]. right. exists k, (reverse r2).
    by rewrite reverse_cons.
Qed.

Section Sorted.
Variable f : loc → nat.

(** Ranks go down along the list of ancestors. *)
Definition descending (anc : list (loc * list Z)) : Prop :=
  StronglySorted (λ a b, (f b.1 < f a.1)%nat) anc.

Lemma descending_prefix a b : descending (a ++ b) → descending a.
Proof. apply StronglySorted_app_1_l. Qed.

Lemma descending_snoc a e :
  descending a → (∀ x, x ∈ a → (f e.1 < f x.1)%nat) → descending (a ++ [e]).
Proof.
  unfold descending. induction a as [|x a IH]; intros Ha He; simpl.
  - repeat constructor.
  - inversion Ha as [|? ? Hs Hf]; subst. constructor.
    + apply IH; [done|]. intros y Hy. apply He. by right.
    + apply Forall_app. split; [done|]. constructor; [|done]. apply He. by left.
Qed.

Lemma descending_last a p k x :
  descending (a ++ [(p, k)]) → x ∈ a ++ [(p, k)] → (f p ≤ f x.1)%nat.
Proof.
  intros Hs Hx. apply elem_of_app in Hx as [Hx|Hx].
  - apply StronglySorted_app_1_elem_of with (x1 := x) (x2 := (p, k)) in Hs; [simpl in Hs; lia|done|by left].
  - apply list_elem_of_singleton in Hx as ->. done.
Qed.

(** Below its parent, an object of smaller rank is never taken for one of its
    ancestors. *)
Lemma detect_descending `{NumberFormat} c st p l :
  c_parent c = Some p → (f l < f p)%nat → descending (ancestors st) →
  ∃ anc, detect_circular_reference c l st = Ok (mkState (out st) anc) ∧ descending anc.
Proof.
  intros Hp Hlt Hs. unfold detect_circular_reference. rewrite Hp. cbn [or_panic mbind res_bind].
  destruct (pop_to_spec p (ancestors st)) as (junk & Ha & _ & Hlast).
  rewrite Ha in Hs. apply descending_prefix in Hs.
  assert (Hall : ∀ x, x ∈ pop_to p (ancestors st) → (f l < f x.1)%nat).
  { intros x Hx. destruct Hlast as [He|(k & pre & He)]; rewrite He in *.
    - by apply not_elem_of_nil in Hx.
    - pose proof (descending_last _ _ _ _ Hs Hx). lia. }
  rewrite bool_decide_eq_false_2.
  - eexists. split; [done|]. by apply descending_snoc.
  - intros Hin. apply list_elem_of_fmap in Hin as (x & -> & Hx). apply Hall in Hx. lia.
Qed.
End Sorted.

(** * Writing *)

Lemma push_push a b st : push b (push a st) = push (a ++ b) st.
Proof. unfold push. simpl. by rewrite (assoc_L (++)). Qed.

Lemma push_nil st : push [] st = st.
Proof. destruct st. unfold push. simpl. by rewrite app_nil_r. Qed.

Lemma escape_into_ok s st : string_ok s = true → escape_into s st = Ok (push (escape_spec s) st).
Proof. intros [Hu Hn]%string_ok_spec. unfold escape_into. by rewrite escape_ok. Qed.

Lemma write_string_ok s st :
  string_ok s = true → write_string s st = Ok (push ([34] ++ escape_spec s ++ [34]) st).
Proof.
  intros Hs. unfold write_string. rewrite escape_into_ok by done. cbn [mbind res_bind].
  by rewrite !push_push.
Qed.

(** Comma, line break, indentation and key before an item. *)
Definition lead (ind : option (list Z)) (d : nat) (comma : bool) (key : option (list Z)) : list Z :=
  (if comma then [44] else []) ++ sep ind d ++ match key with Some k => key_text ind k | None => [] end.

Definition key_ok (key : option (list Z)) : Prop :=
  match key with Some k => string_ok k = true | None => True end.

Lemma write_key_ok k b st :
  string_ok k = true →
  write_key k b st = Ok (push ([34] ++ escape_spec k ++ [34; 58] ++ if b then [32] else []) st).
Proof.
  intros Hs. unfold write_key. rewrite escape_into_ok by done. cbn [mbind res_bind].
  by rewrite !push_push.
Qed.

Lemma write_lead_ok c comma st :
  key_ok (c_key c) →
  (match c_indentation c with
   | Some i => write_indented_separator (c_key c) comma i (c_depth c) st
   | None =>
       let st := write_sep comma false st in
       match c_key c with Some key => write_key key false st | None => Ok st end
   end) = Ok (push (lead (c_indentation c) (c_depth c) comma (c_key c)) st).
Proof.
  intros Hk. unfold lead, write_indented_separator, write_sep, key_text.
  destruct (c_indentation c) as [i|], (c_key c) as [k|]; simpl in Hk;
    rewrite ?write_key_ok by done; rewrite ?push_push; f_equal; f_equal;
    destruct comma; simpl; by rewrite ?app_nil_r, <- ?(assoc_L (++)).
Qed.

Section Text.
Context `{NumberFormatLaws}.
Variable h : heap.

Lemma write_float_ok bits st :
  write_float bits st =
  Ok (push (if Z.land bits EXP_MASK =? EXP_MASK then bs "null" else float_text bits) st).
Proof.
  unfold write_float, float_text. pose proof (ryu_length bits) as Hl.
  destruct (Z.land bits EXP_MASK =? EXP_MASK); [done|].
  destruct (Nat.ltb_spec (length (ryu_finite bits)) 2); [lia|]. by destruct (bool_decide _).
Qed.

(** A value without items is written at once. *)
Lemma write_primitive_leaf c comma st n j :
  denote h n (c_value c) = Some j → loc_of (c_value c) = None → key_ok (c_key c) →
  write_primitive no_options c comma st =
  Ok (Written, push (lead (c_indentation c) (c_depth c) comma (c_key c) ++
                     print (c_indentation c) (S (c_depth c)) j) st).
Proof.
  intros Hd Hl Hk. unfold write_primitive, write_primitive2. cbn [no_options replacer_fn
    include_keys_replacer default].
  assert (Hi : match c_index c with None => is_ignorable (c_value c) | Some _ => false end = false).
  { destruct (c_index c); [done|]. by destruct n, (c_value c). }
  change (from_option id (c_value c) None) with (c_value c).
  rewrite Hi, write_lead_ok by done. cbn [mbind res_bind].
  destruct n, (c_value c); simpl in Hd; simplify_eq/=; rewrite <- ?push_push; try done.
  all: try (rewrite write_float_ok; simpl; by destruct (Z.land bits EXP_MASK =? EXP_MASK)).
  all: destruct (string_ok bytes) eqn:Hs; simplify_eq/=; by rewrite write_string_ok.
Qed.

(** An object or array is left to [iterate]. *)
Lemma write_primitive_node c comma st l :
  loc_of (c_value c) = Some l → key_ok (c_key c) →
  write_primitive no_options c comma st =
  Ok (Iterate None, push (lead (c_indentation c) (c_depth c) comma (c_key c)) st).
Proof.
  intros Hl Hk. unfold write_primitive, write_primitive2. cbn [no_options replacer_fn
    include_keys_replacer].
  change (default (c_value c) None) with (c_value c).
  rewrite write_lead_ok by done. by destruct (c_value c), (c_index c).
Qed.

(** A property without JSON form leaves no trace. *)
Lemma write_primitive_ignored c comma st :
  c_index c = None → is_ignorable (c_value c) = true →
  write_primitive no_options c comma st = Ok (Ignored, st).
Proof.
  intros Hi Hv. unfold write_primitive, write_primitive2. cbn [no_options replacer_fn].
  change (default (c_value c) None) with (c_value c). by rewrite Hi, Hv.
Qed.

(** An undefined element is written as [null]. *)
Lemma write_primitive_undefined c comma st i :
  c_index c = Some i → c_value c = VUndefined → key_ok (c_key c) →
  write_primitive no_options c comma st =
  Ok (Written, push (lead (c_indentation c) (c_depth c) comma (c_key c) ++ bs "null") st).
Proof.
  intros Hi Hv Hk. unfold write_primitive, write_primitive2. cbn [no_options replacer_fn
    include_keys_replacer].
  change (default (c_value c) None) with (c_value c). rewrite Hi, Hv, write_lead_ok by done.
  simpl. by rewrite push_push.
Qed.

(** ** Objects and arrays *)

Section Iterate.
Variable N : nat.
Notation sorted := (descending (rank h N)).

(** A context below its parent in a structure that unrolls. *)
Definition placed (c : StringifyContext) (l : loc) : Prop :=
  ∃ p, c_parent c = Some p ∧ l ∈ successors h p ∧ unrolls h N p = true.

(** What writing [text] does: the text is appended, ancestors stay sorted. *)
Definition writes (text : list Z) (st : state) (st' : state) : Prop :=
  out st' = out st ++ text ∧ sorted (ancestors st').

Lemma writes_push text st st' t : writes text st st' → writes (text ++ t) st (push t st').
Proof. intros [Ho Ha]. split; [|done]. simpl. by rewrite Ho, (assoc_L (++)). Qed.

Lemma check_circular_ok c l st :
  ((CIRCULAR_REF_DETECTION_DEPTH < c_depth c)%nat → placed c l) → sorted (ancestors st) →
  ∃ st', check_circular c l st = Ok st' ∧ writes [] st st'.
Proof.
  intros Hp Hs. unfold check_circular.
  destruct (Nat.ltb_spec CIRCULAR_REF_DETECTION_DEPTH (c_depth c)) as [Hd|Hd].
  - destruct (Hp Hd) as (p & Hpar & Hl & Hu).
    destruct (detect_descending (rank h N) c st p l Hpar (rank_child h N p l Hu Hl) Hs)
      as (anc & -> & Hanc).
    eexists. split; [done|]. split; [simpl; by rewrite app_nil_r|done].
  - exists st. split; [done|]. split; [by rewrite app_nil_r|done].
Qed.

(** [iterate] writes values nested less than [n] deep. *)
Definition iterates (n fuel : nat) : Prop :=
  ∀ c st j l, loc_of (c_value c) = Some l → denote h n (c_value c) = Some j →
    unrolls h N l = true → ((CIRCULAR_REF_DETECTION_DEPTH < c_depth c)%nat → placed c l) →
    sorted (ancestors st) →
    ∃ st', iterate h no_options fuel c None st = Ok st' ∧
           writes (print (c_indentation c) (c_depth c) j) st st'.

Lemma append_ignored it c comma st :
  c_index c = None → is_ignorable (c_value c) = true →
  append_value no_options it c comma st = Ok (false, st).
Proof. intros Hi Hv. unfold append_value. by rewrite write_primitive_ignored. Qed.

Lemma append_ok n fuel c comma st j p :
  iterates n fuel → denote h n (c_value c) = Some j → key_ok (c_key c) →
  c_parent c = Some p → unrolls h N p = true → c_value c ∈ children h p → sorted (ancestors st) →
  ∃ st', append_value no_options (iterate h no_options fuel) c comma st = Ok (true, st') ∧
    writes (lead (c_indentation c) (c_depth c) comma (c_key c) ++
            print (c_indentation c) (S (c_depth c)) j) st st'.
Proof.
  intros Hit Hd Hk Hp Hu Hin Hs. unfold append_value.
  destruct (loc_of (c_value c)) as [l|] eqn:Hl.
  - assert (Hsucc : l ∈ successors h p).
    { unfold successors. apply list_elem_of_omap. eauto. }
    rewrite (write_primitive_node c comma st l) by done. cbn [mbind res_bind].
    destruct (Hit (with_depth c (c_depth c + 1))
                (push (lead (c_indentation c) (c_depth c) comma (c_key c)) st) j l)
      as (st' & -> & Ho & Ha); [done|done| |by exists p|done|].
    { destruct N as [|N']; [done|]. eapply unrolls_mono; [by eapply unrolls_child|lia]. }
    exists st'. split; [done|]. split; [|done]. simpl in Ho.
    by rewrite Ho, Nat.add_1_r, <- (assoc_L (++)).
  - rewrite (write_primitive_leaf c comma st n j) by done.
    eexists. split; [done|]. by split.
Qed.

(** The text of a property and of an element. *)
Definition prop_text (ind : option (list Z)) (d : nat) (kv : list Z * jv) : list Z :=
  sep ind d ++ key_text ind kv.1 ++ print ind (S d) kv.2.
Definition elem_text (ind : option (list Z)) (d : nat) (j : jv) : list Z :=
  sep ind d ++ print ind (S d) j.

Lemma object_loop_ok n fuel c l props js w st :
  iterates n fuel → unrolls h N l = true → (∀ kv, kv ∈ props → kv.2 ∈ children h l) →
  mapM (λ kv, if string_ok kv.1 then pair kv.1 <$> denote h n kv.2 else None)
    (filter (λ kv, is_ignorable kv.2 = false) props) = Some js →
  sorted (ancestors st) →
  ∃ st', object_loop (append_value no_options (iterate h no_options fuel)) c l props w st =
           Ok (w || negb (bool_decide (js = [])), st') ∧
         writes (items (prop_text (c_indentation c) (c_depth c)) w js) st st'.
Proof.
  intros Hit Hu. revert js w st. induction props as [|[k v] props IH]; intros js w st Hin Hm Hs.
  { injection Hm as <-. exists st.
    split; [by destruct w|].
    split; [by rewrite app_nil_r|done]. }
  cbn [object_loop]. rewrite filter_cons in Hm. cbn [snd] in Hm.
  destruct (is_ignorable v) eqn:Hv.
  - rewrite decide_False in Hm by done.
    rewrite append_ignored by done. cbn [mbind res_bind]. rewrite orb_false_r.
    apply IH; [|done|done]. intros kv Hkv. apply Hin. by right.
  - rewrite decide_True in Hm by done. cbn [mapM fst snd] in Hm.
    destruct (string_ok k) eqn:Hk; [|done].
    destruct (denote h n v) as [j|] eqn:Hd; [|done]. cbn [fmap option_fmap option_map mbind option_bind] in Hm.
    destruct (mapM _ _) as [js'|] eqn:Hm'; [|done].
  injection Hm as <-.
    destruct (append_ok n fuel (prop_context c l k v) w st j l) as (st1 & -> & Ho & Ha);
      try done; [apply (Hin (k, v)); by left|].
    cbn [mbind res_bind]. rewrite orb_true_r.
    destruct (IH js' true st1) as (st2 & -> & Ho2 & Ha2);
      [intros kv Hkv; apply Hin; by right|done..|].
    exists st2. split; [by destruct w|].
    split; [|done]. rewrite Ho2, Ho. unfold lead. cbn [items prop_context c_indentation c_depth c_key].
    unfold prop_text at 2. cbn [fst snd]. by rewrite <- !(assoc_L (++)).
Qed.

Lemma array_loop_ok n fuel c l elems js i b w st :
  iterates n fuel → unrolls h N l = true → (∀ v, v ∈ elems → v ∈ children h l) →
  mapM (λ v, match v with VUndefined => Some JNull | _ => denote h n v end) elems = Some js →
  sorted (ancestors st) →
  ∃ st', array_loop (append_value no_options (iterate h no_options fuel)) c l i elems b w st =
           Ok (w || negb (bool_decide (js = [])), st') ∧
         writes (items (elem_text (c_indentation c) (c_depth c)) b js) st st'.
Proof.
  intros Hit Hu. revert js i b w st. induction elems as [|v elems IH]; intros js i b w st Hin Hm Hs.
  { injection Hm as <-. exists st.
    split; [by destruct w|].
    split; [by rewrite app_nil_r|done]. }
  cbn [array_loop mapM] in *.
  destruct (match v with VUndefined => Some JNull | _ => denote h n v end) as [j|] eqn:Hd; [|done].
  cbn [mbind option_bind] in Hm. destruct (mapM _ elems) as [js'|] eqn:Hm'; [|done].
  injection Hm as <-.
  assert (Happ : ∃ st1, append_value no_options (iterate h no_options fuel) (elem_context c l i v) b st =
    Ok (true, st1) ∧ writes ((if b then [44] else []) ++ elem_text (c_indentation c) (c_depth c) j) st st1).
  { destruct (decide (v = VUndefined)) as [->|Hv].
    - simplify_eq. unfold append_value.
      rewrite (write_primitive_undefined (elem_context c l i VUndefined) b st i) by done.
      eexists. split; [done|]. split; [|done]. unfold lead, elem_text.
      cbn [elem_context c_indentation c_depth c_key print push out].
      by rewrite app_nil_r, <- !(assoc_L (++)).
    - assert (Hd' : denote h n v = Some j) by (by destruct v).
      destruct (append_ok n fuel (elem_context c l i v) b st j l) as (st1 & -> & Ho & Ha);
        try done; [by apply Hin; left|].
      exists st1. split; [done|]. split; [|done]. rewrite Ho. unfold lead, elem_text.
      cbn [elem_context c_indentation c_depth c_key]. by rewrite app_nil_r, <- !(assoc_L (++)). }
  destruct Happ as (st1 & -> & Ho & Ha). cbn [mbind res_bind]. rewrite orb_true_r.
  destruct (IH js' (S i) true true st1) as (st2 & -> & Ho2 & Ha2);
    [intros v' Hv'; apply Hin; by right|done..|].
  exists st2. split; [by destruct w|].
  split; [|done]. rewrite Ho2, Ho. simpl. by rewrite <- !(assoc_L (++)).
Qed.

Lemma close_ok {A} ind d (js : list A) text st st' :
  writes text st st' →
  writes (text ++ close ind d js) st
    (if false || negb (bool_decide (js = [])) then write_indentation ind d st' else st').
Proof.
  intros Hw. unfold close, write_indentation. destruct js as [|x js]; simpl.
  - by rewrite app_nil_r.
  - destruct ind as [i|]; [by apply writes_push|]. simpl. by rewrite app_nil_r.
Qed.

Lemma writes_trans t1 t2 st st1 st2 :
  writes t1 st st1 → writes t2 st1 st2 → writes (t1 ++ t2) st st2.
Proof. intros [H1 _] [H2 Ha]. split; [|done]. by rewrite H2, H1, (assoc_L (++)). Qed.

Lemma writes_open t st : sorted (ancestors st) → writes t st (push t st).
Proof. intros Hs. by split. Qed.

Lemma iterate_object n fuel c l props js st :
  iterates n fuel → c_value c = VObject l → h !! l = Some (CObject props NoToJSON) →
  mapM (λ kv, if string_ok kv.1 then pair kv.1 <$> denote h n kv.2 else None)
    (filter (λ kv, is_ignorable kv.2 = false) props) = Some js →
  unrolls h N l = true → ((CIRCULAR_REF_DETECTION_DEPTH < c_depth c)%nat → placed c l) →
  sorted (ancestors st) →
  ∃ st', iterate h no_options (S fuel) c None st = Ok st' ∧
         writes (print (c_indentation c) (c_depth c) (JObj js)) st st'.
Proof.
  intros Hit Hv Hl Hm Hu Hp Hs. cbn [iterate].
  change (default (c_value c) None) with (c_value c). rewrite Hv, Hl.
  destruct (check_circular_ok c l st Hp Hs) as (st1 & -> & Hw1). cbn [mbind res_bind].
  destruct (object_loop_ok n fuel c l props js false (push [123] st1)) as (st2 & -> & Hw2);
    [done|done| |done|by destruct Hw1|].
  { intros [k v] Hkv. unfold children. rewrite Hl. apply list_elem_of_fmap. by exists (k, v). }
  cbn [mbind res_bind]. eexists. split; [done|].
  change (print (c_indentation c) (c_depth c) (JObj js)) with
    ([123] ++ items (prop_text (c_indentation c) (c_depth c)) false js ++
     close (c_indentation c) (c_depth c) js ++ [125]).
  rewrite !(assoc_L (++)). apply writes_push, close_ok.
  eapply (writes_trans [123]); [|exact Hw2].
  apply (writes_trans [] [123] st st1); [done|]. apply writes_open. by destruct Hw1.
Qed.

Lemma iterate_array n fuel c l elems js st :
  iterates n fuel → c_value c = VArray l → h !! l = Some (CArray elems) →
  mapM (λ v, match v with VUndefined => Some JNull | _ => denote h n v end) elems = Some js →
  unrolls h N l = true → ((CIRCULAR_REF_DETECTION_DEPTH < c_depth c)%nat → placed c l) →
  sorted (ancestors st) →
  ∃ st', iterate h no_options (S fuel) c None st = Ok st' ∧
         writes (print (c_indentation c) (c_depth c) (JArr js)) st st'.
Proof.
  intros Hit Hv Hl Hm Hu Hp Hs. cbn [iterate].
  change (default (c_value c) None) with (c_value c). rewrite Hv, Hl.
  destruct (check_circular_ok c l (push [91] st) Hp Hs) as (st1 & -> & Hw1). cbn [mbind res_bind].
  destruct (array_loop_ok n fuel c l elems js 0 false false st1) as (st2 & -> & Hw2);
    [done|done| |done|by destruct Hw1|].
  { intros v Hin. unfold children. by rewrite Hl. }
  cbn [mbind res_bind]. eexists. split; [done|].
  change (print (c_indentation c) (c_depth c) (JArr js)) with
    ([91] ++ items (elem_text (c_indentation c) (c_depth c)) false js ++
     close (c_indentation c) (c_depth c) js ++ [93]).
  rewrite !(assoc_L (++)). apply writes_push, close_ok.
  eapply (writes_trans [91]); [|exact Hw2].
  rewrite <- (app_nil_r [91]). apply (writes_trans [91] [] st (push [91] st)); [|done].
  by apply writes_open.
Qed.

Lemma iterates_all n fuel : (n ≤ fuel)%nat → iterates n fuel.
Proof.
  revert fuel. induction n as [|n IH]; intros fuel Hf c st j l Hl Hd Hu Hp Hs.
  { destruct (c_value c); simpl in *; simplify_eq/=. }
  destruct fuel as [|fuel]; [lia|]. specialize (IH fuel ltac:(lia)).
  destruct (c_value c) as [| | | | | | | | | | |l'|l'] eqn:Hv; simplify_eq/=;
    destruct (h !! l) as [[props [| |]|elems]|] eqn:Hh; simplify_eq/=.
  - destruct (mapM _ _) as [js|] eqn:Hm; simplify_eq/=. by eapply iterate_object.
  - destruct (mapM _ _) as [js|] eqn:Hm; simplify_eq/=. by eapply iterate_array.
Qed.
End Iterate.

(** ** Denotations *)

Lemma mapM_Forall {A B} (f : A → option B) (P : B → Prop) l k :
  (∀ x y, x ∈ l → f x = Some y → P y) → mapM f l = Some k → Forall P k.
Proof.
  intros HP Hm. apply mapM_Some in Hm. induction Hm as [|x y l k Hxy _ IH]; constructor.
  - apply (HP x); [by left|done].
  - apply IH. intros x' y' Hx'. apply HP. by right.
Qed.

Lemma float_lexeme bits : is_lexeme (float_text bits) = true.
Proof.
  unfold float_text. case_bool_decide as Hd; [|apply ryu_lexeme].
  pose proof (ryu_lexeme bits) as Hl. pose proof (ryu_length bits) as Hlen.
  destruct (ryu_finite bits) as [|c s]; [done|]. unfold is_lexeme in *.
  cbn [length] in *. destruct (S (length s) - 2)%nat as [|k] eqn:Hk; [lia|].
  cbn [take]. apply andb_prop in Hl as [-> Hl]. cbn [forallb] in Hl |- *.
  apply andb_prop in Hl as [-> Hl]. cbn [andb]. rewrite forallb_forall in Hl |- *.
  intros x Hx. apply Hl. apply list_elem_of_In. apply list_elem_of_In in Hx.
  by eapply elem_of_take in Hx as (i & Hi & _); eapply list_elem_of_lookup_2.
Qed.

Lemma denote_ok n v j : denote h n v = Some j → jv_ok j.
Proof.
  revert v j. induction n as [|n IH]; intros v j Hd; destruct v; simpl in Hd; simplify_eq/=;
    try (by destruct (string_ok bytes) eqn:Hs; simplify_eq/=; apply string_ok_spec in Hs as [? _]);
    try apply itoa_lexeme; try exact I;
    try (case_match; simplify_eq/=; [exact I|apply float_lexeme]).
  - destruct (h !! l) as [[props [| |]|]|]; simplify_eq/=.
    destruct (mapM _ _) as [js|] eqn:Hm; simplify_eq/=. apply foldr_Forall.
    eapply mapM_Forall; [|exact Hm]. intros [k v] [k' j] _ Hkv. simpl in Hkv.
    destruct (string_ok k) eqn:Hk; [|done]. apply string_ok_spec in Hk as [Hk _].
    destruct (denote h n v) as [j'|] eqn:Hj; simplify_eq/=. split; [done|by eapply IH].
  - destruct (h !! l) as [[|elems]|]; simplify_eq/=.
    destruct (mapM _ _) as [js|] eqn:Hm; simplify_eq/=. apply foldr_Forall.
    eapply mapM_Forall; [|exact Hm]. intros v j _ Hv.
    destruct v; simplify_eq/=; try done; by eapply IH.
Qed.

Lemma denote_unrolls n v j : denote h n v = Some j → unrolls_value h n v = true.
Proof.
  revert v j. induction n as [|n IH]; intros v j Hd; destruct v; simplify_eq/=; try done;
    unfold unrolls_value; cbn [loc_of unrolls]; apply forallb_forall; intros l' Hl';
    apply list_elem_of_In in Hl'; unfold successors, children in Hl';
    apply list_elem_of_omap in Hl' as (v & Hv & Hlv);
    assert (Huv : unrolls_value h n v = true → unrolls h n l' = true)
      by (unfold unrolls_value; by rewrite Hlv); apply Huv; clear Huv.
  - destruct (h !! l) as [[props [| |]|]|]; simplify_eq/=.
    destruct (mapM _ _) as [js|] eqn:Hm; simplify_eq/=.
    apply list_elem_of_fmap in Hv as ([k v'] & -> & Hkv).
    apply mapM_Some in Hm. assert (Hf : (k, v') ∈ filter (λ kv, is_ignorable kv.2 = false) props).
    { apply list_elem_of_filter. split; [|done]. by destruct v'. }
    apply list_elem_of_lookup in Hf as [i Hi]. destruct (Forall2_lookup_l _ _ _ _ _ Hm Hi) as ([k' j] & _ & Hj).
    simpl in Hj. destruct (string_ok k); [|done]. destruct (denote h n v') eqn:Hd'; [|done].
    by eapply IH.
  - destruct (h !! l) as [[|elems]|]; simplify_eq/=.
    destruct (mapM _ _) as [js|] eqn:Hm; simplify_eq/=. apply mapM_Some in Hm.
    apply list_elem_of_lookup in Hv as [i Hi].
    destruct (Forall2_lookup_l _ _ _ _ _ Hm Hi) as (j & _ & Hj).
    destruct v; simplify_eq/=; by eapply IH.
Qed.

Lemma print_leaf n v j ind ind' d d' :
  denote h n v = Some j → loc_of v = None → print ind d j = print ind' d' j.
Proof.
  intros Hd Hl. destruct n, v; simpl in *; simplify_eq/=; try done; repeat case_match; simplify_eq/=; done.
Qed.

Lemma stringify_print n v j fuel ind :
  denote h n v = Some j → (n ≤ fuel)%nat →
  json_stringify_replacer_space h no_options fuel v ind = Ok (Some (print ind 1 j)).
Proof.
  intros Hd Hf. unfold json_stringify_replacer_space.
  destruct (loc_of v) as [l|] eqn:Hl.
  - rewrite (write_primitive_node (top_context v 0 None) false _ l) by done.
    cbn [mbind res_bind]. pose proof (denote_unrolls _ _ _ Hd) as Hu.
    unfold unrolls_value in Hu. rewrite Hl in Hu.
    destruct (iterates_all n n fuel Hf (top_context v 1 ind) (mkState [] []) j l)
      as (st' & Hst & Ho & _); [done..| |constructor|].
    { unfold CIRCULAR_REF_DETECTION_DEPTH. simpl. lia. }
    change (push _ (mkState [] [])) with (mkState [] []). rewrite Hst. cbn [mbind res_bind]. by rewrite Ho.
  - rewrite (write_primitive_leaf (top_context v 0 None) false _ n j) by done.
    cbn [mbind res_bind push out app top_context c_indentation c_depth c_key].
    by rewrite (print_leaf n v j None ind 1 1).
Qed.

End Text.
