(* ===== verification/JsonCircular.v ===== *)
(** Circular structures in [JSON.stringify]: the search for circular references
    starts at depth 20 and remembers the objects on the current path; the
    theorem of this file is that it stops the recursion on every heap, reports
    exactly the values that cannot be unrolled, and so that [JSON.stringify]
    always returns. *)

From S2P Require Import Prelude Unicode JsonEscape JsonSpec JsonStringify JsonProofs.

Section Circular.
Context `{NumberFormatLaws}.
Variable h : heap.

(** * Heaps *)

(** Values without user code: no [toJSON], no BigInt, no encoded surrogates. *)
Definition value_ok (v : value) : bool :=
  match v with
  | VObject l => match h !! l with Some (CObject _ NoToJSON) => true | _ => false end
  | VArray l => match h !! l with Some (CArray _) => true | _ => false end
  | VString s => string_ok s
  | VBigInt => false
  | _ => true
  end.

Definition cell_ok (c : cell) : bool :=
  match c with
  | CObject props _ => forallb (λ kv, string_ok kv.1 && value_ok kv.2) props
  | CArray elems => forallb value_ok elems
  end.

Definition heap_ok : Prop := map_Forall (λ _ c, cell_ok c = true) h.

(** * Cycles *)

Notation edge a b := (b ∈ successors h a).

(** Objects that all have a successor among themselves cannot be unrolled. *)
Lemma closed_never_unrolls (S : list loc) :
  (∀ y, y ∈ S → ∃ y', y' ∈ S ∧ edge y y') → ∀ n y, y ∈ S → unrolls h n y = false.
Proof.
  intros HS n. induction n as [|n IH]; intros y Hy; [done|]. cbn [unrolls].
  destruct (HS y Hy) as (y' & Hy' & He). apply not_true_is_false. rewrite forallb_forall. intros Hall.
  specialize (Hall y'). rewrite (IH y' Hy') in Hall. apply list_elem_of_In in He. by apply Hall in He.
Qed.

Lemma never_unrolls_parent l l' :
  edge l l' → (∀ n, unrolls h n l' = false) → ∀ n, unrolls h n l = false.
Proof.
  intros He Hn n. destruct (unrolls h n l) eqn:Hu; [|done]. destruct n as [|n]; [done|].
  pose proof (unrolls_child h n l l' Hu He). by rewrite Hn in *.
Qed.

(** The remembered path: consecutive entries are edges. *)
Definition path (anc : list (loc * list Z)) : Prop :=
  ∀ pre a b post, anc = pre ++ a :: b :: post → edge a.1 b.1.

Lemma path_prefix a b : path (a ++ b) → path a.
Proof. intros Hp pre x y post ->. apply (Hp pre x y (post ++ b)). by rewrite <- (assoc_L (++)). Qed.

Lemma path_snoc anc e :
  path anc → (anc = [] ∨ ∃ pre p, anc = pre ++ [p] ∧ edge p.1 e.1) → path (anc ++ [e]).
Proof.
  intros Hp Hl pre a b post Heq. destruct post as [|z post _] using rev_ind.
  - rewrite (app_assoc pre [a] [b] : pre ++ a :: b :: [] = _) in Heq.
    apply app_inj_tail in Heq as [-> ->]. destruct Hl as [Hl|(pre' & p & Hl & He)].
    + by destruct pre.
    + by apply app_inj_tail in Hl as [-> ->].
  - assert (Hr : pre ++ a :: b :: post ++ [z] = (pre ++ a :: b :: post) ++ [z])
      by (rewrite <- (assoc_L (++)); done).
    rewrite Hr in Heq. apply app_inj_tail in Heq as [-> _]. by eapply Hp.
Qed.

(** An entry of the path that is a child of the last one is on a cycle. *)
Lemma path_cycle anc p k x :
  path (anc ++ [(p, k)]) → x ∈ (anc ++ [(p, k)]).*1 → edge p x → ∀ n, unrolls h n x = false.
Proof.
  intros Hp Hx He n. apply list_elem_of_fmap in Hx as (e & -> & Hx).
  apply list_elem_of_split in Hx as (a1 & a2 & Heq).
  apply (closed_never_unrolls ((e :: a2).*1)); [|by left].
  intros y Hy. apply list_elem_of_fmap in Hy as (ey & -> & Hy).
  apply list_elem_of_split in Hy as (b1 & b2 & Hb). destruct b2 as [|z b2].
  - exists e.1. split; [by left|].
    assert (Hlast : (anc ++ [(p, k)]) = (a1 ++ b1) ++ [ey]) by (by rewrite Heq, Hb, (assoc_L (++))).
    by apply app_inj_tail in Hlast as [_ <-].
  - exists z.1. split.
    + rewrite Hb, fmap_app. set_solver.
    + apply (Hp (a1 ++ b1) ey z b2). by rewrite Heq, Hb, (assoc_L (++)).
Qed.

(** * Bookkeeping *)

(** Distinct objects of the heap, along edges. *)
Definition tracked (anc : list (loc * list Z)) : Prop :=
  NoDup anc.*1 ∧ (∀ x, x ∈ anc.*1 → x ∈ dom h) ∧ path anc.

(** Below depth 21 the path to the parent [p], [pk], is remembered. *)
Definition anchored (D : nat) (p : loc) (pk anc : list (loc * list Z)) : Prop :=
  (21 < D)%nat →
  (∃ junk, anc = pk ++ junk) ∧ (∃ pre k, pk = pre ++ [(p, k)]) ∧ (D - 21 ≤ length pk)%nat.

Lemma tracked_length anc : tracked anc → (length anc ≤ size h)%nat.
Proof.
  intros (Hn & Hd & _). rewrite <- size_dom, <- (length_fmap fst anc). unfold size, set_size. simpl.
  apply submseteq_length, NoDup_submseteq; [done|]. intros x Hx. by apply elem_of_elements, Hd.
Qed.

Lemma anchored_fuel fuel D p pk anc :
  tracked anc → anchored D p pk anc → (22 + size h ≤ fuel + D)%nat → (1 ≤ fuel)%nat.
Proof.
  intros Ht Ha Hf. pose proof (tracked_length anc Ht) as Hl.
  destruct (decide (21 < D)%nat) as [HD|HD]; [|lia].
  destruct (Ha HD) as ((junk & ->) & _ & Hlen). rewrite length_app in Hl. lia.
Qed.

Lemma tracked_prefix a b : tracked (a ++ b) → tracked a.
Proof.
  intros (Hn & Hd & Hp). rewrite fmap_app in *. split_and!.
  - by apply NoDup_app in Hn as (? & _ & _).
  - intros x Hx. apply Hd. set_solver.
  - by eapply path_prefix.
Qed.

(** Popping to a remembered parent gives back the path to it. *)
Lemma pop_anchored p pk anc :
  tracked anc → (∃ junk, anc = pk ++ junk) → (∃ pre k, pk = pre ++ [(p, k)]) → pop_to p anc = pk.
Proof.
  intros (Hn & _ & _) [junk ->] (pre & k & Hpk).
  destruct (pop_to_spec p (pk ++ junk)) as (junk' & Heq & Hj & Hl).
  assert (Hin : (p, k) ∈ pk ++ junk) by (rewrite Hpk; set_solver).
  destruct Hl as [Hl|(k' & pre' & Hl)].
  - exfalso. rewrite Hl in Heq. simpl in Heq. rewrite Heq in Hin. by apply Hj in Hin.
  - rewrite Hl in Heq |- *.
    assert (Hsame : (pre ++ (p, k) :: junk).*1 = (pre' ++ (p, k') :: junk').*1).
    { f_equal. rewrite Hpk, <- !(assoc_L (++)) in Heq. exact Heq. }
    rewrite Hpk, <- (assoc_L (++)) in Hn. cbn [app] in Hn. pose proof Hn as Hn'.
    rewrite Hsame in Hn'. rewrite !fmap_app in *. cbn [fmap list_fmap fst] in *.
    assert (Hp : pre.*1 = pre'.*1).
    { apply NoDup_app in Hn as (_ & Hn1 & _). apply NoDup_app in Hn' as (_ & Hn2 & _).
      apply not_elem_of_app_cons_inv_l in Hsame as (Hp & _ & _); [done| |].
      - intros Hx. apply (Hn2 p Hx). by left.
      - intros Hx. apply (Hn1 p Hx). by left. }
    apply (f_equal length) in Hp. rewrite !length_fmap in Hp.
    rewrite Hpk, <- !(assoc_L (++)) in Heq. apply app_inj_1 in Heq as [Hpre Hrest]; [|done].
    rewrite Hpk, Hpre. simpl in Hrest. congruence.
Qed.

Definition circular_text : list Z := bs "Circular reference detected at: ".
Definition is_circular (e : js_error) : Prop := ∃ msg, e = TypeError (circular_text ++ msg).

(** The verdict on [l], a child of [p] at depth [D]. *)
Lemma detect_outcome c l p pk st :
  (20 < c_depth c)%nat → c_parent c = Some p → edge p l → l ∈ dom h →
  tracked (ancestors st) → anchored (c_depth c) p pk (ancestors st) →
  (∃ st' pk', detect_circular_reference c l st = Ok st' ∧ tracked (ancestors st') ∧
     out st' = out st ∧ ancestors st' = pk' ∧ anchored (S (c_depth c)) l pk' (ancestors st') ∧
     anchored (c_depth c) p pk (ancestors st') ∧ (∃ a k, pk' = a ++ [(l, k)])) ∨
  (∃ e, detect_circular_reference c l st = Err e ∧ is_circular e ∧ ∀ n, unrolls h n l = false).
Proof.
  intros HD Hpar He Hl Ht Ha. unfold detect_circular_reference. rewrite Hpar. cbn [or_panic mbind res_bind].
  destruct (pop_to_spec p (ancestors st)) as (junk & Heq & _ & Hlast).
  assert (Htp : tracked (pop_to p (ancestors st))) by (rewrite Heq in Ht; by eapply tracked_prefix).
  case_bool_decide as Hin.
  - right. eexists. split; [done|]. destruct Hlast as [Hn|(k & pre & Hn)]; rewrite Hn in *.
    { by apply not_elem_of_nil in Hin. }
    split.
    + unfold is_circular, circular_text. destruct pre as [|e pre]; cbn [app circular_message]; eauto.
    + eapply path_cycle; [apply Htp|done|done].
  - left. set (e := (l, path_key (c_key c) (c_index c))).
    exists (mkState (out st) (pop_to p (ancestors st) ++ [e])), (pop_to p (ancestors st) ++ [e]).
    cbn [ancestors out]. split; [done|]. split.
    { destruct Htp as (Hn & Hd & Hp). split_and!.
      - rewrite fmap_app. apply NoDup_app. split_and!; [done| |by apply NoDup_singleton].
        intros x Hx ->%list_elem_of_singleton. done.
      - intros x. rewrite fmap_app. intros [Hx|Hx]%elem_of_app; [by apply Hd|].
        apply list_elem_of_singleton in Hx as ->. done.
      - apply path_snoc; [done|]. destruct Hlast as [Hn'|(k & pre & Hn')]; [by left|right].
        exists pre, (p, k). done. }
    split_and!; [done|done| | |by eexists _, _].
    + intros _. split_and!; [exists []; by rewrite app_nil_r|by eexists _, _|].
      rewrite length_app. simpl. destruct (decide (21 < c_depth c)%nat) as [H21|H21]; [|lia].
      destruct (Ha H21) as (Hj & Hpk & Hlen). rewrite (pop_anchored p pk) by done. lia.
    + intros H21. destruct (Ha H21) as (Hj & Hpk & Hlen).
      rewrite (pop_anchored p pk) by done. split_and!; [by eexists|done|done].
Qed.

(** * Outcomes *)

Lemma write_primitive_any c comma st :
  value_ok (c_value c) = true → key_ok (c_key c) →
  ∃ status st', write_primitive no_options c comma st = Ok (status, st') ∧
    ancestors st' = ancestors st ∧
    match status with
    | Iterate nv => nv = None
    | _ => loc_of (c_value c) = None
    end.
Proof.
  intros Hv Hk. destruct (loc_of (c_value c)) as [l|] eqn:Hl.
  { rewrite (write_primitive_node c comma st l) by done. eexists _, _. split; [done|]. done. }
  unfold write_primitive, write_primitive2. cbn [no_options replacer_fn include_keys_replacer].
  change (default (c_value c) None) with (c_value c).
  destruct (match c_index c with None => is_ignorable (c_value c) | Some _ => false end).
  { eexists _, _. split; [done|]. done. }
  rewrite write_lead_ok by done. cbn [mbind res_bind].
  destruct (c_value c) as [| |b|z|bits|s| | | | | |l'|l']; simplify_eq/=;
    rewrite ?write_float_ok, ?write_string_ok by done; eexists _, _; (split; [done|]); done.
Qed.

(** Either all of [vs] are written, or one of them is circular. *)
Definition settled (fuel D : nat) (p : loc) (pk : list (loc * list Z)) (vs : list value)
    (r : res js_error state) : Prop :=
  (∃ st', r = Ok st' ∧ Forall (λ v, unrolls_value h fuel v = true) vs ∧
          tracked (ancestors st') ∧ anchored D p pk (ancestors st')) ∨
  (∃ e, r = Err e ∧ is_circular e ∧ ∃ v, v ∈ vs ∧ ∀ n, unrolls_value h n v = false).

Definition parent_ok (c : StringifyContext) (p : loc) : Prop :=
  (20 < c_depth c)%nat → c_parent c = Some p ∧ ∀ l, loc_of (c_value c) = Some l → edge p l.

Definition iterate_settles (fuel : nat) : Prop :=
  ∀ c st p pk, value_ok (c_value c) = true → parent_ok c p →
    (22 + size h ≤ fuel + c_depth c)%nat → tracked (ancestors st) →
    anchored (c_depth c) p pk (ancestors st) →
    settled fuel (c_depth c) p pk [c_value c] (iterate h no_options fuel c None st).

Lemma append_settles fuel c comma p pk st :
  iterate_settles fuel → value_ok (c_value c) = true → key_ok (c_key c) → c_parent c = Some p →
  (∀ l, loc_of (c_value c) = Some l → edge p l) → (22 + size h ≤ fuel + S (c_depth c))%nat →
  tracked (ancestors st) → anchored (S (c_depth c)) p pk (ancestors st) →
  settled fuel (S (c_depth c)) p pk [c_value c]
    (snd <$> append_value no_options (iterate h no_options fuel) c comma st).
Proof.
  intros Hit Hv Hk Hp He Hf Ht Ha. unfold append_value.
  destruct (write_primitive_any c comma st Hv Hk) as (status & st1 & -> & Hanc & Hs).
  cbn [mbind res_bind]. rewrite <- Hanc in Ht, Ha.
  destruct status as [| |nv]; cbn [fmap res_fmap snd].
  1,2: left; exists st1; split_and!; [done| |done|done]; constructor; [|done];
    unfold unrolls_value; by rewrite Hs.
  rewrite Hs. replace (S (c_depth c)) with (c_depth (with_depth c (c_depth c + 1))) in *
    by (simpl; lia).
  destruct (Hit (with_depth c (c_depth c + 1)) st1 p pk) as [(st2 & -> & Hr)|(e & -> & Hr)];
    [done|by intros _|done|done|done|left; eauto|right; eauto].
Qed.

(** One item after the other. *)
Lemma settled_seq fuel D p pk v vs (r : res js_error (bool * state))
    (k : bool → state → res js_error (bool * state)) :
  settled fuel D p pk [v] (snd <$> r) →
  (∀ b st, tracked (ancestors st) → anchored D p pk (ancestors st) →
     settled fuel D p pk vs (snd <$> k b st)) →
  settled fuel D p pk (v :: vs) (snd <$> ('(b, st) ← r; k b st)).
Proof.
  intros Hr Hk. destruct r as [[b st1]|e|]; cbn [fmap res_fmap snd mbind res_bind] in *.
  - destruct Hr as [(st' & ? & Hu & Ht & Ha)|(e & ? & _)]; simplify_eq/=.
    destruct (Hk b st' Ht Ha) as [(st2 & -> & Hu2 & Hr)|(e & -> & Hc & v' & Hv' & Hn)].
    + left. exists st2. split; [done|]. split; [|done]. constructor; [|done].
      by apply Forall_cons in Hu as [? _].
    + right. exists e. split_and!; [done|done|]. exists v'. split; [by right|done].
  - destruct Hr as [(? & ? & _)|(e' & ? & Hc & v' & Hv' & Hn)]; simplify_eq/=.
    right. exists e'. split_and!; [done|done|]. exists v'. split; [|done].
    apply list_elem_of_singleton in Hv' as ->. by left.
  - destruct Hr as [(? & ? & _)|(? & ? & _)]; done.
Qed.

Lemma object_loop_settles fuel c l pk props w st :
  iterate_settles fuel → Forall (λ kv, string_ok kv.1 && value_ok kv.2 = true) props →
  Forall (λ v, ∀ l', loc_of v = Some l' → edge l l') props.*2 → (22 + size h ≤ fuel + S (c_depth c))%nat →
  tracked (ancestors st) → anchored (S (c_depth c)) l pk (ancestors st) →
  settled fuel (S (c_depth c)) l pk props.*2
    (snd <$> object_loop (append_value no_options (iterate h no_options fuel)) c l props w st).
Proof.
  intros Hit Hok He Hf. revert w st. induction props as [|[k v] props IH]; intros w st Ht Ha.
  { left. exists st. done. }
  apply Forall_cons in Hok as [[Hk Hv]%andb_prop Hok]. apply Forall_cons in He as [Hv' He].
  cbn [object_loop fmap list_fmap snd]. apply settled_seq.
  - by apply (append_settles fuel (prop_context c l k v)).
  - intros b st1 Ht1 Ha1. by apply IH.
Qed.

Lemma array_loop_settles fuel c l pk elems i b w st :
  iterate_settles fuel → Forall (λ v, value_ok v = true) elems →
  Forall (λ v, ∀ l', loc_of v = Some l' → edge l l') elems → (22 + size h ≤ fuel + S (c_depth c))%nat →
  tracked (ancestors st) → anchored (S (c_depth c)) l pk (ancestors st) →
  settled fuel (S (c_depth c)) l pk elems
    (snd <$> array_loop (append_value no_options (iterate h no_options fuel)) c l i elems b w st).
Proof.
  intros Hit Hok He Hf. revert i b w st. induction elems as [|v elems IH]; intros i b w st Ht Ha.
  { left. exists st. done. }
  apply Forall_cons in Hok as [Hv Hok]. apply Forall_cons in He as [Hv' He].
  cbn [array_loop]. apply settled_seq.
  - by apply (append_settles fuel (elem_context c l i v)).
  - intros b' st1 Ht1 Ha1. by apply IH.
Qed.

(** The children of a node settle the node. *)
Lemma node_settles fuel c v l p pk pk' r :
  loc_of v = Some l → anchored (c_depth c) p pk pk' →
  settled fuel (S (c_depth c)) l pk' (children h l) r → settled (S fuel) (c_depth c) p pk [v] r.
Proof.
  intros Hl Ha [(st' & -> & Hu & Ht & Ha')|(e & -> & Hc & v' & Hv' & Hn)].
  - left. exists st'. split; [done|]. split; [|split; [done|]].
    + constructor; [|done]. unfold unrolls_value. rewrite Hl. cbn [unrolls].
      rewrite forallb_forall. intros l' Hl'%list_elem_of_In.
      apply list_elem_of_omap in Hl' as (v' & Hv' & Hlv). rewrite Forall_forall in Hu.
      specialize (Hu v' Hv'). unfold unrolls_value in Hu. by rewrite Hlv in Hu.
    + intros H21. destruct (Ha H21) as ((j & Hj) & Hpk & Hlen). split_and!; [|done|done].
      destruct (Ha' ltac:(lia)) as ((j' & ->) & _). exists (j ++ j'). by rewrite Hj, (assoc_L (++)).
  - right. exists e. split_and!; [done|done|]. exists v. split; [by left|].
    unfold unrolls_value in *. rewrite Hl. destruct (loc_of v') as [l'|] eqn:Hlv.
    + apply (never_unrolls_parent l l'); [|done]. apply list_elem_of_omap. eauto.
    + by pose proof (Hn 0%nat).
Qed.

Lemma check_circular_settles c l p pk st :
  parent_ok c p → loc_of (c_value c) = Some l → l ∈ dom h → tracked (ancestors st) →
  anchored (c_depth c) p pk (ancestors st) →
  (∃ st' pk', check_circular c l st = Ok st' ∧ tracked (ancestors st') ∧
     anchored (S (c_depth c)) l pk' (ancestors st') ∧ anchored (c_depth c) p pk pk') ∨
  (∃ e, check_circular c l st = Err e ∧ is_circular e ∧ ∀ n, unrolls h n l = false).
Proof.
  intros Hp Hl Hd Ht Ha. unfold check_circular, CIRCULAR_REF_DETECTION_DEPTH.
  destruct (Nat.ltb_spec 20 (c_depth c)) as [H20|H20].
  - destruct (Hp H20) as [Hpar He].
    destruct (detect_outcome c l p pk st) as [(st' & pk' & -> & Ht' & _ & Hpk & Ha1 & Ha2 & _)|He'];
      [done|done|by apply He|done..| |].
    + left. exists st', pk'. rewrite Hpk in Ha2. done.
    + by right.
  - left. exists st, []. split_and!; [done|done| |]; intros ?; lia.
Qed.

Lemma settled_finish fuel D p pk vs (r : res js_error (bool * state)) (f : bool → state → state) :
  (∀ b st, ancestors (f b st) = ancestors st) → settled fuel D p pk vs (snd <$> r) →
  settled fuel D p pk vs ('(b, st) ← r; Ok (f b st)).
Proof.
  intros Hf Hr. destruct r as [[b st]|e|]; cbn [fmap res_fmap snd mbind res_bind] in *; [|done..].
  destruct Hr as [(st' & ? & Hu & Ht)|(e & ? & _)]; simplify_eq/=.
  left. exists (f b st'). by rewrite Hf.
Qed.

Lemma write_indentation_ancestors ind d st : ancestors (write_indentation ind d st) = ancestors st.
Proof. by destruct ind. Qed.

Lemma successors_edges l : Forall (λ v, ∀ l', loc_of v = Some l' → edge l l') (children h l).
Proof. apply Forall_forall. intros v Hv l' Hl'. apply list_elem_of_omap. eauto. Qed.

Lemma iterate_settles_all fuel : heap_ok → iterate_settles fuel.
Proof.
  intros Hh. induction fuel as [|fuel IH]; intros c st p pk Hv Hp Hf Ht Ha.
  { pose proof (anchored_fuel 0 _ _ _ _ Ht Ha Hf). lia. }
  cbn [iterate]. change (default (c_value c) None) with (c_value c).
  destruct (loc_of (c_value c)) as [l|] eqn:Hl.
  2: { left. exists st. assert (Hu : unrolls_value h (S fuel) (c_value c) = true)
         by (unfold unrolls_value; by rewrite Hl).
       destruct (c_value c); try done; (split; [done|]); (split; [by constructor|done]). }
  assert (Hld : l ∈ dom h).
  { apply elem_of_dom. destruct (c_value c); simplify_eq/=; by destruct (h !! l). }
  assert (Hck : ∀ st1, ancestors st1 = ancestors st → ∀ k,
    (∀ st2 pk', tracked (ancestors st2) → anchored (S (c_depth c)) l pk' (ancestors st2) →
       anchored (c_depth c) p pk pk' → settled (S fuel) (c_depth c) p pk [c_value c] (k st2)) →
    settled (S fuel) (c_depth c) p pk [c_value c] (st2 ← check_circular c l st1; k st2)).
  { intros st1 Hst1 k Hk. destruct (check_circular_settles c l p pk st1)
      as [(st2 & pk' & -> & ? & ? & ?)|(e & -> & Hc & Hn)]; [done|done|done|by rewrite Hst1..| |].
    - cbn [mbind res_bind]. by eapply Hk.
    - right. exists e. split_and!; [done|done|]. exists (c_value c). split; [by left|].
      unfold unrolls_value. by rewrite Hl. }
  pose proof (successors_edges l) as He. unfold value_ok in Hv.
  destruct (c_value c) as [| | | | | | | | | | |l'|l'] eqn:Hcv; simplify_eq/=;
    destruct (h !! l) as [cl|] eqn:Hhl; try done; pose proof (Hh l cl Hhl) as Hc; simpl in Hc.
  - destruct cl as [props [| |]|]; try done. apply Hck; [done|]. intros st2 pk' Ht2 Ha2 Hpk.
    apply settled_finish.
    { intros b st3. destruct b; simpl; by rewrite ?write_indentation_ancestors. }
    apply (node_settles fuel c (VObject l) l p pk pk'); [done|done|].
    assert (Hch : children h l = props.*2) by (unfold children; by rewrite Hhl). rewrite Hch in *.
    apply object_loop_settles; try done; [|lia].
    apply Forall_forall. intros kv Hkv. cbn [cell_ok] in Hc.
    rewrite forallb_forall in Hc. by apply Hc, list_elem_of_In.
  - destruct cl as [|elems]; try done. apply Hck; [done|]. intros st2 pk' Ht2 Ha2 Hpk.
    apply settled_finish.
    { intros b st3. destruct b; simpl; by rewrite ?write_indentation_ancestors. }
    apply (node_settles fuel c (VArray l) l p pk pk'); [done|done|].
    assert (Hch : children h l = elems) by (unfold children; by rewrite Hhl). rewrite Hch in *.
    apply array_loop_settles; try done; [|lia].
    apply Forall_forall. intros v Hv'. cbn [cell_ok] in Hc.
    rewrite forallb_forall in Hc. by apply Hc, list_elem_of_In.
Qed.

End Circular.
