(* ===== verification/JsonReplacer.v ===== *)
(** The replacer and [toJSON] in [JSON.stringify]: a replacer function that
    returns its argument changes nothing; and the cases in which a replacer, a
    [toJSON] method or an unwritable array element make the output differ from
    the standard's. *)

From S2P Require Import Prelude Unicode JsonEscape JsonSpec JsonStringify.

Section Replacer.
Context `{NumberFormat}.
Variable h : heap.

(** [(key, value) => value] *)
Definition identity_replacer : options := mkOptions (Some (λ _ _ v, Ok v)) None.

Lemma object_loop_ext f g c l props w st :
  (∀ c b st, f c b st = g c b st) → object_loop f c l props w st = object_loop g c l props w st.
Proof.
  intros Hfg. revert w st. induction props as [|[k v] props IH]; intros w st; [done|].
  cbn [object_loop]. rewrite Hfg. destruct (g _ _ _) as [[b st']| |]; [|done..]. apply IH.
Qed.

Lemma array_loop_ext f g c l i elems b w st :
  (∀ c b st, f c b st = g c b st) → array_loop f c l i elems b w st = array_loop g c l i elems b w st.
Proof.
  intros Hfg. revert i b w st. induction elems as [|v elems IH]; intros i b w st; [done|].
  cbn [array_loop]. rewrite Hfg. destruct (g _ _ _) as [[b' st']| |]; [|done..]. apply IH.
Qed.

Lemma run_to_json_ext f g c l o st :
  (∀ c b st, f c b st = g c b st) → run_to_json f c l o st = run_to_json g c l o st.
Proof.
  intros Hfg. unfold run_to_json. destruct o as [v| |]; [|done..].
  cbn [mbind res_bind]. by rewrite Hfg.
Qed.

(** What the identity replacer returns is the value already in the context. *)
Lemma write_primitive_identity c b st :
  write_primitive identity_replacer c b st =
  '(status, st) ← write_primitive no_options c b st;
  Ok (match status with Iterate _ => Iterate (Some (c_value c)) | s => s end, st).
Proof.
  unfold write_primitive, run_replacer, write_primitive2.
  cbn [identity_replacer no_options replacer_fn include_keys_replacer mbind res_bind].
  change (default (c_value c) (Some (c_value c))) with (c_value c).
  change (default (c_value c) None) with (c_value c).
  destruct (match c_index c with None => _ | Some _ => false end); [done|].
  destruct (match c_value c with VBigInt => true | _ => false end); [done|].
  destruct (match c_indentation c with None => _ | Some _ => _ end) as [st'| |]; [|done..].
  cbn [mbind res_bind]. destruct (c_value c); try done.
  - by destruct (write_float _ _).
  - by destruct (write_string _ _).
Qed.

(** The value to iterate over is the one the replacer returned. *)
Lemma write_primitive2_iterate opts c b nv st nv' st' :
  write_primitive2 opts c b nv st = Ok (Iterate nv', st') → nv' = nv.
Proof.
  unfold write_primitive2.
  destruct (match c_index c with None => _ | Some _ => false end); [done|].
  destruct (match default _ _ with VBigInt => true | _ => false end); [done|].
  destruct (match include_keys_replacer opts with None => _ | Some _ => _ end); [done|].
  destruct (match c_indentation c with None => _ | Some _ => _ end) as [st1| |]; [|done..].
  cbn [mbind res_bind]. destruct (default _ _); intros Hw; simplify_eq; try done.
  - by destruct (write_float _ _).
  - by destruct (write_string _ _).
Qed.

Lemma iterate_identity fuel c nv st :
  default (c_value c) nv = c_value c →
  iterate h identity_replacer fuel c nv st = iterate h no_options fuel c None st.
Proof.
  revert c nv st. induction fuel as [|fuel IH]; intros c nv st Hc; [done|].
  cbn [iterate]. rewrite Hc. change (default (c_value c) None) with (c_value c).
  assert (Happ : ∀ c b st, append_value identity_replacer (iterate h identity_replacer fuel) c b st =
                           append_value no_options (iterate h no_options fuel) c b st).
  { clear -IH. intros c b st. unfold append_value. rewrite write_primitive_identity.
    destruct (write_primitive no_options c b st) as [[[| |nv] st']| |] eqn:Hw; try done.
    apply write_primitive2_iterate in Hw as ->. cbn [mbind res_bind]. by rewrite IH. }
  destruct (c_value c) as [| | | | | | | | | | |l|l]; try done; destruct (h !! l) as [[props tj|elems]|]; try done.
  - destruct tj as [| |o]; [|done|by apply run_to_json_ext].
    destruct (check_circular c l st) as [st'| |]; [|done..]. cbn [mbind res_bind].
    by rewrite (object_loop_ext _ _ _ _ _ _ _ Happ).
  - destruct (check_circular c l (push [91] st)) as [st'| |]; [|done..]. cbn [mbind res_bind].
    by rewrite (array_loop_ext _ _ _ _ _ _ _ _ _ Happ).
Qed.

(** A replacer function that returns the value it is given changes
    nothing, errors and circular structures included. *)
Theorem stringify_identity_replacer (fuel : nat) (v : value) (ind : option (list Z)) :
  json_stringify_replacer_space h identity_replacer fuel v ind =
  json_stringify_replacer_space h no_options fuel v ind.
Proof.
  unfold json_stringify_replacer_space. rewrite write_primitive_identity.
  destruct (write_primitive no_options _ _ _) as [[[| |nv] st']| |]; try done.
  cbn [mbind res_bind]. by rewrite iterate_identity.
Qed.

(** An array as replacer makes [JSON.stringify] return [undefined] unless
    the key [0] is in it: the root value, which has no key, is looked up as
    index 0.  The standard never filters the root. *)
Theorem keys_replacer_drops_root (elems : list value) (fuel : nat) (v : value) :
  itoa 0 ∉ replacer_keys elems → v ≠ VBigInt →
  stringify h fuel v (Some (ReplacerArray elems)) SpaceNone = Ok None.
Proof.
  intros Hk Hv. unfold stringify, json_stringify_replacer_space, write_primitive, write_primitive2.
  cbn [space_value mbind res_bind options_of replacer_fn include_keys_replacer top_context c_index c_value c_key].
  change (default v None) with v. change (get_key_or_index None None) with (itoa 0).
  destruct (is_ignorable v); [done|]. rewrite bool_decide_eq_false_2 by done. by destruct v.
Qed.

(** The object a replacer function returns for the root is ignored: only
    its being an object counts, and the original value is written. *)
Theorem replacer_root_object_ignored (f : option loc → list Z → value → res js_error value)
    (fuel : nat) (v : value) (l : loc) (ind : option (list Z)) :
  f None (itoa 0) v = Ok (VObject l) →
  json_stringify_replacer_space h (mkOptions (Some f) None) fuel v ind =
  st ← iterate h (mkOptions (Some f) None) fuel (top_context v 1 ind) None (mkState [] []);
  Ok (Some (out st)).
Proof.
  intros Hf. unfold json_stringify_replacer_space, write_primitive, run_replacer.
  cbn [replacer_fn top_context c_parent c_key c_index c_value].
  change (get_key_or_index None None) with (itoa 0). by rewrite Hf.
Qed.

(** A [toJSON] method that returns [this] is called again on its own
    result without end, whatever the stack: the recursion of [iterate] does
    not come back.  The standard calls it once. *)
Theorem to_json_this_diverges (l : loc) (props : list (list Z * value)) (fuel : nat)
    (ind : option (list Z)) :
  h !! l = Some (CObject props (ToJSON (Ok (VObject l)))) →
  json_stringify_replacer_space h no_options fuel (VObject l) ind = Panic.
Proof.
  intros Hl. unfold json_stringify_replacer_space. cbn [mbind res_bind write_primitive no_options
    replacer_fn write_primitive2 top_context c_index c_value default include_keys_replacer
    c_indentation c_key is_ignorable write_sep push].
  assert (Hit : ∀ c st, c_value c = VObject l → iterate h no_options fuel c None st = Panic);
    [|by rewrite Hit].
  induction fuel as [|fuel IH]; intros c st Hc; [done|].
  cbn [iterate default]. rewrite Hc, Hl. unfold run_to_json, append_value. cbn [mbind res_bind].
  unfold write_primitive, write_primitive2.
  cbn [no_options replacer_fn c_index c_value default include_keys_replacer c_indentation c_key is_ignorable].
  destruct (c_indentation c); cbn [mbind res_bind write_indented_separator]; by rewrite IH.
Qed.
End Replacer.

(** * Output that is not JSON *)

Section Defects.
Context `{NumberFormat}.

Definition shape_heap : heap :=
  <[1%positive := CArray [VBool true; VFunction; VBool true]]>
  (<[2%positive := CObject [(bs "a", VObject 3)] NoToJSON]>
  (<[3%positive := CObject [] (ToJSON (Ok VUndefined))]>
  (<[4%positive := CObject [] (ToJSON (Ok (VObject 5)))]>
  (<[5%positive := CObject [] NoToJSON]>
  (<[6%positive := CArray [VBool true]]> ∅))))).

(** Values that should become [null] or disappear leave a hole in the
    text: a function in an array, a property whose [toJSON] returns
    [undefined]; and a [toJSON] result that is an object is preceded by a line
    break and indentation of its own.  The first two texts are not JSON. *)
Example stringify_holes :
  json_stringify_replacer_space shape_heap no_options 5 (VArray 1) None = Ok (Some (bs "[true,,true]")) ∧
  read_json (bs "[true,,true]") = None ∧
  json_stringify_replacer_space shape_heap no_options 5 (VObject 2) None =
    Ok (Some (bs "{" ++ [34] ++ bs "a" ++ [34] ++ bs ":}")) ∧
  read_json (bs "{" ++ [34] ++ bs "a" ++ [34] ++ bs ":}") = None ∧
  json_stringify_replacer_space shape_heap no_options 5 (VObject 4) (Some (bs "  ")) =
    Ok (Some ([10] ++ bs "  {}")).
Proof. split_and!; vm_compute; reflexivity. Qed.

(** The [space] argument: an empty string still breaks the lines, a
    string is cut at 20 bytes where the standard has 10 characters, and a cut
    inside a character panics (an [a] and ten times U+00E9). *)
Example space_defects :
  stringify shape_heap 5 (VArray 6) (Some ReplacerOther) (SpaceString []) =
    Ok (Some ([91; 10] ++ bs "true" ++ [10; 93])) ∧
  space_value true (SpaceString (replicate 30 120)) = Ok (Some (replicate 20 120)) ∧
  stringify shape_heap 5 (VBool true) (Some ReplacerOther) (SpaceString (97 :: replicate 10 233)) = Panic.
Proof. split_and!; vm_compute; reflexivity. Qed.
End Defects.
