(* ===== verification/Numbers.v ===== *)
(** Number formatting ([libs/raster_runtime_numbers/src/lib.rs]):
    [Number.prototype.toString] with a radix.

    64-bit integers are [Z] with the wrap-around of the release build written
    out; doubles are the IEEE binary64 numbers of the Standard Library's
    [SpecFloat], with 53 bits of precision.  The decimal digits come from the
    crates [itoa] and [ryu] (class [NumberFormat] of [JsonStringify]). *)

From Stdlib Require Import SpecFloat.
From S2P Require Import Prelude Unicode JsonStringify.

(** * Integers *)

Definition DIGITS : list Z := bs "0123456789abcdefghijklmnopqrstuvwxyz".
Definition BUF_SIZE : nat := 80.
Definition BIN_MAX_DIGITS : nat := 64.
Definition OCT_MAX_DIGITS : nat := 21.

(** Rust's [f64]. *)
Notation f64 := spec_float.

Section Integers.
Context `{NumberFormat}.

Definition to_dec (number : Z) : list Z := itoa number.

(** [while n > 0 { index -= 1; buf[index] = digit(n % base); n /= base }]; an
    index that would go below zero panics.  A positive [i64] has at most 63
    digits. *)
Fixpoint digit_loop (fuel : nat) (digit : Z → res rstring Z) (base n : Z) (index : nat)
    (buf : list Z) : res rstring (nat * list Z) :=
  match fuel with
  | O => Panic
  | S fuel =>
      if 0 <? n then
        match index with
        | O => Panic
        | S index =>
            d ← digit (n `mod` base);
            if (index <? length buf)%nat
            then digit_loop fuel digit base (n `div` base) index (<[index := d]> buf)
            else Panic
        end
      else Ok (index, buf)
  end.

(** [&buf[index..max]] as text. *)
Definition digits_from (index : nat) (buf : list Z) : list Z := drop index buf.

Definition to_base_less_than_10 (max : nat) (num base : Z) : res rstring (list Z) :=
  if num =? 0 then Ok (bs "0")
  else
    (* [!n + 1], wrapping *)
    let n := if num <? 0 then wrap_i64 (Z.lnot num + 1) else num in
    let sign := if num <? 0 then bs "-" else [] in
    '(index, buf) ← digit_loop 64 (λ d, Ok (d + 48)) base n max (replicate max 0);
    Ok (sign ++ digits_from index buf).

Definition table_digit (d : Z) : res rstring Z := or_panic (DIGITS !! Z.to_nat d).

Definition internal_i64_to_base_n (number radix : Z) (buf : list Z) : res rstring (nat * list Z) :=
  if number =? 0 then
    d ← table_digit 0;
    Ok ((BUF_SIZE - 1)%nat, <[(BUF_SIZE - 1)%nat := d]> buf)
  else digit_loop 64 table_digit radix number BUF_SIZE buf.

Definition i64_to_base_n (number radix : Z) : res rstring (list Z) :=
  if radix =? 10 then Ok (to_dec number)
  else if radix =? 2 then to_base_less_than_10 BIN_MAX_DIGITS number 2
  else if radix =? 8 then to_base_less_than_10 OCT_MAX_DIGITS number 8
  else
    let abs_number := if number <? 0 then wrap_i64 (- number) else number in
    let sign := if number <? 0 then bs "-" else [] in
    '(index, buf) ← internal_i64_to_base_n abs_number radix (replicate BUF_SIZE 0);
    Ok (sign ++ digits_from index buf).

(** * Doubles *)

Definition fmul : f64 → f64 → f64 := SFmul 53 1024.
Definition fadd : f64 → f64 → f64 := SFadd 53 1024.
Definition fsub : f64 → f64 → f64 := SFsub 53 1024.
Definition f_of_Z (z : Z) : f64 := binary_normalize 53 1024 z 0 false.

(** The bit pattern of a double and back. *)
Definition to_bits (x : f64) : Z :=
  match x with
  | S754_zero s => if s then 2 ^ 63 else 0
  | S754_infinity s => (if s then 2 ^ 63 else 0) + 2047 * 2 ^ 52
  | S754_nan => 2047 * 2 ^ 52 + 2 ^ 51
  | S754_finite s m e =>
      (if s then 2 ^ 63 else 0) +
      (if Z.pos m <? 2 ^ 52 then Z.pos m else (e + 1075) * 2 ^ 52 + (Z.pos m - 2 ^ 52))
  end.

Definition from_bits (b : Z) : f64 :=
  let s := 2 ^ 63 <=? b in
  let b := b `mod` 2 ^ 63 in
  let e := b `div` 2 ^ 52 in
  let m := b `mod` 2 ^ 52 in
  if e =? 2047 then (if m =? 0 then S754_infinity s else S754_nan)
  else if e =? 0 then
    match m with Zpos p => S754_finite s p (-1074) | _ => S754_zero s end
  else match m + 2 ^ 52 with Zpos p => S754_finite s p (e - 1075) | _ => S754_nan end.

(** Truncation towards zero: to an integer, to a double, and [as i64] and
    [as usize], which saturate. *)
Definition trunc_Z (x : f64) : Z :=
  match x with
  | S754_finite s m e =>
      let a := if 0 <=? e then Z.pos m * 2 ^ e else Z.pos m `div` 2 ^ (- e) in
      if s then - a else a
  | _ => 0
  end.
Definition ftrunc (x : f64) : f64 :=
  match x with
  | S754_finite s m e =>
      if 0 <=? e then x
      else match Z.pos m `div` 2 ^ (- e) * 2 ^ (- e) with
           | Zpos m => S754_finite s m e
           | _ => S754_zero s
           end
  | _ => x
  end.
Definition as_i64 (x : f64) : Z :=
  match x with
  | S754_infinity s => if s then - 2 ^ 63 else 2 ^ 63 - 1
  | _ => Z.max (- 2 ^ 63) (Z.min (2 ^ 63 - 1) (trunc_Z x))
  end.
Definition as_usize (x : f64) : Z :=
  match x with
  | S754_infinity s => if s then 0 else 2 ^ 64 - 1
  | _ => Z.max 0 (Z.min (2 ^ 64 - 1) (trunc_Z x))
  end.

Definition next_up (num : f64) : f64 :=
  let bits := to_bits num in
  match num with
  | S754_nan => num
  | S754_infinity false => num
  | _ =>
      let abs := Z.land bits (2 ^ 63 - 1) in
      from_bits (if abs =? 0 then 1 else if bits =? abs then bits + 1 else bits - 1)
  end.

Definition half : f64 := S754_finite false 4503599627370496 (-53).
Definition one : f64 := S754_finite false 4503599627370496 (-52).
Definition two : f64 := S754_finite false 4503599627370496 (-51).
(** [0x1fffffffffffff as f64] *)
Definition max_safe : f64 := f_of_Z 9007199254740991.

(** The digit loop of [fractional_to_base]; the buffer bounds it. *)
Fixpoint fraction_loop (fuel : nat) (radix : Z) (index : nat) (number delta : f64) (is_odd : bool)
    (buf : list Z) : res rstring (nat * list Z) :=
  match fuel with
  | O => Panic
  | S fuel =>
      let ntmp := fmul number (f_of_Z radix) in
      let rtmp := fmul delta (f_of_Z radix) in
      let digit := as_usize ntmp in
      let ritmp := as_usize rtmp in
      let is_odd := if Z.odd digit then negb is_odd else is_odd in
      let number := fsub ntmp (f_of_Z digit) in
      let delta := fsub rtmp (f_of_Z ritmp) in
      let stop :=
        if SFltb half number || (SFeqb number half && (if Z.odd radix then is_odd else Z.odd digit))
        then SFltb one (fadd number delta)
        else SFltb number (fmul delta two) in
      if stop then Ok (index, buf)
      else
        d ← table_digit digit;
        if (index <? length buf)%nat
        then fraction_loop fuel radix (S index) number delta is_odd (<[index := d]> buf)
        else Panic
  end.

Definition fractional_to_base (index : nat) (number : f64) (radix : Z) (buf : list Z) :
    res rstring (nat * list Z) :=
  let is_odd := SFleb number max_safe && Z.odd (as_i64 number) in
  fraction_loop (S (length buf)) radix index number (fsub (next_up number) number) is_odd buf.

Definition get_nonfinite (bits : Z) : list Z :=
  if negb (Z.land bits (2 ^ 52 - 1) =? 0) then bs "NaN"
  else if negb (Z.land bits (2 ^ 63) =? 0) then bs "-Infinity"
  else bs "Infinity".

(** [result.ends_with(".0")] *)
Definition trim_point_zero (s : list Z) : list Z :=
  if ((2 <=? length s)%nat && bool_decide (drop (length s - 2) s = bs ".0"))
  then take (length s - 2) s else s.

Definition f64_to_base_n (number : f64) (radix : Z) : res rstring (list Z) :=
  let bits := to_bits number in
  if Z.land bits EXP_MASK =? EXP_MASK then Ok (get_nonfinite bits)
  else if radix =? 10 then Ok (trim_point_zero (ryu_finite bits))
  else
    let negative := SFltb number (S754_zero false) in
    let abs_num := if negative then SFopp number else number in
    let sign := if negative then bs "-" else [] in
    let fractional_part := fsub abs_num (ftrunc abs_num) in
    let integer_part := as_i64 abs_num in
    '(index, buf) ← internal_i64_to_base_n integer_part radix (replicate BUF_SIZE 0);
    let string := sign ++ digits_from index buf in
    if SFltb (S754_zero false) fractional_part then
      '(frac_end, buf) ← fractional_to_base 0 fractional_part radix (replicate BUF_SIZE 0);
      Ok (if (0 <? frac_end)%nat then string ++ bs "." ++ take frac_end buf else string)
    else Ok string.

Definition float_to_string (float : f64) : res rstring (list Z) := f64_to_base_n float 10.

(** * [Number.prototype.toString] *)

(** The receiver: a double, an integer (also one a conversion to [i64] finds),
    or an object whose [valueOf] gives one of them. *)
Inductive receiver :=
  | RFloat (x : f64)
  | RInt (z : Z)
  | RBoxed (value_of : option receiver)
  | ROther.

(** The radix argument: absent, an integer, or anything else. *)
Inductive radix_arg := RadixNone | RadixInt (r : Z) | RadixOther.

Definition radix_of (r : radix_arg) : Z :=
  match r with
  | RadixInt r => if (0 <=? r) && (r <=? 255) then r else 10
  | _ => 10
  end.

Definition check_radix (radix : Z) : res rstring () :=
  if (2 <=? radix) && (radix <=? 36) then Ok () else Err (bs "radix must be between 2 and 36").

Definition number_to_string (this : receiver) (radix : radix_arg) : res rstring (list Z) :=
  let radix := radix_of radix in
  _ ← check_radix radix;
  match this with
  | RFloat x => f64_to_base_n x radix
  | RInt z => i64_to_base_n z radix
  | RBoxed (Some (RFloat x)) => f64_to_base_n x radix
  | RBoxed (Some (RInt z)) => i64_to_base_n z radix
  | _ => Ok []
  end.
End Integers.

(** * Reading digits back *)

Definition digit_value (c : Z) : option Z :=
  if (48 <=? c) && (c <=? 57) then Some (c - 48)
  else if (97 <=? c) && (c <=? 122) then Some (c - 97 + 10)
  else None.

(** A reader of unsigned digits, and of a signed number. *)
Definition read_digits (radix : Z) (l : list Z) : option Z :=
  foldl (λ acc c, acc ← acc; d ← digit_value c;
                  if d <? radix then Some (acc * radix + d) else None) (Some 0) l.

Definition parse_int (radix : Z) (l : list Z) : option Z :=
  match l with
  | [] => None
  | c :: l' =>
      if c =? 45
      then match l' with [] => None | _ => n ← read_digits radix l'; Some (- n) end
      else read_digits radix l
  end.

(** The digits of [n], most significant first. *)
Fixpoint digits_of (fuel : nat) (dig : Z → Z) (base n : Z) : list Z :=
  match fuel with
  | O => []
  | S fuel => if 0 <? n then digits_of fuel dig base (n `div` base) ++ [dig (n `mod` base)] else []
  end.

Section Digits.
Variables (dig : Z → Z) (base : Z).
Hypothesis Hbase : 2 ≤ base ≤ 36.
Hypothesis Hdig : ∀ d, 0 ≤ d < base → digit_value (dig d) = Some d.

Lemma div_base_bound n k : 0 < n < 2 ^ Z.of_nat (S k) → 0 ≤ n `div` base < 2 ^ Z.of_nat k.
Proof.
  intros Hn. split; [apply Z.div_pos; lia|]. apply Z.div_lt_upper_bound; [lia|].
  rewrite Nat2Z.inj_succ, Z.pow_succ_r in Hn by lia. nia.
Qed.

Lemma digit_loop_ok digit fuel n index buf :
  (∀ d, 0 ≤ d < base → digit d = Ok (dig d)) →
  0 ≤ n < 2 ^ Z.of_nat fuel → n < base ^ Z.of_nat index → (index ≤ length buf)%nat →
  ∃ index' buf', digit_loop (S fuel) digit base n index buf = Ok (index', buf') ∧
    digits_from index' buf' = digits_of (S fuel) dig base n ++ drop index buf.
Proof.
  intros Hdigit. revert n index buf. induction fuel as [|fuel IH]; intros n index buf Hn Hi Hl.
  { assert (n = 0) as -> by (simpl in Hn; lia). exists index, buf. done. }
  remember (S fuel) as f eqn:Hf. cbn [digit_loop digits_of].
  destruct (Z.ltb_spec 0 n) as [Hpos|Hpos]; [|by exists index, buf].
  destruct index as [|index]; [simpl in Hi; lia|].
  rewrite Hdigit by (apply Z.mod_pos_bound; lia). cbn [mbind res_bind].
  destruct (Nat.ltb_spec index (length buf)); [|lia]. subst f.
  destruct (IH (n `div` base) index (<[index := dig (n `mod` base)]> buf))
    as (index' & buf' & Hloop & Hd).
  - apply div_base_bound. lia.
  - apply Z.div_lt_upper_bound; [lia|]. rewrite Nat2Z.inj_succ, Z.pow_succ_r in Hi by lia. lia.
  - rewrite length_insert. lia.
  - exists index', buf'. split; [done|]. rewrite Hd, <- (assoc_L (++)). f_equal.
    rewrite drop_insert_ge, Nat.sub_diag by lia.
    destruct (lookup_lt_is_Some_2 buf index) as [x Hx]; [lia|].
    by rewrite (drop_S _ _ _ Hx).
Qed.

Lemma read_digits_snoc l c :
  read_digits base (l ++ [c]) =
  acc ← read_digits base l; d ← digit_value c; if d <? base then Some (acc * base + d) else None.
Proof. unfold read_digits. by rewrite foldl_app. Qed.

Lemma read_digits_of fuel n :
  0 ≤ n < 2 ^ Z.of_nat fuel → read_digits base (digits_of (S fuel) dig base n) = Some n.
Proof.
  revert n. induction fuel as [|fuel IH]; intros n Hn.
  { assert (n = 0) as -> by (simpl in Hn; lia). done. }
  remember (S fuel) as f eqn:Hf. cbn [digits_of].
  destruct (Z.ltb_spec 0 n) as [Hpos|Hpos]; [|assert (n = 0) as -> by lia; done].
  subst f. rewrite read_digits_snoc, IH by (apply div_base_bound; lia). cbn [mbind option_bind].
  pose proof (Z.mod_pos_bound n base ltac:(lia)) as Hm. rewrite Hdig by done. cbn [mbind option_bind].
  destruct (Z.ltb_spec (n `mod` base) base); [|lia]. f_equal.
  rewrite Z.mul_comm. symmetry. apply Z.div_mod. lia.
Qed.

(** The first digit is not zero. *)
Lemma digits_of_head fuel n :
  0 < n < 2 ^ Z.of_nat fuel →
  ∃ d l, digits_of (S fuel) dig base n = dig d :: l ∧ 0 < d < base.
Proof.
  revert n. induction fuel as [|fuel IH]; intros n Hn; [simpl in Hn; lia|].
  remember (S fuel) as f eqn:Hf. cbn [digits_of].
  destruct (Z.ltb_spec 0 n) as [_|]; [|lia]. subst f.
  destruct (decide (n `div` base = 0)) as [H0|H0].
  - rewrite H0. exists (n `mod` base), []. split; [done|].
    pose proof (Z.mod_pos_bound n base ltac:(lia)). pose proof (Z.div_mod n base ltac:(lia)). lia.
  - pose proof (div_base_bound n fuel ltac:(lia)).
    destruct (IH (n `div` base)) as (d & l & -> & Hd); [lia|]. by eexists d, (l ++ _).
Qed.
End Digits.

(** * Integers in any radix *)

Definition table (d : Z) : Z := default 0 (DIGITS !! Z.to_nat d).

Definition int_text (radix n : Z) : list Z :=
  (if n <? 0 then bs "-" else []) ++
  (if n =? 0 then bs "0" else digits_of 64 table radix (Z.abs n)).

Lemma table_ok d :
  0 ≤ d < 36 → table_digit d = Ok (table d) ∧ digit_value (table d) = Some d ∧
               (d < 10 → table d = d + 48).
Proof.
  assert (H : forallb (λ d, bool_decide (table_digit d = Ok (table d)) &&
                            bool_decide (digit_value (table d) = Some d) &&
                            ((10 <=? d) || (table d =? d + 48))) (seqZ 0 36) = true)
    by (vm_compute; reflexivity).
  intros Hd. pose proof (forall_range 36 _ H d Hd) as Hv. cbv beta in Hv.
  apply andb_prop in Hv as [Hv H3]. apply andb_prop in Hv as [H1 H2].
  apply bool_decide_eq_true in H1, H2. split_and!; [done..|]. intros Hlt.
  apply orb_prop in H3 as [H3|H3]; bool_to_prop; lia.
Qed.

Lemma digits_of_ext fuel f g base n :
  0 < base → (∀ d, 0 ≤ d < base → f d = g d) → digits_of fuel f base n = digits_of fuel g base n.
Proof.
  intros Hb Hfg. revert n. induction fuel as [|fuel IH]; intros n; [done|]. cbn [digits_of].
  destruct (0 <? n); [|done]. by rewrite IH, Hfg by (apply Z.mod_pos_bound; lia).
Qed.

Lemma replicate_drop_all {A} n (x : A) : drop n (replicate n x) = [].
Proof. apply drop_ge. by rewrite length_replicate. Qed.

Lemma to_base_ok max n base :
  base = 2 ∨ base = 8 → 2 ^ 63 ≤ base ^ Z.of_nat max → - 2 ^ 63 < n < 2 ^ 63 →
  to_base_less_than_10 max n base = Ok (int_text base n).
Proof.
  intros Hb Hm Hn. unfold to_base_less_than_10, int_text.
  destruct (Z.eqb_spec n 0) as [->|H0]; [done|].
  set (a := if n <? 0 then wrap_i64 (Z.lnot n + 1) else n).
  assert (Ha : a = Z.abs n).
  { unfold a. destruct (Z.ltb_spec n 0); [|lia].
    rewrite wrap_i64_id; [unfold Z.lnot; lia|]. unfold i64_ok, Z.lnot. lia. }
  destruct (digit_loop_ok (λ d, d + 48) base ltac:(lia) (λ d, Ok (d + 48)) 63 a max (replicate max 0))
    as (i & buf & -> & Hd).
  - done.
  - rewrite Ha. change (2 ^ Z.of_nat 63) with (2 ^ 63). lia.
  - rewrite Ha. lia.
  - by rewrite length_replicate.
  - cbn [mbind res_bind]. rewrite Hd, replicate_drop_all, app_nil_r, Ha. f_equal. f_equal.
    apply digits_of_ext; [lia|]. intros d Hdd. symmetry. apply table_ok; lia.
Qed.

Lemma internal_ok n radix :
  2 ≤ radix ≤ 36 → 0 ≤ n < 2 ^ 63 →
  ∃ i buf, internal_i64_to_base_n n radix (replicate BUF_SIZE 0) = Ok (i, buf) ∧
           digits_from i buf = if n =? 0 then bs "0" else digits_of 64 table radix n.
Proof.
  intros Hr Hn. unfold internal_i64_to_base_n. destruct (Z.eqb_spec n 0) as [->|H0].
  { eexists _, _. split; [done|]. vm_compute. reflexivity. }
  destruct (digit_loop_ok table radix Hr table_digit 63 n BUF_SIZE (replicate BUF_SIZE 0))
    as (i & buf & Hl & Hd).
  - intros d Hdd. apply table_ok. lia.
  - change (2 ^ Z.of_nat 63) with (2 ^ 63). lia.
  - assert (2 ^ 80 ≤ radix ^ 80) by (apply Z.pow_le_mono_l; lia).
    change (Z.of_nat BUF_SIZE) with 80. lia.
  - by rewrite length_replicate.
  - exists i, buf. split; [done|]. by rewrite Hd, replicate_drop_all, app_nil_r.
Qed.

Section Theorems.
Context `{NumberFormat}.

Lemma i64_text n radix :
  2 ≤ radix ≤ 36 → radix ≠ 10 → - 2 ^ 63 < n < 2 ^ 63 →
  i64_to_base_n n radix = Ok (int_text radix n).
Proof.
  intros Hr H10 Hn. unfold i64_to_base_n. destruct (Z.eqb_spec radix 10); [done|].
  destruct (Z.eqb_spec radix 2) as [->|H2].
  { apply to_base_ok; [by left|vm_compute; discriminate|done]. }
  destruct (Z.eqb_spec radix 8) as [->|H8].
  { apply to_base_ok; [by right|vm_compute; discriminate|done]. }
  assert (Ha : (if n <? 0 then wrap_i64 (- n) else n) = Z.abs n).
  { destruct (Z.ltb_spec n 0); [|lia]. rewrite wrap_i64_id; [lia|]. unfold i64_ok. lia. }
  rewrite Ha. destruct (internal_ok (Z.abs n) radix Hr ltac:(lia)) as (i & buf & -> & Hd).
  cbn [mbind res_bind]. rewrite Hd. unfold int_text.
  by destruct (Z.eqb_spec (Z.abs n) 0), (Z.eqb_spec n 0); try lia.
Qed.

Lemma parse_int_text n radix :
  2 ≤ radix ≤ 36 → - 2 ^ 63 < n < 2 ^ 63 → parse_int radix (int_text radix n) = Some n.
Proof.
  intros Hr Hn. unfold int_text. destruct (Z.eqb_spec n 0) as [->|H0].
  { change (parse_int radix _) with (if 0 <? radix then Some (0 * radix + 0) else None).
    destruct (Z.ltb_spec 0 radix); [done|lia]. }
  assert (Hdig : ∀ d, 0 ≤ d < radix → digit_value (table d) = Some d)
    by (intros d Hd; apply table_ok; lia).
  pose proof (read_digits_of table radix Hr Hdig 63 (Z.abs n)) as Hrd.
  destruct (digits_of_head table radix Hr 63 (Z.abs n)) as (d & l & Hh & Hd0).
  { change (2 ^ Z.of_nat 63) with (2 ^ 63). lia. }
  rewrite Hh in *. specialize (Hrd ltac:(change (2 ^ Z.of_nat 63) with (2 ^ 63); lia)).
  destruct (Z.ltb_spec n 0) as [Hneg|Hneg].
  - change (parse_int radix _) with (n ← read_digits radix (table d :: l); Some (- n)).
    rewrite Hrd. simpl. f_equal. lia.
  - cbn [app parse_int]. destruct (Z.eqb_spec (table d) 45) as [H45|]; [|rewrite Hrd; f_equal; lia].
    exfalso. specialize (Hdig d ltac:(lia)). by rewrite H45 in Hdig.
Qed.


(** ** Doubles *)

Lemma exp_field b : 0 ≤ b → Z.land b EXP_MASK = (b `div` 2 ^ 52) `mod` 2 ^ 11 * 2 ^ 52.
Proof.
  intros Hb. change EXP_MASK with (Z.shiftl (Z.ones 11) 52).
  rewrite <- Z.land_ones, <- Z.shiftr_div_pow2, <- Z.shiftl_mul_pow2 by lia.
  apply Z.bits_inj'. intros i Hi. rewrite Z.land_spec, !Z.shiftl_spec, Z.land_spec by lia.
  destruct (Z.le_gt_cases 52 i) as [H52|H52].
  - rewrite Z.shiftr_spec by lia. by replace (i - 52 + 52) with i by lia.
  - rewrite !(Z.testbit_neg_r _ (i - 52)) by lia. by rewrite !andb_false_r.
Qed.

(** The doubles of a binary64 whose absolute value is below 2^63. *)
Definition small_finite (m : positive) (e : Z) : Prop :=
  (Z.pos m < 2 ^ 52 ∧ e = -1074) ∨ (2 ^ 52 ≤ Z.pos m < 2 ^ 53 ∧ -1074 ≤ e ≤ 10).

Lemma small_not_special s m e :
  small_finite m e → (Z.land (to_bits (S754_finite s m e)) EXP_MASK =? EXP_MASK) = false.
Proof.
  intros Hm. apply Z.eqb_neq. unfold to_bits.
  set (t := if s then 2 ^ 63 else 0).
  assert (Ht : t = (if s then 2048 else 0) * 2 ^ 52) by (unfold t; by destruct s).
  assert (Hbits : ∃ E f, t + (if Z.pos m <? 2 ^ 52 then Z.pos m
      else (e + 1075) * 2 ^ 52 + (Z.pos m - 2 ^ 52)) = ((if s then 2048 else 0) + E) * 2 ^ 52 + f ∧
      0 ≤ E < 2047 ∧ 0 ≤ f < 2 ^ 52).
  { rewrite Ht. destruct Hm as [[Hm ->]|[Hm He]], (Z.ltb_spec (Z.pos m) (2 ^ 52)); try lia.
    - exists 0, (Z.pos m). lia.
    - exists (e + 1075), (Z.pos m - 2 ^ 52). lia. }
  destruct Hbits as (E & f & -> & HE & Hf).
  rewrite exp_field by (destruct s; lia).
  rewrite (Z.div_add_l _ (2 ^ 52) f), (Z.div_small f), Z.add_0_r by lia.
  assert (HmodE : ((if s then 2048 else 0) + E) `mod` 2 ^ 11 = E).
  { destruct s; [|rewrite Z.mod_small; lia]. symmetry. apply (Z.mod_unique_pos _ _ 1); lia. }
  rewrite HmodE. change EXP_MASK with (2047 * 2 ^ 52). lia.
Qed.

Lemma fsub_self s m e : fsub (S754_finite s m e) (S754_finite s m e) = S754_zero false.
Proof. unfold fsub. cbn [SFsub]. rewrite Z.sub_diag. done. Qed.

(** The integer a double stands for, if it does. *)
Definition integer_value (x : f64) : option Z :=
  match x with
  | S754_finite s m e =>
      if (0 <=? e) || (Z.pos m `mod` 2 ^ (- e) =? 0) then Some (trunc_Z x) else None
  | S754_zero _ => Some 0
  | _ => None
  end.

Lemma integral_trunc s m e z :
  integer_value (S754_finite s m e) = Some z → ftrunc (S754_finite s m e) = S754_finite s m e.
Proof.
  cbn [integer_value ftrunc]. destruct (Z.leb_spec 0 e); [done|]. cbn [orb].
  destruct (Z.eqb_spec (Z.pos m `mod` 2 ^ (- e)) 0) as [Hmod|]; [|done]. intros _.
  pose proof (Z.div_mod (Z.pos m) (2 ^ (- e)) ltac:(lia)) as Hd.
  replace (Z.pos m `div` 2 ^ (- e) * 2 ^ (- e)) with (Z.pos m) by lia. done.
Qed.

Lemma f64_finite_text s m e z radix :
  small_finite m e → integer_value (S754_finite s m e) = Some z → 2 ≤ radix ≤ 36 → radix ≠ 10 →
  - 2 ^ 63 < z < 2 ^ 63 → z ≠ 0 →
  f64_to_base_n (S754_finite s m e) radix = Ok (int_text radix z).
Proof.
  intros Hm Hz Hr H10 Hb Hz0. unfold f64_to_base_n. rewrite small_not_special by done.
  rewrite (proj2 (Z.eqb_neq radix 10)) by done.
  replace (SFltb (S754_finite s m e) (S754_zero false)) with s by (by destruct s).
  set (x := if s then SFopp (S754_finite s m e) else S754_finite s m e).
  assert (Hx : x = S754_finite false m e) by (unfold x; by destruct s). rewrite Hx.
  assert (Hz' : integer_value (S754_finite false m e) = Some (Z.abs z) ∧ (z < 0 ↔ s = true)).
  { cbn [integer_value trunc_Z] in *. destruct (_ || _); [|done]. simplify_eq.
    set (a := if 0 <=? e then Z.pos m * 2 ^ e else Z.pos m `div` 2 ^ (- e)) in *.
    assert (0 ≤ a).
    { unfold a. destruct (Z.leb_spec 0 e).
      - apply Z.mul_nonneg_nonneg; [lia|apply Z.pow_nonneg; lia].
      - apply Z.div_pos; [lia|apply Z.pow_pos_nonneg; lia]. }
    destruct s; (split; [f_equal; lia|]); split; intros ?; done || lia. }
  destruct Hz' as [Hz' Hs]. rewrite (integral_trunc _ _ _ _ Hz'), fsub_self.
  assert (Hi : as_i64 (S754_finite false m e) = Z.abs z).
  { unfold as_i64. cbn [integer_value] in Hz'. destruct (_ || _); [|done].
    apply (inj Some) in Hz'. rewrite Hz'. lia. }
  rewrite Hi. destruct (internal_ok (Z.abs z) radix Hr ltac:(lia)) as (i & buf & -> & Hd).
  cbn [mbind res_bind]. change (SFltb (S754_zero false) (S754_zero false)) with false. cbn iota.
  rewrite Hd. unfold int_text. rewrite (proj2 (Z.eqb_neq z 0)), (proj2 (Z.eqb_neq (Z.abs z) 0)) by lia.
  destruct s, (Z.ltb_spec z 0); try done; exfalso; [|by destruct Hs as [Hs _]; specialize (Hs ltac:(done))].
  destruct Hs as [_ Hs]. specialize (Hs eq_refl). lia.
Qed.

(** Doubles that are integers below 2^63 in absolute value, in whatever
    representation, are written like the integer: the general routine for
    doubles and the special routines for integers (binary, octal and the rest)
    produce the same text. *)
Theorem f64_integer_text (s : bool) (m : positive) (e z radix : Z) :
  small_finite m e → integer_value (S754_finite s m e) = Some z → 2 ≤ radix ≤ 36 → radix ≠ 10 →
  - 2 ^ 63 < z < 2 ^ 63 → z ≠ 0 →
  f64_to_base_n (S754_finite s m e) radix = i64_to_base_n z radix.
Proof. intros. rewrite i64_text by done. by apply f64_finite_text. Qed.

(** Fractions: the loop leaves before it stores the digit that exhausts
    the number, so one half is 0 and three quarters is 0.1 in binary; 2^-100
    needs more than the 80 bytes of the buffer and panics; 2^70 is cut to
    2^63 - 1; and the least integer has no digits at all. *)
Example number_text_defects :
  f64_to_base_n half 2 = Ok (bs "0") ∧
  f64_to_base_n (fadd half (fmul half half)) 2 = Ok (bs "0.1") ∧
  f64_to_base_n (S754_finite false 4503599627370496 (-152)) 2 = Panic ∧
  f64_to_base_n (f_of_Z (2 ^ 70)) 16 = Ok (bs "7fffffffffffffff") ∧
  i64_to_base_n (- 2 ^ 63) 16 = Ok (bs "-").
Proof. split_and!; vm_compute; reflexivity. Qed.
End Theorems.
