(* ===== verification/NumberRef.v ===== *)
(** A number formatter: an instance of [NumberFormat] with the laws that the
    theorems about [JSON.stringify] and [Number.prototype.toString] ask of the
    crates [itoa] and [ryu], and instances of those theorems at concrete
    values.  Doubles are written exactly, with all their decimals. *)

From Stdlib Require Import SpecFloat.
From S2P Require Import Prelude Unicode JsonEscape JsonSpec JsonStringify.
From S2P Require Import JsonProofs JsonCircular JsonReplacer Numbers.

Definition ref_itoa (n : Z) : list Z :=
  (if n <? 0 then [45] else []) ++
  (if n =? 0 then [48] else digits_of (S (Z.to_nat (Z.log2 (Z.abs n)))) (λ d, 48 + d) 10 (Z.abs n)).

(** [k] decimals of [r / d]. *)
Fixpoint decimals (k : nat) (r d : Z) : list Z :=
  match k with
  | O => []
  | S k => 48 + (r * 10) `div` d `mod` 10 :: decimals k ((r * 10) `mod` d) d
  end.

Fixpoint trim_zeros (l : list Z) : list Z :=
  match l with
  | [] => []
  | c :: l => match trim_zeros l with [] => if c =? 48 then [] else [c] | l => c :: l end
  end.

Definition ref_ryu (bits : Z) : list Z :=
  let sign := if 2 ^ 63 <=? bits then [45] else [] in
  let m := match from_bits bits with S754_finite _ m _ => Z.pos m | _ => 0 end in
  let e := match from_bits bits with S754_finite _ _ e => e | _ => 0 end in
  if 0 <=? e then sign ++ ref_itoa (m * 2 ^ e) ++ bs ".0"
  else
    let d := 2 ^ (- e) in
    sign ++ ref_itoa (m `div` d) ++ bs "." ++
    match trim_zeros (decimals (Z.to_nat (- e)) (m `mod` d) d) with [] => bs "0" | l => l end.

Definition is_digit (c : Z) : bool := (48 <=? c) && (c <=? 57).

Lemma digits_are_digits fuel n : forallb is_digit (digits_of fuel (λ d, 48 + d) 10 n) = true.
Proof.
  revert n. induction fuel as [|fuel IH]; intros n; [done|]. cbn [digits_of].
  destruct (0 <? n); [|done]. rewrite forallb_app, IH. cbn [forallb]. unfold is_digit.
  pose proof (Z.mod_pos_bound n 10 ltac:(lia)).
  rewrite (proj2 (Z.leb_le _ _)), (proj2 (Z.leb_le _ _)) by lia. done.
Qed.

Lemma ref_itoa_shape n :
  ∃ c l, ref_itoa n = (if n <? 0 then [45] else []) ++ c :: l ∧ forallb is_digit (c :: l) = true.
Proof.
  unfold ref_itoa. destruct (Z.eqb_spec n 0) as [->|Hn]; [by exists 48, []|].
  assert (Hd : digits_of (S (Z.to_nat (Z.log2 (Z.abs n)))) (λ d, 48 + d) 10 (Z.abs n) ≠ []).
  { cbn [digits_of]. destruct (Z.ltb_spec 0 (Z.abs n)); [|lia]. intros [_ ?]%app_eq_nil. done. }
  pose proof (digits_are_digits (S (Z.to_nat (Z.log2 (Z.abs n)))) (Z.abs n)) as Hf.
  destruct (digits_of _ _ _ _) as [|c l]; [done|]. by exists c, l.
Qed.

Lemma digit_num_char l : forallb is_digit l = true → forallb is_num_char l = true.
Proof.
  rewrite !forallb_forall. intros Hl x Hx. specialize (Hl x Hx). unfold is_num_char.
  unfold is_digit in Hl. by rewrite Hl.
Qed.

Lemma decimals_digits k r d : forallb is_digit (decimals k r d) = true.
Proof.
  revert r. induction k as [|k IH]; intros r; [done|]. cbn [decimals forallb]. rewrite IH.
  unfold is_digit. pose proof (Z.mod_pos_bound ((r * 10) `div` d) 10 ltac:(lia)).
  rewrite (proj2 (Z.leb_le _ _)), (proj2 (Z.leb_le _ _)) by lia. done.
Qed.

Lemma trim_digits l : forallb is_digit l = true → forallb is_digit (trim_zeros l) = true.
Proof.
  induction l as [|c l IH]; [done|]. cbn [forallb trim_zeros]. intros [Hc Hl]%andb_prop.
  specialize (IH Hl). destruct (trim_zeros l) as [|x l']; cbn [forallb] in *.
  - destruct (c =? 48); [done|]. cbn [forallb]. by rewrite Hc.
  - by rewrite Hc, IH.
Qed.

(** A sign, digits, a point and digits. *)
Lemma fixed_point_lexeme (neg : bool) n frac :
  0 ≤ n → forallb is_digit frac = true → frac ≠ [] →
  let s := (if neg then [45] else []) ++ ref_itoa n ++ bs "." ++ frac in
  is_lexeme s = true ∧ (3 ≤ length s)%nat.
Proof.
  intros Hn Hf Hne. destruct (ref_itoa_shape n) as (c & l & -> & Hd).
  destruct (Z.ltb_spec n 0); [lia|]. change (bs ".") with [46].
  pose proof (digit_num_char _ Hd) as Hnum. apply digit_num_char in Hf.
  cbn [forallb] in Hd. apply andb_prop in Hd as [Hc _]. unfold is_digit in Hc.
  assert (Hall : forallb is_num_char ((c :: l) ++ [46] ++ frac) = true).
  { rewrite !forallb_app, Hnum, Hf. done. }
  destruct frac as [|f frac]; [done|]. cbn [app] in *. split.
  - destruct neg; cbn [app is_lexeme]; [|by rewrite Hc].
    change (forallb is_num_char (45 :: ?l)) with (forallb is_num_char l). by rewrite Hall.
  - destruct neg; simpl; rewrite length_app; simpl; lia.
Qed.

#[export] Instance ref_format : NumberFormat := {| itoa := ref_itoa; ryu_finite := ref_ryu |}.

Lemma ref_ryu_ok bits : is_lexeme (ref_ryu bits) = true ∧ (3 ≤ length (ref_ryu bits))%nat.
Proof.
  unfold ref_ryu. set (m := match from_bits bits with S754_finite _ m _ => Z.pos m | _ => 0 end).
  set (e := match from_bits bits with S754_finite _ _ e => e | _ => 0 end).
  assert (Hm : 0 ≤ m) by (unfold m; destruct (from_bits bits); lia).
  destruct (Z.leb_spec 0 e).
  - apply (fixed_point_lexeme _ _ (bs "0")); [|done..].
    apply Z.mul_nonneg_nonneg; [done|by apply Z.pow_nonneg].
  - apply fixed_point_lexeme.
    + apply Z.div_pos; [done|apply Z.pow_pos_nonneg; lia].
    + pose proof (trim_digits _ (decimals_digits (Z.to_nat (- e)) (m `mod` 2 ^ (- e)) (2 ^ (- e)))).
      by destruct (trim_zeros _).
    + by destruct (trim_zeros _).
Qed.

#[export] Instance ref_format_laws : NumberFormatLaws.
Proof.
  split.
  - intros n. cbn [itoa ref_format]. destruct (ref_itoa_shape n) as (c & l & -> & Hd).
    pose proof (digit_num_char _ Hd) as Hnum. cbn [forallb] in Hd. apply andb_prop in Hd as [Hc _].
    unfold is_digit in Hc. destruct (n <? 0); cbn [app is_lexeme]; [|by rewrite Hc].
    change (forallb is_num_char (45 :: ?l)) with (forallb is_num_char l). by rewrite Hnum.
  - intros bits. apply ref_ryu_ok.
  - intros bits. apply ref_ryu_ok.
Qed.

(** * Instances *)


(** 12.0 as a double *)
Lemma f64_integer_text_witness :
  f64_to_base_n (S754_finite false 6755399441055744 (-49)) 3 = i64_to_base_n 12 3 ∧
  i64_to_base_n 12 3 = Ok (bs "110").
Proof.
  split; [|vm_compute; reflexivity].
  apply (f64_integer_text false 6755399441055744 (-49) 12 3); try lia.
  - right. lia.
  - vm_compute. reflexivity.
Defined.

(** [o = {"b":1.5,"l":[s,undefined,s]}] with [s = {}] shared. *)
Definition sample_heap : heap :=
  <[1%positive := CObject [(bs "b", VFloat (to_bits (fadd one half))); (bs "l", VArray 2); (bs "f", VFunction)] NoToJSON]>
  (<[2%positive := CArray [VObject 3; VUndefined; VObject 3]]>
  (<[3%positive := CObject [] NoToJSON]> ∅)).

Definition sample_json : jv :=
  JObj [(bs "b", JNum (bs "1.5")); (bs "l", JArr [JObj []; JNull; JObj []])].


(** [o.self = o] *)
Definition loop_heap : heap := <[1%positive := CObject [(bs "self", VObject 1)] NoToJSON]> ∅.

Lemma loop_never_unrolls n : unrolls_value loop_heap n (VObject 1) = false.
Proof.
  unfold unrolls_value. cbn [loc_of]. induction n as [|n IH]; [done|]. cbn [unrolls].
  change (successors loop_heap 1) with [1%positive]. cbn [forallb]. by rewrite IH.
Qed.


Lemma keys_replacer_drops_root_witness :
  stringify sample_heap 4 (VObject 1) (Some (ReplacerArray [VString (bs "b")])) SpaceNone = Ok None.
Proof.
  apply (keys_replacer_drops_root sample_heap [VString (bs "b")] 4 (VObject 1)); [|done].
  vm_compute. intros Hin. inversion Hin as [|? ? ? Hnil]. inversion Hnil.
Defined.

(** The replacer asks for [{}] everywhere; the root keeps its properties. *)
Lemma replacer_root_object_ignored_witness :
  json_stringify_replacer_space sample_heap (mkOptions (Some (λ _ _ v, Ok (VObject 3))) None) 4 (VObject 1) None =
  Ok (Some (print None 1 (JObj [(bs "b", JObj []); (bs "l", JObj []); (bs "f", JObj [])]))).
Proof.
  rewrite (replacer_root_object_ignored sample_heap (λ _ _ v, Ok (VObject 3)) 4 (VObject 1) 3 None);
    vm_compute; reflexivity.
Defined.

Lemma to_json_this_diverges_witness :
  json_stringify_replacer_space (<[1%positive := CObject [] (ToJSON (Ok (VObject 1)))]> ∅) no_options
    1000 (VObject 1) None = Panic.
Proof.
  apply (to_json_this_diverges _ 1 [] 1000 None). reflexivity.
Defined.
