(* ===== verification/ObjectBytes.v ===== *)
(** The bytes behind JavaScript values ([libs/raster_runtime_utils/src/bytes.rs]):
    [ObjectBytes], the bounds of views, and the parts of strings and arrays.

    The engine's array buffers are a heap: a buffer has its bytes, or is
    detached.  A view is a buffer with an offset and a length; several views
    may share a buffer.  Strings are those of Rust: the conversion of a
    JavaScript string with lone surrogates is not modelled. *)

From Stdlib Require Import SpecFloat.
From S2P Require Import Prelude Unicode Numbers.

(** * The engine *)

(** The exceptions the code throws, with their message. *)
Inductive exn :=
  | TypeError (msg : rstring)
  | RangeError (msg : rstring)
  | JsError (msg : rstring).

Abbreviation heap := (list (option (list Z))) (only parsing).

Definition buffer_bytes (h : heap) (b : nat) : option (list Z) := mjoin (h !! b).

(** [ArrayBuffer::new]. *)
Definition new_array_buffer (h : heap) (bytes : list Z) : heap * nat := (h ++ [Some bytes], length h).

Record view := mkView { vbuf : nat; voff : nat; vlen : nat }.

(** [TypedArray::as_raw]: the region of the view, [None] when the buffer is
    detached or no longer covers it. *)
Definition as_raw (h : heap) (v : view) : option (list Z) :=
  bytes ← buffer_bytes h (vbuf v);
  if (voff v + vlen v <=? length bytes)%nat then Some (take (vlen v) (drop (voff v) bytes)) else None.

(** [copy_from_slice] or [ptr::copy] into a buffer, at an absolute position. *)
Definition splice (pos : nat) (chunk bytes : list Z) : list Z :=
  take pos bytes ++ chunk ++ drop (pos + length chunk) bytes.
Definition store (h : heap) (b pos : nat) (chunk : list Z) : heap :=
  alter (fmap (splice pos chunk)) b h.

(** [new Uint8Array(buffer, offset, length)]. *)
Definition construct_view (h : heap) (b off len : nat) : res exn view :=
  match buffer_bytes h b with
  | None => Err (TypeError (bs "ArrayBuffer is detached"))
  | Some bytes =>
      if (off + len <=? length bytes)%nat then Ok (mkView b off len)
      else Err (RangeError (bs "invalid array length"))
  end.

(** * [ObjectBytes] *)

Definition ERROR_MSG_ARRAY_BUFFER_DETACHED : rstring := bs "ArrayBuffer is detached".

Inductive ElementType := U8 | I8 | U16 | I16 | U32 | I32 | U64 | I64 | F32 | F64.

(** [Typed]: the ten typed arrays, a view with its length in bytes. *)
Inductive ObjectBytes :=
  | Typed (t : ElementType) (v : view)
  | U8ClampedArray (v : view)
  | ArrayBuffer (b : nat)
  | DataView (v : view)
  | Vec (bytes : list Z).

Definition or_detached {A} (o : option A) : res exn A :=
  or_err o (JsError ERROR_MSG_ARRAY_BUFFER_DETACHED).

Definition typed_array_view_bounds (h : heap) (v : view) : res exn (nat * nat * nat) :=
  raw ← or_detached (as_raw h v);
  Ok (vbuf v, length raw, voff v).

Definition as_bytes_inner (h : heap) (ob : ObjectBytes) : res exn (list Z) :=
  match ob with
  | Typed _ v => or_detached (as_raw h v)
  | ArrayBuffer b => or_detached (buffer_bytes h b)
  | U8ClampedArray dv | DataView dv =>
      or_detached (
        full ← buffer_bytes h (vbuf dv);
        let end_ := (voff dv + vlen dv)%nat in
        if (length full <? end_)%nat then None
        else Some (take (vlen dv) (drop (voff dv) full)))
  | Vec bytes => Ok bytes
  end.

(** The buffer, the length of the view and its offset. *)
Definition get_array_buffer (h : heap) (ob : ObjectBytes) : res exn (option (nat * nat * nat)) :=
  match ob with
  | ArrayBuffer b => Ok (Some (b, length (default [] (buffer_bytes h b)), 0%nat))
  | U8ClampedArray dv | DataView dv => Ok (Some (vbuf dv, vlen dv, voff dv))
  | Typed _ v => b ← typed_array_view_bounds h v; Ok (Some b)
  | Vec _ => Ok None
  end.

(** * Values *)

(** [JInt] and [JFloat] are the two representations of a number.  The elements
    of an array are given by their conversion to [u8], when they have one;
    [is_buffer] tells a [Buffer] from the other objects with bytes. *)
Inductive js_value :=
  | JUndefined
  | JString (s : rstring)
  | JInt (n : Z)
  | JFloat (x : f64)
  | JBigInt (n : Z)
  | JArray (elements : list (option Z))
  | JBytes (ob : ObjectBytes) (is_buffer : bool)
  | JObject (id : nat).

Definition as_number (v : js_value) : option f64 :=
  match v with JInt n => Some (f_of_Z n) | JFloat x => Some x | _ => None end.

Definition from_array_buffer (v : js_value) : option ObjectBytes :=
  match v with JBytes ob _ => Some ob | _ => None end.
Definition from_array_buffer_view (v : js_value) : option ObjectBytes :=
  match v with JBytes (ArrayBuffer _ | Vec _) _ => None | JBytes ob _ => Some ob | _ => None end.
Definition is_array_buffer_view (v : js_value) : bool :=
  match from_array_buffer_view v with Some _ => true | None => false end.

(** ** Parts of strings and arrays *)

(** Lengths and offsets come from JavaScript numbers, so the sums do not
    overflow. *)
Definition get_start_end_indexes (source_len : nat) (target_len : option nat) (offset : nat) :
    nat * nat :=
  if (source_len <? offset)%nat then (0, 0)%nat
  else
    let target_len := default (source_len - offset)%nat target_len in
    if (source_len <? offset + target_len)%nat then (offset, source_len)
    else (offset, (target_len + offset)%nat).

Fixpoint elements_bytes (l : list (option Z)) : res exn (list Z) :=
  match l with
  | [] => Ok []
  | x :: l =>
      val ← or_err x (TypeError (bs "Error converting from js"));
      bytes ← elements_bytes l;
      Ok (val :: bytes)
  end.

(** [None]: not an array. *)
Definition get_array_bytes (v : js_value) (offset : nat) (length : option nat) :
    res exn (option (list Z)) :=
  match v with
  | JArray array =>
      let '(start, end_) := get_start_end_indexes (List.length array) length offset in
      let size := (end_ - start)%nat in
      bytes ← elements_bytes (take size (drop start array));
      Ok (Some bytes)
  | _ => Ok None
  end.

Definition bytes_from_js_string (string : rstring) (offset : nat) (length : option nat) : list Z :=
  let bytes := to_utf8 string in
  let '(start, end_) := get_start_end_indexes (List.length bytes) length offset in
  take (end_ - start) (drop start bytes).

Definition get_string_bytes (v : js_value) (offset : nat) (length : option nat) : option (list Z) :=
  match v with JString s => Some (bytes_from_js_string s offset length) | _ => None end.

Definition ERROR_MSG_NOT_BYTES : rstring :=
  bs "value must be typed DataView, Buffer, ArrayBuffer, Uint8Array or interpretable as string".

(** [coerce] is the language's conversion to a string. *)
Section Coercion.
Context (coerce : js_value → option rstring).

Definition get_coerced_string_bytes (v : js_value) (offset : nat) (length : option nat) :
    option (list Z) :=
  string ← coerce v; Some (bytes_from_js_string string offset length).

Definition from_offset (v : js_value) (offset : nat) (length : option nat) : res exn ObjectBytes :=
  match v with
  | JUndefined => Ok (Vec [])
  | _ =>
      match get_string_bytes v offset length with
      | Some bytes => Ok (Vec bytes)
      | None =>
          a ← get_array_bytes v offset length;
          match a, from_array_buffer v, get_coerced_string_bytes v offset length with
          | Some bytes, _, _ => Ok (Vec bytes)
          | None, Some ob, _ => Ok ob
          | None, None, Some bytes => Ok (Vec bytes)
          | None, None, None => Err (JsError ERROR_MSG_NOT_BYTES)
          end
      end
  end.

Definition object_bytes_from (v : js_value) : res exn ObjectBytes := from_offset v 0 None.
End Coercion.

(** * Lemmas *)

Lemma start_end_ok n len off s e :
  get_start_end_indexes n len off = (s, e) → (s ≤ e ≤ n)%nat.
Proof.
  unfold get_start_end_indexes. intros. repeat case_match; simplify_eq; bool_to_prop;
    repeat match goal with H : (_ <? _)%nat = true |- _ => apply Nat.ltb_lt in H
                         | H : (_ <? _)%nat = false |- _ => apply Nat.ltb_ge in H end; try lia.
Qed.

(** The slice [get_start_end_indexes] selects. *)
Lemma start_end_slice {A} (l : list A) len off s e :
  get_start_end_indexes (length l) len off = (s, e) →
  take (e - s) (drop s l) = (if (length l <? off)%nat then [] else
    take (default (length l) len) (drop off l)).
Proof.
  unfold get_start_end_indexes. case_match eqn:E; intros Hs; simplify_eq.
  { by rewrite Nat.sub_diag. }
  apply Nat.ltb_ge in E. destruct len as [n|]; simpl in *; case_match eqn:E2; simplify_eq.
  - apply Nat.ltb_lt in E2. by rewrite !take_ge by (rewrite length_drop; lia).
  - f_equal. lia.
  - apply Nat.ltb_lt in E2. lia.
  - rewrite !take_ge; rewrite ?length_drop; done || lia.
Qed.

Lemma buffer_store h b pos chunk b' :
  buffer_bytes (store h b pos chunk) b' =
  if decide (b = b') then splice pos chunk <$> buffer_bytes h b' else buffer_bytes h b'.
Proof.
  unfold buffer_bytes, store. case_decide as E.
  - subst b'. rewrite list_lookup_alter_eq. by destruct (h !! b) as [[]|].
  - by rewrite list_lookup_alter_ne.
Qed.

Lemma length_splice pos chunk bytes :
  (pos + length chunk ≤ length bytes)%nat → length (splice pos chunk bytes) = length bytes.
Proof. intros. unfold splice. rewrite !length_app, length_take, length_drop. lia. Qed.

Lemma splice_nil pos bytes : splice pos [] bytes = bytes.
Proof. unfold splice. simpl. by rewrite Nat.add_0_r, take_drop. Qed.

(** A write inside the region of a view, seen through the view. *)
Lemma as_raw_store h v pos chunk raw :
  as_raw h v = Some raw → (pos + length chunk ≤ vlen v)%nat →
  as_raw (store h (vbuf v) (voff v + pos) chunk) v = Some (splice pos chunk raw).
Proof.
  unfold as_raw. rewrite buffer_store, decide_True by done. intros Hr Hp.
  destruct (buffer_bytes h (vbuf v)) as [bytes|]; [|done]. simpl in *. case_match eqn:E; [|done]. simplify_eq.
  apply Nat.leb_le in E. rewrite length_splice, (proj2 (Nat.leb_le _ _)) by lia. f_equal. unfold splice.
  rewrite (drop_app_le (take _ bytes)) by (rewrite length_take; lia).
  rewrite skipn_firstn_comm, take_app_ge by (rewrite length_take, length_drop; lia).
  rewrite length_take, length_drop. replace (voff v + pos - voff v)%nat with pos by lia.
  rewrite take_take, !(Nat.min_l pos) by lia. f_equal.
  rewrite take_app_ge by lia. f_equal. rewrite skipn_firstn_comm, drop_drop. f_equal; [lia|]. f_equal. lia.
Qed.

Lemma length_as_raw h v raw : as_raw h v = Some raw → length raw = vlen v.
Proof.
  unfold as_raw. destruct (buffer_bytes h (vbuf v)); [|done]. simpl. case_match eqn:E; [|done].
  intros [= <-]. apply Nat.leb_le in E. rewrite length_take, length_drop. lia.
Qed.
