(* ===== verification/NodeBuffer.v ===== *)
(** Node's [Buffer] ([modules/raster_runtime_buffer/src/buffer.rs]): the static
    methods [alloc], [byteLength], [concat], [from] and [isEncoding], and the
    methods of the prototype: [copy], [equals], [subarray], [toString], [write],
    and the readers and writers of numbers.

    The heap of array buffers is passed along.  The arguments are those the
    binding layer hands over: an [Opt<usize>] is an [option nat].  [usize] sums
    of [write] wrap, as in a release build, where a panic ends the process. *)

From Stdlib Require Import SpecFloat.
From S2P Require Import Prelude Unicode Encoding Numbers ObjectBytes.

(** [or_throw]: the error of a library call as an exception. *)
Definition or_throw {A} (r : res rstring A) : res exn A :=
  match r with Ok a => Ok a | Err msg => Err (JsError msg) | Panic => Panic end.

(** * Numbers *)

Inductive NumberKind :=
  | Int8 | UInt8 | Int16 | UInt16 | Int32 | UInt32 | Float32 | Float64 | BigInt | BigUInt.

Definition bits (k : NumberKind) : Z :=
  match k with
  | Int8 => 8 | UInt8 => 8
  | Int16 => 16 | UInt16 => 16
  | Int32 => 32 | UInt32 => 32
  | Float32 => 32
  | Float64 => 64
  | BigInt => 64 | BigUInt => 64
  end.

Definition is_signed (k : NumberKind) : bool :=
  match k with Int8 | Int16 | Int32 => true | _ => false end.

(** The names of the methods, after [read] and [write]. *)
Definition prototype (k : NumberKind) : list (Endian * list Z * option (list Z)) :=
  match k with
  | Int8 => [(Little, bs "Int8", None)]
  | UInt8 => [(Little, bs "UInt8", Some (bs "Uint8"))]
  | Int16 => [(Little, bs "Int16LE", None); (Big, bs "Int16BE", None)]
  | UInt16 => [(Little, bs "UInt16LE", Some (bs "Uint16LE")); (Big, bs "UInt16BE", Some (bs "Uint16BE"))]
  | Int32 => [(Little, bs "Int32LE", None); (Big, bs "Int32BE", None)]
  | UInt32 => [(Little, bs "UInt32LE", Some (bs "Uint32LE")); (Big, bs "UInt32BE", Some (bs "Uint32BE"))]
  | Float32 => [(Little, bs "FloatLE", None); (Big, bs "FloatBE", None)]
  | Float64 => [(Little, bs "DoubleLE", None); (Big, bs "DoubleBE", None)]
  | BigInt => [(Little, bs "BigInt64LE", None); (Big, bs "BigInt64BE", None)]
  | BigUInt =>
      [(Little, bs "BigUInt64LE", Some (bs "BigUint64LE")); (Big, bs "BigUInt64BE", Some (bs "BigUint64BE"))]
  end.

(** The loop both byte writers share: the byte at [shift i], which is then
    cleared. *)
Fixpoint byte_loop (shift : nat → Z) (indices : list nat) (val : Z) (bytes : list Z) : list Z :=
  match indices with
  | [] => bytes
  | i :: indices =>
      byte_loop shift indices (Z.land val (Z.lnot (Z.shiftl 255 (shift i))))
        (<[i := Z.shiftr val (shift i) `mod` 256]> bytes)
  end.

Definition endian_bytes (val : Z) (endian : Endian) : list Z :=
  let shift i := match endian with Big => 56 - Z.of_nat i * 8 | Little => Z.of_nat i * 8 end in
  byte_loop shift (seq 0 8) val (replicate 8 0).

Definition shifted_bytes (val bits : Z) (endian : Endian) : list Z :=
  let byte_count := Z.to_nat (bits `div` 8) in
  let shift i := match endian with
    | Big => Z.of_nat (byte_count - 1 - i) * 8
    | Little => Z.of_nat i * 8
    end in
  byte_loop shift (seq 0 byte_count) val (replicate byte_count 0).

(** [to_le_bytes], [to_be_bytes] and back, and the two's complement. *)
Fixpoint le_bytes (n : nat) (val : Z) : list Z :=
  match n with O => [] | S n => val `mod` 256 :: le_bytes n (val `div` 256) end.
Definition to_bytes (endian : Endian) (n : nat) (val : Z) : list Z :=
  match endian with Little => le_bytes n val | Big => reverse (le_bytes n val) end.
Definition from_le (bytes : list Z) : Z := foldr (λ b acc, b + 256 * acc) 0 bytes.
Definition from_bytes (endian : Endian) (bytes : list Z) : Z :=
  match endian with Little => from_le bytes | Big => from_le (reverse bytes) end.
Definition to_signed (bits n : Z) : Z := if n <? 2 ^ (bits - 1) then n else n - 2 ^ bits.

(** [f32]: the same numbers with 24 bits of precision; [as f32] rounds. *)
Definition as_f32 (x : f64) : f64 :=
  match x with
  | S754_finite s m e => binary_normalize 24 128 (if s then Zneg m else Zpos m) e s
  | _ => x
  end.
Definition f32_to_bits (x : f64) : Z :=
  match x with
  | S754_zero s => if s then 2 ^ 31 else 0
  | S754_infinity s => (if s then 2 ^ 31 else 0) + 255 * 2 ^ 23
  | S754_nan => 255 * 2 ^ 23 + 2 ^ 22
  | S754_finite s m e =>
      (if s then 2 ^ 31 else 0) +
      (if Z.pos m <? 2 ^ 23 then Z.pos m else (e + 150) * 2 ^ 23 + (Z.pos m - 2 ^ 23))
  end.
Definition f32_from_bits (b : Z) : f64 :=
  let s := 2 ^ 31 <=? b in
  let b := b `mod` 2 ^ 31 in
  let e := b `div` 2 ^ 23 in
  let m := b `mod` 2 ^ 23 in
  if e =? 255 then (if m =? 0 then S754_infinity s else S754_nan)
  else if e =? 0 then
    match m with Zpos p => S754_finite s p (-149) | _ => S754_zero s end
  else match m + 2 ^ 23 with Zpos p => S754_finite s p (e - 150) | _ => S754_nan end.
(** [as f64], which is exact. *)
Definition f32_as_f64 (x : f64) : f64 :=
  match x with
  | S754_finite s m e => binary_normalize 53 1024 (if s then Zneg m else Zpos m) e s
  | _ => x
  end.

(** * Indices *)

Definition MAX_SAFE_INTEGER : f64 := f_of_Z 9007199254740991.
Definition MIN_SAFE_INTEGER : f64 := f_of_Z (-9007199254740991).

Definition is_finite (x : f64) : bool :=
  match x with S754_zero _ | S754_finite _ _ _ => true | _ => false end.
(** [n.fract() == 0.0], of a finite number. *)
Definition no_fraction (x : f64) : bool :=
  match x with
  | S754_finite _ m e => (0 <=? e) || (Z.pos m `mod` 2 ^ (- e) =? 0)
  | _ => true
  end.
Definition is_integral_number (n : f64) : bool := is_finite n && no_fraction n.

(** [n.floor() as i64], of a number in the safe range. *)
Definition floor_i64 (n : f64) : Z :=
  let t := trunc_Z n in
  match n with S754_finite true _ _ => if no_fraction n then t else t - 1 | _ => t end.

Definition to_integer_default_zero (n : f64) : Z :=
  if match n with S754_nan => true | _ => false end || negb (is_finite n) ||
     SFltb n MIN_SAFE_INTEGER || SFltb MAX_SAFE_INTEGER n
  then 0
  else floor_i64 n.

Definition preserve_integral_number (n : f64) : Z :=
  if SFleb (f_of_Z (2 ^ 63 - 1)) n then 2 ^ 63 - 1
  else if SFleb n (f_of_Z (- 2 ^ 63)) then - 2 ^ 63
  else as_i64 n.

(** An index of [copy]: a number, or a value whose conversion to a number may
    run user code, which changes the heap, and may throw. *)
Inductive index_arg :=
  | IUndefined
  | INumber (n : f64)
  | ICoerced (to_number : heap → heap * res exn f64).

Definition normalize_copy_index (h : heap) (value : option index_arg) (default_if_undefined : Z) :
    heap * res exn Z :=
  match value with
  | None | Some IUndefined => (h, Ok default_if_undefined)
  | Some (INumber n) =>
      if is_integral_number n then (h, Ok (preserve_integral_number n))
      else (h, Ok (to_integer_default_zero n))
  | Some (ICoerced f) =>
      let '(h, r) := f h in
      (h, n ← r; Ok (to_integer_default_zero n))
  end.

(** * Methods *)

(** The argument after the value of [from]. *)
Inductive offset_or_encoding_arg := OEString (s : list Z) | OENumber (n : nat) | OEOther.

(** [coerce] is the language's conversion to a string, [detached] what
    [TypedArray::as_ref] does when the buffer is detached, [to_i64] the
    engine's reading of a bigint. *)
Section Buffer.
Context `{CodecLib} (coerce : js_value → option rstring) (detached : res exn (list Z))
  (to_i64 : Z → res exn Z).

Definition as_ref (h : heap) (v : view) : res exn (list Z) :=
  match as_raw h v with Some bytes => Ok bytes | None => detached end.

(** [TypedArray::<u8>::from_object]. *)
Definition uint8_array (v : js_value) : res exn view :=
  match v with
  | JBytes (Typed U8 v) _ => Ok v
  | _ => Err (TypeError (bs "Not a Uint8Array"))
  end.

(** ** Making buffers *)

Definition into_js (h : heap) (bytes : list Z) : heap * view :=
  let '(h, b) := new_array_buffer h bytes in (h, mkView b 0 (length bytes)).

(** [byte_ref[i % byte_ref_length]] panics when the divisor is zero. *)
Definition alloc_byte_ref (h : heap) (byte_ref : list Z) (length : nat) : heap * res exn view :=
  if (0 <? length)%nat && (List.length byte_ref =? 0)%nat then (h, Panic)
  else
    let bytes := (λ i, default 0 (byte_ref !! (i mod List.length byte_ref)%nat)) <$> seq 0 length in
    let '(h, v) := into_js h bytes in (h, Ok v).

Definition alloc (h : heap) (length : nat) (fill : option js_value) (encoding : option (list Z)) :
    heap * res exn view :=
  let zeros := let '(h, v) := into_js h (replicate length 0) in (h, Ok v) in
  match fill with
  | Some (JString string) =>
      match encoding with
      | Some encoding =>
          match (encoder ← or_throw (from_str encoding); or_throw (decode_from_string encoder string)) with
          | Ok bytes => alloc_byte_ref h bytes length
          | Err e => (h, Err e)
          | Panic => (h, Panic)
          end
      | None => alloc_byte_ref h (to_utf8 string) length
      end
  | Some (JInt value) =>
      let '(h, v) := into_js h (replicate length (value `mod` 256)) in (h, Ok v)
  | Some (JBytes ob _) =>
      match as_bytes_inner h ob with
      | Ok bytes => alloc_byte_ref h bytes length
      | Err e => (h, Err e)
      | Panic => (h, Panic)
      end
  | _ => zeros
  end.

Definition byte_length (h : heap) (value : js_value) (encoding : option (list Z)) : res exn nat :=
  match encoding with
  | Some encoding =>
      encoder ← or_throw (from_str encoding);
      a ← object_bytes_from coerce value;
      bytes ← as_bytes_inner h a;
      bytes ← or_throw (decode encoder bytes);
      Ok (length bytes)
  | None =>
      match value with
      | JString val => Ok (length (to_utf8 val))
      | JArray array =>
          if forallb (λ x, match x with Some _ => true | None => false end) array then Ok (length array)
          else Err (JsError (bs "array value is not u8"))
      | JBytes ob _ => bytes ← as_bytes_inner h ob; Ok (length bytes)
      | _ => Err (JsError (bs "value must be typed DataView, Buffer, ArrayBuffer, Uint8Array or string"))
      end
  end.

(** The loop of [concat]; a subtraction below zero and a slice out of range are
    panics. *)
Fixpoint concat_loop (h : heap) (values : list js_value) (max_length : option nat)
    (total_length : nat) (bytes : list Z) : res exn (list Z) :=
  match values with
  | [] => Ok bytes
  | value :: values =>
      typed_array ← uint8_array value;
      bytes_ref ← as_ref h typed_array;
      let length := List.length bytes_ref in
      if (length =? 0)%nat then concat_loop h values max_length total_length bytes
      else
        match max_length with
        | Some max_length' =>
            let total_length := (total_length + length)%nat in
            if (max_length' <? total_length)%nat then
              if (max_length' <? total_length - length)%nat then Panic
              else
                let diff := (max_length' - (total_length - length))%nat in
                if (length <? diff)%nat then Panic else Ok (bytes ++ take diff bytes_ref)
            else concat_loop h values max_length total_length (bytes ++ bytes_ref)
        | None => concat_loop h values max_length total_length (bytes ++ bytes_ref)
        end
  end.

Definition concat (h : heap) (values : list js_value) (max_length : option nat) : heap * res exn view :=
  match concat_loop h values max_length 0 [] with
  | Ok bytes => let '(h, v) := into_js h bytes in (h, Ok v)
  | Err e => (h, Err e)
  | Panic => (h, Panic)
  end.

(** A new buffer for the bytes of a computation. *)
Definition buffer_of (h : heap) (r : res exn (list Z)) : heap * res exn view :=
  match r with
  | Ok bytes => let '(h, v) := into_js h bytes in (h, Ok v)
  | Err e => (h, Err e)
  | Panic => (h, Panic)
  end.

Definition from_encoding (h : heap) (bytes : list Z) (encoding : option (list Z)) : heap * res exn view :=
  buffer_of h
    match encoding with
    | Some encoding => encoder ← or_throw (from_str encoding); or_throw (decode encoder bytes)
    | None => Ok bytes
    end.

Definition from_string_encoding (h : heap) (string : rstring) (encoding : option (list Z)) :
    heap * res exn view :=
  buffer_of h
    match encoding with
    | Some encoding => encoder ← or_throw (from_str encoding); or_throw (decode_from_string encoder string)
    | None => Ok (to_utf8 string)
    end.

Definition from (h : heap) (value : js_value) (offset_or_encoding : option offset_or_encoding_arg)
    (length : option nat) : heap * res exn view :=
  let encoding := match offset_or_encoding with Some (OEString s) => Some s | _ => None end in
  let offset := match offset_or_encoding with Some (OENumber n) => n | _ => 0%nat end in
  match value with
  | JString string => from_string_encoding h string encoding
  | _ =>
      match get_array_bytes value offset length with
      | Err e => (h, Err e)
      | Panic => (h, Panic)
      | Ok (Some bytes) => from_encoding h bytes encoding
      | Ok None =>
          match value with
          | JBytes ob is_buffer =>
              match as_bytes_inner h ob with
              | Err e => (h, Err e)
              | Panic => (h, Panic)
              | Ok bytes =>
                  let '(start, end_) := get_start_end_indexes (List.length bytes) length offset in
                  if is_buffer || (match encoding with Some _ => true | None => false end)
                  then from_encoding h bytes encoding
                  else
                    (h, b ← get_array_buffer h ob;
                        '(array_buffer, _, source_offset) ← or_panic b;
                        construct_view h array_buffer (start + source_offset) (end_ - start))
              end
          | _ =>
              match coerce value with
              | Some string => from_string_encoding h string encoding
              | None => (h, Err (JsError ERROR_MSG_NOT_BYTES))
              end
          end
      end
  end.

Definition is_encoding (value : js_value) : bool :=
  match value with JString s => res_ok (from_str s) | _ => false end.

(** ** Copying and comparing *)

Definition out_of_range (name : String.string) : exn :=
  RangeError (bs "The value of " ++ [34] ++ bs name ++ [34] ++ bs " is out of range.").

Definition target_array (v : js_value) : res exn view :=
  match v with
  | JArray _ | JBytes _ _ | JObject _ => uint8_array v
  | _ => Err (TypeError (bs "Target must be a Uint8Array or Buffer"))
  end.

(** The end of [copy], when no more user code runs. *)
Definition copy_regions (h : heap) (source_view target_view : view)
    (target_start source_start source_end : Z) : heap * res exn nat :=
  match as_raw h source_view, as_raw h target_view with
  | Some source_raw, Some target_raw =>
      let source_length := Z.of_nat (length source_raw) in
      let target_length := Z.of_nat (length target_raw) in
      if source_end <=? source_start then (h, Ok 0%nat)
      else if target_length <=? target_start then (h, Ok 0%nat)
      else
        let source_end := Z.min source_end source_length in
        if source_end <=? source_start then (h, Ok 0%nat)
        else
          let copyable := Z.min (Z.min (source_end - source_start) (source_length - source_start))
                            (target_length - target_start) in
          if copyable =? 0 then (h, Ok 0%nat)
          else if (source_length <? source_start + copyable) || (target_length <? target_start + copyable)
          then (h, Ok 0%nat)
          else
            let copyable := Z.to_nat copyable in
            let src := take copyable (drop (Z.to_nat source_start) source_raw) in
            (store h (vbuf target_view) (voff target_view + Z.to_nat target_start) src, Ok copyable)
  | _, _ => (h, Ok 0%nat)
  end.

(** [ptr::copy] reads the source before it writes: the regions may overlap. *)
Definition copy (h : heap) (this target : js_value)
    (target_start source_start source_end : option index_arg) : heap * res exn nat :=
  match uint8_array this with
  | Err e => (h, Err e)
  | Panic => (h, Panic)
  | Ok source_view =>
  match target_array target with
  | Err e => (h, Err e)
  | Panic => (h, Panic)
  | Ok target_view =>
  match normalize_copy_index h target_start 0 with
  | (h, Err e) => (h, Err e)
  | (h, Panic) => (h, Panic)
  | (h, Ok target_start) =>
  if target_start <? 0 then (h, Err (out_of_range "targetStart"))
  else
  match normalize_copy_index h source_start 0 with
  | (h, Err e) => (h, Err e)
  | (h, Panic) => (h, Panic)
  | (h, Ok source_start) =>
  let source_length_for_check :=
    Z.of_nat (match as_raw h source_view with Some r => length r | None => 0%nat end) in
  if (source_start <? 0) || (source_length_for_check <? source_start)
  then (h, Err (out_of_range "sourceStart"))
  else
  match source_end with
  | None | Some IUndefined =>
      copy_regions h source_view target_view target_start source_start source_length_for_check
  | Some value =>
      match normalize_copy_index h (Some value) 0 with
      | (h, Err e) => (h, Err e)
      | (h, Panic) => (h, Panic)
      | (h, Ok e) =>
          if e <? 0 then (h, Err (out_of_range "sourceEnd"))
          else copy_regions h source_view target_view target_start source_start e
      end
  end end end end end.

(** [same]: the argument is the receiver itself. *)
Definition equals (h : heap) (this other : js_value) (same : bool) : res exn bool :=
  match uint8_array this with
  | Ok this_view =>
      if same then Ok true
      else
        match uint8_array other with
        | Ok other_view =>
            this_bytes ← as_ref h this_view;
            other_bytes ← as_ref h other_view;
            if negb (length this_bytes =? length other_bytes)%nat then Ok false
            else if (length this_bytes =? 0)%nat then Ok true
            else Ok (bool_decide (this_bytes = other_bytes))
        | _ => Err (TypeError (bs "The " ++ [34] ++ bs "otherBuffer" ++ [34] ++
                              bs " argument must be an instance of Buffer or Uint8Array"))
        end
  | _ => Err (TypeError (bs "The receiver must be an instance of Buffer or Uint8Array"))
  end.

(** A relative index of [subarray]. *)
Definition relative_index (view_length : Z) (i : Z) : Z :=
  if i <? 0 then Z.max (view_length + i) 0 else Z.min i view_length.

Definition subarray (h : heap) (this : js_value) (start end_ : option Z) : res exn view :=
  view ← uint8_array this;
  view_raw ← or_detached (as_raw h view);
  _ ← or_detached (buffer_bytes h (vbuf view));
  let view_offset := Z.of_nat (voff view) in
  let view_length := Z.of_nat (length view_raw) in
  let start_index := match start with Some s => relative_index view_length s | None => 0 end in
  let end_index := match end_ with Some e => relative_index view_length e | None => view_length end in
  let length := Z.to_nat (Z.max (end_index - start_index) 0) in
  let new_offset := Z.to_nat (Z.max (view_offset + start_index) 0) in
  construct_view h (vbuf view) new_offset length.

(** ** Strings *)

(** [&bytes[start..end]] panics when the bounds are reversed. *)
Definition to_string (h : heap) (this : js_value) (encoding : option (list Z)) (start end_ : option Z) :
    res exn rstring :=
  typed_array ← uint8_array this;
  bytes ← as_ref h typed_array;
  let clamp i := Nat.min (Z.to_nat (Z.max i 0)) (length bytes) in
  let start := match start with Some s => clamp s | None => 0%nat end in
  let end_ := match end_ with Some e => clamp e | None => length bytes end in
  if (end_ <? start)%nat then Panic
  else
    let bytes := take (end_ - start) (drop start bytes) in
    encoder ← or_throw (from_optional_str encoding);
    or_throw (encode_to_string encoder bytes true).

(** [char_indices]. *)
Fixpoint char_indices (i : nat) (s : rstring) : list nat :=
  match s with
  | [] => []
  | c :: s => i :: char_indices (i + length (encode_char c)) s
  end.

Definition safe_byte_slice (s : rstring) (end_ : nat) : list Z * nat :=
  let bytes := to_utf8 s in
  if (length bytes <=? end_)%nat then (bytes, length bytes)
  else
    let valid_end := default 0%nat (last (filter (λ i, (i ≤ end_)%nat) (char_indices 0 s))) in
    (take valid_end bytes, valid_end).

Definition usize (z : Z) : Z := z `mod` 2 ^ 64.

Definition as_int (v : js_value) : option Z := match v with JInt n => Some n | _ => None end.

(** [len - offset] wraps. *)
Definition get_write_parameters (args : list js_value) (len : Z) : Z * Z * list Z :=
  match args with
  | [] => (0, len, bs "utf8")
  | JString s :: _ => (0, len, s)
  | v1 :: args =>
      let offset := usize (default 0 (as_int v1)) in
      match args with
      | [] => (offset, len, bs "utf8")
      | JString s :: _ => (offset, usize (len - offset), s)
      | v2 :: args =>
          let length := match as_int v2 with
            | Some l => Z.min (usize l) (usize (len - offset))
            | None => usize (len - offset)
            end in
          match args with
          | JString s :: _ => (offset, length, s)
          | _ => (offset, length, bs "utf8")
          end
      end
  end.

(** [target_bytes[offset..offset + n].copy_from_slice(chunk)]. *)
Definition copy_at (h : heap) (b : nat) (raw : list Z) (offset : Z) (chunk : list Z) : heap * res exn nat :=
  let end_ := usize (offset + Z.of_nat (length chunk)) in
  if (end_ <? offset) || (Z.of_nat (length raw) <? end_) then (h, Panic)
  else (store h b (Z.to_nat offset) chunk, Ok (length chunk)).

(** [len] is [this.0.len()], the length of a view. *)
Definition write (h : heap) (this : js_value) (len : nat) (string : rstring) (args : list js_value) :
    heap * res exn nat :=
  let '(offset, length, encoding) := get_write_parameters args (Z.of_nat len) in
  match (target ← object_bytes_from coerce this; get_array_buffer h target) with
  | Err e => (h, Err e)
  | Panic => (h, Panic)
  | Ok None => (h, Ok 0%nat)
  | Ok (Some (array_buffer, _, _)) =>
      match (raw ← or_detached (buffer_bytes h array_buffer);
             encoder ← or_throw (from_str encoding);
             if decide (as_label encoder = bs "utf-8") then
               let '(source_slice, _) := safe_byte_slice string
                 (Z.to_nat (Z.min length (Z.of_nat (List.length (to_utf8 string))))) in
               Ok (raw, source_slice)
             else
               decode_bytes ← or_throw (decode_from_string encoder string);
               Ok (raw, take (Z.to_nat (Z.min length (Z.of_nat (List.length decode_bytes)))) decode_bytes))
      with
      | Err e => (h, Err e)
      | Panic => (h, Panic)
      | Ok (raw, chunk) => copy_at h array_buffer raw offset chunk
      end
  end.

(** ** Numbers in a buffer *)

(** The integer kinds: the value truncated, checked and masked. *)
Definition int_bytes (int_val : f64) (endian : Endian) (kind : NumberKind) : res exn (nat * list Z) :=
  let int_val := as_i64 int_val in
  let bit_mask := Z.shiftl 1 (bits kind) - 1 in
  let max_val := if is_signed kind then Z.shiftl 1 (bits kind - 1) - 1 else bit_mask in
  let min_val := if is_signed kind then - max_val - 1 else 0 in
  if (int_val <? min_val) || (max_val <? int_val) then Err (RangeError (bs "Value out of range"))
  else
    let masked := Z.land int_val bit_mask in
    Ok (Z.to_nat (bits kind `div` 8), shifted_bytes masked (bits kind) endian).

(** The bytes [write_buf] stores. *)
Definition number_bytes (value : js_value) (endian : Endian) (kind : NumberKind) : res exn (nat * list Z) :=
  let expected := TypeError (bs "Expected number") in
  match kind with
  | BigInt =>
      match value with
      | JBigInt bigint => val ← to_i64 bigint; Ok (8%nat, endian_bytes (val `mod` 2 ^ 64) endian)
      | _ => Err (TypeError (bs "Expected BigInt"))
      end
  | BigUInt => Err (TypeError (bs "Uint64 is not supported"))
  | Float32 =>
      float_val ← or_err (as_number value) expected;
      Ok (4%nat, to_bytes endian 4 (f32_to_bits (as_f32 float_val)))
  | Float64 =>
      float_val ← or_err (as_number value) expected;
      Ok (8%nat, to_bytes endian 8 (to_bits float_val))
  | Int8 | UInt8 | Int16 | UInt16 | Int32 | UInt32 =>
      int_val ← or_err (as_number value) expected;
      int_bytes int_val endian kind
  end.

Definition offset_error : exn := RangeError (bs "The specified offset is out of range").

Definition write_buf (h : heap) (this value : js_value) (offset : option nat) (endian : Endian)
    (kind : NumberKind) : heap * res exn nat :=
  let offset := default 0%nat offset in
  match (nb ← number_bytes value endian kind;
         target ← object_bytes_from coerce this;
         b ← get_array_buffer h target;
         b ← or_err b (JsError (bs "Not an ArrayBuffer"));
         Ok (nb, b))
  with
  | Err e => (h, Err e)
  | Panic => (h, Panic)
  | Ok (byte_count, bytes, (array_buffer, view_length, view_offset)) =>
      if (view_length <? offset + byte_count)%nat then (h, Err offset_error)
      else
        match or_detached (buffer_bytes h array_buffer) with
        | Err e => (h, Err e)
        | Panic => (h, Panic)
        | Ok raw =>
            if (length raw <? view_offset + view_length)%nat then (h, Err offset_error)
            else
              let abs_start := (view_offset + offset)%nat in
              let abs_end := (abs_start + byte_count)%nat in
              if (length raw <? abs_end)%nat || negb (length bytes =? byte_count)%nat then (h, Panic)
              else (store h array_buffer abs_start bytes, Ok (offset + byte_count)%nat)
        end
  end.

Definition read_error : exn :=
  RangeError (bs "The value of " ++ [34] ++ bs "offset" ++ [34] ++ bs " is out of range").

(** The value of the bytes; [try_into().unwrap()] panics on another length. *)
Definition number_of (bytes : list Z) (endian : Endian) (kind : NumberKind) : res exn js_value :=
  if negb (length bytes =? Z.to_nat (bits kind `div` 8))%nat then Panic
  else
    let n := from_bytes endian bytes in
    match kind with
    | BigInt => Ok (JBigInt (to_signed 64 n))
    | BigUInt => Err (TypeError (bs "Uint64 is not supported"))
    | Float32 => Ok (JFloat (f32_as_f64 (f32_from_bits n)))
    | Float64 => Ok (JFloat (from_bits n))
    | Int8 | Int16 | Int32 => Ok (JInt (to_signed (bits kind) n))
    | UInt8 | UInt16 => Ok (JInt n)
    | UInt32 => Ok (JFloat (f_of_Z n))
    end.

Definition read_buf (h : heap) (this : js_value) (offset : option nat) (endian : Endian)
    (kind : NumberKind) : res exn js_value :=
  target ← object_bytes_from coerce this;
  b ← get_array_buffer h target;
  '(array_buffer, view_length, view_offset) ← or_err b (JsError (bs "Not an ArrayBuffer"));
  raw ← or_detached (buffer_bytes h array_buffer);
  if (length raw <? view_offset + view_length)%nat then Err read_error
  else
    let start := default 0%nat offset in
    let byte_count := Z.to_nat (bits kind `div` 8) in
    if (view_length <? start + byte_count)%nat then Err read_error
    else
      let abs_start := (view_offset + start)%nat in
      if (length raw <? abs_start + byte_count)%nat then Panic
      else number_of (take byte_count (drop abs_start raw)) endian kind.
End Buffer.
