(* ===== verification/NodeBufferProofs.v ===== *)
(** Node's [Buffer]: what is read from a buffer is what was written; [copy] is
    a move of the bytes both views have, whatever the conversions of its
    arguments do; a [subarray] is the slice of the same memory; [write] stores
    whole characters. *)

From Stdlib Require Import SpecFloat.
From S2P Require Import Prelude Unicode Encoding Numbers ObjectBytes NodeBuffer.

(** * Bytes of integers *)

Lemma testbit_255 n : 0 ≤ n → Z.testbit 255 n = (n <? 8).
Proof.
  intros Hn. change 255 with (Z.ones 8). destruct (Z.ltb_spec n 8).
  - by apply Z.ones_spec_low.
  - by apply Z.ones_spec_high.
Qed.

(** Clearing the byte at [s] leaves the byte at [t]. *)
Lemma clear_other val s t :
  0 ≤ s → 0 ≤ t → s + 8 ≤ t ∨ t + 8 ≤ s →
  Z.shiftr (Z.land val (Z.lnot (Z.shiftl 255 s))) t `mod` 256 = Z.shiftr val t `mod` 256.
Proof.
  intros Hs Ht Hst. change 256 with (2 ^ 8). rewrite <- !Z.land_ones by lia. apply Z.bits_inj'. intros n Hn.
  rewrite !Z.land_spec, !Z.shiftr_spec, Z.land_spec, Z.lnot_spec by lia.
  destruct (Z.lt_ge_cases n 8) as [Hn8|Hn8]; [|by rewrite Z.ones_spec_high, !andb_false_r by lia].
  destruct (Z.lt_ge_cases (n + t) s) as [Hlt|Hge].
  - by rewrite Z.shiftl_spec_low, andb_true_r by lia.
  - rewrite Z.shiftl_spec_high, testbit_255 by lia.
    by rewrite (proj2 (Z.ltb_ge _ _)), andb_true_r by lia.
Qed.

Lemma byte_loop_ok shift indices val bytes :
  NoDup indices → (∀ i, 0 ≤ shift i) →
  (∀ i j, i ∈ indices → j ∈ indices → i ≠ j → shift i + 8 ≤ shift j ∨ shift j + 8 ≤ shift i) →
  Forall (λ i, i < length bytes)%nat indices →
  byte_loop shift indices val bytes =
  imap (λ i b, if decide (i ∈ indices) then Z.shiftr val (shift i) `mod` 256 else b) bytes.
Proof.
  revert val bytes. induction indices as [|i indices IH]; intros val bytes Hnd Hpos Hsep Hlen; simpl.
  { apply list_eq. intros j. rewrite list_lookup_imap. destruct (bytes !! j); [|done]. cbn [fmap option_fmap option_map].
    done. }
  apply NoDup_cons in Hnd as [Hi Hnd]. apply Forall_cons in Hlen as [Hil Hlen].
  rewrite IH; [|done|done| |by rewrite length_insert].
  2: { intros j k Hj Hk. apply Hsep; by right. }
  apply list_eq. intros j. rewrite !list_lookup_imap.
  destruct (decide (i = j)) as [->|Hij].
  - rewrite list_lookup_insert_eq by done. destruct (lookup_lt_is_Some_2 bytes j Hil) as [b ->]. simpl.
    rewrite decide_False by done. by rewrite decide_True by set_solver.
  - rewrite list_lookup_insert_ne by done. destruct (bytes !! j) as [b|]; [|done]. simpl. f_equal.
    destruct (decide (j ∈ indices)) as [Hj|Hj].
    + rewrite decide_True by (by right). apply clear_other; [done..|]. apply Hsep; [by left|by right|done].
    + by rewrite decide_False by set_solver.
Qed.

(** The bytes at [shift 0], ..., [shift (n - 1)]. *)
Lemma byte_loop_seq shift n val :
  (∀ i, 0 ≤ shift i) →
  (∀ i j, (i < n)%nat → (j < n)%nat → i ≠ j → shift i + 8 ≤ shift j ∨ shift j + 8 ≤ shift i) →
  byte_loop shift (seq 0 n) val (replicate n 0) = (λ i, Z.shiftr val (shift i) `mod` 256) <$> seq 0 n.
Proof.
  intros Hpos Hsep. rewrite byte_loop_ok; [|apply NoDup_seq|done| |].
  - apply list_eq. intros i. rewrite list_lookup_imap, list_lookup_fmap.
    destruct (decide (i < n)%nat) as [Hi|Hi].
    + rewrite lookup_replicate_2, lookup_seq_lt by done. simpl. rewrite decide_True; [done|].
      apply elem_of_seq. lia.
    + by rewrite !lookup_ge_None_2 by (rewrite ?length_replicate, ?length_seq; lia).
  - intros i j Hi%elem_of_seq Hj%elem_of_seq. apply Hsep; lia.
  - apply Forall_forall. intros i Hi%elem_of_seq. rewrite length_replicate. lia.
Qed.

Lemma le_bytes_seq n val : le_bytes n val = (λ i, Z.shiftr val (Z.of_nat i * 8) `mod` 256) <$> seq 0 n.
Proof.
  revert val. induction n as [|n IH]; intros val; [done|]. cbn [le_bytes seq fmap list_fmap].
  rewrite Z.shiftr_0_r, IH. f_equal. rewrite <- fmap_S_seq, <- list_fmap_compose.
  apply list_fmap_ext. intros i x _. simpl. f_equal.
  rewrite !Z.shiftr_div_pow2 by lia. rewrite Zdiv_Zdiv by lia. f_equal.
  change 256 with (2 ^ 8). rewrite <- Z.pow_add_r by lia. f_equal. lia.
Qed.

Lemma reverse_seq {A} (f : nat → A) n :
  reverse (f <$> seq 0 n) = (λ i, f (n - 1 - i)%nat) <$> seq 0 n.
Proof.
  apply list_eq. intros i. destruct (decide (i < n)%nat) as [Hi|Hi].
  - rewrite reverse_lookup by (by rewrite length_fmap, length_seq).
    rewrite length_fmap, length_seq, !list_lookup_fmap, !lookup_seq_lt by lia. simpl. do 2 f_equal. lia.
  - by rewrite !lookup_ge_None_2 by (rewrite ?length_reverse, ?length_fmap, ?length_seq; lia).
Qed.

Lemma to_bytes_seq endian n val : to_bytes endian n val =
  (λ i, Z.shiftr val (match endian with Big => Z.of_nat (n - 1 - i) * 8 | Little => Z.of_nat i * 8 end) `mod` 256)
  <$> seq 0 n.
Proof. unfold to_bytes. rewrite le_bytes_seq. destruct endian; [done|]. by rewrite reverse_seq. Qed.

Lemma shifted_bytes_ok val bits endian :
  shifted_bytes val bits endian = to_bytes endian (Z.to_nat (bits `div` 8)) val.
Proof.
  unfold shifted_bytes. rewrite to_bytes_seq. apply byte_loop_seq.
  - intros i. destruct endian; lia.
  - intros i j Hi Hj Hij. destruct endian; lia.
Qed.

Lemma endian_bytes_ok val endian : endian_bytes val endian = to_bytes endian 8 val.
Proof.
  unfold endian_bytes. rewrite to_bytes_seq. destruct endian.
  - apply byte_loop_seq; lia.
  - transitivity (byte_loop (λ i, Z.of_nat (8 - 1 - i) * 8) (seq 0 8) val (replicate 8 0)); [done|].
    apply byte_loop_seq; lia.
Qed.

Lemma length_to_bytes endian n val : length (to_bytes endian n val) = n.
Proof. by rewrite to_bytes_seq, length_fmap, length_seq. Qed.

Lemma from_le_bytes n val : from_le (le_bytes n val) = val `mod` 256 ^ Z.of_nat n.
Proof.
  revert val. induction n as [|n IH]; intros val; [by rewrite Z.mod_1_r|].
  cbn [le_bytes from_le foldr]. fold (from_le (le_bytes n (val `div` 256))). rewrite IH.
  rewrite Nat2Z.inj_succ, Z.pow_succ_r, Z.rem_mul_r by lia. done.
Qed.
Lemma from_to_bytes endian n val :
  from_bytes endian (to_bytes endian n val) = val `mod` 256 ^ Z.of_nat n.
Proof. destruct endian; simpl; rewrite ?reverse_involutive; apply from_le_bytes. Qed.

Lemma to_signed_mod bits n :
  0 < bits → - 2 ^ (bits - 1) ≤ n < 2 ^ (bits - 1) → to_signed bits (n `mod` 2 ^ bits) = n.
Proof.
  intros Hb Hn. assert (2 ^ bits = 2 * 2 ^ (bits - 1)) as E by (rewrite <- Z.pow_succ_r by lia; f_equal; lia).
  unfold to_signed. destruct (Z.lt_ge_cases n 0) as [H0|H0].
  - rewrite <- (Z.mod_unique n (2 ^ bits) (-1) (n + 2 ^ bits)) by lia.
    rewrite (proj2 (Z.ltb_ge _ _)) by lia. lia.
  - rewrite Z.mod_small by lia. rewrite (proj2 (Z.ltb_lt _ _)) by lia. done.
Qed.

(** * Bits of floats *)

Lemma digits_bounds m : 2 ^ (Z.pos (digits2_pos m) - 1) ≤ Z.pos m < 2 ^ Z.pos (digits2_pos m).
Proof.
  induction m as [m IH|m IH|]; cbn [digits2_pos]; [..|done].
  all: rewrite Pos2Z.inj_succ; replace (Z.succ (Z.pos (digits2_pos m)) - 1) with (Z.pos (digits2_pos m)) by lia.
  all: rewrite Z.pow_succ_r by lia; replace (Z.pos (digits2_pos m)) with (Z.succ (Z.pos (digits2_pos m) - 1)) at 1 by lia.
  all: rewrite Z.pow_succ_r by lia; lia.
Qed.

(** A number in range has its mantissa full, or the smallest exponent. *)
Lemma valid_finite prec emax s m e :
  1 < prec → valid_binary prec emax (S754_finite s m e) = true →
  Z.pos m < 2 ^ prec ∧ 3 - emax - prec ≤ e ≤ emax - prec ∧
  (Z.pos m < 2 ^ (prec - 1) → e = 3 - emax - prec).
Proof.
  intros Hp. simpl. unfold bounded, canonical_mantissa, fexp, emin. intros Hv.
  apply andb_prop in Hv as [Hc%Z.eqb_eq He%Z.leb_le]. pose proof (digits_bounds m) as Hd.
  split_and!; [|lia..|].
  - apply (Z.lt_le_trans _ _ _ (proj2 Hd)). apply Z.pow_le_mono_r; lia.
  - intros Hm. assert (Z.pos (digits2_pos m) - 1 < prec - 1); [|lia].
    apply (Z.pow_lt_mono_r_iff 2); lia.
Qed.

(** The sign above [k] bits, and a field above [p] bits. *)
Lemma sign_field k B (s : bool) :
  0 ≤ k → 0 ≤ B < 2 ^ k →
  (2 ^ k <=? (if s then 2 ^ k else 0) + B) = s ∧ ((if s then 2 ^ k else 0) + B) `mod` 2 ^ k = B.
Proof.
  intros Hk HB. destruct s.
  - split; [apply Z.leb_le; lia|]. symmetry. apply (Z.mod_unique _ _ 1); lia.
  - split; [apply Z.leb_gt; lia|]. apply Z.mod_small. lia.
Qed.
Lemma low_field p q m :
  0 ≤ p → 0 ≤ m < 2 ^ p → (q * 2 ^ p + m) `div` 2 ^ p = q ∧ (q * 2 ^ p + m) `mod` 2 ^ p = m.
Proof.
  intros Hp Hm. split; symmetry; [apply (Z.div_unique _ _ _ m)|apply (Z.mod_unique _ _ q)]; lia.
Qed.

Lemma f64_bits x : valid_binary 53 1024 x = true → from_bits (to_bits x) = x.
Proof.
  destruct x as [s|s| |s m e]; [by destruct s..| |]; [done|].
  intros (Hm & He & Hsub)%valid_finite; [|lia]. unfold from_bits, to_bits.
  change (3 - 1024 - 53) with (-1074) in *. change (53 - 1) with 52 in *. change (1024 - 53) with 971 in *.
  destruct (Z.ltb_spec (Z.pos m) (2 ^ 52)) as [Hlt|Hge].
  - destruct (sign_field 63 (Z.pos m) s) as [-> ->]; [lia..|]. rewrite Z.div_small, Z.mod_small by lia.
    simpl. by rewrite Hsub.
  - destruct (sign_field 63 ((e + 1075) * 2 ^ 52 + (Z.pos m - 2 ^ 52)) s) as [-> ->]; [lia..|].
    destruct (low_field 52 (e + 1075) (Z.pos m - 2 ^ 52)) as [-> ->]; [lia..|].
    rewrite (proj2 (Z.eqb_neq _ 2047)), (proj2 (Z.eqb_neq _ 0)), Z.sub_add by lia. f_equal. lia.
Qed.

Lemma f32_bits x : valid_binary 24 128 x = true → f32_from_bits (f32_to_bits x) = x.
Proof.
  destruct x as [s|s| |s m e]; [by destruct s..| |]; [done|].
  intros (Hm & He & Hsub)%valid_finite; [|lia]. unfold f32_from_bits, f32_to_bits.
  change (3 - 128 - 24) with (-149) in *. change (24 - 1) with 23 in *. change (128 - 24) with 104 in *.
  destruct (Z.ltb_spec (Z.pos m) (2 ^ 23)) as [Hlt|Hge].
  - destruct (sign_field 31 (Z.pos m) s) as [-> ->]; [lia..|]. rewrite Z.div_small, Z.mod_small by lia.
    simpl. by rewrite Hsub.
  - destruct (sign_field 31 ((e + 150) * 2 ^ 23 + (Z.pos m - 2 ^ 23)) s) as [-> ->]; [lia..|].
    destruct (low_field 23 (e + 150) (Z.pos m - 2 ^ 23)) as [-> ->]; [lia..|].
    rewrite (proj2 (Z.eqb_neq _ 255)), (proj2 (Z.eqb_neq _ 0)), Z.sub_add by lia. f_equal. lia.
Qed.

Lemma f64_bits_range x : valid_binary 53 1024 x = true → 0 ≤ to_bits x < 2 ^ 64.
Proof.
  destruct x as [s|s| |s m e]; [destruct s; simpl; lia..| |]; [simpl; lia|].
  intros (Hm & He & Hsub)%valid_finite; [|lia]. unfold to_bits.
  change (3 - 1024 - 53) with (-1074) in *. change (1024 - 53) with 971 in *.
  destruct s, (Z.ltb_spec (Z.pos m) (2 ^ 52)); lia.
Qed.
Lemma f32_bits_range x : valid_binary 24 128 x = true → 0 ≤ f32_to_bits x < 2 ^ 32.
Proof.
  destruct x as [s|s| |s m e]; [destruct s; simpl; lia..| |]; [simpl; lia|].
  intros (Hm & He & Hsub)%valid_finite; [|lia]. unfold f32_to_bits.
  change (3 - 128 - 24) with (-149) in *. change (128 - 24) with 104 in *.
  destruct s, (Z.ltb_spec (Z.pos m) (2 ^ 23)); lia.
Qed.

(** * Reading what was written *)

(** The views among the objects with bytes. *)
Definition view_of (ob : ObjectBytes) : option view :=
  match ob with Typed _ v | U8ClampedArray v | DataView v => Some v | _ => None end.

Section Numbers.
Context (coerce : js_value → option rstring) (to_i64 : Z → res exn Z).
Context (to_i64_range : ∀ z n, to_i64 z = Ok n → i64_ok n).

(** The floats are those of the machine. *)
Definition number_ok (value : js_value) (kind : NumberKind) : Prop :=
  match as_number value, kind with
  | Some x, Float64 => valid_binary 53 1024 x = true
  | Some x, Float32 => valid_binary 24 128 (as_f32 x) = true
  | _, _ => True
  end.

(** What a number is once it has been through a buffer. *)
Definition stored (value : js_value) (kind : NumberKind) : res exn js_value :=
  match kind, value with
  | BigInt, JBigInt z => n ← to_i64 z; Ok (JBigInt n)
  | _, _ =>
      x ← or_err (as_number value) (TypeError (bs "Expected number"));
      match kind with
      | Float64 => Ok (JFloat x)
      | Float32 => Ok (JFloat (f32_as_f64 (as_f32 x)))
      | UInt32 => Ok (JFloat (f_of_Z (as_i64 x)))
      | _ => Ok (JInt (as_i64 x))
      end
  end.

Definition unsigned_or_signed (kind : NumberKind) (n : Z) : Z :=
  if is_signed kind then to_signed (bits kind) n else n.

Lemma int_bytes_ok x endian kind n bytes :
  int_bytes x endian kind = Ok (n, bytes) →
  n = Z.to_nat (bits kind `div` 8) ∧ length bytes = n ∧
  unsigned_or_signed kind (from_bytes endian bytes) = as_i64 x.
Proof.
  unfold int_bytes. case_match eqn:E; [done|]. intros [= <- <-].
  apply orb_false_elim in E as [Hlo%Z.ltb_ge Hhi%Z.ltb_ge].
  rewrite shifted_bytes_ok, length_to_bytes, from_to_bytes. split; [done|]. split; [done|].
  assert (Hk : 8 ≤ bits kind) by (by destruct kind).
  assert (256 ^ Z.of_nat (Z.to_nat (bits kind `div` 8)) = 2 ^ bits kind) as -> by (by destruct kind).
  rewrite !Z.shiftl_1_l in *. replace (2 ^ bits kind - 1) with (Z.ones (bits kind)) in * by (rewrite Z.ones_equiv; lia).
  rewrite Z.land_ones, Z.mod_mod by lia. unfold unsigned_or_signed. destruct (is_signed kind).
  - apply to_signed_mod; lia.
  - rewrite Z.ones_equiv in Hhi. apply Z.mod_small. lia.
Qed.

Lemma bytes_roundtrip value endian kind n bytes :
  number_bytes to_i64 value endian kind = Ok (n, bytes) → number_ok value kind →
  n = Z.to_nat (bits kind `div` 8) ∧ length bytes = n ∧
  number_of bytes endian kind = stored value kind.
Proof.
  intros Hb Hok. unfold number_of.
  assert (n = Z.to_nat (bits kind `div` 8) ∧ length bytes = n) as [Hn Hlen].
  { destruct kind; unfold number_bytes in Hb;
      try (apply bind_ok_inv in Hb as (x & Hx & Hb); by apply int_bytes_ok in Hb as (? & ? & _)).
    - apply bind_ok_inv in Hb as (x & _ & [= <- <-]). by rewrite length_to_bytes.
    - apply bind_ok_inv in Hb as (x & _ & [= <- <-]). by rewrite length_to_bytes.
    - destruct value; try done. apply bind_ok_inv in Hb as (x & _ & [= <- <-]).
      by rewrite endian_bytes_ok, length_to_bytes.
    - done. }
  split; [done|]. split; [done|]. rewrite Hlen, <- Hn, Nat.eqb_refl. cbn [negb].
  unfold stored, number_ok in *. destruct kind; unfold number_bytes in Hb; try done.
  all: try (apply bind_ok_inv in Hb as (x & Hx & Hb); rewrite Hx, bind_ok; by apply int_bytes_ok in Hb as (_ & _ & <-)).
  - apply bind_ok_inv in Hb as (x & Hx & [= _ <-]). rewrite Hx, bind_ok. destruct (as_number value); simplify_eq/=.
    rewrite from_to_bytes, Z.mod_small, f32_bits by (by try apply f32_bits_range). done.
  - apply bind_ok_inv in Hb as (x & Hx & [= _ <-]). rewrite Hx, bind_ok. destruct (as_number value); simplify_eq/=.
    rewrite from_to_bytes, Z.mod_small, f64_bits by (by try apply f64_bits_range). done.
  - destruct value as [| | | |z| | |]; try done. apply bind_ok_inv in Hb as (x & Hx & [= _ <-]).
    rewrite Hx, bind_ok, endian_bytes_ok, from_to_bytes. do 2 f_equal. change (256 ^ Z.of_nat 8) with (2 ^ 64).
    rewrite Z.mod_mod by lia. apply to_i64_range in Hx. unfold i64_ok in Hx. apply to_signed_mod; lia.
Qed.

Lemma view_bounds h ob v b :
  view_of ob = Some v → get_array_buffer h ob = Ok b → b = Some (vbuf v, vlen v, voff v).
Proof.
  destruct ob; intros [= <-] Hb; try (by injection Hb as <-). cbn [get_array_buffer] in Hb.
  unfold typed_array_view_bounds in Hb. destruct (as_raw h v0) as [raw|] eqn:E; [|done]. simpl in Hb.
  injection Hb as <-. by rewrite (length_as_raw _ _ _ E).
Qed.

Lemma as_raw_Some h v full :
  buffer_bytes h (vbuf v) = Some full → (voff v + vlen v ≤ length full)%nat →
  as_raw h v = Some (take (vlen v) (drop (voff v) full)).
Proof. intros Hb Hl. unfold as_raw. rewrite Hb. simpl. by rewrite (proj2 (Nat.leb_le _ _)). Qed.

Lemma as_raw_inv h v raw :
  as_raw h v = Some raw →
  ∃ full, buffer_bytes h (vbuf v) = Some full ∧ (voff v + vlen v ≤ length full)%nat ∧
    raw = take (vlen v) (drop (voff v) full).
Proof.
  unfold as_raw. destruct (buffer_bytes h (vbuf v)) as [full|]; [|done]. simpl. case_match eqn:E; [|done].
  intros [= <-]. apply Nat.leb_le in E. eauto.
Qed.

(** A write through a view stays inside it. *)
Lemma write_buf_inv h ob v ib value offset endian kind h' next :
  view_of ob = Some v →
  write_buf coerce to_i64 h (JBytes ob ib) value offset endian kind = (h', Ok next) →
  ∃ n bytes raw, number_bytes to_i64 value endian kind = Ok (n, bytes) ∧ as_raw h v = Some raw ∧
    (default 0%nat offset + n ≤ vlen v)%nat ∧ next = (default 0%nat offset + n)%nat ∧
    h' = store h (vbuf v) (voff v + default 0%nat offset) bytes.
Proof.
  intros Hv. unfold write_buf. destruct (number_bytes to_i64 value endian kind) as [[n bytes]| |]; [|done..].
  rewrite bind_ok. change (object_bytes_from coerce (JBytes ob ib)) with (Ok (E := exn) ob). rewrite bind_ok.
  destruct (get_array_buffer h ob) as [b| |] eqn:Hb; [|done..]. rewrite (view_bounds _ _ _ _ Hv Hb).
  rewrite !bind_ok. cbn [or_err]. rewrite bind_ok.
  case_match eqn:E1; [done|]. apply Nat.ltb_ge in E1.
  destruct (buffer_bytes h (vbuf v)) as [full|] eqn:Hf; [|done]. cbn [or_detached or_err].
  case_match eqn:E2; [done|]. apply Nat.ltb_ge in E2. case_match; [done|]. intros [= <- <-].
  eexists n, bytes, _. split; [done|]. split; [by apply as_raw_Some|]. done.
Qed.

Lemma read_buf_view h ob v ib offset endian kind raw :
  view_of ob = Some v → as_raw h v = Some raw →
  (default 0%nat offset + Z.to_nat (bits kind `div` 8) ≤ vlen v)%nat →
  read_buf coerce h (JBytes ob ib) offset endian kind =
  number_of (take (Z.to_nat (bits kind `div` 8)) (drop (default 0%nat offset) raw)) endian kind.
Proof.
  intros Hv Hr Hl. unfold read_buf. change (object_bytes_from coerce (JBytes ob ib)) with (Ok (E := exn) ob).
  rewrite bind_ok. destruct (as_raw_inv _ _ _ Hr) as (full & Hf & Hlen & ->).
  assert (get_array_buffer h ob = Ok (Some (vbuf v, vlen v, voff v))) as ->.
  { destruct ob; simplify_eq/=; try done. unfold typed_array_view_bounds. rewrite Hr. simpl.
    by rewrite (length_as_raw _ _ _ Hr). }
  rewrite !bind_ok. cbn [or_err]. rewrite bind_ok, Hf. cbn [or_detached or_err]. rewrite bind_ok.
  rewrite !(proj2 (Nat.ltb_ge _ _)) by lia. f_equal.
  rewrite skipn_firstn_comm, take_take, drop_drop, Nat.min_l by lia. done.
Qed.

Lemma take_drop_splice pos chunk bytes :
  (pos + length chunk ≤ length bytes)%nat → take (length chunk) (drop pos (splice pos chunk bytes)) = chunk.
Proof.
  intros. unfold splice. rewrite drop_app_length' by (rewrite length_take; lia). by rewrite take_app_length.
Qed.
End Numbers.

(** C31. A number written to a buffer is read back: whenever a write succeeds,
    through any view of a buffer and in either byte order, it stored the bytes
    of the number inside the view and nothing else, returned the offset after
    them, and reading the same kind there gives the number: an integer
    truncated, a float rounded to 32 bits or kept. *)
Theorem write_read_number coerce to_i64 h ob v ib value offset endian kind h' next :
  (∀ z n, to_i64 z = Ok n → i64_ok n) →
  view_of ob = Some v → number_ok value kind →
  write_buf coerce to_i64 h (JBytes ob ib) value offset endian kind = (h', Ok next) →
  ∃ bytes raw, as_raw h v = Some raw ∧ length bytes = Z.to_nat (bits kind `div` 8) ∧
    next = (default 0%nat offset + length bytes)%nat ∧ (next ≤ vlen v)%nat ∧
    h' = store h (vbuf v) (voff v + default 0%nat offset) bytes ∧
    as_raw h' v = Some (splice (default 0%nat offset) bytes raw) ∧
    read_buf coerce h' (JBytes ob ib) offset endian kind = stored to_i64 value kind.
Proof.
  intros Hi Hv Hok Hw. destruct (write_buf_inv coerce to_i64 _ _ _ _ _ _ _ _ _ _ Hv Hw) as (n & bytes & raw & Hb & Hr & Hl & -> & ->).
  destruct (bytes_roundtrip to_i64 Hi _ _ _ _ _ Hb Hok) as (Hn & Hlen & Hnum). rewrite <- Hlen in *.
  pose proof (as_raw_store h v (default 0%nat offset) bytes raw Hr Hl) as Hr'.
  exists bytes, raw. split_and!; try done. rewrite (read_buf_view _ _ _ _ _ _ _ _ _ Hv Hr') by lia.
  rewrite <- Hn, take_drop_splice, Hnum; [done|]. by rewrite (length_as_raw _ _ _ Hr).
Qed.

(** * Moving bytes between views *)

Lemma take_min {A} n (l : list A) : take (n `min` length l) l = take n l.
Proof.
  destruct (Nat.le_ge_cases n (length l)); [by rewrite Nat.min_l|].
  by rewrite Nat.min_r, !take_ge by lia.
Qed.

Lemma store_nil h b pos : store h b pos [] = h.
Proof.
  unfold store. apply list_eq. intros i. destruct (decide (b = i)) as [->|Hi].
  - rewrite list_lookup_alter_eq. destruct (h !! i) as [[bytes|]|]; [|done..]. simpl. by rewrite splice_nil.
  - by rewrite list_lookup_alter_ne.
Qed.

(** The move of the bytes [ss, se) of a view to position [ts] of another: as
    many as both views have. *)
Definition moved (h : heap) (sv tv : view) (ts ss se : nat) : heap * nat :=
  match as_raw h sv, as_raw h tv with
  | Some s, Some t =>
      let chunk := take (length t - ts) (take (se - ss) (drop ss s)) in
      (store h (vbuf tv) (voff tv + ts) chunk, length chunk)
  | _, _ => (h, 0%nat)
  end.

Lemma copy_regions_ok h sv tv ts ss se :
  0 ≤ ts → 0 ≤ ss → 0 ≤ se →
  copy_regions h sv tv ts ss se =
  ((moved h sv tv (Z.to_nat ts) (Z.to_nat ss) (Z.to_nat se)).1,
   Ok (moved h sv tv (Z.to_nat ts) (Z.to_nat ss) (Z.to_nat se)).2).
Proof.
  intros Hts Hss Hse. unfold copy_regions, moved.
  destruct (as_raw h sv) as [s|]; [|done]. destruct (as_raw h tv) as [t|]; [|done].
  set (chunk := take _ (take _ _)). cbn [fst snd].
  assert (Hnil : chunk = [] → (h, Ok (E := exn) 0%nat) =
    (store h (vbuf tv) (voff tv + Z.to_nat ts) chunk, Ok (length chunk))).
  { intros ->. by rewrite store_nil. }
  assert (Hlen : length chunk = ((length t - Z.to_nat ts) `min` ((Z.to_nat se - Z.to_nat ss) `min` (length s - Z.to_nat ss)))%nat).
  { unfold chunk. by rewrite !length_take, length_drop. }
  destruct (Z.leb_spec se ss); [apply Hnil, nil_length_inv; lia|].
  destruct (Z.leb_spec (Z.of_nat (length t)) ts); [apply Hnil, nil_length_inv; lia|].
  destruct (Z.leb_spec (Z.min se (Z.of_nat (length s))) ss); [apply Hnil, nil_length_inv; lia|].
  rewrite (proj2 (Z.eqb_neq _ 0)) by lia.
  rewrite !(proj2 (Z.ltb_ge _ _)) by lia. cbn [orb].
  replace (Z.to_nat (Z.min _ _)) with (length chunk) by lia.
  assert (take (length chunk) (drop (Z.to_nat ss) s) = chunk) as -> by
    (unfold chunk at 2; rewrite take_take, Hlen,
       <- (take_min ((length t - Z.to_nat ts) `min` (Z.to_nat se - Z.to_nat ss))); f_equal; rewrite length_drop; lia).
  done.
Qed.

(** The end of the region, [undefined] being the length of the source. *)
Definition end_index (h : heap) (sv : view) (source_end : option index_arg) : heap * res exn Z :=
  match source_end with
  | None | Some IUndefined => (h, Ok (Z.of_nat (length (default [] (as_raw h sv)))))
  | Some value => normalize_copy_index h (Some value) 0
  end.

(** C32. [copy] is a move of bytes: whatever user code the conversion of an
    index runs, detaching or shrinking buffers included, a copy that returns
    took its indices in order, each in range when it was read, and then moved
    the bytes that source and target still had, within both views. *)
Theorem copy_moves h sv tv i1 i2 target_start source_start source_end h' n :
  copy h (JBytes (Typed U8 sv) i1) (JBytes (Typed U8 tv) i2) target_start source_start source_end = (h', Ok n) →
  ∃ h1 h2 h3 ts ss se,
    normalize_copy_index h target_start 0 = (h1, Ok ts) ∧ 0 ≤ ts ∧
    normalize_copy_index h1 source_start 0 = (h2, Ok ss) ∧
    0 ≤ ss ≤ Z.of_nat (length (default [] (as_raw h2 sv))) ∧
    end_index h2 sv source_end = (h3, Ok se) ∧ 0 ≤ se ∧
    (h', n) = moved h3 sv tv (Z.to_nat ts) (Z.to_nat ss) (Z.to_nat se) ∧
    (n ≠ 0%nat → (Z.to_nat ts + n ≤ vlen tv)%nat ∧ (Z.to_nat ss + n ≤ vlen sv)%nat).
Proof.
  unfold copy. cbn [target_array uint8_array].
  destruct (normalize_copy_index h target_start 0) as [h1 [ts| |]] eqn:Hts; [|done..].
  destruct (Z.ltb_spec ts 0); [done|].
  destruct (normalize_copy_index h1 source_start 0) as [h2 [ss| |]] eqn:Hss; [|done..].
  assert (Hlen : Z.of_nat (match as_raw h2 sv with Some r => length r | None => 0%nat end) =
    Z.of_nat (length (default [] (as_raw h2 sv)))) by (by destruct (as_raw h2 sv)).
  rewrite Hlen. cbn zeta. destruct ((ss <? 0) || _) eqn:Hr; [done|]. apply orb_false_elim in Hr as [Hlo%Z.ltb_ge Hhi%Z.ltb_ge].
  intros Hc. assert (∃ h3 se, end_index h2 sv source_end = (h3, Ok se) ∧ 0 ≤ se ∧
    copy_regions h3 sv tv ts ss se = (h', Ok n)) as (h3 & se & He & Hse & Hreg).
  { unfold end_index. destruct source_end as [[]|]; try (eexists h2, _; split; [done|]; split; [lia|done]).
    all: destruct (normalize_copy_index h2 _ 0) as [h3 [e| |]]; [|done..];
      destruct (Z.ltb_spec e 0); [done|]; eauto. }
  rewrite copy_regions_ok in Hreg by done. injection Hreg as Hh Hn.
  exists h1, h2, h3, ts, ss, se. split_and!; try done.
  - destruct (moved h3 sv tv _ _ _). by simplify_eq/=.
  - subst n. unfold moved. destruct (as_raw h3 sv) as [s|] eqn:Es; [|done].
    destruct (as_raw h3 tv) as [t|] eqn:Et; [|done]. cbn [snd].
    rewrite !length_take, length_drop, (length_as_raw _ _ _ Es), (length_as_raw _ _ _ Et). lia.
Qed.

(** * Slices *)

(** The slice of JavaScript, with relative indices. *)
Definition rel_index (len : nat) (i : Z) : nat :=
  if i <? 0 then Z.to_nat (Z.of_nat len + i) else (Z.to_nat i `min` len)%nat.
Definition js_slice (start end_ : option Z) (l : list Z) : list Z :=
  let i := match start with Some s => rel_index (length l) s | None => 0%nat end in
  let j := match end_ with Some e => rel_index (length l) e | None => length l end in
  take (j - i) (drop i l).

Lemma relative_index_ok len i :
  relative_index (Z.of_nat len) i = Z.of_nat (rel_index len i) ∧ (rel_index len i ≤ len)%nat.
Proof. unfold relative_index, rel_index. case_match; bool_to_prop; lia. Qed.

(** [subarray] never fails on a live view: it makes the slice of
    JavaScript, negative indices counted from the end and all clamped, as a
    view inside the first on the same memory, so that a write through it is a
    write to the first. *)
Theorem subarray_slice h v ib start end_ raw :
  as_raw h v = Some raw →
  ∃ w, subarray h (JBytes (Typed U8 v) ib) start end_ = Ok w ∧
    vbuf w = vbuf v ∧ (voff v ≤ voff w)%nat ∧ (voff w + vlen w ≤ voff v + vlen v)%nat ∧
    as_raw h w = Some (js_slice start end_ raw) ∧
    ∀ pos chunk, (pos + length chunk ≤ vlen w)%nat →
      as_raw (store h (vbuf w) (voff w + pos) chunk) v =
      Some (splice (voff w - voff v + pos) chunk raw).
Proof.
  intros Hr. destruct (as_raw_inv _ _ _ Hr) as (full & Hf & Hlen & Hraw). pose proof (length_as_raw _ _ _ Hr) as Hl.
  unfold subarray. cbn [uint8_array]. rewrite bind_ok, Hr, Hf. cbn [or_detached or_err]. rewrite !bind_ok, Hl.
  set (i := match start with Some s => rel_index (vlen v) s | None => 0%nat end).
  set (j := match end_ with Some e => rel_index (vlen v) e | None => vlen v end).
  assert ((match start with Some s => relative_index (Z.of_nat (vlen v)) s | None => 0 end) = Z.of_nat i ∧ (i ≤ vlen v)%nat)
    as [-> Hi] by (unfold i; destruct start; [apply relative_index_ok|lia]).
  assert ((match end_ with Some e => relative_index (Z.of_nat (vlen v)) e | None => Z.of_nat (vlen v) end) = Z.of_nat j ∧ (j ≤ vlen v)%nat)
    as [-> Hj] by (unfold j; destruct end_; [apply relative_index_ok|lia]).
  replace (Z.to_nat (Z.max (Z.of_nat (voff v) + Z.of_nat i) 0)) with (voff v + i)%nat by lia.
  replace (Z.to_nat (Z.max (Z.of_nat j - Z.of_nat i) 0)) with (j - i)%nat by lia.
  exists (mkView (vbuf v) (voff v + i) (j - i)). unfold construct_view. rewrite Hf.
  rewrite (proj2 (Nat.leb_le _ _)) by lia. cbn [vbuf voff vlen]. split_and!; [done|done|lia|lia|..].
  - rewrite (as_raw_Some _ _ full) by (done || simpl; lia). cbn [voff vlen]. unfold js_slice. rewrite Hl. fold i j.
    rewrite Hraw, skipn_firstn_comm, take_take, drop_drop. do 2 f_equal. lia.
  - intros pos chunk Hp. replace (voff v + i + pos)%nat with (voff v + (i + pos))%nat by lia.
    replace (voff v + i - voff v + pos)%nat with (i + pos)%nat by lia.
    apply as_raw_store; [done|lia].
Qed.

(** * Strings *)

Lemma into_js_ok h bytes :
  let '(h', v) := into_js h bytes in
  as_raw h' v = Some bytes ∧ ∀ b, (b < length h)%nat → buffer_bytes h' b = buffer_bytes h b.
Proof.
  unfold into_js, new_array_buffer. split.
  - unfold as_raw, buffer_bytes. simpl. rewrite lookup_app_r, Nat.sub_diag by lia. simpl.
    rewrite Nat.leb_refl. by rewrite drop_0, take_ge.
  - intros b Hb. unfold buffer_bytes. by rewrite lookup_app_l.
Qed.

Section Strings.
Context `{CodecLaws} (coerce : js_value → option rstring) (detached : res exn (list Z)).

(** The whole of a live view as a string. *)
Lemma to_string_whole h v ib encoding bytes :
  as_raw h v = Some bytes →
  to_string detached h (JBytes (Typed U8 v) ib) encoding None None =
  (e ← or_throw (from_optional_str encoding); or_throw (encode_to_string e bytes true)).
Proof.
  intros Hr. unfold to_string, as_ref. cbn [uint8_array]. rewrite bind_ok, Hr, bind_ok.
  rewrite (proj2 (Nat.ltb_ge _ _)) by lia. by rewrite Nat.sub_0_r, drop_0, take_ge.
Qed.

(** A string survives a buffer: making a [Buffer] of a string under a text
    encoding succeeds, turning it back to a string gives the string, and no
    other buffer changed. *)
Theorem buffer_string_roundtrip h s label e len ib :
  Forall (λ c, is_scalar c = true) s → label ≠ [] → from_str label = Ok e → e ≠ Hex → e ≠ Base64 →
  ∃ h' v, from coerce h (JString s) (Some (OEString label)) len = (h', Ok v) ∧
    to_string detached h' (JBytes (Typed U8 v) ib) (Some label) None None = Ok s ∧
    ∀ b, (b < length h)%nat → buffer_bytes h' b = buffer_bytes h b.
Proof.
  intros Hs Hl He Hh Hb. pose proof (text_roundtrip e s true Hs Hh Hb) as Ht.
  apply bind_ok_inv in Ht as (bytes & Hd & Ht). pose proof (into_js_ok h bytes) as Hi.
  destruct (into_js h bytes) as [h' v] eqn:Hj. destruct Hi as [Hr Hkeep]. exists h', v. split; [|split; [|done]].
  - change (from coerce h (JString s) (Some (OEString label)) len) with (from_string_encoding h s (Some label)).
    unfold from_string_encoding. rewrite He. cbn [or_throw]. rewrite bind_ok, Hd. cbn [or_throw buffer_of].
    by rewrite Hj.
  - rewrite (to_string_whole _ _ _ _ _ Hr). unfold from_optional_str. rewrite decide_False, He by done.
    cbn [or_throw]. by rewrite bind_ok, Ht.
Qed.
End Strings.

(** ** Whole characters *)

Lemma char_indices_ge i s : Forall (λ j, i ≤ j)%nat (char_indices i s).
Proof.
  revert i. induction s as [|c s IH]; intros i; simpl; constructor; [done|].
  apply (Forall_impl _ _ _ (IH _)). lia.
Qed.

Lemma char_indices_last i s end_ :
  (i ≤ end_ < i + length (to_utf8 s))%nat →
  ∃ p c q, s = p ++ c :: q ∧
    last (filter (λ j, (j ≤ end_)%nat) (char_indices i s)) = Some (i + length (to_utf8 p))%nat ∧
    (i + length (to_utf8 p) ≤ end_ < i + length (to_utf8 p) + length (encode_char c))%nat.
Proof.
  revert i. induction s as [|c s IH]; intros i Hi; [simpl in Hi; lia|].
  rewrite to_utf8_cons, length_app in Hi. cbn [char_indices]. rewrite filter_cons_True by lia.
  destruct (Nat.lt_ge_cases end_ (i + length (encode_char c))) as [Hlt|Hge].
  - exists [], c, s. split; [done|]. cbn [to_utf8 length]. split; [|simpl; lia].
    replace (filter _ (char_indices (i + length (encode_char c)) s)) with (@nil nat).
    { simpl. f_equal. lia. }
    symmetry. apply nil_length_inv, Nat.le_0_r. pose proof (char_indices_ge (i + length (encode_char c)) s) as Hg.
    induction Hg as [|j l Hj _ IHl]; [done|]. by rewrite filter_cons_False by lia.
  - destruct (IH (i + length (encode_char c))%nat) as (p & c' & q & -> & Hlast & Hb); [lia|].
    exists (c :: p), c', q. split; [done|]. rewrite to_utf8_cons, length_app. split; [|lia].
    rewrite last_cons, Hlast. f_equal. lia.
Qed.

(** [safe_byte_slice] cuts after the last character that fits. *)
Lemma safe_byte_slice_ok s end_ :
  ∃ p q, s = p ++ q ∧ safe_byte_slice s end_ = (to_utf8 p, length (to_utf8 p)) ∧
    (length (to_utf8 p) ≤ end_)%nat ∧
    match q with [] => True | c :: _ => (end_ < length (to_utf8 p) + length (encode_char c))%nat end.
Proof.
  unfold safe_byte_slice. destruct (Nat.leb_spec (length (to_utf8 s)) end_) as [Hle|Hlt].
  - exists s, []. by rewrite app_nil_r.
  - destruct (char_indices_last 0 s end_) as (p & c & q & -> & Hlast & Hb); [lia|]. rewrite Hlast.
    change (default 0%nat (Some ?x)) with x. rewrite Nat.add_0_l in *. exists p, (c :: q). split_and!; try (done || lia).
    f_equal. rewrite to_utf8_app. by rewrite take_app_length.
Qed.

(** [write] with an offset and a length, on a view at the start of its
    buffer, stores at the offset the characters of the string that fit in the
    length and in the view, and no part of the one that does not fit; it
    returns the number of bytes stored and changes no other byte. *)
Theorem write_whole_characters `{CodecLib} coerce h v ib raw s o l :
  as_raw h v = Some raw → voff v = 0%nat → 0 ≤ o ≤ Z.of_nat (vlen v) → 0 ≤ l < 2 ^ 31 →
  Z.of_nat (vlen v) < 2 ^ 63 →
  let room := Z.to_nat (Z.min l (Z.of_nat (vlen v) - o)) in
  ∃ p q h', s = p ++ q ∧ (length (to_utf8 p) ≤ room)%nat ∧
    match q with [] => True | c :: _ => (room < length (to_utf8 p) + length (encode_char c))%nat end ∧
    write coerce h (JBytes (Typed U8 v) ib) (vlen v) s [JInt o; JInt l] = (h', Ok (length (to_utf8 p))) ∧
    h' = store h (vbuf v) (Z.to_nat o) (to_utf8 p) ∧
    as_raw h' v = Some (splice (Z.to_nat o) (to_utf8 p) raw).
Proof.
  intros Hr Hoff Ho Hl Hlen room. destruct (as_raw_inv _ _ _ Hr) as (full & Hf & Hfit & Hraw).
  set (end_ := Z.to_nat (Z.min (Z.min l (Z.of_nat (vlen v) - o)) (Z.of_nat (length (to_utf8 s))))).
  destruct (safe_byte_slice_ok s end_) as (p & q & Hs & Hslice & Hp & Hq).
  exists p, q, (store h (vbuf v) (Z.to_nat o) (to_utf8 p)).
  split; [done|]. split; [lia|]. split.
  { destruct q as [|c q]; [done|]. subst s. unfold end_ in *. rewrite to_utf8_app, to_utf8_cons, !length_app in *. lia. }
  assert (Hu : ∀ z, 0 ≤ z < 2 ^ 64 → usize z = z) by (intros; by apply Z.mod_small).
  split; [|split; [done|]].
  - unfold write. cbn [get_write_parameters as_int]. change (default 0 (Some o)) with o.
    rewrite (Hu o), (Hu l), (Hu (Z.of_nat (vlen v) - o)) by lia.
    change (object_bytes_from coerce (JBytes (Typed U8 v) ib)) with (Ok (E := exn) (Typed U8 v)). rewrite bind_ok.
    cbn [get_array_buffer]. unfold typed_array_view_bounds. rewrite Hr. cbn [or_detached or_err]. rewrite !bind_ok.
    rewrite Hf. cbn [or_detached or_err]. rewrite bind_ok.
    change (from_str (bs "utf8")) with (Ok (E := rstring) Utf8). cbn [or_throw]. rewrite bind_ok.
    rewrite decide_True by done. fold end_. rewrite Hslice. unfold copy_at. rewrite Hu by lia.
    rewrite (proj2 (Z.ltb_ge _ _)), (proj2 (Z.ltb_ge _ _)) by lia. done.
  - replace (Z.to_nat o) with (voff v + Z.to_nat o)%nat at 1 by lia. apply as_raw_store; [done|lia].
Qed.

(** * Concatenation and filling *)

Lemma concat_loop_ok detached h vs raws max total bytes :
  Forall2 (λ v raw, ∃ w ib, v = JBytes (Typed U8 w) ib ∧ as_raw h w = Some raw) vs raws →
  match max with Some m => (total ≤ m)%nat | None => True end →
  concat_loop detached h vs max total bytes =
  Ok (bytes ++ match max with Some m => take (m - total) (mjoin raws) | None => mjoin raws end).
Proof.
  intros Hvs. revert total bytes. induction Hvs as [|v raw vs raws (w & ib & -> & Hr) Hvs IH]; intros total bytes Hm.
  { simpl. by destruct max; rewrite ?take_nil, app_nil_r. }
  cbn [concat_loop uint8_array]. rewrite bind_ok. unfold as_ref. rewrite Hr, bind_ok.
  change (mjoin (raw :: raws)) with (raw ++ mjoin raws).
  destruct (Nat.eqb_spec (length raw) 0) as [E|E].
  { apply nil_length_inv in E as ->. by rewrite IH. }
  destruct max as [m|].
  - destruct (Nat.ltb_spec m (total + length raw)) as [Hlt|Hge].
    + rewrite !(proj2 (Nat.ltb_ge _ _)) by lia. do 2 f_equal.
      rewrite take_app_le by lia. f_equal. lia.
    + rewrite IH by lia. rewrite <- app_assoc, take_app_ge by lia. do 4 f_equal. lia.
  - rewrite IH by done. by rewrite <- app_assoc.
Qed.

(** [concat] of live arrays makes a new buffer of their bytes in order, cut at
    the limit; its subtractions stay above zero. *)
Lemma concat_ok detached h vs raws max :
  Forall2 (λ v raw, ∃ w ib, v = JBytes (Typed U8 w) ib ∧ as_raw h w = Some raw) vs raws →
  ∃ h' v, concat detached h vs max = (h', Ok v) ∧
    as_raw h' v = Some (match max with Some m => take m (mjoin raws) | None => mjoin raws end).
Proof.
  intros Hvs. unfold concat. rewrite (concat_loop_ok _ _ _ _ _ _ _ Hvs) by (destruct max; [lia|done]). cbn [app].
  set (bytes := match max with Some m => take (m - 0) (mjoin raws) | None => mjoin raws end).
  pose proof (into_js_ok h bytes) as Hi. destruct (into_js h bytes) as [h' v]. exists h', v. split; [done|].
  destruct Hi as [-> _]. unfold bytes. by destruct max; rewrite ?Nat.sub_0_r.
Qed.

(** A filled buffer repeats the bytes of a fill that has some. *)
Lemma alloc_byte_ref_ok h fill len :
  fill ≠ [] →
  ∃ h' v raw, alloc_byte_ref h fill len = (h', Ok v) ∧ as_raw h' v = Some raw ∧ length raw = len ∧
    ∀ i, (i < len)%nat → raw !! i = fill !! (i mod length fill)%nat.
Proof.
  intros Hf. assert (length fill ≠ 0%nat) as Hz by (by intros ?%nil_length_inv).
  unfold alloc_byte_ref. rewrite (proj2 (Nat.eqb_neq _ _) Hz), andb_false_r.
  set (bytes := _ <$> seq 0 len). pose proof (into_js_ok h bytes) as Hi. destruct (into_js h bytes) as [h' v].
  destruct Hi as [Hr _]. exists h', v, bytes. split_and!; [done|done|unfold bytes; by rewrite length_fmap, length_seq|].
  intros i Hi. unfold bytes. rewrite list_lookup_fmap, lookup_seq_lt by done. simpl.
  destruct (lookup_lt_is_Some_2 fill (i mod length fill)) as [b ->]; [by apply Nat.mod_upper_bound|done].
Qed.
