(* ===== verification/NodeBufferRef.v ===== *)
(** Runs of Node's [Buffer] with the reference codecs: applications of the
    theorems of [NodeBufferProofs], and inputs on which the code departs from
    its documentation. *)

From Stdlib Require Import SpecFloat.
From S2P Require Import Prelude Unicode Encoding CodecRef Numbers ObjectBytes NodeBuffer NodeBufferProofs.

Definition no_coerce (v : js_value) : option rstring := None.
Definition ref_to_i64 (z : Z) : res exn Z := Ok (wrap_i64 z).
Definition detached_panics : res exn (list Z) := Panic.

(** Ten bytes, and the view of four of them. *)
Definition ten : heap := [Some (replicate 10 0)].
Definition whole : view := mkView 0 0 10.
Definition inner : view := mkView 0 3 4.
Definition as_buffer (v : view) : js_value := JBytes (Typed U8 v) true.

Lemma ref_to_i64_range z n : ref_to_i64 z = Ok n → i64_ok n.
Proof.
  intros [= <-]. unfold wrap_i64, i64_ok.
  pose proof (Z.mod_pos_bound (z + 9223372036854775808) 18446744073709551616 ltac:(lia)). lia.
Qed.

(** [buf.writeInt16BE(-2, 1)] on the inner view. *)
Lemma write_read_number_witness :
  (write_buf no_coerce ref_to_i64 ten (as_buffer inner) (JInt (-2)) (Some 1%nat) Big Int16).2 = Ok 3%nat ∧
  read_buf no_coerce (write_buf no_coerce ref_to_i64 ten (as_buffer inner) (JInt (-2)) (Some 1%nat) Big Int16).1
    (as_buffer inner) (Some 1%nat) Big Int16 = Ok (JInt (-2)).
Proof.
  destruct (write_read_number no_coerce ref_to_i64 ten (Typed U8 inner) inner true (JInt (-2)) (Some 1%nat) Big Int16
    (write_buf no_coerce ref_to_i64 ten (as_buffer inner) (JInt (-2)) (Some 1%nat) Big Int16).1 3
    ref_to_i64_range) as (bytes & raw & _ & _ & _ & _ & _ & _ & Hr); [by vm_compute..|].
  split; [by vm_compute|]. unfold as_buffer at 2. rewrite Hr. by vm_compute.
Defined.

(** Bytes 0 to 9, bytes 5 to 8 of them moved to 3 by an index that is an object. *)
Definition digits : heap := [Some (seqZ 0 10)].
Definition five : option index_arg := Some (ICoerced (λ h, (h, Ok (f_of_Z 5)))).

Lemma copy_moves_witness :
  ∃ h3 ts ss se, copy digits (as_buffer whole) (as_buffer inner) None five None =
      ([Some [0; 1; 2; 5; 6; 7; 8; 7; 8; 9]], Ok 4%nat) ∧
    ([Some [0; 1; 2; 5; 6; 7; 8; 7; 8; 9]], 4%nat) = moved h3 whole inner (Z.to_nat ts) (Z.to_nat ss) (Z.to_nat se).
Proof.
  destruct (copy_moves digits whole inner true true None five None
    [Some [0; 1; 2; 5; 6; 7; 8; 7; 8; 9]] 4) as (h1 & h2 & h3 & ts & ss & se & _ & _ & _ & _ & _ & _ & Hm & _);
    [by vm_compute|].
  exists h3, ts, ss, se. split; [by vm_compute|exact Hm].
Defined.

(** [buf.subarray(-3, -1)]. *)
Lemma subarray_slice_witness :
  ∃ w, subarray digits (as_buffer inner) (Some (-3)) (Some (-1)) = Ok w ∧ as_raw digits w = Some [4; 5].
Proof.
  destruct (subarray_slice digits inner true (Some (-3)) (Some (-1)) [3; 4; 5; 6]) as (w & Hw & _ & _ & _ & Hr & _);
    [by vm_compute|].
  exists w. split; [exact Hw|]. by rewrite Hr.
Defined.

Lemma buffer_string_roundtrip_witness :
  ∃ h v, from no_coerce ten (JString [8364; 65]) (Some (OEString (bs "utf16le"))) None = (h, Ok v) ∧
    to_string detached_panics h (as_buffer v) (Some (bs "utf16le")) None None = Ok [8364; 65].
Proof.
  destruct (buffer_string_roundtrip no_coerce detached_panics ten [8364; 65] (bs "utf16le") Utf16le None true)
    as (h & v & Hf & Ht & _); [by repeat constructor|done|by vm_compute|done|done|].
  by exists h, v.
Defined.

(** [buf.write('a€', 8, 3)] on ten bytes: the second character does not fit. *)
Lemma write_whole_characters_witness :
  ∃ p q h, [97; 8364] = p ++ q ∧
    write no_coerce ten (as_buffer whole) 10 [97; 8364] [JInt 8; JInt 3] = (h, Ok (length (to_utf8 p))).
Proof.
  destruct (write_whole_characters no_coerce ten whole true (replicate 10 0) [97; 8364] 8 3)
    as (p & q & h & Hs & _ & _ & Hw & _); [by vm_compute|done|simpl; lia|lia|simpl; lia|].
  by exists p, q, h.
Defined.

(** The documented [Buffer.alloc(10).write('abcd', 8)], which should write two
    bytes, slices past the end: without a length argument the room is not
    reduced by the offset. *)
Example write_at_offset_panics :
  write no_coerce ten (as_buffer whole) 10 (bs "abcd") [JInt 8] = (ten, Panic).
Proof. by vm_compute. Qed.

(** [write] ignores the offset of the view: it writes at the start of the
    buffer, outside the view. *)
Example write_outside_view :
  write no_coerce digits (as_buffer inner) 4 (bs "xy") [] =
  ([Some [120; 121; 2; 3; 4; 5; 6; 7; 8; 9]], Ok 2%nat) ∧
  as_raw digits inner = as_raw [Some [120; 121; 2; 3; 4; 5; 6; 7; 8; 9]] inner.
Proof. by vm_compute. Qed.

(** An offset past the end wraps the room, and the write lands beyond the
    view. *)
Example write_past_view :
  write no_coerce digits (as_buffer inner) 4 (bs "xy") [JInt 8; JString (bs "utf8")] =
  ([Some [0; 1; 2; 3; 4; 5; 6; 7; 120; 121]], Ok 2%nat).
Proof. by vm_compute. Qed.

(** An empty fill divides by zero. *)
Example alloc_empty_fill_panics : alloc [] 5 (Some (JString [])) None = ([], Panic).
Proof. by vm_compute. Qed.

(** [buf.toString('utf8', 3, 1)] slices backwards. *)
Example to_string_reversed_panics :
  to_string detached_panics ten (as_buffer whole) (Some (bs "utf8")) (Some 3) (Some 1) = Panic.
Proof. by vm_compute. Qed.

(** The length of a buffer under an encoding is that of its bytes decoded. *)
Example byte_length_decodes :
  byte_length no_coerce [Some (bs "abcd")] (as_buffer (mkView 0 0 4)) (Some (bs "hex")) = Ok 2%nat ∧
  byte_length no_coerce [Some (bs "abcd")] (as_buffer (mkView 0 0 4)) None = Ok 4%nat.
Proof. by vm_compute. Qed.

(** The documented unsigned 64-bit methods only throw. *)
Example big_uint_unsupported :
  read_buf no_coerce ten (as_buffer whole) None Big BigUInt = Err (TypeError (bs "Uint64 is not supported")) ∧
  write_buf no_coerce ref_to_i64 ten (as_buffer whole) (JBigInt 1) None Big BigUInt =
  (ten, Err (TypeError (bs "Uint64 is not supported"))).
Proof. by vm_compute. Qed.
