(* ===== verification/Path.v ===== *)
(** The path module ([modules/raster_runtime_path/src/lib.rs]) as it is built
    for POSIX systems: [MAIN_SEPARATOR] is the slash, the [cfg(windows)]
    branches are compiled out, and [force_posix_sep] makes no difference.

    Paths are the bytes of their UTF-8 text; all positions the code computes
    are next to ASCII characters.  The working directory is an argument. *)

From S2P Require Import Prelude.

Notation path := (list Z) (only parsing).

(** * Text *)

Definition MAIN_SEPARATOR : Z := 47.
Definition is_main_sep (c : Z) : bool := c =? MAIN_SEPARATOR.
Definition DELIMITER : Z := 58.

Definition replace_backslash (p : path) : path := (λ c, if c =? 92 then 47 else c) <$> p.

Definition find_next_separator (s : path) : option nat := find_pos is_main_sep s.
Definition find_last_sep (s : path) : option nat := rfind_pos is_main_sep s.

Definition starts_with_sep (p : path) : bool :=
  match p with c :: _ => (c =? 47) || (c =? 92) | [] => false end.
Definition ends_with_sep (p : path) : bool :=
  match last p with Some c => is_main_sep c | None => false end.
Definition is_absolute (p : path) : bool :=
  match p with c :: _ => is_main_sep c | [] => false end.
Definition is_absolute_posix (p : path) : bool :=
  match p with c :: _ => c =? 47 | [] => false end.

Definition is_ascii_alphabetic (c : Z) : bool :=
  ((65 <=? c) && (c <=? 90)) || ((97 <=? c) && (c <=? 122)).
Definition is_absolute_win32 (p : path) : bool :=
  if starts_with_sep p then true
  else
    match p with
    | c0 :: c1 :: rest =>
        is_ascii_alphabetic c0 && (c1 =? 58) &&
        match rest with [] => true | c2 :: _ => (c2 =? 92) || (c2 =? 47) end
    | _ => false
    end.

(** * Directory, name and extension *)

(** [for i in (offset..bytes.len()).rev()]; [i] counts down from [len]. *)
Fixpoint dirname_scan (bytes : path) (offset i : nat) (matched_slash : bool) : option nat :=
  match i with
  | O => None
  | S i =>
      if (i <? offset)%nat then None
      else
        match bytes !! i with
        | Some 47 => if matched_slash then dirname_scan bytes offset i matched_slash else Some i
        | _ => dirname_scan bytes offset i false
        end
  end.
Definition find_dirname_end (bytes : path) (offset : nat) : option nat :=
  dirname_scan bytes offset (length bytes) true.

Definition dirname (p : path) : path :=
  match p with
  | [] => bs "."
  | [c] => if c =? 47 then p else bs "."
  | c :: _ =>
      let has_root := c =? 47 in
      match find_dirname_end p 1 with
      | Some e => if has_root && (e =? 1)%nat then bs "//" else take e p
      | None => if has_root then bs "/" else bs "."
      end
  end.

Definition strip_last_sep (p : path) : path :=
  if ends_with_sep p then take (length p - 1) p else p.

Definition name_extname (p : path) : path * path :=
  let p := strip_last_sep p in
  let p := match find_last_sep p with Some idx => drop (S idx) p | None => p end in
  match p with
  | 46 :: _ => (p, [])
  | _ => match rfind_pos (λ c, c =? 46) p with
         | Some idx => (take idx p, drop idx p)
         | None => (p, [])
         end
  end.

(** [str::rfind] of a string: the last position at which it occurs. *)
Definition occurs_at (needle s : path) (i : nat) : bool :=
  bool_decide (take (length needle) (drop i s) = needle).
Fixpoint rfind_str (needle s : path) (i : nat) : option nat :=
  if occurs_at needle s i then Some i
  else match i with O => None | S i => rfind_str needle s i end.

Definition basename (p : path) (suffix : option path) : path :=
  if bool_decide (p = [] ∨ p = [MAIN_SEPARATOR]) then []
  else
    let '(base, ext) := name_extname p in
    let name := base ++ ext in
    match suffix with
    | Some suffix =>
        match rfind_str suffix name (length name) with
        | Some location => take location name
        | None => name
        end
    | None => name
    end.

Definition extname (p : path) : path := (name_extname p).2.

(** * Format and parse *)

(** The five fields; one that is missing or not a string is empty. *)
Record parsed := mkParsed { root : path; dir : path; base : path; ext : path; name : path }.

Definition push_dir (d : path) : path := if ends_with_sep d then d else d ++ [MAIN_SEPARATOR].

Definition format (o : parsed) : path :=
  (if bool_decide (dir o ≠ []) then push_dir (dir o)
   else if bool_decide (root o ≠ []) then push_dir (root o) else []) ++
  (if bool_decide (base o ≠ []) then base o
   else name o ++
        (if bool_decide (ext o ≠ []) then
           (match ext o with 46 :: _ => [] | _ => [46] end) ++ ext o
         else [])).

(** [std::path::Components]: the components of a path, each with the position
    where it ends.  Empty components and inner dots are skipped. *)
Inductive component := RootDir | CurDir | ParentDir | Normal (s : path).

Fixpoint split_on_sep (l : path) : list path :=
  match l with
  | [] => [[]]
  | c :: l =>
      if is_main_sep c then [] :: split_on_sep l
      else match split_on_sep l with
           | s :: r => (c :: s) :: r
           | [] => [[c]]
           end
  end.

Fixpoint body_components (at_start : bool) (pos : nat) (segs : list path) : list (component * nat) :=
  match segs with
  | [] => []
  | s :: segs =>
      let fin := (pos + length s)%nat in
      let rest := body_components false (S fin) segs in
      if bool_decide (s = []) then rest
      else if bool_decide (s = bs ".") then if at_start then (CurDir, fin) :: rest else rest
      else if bool_decide (s = bs "..") then (ParentDir, fin) :: rest
      else (Normal s, fin) :: rest
  end.

Definition components (p : path) : list (component * nat) :=
  if is_absolute p then (RootDir, 1%nat) :: body_components false 1 (split_on_sep (drop 1 p))
  else body_components true 0 (split_on_sep p).

(** [Path::parent] and [Path::file_name] *)
Definition parent (p : path) : option path :=
  match last (components p) with
  | Some (RootDir, _) | None => None
  | Some _ =>
      match last (take (length (components p) - 1) (components p)) with
      | Some (_, fin) => Some (take fin p)
      | None => Some []
      end
  end.
Definition file_name (p : path) : option path :=
  match last (components p) with Some (Normal s, _) => Some s | _ => None end.

Definition parse (p : path) : parsed :=
  let '(name, extension) := name_extname (default [] (file_name p)) in
  let root := match head (components p) with Some (RootDir, _) => [MAIN_SEPARATOR] | _ => [] end in
  mkParsed root (default [] (parent p)) (name ++ extension) extension name.

(** * Join and resolve *)

(** The local variables of [join_resolve_path]; the top of [index_stack] is
    its head. *)
Record joiner := mkJoiner { result : path; index_stack : list nat; empty : bool }.

Definition join_segment (j : joiner) (seg : path) : joiner :=
  if bool_decide (seg = bs "..") then
    match index_stack j with
    | last_index :: stack => mkJoiner (take last_index (result j)) stack (empty j)
    | [] =>
        if empty j then
          match find_last_sep (result j) with
          | Some last_index => mkJoiner (take last_index (result j)) [] (empty j)
          | None => j
          end
        else j
    end
  else if bool_decide (seg = [] ∨ seg = bs ".") then j
  else
    let len := length (result j) in
    let r := if negb (ends_with_sep (result j)) && bool_decide (result j ≠ [])
             then result j ++ [MAIN_SEPARATOR] else result j in
    mkJoiner (r ++ seg ++ [MAIN_SEPARATOR]) (len :: index_stack j) (empty j).

(** [while start < part.len()]; every turn advances [start]. *)
Fixpoint segment_loop (fuel : nat) (part : path) (start : nat) (j : joiner) : joiner :=
  match fuel with
  | O => j
  | S fuel =>
      if (start <? length part)%nat then
        let fin := match find_next_separator (drop start part) with
                   | Some i => (i + start)%nat
                   | None => length part
                   end in
        segment_loop fuel part (S fin) (join_segment j (take (fin - start) (drop start part)))
      else j
  end.

Definition join_part (resolve : bool) (j : joiner) (part : path) : joiner :=
  let '(j, start) :=
    if resolve then
      if is_absolute part then (mkJoiner [MAIN_SEPARATOR] (index_stack j) false, 1%nat) else (j, 0%nat)
    else if starts_with_sep part && empty j
    then (mkJoiner (result j ++ [MAIN_SEPARATOR]) (index_stack j) false, 1%nat)
    else (j, 0%nat) in
  segment_loop (S (length part)) part start j.

Definition trim_last_sep (p : path) : path :=
  if ends_with_sep p && (1 <? length p)%nat then take (length p - 1) p else p.

Definition join_resolve_path (parts : list path) (resolve : bool) (result0 : path) : path :=
  let j := mkJoiner (trim_last_sep result0) [] true in
  trim_last_sep (result (foldl (join_part resolve) j parts)).

Definition join_path (parts : list path) : path := join_resolve_path parts false [].
Definition normalize (p : path) : path := join_path [p].

(** [cwd] is what [current_dir] gives: a path, or an error. *)
Definition resolve_path (cwd : res () path) (parts : list path) : res () path :=
  cwd ← cwd;
  let result := if ends_with_sep cwd then cwd else cwd ++ [MAIN_SEPARATOR] in
  Ok (join_resolve_path parts true result).

(** On a POSIX host the [win32] functions replace the slashes of the result. *)
Definition to_backslash (p : path) : path := (λ c, if c =? 47 then 92 else c) <$> p.
Definition join_win32 (parts : list path) : path := to_backslash (join_path parts).
Definition resolve_win32 (cwd : res () path) (parts : list path) : res () path :=
  to_backslash <$> resolve_path cwd parts.

(** * Relative paths *)

Definition next_end (s : path) (i : nat) : nat :=
  (default (length s - i) (find_next_separator (drop i s)) + i)%nat.

Definition slice_to (s : path) (i j : nat) : path := take (j - i) (drop i s).

(** Skip the common prefix. *)
Fixpoint skip_common (fuel : nat) (from to : path) (i j : nat) : nat * nat :=
  match fuel with
  | O => (i, j)
  | S fuel =>
      if (i <? length from)%nat && (j <? length to)%nat then
        let i' := next_end from i in
        let j' := next_end to j in
        if bool_decide (slice_to from i i' = slice_to to j j')
        then skip_common fuel from to (S i') (S j')
        else (i, j)
      else (i, j)
  end.

Definition push_sep (r : path) : path :=
  if bool_decide (r ≠ []) then r ++ [MAIN_SEPARATOR] else r.

(** One [..] for each component left in [from]. *)
Fixpoint climb (fuel : nat) (from : path) (i : nat) (relative : path) : path :=
  match fuel with
  | O => relative
  | S fuel =>
      if (i <? length from)%nat
      then climb fuel from (S (next_end from i)) (push_sep relative ++ bs "..")
      else relative
  end.

(** The components left in [to]. *)
Fixpoint descend (fuel : nat) (to : path) (j : nat) (relative : path) : path :=
  match fuel with
  | O => relative
  | S fuel =>
      if (j <? length to)%nat then
        let j' := next_end to j in
        let component := slice_to to j j' in
        descend fuel to (S j')
          (push_sep relative ++ if bool_decide (component = bs ".") then [] else component)
      else relative
  end.

Definition absolute_from (cwd : res () path) (p : path) : res () path :=
  if is_absolute p then Ok p else cwd ← cwd; Ok (cwd ++ [MAIN_SEPARATOR] ++ p).

Definition relative (cwd : res () path) (from to : path) : res () path :=
  if bool_decide (from = to) then Ok []
  else
    from ← absolute_from cwd from;
    to ← absolute_from cwd to;
    let '(i, j) := skip_common (S (length from)) from to 0 0 in
    let r := descend (S (length to)) to j (climb (S (length from)) from i []) in
    Ok (if bool_decide (r = []) then bs "." else r).

(** * Specification *)

(** What the standard says [resolve] computes: a stack of components, top
    first. *)
Definition norm_step (st : list path) (c : path) : list path :=
  if bool_decide (c = bs "..") then tail st
  else if bool_decide (c = [] ∨ c = bs ".") then st
  else c :: st.

Definition norm_part (st : list path) (part : path) : list path :=
  foldl norm_step (if is_absolute part then [] else st) (split_on_sep part).

(** [join] only concatenates: an absolute part does not start over. *)
Definition join_norm (st : list path) (part : path) : list path :=
  foldl norm_step st (split_on_sep part).

(** Whether [..] ever goes above the first component of a relative path. *)
Definition depth_step (n : option nat) (c : path) : option nat :=
  n ← n;
  if bool_decide (c = bs "..") then match n with S n => Some n | O => None end
  else if bool_decide (c = [] ∨ c = bs ".") then Some n
  else Some (S n).
Definition stays_inside (parts : list path) : bool :=
  match foldl (λ n part, foldl depth_step n (split_on_sep part)) (Some 0%nat) parts with
  | Some _ => true
  | None => false
  end.

(** The text of components, and the absolute path of a stack. *)
Fixpoint join_with (cs : list path) : path :=
  match cs with
  | [] => []
  | [c] => c
  | c :: cs => c ++ [MAIN_SEPARATOR] ++ join_with cs
  end.
Definition render (st : list path) : path := MAIN_SEPARATOR :: join_with (reverse st).

(** A proper component. *)
Definition comp_ok (c : path) : bool :=
  forallb (λ b, negb (is_main_sep b)) c && negb (bool_decide (c = [] ∨ c = bs "." ∨ c = bs "..")).

(** Whether [..] ever climbs from the working directory to the root: [below]
    components of the working directory and [pushed] new ones. *)
Record level := mkLevel { rooted : bool; below : nat; pushed : nat }.

Definition climb_step (l : option level) (c : path) : option level :=
  l ← l;
  if bool_decide (c = bs "..") then
    match pushed l with
    | S n => Some (mkLevel (rooted l) (below l) n)
    | O =>
        if rooted l then Some l
        else if (below l <=? 1)%nat then None
        else Some (mkLevel false (below l - 1) 0)
    end
  else if bool_decide (c = [] ∨ c = bs ".") then Some l
  else Some (mkLevel (rooted l) (below l) (S (pushed l))).

Definition climb_part (l : option level) (part : path) : option level :=
  foldl climb_step (if is_absolute part then (λ _, mkLevel true 0 0) <$> l else l) (split_on_sep part).

Definition stays_below_root (cwd : list path) (parts : list path) : bool :=
  match foldl climb_part (Some (mkLevel false (length cwd) 0)) parts with
  | Some _ => true
  | None => false
  end.

(** * Splitting *)

Notation no_sep := (Forall (λ b, is_main_sep b = false)).

Lemma split_no_sep c : no_sep c → split_on_sep c = [c].
Proof.
  induction 1 as [|b c Hb Hc IH]; [done|]. cbn [split_on_sep]. by rewrite Hb, IH.
Qed.

Lemma split_app c l : no_sep c → split_on_sep (c ++ MAIN_SEPARATOR :: l) = c :: split_on_sep l.
Proof.
  induction 1 as [|b c Hb Hc IH]; [done|]. cbn [split_on_sep app]. by rewrite Hb, IH.
Qed.

Lemma split_segments l : Forall no_sep (split_on_sep l).
Proof.
  induction l as [|c l IH]; cbn [split_on_sep]; [by repeat constructor|].
  destruct (is_main_sep c) eqn:Hc; [by constructor|].
  destruct (split_on_sep l) as [|s r]; [by repeat constructor|].
  inversion IH; subst. constructor; [by constructor|done].
Qed.

Lemma find_sep_split l :
  split_on_sep l = match find_next_separator l with
                   | Some i => take i l :: split_on_sep (drop (S i) l)
                   | None => [l]
                   end.
Proof.
  destruct (find_next_separator l) as [i|] eqn:Hf.
  - apply find_pos_Some in Hf as (x & Hx & Hs & Hp).
    rewrite <- (take_drop i l) at 1. rewrite (drop_S _ _ _ Hx).
    apply Z.eqb_eq in Hs as ->. by apply split_app.
  - apply split_no_sep. by apply find_pos_None in Hf.
Qed.

Lemma find_sep_bound l i : find_next_separator l = Some i → (i < length l)%nat.
Proof. intros (x & Hx & _)%find_pos_Some. by eapply lookup_lt_Some. Qed.

Lemma join_segment_nil j : join_segment j [] = j.
Proof. done. Qed.

(** The loop over a part is a fold over its segments. *)
Lemma segment_loop_fold fuel part start j :
  (length part < fuel + start)%nat → (start ≤ length part)%nat →
  segment_loop fuel part start j = foldl join_segment j (split_on_sep (drop start part)).
Proof.
  revert start j. induction fuel as [|fuel IH]; intros start j Hf Hs.
  { rewrite drop_ge by lia. done. }
  cbn [segment_loop]. destruct (Nat.ltb_spec start (length part)) as [Hlt|Hge].
  2:{ rewrite drop_ge by lia. done. }
  rewrite (find_sep_split (drop start part)).
  destruct (find_next_separator (drop start part)) as [i|] eqn:Hi.
  - pose proof (find_sep_bound _ _ Hi) as Hb. rewrite length_drop in Hb.
    rewrite IH by lia. replace (i + start - start)%nat with i by lia. cbn [foldl].
    by rewrite drop_drop, (Nat.add_comm start (S i)).
  - rewrite take_ge by (rewrite length_drop; lia). cbn [foldl].
    destruct fuel as [|fuel]; [done|]. cbn [segment_loop].
    by rewrite (proj2 (Nat.ltb_ge _ _)) by lia.
Qed.

(** * The invariant of [resolve] *)

(** The text after pushing the components [P] on the base [B], both top
    first, and the lengths remembered on the way. *)
Fixpoint text_of (P B : list path) : path :=
  match P with
  | [] => render B
  | c :: P =>
      (if ends_with_sep (text_of P B) then text_of P B else text_of P B ++ [MAIN_SEPARATOR]) ++
      c ++ [MAIN_SEPARATOR]
  end.

Fixpoint marks (P B : list path) : list nat :=
  match P with
  | [] => []
  | _ :: P => length (text_of P B) :: marks P B
  end.

Lemma join_with_snoc l c :
  l ≠ [] → join_with (l ++ [c]) = join_with l ++ [MAIN_SEPARATOR] ++ c.
Proof.
  induction l as [|d [|d' l] IH]; intros Hl; [done|done|].
  change (join_with ((d :: d' :: l) ++ [c])) with (d ++ [MAIN_SEPARATOR] ++ join_with ((d' :: l) ++ [c])).
  change (join_with (d :: d' :: l)) with (d ++ [MAIN_SEPARATOR] ++ join_with (d' :: l)).
  rewrite IH by done. by rewrite <- !(assoc_L (++)).
Qed.

(** The base text grows by a separator, except after the root. *)
Lemma render_cons c B :
  render (c :: B) = (if bool_decide (B = []) then [] else render B) ++ MAIN_SEPARATOR :: c.
Proof.
  unfold render. rewrite reverse_cons. case_bool_decide as HB; [by subst|].
  rewrite join_with_snoc; [done|]. intros Hr. apply HB. by rewrite <- (reverse_involutive B), Hr.
Qed.

Lemma comp_ok_spec c :
  comp_ok c = true → no_sep c ∧ c ≠ [] ∧ c ≠ bs "." ∧ c ≠ bs "..".
Proof.
  unfold comp_ok. intros [Hs Hn]%andb_prop. apply negb_true_iff, bool_decide_eq_false in Hn.
  split; [|naive_solver]. apply Forall_forall. intros b Hb. rewrite forallb_forall in Hs.
  apply negb_true_iff, Hs. by apply list_elem_of_In.
Qed.

Notation comps_ok := (Forall (λ c, comp_ok c = true)).

Lemma ends_with_sep_app l c : no_sep c → c ≠ [] → ends_with_sep (l ++ c) = false.
Proof.
  intros Hc Hne. unfold ends_with_sep. rewrite last_app.
  destruct (last c) as [b|] eqn:Hl; [|by apply last_None in Hl].
  rewrite Forall_forall in Hc. apply Hc. by eapply last_Some_elem_of.
Qed.

Lemma ends_with_sep_snoc l : ends_with_sep (l ++ [MAIN_SEPARATOR]) = true.
Proof. unfold ends_with_sep. by rewrite last_snoc. Qed.

Lemma render_ends B : comps_ok B → ends_with_sep (render B) = bool_decide (B = []).
Proof.
  destruct B as [|c B]; intros HB; [done|]. inversion HB as [|? ? Hc _]; subst.
  apply comp_ok_spec in Hc as (Hs & Hne & _). rewrite render_cons.
  replace (MAIN_SEPARATOR :: c) with ([MAIN_SEPARATOR] ++ c) by done.
  rewrite (assoc_L (++)). by apply ends_with_sep_app.
Qed.

Definition with_sep (t : path) : path := if ends_with_sep t then t else t ++ [MAIN_SEPARATOR].

Lemma text_with_sep P B :
  comps_ok (P ++ B) →
  with_sep (text_of P B) =
  (if bool_decide (P ++ B = []) then [] else render (P ++ B)) ++ [MAIN_SEPARATOR].
Proof.
  unfold with_sep. induction P as [|c P IH]; intros Hok; cbn [app text_of] in *.
  - rewrite render_ends by done. by case_bool_decide; subst.
  - rewrite (assoc_L (++)), ends_with_sep_snoc. inversion Hok as [|? ? _ Hok']; subst.
    rewrite IH, (bool_decide_eq_false_2 (c :: P ++ B = [])), render_cons by done.
    by rewrite <- !(assoc_L (++)).
Qed.

Lemma text_of_cons c P B :
  comps_ok (c :: P ++ B) → text_of (c :: P) B = render (c :: P ++ B) ++ [MAIN_SEPARATOR].
Proof.
  intros Hok. pose proof (text_with_sep (c :: P) B Hok) as Ht. unfold with_sep in Ht.
  rewrite bool_decide_eq_false_2 in Ht by done. cbn [text_of] in *.
  rewrite (assoc_L (++)) in Ht |- *. by rewrite ends_with_sep_snoc in Ht.
Qed.

Lemma trim_snoc t : t ≠ [] → trim_last_sep (t ++ [MAIN_SEPARATOR]) = t.
Proof.
  intros Ht. unfold trim_last_sep. rewrite ends_with_sep_snoc, length_app. cbn [length andb].
  rewrite (proj2 (Nat.ltb_lt _ _)) by (destruct t; simpl; [done|lia]).
  by rewrite Nat.add_sub, take_app_length.
Qed.

Lemma trim_text P B : comps_ok (P ++ B) → trim_last_sep (text_of P B) = render (P ++ B).
Proof.
  intros Hok. destruct P as [|c P]; cbn [app] in *.
  - cbn [text_of]. unfold trim_last_sep. rewrite render_ends by done. by case_bool_decide; subst.
  - rewrite text_of_cons by done. by apply trim_snoc.
Qed.

Lemma text_of_prefix c P B : ∃ r, text_of (c :: P) B = text_of P B ++ r.
Proof.
  cbn [text_of]. destruct (ends_with_sep _); eexists; [done|]. by rewrite <- (assoc_L (++)).
Qed.

Lemma text_of_length P B : (1 ≤ length (text_of P B))%nat.
Proof.
  induction P as [|c P IH]; [simpl; lia|]. destruct (text_of_prefix c P B) as [r ->].
  rewrite length_app. lia.
Qed.

Lemma marks_positive P B : Forall (λ n, (1 ≤ n)%nat) (marks P B).
Proof. induction P; constructor; [apply text_of_length|done]. Qed.

Definition inv (l : level) (st : list path) (j : joiner) : Prop :=
  ∃ P B stale, st = P ++ B ∧ comps_ok st ∧ length P = pushed l ∧ length B = below l ∧
    result j = text_of P B ∧ index_stack j = marks P B ++ stale ∧ empty j = negb (rooted l) ∧
    if rooted l then B = [] ∧ Forall (λ n, (1 ≤ n)%nat) stale else stale = [].

Lemma last_sep_app l c : no_sep c → find_last_sep (l ++ MAIN_SEPARATOR :: c) = Some (length l).
Proof.
  intros Hc. unfold find_last_sep. assert (Hn : rfind_pos is_main_sep c = None) by (by apply rfind_pos_None).
  induction l as [|b l IH]; cbn [app rfind_pos length]; [by rewrite Hn|]. by rewrite IH.
Qed.

(** Removing the last component of the base. *)
Lemma last_sep_render c B :
  comps_ok (c :: B) → B ≠ [] → find_last_sep (render (c :: B)) = Some (length (render B)).
Proof.
  intros Hok HB. rewrite render_cons, bool_decide_eq_false_2 by done.
  inversion Hok as [|? ? Hc _]; subst. apply comp_ok_spec in Hc as (Hs & _).
  by apply last_sep_app.
Qed.

Lemma inv_pop l l' st j :
  inv l st j → climb_step (Some l) (bs "..") = Some l' → inv l' (tail st) (join_segment j (bs "..")).
Proof.
  intros (P & B & stale & -> & Hok & HP & HB & Hr & Hi & He & Hst) Hc.
  unfold climb_step in Hc. cbn [mbind option_bind] in Hc. rewrite bool_decide_eq_true_2 in Hc by done.
  unfold join_segment. rewrite bool_decide_eq_true_2, Hi, Hr by done.
  destruct P as [|c P]; cbn [marks app tail length] in *; rewrite <- HP in Hc.
  - destruct (rooted l) eqn:Hroot.
    + injection Hc as <-. destruct Hst as [-> Hst]. exists [], [], (tail stale). cbn [text_of marks app tail].
      rewrite Hroot, He. destruct stale as [|n stale]; cbn [app negb].
      * split_and!; done.
      * inversion Hst; subst. destruct n as [|n]; [lia|]. split_and!; try done. by destruct n.
    + rewrite Hst, He. cbn [app negb].
      destruct B as [|c [|c' B]]; [by rewrite <- HB in Hc..|].
      rewrite <- HB in Hc. simpl in Hc. simplify_eq. cbn [text_of].
      rewrite last_sep_render by done. exists [], (c' :: B), []. inversion Hok; subst.
      split_and!; try done; cbn [result text_of].
      rewrite (render_cons c), bool_decide_eq_false_2 by done. by rewrite take_app_length.
  - simplify_eq. exists P, B, stale. inversion Hok; subst. split_and!; try done.
    cbn [result]. destruct (text_of_prefix c P B) as [r ->]. by rewrite take_app_length.
Qed.

Lemma inv_push l st j c :
  inv l st j → comp_ok c = true →
  inv (mkLevel (rooted l) (below l) (S (pushed l))) (c :: st) (join_segment j c).
Proof.
  intros (P & B & stale & -> & Hok & HP & HB & Hr & Hi & He & Hst) Hc.
  pose proof (comp_ok_spec _ Hc) as (Hs & Hne & Hd & Hdd).
  unfold join_segment. rewrite bool_decide_eq_false_2 by done.
  rewrite bool_decide_eq_false_2 by naive_solver.
  exists (c :: P), B, stale. cbn [result index_stack empty marks app length rooted below pushed].
  rewrite Hr, Hi. split_and!; try done; [by constructor|by f_equal|].
  rewrite (bool_decide_eq_true_2 (text_of P B ≠ [])), andb_true_r.
  - cbn [text_of]. by destruct (ends_with_sep (text_of P B)).
  - pose proof (text_of_length P B). by destruct (text_of P B); simpl in *; [lia|].
Qed.

Lemma inv_step l l' st j c :
  inv l st j → no_sep c → climb_step (Some l) c = Some l' →
  inv l' (norm_step st c) (join_segment j c).
Proof.
  intros Hinv Hc Hl. unfold norm_step. case_bool_decide as Hdd.
  { subst c. by eapply inv_pop. }
  unfold climb_step in Hl. cbn [mbind option_bind] in Hl. rewrite bool_decide_eq_false_2 in Hl by done.
  case_bool_decide as Hskip; simplify_eq.
  - unfold join_segment. by rewrite bool_decide_eq_false_2, bool_decide_eq_true_2.
  - apply inv_push; [done|]. unfold comp_ok. rewrite bool_decide_eq_false_2 by naive_solver.
    rewrite andb_true_r, forallb_forall. intros b Hb%list_elem_of_In. rewrite Forall_forall in Hc.
    by rewrite Hc.
Qed.

Lemma climb_none segs : foldl climb_step None segs = None.
Proof. by induction segs. Qed.

Lemma inv_segments segs l l' st j :
  inv l st j → Forall no_sep segs → foldl climb_step (Some l) segs = Some l' →
  inv l' (foldl norm_step st segs) (foldl join_segment j segs).
Proof.
  revert l st j. induction segs as [|c segs IH]; intros l st j Hinv Hs Hl.
  { by simplify_eq/=. }
  inversion Hs; subst. cbn [foldl] in *.
  destruct (climb_step (Some l) c) as [l1|] eqn:Hl1; [|by rewrite climb_none in Hl].
  eapply IH; [|done|done]. by eapply inv_step.
Qed.

Lemma inv_part l l' st j part :
  inv l st j → climb_part (Some l) part = Some l' → inv l' (norm_part st part) (join_part true j part).
Proof.
  intros Hinv Hl. unfold join_part, norm_part, climb_part in *.
  destruct (is_absolute part) eqn:Ha.
  - destruct part as [|c part]; [done|]. cbn [is_absolute] in Ha. apply Z.eqb_eq in Ha as ->.
    rewrite segment_loop_fold by (simpl; lia).
    change (split_on_sep (MAIN_SEPARATOR :: part)) with ([] :: split_on_sep part) in *.
    change (drop 1 (MAIN_SEPARATOR :: part)) with part.
    change (foldl climb_step (Some (mkLevel true 0 0)) (split_on_sep part) = Some l') in Hl.
    change (foldl norm_step [] ([] :: split_on_sep part)) with (foldl norm_step [] (split_on_sep part)).
    eapply inv_segments; [|apply split_segments|exact Hl].
    destruct Hinv as (P & B & stale & -> & _ & _ & _ & _ & Hi & _ & Hst).
    exists [], [], (index_stack j). cbn. split_and!; try done. rewrite Hi. apply Forall_app.
    split; [apply marks_positive|]. destruct (rooted l); [by destruct Hst|by subst].
  - rewrite segment_loop_fold by lia. by eapply inv_segments; [|apply split_segments|].
Qed.

Lemma climb_parts_none parts : foldl climb_part None parts = None.
Proof.
  induction parts as [|p parts IH]; [done|]. cbn [foldl]. unfold climb_part at 2.
  destruct (is_absolute p); cbn; by rewrite climb_none.
Qed.

Lemma inv_parts parts l l' st j :
  inv l st j → foldl climb_part (Some l) parts = Some l' →
  inv l' (foldl norm_part st parts) (foldl (join_part true) j parts).
Proof.
  revert l st j. induction parts as [|p parts IH]; intros l st j Hinv Hl; [by simplify_eq/=|].
  cbn [foldl] in *. destruct (climb_part (Some l) p) as [l1|] eqn:H1; [|by rewrite climb_parts_none in Hl].
  eapply IH; [|done]. by eapply inv_part.
Qed.

Lemma resolve_ok cwd parts :
  comps_ok cwd → stays_below_root cwd parts = true →
  resolve_path (Ok (render cwd)) parts = Ok (render (foldl norm_part cwd parts)).
Proof.
  intros Hcwd Hb. unfold resolve_path. cbn [mbind res_bind]. f_equal. unfold join_resolve_path.
  fold (with_sep (render cwd)). rewrite (text_with_sep [] cwd Hcwd : with_sep (render cwd) = _).
  unfold stays_below_root in Hb.
  destruct (foldl climb_part _ parts) as [l'|] eqn:Hl; [|done].
  assert (Ht : trim_last_sep ((if bool_decide (cwd = []) then [] else render cwd) ++ [MAIN_SEPARATOR])
               = render cwd).
  { case_bool_decide; [by subst|by apply trim_snoc]. }
  cbn [app]. rewrite Ht.
  assert (Hinv : inv (mkLevel false (length cwd) 0) cwd (mkJoiner (render cwd) [] true)).
  { exists [], cwd, []. done. }
  destruct (inv_parts _ _ _ _ _ Hinv Hl) as (P & B & stale & Hst & Hok & _ & _ & -> & _).
  rewrite Hst in *. by apply trim_text.
Qed.

(** * Relative paths *)

Lemma join_with_cons c cs :
  join_with (c :: cs) = c ++ match cs with [] => [] | _ => MAIN_SEPARATOR :: join_with cs end.
Proof. destruct cs; cbn [join_with]; [by rewrite app_nil_r|done]. Qed.

Lemma find_sep_app c l :
  no_sep c → find_next_separator (c ++ MAIN_SEPARATOR :: l) = Some (length c).
Proof.
  unfold find_next_separator. induction 1 as [|b c Hb Hc IH]; [done|].
  cbn [app find_pos length]. by rewrite Hb, IH.
Qed.

(** One turn over a text whose rest is a list of components. *)
Lemma next_end_join s i c cs :
  comps_ok (c :: cs) → drop i s = join_with (c :: cs) →
  (i < length s)%nat ∧ slice_to s i (next_end s i) = c ∧
  drop (S (next_end s i)) s = join_with cs ∧ (i < next_end s i)%nat ∧ (next_end s i ≤ length s)%nat.
Proof.
  intros Hok Hd. inversion Hok as [|? ? Hc _]; subst. apply comp_ok_spec in Hc as (Hs & Hne & _).
  rewrite join_with_cons in Hd. pose proof (f_equal length Hd) as Hlen.
  rewrite length_drop, length_app in Hlen.
  assert (0 < length c)%nat by (destruct c; [done|simpl; lia]).
  assert (Hn : next_end s i = (length c + i)%nat).
  { unfold next_end. rewrite Hd. destruct cs as [|c' cs].
    - rewrite app_nil_r. replace (find_next_separator c) with (@None nat).
      + cbn [default]. simpl in Hlen. lia.
      + symmetry. by apply find_pos_None.
    - by rewrite find_sep_app. }
  rewrite Hn. split_and!; try lia.
  - unfold slice_to. rewrite Hd, Nat.add_sub. by apply take_app_length'.
  - rewrite Nat.add_comm, <- Nat.add_succ_r, <- drop_drop, Hd, drop_app_ge by lia.
    replace (S (length c) - length c)%nat with 1%nat by lia. by destruct cs.
Qed.

Lemma drop_end {A} (s : list A) i : drop i s = [] → (length s ≤ i)%nat.
Proof. intros H. apply (f_equal length) in H. rewrite length_drop in H. simpl in H. lia. Qed.

Lemma skip_common_ok fuel from to i j fs ts :
  comps_ok fs → comps_ok ts → drop i from = join_with fs → drop j to = join_with ts →
  (length from < fuel + i)%nat →
  ∃ pre fs' ts' i' j', fs = pre ++ fs' ∧ ts = pre ++ ts' ∧
    skip_common fuel from to i j = (i', j') ∧
    drop i' from = join_with fs' ∧ drop j' to = join_with ts'.
Proof.
  revert i j fs ts. induction fuel as [|fuel IH]; intros i j fs ts Hf Ht Hdf Hdt Hfuel.
  { by exists [], fs, ts, i, j. }
  cbn [skip_common]. destruct fs as [|f fs]; [|destruct ts as [|t ts]].
  - pose proof (drop_end _ _ Hdf). rewrite (proj2 (Nat.ltb_ge i (length from))) by done.
    by exists [], [], ts, i, j.
  - pose proof (drop_end _ _ Hdt). rewrite (proj2 (Nat.ltb_ge j (length to))), andb_false_r by done.
    by exists [], (f :: fs), [], i, j.
  - destruct (next_end_join _ _ _ _ Hf Hdf) as (Hi & Hsi & Hdi & Hni & _).
    destruct (next_end_join _ _ _ _ Ht Hdt) as (Hj & Hsj & Hdj & _).
    rewrite (proj2 (Nat.ltb_lt i _)), (proj2 (Nat.ltb_lt j _)) by done. cbn [andb].
    rewrite Hsi, Hsj. apply Forall_cons_1 in Hf as [_ Hf], Ht as [_ Ht]. case_bool_decide as Heq.
    + subst t. destruct (IH (S (next_end from i)) (S (next_end to j)) fs ts)
        as (pre & fs' & ts' & i' & j' & -> & -> & Hs & Hdf' & Hdt'); [done..|lia|].
      exists (f :: pre), fs', ts', i', j'. split_and!; try done. by rewrite Heq.
    + by exists [], (f :: fs), (t :: ts), i, j.
Qed.

Lemma push_sep_join cs c :
  Forall (λ c, c ≠ []) cs → push_sep (join_with cs) ++ c = join_with (cs ++ [c]).
Proof.
  intros Hok. unfold push_sep. destruct cs as [|d cs]; [by case_bool_decide|].
  apply Forall_cons_1 in Hok as [Hd _].
  rewrite join_with_snoc by done. rewrite bool_decide_eq_true_2; [by rewrite <- (assoc_L (++))|].
  rewrite join_with_cons. by destruct d.
Qed.

Lemma climb_ok fuel from i fs cs :
  comps_ok fs → drop i from = join_with fs → Forall (λ c, c ≠ []) cs → (length from < fuel + i)%nat →
  climb fuel from i (join_with cs) = join_with (cs ++ replicate (length fs) (bs "..")).
Proof.
  revert i fs cs. induction fuel as [|fuel IH]; intros i fs cs Hf Hd Hcs Hfuel.
  - destruct fs as [|f fs]; [by rewrite app_nil_r|].
    destruct (next_end_join _ _ _ _ Hf Hd) as (Hi & _). lia.
  - cbn [climb]. destruct fs as [|f fs].
    + pose proof (drop_end _ _ Hd). rewrite (proj2 (Nat.ltb_ge _ _)) by done. by rewrite app_nil_r.
    + destruct (next_end_join _ _ _ _ Hf Hd) as (Hi & _ & Hd' & Hn & _).
      rewrite (proj2 (Nat.ltb_lt _ _)) by done. inversion Hf; subst.
      rewrite push_sep_join by done. rewrite (IH _ fs); [|done..| |lia].
      * by rewrite <- (assoc_L (++)).
      * apply Forall_app. by split; [|constructor].
Qed.

Lemma descend_ok fuel to j ts cs :
  comps_ok ts → drop j to = join_with ts → Forall (λ c, c ≠ []) cs → (length to < fuel + j)%nat →
  descend fuel to j (join_with cs) = join_with (cs ++ ts).
Proof.
  revert j ts cs. induction fuel as [|fuel IH]; intros j ts cs Ht Hd Hcs Hfuel.
  - destruct ts as [|t ts]; [by rewrite app_nil_r|].
    destruct (next_end_join _ _ _ _ Ht Hd) as (Hj & _). lia.
  - cbn [descend]. destruct ts as [|t ts].
    + pose proof (drop_end _ _ Hd). rewrite (proj2 (Nat.ltb_ge _ _)) by done. by rewrite app_nil_r.
    + destruct (next_end_join _ _ _ _ Ht Hd) as (Hj & Hs & Hd' & Hn & _).
      rewrite (proj2 (Nat.ltb_lt _ _)) by done. rewrite Hs.
      inversion Ht as [|? ? Hc Ht']; subst. apply comp_ok_spec in Hc as (_ & Hne & Hdot & _).
      rewrite bool_decide_eq_false_2 by done.
      rewrite push_sep_join by done. rewrite (IH _ ts); [|done..| |lia].
      * by rewrite <- (assoc_L (++)).
      * apply Forall_app. by split; [|constructor].
Qed.

Lemma split_join cs :
  Forall (λ c, no_sep c) cs → cs ≠ [] → split_on_sep (join_with cs) = cs.
Proof.
  induction cs as [|c cs IH]; intros Hok Hne; [done|]. inversion Hok as [|? ? Hc Hok']; subst.
  rewrite join_with_cons. destruct cs as [|c' cs].
  - rewrite app_nil_r. by apply split_no_sep.
  - rewrite split_app by done. by rewrite IH.
Qed.

Lemma comps_no_sep cs : comps_ok cs → Forall (λ c, no_sep c) cs.
Proof. intros Hok. eapply Forall_impl; [done|]. by intros c (Hc & _)%comp_ok_spec. Qed.

Lemma norm_join st cs :
  Forall (λ c, no_sep c) cs → foldl norm_step st (split_on_sep (join_with cs)) = foldl norm_step st cs.
Proof. intros Hcs. destruct cs as [|c cs]; [done|]. by rewrite split_join. Qed.

Lemma norm_push cs st : comps_ok cs → foldl norm_step st cs = reverse cs ++ st.
Proof.
  revert st. induction cs as [|c cs IH]; intros st Hok; [done|].
  inversion Hok as [|? ? Hc Hok']; subst. cbn [foldl]. rewrite IH by done.
  apply comp_ok_spec in Hc as (_ & ? & ? & ?). unfold norm_step.
  rewrite !bool_decide_eq_false_2 by naive_solver.
  by rewrite reverse_cons, <- (assoc_L (++)).
Qed.

Lemma norm_pop st st' : foldl norm_step (st ++ st') (replicate (length st) (bs "..")) = st'.
Proof. induction st as [|c st IH]; [done|]. exact IH. Qed.

(** From one absolute path to another. *)
Lemma relative_render cwd f t :
  comps_ok f → comps_ok t → render f ≠ render t →
  ∃ pre f' t', reverse f = pre ++ f' ∧ reverse t = pre ++ t' ∧
    relative cwd (render f) (render t) = Ok (join_with (replicate (length f') (bs "..") ++ t')).
Proof.
  intros Hf Ht Hne. unfold relative. rewrite bool_decide_eq_false_2 by done.
  change (absolute_from cwd (render f)) with (@Ok () path (render f)).
  change (absolute_from cwd (render t)) with (@Ok () path (render t)). cbn [mbind res_bind].
  destruct (skip_common_ok (length (render f)) (render f) (render t) 1 1 (reverse f) (reverse t))
    as (pre & f' & t' & i & j & Hpf & Hpt & Hs & Hi & Hj).
  { by apply Forall_reverse. } { by apply Forall_reverse. } { done. } { done. } { lia. }
  exists pre, f', t'.
  assert (Hf' : comps_ok f') by (eapply (Forall_app _ pre); rewrite <- Hpf; by apply Forall_reverse).
  assert (Ht' : comps_ok t') by (eapply (Forall_app _ pre); rewrite <- Hpt; by apply Forall_reverse).
  split_and!; [done..|].
  change (skip_common (S (length (render f))) (render f) (render t) 0 0)
    with (skip_common (length (render f)) (render f) (render t) 1 1). rewrite Hs.
  change (climb (S (length (render f))) (render f) i [])
    with (climb (S (length (render f))) (render f) i (join_with [])).
  rewrite (climb_ok _ _ _ f' []), app_nil_l; [|done|done|by constructor|lia].
  rewrite (descend_ok _ _ _ t').
  - rewrite bool_decide_eq_false_2; [done|].
    destruct f' as [|c f']; [|cbn [replicate length app]; by rewrite join_with_cons]. destruct t' as [|c t'].
    + intros _. apply Hne. f_equal. rewrite <- (reverse_involutive f), <- (reverse_involutive t).
      by rewrite Hpf, Hpt.
    + cbn [replicate length app]. inversion Ht' as [|? ? Hc]; subst.
      apply comp_ok_spec in Hc as (_ & Hc & _). rewrite join_with_cons. by destruct c.
  - done.
  - done.
  - by apply Forall_replicate.
  - lia.
Qed.

(** C25. [resolve] computes the standard's answer: started in the directory
    [cwd] (components, last first), the parts are taken from left to right,
    absolute parts start over, dots and empty components are dropped and [..]
    removes a component, as long as [..] does not climb from the working
    directory up to the root. *)
Theorem resolve_normalizes (cwd parts : list path) :
  comps_ok cwd → stays_below_root cwd parts = true →
  resolve_path (Ok (render cwd)) parts = Ok (render (foldl norm_part cwd parts)).
Proof. apply resolve_ok. Qed.

Lemma climb_segments_rooted segs n :
  ∃ n', foldl climb_step (Some (mkLevel true 0 n)) segs = Some (mkLevel true 0 n').
Proof.
  revert n. induction segs as [|c segs IH]; intros m; [by eexists|]. cbn [foldl].
  unfold climb_step at 2. cbn [mbind option_bind rooted below pushed].
  repeat case_bool_decide; [destruct m|..]; apply IH.
Qed.

Lemma climb_rooted parts n :
  ∃ l, foldl climb_part (Some (mkLevel true 0 n)) parts = Some l.
Proof.
  revert n. induction parts as [|p parts IH]; intros n; [by eexists|]. cbn [foldl].
  unfold climb_part at 2. cbn [fmap option_fmap option_map].
  destruct (is_absolute p); [destruct (climb_segments_rooted (split_on_sep p) 0%nat) as [n' ->]|
    destruct (climb_segments_rooted (split_on_sep p) n) as [n' ->]]; apply IH.
Qed.

Lemma stays_absolute cwd p parts : is_absolute p = true → stays_below_root cwd (p :: parts) = true.
Proof.
  intros Hp. unfold stays_below_root. destruct (climb_rooted (p :: parts) 0) as [l Hl].
  cbn [foldl] in *. unfold climb_part at 2 in Hl. unfold climb_part at 2.
  rewrite Hp in *. cbn [fmap option_fmap option_map] in *. by rewrite Hl.
Qed.

Lemma norm_render f : comps_ok f → norm_part [] (render f) = f.
Proof.
  intros Hf. unfold norm_part. change (is_absolute (render f)) with true. cbn iota.
  unfold render. change (split_on_sep (MAIN_SEPARATOR :: ?l)) with ([] :: split_on_sep l).
  change (foldl norm_step [] ([] :: ?l)) with (foldl norm_step [] l).
  assert (Hr : comps_ok (reverse f)) by (by apply Forall_reverse).
  rewrite norm_join by (by apply comps_no_sep). rewrite norm_push by done.
  by rewrite reverse_involutive, app_nil_r.
Qed.

Lemma join_not_absolute cs :
  Forall (λ c, no_sep c ∧ c ≠ []) cs → is_absolute (join_with cs) = false.
Proof.
  destruct cs as [|[|b c] cs]; intros Hcs; [done|by apply Forall_cons_1 in Hcs as [[_ ?] _]|].
  rewrite join_with_cons. apply Forall_cons_1 in Hcs as [[Hc _] _].
  by apply Forall_cons_1 in Hc as [Hb _].
Qed.

(** Climbing out of [f] and down [t]. *)
Lemma norm_climb pre f t :
  comps_ok t →
  norm_part (reverse (pre ++ f)) (join_with (replicate (length f) (bs "..") ++ t)) = reverse (pre ++ t).
Proof.
  intros Ht. assert (Hcs : Forall (λ c, no_sep c ∧ c ≠ []) (replicate (length f) (bs "..") ++ t)).
  { apply Forall_app. split.
    - apply Forall_replicate. split; [by repeat constructor|done].
    - eapply Forall_impl; [exact Ht|]. intros c (? & ? & _)%comp_ok_spec. done. }
  unfold norm_part. rewrite join_not_absolute, norm_join, foldl_app, !reverse_app by
    (done || (eapply Forall_impl; [exact Hcs|naive_solver])).
  rewrite <- (length_reverse f), norm_pop. by apply norm_push.
Qed.

(** [relative] and [resolve] are inverse: from any absolute normalized
    path, following the relative path to another one arrives there, in any
    working directory. *)
Theorem relative_resolves (cwd : list path) (f t : list path) :
  comps_ok cwd → comps_ok f → comps_ok t →
  ∃ r, relative (Ok (render cwd)) (render f) (render t) = Ok r ∧
       resolve_path (Ok (render cwd)) [render f; r] = Ok (render t).
Proof.
  intros Hcwd Hf Ht. destruct (decide (render f = render t)) as [Heq|Hne].
  - exists []. unfold relative. rewrite bool_decide_eq_true_2 by done. split; [done|].
    rewrite resolve_ok; [|done|by apply stays_absolute]. cbn [foldl].
    change (norm_part ?st []) with st. rewrite <- Heq. unfold norm_part at 1.
    change (is_absolute (render f)) with true. f_equal. f_equal. apply (norm_render f Hf).
  - destruct (relative_render (Ok (render cwd)) f t Hf Ht Hne) as (pre & f' & t' & Hpf & Hpt & -> ).
    eexists. split; [done|]. rewrite resolve_ok; [|done|by apply stays_absolute]. cbn [foldl].
    assert (Hf1 : norm_part cwd (render f) = f) by apply (norm_render f Hf). rewrite Hf1.
    f_equal. f_equal.
    assert (Ht' : comps_ok t') by (eapply (Forall_app _ pre); rewrite <- Hpt; by apply Forall_reverse).
    rewrite <- (reverse_involutive f), <- (reverse_involutive t), Hpf, Hpt.
    by apply norm_climb.
Qed.

(** * Directory and name *)

Lemma lookup_after (pre : path) c i :
  (i ≤ length c)%nat → (pre ++ MAIN_SEPARATOR :: c) !! (length pre + i)%nat = (MAIN_SEPARATOR :: c) !! i.
Proof. intros Hi. rewrite lookup_app_r by lia. f_equal. lia. Qed.

Lemma dirname_scan_ok pre c i m :
  no_sep c → (1 ≤ length pre)%nat → (i ≤ length c)%nat → (m = false ∨ (0 < i)%nat) →
  dirname_scan (pre ++ MAIN_SEPARATOR :: c) 1 (length pre + 1 + i) m = Some (length pre).
Proof.
  intros Hc Hpre. revert m. induction i as [|i IH]; intros m Hi Hm.
  - replace (length pre + 1 + 0)%nat with (S (length pre)) by lia. cbn [dirname_scan].
    rewrite (proj2 (Nat.ltb_ge _ _)) by lia.
    pose proof (lookup_after pre c 0 ltac:(lia)) as Hl. rewrite Nat.add_0_r in Hl. rewrite Hl.
    destruct Hm as [->|]; [done|lia].
  - replace (length pre + 1 + S i)%nat with (S (length pre + S i)) by lia. cbn [dirname_scan].
    rewrite (proj2 (Nat.ltb_ge _ _)) by lia. rewrite lookup_after by lia.
    destruct (lookup_lt_is_Some_2 c i) as [b Hb]; [lia|].
    change ((MAIN_SEPARATOR :: c) !! S i) with (c !! i). rewrite Hb.
    assert (b ≠ 47).
    { rewrite Forall_forall in Hc. specialize (Hc b (list_elem_of_lookup_2 _ _ _ Hb)). by apply Z.eqb_neq in Hc. }
    replace (length pre + S i)%nat with (length pre + 1 + i)%nat by lia.
    rewrite <- (IH false) by (auto; lia). by repeat (case_match; try done).
Qed.

Lemma dirname_ok pre c :
  no_sep c → c ≠ [] → (2 ≤ length pre)%nat → dirname (pre ++ MAIN_SEPARATOR :: c) = pre.
Proof.
  intros Hc Hne Hpre. unfold dirname.
  assert (Hf : find_dirname_end (pre ++ MAIN_SEPARATOR :: c) 1 = Some (length pre)).
  { unfold find_dirname_end. rewrite length_app. cbn [length].
    replace (length pre + S (length c))%nat with (length pre + 1 + length c)%nat by lia.
    apply dirname_scan_ok; [done|lia|lia|right]. destruct c; [done|simpl; lia]. }
  rewrite Hf. destruct pre as [|b [|b' pre]]; [simpl in *; lia..|]. cbn [app].
  rewrite (proj2 (Nat.eqb_neq _ 1)), andb_false_r by (simpl; lia).
  change (b :: b' :: pre ++ MAIN_SEPARATOR :: c) with ((b :: b' :: pre) ++ MAIN_SEPARATOR :: c).
  by rewrite take_app_length.
Qed.

Lemma scan_none l i m : no_sep (drop 1 l) → (i ≤ length l)%nat → dirname_scan l 1 i m = None.
Proof.
  intros Hl. revert m. induction i as [|i IH]; intros m Hi; [done|]. cbn [dirname_scan].
  destruct (Nat.ltb_spec i 1) as [|Hge]; [done|].
  destruct (lookup_lt_is_Some_2 l i) as [b Hb]; [lia|]. rewrite Hb.
  assert (b ≠ 47).
  { rewrite Forall_forall in Hl. destruct i as [|i]; [lia|]. destruct l as [|a l]; [done|].
    specialize (Hl b (list_elem_of_lookup_2 l i b Hb)). by apply Z.eqb_neq in Hl. }
  rewrite <- (IH false) by lia. by repeat (case_match; try done).
Qed.

Lemma strip_no_sep l c : no_sep c → c ≠ [] → strip_last_sep (l ++ c) = l ++ c.
Proof. intros. unfold strip_last_sep. by rewrite ends_with_sep_app. Qed.

Lemma name_extname_concat l c :
  no_sep c → c ≠ [] →
  (let '(n, e) := name_extname c in n ++ e = c) ∧ name_extname (l ++ MAIN_SEPARATOR :: c) = name_extname c.
Proof.
  intros Hc Hne. unfold name_extname.
  pose proof (strip_no_sep [] c Hc Hne) as H1. cbn [app] in H1. rewrite H1.
  assert (Hn : find_last_sep c = None) by (by apply rfind_pos_None). rewrite Hn.
  pose proof (strip_no_sep (l ++ [MAIN_SEPARATOR]) c Hc Hne) as H2. rewrite <- (assoc_L (++)) in H2.
  cbn [app] in H2. rewrite H2, last_sep_app by done.
  replace (drop (S (length l)) (l ++ MAIN_SEPARATOR :: c)) with c.
  - split; [|done].
    assert (Hr : let '(n, e) := match rfind_pos (λ c, c =? 46) c with
                 | Some idx => (take idx c, drop idx c) | None => (c, []) end in n ++ e = c).
    { destruct (rfind_pos _ c); [apply take_drop|apply app_nil_r]. }
    by repeat (case_match; simplify_eq/=; try done; try by rewrite app_nil_r).
  - replace (l ++ MAIN_SEPARATOR :: c) with ((l ++ [MAIN_SEPARATOR]) ++ c) by (by rewrite <- (assoc_L (++))).
    rewrite drop_app_length'; [done|]. rewrite length_app. simpl. lia.
Qed.

Lemma render_comp c st :
  comps_ok (c :: st) → no_sep c ∧ c ≠ [] ∧
  ∃ pre, render (c :: st) = pre ++ MAIN_SEPARATOR :: c ∧ pre = (if bool_decide (st = []) then [] else render st).
Proof.
  intros Hok. apply Forall_cons_1 in Hok as [Hc _]. apply comp_ok_spec in Hc as (Hs & Hne & _).
  split_and!; [done..|]. eexists. split; [apply render_cons|done].
Qed.

(** * Join *)

Lemma join_rooted parts n st j :
  inv (mkLevel true 0 n) st j →
  ∃ n', inv (mkLevel true 0 n') (foldl join_norm st parts) (foldl (join_part false) j parts).
Proof.
  revert n st j. induction parts as [|p parts IH]; intros n st j Hinv; [by exists n|]. cbn [foldl].
  destruct (climb_segments_rooted (split_on_sep p) n) as [n' Hn']. apply (IH n').
  unfold join_part. replace (empty j) with false.
  - rewrite andb_false_r, segment_loop_fold by lia.
    by eapply inv_segments; [|apply split_segments|].
  - by destruct Hinv as (P & B & stale & _ & _ & _ & _ & _ & _ & -> & _).
Qed.

Lemma join_absolute_ok p parts :
  is_absolute p = true → join_path (p :: parts) = render (foldl join_norm [] (p :: parts)).
Proof.
  intros Hp. destruct p as [|c p]; [done|]. apply Z.eqb_eq in Hp as ->.
  unfold join_path, join_resolve_path. cbn [foldl].
  assert (Hj : join_part false (mkJoiner (trim_last_sep []) [] true) (MAIN_SEPARATOR :: p) =
               foldl join_segment (mkJoiner [MAIN_SEPARATOR] [] false) (split_on_sep p)).
  { transitivity (segment_loop (S (S (length p))) (MAIN_SEPARATOR :: p) 1 (mkJoiner [MAIN_SEPARATOR] [] false));
      [done|]. by rewrite segment_loop_fold by (simpl; lia). }
  rewrite Hj. destruct (climb_segments_rooted (split_on_sep p) 0) as [n Hn].
  assert (Hinv : inv (mkLevel true 0 0) [] (mkJoiner [MAIN_SEPARATOR] [] false)).
  { exists [], [], []. by split_and!. }
  pose proof (inv_segments _ _ _ _ _ Hinv (split_segments p) Hn) as Hinv1.
  destruct (join_rooted parts _ _ _ Hinv1) as (n' & P & B & stale & Hst & Hok & _ & _ & -> & _).
  change (join_norm [] (MAIN_SEPARATOR :: p)) with (foldl norm_step [] (split_on_sep p)).
  rewrite Hst in *. by apply trim_text.
Qed.

(** The text of a relative path while it is built. *)
Fixpoint rel_text (st : list path) : path :=
  match st with
  | [] => []
  | c :: st => rel_text st ++ c ++ [MAIN_SEPARATOR]
  end.
Fixpoint rel_marks (st : list path) : list nat :=
  match st with
  | [] => []
  | _ :: st => length (rel_text st) :: rel_marks st
  end.

Lemma rel_text_join c st : join_with (reverse (c :: st)) = rel_text st ++ c.
Proof.
  revert c. induction st as [|d st IH]; intros c; [done|]. rewrite reverse_cons.
  rewrite join_with_snoc, IH by (rewrite reverse_cons; by destruct (reverse st)).
  cbn [rel_text]. by rewrite <- !(assoc_L (++)).
Qed.

Definition rel_inv (n : nat) (st : list path) (j : joiner) : Prop :=
  comps_ok st ∧ length st = n ∧ j = mkJoiner (rel_text st) (rel_marks st) true.

Lemma rel_inv_step n n' st j c :
  rel_inv n st j → no_sep c → depth_step (Some n) c = Some n' →
  rel_inv n' (norm_step st c) (join_segment j c).
Proof.
  intros (Hok & Hn & ->) Hc Hd. unfold depth_step in Hd. cbn [mbind option_bind] in Hd.
  unfold norm_step, join_segment. cbn [result index_stack empty].
  case_bool_decide as Hdd; [|case_bool_decide as Hskip]; simplify_eq.
  - destruct st as [|d st]; simplify_eq/=. apply Forall_cons_1 in Hok as [_ Hok].
    split_and!; [done..|]. by rewrite take_app_length.
  - done.
  - assert (Hs : comp_ok c = true).
    { unfold comp_ok. rewrite bool_decide_eq_false_2 by naive_solver. rewrite andb_true_r, forallb_forall.
      intros b Hb%list_elem_of_In. rewrite Forall_forall in Hc. by rewrite Hc. }
    split_and!; [by constructor|done|]. cbn [rel_text rel_marks]. f_equal. f_equal.
    destruct st as [|d st]; [done|]. cbn [rel_text]. by rewrite (assoc_L (++)), ends_with_sep_snoc.
Qed.

Lemma depth_none segs : foldl depth_step None segs = None.
Proof. by induction segs. Qed.

Lemma rel_inv_segments segs n n' st j :
  rel_inv n st j → Forall (λ c, no_sep c) segs → foldl depth_step (Some n) segs = Some n' →
  rel_inv n' (foldl norm_step st segs) (foldl join_segment j segs).
Proof.
  revert n st j. induction segs as [|c segs IH]; intros n st j Hinv Hs Hl; [by simplify_eq/=|].
  apply Forall_cons_1 in Hs as [Hc Hs]. cbn [foldl] in *.
  destruct (depth_step (Some n) c) as [n1|] eqn:Hn1; [|by rewrite depth_none in Hl].
  eapply IH; [|done|done]. by eapply rel_inv_step.
Qed.

Lemma rel_inv_parts parts n n' st j :
  rel_inv n st j → Forall (λ p, starts_with_sep p = false) parts →
  foldl (λ n part, foldl depth_step n (split_on_sep part)) (Some n) parts = Some n' →
  rel_inv n' (foldl join_norm st parts) (foldl (join_part false) j parts).
Proof.
  revert n st j. induction parts as [|p parts IH]; intros n st j Hinv Hs Hl; [by simplify_eq/=|].
  apply Forall_cons_1 in Hs as [Hp Hs]. cbn [foldl] in *.
  destruct (foldl depth_step (Some n) (split_on_sep p)) as [n1|] eqn:Hn1.
  - eapply IH; [|done|done]. unfold join_part. rewrite Hp. cbn [andb].
    rewrite segment_loop_fold by lia. by eapply rel_inv_segments; [|apply split_segments|].
  - exfalso. clear -Hl. induction parts as [|q parts IHq]; [done|]. cbn [foldl] in Hl.
    by rewrite depth_none in Hl; auto.
Qed.

Lemma join_relative_ok parts :
  Forall (λ p, starts_with_sep p = false) parts → stays_inside parts = true →
  join_path parts = join_with (reverse (foldl join_norm [] parts)).
Proof.
  intros Hp Hs. unfold stays_inside in Hs. destruct (foldl _ (Some 0%nat) parts) as [n|] eqn:Hn; [|done].
  destruct (rel_inv_parts parts 0 n [] (mkJoiner [] [] true)) as (Hok & _ & Hj); [|done..|].
  { by split_and!. }
  unfold join_path, join_resolve_path. change (trim_last_sep []) with (@nil Z). rewrite Hj. cbn [result].
  destruct (foldl join_norm [] parts) as [|c st]; [done|]. rewrite rel_text_join. cbn [rel_text].
  rewrite (assoc_L (++)). apply trim_snoc. apply Forall_cons_1 in Hok as [Hc _].
  apply comp_ok_spec in Hc as (_ & Hc & _). by destruct (rel_text st), c.
Qed.

(** [join] normalizes the concatenation of its parts: whenever the first
    part is absolute, whatever follows; and for relative parts as long as none
    begins with a separator and [..] does not leave the first directory. *)
Theorem join_normalizes (p : path) (parts : list path) :
  (is_absolute p = true → join_path (p :: parts) = render (foldl join_norm [] (p :: parts))) ∧
  (Forall (λ p, starts_with_sep p = false) (p :: parts) → stays_inside (p :: parts) = true →
   join_path (p :: parts) = join_with (reverse (foldl join_norm [] (p :: parts)))).
Proof. split; [apply join_absolute_ok|apply join_relative_ok]. Qed.

(** [dirname] and [basename] take an absolute normalized path apart, and
    [join] puts it together again. *)
Theorem dirname_basename (c : path) (st : list path) :
  comps_ok (c :: st) →
  dirname (render (c :: st)) = render st ∧ basename (render (c :: st)) None = c ∧
  join_path [dirname (render (c :: st)); basename (render (c :: st)) None] = render (c :: st).
Proof.
  intros Hok. destruct (render_comp c st Hok) as (Hs & Hne & pre & Hr & Hpre).
  assert (Hd : dirname (render (c :: st)) = render st).
  { rewrite Hr, Hpre. case_bool_decide as Hst.
    - subst st. cbn [app]. unfold dirname. destruct c as [|b c]; [done|].
      unfold find_dirname_end. rewrite scan_none; [done|done|lia].
    - apply dirname_ok; [done..|]. destruct st as [|d st]; [done|].
      apply Forall_cons_1 in Hok as [_ Hok]. destruct (render_comp d st Hok) as (_ & Hd & pre' & -> & _).
      rewrite length_app. destruct d; [done|simpl; lia]. }
  assert (Hb : basename (render (c :: st)) None = c).
  { unfold basename. rewrite bool_decide_eq_false_2.
    - rewrite Hr. destruct (name_extname_concat pre c Hs Hne) as [Hcat ->].
      by destruct (name_extname c).
    - rewrite Hr. intros [Heq|Heq]; apply (f_equal length) in Heq; rewrite length_app in Heq;
        destruct c; simpl in *; done || lia. }
  split_and!; [done..|]. rewrite Hd, Hb, join_absolute_ok by done. cbn [foldl]. f_equal.
  apply Forall_cons_1 in Hok as [Hc Hst].
  assert (Hn : join_norm [] (render st) = st) by apply (norm_render st Hst). rewrite Hn.
  unfold join_norm. rewrite split_no_sep by done. by apply (norm_push [c] st); repeat constructor.
Qed.

(** * Parse and format *)

Fixpoint spans (pos : nat) (cs : list path) : list (component * nat) :=
  match cs with
  | [] => []
  | c :: cs => (Normal c, (pos + length c)%nat) :: spans (S (pos + length c)) cs
  end.

Lemma body_spans b pos cs : comps_ok cs → body_components b pos cs = spans pos cs.
Proof.
  revert b pos. induction cs as [|c cs IH]; intros b pos Hok; [done|].
  apply Forall_cons_1 in Hok as [Hc Hok]. apply comp_ok_spec in Hc as (_ & ? & ? & ?).
  cbn [body_components spans]. rewrite !bool_decide_eq_false_2 by done. by rewrite IH.
Qed.

Lemma spans_snoc pos cs c :
  spans pos (cs ++ [c]) =
  spans pos cs ++ [(Normal c, (pos + length (join_with (cs ++ [c])))%nat)].
Proof.
  revert pos. induction cs as [|d cs IH]; intros pos; [done|]. cbn [app spans]. rewrite IH.
  rewrite join_with_cons. f_equal. f_equal. f_equal. rewrite length_app.
  destruct (cs ++ [c]) eqn:Hcs; [by destruct cs|]. cbn [length]. f_equal. lia.
Qed.

Lemma last_spans pos cs :
  last (spans pos cs) =
  match last cs with Some c => Some (Normal c, (pos + length (join_with cs))%nat) | None => None end.
Proof.
  destruct cs as [|c cs _] using rev_ind; [done|]. by rewrite spans_snoc, !last_snoc.
Qed.

(** A normalized path: absolute or relative, its components first to last. *)
Definition path_text (absolute : bool) (cs : list path) : path :=
  (if absolute then [MAIN_SEPARATOR] else []) ++ join_with cs.

Lemma components_text absolute cs :
  comps_ok cs → cs ≠ [] →
  components (path_text absolute cs) =
  if absolute then (RootDir, 1%nat) :: spans 1 cs else spans 0 cs.
Proof.
  intros Hok Hne. unfold components, path_text. destruct absolute; cbn [app].
  - change (is_absolute (MAIN_SEPARATOR :: join_with cs)) with true.
    change (drop 1 (MAIN_SEPARATOR :: join_with cs)) with (join_with cs).
    by rewrite split_join, body_spans by (done || by apply comps_no_sep).
  - rewrite join_not_absolute.
    + by rewrite split_join, body_spans by (done || by apply comps_no_sep).
    + eapply Forall_impl; [exact Hok|]. by intros c (? & ? & _)%comp_ok_spec.
Qed.

Lemma ends_with_path_text absolute cs :
  comps_ok cs → cs ≠ [] → ends_with_sep (path_text absolute cs) = false.
Proof.
  intros Hok Hne. destruct cs as [|c cs _] using rev_ind; [done|].
  apply Forall_app in Hok as [_ Hc]. apply Forall_cons_1 in Hc as [Hc _].
  apply comp_ok_spec in Hc as (Hs & Hcne & _). unfold path_text. destruct cs as [|d cs].
  - by apply ends_with_sep_app.
  - rewrite join_with_snoc by done. rewrite !(assoc_L (++)). by apply ends_with_sep_app.
Qed.

Lemma parent_text absolute cs c :
  comps_ok (cs ++ [c]) →
  parent (path_text absolute (cs ++ [c])) = Some (path_text absolute cs) ∧
  file_name (path_text absolute (cs ++ [c])) = Some c.
Proof.
  intros Hok. assert (Hne : cs ++ [c] ≠ []) by (by destruct cs).
  unfold parent, file_name. rewrite components_text by done.
  set (spn := if absolute then (RootDir, 1%nat) :: spans 1 cs else spans 0 cs).
  set (fin := ((if absolute then 1 else 0) + length (join_with (cs ++ [c])))%nat).
  assert (Hs : (if absolute then (RootDir, 1%nat) :: spans 1 (cs ++ [c]) else spans 0 (cs ++ [c])) =
               spn ++ [(Normal c, fin)]).
  { unfold spn, fin. destruct absolute; rewrite spans_snoc; done. }
  rewrite Hs, last_snoc. split; [|done]. rewrite length_app. cbn [length].
  rewrite Nat.add_sub, take_app_length.
  assert (Hl : last spn = if bool_decide (cs = []) then (if absolute then Some (RootDir, 1%nat) else None)
               else (λ d, (Normal d, length (path_text absolute cs))) <$> last cs).
  { unfold spn, path_text. case_bool_decide as Hcs; [by subst; destruct absolute|].
    destruct absolute; [|by rewrite last_spans; destruct (last cs)].
    rewrite last_cons, last_spans. by destruct (last cs) eqn:Hlast; [|apply last_None in Hlast]. }
  rewrite Hl. case_bool_decide as Hcs; [subst; by destruct absolute|].
  destruct (last cs) eqn:Hlast; [|by apply last_None in Hlast]. cbn [fmap option_fmap option_map].
  f_equal. unfold path_text. rewrite join_with_snoc by done.
  rewrite (assoc_L (++)). by rewrite take_app_length.
Qed.

(** [format] undoes [parse], for absolute and relative normalized paths:
    directory, root, base, name and extension are read off and put together
    again. *)
Theorem format_parse (absolute : bool) (cs : list path) :
  comps_ok cs → cs ≠ [] → format (parse (path_text absolute cs)) = path_text absolute cs.
Proof.
  intros Hok Hne. destruct cs as [|c cs _] using rev_ind; [done|].
  destruct (parent_text absolute cs c Hok) as [Hp Hf]. unfold parse. rewrite Hf, Hp.
  change (default [] (Some c)) with c. change (default [] (Some ?x)) with x.
  apply Forall_app in Hok as [Hok Hc]. apply Forall_cons_1 in Hc as [Hc _].
  pose proof (comp_ok_spec _ Hc) as (Hs & Hcne & _).
  destruct (name_extname_concat [] c Hs Hcne) as [Hcat _]. destruct (name_extname c) as [n e].
  unfold format. cbn [dir root base name ext]. rewrite Hcat.
  rewrite (bool_decide_eq_true_2 (c ≠ [])) by done.
  destruct cs as [|d cs].
  - destruct absolute; [done|]. cbn [app].
    by rewrite (components_text false [c]) by (done || by repeat constructor).
  - rewrite bool_decide_eq_true_2.
    + unfold push_dir. rewrite ends_with_path_text by done. unfold path_text.
      rewrite join_with_snoc by done. by rewrite <- !(assoc_L (++)).
    + unfold path_text. apply Forall_cons_1 in Hok as [Hd _]. apply comp_ok_spec in Hd as (_ & Hd & _).
      rewrite join_with_cons. destruct absolute, d; done.
Qed.

(** Where the module differs from Node's: [join] writes two slashes
    before a later part that begins with one, and takes a backslash for a
    separator; [normalize] drops a leading [..]; [resolve] that climbs to the
    root returns the empty path, or a relative one; [basename] removes the
    suffix anywhere in the name, and of several trailing slashes only one;
    [extname] finds no extension after a leading dot. *)
Example path_defects :
  join_path [bs "usr"; bs "/local"] = bs "usr//local" ∧
  join_path [92 :: bs "a"] = bs "/a" ∧
  normalize (bs "../a") = bs "a" ∧
  resolve_path (Ok (bs "/home")) [bs ".."] = Ok [] ∧
  resolve_path (Ok (bs "/home")) [bs "../a"] = Ok (bs "a") ∧
  basename (bs "a.b.c") (Some (bs ".b")) = bs "a" ∧
  basename (bs "a//") None = [] ∧
  extname (bs ".profile.txt") = [].
Proof. split_and!; vm_compute; reflexivity. Qed.

(** * Instances *)

Ltac comps := repeat (apply Forall_cons; split; [reflexivity|]); apply Forall_nil_2.

Lemma resolve_normalizes_witness :
  resolve_path (Ok (bs "/home/me")) [bs "../you"; bs "./a//b/.."] = Ok (bs "/home/you/a").
Proof.
  apply (resolve_normalizes [bs "me"; bs "home"] [bs "../you"; bs "./a//b/.."]);
    [comps|vm_compute; reflexivity].
Defined.

Lemma relative_resolves_witness :
  ∃ r, relative (Ok (bs "/tmp")) (bs "/a/b/c") (bs "/a/d") = Ok r ∧
       resolve_path (Ok (bs "/tmp")) [bs "/a/b/c"; r] = Ok (bs "/a/d").
Proof.
  apply (relative_resolves [bs "tmp"] [bs "c"; bs "b"; bs "a"] [bs "d"; bs "a"]); comps.
Defined.

Lemma dirname_basename_witness :
  dirname (bs "/usr/lib.so") = bs "/usr" ∧ basename (bs "/usr/lib.so") None = bs "lib.so".
Proof.
  destruct (dirname_basename (bs "lib.so") [bs "usr"]) as (Hd & Hb & _); [comps|]. exact (conj Hd Hb).
Defined.

Lemma format_parse_witness : format (parse (bs "src/lib.rs")) = bs "src/lib.rs".
Proof. apply (format_parse false [bs "src"; bs "lib.rs"]); [comps|done]. Defined.

Lemma join_normalizes_witness :
  join_path [bs "/a/./b"; bs "/../c"] = bs "/a/c" ∧ join_path [bs "x/y"; bs "../z/"] = bs "x/z".
Proof.
  destruct (join_normalizes (bs "/a/./b") [bs "/../c"]) as [Ha _].
  destruct (join_normalizes (bs "x/y") [bs "../z/"]) as [_ Hr].
  split; [apply Ha; reflexivity|apply Hr; [comps|reflexivity]].
Defined.
