(* ===== verification/Resolver.v ===== *)
(** Module resolution
    ([raster_runtime_modules/src/package/resolver.rs], with the extension
    lists of [libs/raster_runtime_utils/src/io.rs] and
    [raster_runtime_modules/src/module/extensions.rs]), POSIX.

    Texts are lists of characters; the functions of [Path], which only look for
    ASCII, apply to them.  The file system, the working directory, the JSON
    parser and the platform name are arguments; so are the extensions that
    JavaScript registered.  The process-wide cache of [node_modules]
    directories is passed from call to call. *)

From S2P Require Import Prelude Unicode Path.

(** * The outside *)

(** A parsed [package.json]; the keys of an object are distinct. *)
Inductive json :=
  | JNull | JBool (b : bool) | JNumber (text : path) | JString (s : path)
  | JArray (l : list json) | JObject (fields : list (path * json)).

(** What the code asks of the file system. [read_link] of what is no link, and
    [read] of what cannot be read, give nothing. *)
Record file_system := mkFs {
  is_file : path → bool;
  is_dir : path → bool;
  exists_ : path → bool;
  read_link : path → option path;
  read : path → option (list Z)
}.

Record env := mkEnv {
  fs : file_system;
  current_dir : res () path;
  home_dir : option path;
  to_borrowed_value : list Z → option json;
  RASTER_RUNTIME_PLATFORM : path;
  (** the names in [require.extensions] whose value is a function *)
  registered : list path
}.

Inductive PackageFormatError := FormatIo (file : path) | InvalidJson (file : path).

(** [Error::Resolving], a thrown package error, and an error of the system. *)
Inductive error := Resolving (base name : path) | Config (e : PackageFormatError) | IoError.

(** [NODE_MODULES_PATHS_CACHE]: no list means no directories above. *)
Notation paths_cache := (gmap path (option (list path))).

(** * Texts *)

Definition has_prefix (p s : path) : bool := bool_decide (take (length p) s = p).
Definition has_suffix (p s : path) : bool := has_prefix (reverse p) (reverse s).

(** [trim_start_matches] and [trim_end_matches] of a non-empty text. *)
Fixpoint trim_start_loop (fuel : nat) (p s : path) : path :=
  match fuel with
  | O => s
  | S fuel => if has_prefix p s then trim_start_loop fuel p (drop (length p) s) else s
  end.
Definition trim_start_matches (p s : path) : path := trim_start_loop (length s) p s.
Definition trim_end_matches (p s : path) : path := reverse (trim_start_matches (reverse p) (reverse s)).

(** [Path::join] with a relative text. *)
Definition path_join (dir name : path) : path :=
  if bool_decide (dir = []) || ends_with_sep dir then dir ++ name else dir ++ [47] ++ name.

(** [str::replace("*", name)]. *)
Definition replace_star (scope name : path) : path := mjoin ((λ c, if c =? 42 then name else [c]) <$> scope).

Definition CJS_IMPORT_PREFIX : path := bs "__cjs:".
Definition CJS_LOADER_PREFIX : path := bs "__cjsm:".

Definition JS_EXTENSIONS : list path := [bs ".js"; bs ".mjs"; bs ".cjs"; bs ".node"].
Definition SUPPORTED_EXTENSIONS : list path := JS_EXTENSIONS ++ [bs ".lrt"].
Definition is_supported_ext (ext : path) : bool := bool_decide (ext ∈ SUPPORTED_EXTENSIONS).

(** The segment boundary [n] from the end: the name after it, the scope before
    it and whether there was none. *)
Fixpoint nth_slash (n : nat) (x : path) (p : nat) : option nat :=
  match n with
  | O => Some p
  | S n => match find_last_sep (take p x) with Some q => nth_slash n x q | None => None end
  end.
Definition get_name_and_scope (x : path) (n : nat) : path * path * bool :=
  match nth_slash n x (length x) with
  | Some pos => (drop (S pos) x, take pos x, false)
  | None => (bs ".", x, true)
  end.

(** [path.rsplit(['/', '\\']).next()], then its last dot. *)
Definition file_extname (p : path) : path :=
  let name := match rfind_pos (λ c, (c =? 47) || (c =? 92)) p with Some i => drop (S i) p | None => p end in
  match rfind_pos (λ c, c =? 46) name with
  | Some O | None => []
  | Some i => drop i name
  end.

(** * Fields of a package *)

Definition get (k : path) (v : json) : option json :=
  match v with
  | JObject fields => snd <$> List.find (λ f, bool_decide (f.1 = k)) fields
  | _ => None
  end.
Definition get_string_field (v : json) (k : path) : option path :=
  match get k v with Some (JString s) => Some s | _ => None end.
Definition get_object (v : json) (k : path) : option json :=
  match get k v with Some (JObject fields) => Some (JObject fields) | _ => None end.
Definition is_exports_field_exists (v : json) : bool := bool_decide (is_Some (get_object v (bs "exports"))).
Definition has_exports_field (v : json) : bool :=
  match get (bs "exports") v with None | Some JNull => false | Some _ => true end.

Definition package_type_field (v : json) (file : path) : res PackageFormatError (option path) :=
  match get (bs "type") v with
  | None => Ok None
  | Some (JString s) => Ok (Some s)
  | Some _ => Err (InvalidJson file)
  end.

(** [continue_on_unresolved] and [continue_on_unresolved_option]. *)
Definition continue_on_unresolved {A} (r : res error A) : res error (option A) :=
  match r with
  | Ok a => Ok (Some a)
  | Err (Resolving _ _) => Ok None
  | Err e => Err e
  | Panic => Panic
  end.
Definition continue_on_unresolved_option {A} (r : res error (option A)) : res error (option A) :=
  match r with
  | Ok a => Ok a
  | Err (Resolving _ _) => Ok None
  | Err e => Err e
  | Panic => Panic
  end.

(** The first alternative that gives something. *)
Definition or_else {A} (a b : option A) : option A := match a with Some _ => a | None => b end.
Infix "<|>" := or_else (at level 60, right associativity).

(** Try one after the other, until one gives a path or fails. *)
Definition or_try {A} (r k : res error (option A)) : res error (option A) :=
  o ← r; match o with Some a => Ok (Some a) | None => k end.
Infix "<||>" := or_try (at level 60, right associativity).

Section Resolver.
Context (E : env).
Notation F := (fs E).

Definition config {A} (r : res PackageFormatError A) : res error A :=
  match r with Ok a => Ok a | Err e => Err (Config e) | Panic => Panic end.
Definition io {A} (r : res () A) : res error A :=
  match r with Ok a => Ok a | Err _ => Err IoError | Panic => Panic end.

Definition to_abs_path (p : path) : res error path :=
  if is_absolute p then Ok (normalize p) else io (resolve_path (current_dir E) [p]).

Definition resolve_extension_candidates : list path :=
  foldl (λ c ext, if decide (ext ∈ c) then c else c ++ [ext]) (registered E) SUPPORTED_EXTENSIONS.
Definition extension_candidates (is_esm : bool) : list path :=
  if is_esm then SUPPORTED_EXTENSIONS else resolve_extension_candidates.

(** * The scope of a package *)

(** [pop] leaves the parent; every turn has a component less. *)
Fixpoint scope_loop (fuel : nat) (dir : path) : option path :=
  match fuel with
  | O => None
  | S fuel =>
      if bool_decide (file_name dir = Some (bs "node_modules")) then None
      else
        let package_json_path := path_join dir (bs "package.json") in
        if is_file F package_json_path then Some package_json_path
        else match parent dir with Some dir => scope_loop fuel dir | None => None end
  end.
Definition find_the_closest_package_scope (start : path) : option path :=
  if is_file F start then
    match parent start with
    | Some dir => if bool_decide (dir = []) then None else scope_loop (S (length (components dir))) dir
    | None => None
    end
  else scope_loop (S (length (components start))) start.

Definition read_package (file : path) : res PackageFormatError json :=
  match read F file with
  | None => Err (FormatIo file)
  | Some bytes =>
      match to_borrowed_value E bytes with Some v => Ok v | None => Err (InvalidJson file) end
  end.
Definition parse_package_json (file : path) : res error json := config (read_package file).

Inductive PackageScopeType := NoScope | Typeless | Module_ | CommonJs.

Definition read_package_scope_type (start : path) : res PackageFormatError PackageScopeType :=
  match find_the_closest_package_scope start with
  | None => Ok NoScope
  | Some file =>
      value ← read_package file;
      type ← package_type_field value file;
      Ok (if decide (type = Some (bs "module")) then Module_
          else if decide (type = Some (bs "commonjs")) then CommonJs
          else Typeless)
  end.

Inductive DetectedFormat := Esm | Cjs (allow_esm_detect : bool).
Definition is_cjs (f : DetectedFormat) : bool := match f with Cjs _ => true | Esm => false end.
Definition allow_esm_loader_fallback (f : DetectedFormat) : bool :=
  match f with Esm => true | Cjs allow_esm_detect => allow_esm_detect end.

Definition detect_file_format (file : path) : res PackageFormatError DetectedFormat :=
  let ext := file_extname file in
  if decide (ext = bs ".mjs") then Ok Esm
  else if decide (ext = bs ".cjs") then Ok (Cjs false)
  else if decide (ext = bs ".js" ∨ ext = []) then
    type ← read_package_scope_type file;
    Ok (match type with Module_ => Esm | CommonJs => Cjs false | NoScope | Typeless => Cjs true end)
  else Ok Esm.

(** * Files and directories *)

(** The package of [x] is read for its [type], which changes no path but may
    be invalid. *)
Definition check_scope (x : path) : res error () :=
  match find_the_closest_package_scope x with
  | None => Ok ()
  | Some file =>
      package_json ← parse_package_json file;
      _ ← config (package_type_field package_json file);
      Ok ()
  end.

(** [base] with the first extension that makes it a file, then [.json].
    The buffer was moved out when [.json] was tried: [.node] never is. *)
Definition load_with_extension (base scope_of : path) (is_esm : bool) : res error (option path) :=
  match List.find (λ ext, is_file F (base ++ ext)) (extension_candidates is_esm) with
  | Some ext => _ ← check_scope scope_of; Ok (Some (base ++ ext))
  | None => if is_file F (base ++ bs ".json") then Ok (Some (base ++ bs ".json")) else Ok None
  end.

Definition load_as_file (x : path) (is_esm : bool) : res error (option path) :=
  if is_file F x then Ok (Some x) else load_with_extension x x is_esm.

Definition load_index (x : path) (is_esm : bool) : res error (option path) :=
  load_with_extension (x ++ bs "/index") x is_esm.

Definition load_as_directory (x : path) (is_esm : bool) : res error (option path) :=
  let file := x ++ bs "/package.json" in
  main ← (if is_file F file then
            package_json ← parse_package_json file; Ok (get_string_field package_json (bs "main"))
          else Ok None);
  match main with
  | Some main =>
      let m := x ++ [47] ++ main in
      continue_on_unresolved_option (load_as_file m is_esm) <||>
      continue_on_unresolved_option (load_index m is_esm) <||>
      Err (Resolving [] x)
  | None => continue_on_unresolved_option (load_index x is_esm)
  end.

Definition correct_extensions (x : path) (is_esm : bool) : path :=
  if is_file F x then x
  else
    let base_path := x ++ (if is_dir F x then bs "/index" else []) in
    match List.find (λ ext, is_file F (base_path ++ ext)) (extension_candidates is_esm) with
    | Some ext => base_path ++ ext
    | None => x
    end.

(** * Exports and imports *)

(** [name -> platform -> ident], [name -> ident -> default],
    [name -> platform], [name -> ident], [name -> default]. *)
Definition conditions (name : json) (ident : path) : option path :=
  (platform ← get_object name (RASTER_RUNTIME_PLATFORM E); get_string_field platform ident) <|>
  (ident ← get_object name ident; get_string_field ident (bs "default")) <|>
  get_string_field name (RASTER_RUNTIME_PLATFORM E) <|>
  get_string_field name ident <|>
  get_string_field name (bs "default").

(** [modules_name.rmatch_indices('/').nth(1)]: the slash before the last; the
    byte where it is is then taken for a number of slashes. *)
Definition wildcard (modules_name : path) : option (path * path) :=
  match nth_slash 2 modules_name (length modules_name) with
  | Some pos =>
      let pos := length (to_utf8 (take pos modules_name)) in
      let '(name, scope, _) := get_name_and_scope modules_name pos in Some (name, scope ++ bs "/*")
  | None => None
  end.

Definition exports_target (exports : json) (modules_name ident : path) (is_esm : bool) : option path :=
  get_string_field exports modules_name <|>
  (name ← get_object exports modules_name; conditions name ident) <|>
  ('(star, scope) ← wildcard modules_name;
   name ← get_object exports scope;
   (λ target, replace_star target star) <$> conditions name ident) <|>
  (ident ← get_object exports ident; get_string_field ident (bs "default")) <|>
  get_string_field exports ident <|>
  (if is_esm then None else get_string_field exports (bs "default")).

(** The target and whether it is CommonJS. *)
Definition package_exports_resolve (package_json : json) (modules_name : path) (is_esm : bool) : path * bool :=
  let ident := if is_esm then bs "import" else bs "require" in
  let modules_name := if decide (modules_name = bs ".") then modules_name else bs "./" ++ modules_name in
  let is_cjs := negb (bool_decide (get_string_field package_json (bs "type") = Some (bs "module"))) in
  let target :=
    (if decide (modules_name = bs ".") then get_string_field package_json (bs "exports") else None) <|>
    (exports ← get_object package_json (bs "exports"); exports_target exports modules_name ident is_esm) <|>
    get_string_field package_json (RASTER_RUNTIME_PLATFORM E) <|>
    (if is_esm then get_string_field package_json (bs "module") else None) <|>
    get_string_field package_json (bs "main") in
  match target with Some target => (target, is_cjs) | None => (bs "./index.js", true) end.

Definition package_imports_resolve (package_json : json) (modules_name : path) : option path :=
  imports ← get_object package_json (bs "imports");
  (name ← get_object imports modules_name;
   get_string_field name (RASTER_RUNTIME_PLATFORM E) <|>
   get_string_field name (bs "require") <|>
   get_string_field name (bs "module-sync") <|>
   get_string_field name (bs "default")) <|>
  get_string_field imports modules_name.

Definition load_package_imports (x dir : path) (is_esm : bool) : res error (option path) :=
  match find_the_closest_package_scope dir with
  | None => Ok None
  | Some file =>
      package_json ← parse_package_json file;
      match package_imports_resolve package_json x with
      | Some module_path =>
          let dir := trim_end_matches (bs "package.json") file in
          module_path ← to_abs_path (correct_extensions (dir ++ module_path) is_esm);
          Ok (Some module_path)
      | None => Ok None
      end
  end.

(** The first split of [x] that satisfies [found], or the last one.  There is
    one more split than slashes. *)
Fixpoint split_loop (fuel : nat) (x : path) (found : path → bool) (n : nat) : path * path * bool :=
  let '(name, scope, is_last) := get_name_and_scope x n in
  match fuel with
  | O => (name, scope, found scope)
  | S fuel => if found scope || is_last then (name, scope, found scope) else split_loop fuel x found (n + 1)
  end.
Definition split_name (x : path) (found : path → bool) : path * path * bool := split_loop (length x) x found 1.

(** A file of the package with one of the extensions, and the extension. *)
Definition sub_module_of (dir scope name : path) : option (path * path) :=
  let trimmed_name := trim_start_matches (bs ".") name in
  let base := dir ++ [47] ++ scope ++ (if decide (trimmed_name = []) then [] else [47]) ++ trimmed_name in
  (λ ext, (base ++ ext, ext)) <$> List.find (λ ext, exists_ F (base ++ ext)) JS_EXTENSIONS.

(** A module that is CommonJS, for [import]. *)
Definition as_cjs (is_esm : bool) (module_path : path) : path :=
  if is_esm then CJS_LOADER_PREFIX ++ module_path else module_path.

(** The package [dir/scope] of the split [scope], [name] of [x]. *)
Definition package_entry (x dir scope name : path) (sub_module : option path) (is_esm : bool) : res error path :=
  let file := dir ++ [47] ++ scope ++ bs "/package.json" in
  if negb (is_file F file) then Err (Resolving dir x)
  else
    package_json ← parse_package_json file;
    match sub_module with
    | Some sub_module =>
        if decide (get_string_field package_json (bs "type") = Some (bs "module")) then Ok sub_module
        else sub_module ← to_abs_path sub_module; Ok (as_cjs is_esm sub_module)
    | None =>
        if negb (bool_decide (name = bs ".")) && negb (has_exports_field package_json)
        then Err (Resolving dir x)
        else
          let '(module_path, is_cjs) := package_exports_resolve package_json name is_esm in
          module_path ← to_abs_path (correct_extensions (dir ++ [47] ++ scope ++ [47] ++ module_path) is_esm);
          Ok (if is_cjs then as_cjs is_esm module_path else module_path)
    end.

Definition load_package_exports (x dir : path) (is_esm : bool) : res error path :=
  let package_of scope := dir ++ [47] ++ scope ++ bs "/package.json" in
  let '(name, scope, package_json_exists) := split_name x (λ scope, exists_ F (package_of scope)) in
  if package_json_exists then
    match sub_module_of dir scope name with
    | Some (sub_module, ext) =>
        if decide (ext = bs ".mjs") then Ok sub_module
        else package_entry x dir scope name (Some sub_module) is_esm
    | None => package_entry x dir scope name None is_esm
    end
  else if bool_decide (name = bs ".") || negb (exists_ F (package_of x)) then Err (Resolving dir x)
  else package_entry x dir x (bs ".") None is_esm.

Definition load_package_self (x dir : path) (is_esm : bool) : res error (option path) :=
  match find_the_closest_package_scope dir with
  | None => Ok None
  | Some file =>
      package_json ← parse_package_json file;
      let '(name, _, found) := split_name x (λ scope,
        is_exports_field_exists package_json &&
        bool_decide (get_string_field package_json (bs "name") = Some scope)) in
      if found then
        let target := (package_exports_resolve package_json name is_esm).1 in
        Ok (Some (correct_extensions (trim_end_matches (bs "package.json") file ++ target) is_esm))
      else Ok None
  end.

(** * [node_modules] *)

Definition NM_CHARS : list Z := bs "seludom_edon".

(** The characters of [from] before [i], backwards: [last] is where the last
    separator was, [p] how much of [NM_CHARS] the segment matched, -1 when it
    did not.  A character is compared by its low byte. *)
Fixpoint nm_scan (from : path) (i last : nat) (p : Z) (paths : list path) : list path :=
  match i with
  | O => paths
  | S i =>
      let code := default 0 (from !! i) in
      if code =? 47 then
        nm_scan from i i 0 (if p =? 12 then paths else paths ++ [take last from ++ bs "/node_modules"])
      else
        nm_scan from i last
          (if p =? -1 then p
           else if decide (NM_CHARS !! Z.to_nat p = Some (code mod 256)) then p + 1 else -1) paths
  end.

Definition node_module_paths (from : path) : res error (list path) :=
  from ← (if is_absolute from then Ok (replace_backslash from) else io (resolve_path (current_dir E) [from]));
  if decide (from = [47]) then Ok [bs "/node_modules"]
  else Ok (nm_scan from (length from) (length from) 0 [] ++ [bs "/node_modules"]).

(** [dir] and its parents, up to one that is cached: the directories found, the
    index of the last that counts and the paths on the way. *)
Fixpoint collect_loop (fuel : nat) (cache : paths_cache) (dir : path) (i : nat)
    (results : list path) (last_found_index : nat) (paths_to_cache : list path) :
    list path * nat * list path :=
  match fuel with
  | O => (results, last_found_index, paths_to_cache)
  | S fuel =>
      match cache !! dir with
      | Some dirs => (results ++ default [] dirs, i, paths_to_cache)
      | None =>
          let node_modules := path_join dir (bs "node_modules") in
          let found := match file_name dir with
            | Some name => bool_decide (name ≠ bs "node_modules") && is_dir F node_modules
            | None => false
            end in
          let results := if found then results ++ [node_modules] else results in
          let last_found_index := if found then i else last_found_index in
          let paths_to_cache := paths_to_cache ++ [dir] in
          match parent dir with
          | Some dir => collect_loop fuel cache dir (i + 1) results last_found_index paths_to_cache
          | None => (results, last_found_index, paths_to_cache)
          end
      end
  end.

(** Up to [last_found_index] the paths get all results, the next one gets
    none and the others nothing. *)
Fixpoint cache_paths (cache : paths_cache) (results : list path) (last_found_index i : nat) (ps : list path) :
    paths_cache :=
  match ps with
  | [] => cache
  | p :: ps =>
      if (i <=? last_found_index)%nat then cache_paths (<[p := Some results]> cache) results last_found_index (i + 1) ps
      else <[p := None]> cache
  end.

Definition collect_node_modules_paths (start : path) (cache : paths_cache) : list path * paths_cache :=
  match cache !! start with
  | Some (Some dirs) => (dirs, cache)
  | _ =>
      let '(results, last_found_index, paths_to_cache) :=
        collect_loop (S (length (components start))) cache start 0 [] 0 [] in
      (results, cache_paths cache results last_found_index 0 paths_to_cache)
  end.

Definition HOME_NODE_MODULES : list path :=
  match home_dir E with
  | Some home => filter (λ d, is_dir F d = true) [path_join home (bs ".node_modules"); path_join home (bs ".node_libraries")]
  | None => []
  end.

Definition search_node_modules_dir (dir x : path) (is_esm : bool) : res error (option path) :=
  continue_on_unresolved (load_package_exports x dir is_esm) <||>
  continue_on_unresolved_option (load_as_file (dir ++ [47] ++ x) is_esm) <||>
  continue_on_unresolved_option (load_as_directory (dir ++ [47] ++ x) is_esm).

Fixpoint load_from_search_paths (x : path) (search_paths : list path) (is_esm : bool) : res error (option path) :=
  match search_paths with
  | [] => Ok None
  | dir :: dirs => search_node_modules_dir dir x is_esm <||> load_from_search_paths x dirs is_esm
  end.

Definition load_node_modules (x start : path) (is_esm : bool) (cache : paths_cache) :
    res error (option path) * paths_cache :=
  let '(results, cache) := collect_node_modules_paths start cache in
  (load_from_search_paths x results is_esm <||> load_from_search_paths x HOME_NODE_MODULES is_esm, cache).

(** * [require.resolve] *)

(** Step 3 for one [Y + X]. *)
Definition load_path (y_plus_x : path) (is_esm : bool) : res error (option path) :=
  continue_on_unresolved_option (load_as_file y_plus_x is_esm) <||>
  continue_on_unresolved_option (load_as_directory y_plus_x is_esm).

Fixpoint load_paths (l : list path) (is_esm : bool) : res error (option path) :=
  match l with [] => Ok None | p :: l => load_path p is_esm <||> load_paths l is_esm end.

(** A path, that is, not a bare name. *)
Definition is_path (x : path) : bool := has_prefix (bs "./") x || is_absolute x || has_prefix (bs "..") x.

Definition resolve_file (x y dirname_y : path) (is_esm : bool) (options_paths : option (list path)) :
    res error path :=
  let suffix := if has_prefix (bs "./") x then drop 2 x else x in
  let candidates := match options_paths with
    | Some paths => if is_absolute x then [] else (λ base, base ++ [47] ++ suffix) <$> paths
    | None => []
    end in
  let y_plus_x := if is_absolute x then x else dirname_y ++ [47] ++ suffix in
  found ← load_paths (candidates ++ [y_plus_x]) is_esm;
  match found with
  | Some file => to_abs_path file
  | None => Err (Resolving y x)
  end.

Definition all_search_paths (paths : list path) : list path :=
  mjoin ((λ p, match node_module_paths p with Ok l => l | _ => [] end) <$> paths).

(** Steps 4 to 7. *)
Definition resolve_bare (x y dirname_y : path) (is_esm : bool) (options_paths : option (list path))
    (cache : paths_cache) : res error path * paths_cache :=
  let imports := if has_prefix [35] x
    then continue_on_unresolved_option (load_package_imports x dirname_y is_esm) else Ok None in
  let self :=
    found ← continue_on_unresolved_option (load_package_self x dirname_y is_esm);
    match found with Some file => file ← to_abs_path file; Ok (Some file) | None => Ok None end in
  let last := match load_as_file x is_esm with
    | Ok (Some file) => to_abs_path file
    | _ => Err (Resolving y x)
    end in
  let or_last r := found ← r; match found with Some p => Ok p | None => last end in
  match imports <||> self with
  | Ok None =>
      match options_paths with
      | Some paths => (or_last (load_from_search_paths x (all_search_paths paths) is_esm), cache)
      | None => let '(r, cache) := load_node_modules x dirname_y is_esm cache in (or_last r, cache)
      end
  | r => (or_last r, cache)
  end.

(** The specifier without scheme and, for a bare name, without trailing
    slashes. *)
Definition trim_specifier (x : path) : path :=
  let x := trim_start_matches (bs "file://") x in
  if has_prefix [46] x || is_absolute x then x else trim_end_matches [47] x.

(** A file of the working directory with a supported extension. *)
Definition file_exists_path (x : path) : option path :=
  if is_supported_ext (name_extname x).2 then
    if is_file F x then Some x
    else if negb (has_prefix (bs "..") x) && is_file F (normalize x) then Some (normalize x)
    else None
  else None.

Definition require_resolve_with_options (x y : path) (hooked_fn : option (path → path → option path))
    (is_esm : bool) (options_paths : option (list path)) (cache : paths_cache) :
    res error path * paths_cache :=
  let x := trim_specifier x in
  let y := match read_link F y with
    | Some p => if is_absolute p then p else y ++ bs "/../" ++ p
    | None => y
    end in
  match (f ← hooked_fn; f x y) with
  | Some p => (Ok p, cache)
  | None =>
      match file_exists_path x with
      | Some file => (to_abs_path file, cache)
      | None =>
          let y := if is_absolute x then [47] else y in
          match io (resolve_path (current_dir E) [if is_dir F y then y else dirname y]) with
          | Ok dirname_y =>
              if is_path x then (resolve_file x y dirname_y is_esm options_paths, cache)
              else resolve_bare x y dirname_y is_esm options_paths cache
          | Err e => (Err e, cache)
          | Panic => (Panic, cache)
          end
      end
  end.

(** [PackageResolver::resolve], for [import]. *)
Definition resolver_resolve (base name : path) (cache : paths_cache) : res error path * paths_cache :=
  if has_prefix CJS_IMPORT_PREFIX name then (Ok name, cache)
  else require_resolve_with_options name (trim_start_matches CJS_IMPORT_PREFIX base) None true None cache.
End Resolver.
