(* ===== verification/ResolverProofs.v ===== *)
(** Correctness of module resolution: a path specifier is resolved to the
    first file of Node's list of candidates, the directories searched and the
    scope of a package are those of the documented algorithms. *)

From S2P Require Import Prelude Unicode Path Resolver.

Lemma find_map {A B} (f : A → B) (P : B → bool) l : List.find P (f <$> l) = f <$> List.find (λ x, P (f x)) l.
Proof. induction l as [|x l IH]; [done|]. simpl. by destruct (P (f x)). Qed.
Lemma find_app {A} (P : A → bool) l k : List.find P (l ++ k) = List.find P l <|> List.find P k.
Proof. induction l as [|x l IH]; [done|]. simpl. by destruct (P x). Qed.

Lemma or_try_ok {A} (a b : option A) : Ok a <||> Ok b = Ok (a <|> b).
Proof. by destruct a. Qed.

Section Files.
Context (E : env).
Notation F := (fs E).

(** * Candidates *)

(** The files tried for [base] by extension, for a file and for a directory. *)
Definition with_extensions (base : path) (is_esm : bool) : list path :=
  (λ ext, base ++ ext) <$> extension_candidates E is_esm ++ [bs ".json"].
Definition file_candidates (x : path) (is_esm : bool) : list path := x :: with_extensions x is_esm.
Definition main_of (x : path) : option path :=
  if is_file F (x ++ bs "/package.json") then
    match read_package E (x ++ bs "/package.json") with
    | Ok v => get_string_field v (bs "main")
    | _ => None
    end
  else None.
Definition directory_candidates (x : path) (is_esm : bool) : list path :=
  match main_of x with
  | Some main =>
      let m := x ++ [47] ++ main in file_candidates m is_esm ++ with_extensions (m ++ bs "/index") is_esm
  | None => with_extensions (x ++ bs "/index") is_esm
  end.
Definition candidates (x : path) (is_esm : bool) : list path := file_candidates x is_esm ++ directory_candidates x is_esm.

(** Every [package.json] can be read and its [type] is a string. *)
Definition packages_ok : Prop :=
  ∀ dir, let file := dir ++ bs "package.json" in
    is_file F file = true → ∃ v t, read_package E file = Ok v ∧ package_type_field v file = Ok t.

Lemma scope_loop_file fuel dir file :
  scope_loop E fuel dir = Some file → is_file F file = true ∧ ∃ d, file = d ++ bs "package.json".
Proof.
  revert dir. induction fuel as [|fuel IH]; intros dir; [done|]. cbn [scope_loop].
  case_bool_decide; [done|]. destruct (is_file F (path_join dir (bs "package.json"))) eqn:Hf.
  - intros [= <-]. split; [done|]. unfold path_join. case_match; [by eexists|].
    exists (dir ++ [47]). by rewrite <- (assoc_L (++)).
  - destruct (parent dir); [apply IH|done].
Qed.

Lemma closest_scope_file start file :
  find_the_closest_package_scope E start = Some file →
  is_file F file = true ∧ ∃ d, file = d ++ bs "package.json".
Proof.
  unfold find_the_closest_package_scope. repeat case_match; try done; apply scope_loop_file.
Qed.

Lemma check_scope_ok x : packages_ok → check_scope E x = Ok ().
Proof.
  intros Hp. unfold check_scope. destruct (find_the_closest_package_scope E x) as [file|] eqn:Hs; [|done].
  destruct (closest_scope_file _ _ Hs) as [Hf [d ->]]. destruct (Hp d Hf) as (v & t & Hr & Ht).
  unfold parse_package_json. rewrite Hr. cbn [config]. by rewrite bind_ok, Ht.
Qed.

Lemma load_with_extension_ok base scope_of is_esm :
  packages_ok →
  load_with_extension E base scope_of is_esm = Ok (List.find (is_file F) (with_extensions base is_esm)).
Proof.
  intros Hp. unfold load_with_extension, with_extensions. rewrite find_map, find_app.
  destruct (List.find _ _) as [ext|]; [by rewrite check_scope_ok by done|]. simpl. by destruct (is_file F _).
Qed.

Lemma load_as_file_ok x is_esm :
  packages_ok → load_as_file E x is_esm = Ok (List.find (is_file F) (file_candidates x is_esm)).
Proof. intros Hp. unfold load_as_file. simpl. destruct (is_file F x); [done|]. by apply load_with_extension_ok. Qed.

Lemma load_as_directory_ok x is_esm :
  packages_ok →
  continue_on_unresolved_option (load_as_directory E x is_esm) =
  Ok (List.find (is_file F) (directory_candidates x is_esm)).
Proof.
  intros Hp. unfold load_as_directory, directory_candidates, main_of.
  destruct (is_file F (x ++ bs "/package.json")) eqn:Hf.
  2: { rewrite bind_ok. unfold load_index. by rewrite load_with_extension_ok. }
  replace (x ++ bs "/package.json") with ((x ++ [47]) ++ bs "package.json") in * by (by rewrite <- (assoc_L (++))).
  destruct (Hp (x ++ [47]) Hf) as (v & t & Hr & _). unfold parse_package_json. rewrite Hr. cbn [config].
  rewrite bind_ok, bind_ok. unfold load_index. cbn zeta.
  destruct (get_string_field v (bs "main")) as [main|]; [|by rewrite load_with_extension_ok].
  rewrite load_as_file_ok, load_with_extension_ok by done. rewrite find_app. cbn [continue_on_unresolved_option].
  by destruct (List.find _ (file_candidates _ _)); [|destruct (List.find _ (with_extensions _ _))].
Qed.

Lemma load_path_ok x is_esm :
  packages_ok → load_path E x is_esm = Ok (List.find (is_file F) (candidates x is_esm)).
Proof.
  intros Hp. unfold load_path, candidates. rewrite load_as_file_ok, load_as_directory_ok by done.
  cbn [continue_on_unresolved_option]. by rewrite or_try_ok, find_app.
Qed.

Lemma load_paths_ok l is_esm :
  packages_ok →
  load_paths E l is_esm = Ok (List.find (is_file F) (mjoin ((λ x, candidates x is_esm) <$> l))).
Proof.
  intros Hp. induction l as [|x l IH]; [done|]. cbn [load_paths fmap list_fmap mjoin list_join].
  by rewrite load_path_ok, IH, or_try_ok, find_app by done.
Qed.

(** * Soundness *)

(** What is found is a file, whatever the packages. *)
Definition gives_file (r : res error (option path)) : Prop := ∀ f, r = Ok (Some f) → is_file F f = true.

Lemma or_try_file r k : gives_file r → gives_file k → gives_file (r <||> k).
Proof. intros Hr Hk f. destruct r as [[g|]| |]; simpl; try done; [intros [= ->]; by apply Hr|apply Hk]. Qed.
Lemma continue_file r : gives_file r → gives_file (continue_on_unresolved_option r).
Proof. intros Hr f. destruct r as [o|[]|]; simpl; try done. apply Hr. Qed.

Lemma load_with_extension_file base scope_of is_esm : gives_file (load_with_extension E base scope_of is_esm).
Proof.
  intros f. unfold load_with_extension. destruct (List.find _ _) as [ext|] eqn:Hext.
  - destruct (check_scope E scope_of); simpl; [|done..]. intros [= <-]. by apply List.find_some in Hext as [_ ?].
  - destruct (is_file F (base ++ bs ".json")) eqn:Hj; [|done]. by intros [= <-].
Qed.
Lemma load_as_file_file x is_esm : gives_file (load_as_file E x is_esm).
Proof.
  unfold load_as_file. destruct (is_file F x) eqn:Hx; [by intros f [= <-]|apply load_with_extension_file].
Qed.
Lemma load_as_directory_file x is_esm : gives_file (load_as_directory E x is_esm).
Proof.
  intros f. unfold load_as_directory. destruct (if is_file F _ then _ else _) as [[main|]| |]; [..|done|done]; rewrite bind_ok.
  - apply or_try_file; [|apply or_try_file]; [apply continue_file, load_as_file_file|
      apply continue_file, load_with_extension_file|done].
  - apply continue_file, load_with_extension_file.
Qed.
Lemma load_paths_file l is_esm : gives_file (load_paths E l is_esm).
Proof.
  induction l as [|x l IH]; [done|]. apply or_try_file; [|done].
  apply or_try_file; apply continue_file; [apply load_as_file_file|apply load_as_directory_file].
Qed.
End Files.

(** * Directories *)

Lemma render_parent c st :
  comps_ok (c :: st) →
  parent (render (c :: st)) = Some (render st) ∧ file_name (render (c :: st)) = Some c.
Proof.
  intros Hok. pose proof (parent_text true (reverse st) c) as Hp. rewrite <- reverse_cons in Hp.
  apply Hp. by apply Forall_reverse.
Qed.
Lemma spans_length cs pos : length (spans pos cs) = length cs.
Proof. revert pos. induction cs as [|c cs IH]; intros pos; [done|]. cbn [spans length]. by rewrite IH. Qed.
Lemma render_components st : comps_ok st → length (components (render st)) = S (length st).
Proof.
  intros Hok. destruct st as [|c st]; [done|]. change (render (c :: st)) with (path_text true (reverse (c :: st))).
  rewrite components_text.
  - change (length (?x :: ?l)) with (S (length l)) at 1. by rewrite spans_length, length_reverse.
  - by apply Forall_reverse.
  - rewrite reverse_cons. by destruct (reverse st).
Qed.

(** [name] in the directory [st]. *)
Definition entry (name : path) (st : list path) : path := render (name :: st).
Lemma path_join_render st name : comps_ok st → path_join (render st) name = entry name st.
Proof.
  intros Hok. unfold path_join, entry. rewrite render_ends by done. rewrite (bool_decide_eq_false_2 (render st = [])) by done.
  cbn [orb]. rewrite render_cons. by destruct st as [|d st]; rewrite ?bool_decide_eq_true_2, ?bool_decide_eq_false_2 by done.
Qed.

Section Directories.
Context (E : env).
Notation F := (fs E).

(** The closest [package.json], not looking into or beyond [node_modules]. *)
Fixpoint scope_ref (st : list path) : option path :=
  match st with
  | c :: st' =>
      if decide (c = bs "node_modules") then None
      else if is_file F (entry (bs "package.json") st) then Some (entry (bs "package.json") st) else scope_ref st'
  | [] => if is_file F (bs "/package.json") then Some (bs "/package.json") else None
  end.

Lemma scope_loop_ok st fuel : comps_ok st → (length st < fuel)%nat → scope_loop E fuel (render st) = scope_ref st.
Proof.
  intros Hok. revert fuel. induction st as [|c st IH]; intros [|fuel] Hf; try (simpl in Hf; lia).
  - cbn [scope_loop]. by destruct (is_file F (path_join (render []) (bs "package.json"))) eqn:E1;
      cbn [scope_ref]; change (bs "/package.json") with (path_join (render []) (bs "package.json")); rewrite E1.
  - destruct (render_parent c st Hok) as [Hp Hn]. cbn [scope_loop scope_ref].
    rewrite Hn, Hp, path_join_render by done. destruct (decide (c = bs "node_modules")) as [->|Hne].
    + by rewrite bool_decide_eq_true_2.
    + rewrite bool_decide_eq_false_2 by congruence. case_match; [done|].
      apply IH; [by apply Forall_cons_1 in Hok as [_ ?]|simpl in Hf; lia].
Qed.

Lemma closest_scope_dir st :
  comps_ok st → is_file F (render st) = false → find_the_closest_package_scope E (render st) = scope_ref st.
Proof.
  intros Hok Hf. unfold find_the_closest_package_scope. rewrite Hf.
  apply scope_loop_ok; [done|]. rewrite render_components by done. lia.
Qed.
Lemma closest_scope_of_file c st :
  comps_ok (c :: st) → is_file F (render (c :: st)) = true →
  find_the_closest_package_scope E (render (c :: st)) = scope_ref st.
Proof.
  intros Hok Hf. destruct (render_parent c st Hok) as [Hp _]. apply Forall_cons_1 in Hok as [_ Hok].
  unfold find_the_closest_package_scope. rewrite Hf, Hp.
  rewrite bool_decide_eq_false_2 by done. apply scope_loop_ok; [done|]. rewrite render_components by done. lia.
Qed.

(** * [node_modules] *)

(** The directory and its parents, but not the root, from the inside. *)
Fixpoint ancestors (st : list path) : list (list path) :=
  match st with [] => [] | _ :: st' => st :: ancestors st' end.
Definition searched (st : list path) : list path :=
  entry (bs "node_modules") <$> filter (λ d, head d ≠ Some (bs "node_modules")) (ancestors st).

Lemma searched_cons c st :
  searched (c :: st) = (if decide (c = bs "node_modules") then [] else [entry (bs "node_modules") (c :: st)]) ++ searched st.
Proof.
  unfold searched. cbn [ancestors]. rewrite filter_cons. cbn [head].
  destruct (decide (c = bs "node_modules")) as [->|Hc]; [by rewrite decide_False by naive_solver|].
  by rewrite decide_True by congruence.
Qed.

(** A segment read backwards: how much of [NM_CHARS] it matched. *)
Definition nm_step (p code : Z) : Z :=
  if p =? -1 then p else if decide (NM_CHARS !! Z.to_nat p = Some (code mod 256)) then p + 1 else -1.

Lemma nm_step_none l : foldl nm_step (-1) l = -1.
Proof. by induction l. Qed.

Lemma nm_segment l (p : nat) :
  Forall (λ c, 0 ≤ c < 256) l → (p ≤ 12)%nat →
  foldl nm_step (Z.of_nat p) l = 12 ↔ l = drop p NM_CHARS.
Proof.
  intros Hl. revert p. induction Hl as [|c l Hc Hl IH]; intros p Hp; cbn [foldl].
  - split; [intros E0; assert (p = 12)%nat as -> by lia; done|].
    intros Hd. apply (f_equal length) in Hd. rewrite length_drop in Hd. simpl in Hd. lia.
  - unfold nm_step at 2. rewrite (proj2 (Z.eqb_neq _ _)) by lia. rewrite Nat2Z.id, Z.mod_small by lia.
    destruct (decide (NM_CHARS !! p = Some c)) as [Hx|Hx].
    + assert (p < 12)%nat by (apply lookup_lt_Some in Hx; exact Hx).
      replace (Z.of_nat p + 1) with (Z.of_nat (S p)) by lia. rewrite IH by lia. rewrite (drop_S _ _ _ Hx). naive_solver.
    + rewrite nm_step_none. split; [done|]. intros Hd. exfalso. apply Hx.
      replace p with (p + 0)%nat by lia. rewrite <- lookup_drop. by rewrite <- Hd.
Qed.

Lemma nm_scan_segment pre c rest acc last :
  no_sep c →
  ∀ k p, (k ≤ length c)%nat →
  nm_scan (pre ++ 47 :: c ++ rest) (S (length pre) + k) last p acc =
  nm_scan (pre ++ 47 :: c ++ rest) (S (length pre)) last (foldl nm_step p (reverse (take k c))) acc.
Proof.
  intros Hc k. induction k as [|k IH]; intros p Hk; [by rewrite Nat.add_0_r|].
  destruct (lookup_lt_is_Some_2 c k ltac:(lia)) as [x Hx].
  replace (S (length pre) + S k)%nat with (S (S (length pre) + k)) by lia. cbn [nm_scan].
  assert (Hlook : (pre ++ 47 :: c ++ rest) !! (S (length pre) + k)%nat = Some x).
  { rewrite lookup_app_r by lia. replace (S (length pre) + k - length pre)%nat with (S k) by lia. simpl.
    rewrite lookup_app_l by lia. done. }
  rewrite Hlook. change (default 0 (Some x)) with x.
  assert (x ≠ 47) by (intros ->; by apply (Forall_lookup_1 _ _ _ _ Hc) in Hx).
  rewrite (proj2 (Z.eqb_neq x 47)) by done. fold (nm_step p x). rewrite IH by lia.
  rewrite (take_S_r _ _ _ Hx), reverse_snoc. done.
Qed.

(** Characters whose low byte tells them apart, and no backslash. *)
Definition plain (c : path) : Prop := Forall (λ b, 0 ≤ b < 256 ∧ b ≠ 92) c.

Lemma nm_matches c : plain c → foldl nm_step 0 (reverse c) = 12 ↔ c = bs "node_modules".
Proof.
  intros Hc. rewrite (nm_segment _ 0) by (lia || (apply Forall_reverse; eapply Forall_impl; [exact Hc|]; naive_solver)).
  split; [|by intros ->]. intros Hr. apply (f_equal reverse) in Hr. by rewrite reverse_involutive in Hr.
Qed.

Lemma nm_scan_ok st rest acc :
  comps_ok st → Forall plain st → st ≠ [] →
  nm_scan (render st ++ rest) (length (render st)) (length (render st)) 0 acc = acc ++ searched st.
Proof.
  revert rest acc. induction st as [|c st IH]; intros rest acc Hok Hp Hst; [done|clear Hst].
  destruct (render_comp c st Hok) as (Hs & Hne & pre & Hr & Hpre).
  apply Forall_cons_1 in Hok as [Hc Hok]. apply Forall_cons_1 in Hp as [Hpc Hp].
  set (last := length (render (c :: st))). rewrite Hr. change MAIN_SEPARATOR with 47.
  rewrite <- (assoc_L (++)). cbn [app].
  assert (Hlen : last = (S (length pre) + length c)%nat).
  { unfold last. rewrite Hr, length_app. cbn [length]. lia. }
  assert (Htake : take last (pre ++ 47 :: c ++ rest) = render (c :: st)).
  { rewrite Hlen, Hr. replace (pre ++ 47 :: c ++ rest) with ((pre ++ 47 :: c) ++ rest) by (by rewrite <- (assoc_L (++))).
    rewrite take_app_length'; [done|]. rewrite length_app. simpl. lia. }
  rewrite Hlen at 1. rewrite nm_scan_segment by (done || lia). rewrite firstn_all. cbn [nm_scan].
  rewrite lookup_app_r, Nat.sub_diag by lia. cbn [lookup list_lookup]. change (default 0 (Some 47)) with 47.
  rewrite Z.eqb_refl, Htake, searched_cons, (assoc_L (++)).
  assert (Hacc : (if foldl nm_step 0 (reverse c) =? 12 then acc else acc ++ [render (c :: st) ++ bs "/node_modules"]) =
    acc ++ (if decide (c = bs "node_modules") then [] else [entry (bs "node_modules") (c :: st)])).
  { destruct (decide (c = bs "node_modules")) as [Hcn|Hcn].
    - by rewrite (proj2 (nm_matches c Hpc) Hcn), app_nil_r.
    - destruct (Z.eqb_spec (foldl nm_step 0 (reverse c)) 12) as [E12|_]; [by apply nm_matches in E12|].
      unfold entry. by rewrite (render_cons (bs "node_modules")). }
  rewrite Hacc, Hpre. case_bool_decide as Hst; [by subst; rewrite app_nil_r|].
  by apply IH.
Qed.

Lemma replace_backslash_plain st : Forall plain st → replace_backslash (render st) = render st.
Proof.
  intros Hp. unfold replace_backslash, render. cbn [fmap list_fmap]. f_equal.
  assert (Hj : Forall (λ b, b ≠ 92) (join_with (reverse st))).
  { apply Forall_reverse in Hp. induction Hp as [|c l Hc Hl IH]; [constructor|].
    assert (Hc' : Forall (λ b, b ≠ 92) c) by (eapply Forall_impl; [exact Hc|]; naive_solver).
    destruct l; [done|]. cbn [join_with]. apply Forall_app. split; [done|]. constructor; [done|exact IH]. }
  induction Hj as [|b l Hb Hl IH]; [done|]. cbn [fmap list_fmap]. rewrite (proj2 (Z.eqb_neq b 92)) by done. by f_equal.
Qed.

Lemma node_module_paths_ok st :
  comps_ok st → Forall plain st →
  node_module_paths E (render st) = Ok (searched st ++ [bs "/node_modules"]).
Proof.
  intros Hok Hp. unfold node_module_paths. change (is_absolute (render st)) with true. cbn match.
  rewrite bind_ok, replace_backslash_plain by done. destruct st as [|c st]; [done|].
  rewrite decide_False.
  - rewrite <- (app_nil_r (render (c :: st))) at 1. by rewrite nm_scan_ok.
  - destruct (render_comp c st Hok) as (_ & Hne & pre & -> & _). destruct pre as [|? [|]], c; done.
Qed.

(** ** The directories that exist *)

Definition existing (st : list path) : list path := filter (λ d, is_dir F d = true) (searched st).

Lemma existing_cons c st :
  comps_ok (c :: st) →
  existing (c :: st) =
  (if bool_decide (c ≠ bs "node_modules") && is_dir F (entry (bs "node_modules") (c :: st))
   then [entry (bs "node_modules") (c :: st)] else []) ++ existing st.
Proof.
  intros Hok. unfold existing. rewrite searched_cons, filter_app. f_equal.
  destruct (decide (c = bs "node_modules")) as [->|Hc]; [done|]. rewrite bool_decide_eq_true_2 by done. cbn [andb].
  rewrite filter_cons. by destruct (is_dir F _) eqn:Hd; [rewrite decide_True|rewrite decide_False by congruence].
Qed.

Lemma collect_loop_ok st fuel i results last_found to_cache :
  comps_ok st → (length st < fuel)%nat →
  (collect_loop E fuel ∅ (render st) i results last_found to_cache).1.1 = results ++ existing st.
Proof.
  intros Hok. revert fuel i results last_found to_cache.
  induction st as [|c st IH]; intros [|fuel] i results last_found to_cache Hf; try (simpl in Hf; lia).
  - cbn [collect_loop]. rewrite lookup_empty. by rewrite app_nil_r.
  - destruct (render_parent c st Hok) as [Hp Hn]. cbn [collect_loop]. rewrite lookup_empty, Hn, Hp, path_join_render by done.
    rewrite existing_cons by done. apply Forall_cons_1 in Hok as [_ Hok]. rewrite IH by (done || (simpl in Hf; lia)).
    case_match; [by rewrite <- (assoc_L (++))|done].
Qed.

Lemma collect_ok st : comps_ok st → (collect_node_modules_paths E (render st) ∅).1 = existing st.
Proof.
  intros Hok. unfold collect_node_modules_paths. rewrite lookup_empty.
  destruct (collect_loop E _ ∅ (render st) 0 [] 0 []) as [[results last_found] to_cache] eqn:Hc. cbn [fst].
  change results with (results, last_found, to_cache).1.1. rewrite <- Hc.
  apply (collect_loop_ok _ _ _ []); [done|]. rewrite render_components by done. lia.
Qed.
End Directories.

(** * Resolution *)

Section Resolution.
Context (E : env).
Notation F := (fs E).

Lemma resolve_dir cwd d :
  comps_ok cwd → comps_ok d → resolve_path (Ok (render cwd)) [render d] = Ok (render d).
Proof.
  intros Hcwd Hd. rewrite resolve_ok by (done || by apply stays_absolute). cbn [foldl]. do 2 f_equal.
  by apply norm_render.
Qed.

(** The candidates of the documented algorithm, for the specifier [x] of a
    module in [dir]: below the given paths first, then below [dir]. *)
Definition node_candidates (x dir : path) (options_paths : option (list path)) (is_esm : bool) : list path :=
  if is_absolute x then candidates E x is_esm
  else
    let suffix := if has_prefix (bs "./") x then drop 2 x else x in
    mjoin ((λ base, candidates E (base ++ [47] ++ suffix) is_esm) <$> default [] options_paths ++ [dir]).

Lemma resolve_file_ok x y dir is_esm options_paths :
  packages_ok E →
  resolve_file E x y dir is_esm options_paths =
  match List.find (is_file F) (node_candidates x dir options_paths is_esm) with
  | Some f => to_abs_path E f
  | None => Err (Resolving y x)
  end.
Proof.
  intros Hp. unfold resolve_file, node_candidates. rewrite load_paths_ok, bind_ok by done.
  destruct (is_absolute x) eqn:Hx.
  - replace (match options_paths with Some _ => [] | None => [] end) with (@nil path) by (by destruct options_paths).
    cbn [app fmap list_fmap mjoin list_join]. by rewrite app_nil_r.
  - set (suffix := if has_prefix (bs "./") x then drop 2 x else x).
    replace (match options_paths with Some paths => (λ base, base ++ [47] ++ suffix) <$> paths | None => [] end ++
             [dir ++ [47] ++ suffix])
      with ((λ base, base ++ [47] ++ suffix) <$> default [] options_paths ++ [dir])
      by (destruct options_paths; simpl; by rewrite ?fmap_app).
    by rewrite <- list_fmap_compose.
Qed.

(** C19. A path specifier of a module file is resolved as documented: to the
    first file of the list of candidates (the path itself, with each extension,
    [main] of its package, the index), below the [paths] option and then below
    the directory of the module, as an absolute normalized path; and without
    such a file there is an error.  This is where no file of the working
    directory has the name of the specifier, and the packages are valid. *)
Theorem path_resolution cwd name d spec is_esm options_paths cache :
  let x := trim_specifier spec in
  let y := render (name :: d) in
  packages_ok E → current_dir E = Ok (render cwd) → comps_ok cwd → comps_ok (name :: d) →
  read_link F y = None → is_dir F y = false →
  is_path x = true → file_exists_path E x = None →
  require_resolve_with_options E spec y None is_esm options_paths cache =
  (match List.find (is_file F) (node_candidates x (render d) options_paths is_esm) with
   | Some f => to_abs_path E f
   | None => Err (Resolving (if is_absolute x then [47] else y) x)
   end, cache).
Proof.
  intros x y Hp Hcwd Hcw Hok Hlink Hdir Hx Hfast. unfold require_resolve_with_options. fold x.
  rewrite Hlink. cbn zeta. change (_ ← None; _) with (@None path). cbn match. rewrite Hfast, Hcwd.
  assert (Hd : dirname y = render d) by (by destruct (dirname_basename name d Hok) as [? _]).
  assert (Hres : io (resolve_path (Ok (render cwd)) [if is_dir F (if is_absolute x then [47] else y)
    then (if is_absolute x then [47] else y) else dirname (if is_absolute x then [47] else y)]) =
    Ok (if is_absolute x then [47] else render d)).
  { destruct (is_absolute x).
    - replace (if is_dir F [47] then [47] else dirname [47]) with (render []) by (by destruct (is_dir F [47])).
      rewrite resolve_dir by (done || constructor). done.
    - rewrite Hdir, Hd, resolve_dir; [done..|]. by apply Forall_cons_1 in Hok as [_ ?]. }
  rewrite Hres, Hx, resolve_file_ok by done. unfold node_candidates. by destruct (is_absolute x).
Qed.

(** C20. Whatever the packages, the hooks aside, a path specifier that is
    resolved is resolved to a file that exists, and the result is its absolute
    path. *)
Theorem resolved_is_file spec y is_esm options_paths cache p :
  is_path (trim_specifier spec) = true →
  (require_resolve_with_options E spec y None is_esm options_paths cache).1 = Ok p →
  ∃ f, is_file F f = true ∧ to_abs_path E f = Ok p.
Proof.
  intros Hx. unfold require_resolve_with_options. cbn zeta. change (_ ← None; _) with (@None path). cbn match.
  destruct (file_exists_path E (trim_specifier spec)) as [f|] eqn:Hfast.
  - cbn [fst]. exists f. split; [|done]. unfold file_exists_path in Hfast.
    destruct (is_supported_ext _); [|done]. destruct (is_file F (trim_specifier spec)) eqn:Hf; [by simplify_eq|].
    destruct (negb _ && is_file F _) eqn:Hn; [|done]. simplify_eq. by apply andb_prop in Hn as [_ ?].
  - destruct (io _) as [dir| |]; [|done..]. rewrite Hx. cbn [fst]. unfold resolve_file.
    destruct (load_paths E _ is_esm) as [[f|]| |] eqn:Hl; try done. rewrite bind_ok. intros Habs.
    exists f. split; [|done]. by apply (load_paths_file E _ _ _ Hl).
Qed.
End Resolution.


(** The package of a file is that of the closest [package.json] above it,
    with none in or beyond a [node_modules] directory, and its [type] decides
    the format of a [.js] file: a module, CommonJS, or CommonJS that may turn
    out to be a module when there is no package or no such type.  A package
    that cannot be read or whose type is no string is an error. *)
Theorem format_of_scope E c st :
  let file := render (c :: st) in
  comps_ok (c :: st) → is_file (fs E) file = true → file_extname file = bs ".js" ∨ file_extname file = [] →
  find_the_closest_package_scope E file = scope_ref E st ∧
  detect_file_format E file =
  match scope_ref E st with
  | None => Ok (Cjs true)
  | Some package =>
      value ← read_package E package;
      type ← package_type_field value package;
      Ok (if decide (type = Some (bs "module")) then Esm else Cjs (bool_decide (type ≠ Some (bs "commonjs"))))
  end.
Proof.
  intros file Hok Hf Hext. assert (Hs : find_the_closest_package_scope E file = scope_ref E st)
    by (by apply closest_scope_of_file). split; [done|].
  unfold detect_file_format. rewrite decide_False by (destruct Hext as [-> | ->]; done).
  rewrite decide_False by (destruct Hext as [-> | ->]; done). rewrite decide_True by done.
  unfold read_package_scope_type. rewrite Hs. destruct (scope_ref E st) as [package|]; [|done].
  destruct (read_package E package) as [v| |]; [|done..]. rewrite !bind_ok.
  destruct (package_type_field v package) as [t| |]; [|done..]. rewrite !bind_ok.
  destruct (decide (t = Some (bs "module"))) as [->|Hm]; [done|].
  destruct (decide (t = Some (bs "commonjs"))) as [->|Hc]; [by rewrite bool_decide_eq_false_2 by naive_solver|].
  by rewrite bool_decide_eq_true_2.
Qed.
