(* ===== verification/ResolverRef.v ===== *)
(** Module resolution on small file systems: applications of the theorems of
    [ResolverProofs], and what the resolver does where Node does otherwise. *)

From S2P Require Import Prelude Unicode Path Resolver ResolverProofs.

(** Files with their contents, and directories, by the names they are asked
    for. *)
Definition the_fs (files : list (path * list Z)) (dirs : list path) : file_system :=
  let content p := snd <$> List.find (λ f, bool_decide (f.1 = p)) files in
  mkFs (λ p, bool_decide (is_Some (content p)))
       (λ p, bool_decide (p ∈ dirs))
       (λ p, bool_decide (is_Some (content p)) || bool_decide (p ∈ dirs))
       (λ _, None)
       content.

(** The packages used below, by a number for their text. *)
Definition text_field (k v : string) : path * json := (bs k, JString (bs v)).
Definition packages (b : list Z) : option json :=
  match b with
  | [1] => Some (JObject [text_field "type" "module"])
  | [2] => Some (JObject [text_field "main" "lib/m"])
  | [3] => Some (JObject [(bs "exports", JObject [text_field "." "./i.js"]); text_field "main" "./m.js"])
  | [4] => Some (JObject [(bs "exports", JObject [(bs "./dist/*", JObject [text_field "default" "./out/*"])])])
  | [5] => Some (JObject [])
  | _ => None
  end.

Definition sample_env (files : list (path * list Z)) (dirs : list path) : env :=
  mkEnv (the_fs files dirs) (Ok (bs "/work")) None packages (bs "node") [bs ".js"; bs ".json"].

Lemma has_suffix_app d s : has_suffix s (d ++ s) = true.
Proof.
  unfold has_suffix, has_prefix. rewrite reverse_app, length_reverse. apply bool_decide_eq_true.
  rewrite take_app_length'; [done|]. by rewrite length_reverse.
Qed.

(** Whether the packages of a list of files are valid. *)
Definition valid_packages (files : list (path * list Z)) (dirs : list path) : bool :=
  forallb (λ f, negb (has_suffix (bs "package.json") f.1) ||
    match read_package (sample_env files dirs) f.1 with
    | Ok v => match package_type_field v f.1 with Ok _ => true | _ => false end
    | _ => false
    end) files.
Lemma valid_packages_ok files dirs : valid_packages files dirs = true → packages_ok (sample_env files dirs).
Proof.
  intros Hv dir file Hf. unfold valid_packages in Hv. rewrite forallb_forall in Hv.
  cbn [fs sample_env is_file the_fs] in Hf. apply bool_decide_eq_true in Hf as [b Hb].
  apply fmap_Some in Hb as (f & Hfind & ->). apply List.find_some in Hfind as [Hin Heq].
  apply bool_decide_eq_true in Heq. specialize (Hv f Hin). cbn beta in Hv. rewrite Heq in Hv. unfold file in *.
  rewrite has_suffix_app in Hv. cbn [negb orb] in Hv.
  destruct (read_package _ _) as [v| |]; [|done..]. destruct (package_type_field v _) as [t| |] eqn:Ht; [|done..].
  by exists v, t.
Qed.

(** * Applications *)

Ltac comps := repeat (apply Forall_cons; split; [reflexivity|]); apply Forall_nil_2.

(** [require('../pkg')] in [/app/lib/a.js]: a directory with a package. *)
Definition app_files : list (path * list Z) :=
  [(bs "/app/lib/../pkg/package.json", [2]); (bs "/app/lib/../pkg/lib/m.cjs", [])].

Lemma path_resolution_witness :
  require_resolve_with_options (sample_env app_files []) (bs "../pkg") (bs "/app/lib/a.js") None false None ∅ =
  (Ok (bs "/app/pkg/lib/m.cjs"), ∅).
Proof.
  etrans; [apply (path_resolution (sample_env app_files []) [bs "work"] (bs "a.js") [bs "lib"; bs "app"])|].
  - apply valid_packages_ok. by vm_compute.
  - reflexivity.
  - comps.
  - comps.
  - reflexivity.
  - by vm_compute.
  - by vm_compute.
  - by vm_compute.
  - by vm_compute.
Defined.

Lemma resolved_is_file_witness :
  ∃ f, is_file (fs (sample_env app_files [])) f = true ∧
    to_abs_path (sample_env app_files []) f = Ok (bs "/app/pkg/lib/m.cjs").
Proof.
  apply (resolved_is_file (sample_env app_files []) (bs "../pkg") (bs "/app/lib/a.js") false None ∅); by vm_compute.
Defined.


Lemma format_of_scope_witness :
  let E := sample_env [(bs "/p/package.json", [1]); (bs "/p/src/x.js", [])] [] in
  find_the_closest_package_scope E (bs "/p/src/x.js") = Some (bs "/p/package.json") ∧
  detect_file_format E (bs "/p/src/x.js") = Ok Esm.
Proof.
  apply (format_of_scope (sample_env [(bs "/p/package.json", [1]); (bs "/p/src/x.js", [])] [])
    (bs "x.js") [bs "src"; bs "p"]).
  - comps.
  - by vm_compute.
  - left. by vm_compute.
Defined.

(** * What the resolver does *)

(** A file of the working directory shadows the module's own: [./util.js]
    required in [/app/lib/a.js] is the one in [/work]. *)
Example cwd_shadows :
  (require_resolve_with_options
     (sample_env [(bs "./util.js", []); (bs "/app/lib/util.js", [])] []) (bs "./util.js") (bs "/app/lib/a.js")
     None false None ∅).1 = Ok (bs "/work/util.js").
Proof. by vm_compute. Qed.

(** The cache gives a parent directory what was found for its child: after a
    lookup in [/a/b], a lookup in [/a] searches [/a/b/node_modules]. *)
Example cache_leaks :
  let E := sample_env [] [bs "/a/b/node_modules"; bs "/a/node_modules"] in
  let '(_, cache) := collect_node_modules_paths E (bs "/a/b") ∅ in
  (collect_node_modules_paths E (bs "/a") cache).1 = [bs "/a/b/node_modules"; bs "/a/node_modules"] ∧
  (collect_node_modules_paths E (bs "/a") ∅).1 = [bs "/a/node_modules"].
Proof. by vm_compute. Qed.

(** [/node_modules] is listed but never searched. *)
Example root_not_searched :
  (collect_node_modules_paths (sample_env [] [bs "/node_modules"]) (bs "/a") ∅).1 = [].
Proof. by vm_compute. Qed.

(** A subpath that is not exported is resolved to [main]. *)
Example unexported_subpath :
  package_exports_resolve (sample_env [] []) (default JNull (packages [3])) (bs "private") false = (bs "./m.js", true).
Proof. by vm_compute. Qed.

(** The pattern [./dist/*] matches one level below [dist] only by accident of
    the length of its name: not [./dist/a/b]. *)
Example wildcard_depth :
  wildcard (bs "./dist/a") = Some (bs "a", bs "./dist/*") ∧
  wildcard (bs "./dist/a/b") = Some (bs ".", bs "./dist/a/b/*") ∧
  package_exports_resolve (sample_env [] []) (default JNull (packages [4])) (bs "dist/a/b") false = (bs "./index.js", true).
Proof. by vm_compute. Qed.

(** [require('.')] is taken for the name of a package. *)
Example dot_specifier :
  let files := [(bs "/app/index.js", []); (bs "/app/./index.js", [])] in
  (require_resolve_with_options (sample_env files [bs "/app"]) (bs ".") (bs "/app/a.js") None false None ∅).1 =
  Err (Resolving (bs "/app/a.js") (bs ".")).
Proof. by vm_compute. Qed.

(** A directory whose name has the low bytes of [node_modules]. *)
Example low_bytes :
  node_module_paths (sample_env [] []) (bs "/node_" ++ [365] ++ bs "odules") = Ok [bs "/node_modules"].
Proof. by vm_compute. Qed.

(** An invalid package is reported, for a file that would be found. *)
Example invalid_package :
  (require_resolve_with_options (sample_env [(bs "/app/b.js", []); (bs "/app/package.json", [9])] [])
     (bs "./b") (bs "/app/a.js") None false None ∅).1 = Err (Config (InvalidJson (bs "/app/package.json"))).
Proof. by vm_compute. Qed.
