(* ===== verification/PackageLoader.v ===== *)
(** The loader of packages for [import]
    ([raster_runtime_modules/src/package/loader.rs]) and the program texts it
    makes.

    Texts are the bytes of their UTF-8 encoding; reading the file, the format
    of the file and the exports of a CommonJS module are arguments. *)

From S2P Require Import Prelude Unicode Path JsonEscape Resolver.

(** Whether the name is that of an import from CommonJS or forces CommonJS, the
    name of the module and the path. *)
Definition normalize_name (name : path) : bool * bool * path * path :=
  if negb (has_prefix (bs "__") name) then (false, false, name, name)
  else if has_prefix CJS_IMPORT_PREFIX name then (true, false, name, drop (length CJS_IMPORT_PREFIX) name)
  else if has_prefix CJS_LOADER_PREFIX name then
    let cjs_path := drop (length CJS_LOADER_PREFIX) name in (false, true, cjs_path, cjs_path)
  else (false, false, name, name).

Definition prepend_cjs_dirname_filename (filename : path) (source : list Z) : res rstring (list Z) :=
  let filename := replace_backslash filename in
  let dirname := replace_backslash (dirname filename) in
  match from_utf8 source with
  | Err _ | Panic => Err (bs "invalid UTF-8 in CommonJS module")
  | Ok _ =>
      result ← escape_json_string (bs "var __filename=" ++ [34]) filename;
      result ← escape_json_string (result ++ [34] ++ bs ";var __dirname=" ++ [34]) dirname;
      Ok (result ++ [34] ++ bs ";" ++ [10] ++ source)
  end.

Definition json_module_source (contents : list Z) : res rstring (list Z) :=
  json ← escape_json_string (bs "export default JSON.parse(" ++ [34]) contents;
  Ok (json ++ [34] ++ bs ");").

(** The keys with a comma after each, and the last character removed. *)
Definition key_list (module : path) (keys : list path) : path :=
  let module := foldl (λ m p, if decide (p = bs "default") then m else m ++ p ++ [44]) module keys in
  take (length module - 1) module.

(** The ES module of a CommonJS module with these [keys], the properties of the
    exports when they are an object. *)
Definition cjs_module_source (name : path) (keys : option (list path)) : path :=
  let module := bs "const value = require(" ++ [34] ++ name ++ [34] ++
                bs ");export default value.default||value;" in
  match keys with
  | None | Some [] => module
  | Some keys =>
      let module := key_list (module ++ bs "const{") keys ++ bs "}=value;" in
      key_list (module ++ bs "export{") keys ++ bs "};"
  end.

(** [source.splitn(2, '\n').nth(1).unwrap_or(source)] after [#!]. *)
Definition skip_shebang (source : list Z) : list Z :=
  if has_prefix (bs "#!") source then
    match find_pos (λ c, c =? 10) source with Some i => drop (S i) source | None => source end
  else source.

Inductive load_error := NeedsAttribute (file : path) | Package (e : PackageFormatError) | FileError | TextError (m : rstring).

(** What [load_module] declares, or that it goes through [require]; [url] is
    given to [import.meta]. *)
Inductive load_plan :=
  | DeclareJson (name : path) (source : list Z)
  | ViaRequire (name url : path)
  | FromCache (name : path)
  | DeclareModule (name : path) (source : list Z) (url : path).

Section Load.
Context (E : env) (esm : gset path).

Definition load_module (name : path) (type_attribute : option path) : res load_error load_plan :=
  let '(from_cjs_import, is_cjs_name, normalized_name, file) := normalize_name name in
  let text {A} (r : res rstring A) : res load_error A :=
    match r with Ok a => Ok a | Err m => Err (TextError m) | Panic => Panic end in
  let declare :=
    match resolve_path (current_dir E) [file] with
    | Ok file =>
        if decide (file ∈ esm) then Ok (FromCache file)
        else
          bytes ← match read (fs E) file with Some b => Ok b | None => Err FileError end;
          source ← (if (from_cjs_import : bool) then text (prepend_cjs_dirname_filename file bytes)
                    else Ok (skip_shebang bytes));
          Ok (DeclareModule normalized_name source (bs "file://" ++ file))
    | Err _ => Err FileError
    | Panic => Panic
    end in
  if from_cjs_import then declare
  else if has_suffix (bs ".json") normalized_name then
    if decide (type_attribute = Some (bs "json")) then
      contents ← match read (fs E) file with Some b => Ok b | None => Err FileError end;
      json ← text (json_module_source contents);
      Ok (DeclareJson file json)
    else Err (NeedsAttribute file)
  else
    format ← (if (is_cjs_name : bool) then Ok (Cjs false)
              else match detect_file_format E file with
                   | Ok f => Ok f | Err e => Err (Package e) | Panic => Panic end);
    if is_cjs format then Ok (ViaRequire file (bs "file://" ++ file)) else declare.
End Load.

(** * The texts *)

Lemma escape_reads out bytes rest :
  Forall u8_ok bytes → no_surrogates bytes = true →
  ∃ t, escape_json_string out bytes = Ok (out ++ t) ∧ read_string (t ++ 34 :: rest) = Some (bytes, rest).
Proof. intros Hu Hn. exists (escape_spec bytes). split; [by apply escape_ok|by apply read_escaped]. Qed.

(** A directory is a part of the path, or made of dots and slashes. *)
Lemma dirname_part p : (∃ n, dirname p = take n p) ∨ dirname p ∈ [bs "."; bs "/"; bs "//"].
Proof.
  unfold dirname. destruct p as [|c [|d p]]; [set_solver|case_match; [left; by exists 1%nat|set_solver]|].
  destruct (find_dirname_end _ 1) as [e|]; case_match; try (right; set_solver). left. by eexists.
Qed.
Lemma no_surrogates_take n l : no_surrogates l = true → no_surrogates (take n l) = true.
Proof.
  revert n. induction l as [|b l IH]; intros [|n]; try done. cbn [no_surrogates take].
  intros [Hb Hl]%andb_prop. rewrite IH by done. rewrite andb_true_r.
  destruct n as [|n]; [by rewrite take_0, andb_false_r|]. destruct l as [|c l]; [done|]. exact Hb.
Qed.
Lemma dirname_bytes p :
  Forall u8_ok p → no_surrogates p = true → 92 ∉ p →
  Forall u8_ok (dirname p) ∧ no_surrogates (dirname p) = true ∧ 92 ∉ dirname p.
Proof.
  intros Hu Hn Hb. destruct (dirname_part p) as [[n ->]|Hd].
  - split_and!; [by apply Forall_take|by apply no_surrogates_take|]. intros Hin. by apply elem_of_take in Hin as (i & ?%list_elem_of_lookup_2 & _).
  - apply list_elem_of_In in Hd. destruct Hd as [<-|[<-|[<-|[]]]];
      (split_and!; [unfold u8_ok; apply (bool_decide_unpack _); by vm_compute|done|apply (bool_decide_unpack _); by vm_compute]).
Qed.
Lemma replace_backslash_id p : 92 ∉ p → replace_backslash p = p.
Proof.
  intros Hp. unfold replace_backslash. induction p as [|c p IH]; [done|]. cbn [fmap list_fmap].
  rewrite (proj2 (Z.eqb_neq c 92)) by set_solver. f_equal. apply IH. set_solver.
Qed.

(** The texts put before a CommonJS module and around a JSON module hold
    the strings they are made of, whatever quotes, backslashes or newlines are
    in them: the literals read back as the filename, its directory and the
    contents of the file, and the rest of the text is as intended. *)
Theorem module_texts filename source contents :
  Forall u8_ok filename → no_surrogates filename = true → 92 ∉ filename →
  res_ok (from_utf8 source) = true → Forall u8_ok contents → no_surrogates contents = true →
  (∃ t1 t2, prepend_cjs_dirname_filename filename source = Ok (bs "var __filename=" ++ [34] ++ t1) ∧
     read_string t1 = Some (filename, bs ";var __dirname=" ++ [34] ++ t2) ∧
     read_string t2 = Some (dirname filename, bs ";" ++ [10] ++ source)) ∧
  ∃ t, json_module_source contents = Ok (bs "export default JSON.parse(" ++ [34] ++ t) ∧
    read_string t = Some (contents, bs ");").
Proof.
  intros Hu Hn Hb Hs Hcu Hcn. destruct (dirname_bytes _ Hu Hn Hb) as (Hdu & Hdn & Hdb).
  split.
  - unfold prepend_cjs_dirname_filename. rewrite (replace_backslash_id filename), (replace_backslash_id (dirname filename)) by done.
    destruct (from_utf8 source); [|done..].
    set (t2 := escape_spec (dirname filename) ++ [34] ++ bs ";" ++ [10] ++ source).
    exists (escape_spec filename ++ [34] ++ bs ";var __dirname=" ++ [34] ++ t2), t2.
    rewrite escape_ok by done. rewrite bind_ok, escape_ok by done. rewrite bind_ok. split_and!.
    + unfold t2. by rewrite <- !(assoc_L (++)).
    + by rewrite <- read_escaped.
    + by rewrite <- read_escaped.
  - unfold json_module_source. exists (escape_spec contents ++ [34] ++ bs ");"). rewrite escape_ok, bind_ok by done.
    split; [by rewrite <- !(assoc_L (++))|by rewrite <- read_escaped].
Qed.

(** The bindings of the ES module of a CommonJS module: the keys other than
    [default], separated by commas, whenever there are some. *)
Fixpoint commas (keys : list path) : path :=
  match keys with [] => [] | [k] => k | k :: keys => k ++ [44] ++ commas keys end.

Lemma key_list_ok module keys :
  let named := filter (λ k, k ≠ bs "default") keys in
  named ≠ [] → key_list module keys = module ++ commas named.
Proof.
  intros named Hne. unfold key_list.
  assert (Hf : ∀ m, foldl (λ m p, if decide (p = bs "default") then m else m ++ p ++ [44]) m keys =
    m ++ mjoin ((λ k, k ++ [44]) <$> named)).
  { subst named. clear Hne. induction keys as [|k keys IH]; intros m; [by rewrite app_nil_r|]. cbn [foldl].
    rewrite IH, filter_cons. destruct (decide (k = bs "default")).
    - by rewrite decide_False by naive_solver.
    - rewrite decide_True by done. cbn [fmap list_fmap mjoin list_join]. by rewrite <- !(assoc_L (++)). }
  assert (Hc : ∀ l, l ≠ [] → mjoin ((λ k, k ++ [44]) <$> l) = commas l ++ [44]).
  { induction l as [|k l IH]; [done|]. intros _.
    change (mjoin ((λ k, k ++ [44]) <$> k :: l)) with ((k ++ [44]) ++ mjoin ((λ k, k ++ [44]) <$> l)). destruct l as [|k' l].
    - by rewrite app_nil_r.
    - rewrite IH by done. change (commas (k :: k' :: l)) with (k ++ [44] ++ commas (k' :: l)).
      by rewrite <- !(assoc_L (++)). }
  rewrite Hf, Hc, (assoc_L (++)) by done. rewrite length_app. cbn [length]. rewrite Nat.add_sub. apply take_app_length.
Qed.

Lemma cjs_module_source_ok name keys :
  let named := filter (λ k, k ≠ bs "default") keys in
  named ≠ [] →
  cjs_module_source name (Some keys) =
  bs "const value = require(" ++ [34] ++ name ++ [34] ++ bs ");export default value.default||value;const{" ++
  commas named ++ bs "}=value;export{" ++ commas named ++ bs "};".
Proof.
  intros named Hne. unfold cjs_module_source. destruct keys as [|k keys]; [done|].
  rewrite !key_list_ok by done. cbn zeta. rewrite <- !(assoc_L (++)). done.
Qed.

(** * Instances *)

Lemma module_texts_witness :
  ∃ t, json_module_source (bs "{" ++ [34; 97; 34; 58; 10] ++ bs "1}") = Ok (bs "export default JSON.parse(" ++ [34] ++ t) ∧
    read_string t = Some (bs "{" ++ [34; 97; 34; 58; 10] ++ bs "1}", bs ");").
Proof.
  destruct (module_texts (bs "/a/it's " ++ [34] ++ bs "b.cjs") (bs "x()") (bs "{" ++ [34; 97; 34; 58; 10] ++ bs "1}"))
    as [_ H]; [..|exact H].
  all: first [reflexivity | (apply (bool_decide_unpack _); by vm_compute)
    | (unfold u8_ok; apply (bool_decide_unpack _); by vm_compute)].
Defined.

(** The name of a CommonJS module is not escaped: a quote in it ends the
    literal. *)
Example name_not_escaped :
  cjs_module_source (bs "/a" ++ [34] ++ bs ");evil(" ++ [34]) None =
  bs "const value = require(" ++ [34] ++ bs "/a" ++ [34] ++ bs ");evil(" ++ [34; 34] ++
  bs ");export default value.default||value;".
Proof. by vm_compute. Qed.

(** With [default] as the only key the braces are cut instead of a comma, and
    the text is no program. *)
Example only_default :
  cjs_module_source (bs "/a") (Some [bs "default"]) =
  bs "const value = require(" ++ [34] ++ bs "/a" ++ [34] ++
  bs ");export default value.default||value;const}=value;export};".
Proof. by vm_compute. Qed.
