(* ===== verification/ModuleLoader.v ===== *)
(** The CommonJS loader
    ([raster_runtime_modules/src/module/require.rs], [extensions.rs],
    [import_load.rs], [facade.rs], [current_module.rs] and the names of
    [mod.rs]).

    The script of a module is a program that may require other modules, catch
    what they throw, replace its exports or delete entries of [require.cache];
    the engine that turns a file into such a program, the object it makes of
    the namespace of an imported module and [Module._resolveFilename], which
    scripts may replace, are arguments.  Requiring nests: [fuel] bounds the
    depth, and nothing is returned when it is too small. *)

From S2P Require Import Prelude Unicode Path Resolver.

(** * Names of built-in modules *)

Record ModuleNames := mkNames {
  ordinary : gset path;
  enabled_node_only : gset path;
  disabled_node_only : gset path
}.

Definition strip_node (request : path) : option path :=
  if has_prefix (bs "node:") request then Some (drop 5 request) else None.
Definition trim_slashes (request : path) : path := trim_end_matches [47] request.

Section Names.
Context (names : ModuleNames).

Definition get_list : gset path :=
  ordinary names ∪ set_map (λ n, bs "node:" ++ n) (enabled_node_only names)
  ∪ set_map (λ n, bs "node:" ++ n) (disabled_node_only names).

Definition is_builtin (request : path) : bool :=
  let request := trim_slashes request in
  match strip_node request with
  | Some bare =>
      if decide (bare ∈ disabled_node_only names) then false
      else if decide (bare ∈ enabled_node_only names) then true
      else bool_decide (bare ∈ ordinary names)
  | None => bool_decide (request ∈ ordinary names) && negb (bool_decide (request ∈ enabled_node_only names))
  end.

Definition is_known_disabled (request : path) : bool :=
  let request := trim_slashes request in
  bool_decide (default request (strip_node request) ∈ disabled_node_only names).

Definition disabled_node_builtin_error_request (request : path) : option path :=
  let request := trim_slashes request in
  bare ← strip_node request;
  if decide (bare ∈ disabled_node_only names) then Some request else None.

Definition resolve_builtin (request : path) : option path :=
  let request := trim_slashes request in
  match strip_node request with
  | Some bare =>
      if decide (bare ∈ disabled_node_only names) then None
      else if decide (bare ∈ enabled_node_only names) then Some (bs "node:" ++ bare)
      else if decide (bare ∈ ordinary names) then Some bare
      else None
  | None =>
      if decide (request ∈ disabled_node_only names) then None
      else if decide (request ∈ ordinary names ∧ request ∉ enabled_node_only names) then Some request
      else None
  end.

(** [require.resolve] keeps the [node:] of a request that has it. *)
Definition resolve_builtin_request_for_resolve (request : path) : option path :=
  if has_suffix [47] request then None else resolve_builtin request.
Definition resolve_require_builtin_request (request : path) : option path :=
  resolved ← resolve_builtin_request_for_resolve request;
  if has_prefix (bs "node:") request then Some request else Some resolved.
End Names.

(** * Values *)

Inductive value := Undefined | Object_ (id : nat) | Data (n : Z).

Inductive exn :=
  | UnknownBuiltin (request : path)
  | ModuleNotFound (request : path)
  | NotAFunction
  | Thrown (v : value).

(** [Module._resolveFilename], as it is unless a script replaces it: every error
    of the resolver becomes the same exception. *)
Definition default_resolve_filename (E : env) (names : ModuleNames) (hooked_fn : option (path → path → option path))
    (request parent_filename : path) (search_paths : option (list path)) (cache : paths_cache) :
    res exn path * paths_cache :=
  match disabled_node_builtin_error_request names (trim_slashes request) with
  | Some builtin_request => (Err (UnknownBuiltin builtin_request), cache)
  | None =>
      match resolve_builtin_request_for_resolve names request with
      | Some resolved => (Ok resolved, cache)
      | None =>
          let '(r, cache) := require_resolve_with_options E request parent_filename hooked_fn false search_paths cache in
          (match r with Ok p => Ok p | Err _ => Err (ModuleNotFound request) | Panic => Panic end, cache)
      end
  end.

(** * The state *)

(** The fields of a [Module] object that the loader reads or writes. *)
Record module_record := mkRecord {
  exports : value;
  loaded : bool;
  children : list nat;
  parent_module : option nat
}.

(** An entry of [progress]: a module object, or the plain object that
    [load_via_import] puts there. *)
Inductive in_progress := RecordObj (id : nat) | PlainObj.

(** What happened, for the theorems. *)
Inductive event := Started (name : path) | Finished (name : path) | Failed (name : path).

(** [records] is the heap of module objects, [js_cache] the JavaScript object
    [require.cache]; the others are [RequireState]. *)
Record state := mkState {
  records : list module_record;
  js_cache : gmap path nat;
  rs_cache : gmap path value;
  progress : gmap path in_progress;
  current_module : option nat;
  history : list event
}.

Definition set_records f st := mkState (f (records st)) (js_cache st) (rs_cache st) (progress st) (current_module st) (history st).
Definition set_js_cache f st := mkState (records st) (f (js_cache st)) (rs_cache st) (progress st) (current_module st) (history st).
Definition set_rs_cache f st := mkState (records st) (js_cache st) (f (rs_cache st)) (progress st) (current_module st) (history st).
Definition set_progress f st := mkState (records st) (js_cache st) (rs_cache st) (f (progress st)) (current_module st) (history st).
Definition set_current m st := mkState (records st) (js_cache st) (rs_cache st) (progress st) m (history st).
Definition note e st := mkState (records st) (js_cache st) (rs_cache st) (progress st) (current_module st) (history st ++ [e]).

Definition with_exports v r := mkRecord v (loaded r) (children r) (parent_module r).
Definition with_loaded b r := mkRecord (exports r) b (children r) (parent_module r).
Definition with_child c r := mkRecord (exports r) (loaded r) (children r ++ [c]) (parent_module r).
Definition update (id : nat) (f : module_record → module_record) (st : state) : state := set_records (alter f id) st.

Definition exports_of (id : nat) (st : state) : value :=
  match records st !! id with Some r => exports r | None => Undefined end.
Definition is_loaded (id : nat) (st : state) : bool :=
  match records st !! id with Some r => loaded r | None => false end.

Definition get_or_create_module_record (name : path) (parent : option nat) (st : state) : state * nat :=
  match js_cache st !! name with
  | Some id => (st, id)
  | None =>
      let id := length (records st) in
      let st := set_records (λ rs, rs ++ [mkRecord (Object_ id) false [] parent]) st in
      let st := set_js_cache <[name := id]> st in
      (match parent with Some p => update p (with_child id) st | None => st end, id)
  end.

(** [rollback_failed_load] and [rollback_failed_import]. *)
Definition rollback (name : path) (st : state) : state :=
  set_rs_cache (base.delete name) (set_progress (base.delete name) (set_js_cache (base.delete name) st)).

(** * Scripts *)

Inductive prog :=
  | Done
  | Throw (v : value)
  | Require (specifier : path) (k : value + exn → prog)
  | SetExports (v : value) (next : prog)
  | DeleteCache (name : path) (next : prog).

(** [None] is too little fuel. *)
Notation outcome A := (option (state * res exn A)).

Fixpoint run (require : nat → path → bool → state → outcome value) (self : nat) (p : prog) (st : state) : outcome () :=
  match p with
  | Done => Some (st, Ok ())
  | Throw v => Some (st, Err (Thrown v))
  | Require specifier k =>
      '(st, r) ← require self specifier true st;
      match r with
      | Ok v => run require self (k (inl v)) st
      | Err e => run require self (k (inr e)) st
      | Panic => Some (st, Panic)
      end
  | SetExports v next => run require self next (update self (with_exports v) st)
  | DeleteCache name next => run require self next (set_js_cache (base.delete name) st)
  end.

(** [CurrentModuleGuard]: the module is current until the guard is dropped. *)
Definition with_current {A} (id : nat) (body : state → outcome A) (st : state) : outcome A :=
  let previous := current_module st in
  '(st, r) ← body (set_current (Some id) st);
  Some (set_current previous st, r).

(** * Extensions *)

Inductive handler := NativeJs | NativeJson | NativeNode | Custom (n : nat).

(** The first dot from [start] on, except at the beginning, from which the
    text is registered. *)
Fixpoint extension_loop (fuel : nat) (registered : path → bool) (basename : path) (start : nat) : path :=
  match fuel with
  | O => bs ".js"
  | S fuel =>
      match find_pos (λ c, c =? 46) (drop start basename) with
      | None => bs ".js"
      | Some relative =>
          let index := (start + relative)%nat in
          if (index =? 0)%nat then extension_loop fuel registered basename (index + 1)
          else if registered (drop index basename) then drop index basename
          else extension_loop fuel registered basename (index + 1)
      end
  end.

Section Loader.
Context (names : ModuleNames).
Context (extensions : gmap path handler).
(** The program of a file under a handler, of an imported module, and the
    exports made of the namespace of the latter. *)
Context (script : handler → path → prog) (import_script : path → prog) (namespace_exports : path → value).
(** [Module._resolveFilename], for the module that asks. *)
Context (resolve_filename : nat → path → res exn path).

Definition find_longest_registered_extension (filename : path) : path :=
  let name := basename filename None in
  extension_loop (length name) (λ ext, bool_decide (is_Some (extensions !! ext))) name 0.

Definition resolve_extension_handler (extension : path) : res exn handler :=
  match extensions !! extension with
  | Some h => Ok h
  | None =>
      if decide (extension = bs ".js") then Ok NativeJs
      else if decide (extension = bs ".json") then Ok NativeJson
      else if decide (extension = bs ".node") then Ok NativeNode
      else Err NotAFunction
  end.

Section Require.
Context (require : nat → path → bool → state → outcome value).

(** Only the JavaScript handler compiles the file under a guard. *)
Definition call_extension_handler (id : nat) (name : path) (st : state) : outcome () :=
  match resolve_extension_handler (find_longest_registered_extension name) with
  | Ok NativeJs => with_current id (run require id (script NativeJs name)) st
  | Ok h => run require id (script h name) st
  | Err e => Some (st, Err e)
  | Panic => Some (st, Panic)
  end.

(** The record is marked as loaded and the value cached, or every trace of the
    module is removed. *)
Definition finish (name : path) (id : nat) (v : value) (st : state) : state :=
  let st := update id (with_loaded true) st in
  note (Finished name) (set_rs_cache <[name := v]> (set_progress (base.delete name) st)).
Definition fail (name : path) (st : state) : state := note (Failed name) (rollback name st).

Definition load_via_extensions (name : path) (id : nat) (st : state) : outcome value :=
  if is_loaded id st then Some (st, Ok (exports_of id st))
  else
    match rs_cache st !! name, js_cache st !! name with
    | Some v, Some _ => Some (st, Ok v)
    | _, _ =>
        (** a value without a record is stale *)
        let st := set_rs_cache (base.delete name) st in
        match progress st !! name with
        | Some _ => Some (st, Ok (exports_of id st))
        | None =>
            let st := update id (with_loaded false) st in
            let st := note (Started name) (set_progress <[name := RecordObj id]> st) in
            '(st, r) ← call_extension_handler id name st;
            match r with
            | Ok _ => Some (finish name id (exports_of id st) st, Ok (exports_of id st))
            | Err e => Some (fail name st, Err e)
            | Panic => Some (st, Panic)
            end
        end
    end.

(** [load_file_via_import] with [collect_imported_exports]. *)
Definition load_via_import (name : path) (id : nat) (st : state) : outcome value :=
  let st := note (Started name) (set_progress <[name := PlainObj]> st) in
  '(st, r) ← with_current id (run require id (import_script name)) st;
  match r with
  | Ok _ =>
      let v := namespace_exports name in
      Some (finish name id v (update id (with_exports v) st), Ok v)
  | Err e => Some (fail name st, Err e)
  | Panic => Some (st, Panic)
  end.
End Require.

(** The name of the module and whether it is imported: a built-in module,
    bytecode or a [__cjs:] specifier. *)
Definition resolve_request (parent : nat) (specifier : path) : res exn (path * bool) :=
  if has_prefix CJS_IMPORT_PREFIX specifier then Ok (drop (length CJS_IMPORT_PREFIX) specifier, true)
  else
    let specifier :=
      if has_prefix [46] specifier || is_absolute specifier || has_prefix (bs "file://") specifier
      then specifier else trim_slashes specifier in
    match disabled_node_builtin_error_request names (trim_slashes specifier) with
    | Some request => Err (UnknownBuiltin request)
    | None =>
        resolved ← resolve_filename parent specifier;
        if has_suffix (bs ".lrt") resolved then Ok (resolved, true)
        else
          match disabled_node_builtin_error_request names (trim_slashes resolved) with
          | Some request => Err (UnknownBuiltin request)
          | None =>
              match resolve_builtin names (trim_slashes resolved) with
              | Some builtin_name => Ok (builtin_name, true)
              | None => Ok (resolved, false)
              end
          end
    end.

(** What the caches have: a loaded record, a value whose record is still in
    [require.cache], or a module in progress; a stale value is dropped. *)
Definition lookup_module (name : path) (st : state) : state * option value :=
  let record := js_cache st !! name in
  match (id ← record; if is_loaded id st then Some (exports_of id st) else None) with
  | Some v => (st, Some v)
  | None =>
      let '(st, cached) :=
        match rs_cache st !! name, record with
        | Some v, Some _ => (st, Some v)
        | Some _, None => (set_rs_cache (base.delete name) st, None)
        | None, _ => (st, None)
        end in
      match cached with
      | Some v => (st, Some v)
      | None =>
          (st, match progress st !! name with
               | Some (RecordObj id) => Some (exports_of id st)
               (** the plain object has no [exports] *)
               | Some PlainObj => Some Undefined
               | None => None
               end)
      end
  end.

Fixpoint require_from_module (fuel : nat) (parent : nat) (specifier : path) (link_parent : bool) (st : state) :
    outcome value :=
  match fuel with
  | O => None
  | S fuel =>
      match resolve_request parent specifier with
      | Err e => Some (st, Err e)
      | Panic => Some (st, Panic)
      | Ok (name, via_import) =>
          let '(st, found) := lookup_module name st in
          match found with
          | Some v => Some (st, Ok v)
          | None =>
              let '(st, id) := get_or_create_module_record name (if link_parent then Some parent else None) st in
              if via_import
              then load_via_import (require_from_module fuel) name id (update id (with_loaded false) st)
              else load_via_extensions (require_from_module fuel) name id st
          end
      end
  end.
End Loader.
