(* ===== verification/ModuleLoaderProofs.v ===== *)
(** Correctness of the CommonJS loader: requiring ends although modules
    require each other, leaves no module half loaded, and runs every script at
    most once until it fails. *)

From S2P Require Import Prelude Unicode Path Resolver ModuleLoader.

#[global] Instance value_eq_dec : EqDecision value.
Proof. solve_decision. Defined.
#[global] Instance event_eq_dec : EqDecision event.
Proof. solve_decision. Defined.

Section Loader.
Context (names : ModuleNames) (extensions : gmap path handler).
Context (script : handler → path → prog) (import_script : path → prog) (namespace_exports : path → value).
Context (resolve_filename : nat → path → res exn path).

Abbreviation require := (require_from_module names extensions script import_script namespace_exports resolve_filename).
Abbreviation request := (resolve_request names resolve_filename).

(** * What is left behind *)

(** A computation that returns leaves the modules in progress and the current
    module as they were. *)
Definition restores {A} (f : state → outcome A) : Prop :=
  ∀ st st' r, f st = Some (st', r) → r ≠ Panic →
    progress st' = progress st ∧ current_module st' = current_module st.

Lemma run_restores req self p : (∀ s, restores (req self s true)) → restores (run req self p).
Proof.
  intros Hreq. induction p as [|v|s k IH|v p IH|n p IH]; intros st st' r; simpl.
  - by intros [= <- <-].
  - by intros [= <- <-].
  - destruct (req self s true st) as [[st1 r1]|] eqn:E; [|done]. simpl. intros Hr HP.
    destruct r1 as [v|e|]; [..|by simplify_eq].
    + destruct (Hreq s _ _ _ E) as [Hp Hc]; [done|]. rewrite <- Hp, <- Hc. by apply (IH _ _ _ _ Hr).
    + destruct (Hreq s _ _ _ E) as [Hp Hc]; [done|]. rewrite <- Hp, <- Hc. by apply (IH _ _ _ _ Hr).
  - intros Hr HP. by apply (IH _ _ _ Hr HP).
  - intros Hr HP. by apply (IH _ _ _ Hr HP).
Qed.

Lemma with_current_restores {A} id (f : state → outcome A) : restores f → restores (with_current id f).
Proof.
  intros Hf st st' r. unfold with_current.
  destruct (f (set_current (Some id) st)) as [[st1 r1]|] eqn:E; [|done]. simpl. intros [= <- <-] HP.
  by destruct (Hf _ _ _ E HP) as [Hp _].
Qed.

Lemma handler_restores req id name :
  (∀ s, restores (req id s true)) → restores (call_extension_handler extensions script req id name).
Proof.
  intros Hreq st st' r. unfold call_extension_handler.
  destruct (resolve_extension_handler _ _) as [[]| |]; try (by intros [= <- <-]);
    try (by apply run_restores). by apply with_current_restores, run_restores.
Qed.

Lemma create_keeps name parent st st' id :
  get_or_create_module_record name parent st = (st', id) →
  progress st' = progress st ∧ current_module st' = current_module st ∧ history st' = history st ∧
  rs_cache st' = rs_cache st.
Proof. unfold get_or_create_module_record. repeat case_match; intros; by simplify_eq/=. Qed.

Lemma lookup_keeps name st st' v :
  lookup_module name st = (st', v) →
  progress st' = progress st ∧ current_module st' = current_module st ∧ history st' = history st ∧
  js_cache st' = js_cache st ∧ records st' = records st ∧
  (v = None → progress st !! name = None ∧
    ∀ id, js_cache st !! name = Some id → is_loaded id st = false).
Proof.
  unfold lookup_module. intros Hl.
  destruct (js_cache st !! name) as [id|] eqn:Hj; simpl in Hl.
  - destruct (is_loaded id st) eqn:Hld; [by injection Hl as <- <-|].
    destruct (rs_cache st !! name); [by injection Hl as <- <-|]. injection Hl as <- <-. split_and!; try done.
    destruct (progress st !! name) as [[]|]; naive_solver.
  - destruct (rs_cache st !! name); injection Hl as <- <-; (split_and!; try done);
      simpl; destruct (progress st !! name) as [[]|]; naive_solver.
Qed.

Lemma delete_inserted {A} (m : gmap path A) n a : m !! n = None → base.delete n (<[n := a]> m) = m.
Proof. apply delete_insert_id. Qed.

Lemma load_restores req name id st st' r (via_import : bool) :
  (∀ s, restores (req id s true)) → progress st !! name = None →
  (if via_import then load_via_import import_script namespace_exports req name id (update id (with_loaded false) st)
   else load_via_extensions extensions script req name id st) = Some (st', r) → r ≠ Panic →
  progress st' = progress st ∧ current_module st' = current_module st.
Proof.
  intros Hreq Hn. destruct via_import.
  - unfold load_via_import. pose proof (with_current_restores id _ (run_restores req id (import_script name) Hreq)) as Hw.
    destruct (with_current _ _ _) as [[st1 r1]|] eqn:E; [|done]. simpl.
    destruct r1 as [[]|e|]; intros [= <- <-] HP; [..|done];
      destruct (Hw _ _ _ E) as [Hp Hc]; try done; simpl in *; rewrite Hp; split; try done; by apply delete_inserted.
  - unfold load_via_extensions. destruct (is_loaded id st); [by intros [= <- <-]|].
    assert (Hgo : ∀ st0, progress st0 = progress st → current_module st0 = current_module st →
      (let st0 := note (Started name) (set_progress <[name := RecordObj id]> (update id (with_loaded false) st0)) in
       '(st, r) ← call_extension_handler extensions script req id name st0;
       match r with
       | Ok _ => Some (finish name id (exports_of id st) st, Ok (exports_of id st))
       | Err e => Some (fail name st, Err e)
       | Panic => Some (st, Panic)
       end) = Some (st', r) → r ≠ Panic →
      progress st' = progress st ∧ current_module st' = current_module st).
    { intros st0 Hp0 Hc0. cbn zeta.
      destruct (call_extension_handler _ _ _ _ _ _) as [[st1 r1]|] eqn:E; [|done]. simpl.
      destruct r1 as [[]|e|]; intros [= <- <-] HP; [..|done];
        destruct (handler_restores req id name Hreq _ _ _ E) as [Hp Hc]; try done; simpl in *;
        rewrite Hp, Hp0; (split; [by apply delete_inserted|congruence]). }
    destruct (rs_cache st !! name), (js_cache st !! name); try (by intros [= <- <-]);
      cbn [progress set_rs_cache]; rewrite Hn; by apply Hgo.
Qed.

Lemma require_restores fuel parent specifier link : restores (require fuel parent specifier link).
Proof.
  revert parent specifier link. induction fuel as [|fuel IH]; intros parent specifier link st st' r; [done|].
  cbn [require_from_module]. destruct (request parent specifier) as [[name via_import]| |]; [|by intros [= <- <-]..].
  destruct (lookup_module name st) as [st1 found] eqn:Hl. destruct (lookup_keeps _ _ _ _ Hl) as (Hp & Hc & _ & _ & _ & Hnone).
  destruct found as [v|]; [by intros [= <- <-]|]. destruct (Hnone eq_refl) as [Hn _].
  destruct (get_or_create_module_record name _ st1) as [st2 id] eqn:Hg.
  destruct (create_keeps _ _ _ _ _ Hg) as (Hp2 & Hc2 & _). intros Hload HP.
  destruct (load_restores (require fuel) name id st2 st' r via_import) as [Hp3 Hc3]; try done.
  - by rewrite Hp2, Hp.
  - split; congruence.
Qed.

(** * Termination *)

(** A script that requires nothing but specifiers in [S]. *)
Fixpoint within (S : path → Prop) (p : prog) : Prop :=
  match p with
  | Done | Throw _ => True
  | Require s k => S s ∧ ∀ r, within S (k r)
  | SetExports _ next | DeleteCache _ next => within S next
  end.

Lemma run_total (S : path → Prop) req self p st :
  within S p → (∀ s st1, S s → progress st1 = progress st → is_Some (req self s true st1)) →
  (∀ s, restores (req self s true)) → is_Some (run req self p st).
Proof.
  intros Hw Htot Hres. remember (progress st) as P eqn:HP. revert st HP.
  induction p as [|v|s k IH|v p IH|n p IH]; intros st HP; simpl in *; try by eexists.
  - destruct Hw as [Hs Hk]. destruct (Htot s st Hs ltac:(done)) as [[st1 r] E]. rewrite E. simpl.
    destruct r as [v|e|]; [..|by eexists]; destruct (Hres s _ _ _ E) as [Hp _]; try done; apply IH; auto; congruence.
  - by apply IH.
  - by apply IH.
Qed.

Lemma with_current_total {A} id (f : state → outcome A) st :
  is_Some (f (set_current (Some id) st)) → is_Some (with_current id f st).
Proof. unfold with_current. intros [[st1 r] ->]. by eexists. Qed.

Lemma load_total (S : path → Prop) req name id st (via_import : bool) :
  (∀ h, within S (script h name)) → within S (import_script name) →
  (∀ s st1, S s → dom (progress st1) = {[name]} ∪ dom (progress st) → is_Some (req id s true st1)) →
  (∀ s, restores (req id s true)) →
  is_Some (if via_import
    then load_via_import import_script namespace_exports req name id (update id (with_loaded false) st)
    else load_via_extensions extensions script req name id st).
Proof.
  intros Hw Hwi Htot Hres.
  assert (Hrun : ∀ p st1, within S p → dom (progress st1) = {[name]} ∪ dom (progress st) → is_Some (run req id p st1)).
  { intros p st1 Hp Hd. apply (run_total S); [done| |done]. intros s st2 Hs Hp2. apply Htot; [done|]. by rewrite Hp2. }
  destruct via_import.
  - unfold load_via_import.
    destruct (with_current_total id (run req id (import_script name))
      (note (Started name) (set_progress <[name := PlainObj]> (update id (with_loaded false) st)))) as [[st1 r] E].
    { apply Hrun; [done|]. simpl. by rewrite dom_insert_L. }
    rewrite E. simpl. destruct r; by eexists.
  - unfold load_via_extensions. destruct (is_loaded id st); [by eexists|].
    assert (Hgo : ∀ st0, progress st0 = progress st →
      is_Some (let st0 := note (Started name) (set_progress <[name := RecordObj id]> (update id (with_loaded false) st0)) in
       '(st, r) ← call_extension_handler extensions script req id name st0;
       match r with
       | Ok _ => Some (finish name id (exports_of id st) st, Ok (exports_of id st))
       | Err e => Some (fail name st, Err e)
       | Panic => Some (st, Panic)
       end)).
    { intros st0 Hp0. cbn zeta. set (st1 := note _ _).
      assert (Hd : dom (progress st1) = {[name]} ∪ dom (progress st)) by (simpl; by rewrite dom_insert_L, Hp0).
      assert (is_Some (call_extension_handler extensions script req id name st1)) as [[st2 r] E].
      { unfold call_extension_handler. destruct (resolve_extension_handler _ _) as [[]| |]; try by eexists.
        - apply with_current_total. by apply Hrun.
        - by apply Hrun.
        - by apply Hrun.
        - by apply Hrun. }
      rewrite E. simpl. destruct r; by eexists. }
    destruct (rs_cache st !! name), (js_cache st !! name); try (by eexists);
      cbn [progress set_rs_cache]; (destruct (progress st !! name); [by eexists|by apply Hgo]).
Qed.

(** C16. Requiring always ends, however the modules require each other: a
    module that is in progress is not entered again, so for scripts that
    require the specifiers [S], which are modules of the finite set [U], the
    depth of the calls is at most the number of modules of [U] not in
    progress.  And unless it panics, whether it returns or throws, the
    modules in progress and the current module are then what they were. *)
Theorem require_terminates (S : path → Prop) (U : gset path) fuel parent specifier link st :
  (∀ parent s name via_import, S s → request parent s = Ok (name, via_import) → name ∈ U) →
  (∀ name, name ∈ U → (∀ h, within S (script h name)) ∧ within S (import_script name)) →
  S specifier → (size (U ∖ dom (progress st)) < fuel)%nat →
  ∃ st' r, require fuel parent specifier link st = Some (st', r) ∧
    (r ≠ Panic → progress st' = progress st ∧ current_module st' = current_module st).
Proof.
  intros HU Hw Hspec Hf. cut (is_Some (require fuel parent specifier link st)).
  { intros [[st' r] E]. exists st', r. split; [done|]. by apply (require_restores _ _ _ _ _ _ _ E). }
  revert parent specifier link st Hspec Hf.
  induction fuel as [|fuel IH]; intros parent specifier link st Hspec Hf; [lia|].
  cbn [require_from_module]. destruct (request parent specifier) as [[name via_import]| |] eqn:Hr; [|by eexists..].
  destruct (lookup_module name st) as [st1 found] eqn:Hl. destruct (lookup_keeps _ _ _ _ Hl) as (Hp & _ & _ & _ & _ & Hnone).
  destruct found as [v|]; [by eexists|]. destruct (Hnone eq_refl) as [Hn _].
  destruct (get_or_create_module_record name _ st1) as [st2 id] eqn:Hg.
  destruct (create_keeps _ _ _ _ _ Hg) as (Hp2 & _). assert (HnU : name ∈ U) by (by eapply HU).
  apply (load_total S); [by apply Hw..| |intros s; apply require_restores].
  intros s st3 Hs Hd. apply IH; [done|]. rewrite Hd, Hp2, Hp.
  enough (size (U ∖ ({[name]} ∪ dom (progress st))) < size (U ∖ dom (progress st)))%nat by lia.
  apply subset_size. apply not_elem_of_dom in Hn. set_solver.
Qed.

(** * At most once *)

Definition count (e : event) (h : list event) : nat := length (filter (λ e', e' = e) h).
Lemma count_snoc e h e' : count e (h ++ [e']) = (count e h + if decide (e' = e) then 1 else 0)%nat.
Proof. unfold count. rewrite filter_app, length_app. cbn. by case_decide. Qed.

(** Whenever a module starts, all its earlier starts have failed. *)
Definition retries_only (h : list event) : Prop :=
  ∀ pre n post, h = pre ++ Started n :: post → count (Started n) pre = count (Failed n) pre.

Lemma retries_snoc h e :
  retries_only h → (∀ n, e = Started n → count (Started n) h = count (Failed n) h) → retries_only (h ++ [e]).
Proof.
  intros Hh He pre n post E. destruct post as [|e' post _] using rev_ind.
  - apply app_inj_tail in E as [<- ->]. by apply He.
  - rewrite app_comm_cons, (assoc_L (++)) in E. apply app_inj_tail in E as [-> _]. by apply (Hh _ _ post).
Qed.

Lemma retries_once h n : retries_only h → Failed n ∉ h → (count (Started n) h ≤ 1)%nat.
Proof.
  induction h as [|e h IH] using rev_ind; intros Hh Hn; [unfold count; simpl; lia|].
  rewrite elem_of_app, list_elem_of_singleton in Hn. rewrite count_snoc. case_decide as He.
  - subst e. rewrite (Hh h n []) by done. unfold count. destruct (filter (λ e', e' = Failed n) h) as [|e l] eqn:Hf; [simpl; lia|].
    assert (He : e ∈ filter (λ e', e' = Failed n) h) by (rewrite Hf; by left).
    apply list_elem_of_filter in He as [-> He]. naive_solver.
  - rewrite Nat.add_0_r. apply IH; [|naive_solver]. intros pre m post ->. apply (Hh pre m (post ++ [e])).
    by rewrite <- (assoc_L (++)).
Qed.

Record inv (st : state) : Prop := mkInv {
  inv_ids : ∀ n id, js_cache st !! n = Some id → (id < length (records st))%nat;
  inv_inj : ∀ n m id, js_cache st !! n = Some id → js_cache st !! m = Some id → n = m;
  inv_progress : ∀ n, is_Some (progress st !! n) → ∃ id, js_cache st !! n = Some id ∧ is_loaded id st = false;
  inv_finished : ∀ n, (0 < count (Finished n) (history st))%nat →
    ∃ id, js_cache st !! n = Some id ∧ is_loaded id st = true;
  inv_count : ∀ n, count (Started n) (history st) =
    (count (Failed n) (history st) + count (Finished n) (history st) + if decide (is_Some (progress st !! n)) then 1 else 0)%nat;
  inv_retries : retries_only (history st)
}.

Lemma length_update id f st : length (records (update id f st)) = length (records st).
Proof. apply length_alter. Qed.
Lemma loaded_update id id' f st : (∀ r, loaded (f r) = loaded r) → is_loaded id' (update id f st) = is_loaded id' st.
Proof.
  intros Hf. unfold is_loaded. simpl. destruct (decide (id = id')) as [->|Hne].
  - rewrite list_lookup_alter_eq. destruct (records st !! id'); [apply Hf|done].
  - by rewrite list_lookup_alter_ne.
Qed.
Lemma loaded_set_other id id' b st : id ≠ id' → is_loaded id' (update id (with_loaded b) st) = is_loaded id' st.
Proof. intros Hne. unfold is_loaded. simpl. by rewrite list_lookup_alter_ne. Qed.
Lemma loaded_set id b st : (id < length (records st))%nat → is_loaded id (update id (with_loaded b) st) = b.
Proof.
  intros Hid. unfold is_loaded. simpl. rewrite list_lookup_alter_eq.
  by destruct (lookup_lt_is_Some_2 _ _ Hid) as [r ->].
Qed.

(** The invariant depends only on these parts of the state. *)
Lemma inv_ext st st' :
  js_cache st' = js_cache st → progress st' = progress st → history st' = history st →
  length (records st') = length (records st) → (∀ id, is_loaded id st' = is_loaded id st) → inv st → inv st'.
Proof.
  intros Hj Hp Hh Hlen Hld [Hi Hn Hpr Hf Hc Hr]. split; rewrite ?Hj, ?Hp, ?Hh, ?Hlen; try done.
  - intros n Hs. destruct (Hpr n Hs) as (id & ? & ?). exists id. by rewrite Hld.
  - intros n Hs. destruct (Hf n Hs) as (id & ? & ?). exists id. by rewrite Hld.
Qed.

Lemma inv_create name parent st st' id :
  inv st → get_or_create_module_record name parent st = (st', id) →
  inv st' ∧ js_cache st' !! name = Some id ∧ (∀ n, n ≠ name → js_cache st' !! n = js_cache st !! n) ∧
  (js_cache st !! name = Some id ∨ is_loaded id st' = false).
Proof.
  intros Hinv. unfold get_or_create_module_record. destruct (js_cache st !! name) as [id0|] eqn:Hj.
  { intros [= <- <-]. split_and!; try done. by left. }
  intros [= <- <-]. set (fresh := mkRecord _ _ _ _).
  set (st1 := set_js_cache <[name := length (records st)]> (set_records (λ rs, rs ++ [fresh]) st)).
  assert (Hold : ∀ n i, js_cache st !! n = Some i → is_loaded i st1 = is_loaded i st).
  { intros n i Hi. unfold is_loaded. simpl. rewrite lookup_app_l; [done|]. by apply (inv_ids _ Hinv n). }
  assert (Hfresh : is_loaded (length (records st)) st1 = false).
  { unfold is_loaded. simpl. by rewrite lookup_app_r, Nat.sub_diag. }
  assert (H1 : inv st1).
  { destruct Hinv as [Hi Hn Hpr Hf Hc Hr]. split; simpl; try done.
    - intros n i. rewrite length_app. simpl. destruct (decide (n = name)) as [->|Hne].
      + rewrite lookup_insert_eq. intros [= <-]. lia.
      + rewrite lookup_insert_ne by done. intros ?%Hi. lia.
    - intros n m i. destruct (decide (n = name)) as [->|Hne1], (decide (m = name)) as [->|Hne2];
        rewrite ?lookup_insert_eq, ?lookup_insert_ne by done; try done.
      + intros [= <-] Hm%Hi. lia.
      + intros Hm%Hi [= <-]. lia.
      + apply Hn.
    - intros n Hs. destruct (Hpr n Hs) as (i & Hji & Hl). exists i.
      rewrite lookup_insert_ne by congruence. split; [done|]. by rewrite (Hold n).
    - intros n Hs. destruct (Hf n Hs) as (i & Hji & Hl). exists i.
      rewrite lookup_insert_ne by congruence. split; [done|]. by rewrite (Hold n). }
  assert (Hkeep : ∀ st2, st2 = match parent with Some p => update p (with_child (length (records st))) st1 | None => st1 end →
    inv st2 ∧ js_cache st2 = js_cache st1 ∧ is_loaded (length (records st)) st2 = false).
  { intros st2 ->. destruct parent as [p|]; [|done]. split_and!; [|done|by rewrite loaded_update].
    apply (inv_ext st1); try done; [apply length_update|]. intros i. by apply loaded_update. }
  destruct (Hkeep _ eq_refl) as (H2 & Hj2 & Hl2). rewrite !Hj2. split_and!; [done|..|by right].
  - apply lookup_insert_eq.
  - intros n Hne. by apply lookup_insert_ne.
Qed.

Lemma inv_start name id o st :
  inv st → js_cache st !! name = Some id → is_loaded id st = false → progress st !! name = None →
  inv (note (Started name) (set_progress <[name := o]> (update id (with_loaded false) st))).
Proof.
  intros Hinv Hj Hl Hp. assert (Hld : ∀ i, is_loaded i (update id (with_loaded false) st) = is_loaded i st).
  { intros i. destruct (decide (id = i)) as [->|Hne]; [|by apply loaded_set_other].
    rewrite loaded_set; [done|]. by apply (inv_ids _ Hinv name). }
  assert (Hzero : count (Finished name) (history st) = 0%nat).
  { destruct (count (Finished name) (history st)) as [|k] eqn:Hk; [done|].
    destruct (inv_finished _ Hinv name ltac:(lia)) as (i & Hi & Hli). congruence. }
  destruct Hinv as [Hi Hn Hpr Hf Hc Hr]. split; simpl; rewrite ?length_alter; try done.
  - intros n Hs. destruct (decide (n = name)) as [->|Hne].
    + exists id. split; [done|]. etrans; [apply Hld|done].
    + rewrite lookup_insert_ne in Hs by done. destruct (Hpr n Hs) as (i & ? & ?). exists i.
      split; [done|]. etrans; [apply Hld|done].
  - intros n. rewrite count_snoc, decide_False by done. rewrite Nat.add_0_r. intros Hs.
    destruct (Hf n Hs) as (i & ? & ?). exists i. split; [done|]. etrans; [apply Hld|done].
  - intros n. rewrite !count_snoc, (decide_False (P := Started name = Failed n)), (decide_False (P := Started name = Finished n)) by done.
    specialize (Hc n). destruct (decide (n = name)) as [->|Hne].
    + rewrite lookup_insert_eq. rewrite decide_True by done. rewrite (decide_True (P := is_Some (Some o))) by done.
      rewrite Hp, decide_False in Hc by (by intros []). lia.
    + rewrite lookup_insert_ne by done. rewrite (decide_False (P := Started name = Started n)) by congruence. lia.
  - apply retries_snoc; [done|]. intros n [= <-]. specialize (Hc name).
    rewrite Hp, (decide_False (P := is_Some None)) in Hc by (by intros []). lia.
Qed.

Lemma inv_finish name id v st :
  inv st → js_cache st !! name = Some id → is_Some (progress st !! name) → inv (finish name id v st).
Proof.
  intros Hinv Hj Hp. assert (Hid : (id < length (records st))%nat) by (by apply (inv_ids _ Hinv name)).
  assert (Hld : ∀ n i, js_cache st !! n = Some i → n ≠ name → is_loaded i (update id (with_loaded true) st) = is_loaded i st).
  { intros n i Hi Hne. apply loaded_set_other. intros ->. by apply Hne, (inv_inj _ Hinv _ _ i). }
  destruct Hinv as [Hi Hn Hpr Hf Hc Hr]. split; simpl; rewrite ?length_alter; try done.
  - intros n Hs. destruct (decide (n = name)) as [->|Hne]; [by rewrite lookup_delete_eq in Hs; destruct Hs|].
    rewrite lookup_delete_ne in Hs by done. destruct (Hpr n Hs) as (i & ? & ?). exists i.
    split; [done|]. etrans; [by apply (Hld n)|done].
  - intros n. rewrite count_snoc. intros Hs. destruct (decide (n = name)) as [->|Hne].
    + exists id. split; [done|]. by apply (loaded_set id true st).
    + rewrite decide_False in Hs by congruence. destruct (Hf n ltac:(lia)) as (i & ? & ?). exists i.
      split; [done|]. etrans; [by apply (Hld n)|done].
  - intros n. rewrite !count_snoc, (decide_False (P := Finished name = Failed n)), (decide_False (P := Finished name = Started n)) by done.
    specialize (Hc n). destruct (decide (n = name)) as [->|Hne].
    + rewrite lookup_delete_eq, decide_True by done. rewrite (decide_False (P := is_Some None)) by (by intros []).
      rewrite decide_True in Hc by done. lia.
    + rewrite lookup_delete_ne by done. rewrite (decide_False (P := Finished name = Finished n)) by congruence. lia.
  - by apply retries_snoc.
Qed.

Lemma inv_fail name st : inv st → is_Some (progress st !! name) → inv (fail name st).
Proof.
  intros Hinv Hp. assert (Hzero : count (Finished name) (history st) = 0%nat).
  { destruct (count (Finished name) (history st)) as [|k] eqn:Hk; [done|].
    destruct (inv_finished _ Hinv name ltac:(lia)) as (i & Hi & Hli).
    destruct (inv_progress _ Hinv name Hp) as (i' & Hi' & Hli'). congruence. }
  destruct Hinv as [Hi Hn Hpr Hf Hc Hr]. split; simpl.
  - intros n i [_ ?]%lookup_delete_Some. by apply (Hi n).
  - intros n m i [_ ?]%lookup_delete_Some [_ ?]%lookup_delete_Some. by apply (Hn _ _ i).
  - intros n Hs. destruct (decide (n = name)) as [->|Hne]; [by rewrite lookup_delete_eq in Hs; destruct Hs|].
    rewrite lookup_delete_ne in Hs by done. destruct (Hpr n Hs) as (i & ? & ?). exists i. by rewrite lookup_delete_ne.
  - intros n. rewrite count_snoc, decide_False by done. rewrite Nat.add_0_r. intros Hs.
    destruct (Hf n Hs) as (i & ? & ?). exists i. rewrite lookup_delete_ne by (intros ->; lia). done.
  - intros n. rewrite !count_snoc, (decide_False (P := Failed name = Finished n)), (decide_False (P := Failed name = Started n)) by done.
    specialize (Hc n). destruct (decide (n = name)) as [->|Hne].
    + rewrite lookup_delete_eq, decide_True by done. rewrite (decide_False (P := is_Some None)) by (by intros []).
      rewrite decide_True in Hc by done. lia.
    + rewrite lookup_delete_ne by done. rewrite (decide_False (P := Failed name = Failed n)) by congruence. lia.
  - by apply retries_snoc.
Qed.

(** Scripts that delete nothing from [require.cache]. *)
Fixpoint quiet (p : prog) : Prop :=
  match p with
  | Done | Throw _ => True
  | Require _ k => ∀ r, quiet (k r)
  | SetExports _ next => quiet next
  | DeleteCache _ _ => False
  end.
Definition quiet_scripts : Prop := (∀ h n, quiet (script h n)) ∧ ∀ n, quiet (import_script n).

(** The invariant holds after, the modules in progress and their records are
    the same. *)
Definition keeps {A} (f : state → outcome A) : Prop :=
  ∀ st st' r, inv st → f st = Some (st', r) → r ≠ Panic →
    inv st' ∧ progress st' = progress st ∧
    ∀ n, is_Some (progress st !! n) → js_cache st' !! n = js_cache st !! n.

Lemma run_keeps req self p : quiet p → (∀ s, keeps (req self s true)) → keeps (run req self p).
Proof.
  intros Hq Hreq. induction p as [|v|s k IH|v p IH|n p IH]; intros st st' r Hinv; simpl in *.
  - by intros [= <- <-].
  - by intros [= <- <-].
  - destruct (req self s true st) as [[st1 r1]|] eqn:E; [|done]. simpl. intros Hr HP.
    assert (Hgo : ∀ x, run req self (k x) st1 = Some (st', r) → r1 ≠ Panic →
      inv st' ∧ progress st' = progress st ∧ ∀ n, is_Some (progress st !! n) → js_cache st' !! n = js_cache st !! n).
    { intros x Hx HP1. destruct (Hreq s _ _ _ Hinv E HP1) as (Hi1 & Hp1 & Hj1).
      destruct (IH x (Hq x) _ _ _ Hi1 Hx HP) as (Hi2 & Hp2 & Hj2). split_and!; [done|congruence|].
      intros n Hs. rewrite Hj2 by (by rewrite Hp1). by apply Hj1. }
    destruct r1 as [v|e|]; [by apply (Hgo (inl v))|by apply (Hgo (inr e))|by simplify_eq].
  - intros Hr HP. assert (Hinv0 : inv (update self (with_exports v) st)).
    { apply (inv_ext st); try done; [apply length_update|]. intros i. by apply loaded_update. }
    exact (IH Hq _ _ _ Hinv0 Hr HP).
  - done.
Qed.

Lemma with_current_keeps {A} id (f : state → outcome A) : keeps f → keeps (with_current id f).
Proof.
  intros Hf st st' r Hinv. unfold with_current.
  destruct (f (set_current (Some id) st)) as [[st1 r1]|] eqn:E; [|done]. simpl. intros [= <- <-] HP.
  assert (Hinv1 : inv (set_current (Some id) st)) by (by apply (inv_ext st)).
  destruct (Hf _ _ _ Hinv1 E HP) as (Hi & Hp & Hj). split_and!; try done. by apply (inv_ext st1).
Qed.

Lemma handler_keeps req id name :
  quiet_scripts → (∀ s, keeps (req id s true)) → keeps (call_extension_handler extensions script req id name).
Proof.
  intros [Hq _] Hreq st st' r Hinv. unfold call_extension_handler.
  destruct (resolve_extension_handler _ _) as [[]| |]; try (by intros [= <- <-]);
    try (by apply run_keeps). by apply with_current_keeps; [apply run_keeps|].
Qed.

(** From the start of a module to its end, whichever it is. *)
Lemma body_keeps {A} (f : state → outcome A) name id o st st' (r : res exn A) :
  keeps f → inv st → js_cache st !! name = Some id → is_loaded id st = false → progress st !! name = None →
  f (note (Started name) (set_progress <[name := o]> (update id (with_loaded false) st))) = Some (st', r) → r ≠ Panic →
  inv st' ∧ progress st' = <[name := o]> (progress st) ∧ js_cache st' !! name = Some id ∧
  ∀ n, is_Some (progress st !! n) → js_cache st' !! n = js_cache st !! n.
Proof.
  intros Hf Hinv Hj Hl Hp Hrun HP.
  destruct (Hf _ _ _ (inv_start name id o st Hinv Hj Hl Hp) Hrun HP) as (Hi & Hp' & Hj'). simpl in *.
  split_and!; [done..| |].
  - rewrite Hj'; [done|]. by rewrite lookup_insert_eq.
  - intros n Hs. apply Hj'. rewrite lookup_insert_ne; [done|]. intros ->. rewrite Hp in Hs. by destruct Hs.
Qed.

(** How a module that was not loaded is left. *)
Definition settled (name : path) (r : res exn value) (st st' : state) : Prop :=
  inv st' ∧ progress st' = progress st ∧
  (∀ n, is_Some (progress st !! n) → js_cache st' !! n = js_cache st !! n) ∧
  match r with
  | Ok v => ∃ id, js_cache st' !! name = Some id ∧ is_loaded id st' = true ∧ exports_of id st' = v
  | Err _ => js_cache st' !! name = None ∧ rs_cache st' !! name = None
  | Panic => True
  end.

Lemma settled_ok name id o v st st' :
  inv st' → progress st' = <[name := o]> (progress st) → js_cache st' !! name = Some id → progress st !! name = None →
  (∀ n, is_Some (progress st !! n) → js_cache st' !! n = js_cache st !! n) → exports_of id st' = v →
  settled name (Ok v) st (finish name id v st').
Proof.
  intros Hi Hp Hj Hn Hk Hv. assert (Hid : (id < length (records st'))%nat) by (by apply (inv_ids _ Hi name)).
  split_and!; [|simpl; rewrite Hp; by apply delete_inserted|done|].
  - apply inv_finish; [done..|]. rewrite Hp. by rewrite lookup_insert_eq.
  - exists id. split_and!; [done|by apply (loaded_set id true st')|]. rewrite <- Hv. unfold exports_of. simpl.
    rewrite list_lookup_alter_eq. by destruct (records st' !! id).
Qed.

Lemma settled_err name id o e st st' :
  inv st' → progress st' = <[name := o]> (progress st) → js_cache st' !! name = Some id → progress st !! name = None →
  (∀ n, is_Some (progress st !! n) → js_cache st' !! n = js_cache st !! n) → settled name (Err e) st (fail name st').
Proof.
  intros Hi Hp Hj Hn Hk. split_and!; [|simpl; rewrite Hp; by apply delete_inserted|..].
  - apply inv_fail; [done|]. rewrite Hp. by rewrite lookup_insert_eq.
  - intros n Hs. simpl. rewrite lookup_delete_ne; [by apply Hk|]. intros ->. rewrite Hn in Hs. by destruct Hs.
  - simpl. apply lookup_delete_eq.
  - simpl. apply lookup_delete_eq.
Qed.

Lemma import_settled req name id st st' r :
  quiet_scripts → (∀ s, keeps (req id s true)) → inv st → js_cache st !! name = Some id → is_loaded id st = false →
  progress st !! name = None →
  load_via_import import_script namespace_exports req name id (update id (with_loaded false) st) = Some (st', r) →
  r ≠ Panic → settled name r st st'.
Proof.
  intros [_ Hq] Hreq Hinv Hj Hl Hp. unfold load_via_import.
  pose proof (with_current_keeps id _ (run_keeps req id (import_script name) (Hq name) Hreq)) as Hk.
  destruct (with_current _ _ _) as [[st1 r1]|] eqn:E; [|done]. simpl. intros Hr HP.
  assert (r1 ≠ Panic) as HP1 by (by intros ->; simplify_eq).
  destruct (body_keeps _ _ _ _ _ _ _ Hk Hinv Hj Hl Hp E HP1) as (Hi & Hp' & Hj' & Hfr).
  destruct r1 as [[]|e|]; simplify_eq; [|by eapply settled_err].
  assert (Hid : (id < length (records st1))%nat) by (by apply (inv_ids _ Hi name)).
  eapply settled_ok; try done.
  - apply (inv_ext st1); try done; [apply length_update|]. intros i. by apply loaded_update.
  - unfold exports_of. simpl. rewrite list_lookup_alter_eq. by destruct (lookup_lt_is_Some_2 _ _ Hid) as [rec ->].
Qed.

Lemma extensions_settled req name id st st' r :
  quiet_scripts → (∀ s, keeps (req id s true)) → inv st → js_cache st !! name = Some id → is_loaded id st = false →
  progress st !! name = None → rs_cache st !! name = None →
  load_via_extensions extensions script req name id st = Some (st', r) → r ≠ Panic → settled name r st st'.
Proof.
  intros Hq Hreq Hinv Hj Hl Hp Hrs. unfold load_via_extensions. rewrite Hl, Hrs. cbn zeta. cbn [progress set_rs_cache]. rewrite Hp.
  set (st0 := set_rs_cache (base.delete name) st). assert (Hinv0 : inv st0) by (by apply (inv_ext st)).
  destruct (call_extension_handler _ _ _ _ _ _) as [[st1 r1]|] eqn:E; [|done]. simpl. intros Hr HP.
  assert (r1 ≠ Panic) as HP1 by (by intros ->; simplify_eq).
  destruct (body_keeps _ _ _ _ st0 _ _ (handler_keeps req id name Hq Hreq) Hinv0 Hj Hl Hp E HP1) as (Hi & Hp' & Hj' & Hfr).
  destruct r1 as [[]|e|]; simplify_eq; [by eapply settled_ok|by eapply settled_err].
Qed.

Lemma lookup_uncached name st st' : lookup_module name st = (st', None) → rs_cache st' !! name = None.
Proof.
  unfold lookup_module. intros Hl. destruct (js_cache st !! name) as [id|]; simpl in Hl.
  - destruct (is_loaded id st); [done|]. destruct (rs_cache st !! name) eqn:Hr; [done|]. by injection Hl as <- _.
  - destruct (rs_cache st !! name) eqn:Hr; injection Hl as <- _; [apply lookup_delete_eq|done].
Qed.
Lemma lookup_again name st st' v :
  lookup_module name st = (st', Some v) → progress st !! name = None → st' = st.
Proof.
  unfold lookup_module. intros Hl Hp. destruct (js_cache st !! name) as [id|]; simpl in Hl.
  - destruct (is_loaded id st); [by injection Hl as <- _|].
    destruct (rs_cache st !! name); [by injection Hl as <- _|]. by rewrite Hp in Hl.
  - destruct (rs_cache st !! name); simpl in Hl; by rewrite Hp in Hl.
Qed.
Lemma lookup_loaded name id st :
  js_cache st !! name = Some id → is_loaded id st = true → lookup_module name st = (st, Some (exports_of id st)).
Proof. intros Hj Hl. unfold lookup_module. rewrite Hj. simpl. by rewrite Hl. Qed.

(** Loading what the caches do not have. *)
Lemma require_load req name parent st st1 st2 st' id (via_import : bool) r :
  quiet_scripts → (∀ s, keeps (req id s true)) → inv st → lookup_module name st = (st1, None) →
  get_or_create_module_record name parent st1 = (st2, id) →
  (if via_import
   then load_via_import import_script namespace_exports req name id (update id (with_loaded false) st2)
   else load_via_extensions extensions script req name id st2) = Some (st', r) →
  r ≠ Panic → settled name r st st'.
Proof.
  intros Hq Hreq Hinv Hl Hg Hload HP.
  destruct (lookup_keeps _ _ _ _ Hl) as (Hp & _ & Hh & Hj & Hrec & Hnone). destruct (Hnone eq_refl) as [Hn Hld].
  assert (Hinv1 : inv st1).
  { apply (inv_ext st); try done; [by rewrite Hrec|]. intros i. unfold is_loaded. by rewrite Hrec. }
  destruct (inv_create _ _ _ _ _ Hinv1 Hg) as (Hinv2 & Hj2 & Hframe & Hl2).
  destruct (create_keeps _ _ _ _ _ Hg) as (Hp2 & _ & Hh2 & Hrs2).
  assert (Hl3 : is_loaded id st2 = false).
  { destruct Hl2 as [Hold|]; [|done]. unfold get_or_create_module_record in Hg. rewrite Hold in Hg. injection Hg as <-.
    rewrite Hj in Hold. unfold is_loaded. rewrite Hrec. by apply Hld. }
  assert (Hn2 : progress st2 !! name = None) by (by rewrite Hp2, Hp).
  assert (Hset : settled name r st2 st').
  { destruct via_import; [by eapply import_settled|]. eapply extensions_settled; try done.
    rewrite Hrs2. by apply (lookup_uncached _ _ _ Hl). }
  destruct Hset as (Hi & Hp' & Hj' & Hr). split_and!; [done|congruence| |done].
  intros n Hs. rewrite Hj' by (by rewrite Hp2, Hp). rewrite <- Hj. apply Hframe. intros ->.
  rewrite Hn in Hs. by destruct Hs.
Qed.

Lemma require_keeps fuel parent specifier link : quiet_scripts → keeps (require fuel parent specifier link).
Proof.
  intros Hq. revert parent specifier link. induction fuel as [|fuel IH]; intros parent specifier link st st' r Hinv; [done|].
  cbn [require_from_module]. destruct (request parent specifier) as [[name via_import]| |]; [|by intros [= <- <-]..].
  destruct (lookup_module name st) as [st1 found] eqn:Hl. destruct found as [v|].
  - destruct (lookup_keeps _ _ _ _ Hl) as (Hp & _ & Hh & Hj & Hrec & _). intros [= <- <-] _. split_and!; [|done|by rewrite Hj].
    apply (inv_ext st); try done; [by rewrite Hrec|]. intros i. unfold is_loaded. by rewrite Hrec.
  - destruct (get_or_create_module_record name _ st1) as [st2 id] eqn:Hg. intros Hload HP.
    pose proof (require_load (require fuel) _ _ _ _ _ _ _ _ _ Hq (λ s, IH id s true) Hinv Hl Hg Hload HP) as Hset.
    by destruct Hset as (? & ? & ? & _).
Qed.

(** A sequence of requires, by the same module or others, each of which may
    throw. *)
Fixpoint requires (fuel : nat) (l : list (nat * path)) (st : state) : option state :=
  match l with
  | [] => Some st
  | (parent, specifier) :: l =>
      '(st, r) ← require fuel parent specifier true st;
      match r with Panic => None | _ => requires fuel l st end
  end.

Definition initial : state := mkState [] ∅ ∅ ∅ None [].

Lemma inv_initial : inv initial.
Proof using.
  clear script import_script namespace_exports resolve_filename.
  split; try done.
  - intros n [o Ho]. change (progress initial) with (∅ : gmap path in_progress) in Ho. by rewrite lookup_empty in Ho.
  - intros n. unfold count. simpl. lia.
  - by intros [|? pre].
Qed.

(** C17. A script is run again only after it failed: in any sequence of
    requires by scripts that delete nothing from [require.cache], whatever they
    require in turn and catch, every start of a module comes after as many
    failures as there were starts, so that one that never failed was started
    once at most. *)
Theorem module_runs_once fuel l st :
  quiet_scripts → requires fuel l initial = Some st →
  retries_only (history st) ∧
  ∀ n, Failed n ∉ history st → (count (Started n) (history st) ≤ 1)%nat.
Proof.
  intros Hq Hr. assert (Hinv : inv st).
  { revert Hr. generalize inv_initial. generalize initial. induction l as [|[parent s] l IH]; intros st0 Hinv.
    - by intros [= <-].
    - simpl. destruct (require fuel parent s true st0) as [[st1 r]|] eqn:E; [|done]. simpl.
      destruct r as [v|e|]; [..|done]; apply IH; by apply (require_keeps _ _ _ _ Hq _ _ _ Hinv E). }
  split; [apply Hinv|]. intros n Hn. apply retries_once; [apply Hinv|done].
Qed.

End Loader.

(** * Extensions and names *)

(** [i] is where an extension may begin: a dot, but not at the start. *)
Definition dot_at (name : path) (i : nat) : Prop := (0 < i)%nat ∧ name !! i = Some 46.

Lemma extension_loop_ok fuel registered name start :
  (length name ≤ fuel + start)%nat →
  (∃ i, (start ≤ i)%nat ∧ dot_at name i ∧ extension_loop fuel registered name start = drop i name ∧
    registered (drop i name) = true ∧
    ∀ j, (start ≤ j < i)%nat → dot_at name j → registered (drop j name) = false) ∨
  (extension_loop fuel registered name start = bs ".js" ∧
    ∀ j, (start ≤ j)%nat → dot_at name j → registered (drop j name) = false).
Proof.
  revert start. induction fuel as [|fuel IH]; intros start Hf; cbn [extension_loop].
  { right. split; [done|]. intros j Hj [_ Hd]. apply lookup_lt_Some in Hd. lia. }
  destruct (find_pos (λ c, c =? 46) (drop start name)) as [k|] eqn:Hk.
  2: { right. split; [done|]. intros j Hj [_ Hd]. apply find_pos_None in Hk. rewrite Forall_lookup in Hk.
       specialize (Hk (j - start)%nat 46). rewrite lookup_drop in Hk.
       replace (start + (j - start))%nat with j in Hk by lia. by apply Hk in Hd. }
  apply find_pos_Some in Hk as (c & Hc & Hdot & Hbefore). rewrite lookup_drop in Hc. apply Z.eqb_eq in Hdot as ->.
  assert (Hskip : ∀ j, (start ≤ j < start + k)%nat → ¬ dot_at name j).
  { intros j Hj [_ Hd]. rewrite Forall_lookup in Hbefore. specialize (Hbefore (j - start)%nat 46).
    rewrite lookup_take_lt, lookup_drop in Hbefore by lia.
    replace (start + (j - start))%nat with j in Hbefore by lia. by apply Hbefore in Hd. }
  assert (Hlt : (start + k < length name)%nat) by (by apply lookup_lt_Some in Hc).
  destruct (Nat.eqb_spec (start + k) 0) as [H0|H0]; [|destruct (registered (drop (start + k) name)) eqn:Hreg].
  2: { left. exists (start + k)%nat. split_and!; [lia|split; [lia|done]|done|done|].
       intros j Hj Hd. exfalso. by apply (Hskip j). }
  all: destruct (IH (start + k + 1)%nat ltac:(lia)) as [(i & Hi & Hd & He & Hr & Hj)|[He Hj]]; [left|right].
  all: try (exists i; split_and!; [lia|done..|]).
  all: try (split; [done|]).
  all: intros j Hle Hdj; destruct (decide (start + k < j)%nat) as [|Hge]; [apply Hj; [lia|done]|].
  all: destruct (decide (j = start + k)%nat) as [->|]; [|exfalso; apply (Hskip j); [lia|done]].
  1, 2: destruct Hdj as [Hpos _]; lia.
  all: done.
Qed.

(** The handler of a file is that of its longest registered extension, and
    there always is one. *)
Lemma handler_found extensions filename :
  ∃ h, resolve_extension_handler extensions (find_longest_registered_extension extensions filename) = Ok h.
Proof.
  unfold find_longest_registered_extension. set (name := basename filename None).
  destruct (extension_loop_ok (length name) (λ ext, bool_decide (is_Some (extensions !! ext))) name 0 ltac:(lia))
    as [(i & _ & _ & -> & Hr & _)|[-> _]]; unfold resolve_extension_handler.
  - apply bool_decide_eq_true in Hr as [h ->]. by eexists.
  - destruct (extensions !! bs ".js"); by eexists.
Qed.

(** [isBuiltin] and the resolution of built-in names agree, when no disabled
    name is an ordinary one. *)
Lemma builtin_agree names request :
  disabled_node_only names ## ordinary names →
  is_builtin names request = bool_decide (is_Some (resolve_builtin names request)).
Proof.
  intros Hdis. assert (Hsome : ∀ x : path, bool_decide (is_Some (Some x)) = true) by (intros x; by apply bool_decide_eq_true).
  assert (Hnone : bool_decide (is_Some (@None path)) = false) by (apply bool_decide_eq_false; by intros []).
  unfold is_builtin, resolve_builtin. destruct (strip_node _) as [bare|].
  - repeat case_decide; rewrite ?Hsome, ?Hnone; try done; case_bool_decide; done.
  - set (r := trim_slashes request). specialize (Hdis r).
    repeat case_decide; rewrite ?Hsome, ?Hnone; repeat case_bool_decide; naive_solver.
Qed.
