(* ===== verification/ModuleLoaderRef.v ===== *)
(** Runs of the CommonJS loader on a few modules that require each other:
    applications of the theorems of [ModuleLoaderProofs], and cases in which
    the loader does not do what Node does. *)

From S2P Require Import Prelude Unicode Path Resolver ResolverRef ModuleLoader ModuleLoaderProofs.

Definition the_names : ModuleNames := mkNames {[bs "fs"]} {[bs "test"]} {[bs "sqlite"]}.
Definition the_extensions : gmap path handler := {[bs ".js" := NativeJs; bs ".json" := NativeJson]}.

(** An exception that is not caught. *)
Definition uncaught (k : value → prog) (r : value + exn) : prog :=
  match r with inl v => k v | inr _ => Throw (Data 0) end.

(** [a] and [b] require each other, each exporting what it got; [c] throws once
    it has required [a]; [d] catches that and requires [c] again. *)
Definition the_script (h : handler) (name : path) : prog :=
  if decide (name = bs "/a.js") then Require (bs "/b.js") (uncaught (λ v, SetExports v Done))
  else if decide (name = bs "/b.js") then Require (bs "/a.js") (uncaught (λ v, SetExports v Done))
  else if decide (name = bs "/c.js") then Require (bs "/a.js") (uncaught (λ _, Throw (Data 1)))
  else if decide (name = bs "/d.js") then
    Require (bs "/c.js") (λ _, Require (bs "/c.js") (λ _, SetExports (Data 2) Done))
  else if decide (name = bs "/user.js") then Require (bs "fs") (uncaught (λ v, SetExports v Done))
  else SetExports (Data 3) Done.

(** The built-in module requires a script that requires it. *)
Definition the_import (name : path) : prog :=
  if decide (name = bs "fs") then Require (bs "/user.js") (uncaught (λ _, Done)) else Done.

Definition files : list path := [bs "/a.js"; bs "/b.js"; bs "/c.js"; bs "/d.js"; bs "/user.js"; bs "fs"].
Definition the_resolve (parent : nat) (specifier : path) : res exn path :=
  if decide (specifier ∈ files) then Ok specifier else Err (ModuleNotFound specifier).

Abbreviation the_require :=
  (require_from_module the_names the_extensions the_script the_import (λ _, Data 9) the_resolve).

(** * Applications *)

Ltac by_file H :=
  apply list_elem_of_In in H; cbn [files In] in H; destruct H as [<-|[<-|[<-|[<-|[<-|[<-|[]]]]]]].

Lemma the_request parent s name via_import :
  s ∈ files → resolve_request the_names the_resolve parent s = Ok (name, via_import) → name ∈ files.
Proof.
  intros Hs. assert (Hr : match resolve_request the_names the_resolve parent s with
    | Ok (name, _) => bool_decide (name ∈ files) = true | _ => True end) by (by_file Hs; by vm_compute).
  intros E. rewrite E in Hr. by apply bool_decide_eq_true in Hr.
Qed.

Lemma uncaught_within (S : path → Prop) k : (∀ v, within S (k v)) → ∀ r, within S (uncaught k r).
Proof. by intros Hk [v|e]; [apply Hk|]. Qed.

Lemma the_scripts_within name :
  (∀ h, within (λ s, s ∈ files) (the_script h name)) ∧ within (λ s, s ∈ files) (the_import name).
Proof.
  assert (Hin : ∀ s, bool_decide (s ∈ files) = true → s ∈ files) by (intros s; apply bool_decide_eq_true).
  split; [intros h; unfold the_script|unfold the_import]; repeat case_decide; try done;
    (split; [by apply Hin; vm_compute|]); try by apply uncaught_within.
  intros _. split; [by apply Hin; vm_compute|done].
Qed.

Lemma require_terminates_witness :
  ∃ st' r, the_require 7 0 (bs "/d.js") true initial = Some (st', r) ∧
    (r ≠ Panic → progress st' = progress initial ∧ current_module st' = current_module initial).
Proof.
  apply (require_terminates _ _ _ _ _ _ (λ s, s ∈ files) (list_to_set files)).
  - intros parent s name via_import Hs Hr. apply elem_of_list_to_set. by apply (the_request parent s _ via_import).
  - intros name _. apply the_scripts_within.
  - cbn beta. apply (bool_decide_unpack _). by vm_compute.
  - apply Nat.ltb_lt. by vm_compute.
Defined.

Lemma the_scripts_quiet : quiet_scripts the_script the_import.
Proof.
  assert (Hu : ∀ k, (∀ v, quiet (k v)) → ∀ r, quiet (uncaught k r)) by (by intros k Hk [v|e]; [apply Hk|]).
  split; [intros h n; unfold the_script|intros n; unfold the_import]; repeat case_decide; try done;
    cbn [quiet]; try (apply Hu; done); done.
Qed.

(** [d] and then [a]: [a], [b] and [d] run once, [c] twice, and [b] got the
    exports of [a] before it had set them. *)
Definition the_run : option state :=
  requires the_names the_extensions the_script the_import (λ _, Data 9) the_resolve 7
    [(0%nat, bs "/d.js"); (0%nat, bs "/a.js")] initial.

Lemma module_runs_once_witness :
  ∃ st, the_run = Some st ∧ retries_only (history st) ∧
    (∀ n, Failed n ∉ history st → (count (Started n) (history st) ≤ 1)%nat) ∧
    count (Started (bs "/c.js")) (history st) = 2%nat.
Proof.
  destruct the_run as [st|] eqn:E; [|by vm_compute in E]. exists st. split; [done|].
  destruct (module_runs_once _ _ _ _ _ _ _ _ _ the_scripts_quiet E) as [Hr Ho]. split_and!; [exact Hr|exact Ho|].
  vm_compute in E. injection E as <-. reflexivity.
Defined.


(** * What the loader does *)

(** A built-in module that is required while it is being loaded is undefined:
    the object kept for it has no [exports]. *)
Example import_in_progress_undefined :
  (snd <$> (the_require 7 0 (bs "fs") true initial)) = Some (Ok (Data 9)) ∧
  ∃ st, fst <$> (the_require 7 0 (bs "fs") true initial) = Some st ∧
    (id ← js_cache st !! bs "/user.js"; Some (exports_of id st)) = Some Undefined.
Proof. split; [by vm_compute|]. eexists. split; vm_compute; reflexivity. Qed.

(** An invalid [package.json] is reported as a missing module. *)
Example invalid_package_hidden :
  let E := sample_env [(bs "/app/b.js", []); (bs "/app/package.json", [9])] [] in
  (default_resolve_filename E the_names None (bs "./b") (bs "/app/a.js") None ∅).1 = Err (ModuleNotFound (bs "./b")).
Proof. by vm_compute. Qed.

(** Names with and without [node:]. *)
Example node_prefix :
  resolve_require_builtin_request the_names (bs "node:fs") = Some (bs "node:fs") ∧
  resolve_builtin the_names (bs "node:fs/") = Some (bs "fs") ∧
  resolve_builtin the_names (bs "test") = None ∧
  resolve_builtin the_names (bs "node:test") = Some (bs "node:test").
Proof. by vm_compute. Qed.
