(* ===== verification/WireCodec.v ===== *)
(** The wire format of structured clones between workers
    ([libs/raster_runtime_utils/src/clone_wire.rs], the byte level): nodes,
    their bytes and the reader.

    Doubles are their 64 bits, strings lists of characters that are written in
    UTF-8.  Positions are [usize]; the reader checks them before every slice. *)

From S2P Require Import Prelude Unicode.

Definition MAGIC : list Z := bs "RSC1".

Inductive WireNode :=
  | WRef (id : Z)
  | WUndefined
  | WNull
  | WBool (b : bool)
  | WNumber (bits : Z)
  | WString (s : rstring)
  | WBigInt (s : rstring)
  | WArray (items : list Z)
  | WObject (props : list (rstring * Z))
  | WDate (bits : Z)
  | WRegExp (source flags : rstring)
  | WError (message : rstring)
  | WArrayBufferCopy (bytes : list Z)
  | WSharedArrayBuffer (id : Z)
  | WSharedView (id byte_offset byte_length : Z) (view_name : rstring)
  | WMap (pairs : list (Z * Z))
  | WSet (items : list Z).

#[export] Instance WireNode_eq_dec : EqDecision WireNode.
Proof. solve_decision. Defined.

Record CloneWirePayload := mkPayload { body : list Z; transfers : list (list Z) }.

(** * Writing *)

(** [to_be_bytes] of an [n]-byte integer. *)
Fixpoint be_bytes (n : nat) (v : Z) : list Z :=
  match n with
  | O => []
  | S n => (v `div` 256 ^ Z.of_nat n) `mod` 256 :: be_bytes n v
  end.
Definition from_be_bytes (l : list Z) : Z := foldl (λ acc b, acc * 256 + b) 0 l.

Definition write_u32 (v : Z) : list Z := be_bytes 4 v.
Definition write_u64 (v : Z) : list Z := be_bytes 8 v.
Definition write_f64 (bits : Z) : list Z := be_bytes 8 bits.

(** [len as u32]: [be_bytes] keeps the low 32 bits. *)
Definition write_len {A} (l : list A) : list Z := write_u32 (as_u32 (Z.of_nat (length l))).
Definition write_bytes (bytes : list Z) : list Z := write_len bytes ++ bytes.
Definition write_str (s : rstring) : list Z := write_bytes (to_utf8 s).

Definition write_all {A} (f : A → list Z) (l : list A) : list Z := write_len l ++ mjoin (f <$> l).

Definition write_node (node : WireNode) : list Z :=
  match node with
  | WRef id => [1] ++ write_u32 id
  | WUndefined => [2]
  | WNull => [3]
  | WBool b => [4; if b then 1 else 0]
  | WNumber n => [5] ++ write_f64 n
  | WString s => [6] ++ write_str s
  | WBigInt s => [7] ++ write_str s
  | WArray items => [8] ++ write_all write_u32 items
  | WObject props => [9] ++ write_all (λ p, write_str p.1 ++ write_u32 p.2) props
  | WDate t => [10] ++ write_f64 t
  | WRegExp source flags => [11] ++ write_str source ++ write_str flags
  | WError msg => [12] ++ write_str msg
  | WArrayBufferCopy bytes => [13] ++ write_bytes bytes
  | WMap pairs => [14] ++ write_all (λ p, write_u32 p.1 ++ write_u32 p.2) pairs
  | WSet items => [15] ++ write_all write_u32 items
  | WSharedArrayBuffer id => [16] ++ write_u64 id
  | WSharedView id off len name =>
      [17] ++ write_u64 id ++ write_u32 off ++ write_u32 len ++ write_str name
  end.

(** The body that [serialize] assembles. *)
Definition write_body (root : Z) (nodes : list WireNode) : list Z :=
  MAGIC ++ write_u32 root ++ write_len nodes ++ mjoin (write_node <$> nodes).

(** * Reading *)

Inductive wire_error := UnexpectedEnd | UnknownTag | InvalidUtf8 | InvalidPayload.

(** A reader takes the data and the position, and gives the new position. *)
Notation reader A := (list Z → nat → res wire_error (A * nat)).

Definition rret {A} (a : A) : reader A := λ _ pos, Ok (a, pos).
Definition rbind {A B} (r : reader A) (f : A → reader B) : reader B := λ data pos,
  '(a, pos) ← r data pos; f a data pos.
Notation "x <-- r ;; f" := (rbind r (λ x, f)) (at level 100, r at next level, right associativity).

(** [data[*pos..*pos + n]] after the check [*pos + n > data.len()]. *)
Definition read_n (n : nat) : reader (list Z) := λ data pos,
  if (length data <? pos + n)%nat then Err UnexpectedEnd
  else Ok (take n (drop pos data), (pos + n)%nat).

Definition read_u8 : reader Z := λ data pos,
  if (length data <=? pos)%nat then Err UnexpectedEnd
  else b ← or_panic (data !! pos); Ok (b, S pos).
Definition read_u32 : reader Z := l <-- read_n 4 ;; rret (from_be_bytes l).
Definition read_u64 : reader Z := l <-- read_n 8 ;; rret (from_be_bytes l).
Definition read_f64 : reader Z := l <-- read_n 8 ;; rret (from_be_bytes l).
Definition read_vec : reader (list Z) := len <-- read_u32 ;; read_n (Z.to_nat len).
Definition read_string : reader rstring :=
  bytes <-- read_vec ;;
  λ _ pos, match from_utf8 bytes with Ok s => Ok (s, pos) | _ => Err InvalidUtf8 end.

(** [for _ in 0..n] *)
Fixpoint read_times {A} (n : nat) (r : reader A) : reader (list A) :=
  match n with
  | O => rret []
  | S n => a <-- r ;; l <-- read_times n r ;; rret (a :: l)
  end.
Definition read_all {A} (r : reader A) : reader (list A) :=
  n <-- read_u32 ;; read_times (Z.to_nat n) r.

Definition read_pair {A B} (r : reader A) (s : reader B) : reader (A * B) :=
  a <-- r ;; b <-- s ;; rret (a, b).

Definition read_node : reader WireNode :=
  tag <-- read_u8 ;;
  match tag with
  | 1 => id <-- read_u32 ;; rret (WRef id)
  | 2 => rret WUndefined
  | 3 => rret WNull
  | 4 => b <-- read_u8 ;; rret (WBool (negb (b =? 0)))
  | 5 => n <-- read_f64 ;; rret (WNumber n)
  | 6 => s <-- read_string ;; rret (WString s)
  | 7 => s <-- read_string ;; rret (WBigInt s)
  | 8 => items <-- read_all read_u32 ;; rret (WArray items)
  | 9 => props <-- read_all (read_pair read_string read_u32) ;; rret (WObject props)
  | 10 => t <-- read_f64 ;; rret (WDate t)
  | 11 => source <-- read_string ;; flags <-- read_string ;; rret (WRegExp source flags)
  | 12 => msg <-- read_string ;; rret (WError msg)
  | 13 => bytes <-- read_vec ;; rret (WArrayBufferCopy bytes)
  | 14 => pairs <-- read_all (read_pair read_u32 read_u32) ;; rret (WMap pairs)
  | 15 => items <-- read_all read_u32 ;; rret (WSet items)
  | 16 => id <-- read_u64 ;; rret (WSharedArrayBuffer id)
  | 17 =>
      id <-- read_u64 ;; off <-- read_u32 ;; len <-- read_u32 ;; name <-- read_string ;;
      rret (WSharedView id off len name)
  | _ => λ _ _, Err UnknownTag
  end.

(** The part of [deserialize] before [decode_index]. *)
Definition read_body (data : list Z) : res wire_error (Z * list WireNode) :=
  if (length data <? 4)%nat || negb (bool_decide (take 4 data = MAGIC)) then Err InvalidPayload
  else
    '(root, pos) ← read_u32 data 4%nat;
    '(count, pos) ← read_u32 data pos;
    '(nodes, _) ← read_times (Z.to_nat count) read_node data pos;
    Ok (root, nodes).

(** * Round trip *)

(** Nodes whose numbers fit their fields. *)
Definition u32_len {A} (l : list A) : Prop := Z.of_nat (length l) < 2 ^ 32.
Definition str_ok (s : rstring) : Prop := Forall (λ c, is_scalar c = true) s ∧ u32_len (to_utf8 s).

Definition node_ok (node : WireNode) : Prop :=
  match node with
  | WRef id => u32_ok id
  | WUndefined | WNull | WBool _ => True
  | WNumber n | WDate n => u64_ok n
  | WString s | WBigInt s | WError s => str_ok s
  | WArray items | WSet items => u32_len items ∧ Forall u32_ok items
  | WObject props => u32_len props ∧ Forall (λ p, str_ok p.1 ∧ u32_ok p.2) props
  | WRegExp source flags => str_ok source ∧ str_ok flags
  | WArrayBufferCopy bytes => u32_len bytes
  | WSharedArrayBuffer id => u64_ok id
  | WSharedView id off len name => u64_ok id ∧ u32_ok off ∧ u32_ok len ∧ str_ok name
  | WMap pairs => u32_len pairs ∧ Forall (λ p, u32_ok p.1 ∧ u32_ok p.2) pairs
  end.

(** [r] reads [a] from the bytes [w], wherever they are. *)
Definition reads {A} (r : reader A) (w : list Z) (a : A) : Prop :=
  ∀ pre post, r (pre ++ w ++ post) (length pre) = Ok (a, (length pre + length w)%nat).

Lemma reads_ret {A} (a : A) : reads (rret a) [] a.
Proof. intros pre post. unfold rret. simpl. by rewrite Nat.add_0_r. Qed.

Lemma reads_bind {A B} (r : reader A) (f : A → reader B) w1 w2 a b :
  reads r w1 a → reads (f a) w2 b → reads (rbind r f) (w1 ++ w2) b.
Proof.
  intros H1 H2 pre post. unfold rbind. rewrite <- (assoc_L (++)), H1. cbn [mbind res_bind].
  specialize (H2 (pre ++ w1) post). rewrite <- (assoc_L (++)), length_app in H2.
  rewrite H2, length_app. f_equal. f_equal. lia.
Qed.

Lemma reads_map {A B} (r : reader A) (f : A → B) w a :
  reads r w a → reads (x <-- r ;; rret (f x)) w (f a).
Proof.
  intros H. rewrite <- (app_nil_r w). eapply reads_bind; [done|apply reads_ret].
Qed.

Lemma reads_n l n : length l = n → reads (read_n n) l l.
Proof.
  intros Hn pre post. unfold read_n. rewrite !length_app.
  rewrite (proj2 (Nat.ltb_ge _ _)) by lia. by rewrite drop_app_length, <- Hn, take_app_length.
Qed.

Lemma reads_u8 b : reads read_u8 [b] b.
Proof.
  intros pre post. unfold read_u8. rewrite !length_app. cbn [length].
  rewrite (proj2 (Nat.leb_gt _ _)) by lia. rewrite lookup_app_r, Nat.sub_diag by lia. cbn.
  f_equal. f_equal. lia.
Qed.

Lemma length_be_bytes n v : length (be_bytes n v) = n.
Proof. induction n; simpl; congruence. Qed.

Lemma from_be_bytes_app l m :
  from_be_bytes (l ++ m) = from_be_bytes l * 256 ^ Z.of_nat (length m) + from_be_bytes m.
Proof.
  unfold from_be_bytes. rewrite foldl_app. generalize (foldl (λ acc b, acc * 256 + b) 0 l) as a.
  induction m as [|b m IH]; intros a; [simpl; lia|]. cbn [foldl length].
  rewrite IH, (IH (0 * 256 + b)), Nat2Z.inj_succ, Z.pow_succ_r by lia. lia.
Qed.

Lemma be_bytes_value n v : 0 ≤ v < 256 ^ Z.of_nat n → from_be_bytes (be_bytes n v) = v.
Proof.
  intros Hv. assert (H : from_be_bytes (be_bytes n v) = v `mod` 256 ^ Z.of_nat n).
  { clear Hv. induction n as [|n IH]; [simpl; by rewrite Z.mod_1_r|]. cbn [be_bytes].
    change (?x :: ?l) with ([x] ++ l). rewrite from_be_bytes_app, length_be_bytes, IH.
    rewrite Nat2Z.inj_succ, Z.pow_succ_r by lia. rewrite (Z.mul_comm 256), Z.rem_mul_r by lia.
    change (from_be_bytes [?x]) with (0 * 256 + x). lia. }
  rewrite H. by apply Z.mod_small.
Qed.

Lemma reads_u32 v : u32_ok v → reads read_u32 (write_u32 v) v.
Proof.
  intros Hv. unfold write_u32. rewrite <- (be_bytes_value 4 v Hv) at 2.
  apply (reads_map (read_n 4)), reads_n, length_be_bytes.
Qed.

Lemma reads_u64 v : u64_ok v → reads read_u64 (write_u64 v) v.
Proof.
  intros Hv. unfold write_u64. rewrite <- (be_bytes_value 8 v Hv) at 2.
  apply (reads_map (read_n 8)), reads_n, length_be_bytes.
Qed.

Lemma reads_len {A B} (l : list A) (f : Z → reader B) w b :
  u32_len l → reads (f (Z.of_nat (length l))) w b → reads (rbind read_u32 f) (write_len l ++ w) b.
Proof.
  intros Hl Hf. assert (u32_ok (Z.of_nat (length l))) by (unfold u32_len, u32_ok in *; lia).
  unfold write_len. rewrite as_u32_id by done. eapply reads_bind; [by apply reads_u32|done].
Qed.

Lemma reads_bytes l : u32_len l → reads read_vec (write_bytes l) l.
Proof. intros Hl. apply reads_len; [done|]. apply reads_n. lia. Qed.

Lemma reads_string s : str_ok s → reads read_string (write_str s) s.
Proof.
  intros [Hs Hl]. unfold write_str. rewrite <- (app_nil_r (write_bytes _)).
  eapply reads_bind; [by apply reads_bytes|]. intros pre post. rewrite from_utf8_encode by done.
  simpl. by rewrite Nat.add_0_r.
Qed.

Lemma reads_times {A} (r : reader A) (f : A → list Z) l :
  Forall (λ a, reads r (f a) a) l → reads (read_times (length l) r) (mjoin (f <$> l)) l.
Proof.
  induction 1 as [|a l Ha _ IH]; [apply reads_ret|]. cbn [length read_times].
  change (mjoin (f <$> a :: l)) with (f a ++ mjoin (f <$> l)).
  eapply reads_bind; [done|]. by apply (reads_map _ (cons a)).
Qed.

Lemma reads_all {A} (r : reader A) (f : A → list Z) l :
  u32_len l → Forall (λ a, reads r (f a) a) l → reads (read_all r) (write_all f l) l.
Proof. intros Hl Hf. apply reads_len; [done|]. rewrite Nat2Z.id. by apply reads_times. Qed.

Lemma reads_pair {A B} (r : reader A) (s : reader B) w1 w2 a b :
  reads r w1 a → reads s w2 b → reads (read_pair r s) (w1 ++ w2) (a, b).
Proof. intros Hr Hs. eapply reads_bind; [done|]. by apply (reads_map s (pair a)). Qed.

Create HintDb wire discriminated.
#[export] Hint Resolve reads_ret reads_u8 reads_u32 reads_u64 reads_bytes reads_string : wire.

Lemma reads_node node : node_ok node → reads read_node (write_node node) node.
Proof.
  assert (Hu32 : ∀ l, Forall u32_ok l → Forall (λ a, reads read_u32 (write_u32 a) a) l).
  { intros l Hl. eapply Forall_impl; [exact Hl|apply reads_u32]. }
  intros Hok. unfold read_node. destruct node; cbn [write_node node_ok] in *;
    try (eapply reads_bind; [apply reads_u8|cbn iota]); try (by apply reads_map; auto with wire).
  - change ([2]) with ([2] ++ []). eapply reads_bind; [apply reads_u8|apply reads_ret].
  - change ([3]) with ([3] ++ []). eapply reads_bind; [apply reads_u8|apply reads_ret].
  - change [4; if b then 1 else 0] with ([4] ++ [if b then 1 else 0]).
    eapply reads_bind; [apply reads_u8|]. cbn iota.
    replace (WBool b) with (WBool (negb ((if b then 1 else 0) =? 0))) by (by destruct b).
    apply (reads_map read_u8 (λ x, WBool (negb (x =? 0)))), reads_u8.
  - apply reads_map, reads_all; [apply Hok|apply Hu32; apply Hok].
  - apply reads_map, reads_all; [apply Hok|]. eapply Forall_impl; [apply Hok|].
    intros [k id] [??]. apply reads_pair; auto with wire.
  - destruct Hok. eapply reads_bind; [by apply reads_string|]. apply reads_map; auto with wire.
  - destruct Hok as (? & ? & ? & ?). eapply reads_bind; [by apply reads_u64|].
    eapply reads_bind; [by apply reads_u32|]. eapply reads_bind; [by apply reads_u32|].
    apply reads_map; auto with wire.
  - apply reads_map, reads_all; [apply Hok|]. eapply Forall_impl; [apply Hok|].
    intros [k v] [??]. apply reads_pair; auto with wire.
  - apply reads_map, reads_all; [apply Hok|apply Hu32; apply Hok].
Qed.

Lemma read_write_body root nodes :
  u32_ok root → u32_len nodes → Forall node_ok nodes →
  read_body (write_body root nodes) = Ok (root, nodes).
Proof.
  intros Hr Hl Hn. unfold read_body, write_body.
  rewrite !length_app. rewrite (proj2 (Nat.ltb_ge _ _)) by (simpl; lia).
  rewrite (take_app_length' MAGIC _ 4) by done. rewrite bool_decide_eq_true_2 by done. cbn [orb negb].
  set (w := mjoin (write_node <$> nodes)).
  assert (H : reads (r <-- read_u32 ;; n <-- read_u32 ;; l <-- read_times (Z.to_nat n) read_node ;; rret (r, l))
                (write_u32 root ++ write_len nodes ++ w) (root, nodes)).
  { eapply reads_bind; [by apply reads_u32|]. apply reads_len; [done|]. rewrite Nat2Z.id.
    apply (reads_map _ (pair root)), reads_times. eapply Forall_impl; [exact Hn|]. apply reads_node. }
  specialize (H MAGIC []). rewrite app_nil_r in H. change (length MAGIC) with 4%nat in H.
  unfold rbind in H. destruct (read_u32 _ 4) as [[r p]| |]; [|done..]. cbn [mbind res_bind] in *.
  destruct (read_u32 _ p) as [[n p']| |]; [|done..]. cbn [mbind res_bind] in *.
  destruct (read_times _ _ _ p') as [[l p'']| |]; [|done..]. cbn [mbind res_bind rret] in *.
  unfold rret in H. by simplify_eq.
Qed.

(** C37. Decoding undoes encoding: the reader gives back the root and the
    nodes that were written, all seventeen kinds of them. *)
Theorem wire_roundtrip (root : Z) (nodes : list WireNode) :
  u32_ok root → u32_len nodes → Forall node_ok nodes →
  read_body (write_body root nodes) = Ok (root, nodes).
Proof. apply read_write_body. Qed.

Lemma wire_roundtrip_witness :
  let nodes := [WArray [1; 2]; WObject [([104; 105], 0)]; WSharedView 7 0 16 [85]; WMap [(1, 2)]] in
  read_body (write_body 0 nodes) = Ok (0, nodes).
Proof.
  apply wire_roundtrip; [done|done|].
  repeat constructor; done.
Defined.

(** ** Malformed input *)

(** A reader that is given any bytes answers or reports an error, and does not
    move past the end. *)
Definition safe {A} (r : reader A) : Prop :=
  ∀ data pos, (pos ≤ length data)%nat →
  match r data pos with
  | Ok (_, pos') => (pos ≤ pos' ≤ length data)%nat
  | Err _ => True
  | Panic => False
  end.

Lemma safe_ret {A} (a : A) : safe (rret a).
Proof. intros data pos Hp. simpl. lia. Qed.

Lemma safe_bind {A B} (r : reader A) (f : A → reader B) :
  safe r → (∀ a, safe (f a)) → safe (rbind r f).
Proof.
  intros Hr Hf data pos Hp. unfold rbind. specialize (Hr data pos Hp).
  destruct (r data pos) as [[a p]| |]; [|done..]. cbn [mbind res_bind].
  specialize (Hf a data p ltac:(lia)). destruct (f a data p) as [[b p']| |]; [lia|done..].
Qed.

Lemma safe_n n : safe (read_n n).
Proof.
  intros data pos Hp. unfold read_n. destruct (Nat.ltb_spec (length data) (pos + n)); [done|lia].
Qed.

Lemma safe_u8 : safe read_u8.
Proof.
  intros data pos Hp. unfold read_u8. destruct (Nat.leb_spec (length data) pos); [done|].
  destruct (lookup_lt_is_Some_2 data pos) as [b Hb]; [lia|]. rewrite Hb. cbn. lia.
Qed.

Lemma safe_err {A} e : safe (λ _ _, Err e : res wire_error (A * nat)).
Proof. by intros data pos Hp. Qed.

#[export] Hint Resolve safe_ret safe_bind safe_n safe_u8 safe_err : wire.

Lemma safe_times {A} n (r : reader A) : safe r → safe (read_times n r).
Proof. intros Hr. induction n; cbn [read_times]; auto with wire. Qed.

Lemma safe_utf8 bytes :
  safe (λ _ pos, match from_utf8 bytes with Ok s => Ok (s, pos) | _ => Err InvalidUtf8 end).
Proof. intros data pos Hp. destruct (from_utf8 bytes); simpl; [lia|done..]. Qed.

#[export] Hint Resolve safe_times safe_utf8 : wire.

Lemma safe_node : safe read_node.
Proof.
  assert (H32 : safe read_u32) by (apply safe_bind; auto with wire).
  assert (H64 : safe read_u64) by (apply safe_bind; auto with wire).
  assert (Hvec : safe read_vec) by (apply safe_bind; auto with wire).
  assert (Hstr : safe read_string) by (apply safe_bind; auto with wire).
  assert (Hall : ∀ A (r : reader A), safe r → safe (read_all r)).
  { intros A r Hr. apply safe_bind; auto with wire. }
  assert (Hpair : ∀ A B (r : reader A) (s : reader B), safe r → safe s → safe (read_pair r s)).
  { intros. apply safe_bind; [done|]. intros. apply safe_bind; auto with wire. }
  unfold read_node. apply safe_bind; [apply safe_u8|]. intros tag.
  repeat (case_match; try (by auto with wire));
    repeat (apply safe_bind; [auto with wire|intros]); auto with wire.
Qed.

(** Reading never runs off the data: whatever the bytes, the reader
    returns nodes or one of its errors. *)
Theorem read_body_total (data : list Z) : read_body data ≠ Panic.
Proof.
  unfold read_body. destruct ((length data <? 4)%nat || _) eqn:Hm; [done|].
  assert (H32 : safe read_u32) by (apply safe_bind; auto with wire).
  apply orb_false_elim in Hm as [Hm _]. apply Nat.ltb_ge in Hm.
  pose proof (H32 data 4%nat Hm) as H1.
  destruct (read_u32 data 4) as [[root p]| |]; [|done..]. cbn [mbind res_bind].
  pose proof (H32 data p ltac:(lia)) as H2.
  destruct (read_u32 data p) as [[n p']| |]; [|done..]. cbn [mbind res_bind].
  pose proof (safe_times (Z.to_nat n) _ safe_node data p' ltac:(lia)) as H3.
  by destruct (read_times _ _ data p') as [[l p'']| |].
Qed.
