(* ===== verification/SharedBuffer.v ===== *)
(** The process-wide registry of SharedArrayBuffer blocks
    ([libs/raster_runtime_utils/src/shared_array_buffer.rs]).

    The engine calls [sab_alloc], [sab_dup] and [sab_free] as buffers come and
    go; the structured-clone wire looks blocks up by pointer and by id.  Both
    tables are behind their own mutex; each operation here is one call.  The
    address the allocator returns is an argument of [sab_alloc]: an address
    that no live block has, except for empty blocks, whose vector does not
    allocate and has the dangling address. *)

From S2P Require Import Prelude.

Record Block := mkBlock { data : list Z; refs : Z; addr : Z }.

Record registry := mkRegistry {
  NEXT_ID : Z;
  BLOCKS : gmap Z Block;
  PTR_INDEX : gmap Z Z;
}.

Definition empty_registry : registry := mkRegistry 1 ∅ ∅.

Definition wrap_u64 (z : Z) : Z := z `mod` 2 ^ 64.

(** [Vec::<u8>::with_capacity(0).as_mut_ptr()] *)
Definition DANGLING : Z := 1.

Definition sab_alloc (ptr : Z) (size : nat) (r : registry) : Z * registry :=
  let ptr := if (size =? 0)%nat then DANGLING else ptr in
  let id := NEXT_ID r in
  (ptr, mkRegistry (wrap_u64 (id + 1)) (<[id := mkBlock (replicate size 0) 1 ptr]> (BLOCKS r))
          (<[ptr := id]> (PTR_INDEX r))).

Definition sab_free (ptr : Z) (r : registry) : registry :=
  if ptr =? 0 then r
  else
    match PTR_INDEX r !! ptr with
    | Some id => mkRegistry (NEXT_ID r) (delete id (BLOCKS r)) (delete ptr (PTR_INDEX r))
    | None => r
    end.

Definition add_ref (b : Block) : Block := mkBlock (data b) (wrap_u64 (refs b + 1)) (addr b).

Definition sab_dup (ptr : Z) (r : registry) : registry :=
  if ptr =? 0 then r
  else
    match PTR_INDEX r !! ptr with
    | Some id => mkRegistry (NEXT_ID r) (alter add_ref id (BLOCKS r)) (PTR_INDEX r)
    | None => r
    end.

Definition id_for_data_ptr (ptr : Z) (r : registry) : option Z := PTR_INDEX r !! ptr.

Definition dup_block (id : Z) (r : registry) : option (Z * registry) :=
  block ← BLOCKS r !! id;
  Some (addr block, mkRegistry (NEXT_ID r) (<[id := add_ref block]> (BLOCKS r)) (PTR_INDEX r)).

Definition block_len (id : Z) (r : registry) : option nat := length ∘ data <$> BLOCKS r !! id.

(** * Values on the receiving side *)

Record WireSabHandle := mkHandle { ptr : Z; len : nat }.

Definition WireSabHandle_new (id : Z) (r : registry) : option (WireSabHandle * registry) :=
  len ← block_len id r;
  '(ptr, r) ← dup_block id r;
  Some (mkHandle ptr len, r).

Inductive sab_error := InvalidReference | InvalidViewName | RangeError.

Definition new_shared_array_buffer_value (id : Z) (r : registry) : res sab_error (WireSabHandle * registry) :=
  or_err (WireSabHandle_new id r) InvalidReference.

(** The names [is_valid_typed_array_name] accepts, with the size of an element. *)
Definition typed_arrays : list (list Z * nat) :=
  [(bs "Int8Array", 1); (bs "Uint8Array", 1); (bs "Uint8ClampedArray", 1); (bs "Int16Array", 2);
   (bs "Uint16Array", 2); (bs "Int32Array", 4); (bs "Uint32Array", 4); (bs "BigInt64Array", 8);
   (bs "BigUint64Array", 8); (bs "Float16Array", 2); (bs "Float32Array", 4); (bs "Float64Array", 8)]%nat.

Definition element_size (name : list Z) : option nat :=
  snd <$> head (filter (λ p, p.1 = name) typed_arrays).

Definition is_valid_typed_array_name (name : list Z) : bool := bool_decide (name ∈ typed_arrays.*1).

(** A typed array: its buffer, the offset in bytes and the number of elements. *)
Record view := mkView { v_name : list Z; v_buffer : WireSabHandle; v_offset : nat; v_length : nat }.

(** [new T(buffer, offset, length)]: the constructor counts elements and
    checks alignment and bounds. *)
Definition construct_view (name : list Z) (size : nat) (b : WireSabHandle) (offset length : nat) :
    res sab_error view :=
  if negb (offset mod size =? 0)%nat then Err RangeError
  else if (len b <? offset + length * size)%nat then Err RangeError
  else Ok (mkView name b offset length).

Definition new_shared_typed_array_value (id : Z) (byte_offset byte_length : nat) (view_name : list Z)
    (r : registry) : res sab_error (view * registry) :=
  if negb (is_valid_typed_array_name view_name) then Err InvalidViewName
  else
    '(b, r) ← new_shared_array_buffer_value id r;
    size ← or_panic (element_size view_name);
    v ← construct_view view_name size b byte_offset byte_length;
    Ok (v, r).

(** * The two tables agree *)

(** One call of the engine or of the wire. *)
Inductive op :=
  | Alloc (ptr : Z) (size : nat)
  | Free (ptr : Z)
  | Dup (ptr : Z)
  | DupBlock (id : Z).

Definition apply_op (o : op) (r : registry) : registry :=
  match o with
  | Alloc p n => (sab_alloc p n r).2
  | Free p => sab_free p r
  | Dup p => sab_dup p r
  | DupBlock id => default r (snd <$> dup_block id r)
  end.

(** The allocator: fresh addresses, and no empty blocks. *)
Definition op_ok (o : op) (r : registry) : Prop :=
  match o with
  | Alloc p n => p ≠ 0 ∧ PTR_INDEX r !! p = None ∧ (0 < n)%nat ∧ 0 < NEXT_ID r < 2 ^ 64 - 1
  | _ => True
  end.

Fixpoint run_ok (ops : list op) (r : registry) : Prop :=
  match ops with
  | [] => True
  | o :: ops => op_ok o r ∧ run_ok ops (apply_op o r)
  end.

Definition run (ops : list op) (r : registry) : registry := foldl (λ r o, apply_op o r) r ops.

(** Pointers and ids correspond, and ids are below the counter. *)
Definition coherent (r : registry) : Prop :=
  (∀ p id, PTR_INDEX r !! p = Some id ↔ ∃ b, BLOCKS r !! id = Some b ∧ addr b = p) ∧
  (∀ id b, BLOCKS r !! id = Some b → id < NEXT_ID r).

Lemma coherent_alloc p n r : coherent r → op_ok (Alloc p n) r → coherent (apply_op (Alloc p n) r).
Proof.
  intros [Hidx Hlt] (Hp & Hfree & Hn & Hid). cbn [apply_op sab_alloc snd].
  rewrite (proj2 (Nat.eqb_neq n 0)) by lia. unfold wrap_u64. rewrite Z.mod_small by lia. split; cbn.
  - intros q id. destruct (decide (q = p)) as [->|Hq].
    + rewrite lookup_insert_eq. split.
      * intros [= <-]. exists (mkBlock (replicate n 0) 1 p). by rewrite lookup_insert_eq.
      * intros (b & Hb & Ha). destruct (decide (id = NEXT_ID r)) as [->|Hne]; [done|].
        rewrite lookup_insert_ne in Hb by done.
        assert (PTR_INDEX r !! p = Some id) by (apply Hidx; eauto). congruence.
    + rewrite lookup_insert_ne by done. rewrite Hidx. split; intros (b & Hb & Ha); exists b; (split; [|done]).
      * rewrite lookup_insert_ne; [done|]. intros <-. apply Hlt in Hb. lia.
      * destruct (decide (id = NEXT_ID r)) as [->|Hne]; [|by rewrite lookup_insert_ne in Hb].
        rewrite lookup_insert_eq in Hb. simplify_eq/=.
  - intros id b. destruct (decide (id = NEXT_ID r)) as [->|Hne]; [lia|].
    rewrite lookup_insert_ne by done. intros Hb%Hlt. lia.
Qed.

Lemma coherent_free p r : coherent r → coherent (sab_free p r).
Proof.
  intros [Hidx Hlt]. unfold sab_free. destruct (p =? 0); [done|].
  destruct (PTR_INDEX r !! p) as [id|] eqn:Hp; [|done]. split; cbn.
  - intros q id'. destruct (decide (q = p)) as [->|Hq].
    + rewrite lookup_delete_eq. split; [done|]. intros (b & Hb & Ha).
      apply lookup_delete_Some in Hb as [Hne Hb].
      assert (PTR_INDEX r !! p = Some id') by (apply Hidx; eauto). congruence.
    + rewrite lookup_delete_ne by done. rewrite Hidx. split; intros (b & Hb & Ha); exists b; (split; [|done]).
      * apply lookup_delete_Some. split; [|done]. intros <-.
        apply Hidx in Hp as (b' & Hb' & Ha'). congruence.
      * by apply lookup_delete_Some in Hb as [_ Hb].
  - intros id' b [_ Hb]%lookup_delete_Some. by eapply Hlt.
Qed.

(** Counting references changes neither table's keys. *)
Lemma coherent_alter r id f :
  (∀ b, addr (f b) = addr b) → coherent r →
  coherent (mkRegistry (NEXT_ID r) (alter f id (BLOCKS r)) (PTR_INDEX r)).
Proof.
  intros Hf [Hidx Hlt]. split; cbn.
  - intros p id'. rewrite Hidx. destruct (decide (id = id')) as [<-|Hne].
    + rewrite lookup_alter_eq. split.
      * intros (b & -> & Ha). exists (f b). by rewrite Hf.
      * intros (b & Hb & Ha). destruct (BLOCKS r !! id) as [b'|]; simplify_eq/=. exists b'. by rewrite <- Hf.
    + by rewrite lookup_alter_ne.
  - intros id' b. destruct (decide (id = id')) as [<-|Hne].
    + rewrite lookup_alter_eq. intros (b' & Hb' & _)%fmap_Some. by eapply Hlt.
    + rewrite lookup_alter_ne by done. apply Hlt.
Qed.

Lemma coherent_op o r : coherent r → op_ok o r → coherent (apply_op o r).
Proof.
  intros Hr Ho. destruct o as [p n|p|p|id]; cbn [apply_op].
  - by apply coherent_alloc.
  - by apply coherent_free.
  - unfold sab_dup. destruct (p =? 0); [done|]. destruct (PTR_INDEX r !! p); [|done].
    by apply coherent_alter.
  - unfold dup_block. destruct (BLOCKS r !! id) as [b|] eqn:Hb; [|done]. cbn.
    replace (<[id:=add_ref b]> (BLOCKS r)) with (alter add_ref id (BLOCKS r)).
    + by apply coherent_alter.
    + apply map_eq. intros i. destruct (decide (i = id)) as [->|].
      * by rewrite lookup_alter_eq, lookup_insert_eq, Hb.
      * by rewrite lookup_alter_ne, lookup_insert_ne.
Qed.

Lemma coherent_run ops r : coherent r → run_ok ops r → coherent (run ops r).
Proof.
  revert r. induction ops as [|o ops IH]; intros r Hr Ho; [done|].
  destruct Ho as [Ho Hos]. cbn [run foldl]. apply IH; [by apply coherent_op|done].
Qed.

(** After any calls, a registered pointer leads to the block at that
    address and back: the id that the wire carries names the block the sender
    meant. *)
Theorem registry_coherent (ops : list op) (p id : Z) :
  run_ok ops empty_registry →
  (id_for_data_ptr p (run ops empty_registry) = Some id ↔
   ∃ b, BLOCKS (run ops empty_registry) !! id = Some b ∧ addr b = p).
Proof.
  intros Hok. apply (coherent_run ops empty_registry); [|done]. split; cbn; [|done].
  intros q id'. rewrite !lookup_empty. split; [done|]. by intros (b & ? & ?).
Qed.

Lemma registry_coherent_witness :
  id_for_data_ptr 4096 (run [Alloc 4096 8; Alloc 8192 4; DupBlock 1; Free 8192] empty_registry) = Some 1.
Proof.
  apply (registry_coherent [Alloc 4096 8; Alloc 8192 4; DupBlock 1; Free 8192] 4096 1).
  - repeat split; try lia; reflexivity.
  - eexists. split; reflexivity.
Defined.

(** * Lifetime and views *)

Lemma element_size_elem name n : element_size name = Some n → (name, n) ∈ typed_arrays.
Proof.
  unfold element_size. generalize typed_arrays as l. intros l ([k m] & Hp & ->)%fmap_Some.
  apply head_Some_elem_of, list_elem_of_filter in Hp as [Hk Hp]. cbn in *. by subst.
Qed.

Lemma element_size_pos name n : element_size name = Some n → (0 < n)%nat.
Proof.
  intros He%element_size_elem.
  assert (Hall : Forall (λ q, (0 < q.2)%nat) typed_arrays).
  { repeat (apply Forall_cons; split; [simpl; lia|]). apply Forall_nil_2. }
  rewrite Forall_forall in Hall. by apply (Hall (name, n)).
Qed.

Lemma element_size_valid name n :
  element_size name = Some n → is_valid_typed_array_name name = true.
Proof.
  intros He%element_size_elem. apply bool_decide_eq_true_2. revert He.
  generalize typed_arrays as l. intros l He. by apply (list_elem_of_fmap_2 fst) in He.
Qed.

(** Views on shared memory arrive with their length in bytes taken as a
    number of elements: a view of wider elements that fills its block is
    refused, and any view that is accepted covers [size] times as many bytes. *)
Theorem shared_view_length (r : registry) (id : Z) (b : Block) (name : list Z) (size off blen : nat) :
  BLOCKS r !! id = Some b → element_size name = Some size →
  ((1 < size)%nat → (0 < blen)%nat → (off + blen)%nat = length (data b) →
     new_shared_typed_array_value id off blen name r = Err RangeError) ∧
  (∀ v r', new_shared_typed_array_value id off blen name r = Ok (v, r') →
     v_offset v = off ∧ (v_length v * size = size * blen)%nat).
Proof.
  intros Hb Hs. pose proof (element_size_pos _ _ Hs) as Hpos.
  unfold new_shared_typed_array_value, new_shared_array_buffer_value, WireSabHandle_new, block_len, dup_block.
  rewrite (element_size_valid _ _ Hs), Hb, Hs. cbn. unfold construct_view. cbn [len]. split.
  - intros Hsz Hbl Hlen. destruct (negb _); [done|].
    rewrite (proj2 (Nat.ltb_lt _ _)) by nia. done.
  - intros v r'. destruct (negb _); [done|]. destruct (_ <? _)%nat; [done|]. cbn. intros [= <- _]. cbn. lia.
Qed.

Lemma shared_view_length_witness :
  new_shared_typed_array_value 1 0 8 (bs "Int32Array") (run [Alloc 4096 8] empty_registry) = Err RangeError.
Proof.
  apply (shared_view_length (run [Alloc 4096 8] empty_registry) 1 (mkBlock (replicate 8 0) 1 4096)
           (bs "Int32Array") 4 0 8); try reflexivity; lia.
Defined.

(** A block that another isolate still uses is gone when one of them frees it:
    the reference count is kept but never consulted.  Empty blocks share the
    dangling address, so freeing one unregisters the other. *)
Example free_ignores_refs :
  let r := run [Alloc 4096 8; DupBlock 1] empty_registry in
  refs <$> BLOCKS r !! 1 = Some 2 ∧ BLOCKS (sab_free 4096 r) !! 1 = None ∧
  let r := run [Alloc 0 0; Alloc 0 0; Free DANGLING] empty_registry in
  id_for_data_ptr DANGLING r = None ∧ block_len 1 r = Some 0%nat.
Proof. vm_compute. repeat split. Qed.
