(* ===== verification/JsGraph.v ===== *)
(** JavaScript values as the clone functions see them: primitives and
    references into a heap of objects, so that sharing and cycles are part of
    the model; and what it means for two values in two heaps to be isomorphic.

    The classes of objects are those [structured_clone] and the wire encoder
    tell apart. *)

From S2P Require Import Prelude Unicode.

Notation gloc := positive (only parsing).

(** [GCallable] is a function, constructor or proxy; [GOther] every type that
    has no case of its own (symbols, exceptions, promises). *)
Inductive gval :=
  | GUndefined
  | GNull
  | GBool (b : bool)
  | GNumber (bits : Z)
  | GString (s : rstring)
  | GBigInt (s : rstring)
  | GCallable
  | GOther
  | GRef (l : gloc).

#[export] Instance gval_eq_dec : EqDecision gval.
Proof. solve_decision. Defined.

Inductive gcell :=
  | GArray (elems : list gval)
  | GObject (props : list (rstring * gval))
  | GDate (bits : Z)
  | GRegExp (source flags : rstring)
  | GError (message : rstring) (props : list (rstring * gval))
  | GArrayBuffer (bytes : list Z)
  | GSharedBuffer (id : option Z)
  | GView (bytes : list Z)
  | GSharedArray (id : option Z) (byte_offset byte_length : Z) (view_name : rstring)
  | GMap (pairs : list (gval * gval))
  | GSet (items : list gval).

#[export] Instance gcell_eq_dec : EqDecision gcell.
Proof. solve_decision. Defined.

Notation graph := (gmap gloc gcell).

(** A heap that new objects are added to. *)
Record store := mkStore { cells : graph; next : gloc }.

Definition alloc (c : gcell) (s : store) : gloc * store :=
  (next s, mkStore (<[next s := c]> (cells s)) (Pos.succ (next s))).

Definition store_ok (s : store) : Prop := ∀ l, is_Some (cells s !! l) → (l < next s)%positive.

Definition empty_store : store := mkStore ∅ 1.

Lemma alloc_fresh s : store_ok s → cells s !! next s = None.
Proof. intros Hs. apply eq_None_not_Some. intros H%Hs. lia. Qed.

Lemma alloc_ok c s : store_ok s → store_ok (alloc c s).2.
Proof.
  intros Hs l. cbn. destruct (decide (l = next s)) as [->|Hne]; [intros; lia|].
  rewrite lookup_insert_ne by done. intros Hl%Hs. lia.
Qed.

(** * Isomorphic values *)

(** Values that correspond under a renaming of locations. *)
Definition val_rel (φ : gmap gloc gloc) (v v' : gval) : Prop :=
  match v with
  | GRef l => ∃ l', φ !! l = Some l' ∧ v' = GRef l'
  | _ => v' = v
  end.

Definition prop_rel (φ : gmap gloc gloc) (p p' : rstring * gval) : Prop :=
  p'.1 = p.1 ∧ val_rel φ p.2 p'.2.

(** Objects of the same class with corresponding contents; only the classes a
    clone is made for. *)
Definition cell_rel (φ : gmap gloc gloc) (c c' : gcell) : Prop :=
  match c, c' with
  | GArray elems, GArray elems' => Forall2 (val_rel φ) elems elems'
  | GObject props, GObject props' => Forall2 (prop_rel φ) props props'
  | GDate t, GDate t' => t' = t
  | GRegExp s f, GRegExp s' f' => s' = s ∧ f' = f
  | GError m _, GError m' _ => m' = m
  | _, _ => False
  end.

(** The part of [h'] reachable from [v'] is a copy of the part of [h] reachable
    from [v]: same shape, same sharing, same cycles. *)
Definition isomorphic (h : graph) (v : gval) (h' : graph) (v' : gval) : Prop :=
  ∃ φ : gmap gloc gloc,
    val_rel φ v v' ∧
    (∀ l1 l2 l', φ !! l1 = Some l' → φ !! l2 = Some l' → l1 = l2) ∧
    (∀ l l', φ !! l = Some l' → ∃ c c', h !! l = Some c ∧ h' !! l' = Some c' ∧ cell_rel φ c c').
