(* ===== verification/CloneWire.v ===== *)
(** Structured clones between workers
    ([libs/raster_runtime_utils/src/clone_wire.rs], the graph level): a value
    is encoded as a list of nodes that refer to each other by index, written
    with [WireCodec], read and rebuilt in the other worker's heap.

    The encoder and the decoder are depth-first searches with a memo table;
    their recursion takes fuel, and running out of it is [Panic], as a stack
    overflow would be. *)

From S2P Require Import Prelude Unicode WireCodec JsGraph.

Inductive clone_error :=
  | BigIntClone
  | NotCloneable
  | NotRegistered
  | WireError (e : wire_error)
  | SharedError.

(** * Encoding *)

Record enc := mkEnc { nodes : list WireNode; memo : gmap gloc Z; enc_transfers : list (list Z) }.

Definition enc_empty : enc := mkEnc [] ∅ [].

(** [encode_index] on a list, threading the state. *)
Fixpoint encode_list (index : gval → enc → res clone_error (Z * enc)) (vs : list gval) (st : enc) :
    res clone_error (list Z * enc) :=
  match vs with
  | [] => Ok ([], st)
  | v :: vs =>
      '(id, st) ← index v st;
      '(ids, st) ← encode_list index vs st;
      Ok (id :: ids, st)
  end.

Fixpoint encode_pairs (index : gval → enc → res clone_error (Z * enc)) (ps : list (gval * gval))
    (st : enc) : res clone_error (list (Z * Z) * enc) :=
  match ps with
  | [] => Ok ([], st)
  | (k, v) :: ps =>
      '(k, st) ← index k st;
      '(v, st) ← index v st;
      '(ids, st) ← encode_pairs index ps st;
      Ok ((k, v) :: ids, st)
  end.

Definition push_transfer (bytes : list Z) (st : enc) : enc :=
  mkEnc (nodes st) (memo st) (enc_transfers st ++ [bytes]).

(** [encode_node_inner] on a primitive. *)
Definition encode_prim (v : gval) : res clone_error WireNode :=
  match v with
  | GUndefined => Ok WUndefined
  | GNull => Ok WNull
  | GBool b => Ok (WBool b)
  | GNumber n => Ok (WNumber n)
  | GString s => Ok (WString s)
  | GBigInt _ => Err BigIntClone
  | GCallable => Err NotCloneable
  | GOther | GRef _ => Ok WUndefined
  end.

(** [encode_node_inner] on an object or array. *)
Definition encode_cell (index : gval → enc → res clone_error (Z * enc)) (c : gcell) (st : enc) :
    res clone_error (WireNode * enc) :=
  match c with
  | GArray elems => '(ids, st) ← encode_list index elems st; Ok (WArray ids, st)
  | GDate t => Ok (WDate t, st)
  | GRegExp source flags => Ok (WRegExp source flags, st)
  | GError message _ => Ok (WError message, st)
  | GArrayBuffer bytes => Ok (WArrayBufferCopy bytes, push_transfer bytes st)
  | GSharedBuffer id => id ← or_err id NotRegistered; Ok (WSharedArrayBuffer id, st)
  | GMap pairs => '(ids, st) ← encode_pairs index pairs st; Ok (WMap ids, st)
  | GSet items => '(ids, st) ← encode_list index items st; Ok (WSet ids, st)
  | GSharedArray id off len name =>
      id ← or_err id NotRegistered; Ok (WSharedView id off len name, st)
  | GView bytes => Ok (WArrayBufferCopy bytes, push_transfer bytes st)
  | GObject props =>
      '(ids, st) ← encode_list index props.*2 st; Ok (WObject (zip props.*1 ids), st)
  end.

(** [nodes.len() as u32] *)
Definition next_index (st : enc) : Z := as_u32 (Z.of_nat (length (nodes st))).

Section Encode.
Variable h : graph.

Fixpoint encode_index (fuel : nat) (v : gval) (st : enc) : res clone_error (Z * enc) :=
  match fuel with
  | O => Panic
  | S fuel =>
      match v with
      | GRef l =>
          match memo st !! l with
          | Some id => Ok (id, st)
          | None =>
              let idx := next_index st in
              let st := mkEnc (nodes st ++ [WNull]) (<[l := idx]> (memo st)) (enc_transfers st) in
              c ← or_panic (h !! l);
              '(node, st) ← encode_cell (encode_index fuel) c st;
              if (Z.to_nat idx <? length (nodes st))%nat
              then Ok (idx, mkEnc (<[Z.to_nat idx := node]> (nodes st)) (memo st) (enc_transfers st))
              else Panic
          end
      | _ =>
          let idx := next_index st in
          node ← encode_prim v;
          Ok (idx, mkEnc (nodes st ++ [node]) (memo st) (enc_transfers st))
      end
  end.

(** [serialize] after [structured_clone] *)
Definition encode_value (fuel : nat) (v : gval) : res clone_error CloneWirePayload :=
  '(root, st) ← encode_index fuel v enc_empty;
  Ok (mkPayload (write_body root (nodes st)) (enc_transfers st)).
End Encode.

(** * Decoding *)

Record dec := mkDec { cache : list (option gval); heap : store }.

Definition set_cache (idx : nat) (v : gval) (st : dec) : dec :=
  mkDec (<[idx := Some v]> (cache st)) (heap st).

Definition new_object (c : gcell) (st : dec) : gval * dec :=
  let '(l, s) := alloc c (heap st) in (GRef l, mkDec (cache st) s).

(** [array.set(i, v)] for the next index, and [object.set(key, v)]. *)
Definition array_push (l : gloc) (v : gval) (st : dec) : dec :=
  mkDec (cache st) (mkStore (alter (λ c, match c with GArray e => GArray (e ++ [v]) | c => c end) l
                               (cells (heap st))) (next (heap st))).

Fixpoint set_prop (key : rstring) (v : gval) (props : list (rstring * gval)) : list (rstring * gval) :=
  match props with
  | [] => [(key, v)]
  | (k, w) :: props => if decide (k = key) then (key, v) :: props else (k, w) :: set_prop key v props
  end.
Definition object_set (l : gloc) (key : rstring) (v : gval) (st : dec) : dec :=
  mkDec (cache st) (mkStore (alter (λ c, match c with GObject p => GObject (set_prop key v p) | c => c end) l
                               (cells (heap st))) (next (heap st))).

(** [Map] and [Set] constructors: keys are compared by [SameValueZero], a
    repeated key keeps its place, and a negative zero becomes zero. *)
Definition norm_key (v : gval) : gval :=
  match v with
  | GNumber bits =>
      if bits =? 2 ^ 63 then GNumber 0
      else if (2047 * 2 ^ 52 <? Z.land bits (2 ^ 63 - 1)) then GNumber (2047 * 2 ^ 52 + 2 ^ 51)
      else v
  | _ => v
  end.
Fixpoint map_set (k v : gval) (pairs : list (gval * gval)) : list (gval * gval) :=
  match pairs with
  | [] => [(k, v)]
  | (k', w) :: pairs =>
      if decide (k' = k) then (k', v) :: pairs else (k', w) :: map_set k v pairs
  end.
Definition new_map (entries : list (gval * gval)) : gcell :=
  GMap (foldl (λ m '(k, v), map_set (norm_key k) v m) [] entries).
Definition new_set (items : list gval) : gcell :=
  GSet (foldl (λ s v, if decide (v ∈ s) then s else s ++ [v]) [] (norm_key <$> items)).

Fixpoint decode_elems (at_ : Z → dec → res clone_error (gval * dec)) (l : gloc) (ids : list Z) (st : dec) :
    res clone_error dec :=
  match ids with
  | [] => Ok st
  | id :: ids =>
      '(v, st) ← at_ id st;
      decode_elems at_ l ids (array_push l v st)
  end.

Fixpoint decode_props (at_ : Z → dec → res clone_error (gval * dec)) (l : gloc)
    (props : list (rstring * Z)) (st : dec) : res clone_error dec :=
  match props with
  | [] => Ok st
  | (key, id) :: props =>
      '(v, st) ← at_ id st;
      decode_props at_ l props (object_set l key v st)
  end.

Fixpoint decode_list (at_ : Z → dec → res clone_error (gval * dec)) (ids : list Z) (st : dec) :
    res clone_error (list gval * dec) :=
  match ids with
  | [] => Ok ([], st)
  | id :: ids =>
      '(v, st) ← at_ id st;
      '(vs, st) ← decode_list at_ ids st;
      Ok (v :: vs, st)
  end.

Fixpoint decode_pairs (at_ : Z → dec → res clone_error (gval * dec)) (ids : list (Z * Z)) (st : dec) :
    res clone_error (list (gval * gval) * dec) :=
  match ids with
  | [] => Ok ([], st)
  | (k, v) :: ids =>
      '(k, st) ← at_ k st;
      '(v, st) ← at_ v st;
      '(vs, st) ← decode_pairs at_ ids st;
      Ok ((k, v) :: vs, st)
  end.

Section Decode.
(** [BigInt('..')] evaluated by the engine, and the objects that
    [new_shared_array_buffer_value] and [new_shared_typed_array_value] make. *)
Variable bigint_of : rstring → res clone_error gval.
Variable shared_buffer : Z → res clone_error gcell.
Variable shared_view : Z → Z → Z → rstring → res clone_error gcell.
Variable wire : list WireNode.
Variable xfers : list (list Z).

Definition remember (idx : nat) (r : gval * dec) : gval * dec :=
  let '(v, st) := r in
  (v, match cache st !! idx with Some None => set_cache idx v st | _ => st end).

Fixpoint decode_at (fuel : nat) (idx : Z) (st : dec) : res clone_error (gval * dec) :=
  match fuel with
  | O => Panic
  | S fuel =>
      let i := Z.to_nat idx in
      cached ← or_panic (cache st !! i);
      node ← or_panic (wire !! i);
      match cached with
      | Some v => Ok (v, st)
      | None =>
          match node with
          | WRef id => decode_at fuel id st
          | WUndefined => Ok (remember i (GUndefined, st))
          | WNull => Ok (remember i (GNull, st))
          | WBool b => Ok (remember i (GBool b, st))
          | WNumber n => Ok (remember i (GNumber n, st))
          | WString s => Ok (remember i (GString s, st))
          | WBigInt s => v ← bigint_of s; Ok (remember i (v, st))
          | WDate t => Ok (remember i (new_object (GDate t) st))
          | WRegExp s f => Ok (remember i (new_object (GRegExp s f) st))
          | WError m => Ok (remember i (new_object (GError m []) st))
          | WArrayBufferCopy bytes =>
              let buf := match xfers with t :: _ => t | [] => bytes end in
              Ok (remember i (new_object (GArrayBuffer buf) st))
          | WSharedArrayBuffer id =>
              c ← shared_buffer id; Ok (remember i (new_object c st))
          | WSharedView id off len name =>
              c ← shared_view id off len name; Ok (remember i (new_object c st))
          | WArray ids =>
              let '(l, s) := alloc (GArray []) (heap st) in
              st ← decode_elems (decode_at fuel) l ids (set_cache i (GRef l) (mkDec (cache st) s));
              Ok (GRef l, st)
          | WObject props =>
              let '(l, s) := alloc (GObject []) (heap st) in
              st ← decode_props (decode_at fuel) l props (set_cache i (GRef l) (mkDec (cache st) s));
              Ok (GRef l, st)
          | WMap ids =>
              '(pairs, st) ← decode_pairs (decode_at fuel) ids st;
              Ok (remember i (new_object (new_map pairs) st))
          | WSet ids =>
              '(items, st) ← decode_list (decode_at fuel) ids st;
              Ok (remember i (new_object (new_set items) st))
          end
      end
  end.

Definition decode_index (fuel : nat) (root : Z) (s : store) : res clone_error (gval * store) :=
  '(v, st) ← decode_at fuel root (mkDec (replicate (length wire) None) s);
  Ok (v, heap st).
End Decode.

Definition deserialize (bigint_of : rstring → res clone_error gval)
    (shared_buffer : Z → res clone_error gcell) (shared_view : Z → Z → Z → rstring → res clone_error gcell)
    (fuel : nat) (payload : CloneWirePayload) (s : store) : res clone_error (gval * store) :=
  match read_body (body payload) with
  | Ok (root, wire) => decode_index bigint_of shared_buffer shared_view wire (transfers payload) fuel root s
  | Err e => Err (WireError e)
  | Panic => Panic
  end.

Lemma set_prop_fresh k v props : k ∉ props.*1 → set_prop k v props = props ++ [(k, v)].
Proof.
  induction props as [|[k' w] props IH]; intros Hk; [done|]. cbn in *. rewrite not_elem_of_cons in Hk.
  rewrite decide_False by naive_solver. rewrite IH by naive_solver. done.
Qed.
