(* ===== verification/CloneEncode.v ===== *)
(** The encoder of structured clones produces a faithful list of nodes: every
    object it visits has one node, whose indices lead to the nodes of its
    children. *)

From S2P Require Import Prelude Unicode WireCodec JsGraph CloneWire.

Section Encoder.
Variable h : graph.

(** Plain data: primitives, arrays, objects, dates, regular expressions and
    errors, with strings and lengths the wire can hold. *)
Definition plain_val (v : gval) : Prop :=
  match v with
  | GUndefined | GNull | GBool _ => True
  | GNumber n => u64_ok n
  | GString s => str_ok s
  | GRef l => is_Some (h !! l)
  | _ => False
  end.

Definition plain_cell (c : gcell) : Prop :=
  match c with
  | GArray elems => u32_len elems ∧ Forall plain_val elems
  | GObject props =>
      u32_len props ∧ Forall (λ p, str_ok p.1 ∧ plain_val p.2) props ∧ NoDup props.*1
  | GDate t => u64_ok t
  | GRegExp s f => str_ok s ∧ str_ok f
  | GError m _ => str_ok m
  | _ => False
  end.

Definition plain : Prop := map_Forall (λ _ c, plain_cell c) h.

(** * The state only grows *)

Record grows (st st' : enc) : Prop := {
  grows_nodes : (length (nodes st) ≤ length (nodes st'))%nat;
  grows_memo : memo st ⊆ memo st';
}.

#[local] Instance grows_preorder : PreOrder grows.
Proof.
  split; [by split|]. intros a b c [H1 H2] [H3 H4]. split; [lia|by etrans].
Qed.

Definition index_grows (index : gval → enc → res clone_error (Z * enc)) : Prop :=
  ∀ v st i st', index v st = Ok (i, st') → grows st st'.

Lemma encode_list_grows index vs st ids st' :
  index_grows index → encode_list index vs st = Ok (ids, st') → grows st st'.
Proof.
  intros Hi. revert st ids. induction vs as [|v vs IH]; intros st ids He; simplify_eq/=; [done|].
  apply bind_ok_inv in He as ([id st1] & H1 & He). apply bind_ok_inv in He as ([ids1 st2] & H2 & He).
  simplify_eq/=. etrans; [by eapply Hi|by eapply IH].
Qed.

Lemma encode_pairs_grows index ps st ids st' :
  index_grows index → encode_pairs index ps st = Ok (ids, st') → grows st st'.
Proof.
  intros Hi. revert st ids. induction ps as [|[k v] ps IH]; intros st ids He; simplify_eq/=; [done|].
  apply bind_ok_inv in He as ([k1 st1] & H1 & He). apply bind_ok_inv in He as ([v1 st2] & H2 & He).
  apply bind_ok_inv in He as ([ids1 st3] & H3 & He). simplify_eq/=.
  etrans; [by eapply Hi|]. etrans; [by eapply Hi|by eapply IH].
Qed.

Lemma encode_cell_grows index c st n st' :
  index_grows index → encode_cell index c st = Ok (n, st') → grows st st'.
Proof.
  intros Hi He. destruct c; cbn [encode_cell] in He; try (by simplify_eq; split).
  - apply bind_ok_inv in He as ([ids st1] & H1 & He). simplify_eq. by eapply encode_list_grows.
  - apply bind_ok_inv in He as ([ids st1] & H1 & He). simplify_eq. by eapply encode_list_grows.
  - apply bind_ok_inv in He as (id' & _ & He). by simplify_eq.
  - apply bind_ok_inv in He as (id' & _ & He). by simplify_eq.
  - apply bind_ok_inv in He as ([ids st1] & H1 & He). simplify_eq. by eapply encode_pairs_grows.
  - apply bind_ok_inv in He as ([ids st1] & H1 & He). simplify_eq. by eapply encode_list_grows.
Qed.

(** The new object gets the next index. *)
Definition open_object (l : gloc) (st : enc) : enc :=
  mkEnc (nodes st ++ [WNull]) (<[l := next_index st]> (memo st)) (enc_transfers st).

Lemma open_grows l st : memo st !! l = None → grows st (open_object l st).
Proof. intros Hl. split; cbn; [len|by apply insert_subseteq]. Qed.

Lemma next_index_le st : (Z.to_nat (next_index st) ≤ length (nodes st))%nat.
Proof.
  unfold next_index, as_u32.
  pose proof (Z.mod_le (Z.of_nat (length (nodes st))) 4294967296 ltac:(lia) ltac:(lia)). lia.
Qed.

Lemma prefix_insert {A} (l k : list A) i x : l `prefix_of` k → (length l ≤ i)%nat → l `prefix_of` <[i := x]> k.
Proof.
  intros [r ->] Hi. exists (<[i - length l := x]> r)%nat. by rewrite insert_app_r_alt.
Qed.

(** A run of [encode_index] on a reference that is not in the table. *)
Lemma encode_ref_inv fuel l st i st' :
  encode_index h (S fuel) (GRef l) st = Ok (i, st') → memo st !! l = None →
  ∃ c node st2, h !! l = Some c ∧ i = next_index st ∧
    encode_cell (encode_index h fuel) c (open_object l st) = Ok (node, st2) ∧
    (Z.to_nat i < length (nodes st2))%nat ∧
    st' = mkEnc (<[Z.to_nat i := node]> (nodes st2)) (memo st2) (enc_transfers st2).
Proof.
  cbn [encode_index]. intros He Hl. rewrite Hl in He.
  destruct (h !! l) as [c|] eqn:Hc; [|done]. cbn [or_panic mbind res_bind] in He.
  apply bind_ok_inv in He as ([node st2] & Hcell & He).
  destruct (Nat.ltb_spec (Z.to_nat (next_index st)) (length (nodes st2))); simplify_eq.
  by eexists _, _, _.
Qed.

Lemma encode_prim_inv fuel v st i st' :
  (∀ l, v ≠ GRef l) → encode_index h (S fuel) v st = Ok (i, st') →
  ∃ node, encode_prim v = Ok node ∧ i = next_index st ∧
          st' = mkEnc (nodes st ++ [node]) (memo st) (enc_transfers st).
Proof.
  intros Hv He. assert (Hb : (node ← encode_prim v;
    Ok (next_index st, mkEnc (nodes st ++ [node]) (memo st) (enc_transfers st))) = Ok (i, st')).
  { destruct v; first [exact He|by destruct (Hv l)]. }
  apply bind_ok_inv in Hb as (node & Hn & ?). simplify_eq. by exists node.
Qed.

Lemma encode_grows fuel : index_grows (encode_index h fuel).
Proof.
  induction fuel as [|fuel IH]; intros v st i st' He; [done|].
  assert (Hprim : (∀ l, v ≠ GRef l) → grows st st').
  { intros Hv. apply encode_prim_inv in He as (node & _ & _ & ->); [|done]. split; cbn; [len|done]. }
  destruct v as [| | | | | | | |l]; try (by apply Hprim). clear Hprim.
  destruct (memo st !! l) as [id|] eqn:Hl.
  { cbn [encode_index] in He. rewrite Hl in He. by simplify_eq. }
  apply encode_ref_inv in He as (c & node & st2 & _ & -> & Hc & _ & ->); [|done].
  apply encode_cell_grows in Hc; [|done]. etrans; [by apply (open_grows l)|].
  etrans; [exact Hc|]. split; cbn; [len|done].
Qed.

(** * It always answers *)

Definition unvisited (st : enc) : nat := size (dom h ∖ dom (memo st)).

Lemma unvisited_grows st st' : grows st st' → (unvisited st' ≤ unvisited st)%nat.
Proof.
  intros [_ Hm]. unfold unvisited. apply subseteq_size. apply (subseteq_dom (D:=gset gloc)) in Hm. set_solver.
Qed.

Lemma unvisited_open l st :
  is_Some (h !! l) → memo st !! l = None → (unvisited (open_object l st) < unvisited st)%nat.
Proof.
  intros Hh Hm. unfold unvisited. apply subset_size. cbn. rewrite dom_insert.
  apply elem_of_dom in Hh. apply not_elem_of_dom in Hm. set_solver.
Qed.

Lemma encode_list_total index n vs st :
  index_grows index → (∀ v st, plain_val v → (unvisited st < n)%nat → ∃ r, index v st = Ok r) →
  Forall plain_val vs → (unvisited st < n)%nat → ∃ r, encode_list index vs st = Ok r.
Proof.
  intros Hg Hi Hvs. revert st. induction Hvs as [|v vs Hv _ IH]; intros st Hn; [by eexists|].
  cbn [encode_list]. destruct (Hi v st Hv Hn) as [[id st1] H1]. rewrite H1. cbn [mbind res_bind].
  pose proof (unvisited_grows _ _ (Hg _ _ _ _ H1)).
  destruct (IH st1 ltac:(lia)) as [[ids st2] ->]. by eexists.
Qed.

Lemma encode_total fuel v st :
  plain → plain_val v → (unvisited st < fuel)%nat → ∃ r, encode_index h fuel v st = Ok r.
Proof.
  intros Hplain. revert v st. induction fuel as [|fuel IH]; intros v st Hv Hf; [lia|].
  destruct v as [| | | | | | | |l]; try done; try (by eexists).
  cbn [encode_index]. destruct (memo st !! l) as [id|] eqn:Hl; [by eexists|].
  destruct Hv as [c Hc]. rewrite Hc. cbn [or_panic mbind res_bind].
  pose proof (unvisited_open l st ltac:(eauto) Hl) as Hun. fold (open_object l st).
  assert (Hcell : ∃ r, encode_cell (encode_index h fuel) c (open_object l st) = Ok r).
  { pose proof (Hplain l c Hc) as Hpc. destruct c; cbn [encode_cell plain_cell] in *; try done; try (by eexists).
    - destruct (encode_list_total _ fuel elems (open_object l st) (encode_grows fuel)) as [[ids st1] ->];
        [by auto|apply Hpc|lia|by eexists].
    - destruct (encode_list_total _ fuel props.*2 (open_object l st) (encode_grows fuel)) as [[ids st1] ->];
        [by auto| |lia|by eexists].
      apply Forall_fmap. eapply Forall_impl; [apply Hpc|]. by intros p [_ ?]. }
  destruct Hcell as [[node st2] Hcell]. rewrite Hcell. cbn [mbind res_bind].
  apply encode_cell_grows in Hcell; [|apply encode_grows]. destruct Hcell as [Hlen _].
  cbn [open_object nodes] in Hlen. rewrite length_app in Hlen. cbn in Hlen.
  pose proof (next_index_le st). rewrite (proj2 (Nat.ltb_lt _ _)) by lia. by eexists.
Qed.

(** * What the nodes say *)

(** The node of a value; the node of a primitive is not that of an object. *)
Definition repr (st : enc) (v : gval) (i : Z) : Prop :=
  match v with
  | GRef l => memo st !! l = Some i
  | _ => 0 ≤ i ∧ (∃ n, encode_prim v = Ok n ∧ nodes st !! Z.to_nat i = Some n) ∧
         ∀ l, memo st !! l ≠ Some i
  end.

Definition cell_node (st : enc) (c : gcell) (n : WireNode) : Prop :=
  match c, n with
  | GArray elems, WArray ids => Forall2 (repr st) elems ids
  | GObject props, WObject props' => Forall2 (λ p q, q.1 = p.1 ∧ repr st p.2 q.2) props props'
  | GDate t, WDate t' => t' = t
  | GRegExp s f, WRegExp s' f' => s' = s ∧ f' = f
  | GError m _, WError m' => m' = m
  | _, _ => False
  end.

Definition prim_node (n : WireNode) : Prop :=
  match n with WUndefined | WNull | WBool _ | WNumber _ | WString _ => True | _ => False end.

(** The objects of [opn] are being visited; all other visited objects are
    finished. *)
Record good (opn : gset gloc) (st : enc) : Prop := {
  good_range : ∀ l i, memo st !! l = Some i → 0 ≤ i < Z.of_nat (length (nodes st));
  good_inj : ∀ l1 l2 i, memo st !! l1 = Some i → memo st !! l2 = Some i → l1 = l2;
  good_done : ∀ l i, memo st !! l = Some i → l ∉ opn →
    ∃ c n, h !! l = Some c ∧ nodes st !! Z.to_nat i = Some n ∧ cell_node st c n;
  good_nodes : Forall node_ok (nodes st);
  good_prim : ∀ i n, nodes st !! i = Some n → (∃ l, memo st !! l = Some (Z.of_nat i)) ∨ prim_node n;
  good_open : opn ⊆ dom (memo st);
}.

(** Old nodes keep their place; new objects come after them. *)
Record extends (st st' : enc) : Prop := {
  ext_nodes : nodes st `prefix_of` nodes st';
  ext_memo : memo st ⊆ memo st';
  ext_new : ∀ l i, memo st' !! l = Some i → memo st !! l = None → Z.of_nat (length (nodes st)) ≤ i;
}.

#[local] Instance extends_preorder : PreOrder extends.
Proof.
  split.
  - intros st. split; [done..|]. congruence.
  - intros a b c [H1 H2 H3] [H4 H5 H6]. split; [by etrans..|]. intros l i Hc Ha.
    destruct (memo b !! l) as [j|] eqn:Hb.
    + assert (memo c !! l = Some j) by (by eapply lookup_weaken). simplify_eq. by eapply H3.
    + specialize (H6 l i Hc Hb). apply prefix_length in H1. lia.
Qed.

Lemma repr_extends st st' v i : extends st st' → repr st v i → repr st' v i.
Proof.
  intros [Hn Hm Hnew]. destruct v; cbn [repr];
    try (intros (Hi & (n & Hp & Hl) & Hfresh); split_and!; [done| |];
      [exists n; split; [done|by eapply prefix_lookup_Some]|];
      intros l Hl'; destruct (memo st !! l) as [j|] eqn:Hj;
      [pose proof (lookup_weaken _ _ _ _ Hj Hm); simplify_eq; by eapply Hfresh|];
      specialize (Hnew l i Hl' Hj); apply lookup_lt_Some in Hl; lia).
  intros Hl. by eapply lookup_weaken.
Qed.

Lemma cell_node_impl st st' c n :
  (∀ v i, repr st v i → repr st' v i) → cell_node st c n → cell_node st' c n.
Proof.
  intros Hr. destruct c, n; cbn [cell_node]; try done; intros Hf.
  - eapply Forall2_impl; [exact Hf|]. auto.
  - eapply Forall2_impl; [exact Hf|]. intros p q [? ?]. auto.
Qed.

Lemma repr_range opn st v i :
  good opn st → repr st v i → 0 ≤ i < Z.of_nat (length (nodes st)).
Proof.
  intros Hg. destruct v; cbn [repr]; try (intros (Hi & (n & _ & Hl) & _); apply lookup_lt_Some in Hl; lia).
  apply Hg.
Qed.

Lemma next_index_u32 st : Z.of_nat (length (nodes st)) < 2 ^ 32 → next_index st = Z.of_nat (length (nodes st)).
Proof. intros Hn. apply as_u32_id. unfold u32_ok. lia. Qed.

Lemma u32_len_le {A B} (l : list A) (k : list B) : u32_len k → (length l ≤ length k)%nat → u32_len l.
Proof. unfold u32_len. lia. Qed.

Lemma encode_prim_ok v n : plain_val v → encode_prim v = Ok n → prim_node n ∧ node_ok n.
Proof. destruct v; cbn; intros Hv He; by simplify_eq. Qed.

(** A new primitive node. *)
Lemma push_extends st n : extends st (mkEnc (nodes st ++ [n]) (memo st) (enc_transfers st)).
Proof. split; cbn; [by eexists|done|congruence]. Qed.

Lemma push_good opn st n :
  good opn st → prim_node n → node_ok n → good opn (mkEnc (nodes st ++ [n]) (memo st) (enc_transfers st)).
Proof.
  intros Hg Hp Hn. pose proof (push_extends st n) as Hext. split; cbn.
  - intros l i Hl. pose proof (good_range _ _ Hg l i Hl). rewrite length_app. lia.
  - apply Hg.
  - intros l i Hl Ho. destruct (good_done _ _ Hg l i Hl Ho) as (c & m & Hc & Hm & Hcm).
    exists c, m. split_and!; [done|by apply lookup_app_l_Some|].
    eapply cell_node_impl; [|done]. intros v j. by apply repr_extends.
  - apply Forall_app. split; [apply Hg|by repeat constructor].
  - intros i m [Hm|[_ Hm]]%lookup_app_Some; [by eapply Hg|].
    apply list_lookup_singleton_Some in Hm as [_ <-]. by right.
  - apply Hg.
Qed.

Lemma push_repr opn st v n :
  good opn st → u32_len (nodes st ++ [n]) → encode_prim v = Ok n → (∀ l, v ≠ GRef l) →
  repr (mkEnc (nodes st ++ [n]) (memo st) (enc_transfers st)) v (next_index st).
Proof.
  intros Hg Hu He Hr. unfold u32_len in Hu. rewrite length_app in Hu. cbn in Hu.
  assert (Hcore : 0 ≤ Z.of_nat (length (nodes st)) ∧
    (∃ n', encode_prim v = Ok n' ∧ (nodes st ++ [n]) !! Z.to_nat (Z.of_nat (length (nodes st))) = Some n') ∧
    ∀ l, memo st !! l ≠ Some (Z.of_nat (length (nodes st)))).
  { split_and!; [lia| |].
    - exists n. split; [done|]. rewrite Nat2Z.id. by apply list_lookup_middle.
    - intros l Hl. pose proof (good_range _ _ Hg _ _ Hl). lia. }
  rewrite next_index_u32 by lia. destruct v; try exact Hcore. by destruct (Hr l).
Qed.

(** A new object: visited, not finished. *)
Lemma open_good opn l st :
  good opn st → memo st !! l = None → Z.of_nat (length (nodes st)) < 2 ^ 32 →
  good ({[l]} ∪ opn) (open_object l st) ∧ extends st (open_object l st).
Proof.
  intros Hg Hl Hu. pose proof (next_index_u32 st Hu) as Hidx.
  assert (Hext : extends st (open_object l st)).
  { split; cbn; [by eexists|by apply insert_subseteq|]. intros l' i. rewrite Hidx.
    destruct (decide (l' = l)) as [->|Hne]; [rewrite lookup_insert_eq; intros; simplify_eq; lia|].
    rewrite lookup_insert_ne by done. congruence. }
  split; [|done]. split; cbn; rewrite ?Hidx.
  - intros l' i. rewrite length_app. cbn. destruct (decide (l' = l)) as [->|Hne].
    + rewrite lookup_insert_eq. intros; simplify_eq. lia.
    + rewrite lookup_insert_ne by done. intros Hi%(good_range _ _ Hg). lia.
  - intros l1 l2 i. rewrite !lookup_insert_Some. pose proof (good_range _ _ Hg) as Hr.
    intros [[<- <-]|[Hn1 H1]] [[<- H2]|[Hn2 H2]]; try done; [apply Hr in H2|apply Hr in H1|]; [lia..|].
    by eapply Hg.
  - intros l' i Hl' Ho. rewrite lookup_insert_ne in Hl' by set_solver.
    destruct (good_done _ _ Hg l' i Hl') as (c & m & Hc & Hm & Hcm); [set_solver|].
    exists c, m. split_and!; [done|by apply lookup_app_l_Some|].
    eapply cell_node_impl; [|done]. intros v j. by apply repr_extends.
  - apply Forall_app. split; [apply Hg|by repeat constructor].
  - intros i m [Hm|[Hge Hm]]%lookup_app_Some.
    + destruct (good_prim _ _ Hg i m Hm) as [[l' Hl']|]; [left|by right]. exists l'.
      rewrite lookup_insert_ne; [done|]. intros <-. congruence.
    + apply list_lookup_singleton_Some in Hm as [Hz _]. left. exists l. rewrite lookup_insert_eq. f_equal. lia.
  - rewrite dom_insert. pose proof (good_open _ _ Hg). set_solver.
Qed.

(** Storing the finished node. *)
Lemma close_good opn l i st c n :
  good ({[l]} ∪ opn) st → l ∉ opn → memo st !! l = Some i → h !! l = Some c → node_ok n → cell_node st c n →
  let st' := mkEnc (<[Z.to_nat i := n]> (nodes st)) (memo st) (enc_transfers st) in
  good opn st' ∧ (∀ v j, repr st v j → repr st' v j).
Proof.
  intros Hg Ho Hl Hc Hn Hcn st'. pose proof (good_range _ _ Hg _ _ Hl) as Hi.
  assert (Hrepr : ∀ v j, repr st v j → repr st' v j).
  { intros v j. destruct v; try done; intros (Hj & (m & Hm & Hlk) & Hfresh); (split_and!; [done| |done]);
      exists m; (split; [done|]); cbn; rewrite list_lookup_insert_ne; try done;
      intros Heq; apply (Hfresh l); rewrite Hl; f_equal; lia. }
  split; [|done]. split; cbn.
  - intros l' j. rewrite length_insert. apply Hg.
  - apply Hg.
  - intros l' j Hl' Ho'. destruct (decide (l' = l)) as [->|Hne].
    + simplify_eq. exists c, n. split_and!; [done|apply list_lookup_insert_eq; lia|].
      eapply cell_node_impl; [|done]. done.
    + destruct (good_done _ _ Hg l' j Hl') as (c' & m & Hc' & Hm & Hcm); [set_solver|].
      exists c', m. split_and!; [done| |by eapply cell_node_impl].
      rewrite list_lookup_insert_ne; [done|]. intros Heq. apply Hne.
      pose proof (good_range _ _ Hg _ _ Hl'). apply (good_inj _ _ Hg _ _ i); [|done].
      rewrite Hl'. f_equal. lia.
  - apply Forall_insert; [apply Hg|done].
  - intros j m. destruct (decide (j = Z.to_nat i)) as [->|Hne].
    + intros _. left. exists l. rewrite Hl. f_equal. lia.
    + rewrite list_lookup_insert_ne by done. apply Hg.
  - pose proof (good_open _ _ Hg). set_solver.
Qed.

Definition index_ok (index : gval → enc → res clone_error (Z * enc)) : Prop :=
  ∀ opn v st i st', plain_val v → good opn st → index v st = Ok (i, st') → u32_len (nodes st') →
    good opn st' ∧ extends st st' ∧ repr st' v i.

Lemma encode_list_ok index opn vs st ids st' :
  index_grows index → index_ok index → Forall plain_val vs → good opn st →
  encode_list index vs st = Ok (ids, st') → u32_len (nodes st') →
  good opn st' ∧ extends st st' ∧ Forall2 (repr st') vs ids.
Proof.
  intros Hgr Hok Hvs. revert st ids. induction Hvs as [|v vs Hv _ IH]; intros st ids Hg He Hu; simplify_eq/=.
  { split_and!; [done..|constructor]. }
  apply bind_ok_inv in He as ([id st1] & H1 & He). apply bind_ok_inv in He as ([ids1 st2] & H2 & He).
  simplify_eq/=. pose proof (encode_list_grows _ _ _ _ _ Hgr H2) as [Hlen _].
  destruct (Hok opn v st id st1 Hv Hg H1) as (Hg1 & Hx1 & Hr1); [by eapply u32_len_le|].
  destruct (IH st1 ids1 Hg1 H2 Hu) as (Hg2 & Hx2 & Hr2).
  split_and!; [done|by etrans|]. constructor; [by eapply repr_extends|done].
Qed.

Lemma reprs_u32 opn st vs ids :
  good opn st → u32_len (nodes st) → Forall2 (repr st) vs ids → Forall u32_ok ids.
Proof.
  intros Hg Hu Hf. induction Hf as [|v i vs ids Hr _ IH]; constructor; [|done].
  pose proof (repr_range _ _ _ _ Hg Hr). unfold u32_len, u32_ok in *. lia.
Qed.

(** Keys and indices side by side. *)
Lemma zip_reprs st (props : list (rstring * gval)) ids :
  Forall2 (repr st) props.*2 ids →
  Forall2 (λ p q, q.1 = p.1 ∧ repr st p.2 q.2) props (zip props.*1 ids).
Proof.
  revert ids. induction props as [|p props IH]; intros ids Hf; inversion Hf; subst; constructor; auto.
Qed.

Lemma zip_ok (props : list (rstring * gval)) ids :
  Forall (λ p, str_ok p.1 ∧ plain_val p.2) props → Forall u32_ok ids →
  Forall (λ q, str_ok q.1 ∧ u32_ok q.2) (zip props.*1 ids).
Proof.
  intros Hp. revert ids. induction Hp as [|p props [Hk _] _ IH]; intros ids Hi; [constructor|].
  destruct Hi as [|i ids Hi His]; constructor; [done|by apply IH].
Qed.

(** The contents of an object. *)
Lemma encode_cell_ok index opn c st n st' :
  index_grows index → index_ok index → plain_cell c → good opn st →
  encode_cell index c st = Ok (n, st') → u32_len (nodes st') →
  good opn st' ∧ extends st st' ∧ cell_node st' c n ∧ node_ok n.
Proof.
  intros Hgr Hok Hc Hg He Hu. destruct c; cbn [encode_cell plain_cell] in *; try done.
  - destruct Hc as [Hl Hc]. apply bind_ok_inv in He as ([ids st1] & H1 & He). simplify_eq.
    destruct (encode_list_ok _ _ _ _ _ _ Hgr Hok Hc Hg H1 Hu) as (Hg1 & Hx1 & Hf).
    split_and!; [done|done|done|]. split; [|by eapply reprs_u32].
    unfold u32_len in *. by rewrite <- (Forall2_length _ _ _ Hf).
  - destruct Hc as (Hl & Hc & _). apply bind_ok_inv in He as ([ids st1] & H1 & He). simplify_eq.
    destruct (encode_list_ok index opn props.*2 st ids st' Hgr Hok) as (Hg1 & Hx1 & Hf); [|done..|].
    { apply Forall_fmap. eapply Forall_impl; [exact Hc|]. by intros p [_ ?]. }
    pose proof (reprs_u32 _ _ _ _ Hg1 Hu Hf) as Hids.
    pose proof (zip_reprs _ _ _ Hf) as Hz. split_and!; [done|done|done|]. split.
    + unfold u32_len in *. by rewrite <- (Forall2_length _ _ _ Hz).
    + by apply zip_ok.
  - by simplify_eq.
  - by simplify_eq.
  - by simplify_eq.
Qed.

Lemma encode_ok fuel : plain → index_ok (encode_index h fuel).
Proof.
  intros Hplain. induction fuel as [|fuel IH]; intros opn v st i st' Hv Hg He Hu; [done|].
  assert (Hprim : (∀ l, v ≠ GRef l) → good opn st' ∧ extends st st' ∧ repr st' v i).
  { intros Hr. apply encode_prim_inv in He as (n & Hn & -> & ->); [|done].
    destruct (encode_prim_ok v n Hv Hn). split_and!; [by apply push_good|apply push_extends|].
    by eapply push_repr. }
  destruct v as [| | | | | | | |l]; try (by apply Hprim). clear Hprim.
  destruct (memo st !! l) as [id|] eqn:Hl.
  { cbn [encode_index] in He. rewrite Hl in He. by simplify_eq. }
  apply encode_ref_inv in He as (c & node & st2 & Hc & -> & Hcell & Hi & ->); [|done].
  cbn [nodes] in Hu. unfold u32_len in Hu. rewrite length_insert in Hu.
  pose proof (encode_cell_grows _ _ _ _ _ (encode_grows fuel) Hcell) as [Hlen Hmemo].
  cbn [open_object nodes] in Hlen. rewrite length_app in Hlen. cbn in Hlen.
  assert (Ho : l ∉ opn).
  { intros Ho%(good_open _ _ Hg). apply elem_of_dom in Ho as [? ?]. congruence. }
  destruct (open_good opn l st Hg Hl ltac:(lia)) as [Hg1 Hx1].
  destruct (encode_cell_ok _ _ _ _ _ _ (encode_grows fuel) IH (Hplain l c Hc) Hg1 Hcell Hu)
    as (Hg2 & Hx2 & Hcn & Hn).
  assert (Hl2 : memo st2 !! l = Some (next_index st)).
  { eapply lookup_weaken; [|apply Hx2]. cbn. apply lookup_insert_eq. }
  destruct (close_good opn l _ st2 c node Hg2 Ho Hl2 Hc Hn Hcn) as [Hg3 Hr3].
  split_and!; [done| |done]. assert (Hx : extends st st2) by (by etrans).
  split; cbn; [|apply Hx..]. apply prefix_insert; [apply Hx|]. rewrite next_index_u32 by lia. lia.
Qed.
End Encoder.
