(* ===== verification/CloneDecode.v ===== *)
(** The decoder of structured clones rebuilds the graph that a list of nodes
    describes: every node becomes at most one object, and its contents are the
    values of the nodes it points to. *)

From S2P Require Import Prelude Unicode WireCodec JsGraph CloneWire.

Section Decoder.
Variable bigint_of : rstring → res clone_error gval.
Variable shared_buffer : Z → res clone_error gcell.
Variable shared_view : Z → Z → Z → rstring → res clone_error gcell.
Variable wire : list WireNode.
Variable xfers : list (list Z).

#[local] Notation decode := (decode_at bigint_of shared_buffer shared_view wire xfers).

Definition in_range (id : Z) : Prop := 0 ≤ id < Z.of_nat (length wire).

(** Nodes of plain data, with indices that exist. *)
Definition plain_node (n : WireNode) : Prop :=
  match n with
  | WUndefined | WNull | WBool _ | WNumber _ | WString _ => True
  | WDate _ | WRegExp _ _ | WError _ => True
  | WArray ids => Forall in_range ids
  | WObject props => Forall (λ p, in_range p.2) props ∧ NoDup props.*1
  | _ => False
  end.

Hypothesis Hwire : Forall plain_node wire.

Definition prim_of (n : WireNode) : option gval :=
  match n with
  | WUndefined => Some GUndefined
  | WNull => Some GNull
  | WBool b => Some (GBool b)
  | WNumber n => Some (GNumber n)
  | WString s => Some (GString s)
  | _ => None
  end.

(** * The invariant *)

(** The value of a node. *)
Definition decoded (st : dec) (id : Z) (v : gval) : Prop := cache st !! Z.to_nat id = Some (Some v).

Definition node_cell (st : dec) (n : WireNode) (c : gcell) : Prop :=
  match n, c with
  | WArray ids, GArray elems => Forall2 (decoded st) ids elems
  | WObject props, GObject props' => Forall2 (λ p q, q.1 = p.1 ∧ decoded st p.2 q.2) props props'
  | WDate t, GDate t' => t' = t
  | WRegExp s f, GRegExp s' f' => s' = s ∧ f' = f
  | WError m, GError m' _ => m' = m
  | _, _ => False
  end.

(** The nodes of [opn] are being decoded; the objects of all other decoded
    nodes are finished. *)
Record dgood (opn : gset nat) (st : dec) : Prop := {
  dg_length : length (cache st) = length wire;
  dg_store : store_ok (heap st);
  dg_alloc : ∀ i l, cache st !! i = Some (Some (GRef l)) → is_Some (cells (heap st) !! l);
  dg_inj : ∀ i j l, cache st !! i = Some (Some (GRef l)) → cache st !! j = Some (Some (GRef l)) → i = j;
  dg_node : ∀ i v n, cache st !! i = Some (Some v) → wire !! i = Some n →
    prim_of n = Some v ∨
    ∃ l, v = GRef l ∧ (i ∉ opn → ∃ c, cells (heap st) !! l = Some c ∧ node_cell st n c);
}.

(** The cache and the heap only grow. *)
Definition cext (st st' : dec) : Prop := Forall2 (λ o o', o = None ∨ o = o') (cache st) (cache st').

#[local] Instance cext_preorder : PreOrder cext.
Proof.
  split.
  - intros st. apply Forall_Forall2_diag, Forall_true. by right.
  - intros a b c H1 H2. unfold cext in *. revert H2. generalize (cache c) as k.
    induction H1 as [|x y l m Hxy _ IH]; intros k Hk;
      inversion Hk as [|? z ? k' Hyz]; subst; constructor; [|by apply IH].
    destruct Hxy as [-> | ->]; [by left|done].
Qed.

Record dext (st st' : dec) : Prop := {
  dx_cache : cext st st';
  dx_cells : cells (heap st) ⊆ cells (heap st');
}.

#[local] Instance dext_preorder : PreOrder dext.
Proof. split; [by split|]. intros a b c [H1 H2] [H3 H4]. split; by etrans. Qed.

Lemma decoded_ext st st' id v : cext st st' → decoded st id v → decoded st' id v.
Proof.
  intros Hc Hd. unfold decoded in *.
  destruct (Forall2_lookup_l _ _ _ _ _ Hc Hd) as (o & Ho & [?|<-]); [done|exact Ho].
Qed.

Lemma node_cell_ext st st' n c : cext st st' → node_cell st n c → node_cell st' n c.
Proof.
  intros Hx. destruct n, c; cbn [node_cell]; try done; intros Hf; (eapply Forall2_impl; [exact Hf|]).
  - intros. by eapply decoded_ext.
  - intros p q [? ?]. split; [done|by eapply decoded_ext].
Qed.

(** * Progress *)

Definition missing (st : dec) : nat := length (filter (λ o, o = None) (cache st)).

Lemma missing_ext st st' : cext st st' → (missing st' ≤ missing st)%nat.
Proof.
  intros Hc. unfold missing. induction Hc as [|o o' c c' Ho _ IH]; [done|].
  rewrite !filter_cons. destruct Ho as [-> | ->]; repeat case_decide; simpl; try done; lia.
Qed.

Lemma missing_insert (c : list (option gval)) i v :
  c !! i = Some None →
  (length (filter (λ o, o = None) (<[i := Some v]> c)) < length (filter (λ o, o = None) c))%nat.
Proof.
  revert i. induction c as [|o c IH]; intros [|i] Hi; simplify_eq/=.
  - rewrite !filter_cons. repeat case_decide; simplify_eq; simpl; try done; lia.
  - rewrite !filter_cons. specialize (IH i Hi). case_decide; simpl; lia.
Qed.

(** * Single steps *)

Lemma set_cache_ext i v st :
  cache st !! i = Some None → dext st (set_cache i v st).
Proof.
  intros Hi. split; [|done]. unfold cext. cbn. rewrite <- (list_insert_id (cache st) i None) at 1 by done.
  apply Forall2_insert; [|by left]. apply Forall_Forall2_diag, Forall_true. by right.
Qed.

(** A primitive is stored. *)
Lemma prim_step opn st i n v :
  dgood opn st → cache st !! i = Some None → wire !! i = Some n → prim_of n = Some v →
  dgood opn (set_cache i v st) ∧ dext st (set_cache i v st).
Proof.
  intros Hg Hi Hn Hp. pose proof (set_cache_ext i v st Hi) as Hx.
  assert (Href : ∀ l, v ≠ GRef l) by (intros l ->; by destruct n).
  assert (Hlk : ∀ j w, <[i := Some v]> (cache st) !! j = Some (Some w) →
                (j = i ∧ w = v) ∨ (j ≠ i ∧ cache st !! j = Some (Some w))).
  { intros j w Hj. destruct (decide (j = i)) as [-> | Hne].
    - rewrite list_lookup_insert_eq in Hj by (by eapply lookup_lt_Some). simplify_eq. auto.
    - rewrite list_lookup_insert_ne in Hj by done. auto. }
  split; [|done]. split; cbn [cache set_cache heap].
  - rewrite length_insert. apply Hg.
  - apply Hg.
  - intros j l [[_ ?]|[_ Hj]]%Hlk; [by destruct (Href l)|by eapply Hg].
  - intros j k l [[_ ?]|[_ Hj]]%Hlk [[_ ?]|[_ Hk]]%Hlk; [by destruct (Href l)..|by eapply Hg].
  - intros j w m [[-> ->]|[Hne Hj]]%Hlk Hm.
    + simplify_eq. by left.
    + destruct (dg_node _ _ Hg j w m Hj Hm) as [|(l & -> & Hl)]; [by left|right].
      exists l. split; [done|]. intros Ho. destruct (Hl Ho) as (c & Hc & Hnc).
      exists c. split; [done|by eapply node_cell_ext; [apply Hx|]].
Qed.

(** A new object, cached while its contents are decoded. *)
Definition open_node (i : nat) (c : gcell) (st : dec) : dec :=
  set_cache i (GRef (next (heap st))) (mkDec (cache st) (alloc c (heap st)).2).

Lemma open_step opn st i c :
  dgood opn st → cache st !! i = Some None → prim_of <$> wire !! i = Some None →
  dgood ({[i]} ∪ opn) (open_node i c st) ∧ dext st (open_node i c st) ∧
  cells (heap (open_node i c st)) !! next (heap st) = Some c.
Proof.
  intros Hg Hi Hn. pose proof (alloc_fresh _ (dg_store _ _ Hg)) as Hfresh.
  assert (Hx : dext st (open_node i c st)).
  { split.
    - apply (set_cache_ext i (GRef (next (heap st))) st Hi).
    - cbn. by apply insert_subseteq. }
  assert (Hlk : ∀ j w, <[i := Some (GRef (next (heap st)))]> (cache st) !! j = Some (Some w) →
                (j = i ∧ w = GRef (next (heap st))) ∨ (j ≠ i ∧ cache st !! j = Some (Some w))).
  { intros j w Hj. destruct (decide (j = i)) as [-> | Hne].
    - rewrite list_lookup_insert_eq in Hj by (by eapply lookup_lt_Some). simplify_eq. auto.
    - rewrite list_lookup_insert_ne in Hj by done. auto. }
  split_and!; [|done|cbn; apply lookup_insert_eq]. split; cbn [open_node cache set_cache heap].
  - rewrite length_insert. apply Hg.
  - apply alloc_ok, Hg.
  - cbn. intros j l [[_ ?]|[_ Hj]]%Hlk; simplify_eq.
    + rewrite lookup_insert_eq. by eexists.
    + destruct (dg_alloc _ _ Hg j l Hj) as [c' Hc']. exists c'. rewrite lookup_insert_ne; congruence.
  - intros j k l [[-> Hl]|[Hj' Hj]]%Hlk [[-> Hl']|[Hk' Hk]]%Hlk; simplify_eq; [done| | |by eapply Hg].
    + destruct (dg_alloc _ _ Hg k _ Hk). congruence.
    + destruct (dg_alloc _ _ Hg j _ Hj). congruence.
  - intros j w m [[-> ->]|[Hne Hj]]%Hlk Hm.
    + right. eexists. split; [done|]. set_solver.
    + destruct (dg_node _ _ Hg j w m Hj Hm) as [|(l & -> & Hl)]; [by left|right].
      exists l. split; [done|]. intros Ho. destruct (Hl ltac:(set_solver)) as (c' & Hc' & Hnc).
      exists c'. split; [|by eapply node_cell_ext; [apply Hx|]].
      eapply lookup_weaken; [exact Hc'|apply Hx].
Qed.

(** The object is finished. *)
Lemma close_step opn st i n l c :
  dgood ({[i]} ∪ opn) st → wire !! i = Some n → cache st !! i = Some (Some (GRef l)) →
  cells (heap st) !! l = Some c → node_cell st n c → dgood opn st.
Proof.
  intros Hg Hn Hd Hc Hnc. split; try apply Hg.
  intros j w m Hj Hm. destruct (decide (j = i)) as [-> | Hne].
  - simplify_eq. right. exists l. split; [done|]. intros _. by exists c.
  - destruct (dg_node _ _ Hg j w m Hj Hm) as [|(l' & -> & Hl)]; [by left|right].
    exists l'. split; [done|]. intros Ho. apply Hl. set_solver.
Qed.

(** Filling the object of an open node changes no finished object. *)
Lemma fill_step opn st i l c :
  dgood opn st → i ∈ opn → cache st !! i = Some (Some (GRef l)) →
  dgood opn (mkDec (cache st) (mkStore (<[l := c]> (cells (heap st))) (next (heap st)))).
Proof.
  intros Hg Hi Hl. split; cbn.
  - apply Hg.
  - intros l'. cbn. destruct (decide (l' = l)) as [-> | Hne].
    + intros _. by eapply (dg_store _ _ Hg), Hg.
    + rewrite lookup_insert_ne by done. apply (dg_store _ _ Hg).
  - intros j l' Hj. destruct (decide (l' = l)) as [-> | Hne]; [rewrite lookup_insert_eq; by eexists|].
    rewrite lookup_insert_ne by done. by eapply Hg.
  - apply Hg.
  - intros j w m Hj Hm. destruct (dg_node _ _ Hg j w m Hj Hm) as [|(l' & -> & Hl')]; [by left|right].
    exists l'. split; [done|]. intros Ho. destruct (Hl' Ho) as (c' & Hc' & Hnc). exists c'.
    split; [|by destruct m, c']. rewrite lookup_insert_ne; [done|].
    intros <-. apply Ho. by rewrite (dg_inj _ _ Hg j i l Hj Hl).
Qed.

(** * Loops *)

(** The outcome of decoding node [id]. *)
Definition answers (opn : gset nat) (st : dec) (id : Z) (r : res clone_error (gval * dec)) : Prop :=
  ∃ v st', r = Ok (v, st') ∧ dgood opn st' ∧ dext st st' ∧ decoded st' id v.

Definition at_ok (at_ : Z → dec → res clone_error (gval * dec)) (n : nat) : Prop :=
  ∀ opn st id, dgood opn st → in_range id → (missing st < n)%nat → answers opn st id (at_ id st).

(** Everything but the object at [l] is kept. *)
Record dext_but (l : gloc) (st st' : dec) : Prop := {
  db_cache : cext st st';
  db_cells : ∀ l' c, l' ≠ l → cells (heap st) !! l' = Some c → cells (heap st') !! l' = Some c;
}.

#[local] Instance dext_but_preorder l : PreOrder (dext_but l).
Proof. split; [by split|]. intros a b c [H1 H2] [H3 H4]. split; [by etrans|auto]. Qed.

Lemma dext_but_dext l st st' : dext st st' → dext_but l st st'.
Proof. intros [H1 H2]. split; [done|]. intros. by eapply lookup_weaken. Qed.

Lemma fill_ext l st c :
  dext_but l st (mkDec (cache st) (mkStore (<[l := c]> (cells (heap st))) (next (heap st)))).
Proof.
  split; [by change (cext st st)|]. cbn. intros l' c' Hne Hl. by rewrite lookup_insert_ne.
Qed.

Lemma alter_cell {f : gcell → gcell} {l} {c : gcell} {m : graph} :
  m !! l = Some c → alter f l m = <[l := f c]> m.
Proof.
  intros Hl. apply map_eq. intros i. destruct (decide (i = l)) as [-> | Hne].
  - by rewrite lookup_alter_eq, lookup_insert_eq, Hl.
  - by rewrite lookup_alter_ne, lookup_insert_ne.
Qed.

Lemma decode_elems_ok at_ n opn i l ids st done elems :
  at_ok at_ n → dgood opn st → i ∈ opn → cache st !! i = Some (Some (GRef l)) →
  cells (heap st) !! l = Some (GArray elems) → Forall2 (decoded st) done elems →
  Forall in_range ids → (missing st < n)%nat →
  ∃ st' elems', decode_elems at_ l ids st = Ok st' ∧ dgood opn st' ∧ dext_but l st st' ∧
    cells (heap st') !! l = Some (GArray elems') ∧ Forall2 (decoded st') (done ++ ids) elems'.
Proof.
  intros Hat. revert st done elems.
  induction ids as [|id ids IH]; intros st done elems Hg Hi Hl Hc Hd Hr Hm; cbn [decode_elems].
  { exists st, elems. rewrite app_nil_r. by split_and!. }
  apply Forall_cons_1 in Hr as [Hid Hr].
  destruct (Hat opn st id Hg Hid Hm) as (v & st1 & -> & Hg1 & Hx1 & Hv). cbn [mbind res_bind].
  assert (Hc1 : cells (heap st1) !! l = Some (GArray elems)) by (by eapply lookup_weaken, Hx1).
  assert (Hl1 : cache st1 !! i = Some (Some (GRef l))).
  { pose proof (decoded_ext _ _ (Z.of_nat i) (GRef l) (dx_cache _ _ Hx1)) as Hdx.
    unfold decoded in Hdx. rewrite Nat2Z.id in Hdx. auto. }
  unfold array_push. rewrite (alter_cell Hc1).
  pose proof (missing_ext _ _ (dx_cache _ _ Hx1)) as Hmiss.
  destruct (IH (mkDec (cache st1) (mkStore (<[l := GArray (elems ++ [v])]> (cells (heap st1))) (next (heap st1))))
               (done ++ [id]) (elems ++ [v])) as (st' & elems' & -> & Hg' & Hx' & Hc' & Hd').
  - by eapply fill_step.
  - done.
  - done.
  - cbn. by rewrite lookup_insert_eq.
  - apply Forall2_app; [|by repeat constructor]. eapply Forall2_impl; [exact Hd|].
    intros. eapply (decoded_ext st); [apply Hx1|done].
  - done.
  - change (missing st1 < n)%nat. lia.
  - exists st', elems'. rewrite <- (assoc_L (++)) in Hd'. split_and!; try done.
    etrans; [by apply dext_but_dext|]. etrans; [apply fill_ext|exact Hx'].
Qed.

Lemma decode_props_ok at_ n opn i l props st done cur :
  at_ok at_ n → dgood opn st → i ∈ opn → cache st !! i = Some (Some (GRef l)) →
  cells (heap st) !! l = Some (GObject cur) →
  Forall2 (λ p q, q.1 = p.1 ∧ decoded st p.2 q.2) done cur →
  Forall (λ p, in_range p.2) props → NoDup (done ++ props).*1 → (missing st < n)%nat →
  ∃ st' cur', decode_props at_ l props st = Ok st' ∧ dgood opn st' ∧ dext_but l st st' ∧
    cells (heap st') !! l = Some (GObject cur') ∧
    Forall2 (λ p q, q.1 = p.1 ∧ decoded st' p.2 q.2) (done ++ props) cur'.
Proof.
  intros Hat. revert st done cur.
  induction props as [|[k id] props IH]; intros st done cur Hg Hi Hl Hc Hd Hr Hnd Hm; cbn [decode_props].
  { exists st, cur. rewrite app_nil_r. by split_and!. }
  apply Forall_cons_1 in Hr as [Hid Hr].
  destruct (Hat opn st id Hg Hid Hm) as (v & st1 & -> & Hg1 & Hx1 & Hv). cbn [mbind res_bind].
  assert (Hc1 : cells (heap st1) !! l = Some (GObject cur)) by (by eapply lookup_weaken, Hx1).
  assert (Hl1 : cache st1 !! i = Some (Some (GRef l))).
  { pose proof (decoded_ext _ _ (Z.of_nat i) (GRef l) (dx_cache _ _ Hx1)) as Hdx.
    unfold decoded in Hdx. rewrite Nat2Z.id in Hdx. auto. }
  assert (Hkeys : cur.*1 = done.*1).
  { clear -Hd. induction Hd as [|p q l1 l2 [Hpq _] _ IH]; cbn; congruence. }
  unfold object_set. rewrite (alter_cell Hc1), set_prop_fresh.
  2:{ rewrite Hkeys. rewrite fmap_app in Hnd. apply NoDup_app in Hnd as (_ & Hnd & _).
      intros Hk. apply (Hnd k Hk). cbn. by left. }
  pose proof (missing_ext _ _ (dx_cache _ _ Hx1)) as Hmiss.
  destruct (IH (mkDec (cache st1) (mkStore (<[l := GObject (cur ++ [(k, v)])]> (cells (heap st1))) (next (heap st1))))
               (done ++ [(k, id)]) (cur ++ [(k, v)])) as (st' & cur' & -> & Hg' & Hx' & Hc' & Hd').
  - by eapply fill_step.
  - done.
  - done.
  - cbn. by rewrite lookup_insert_eq.
  - apply Forall2_app; [|by repeat constructor]. eapply Forall2_impl; [exact Hd|].
    intros p q [? ?]. split; [done|]. eapply (decoded_ext st); [apply Hx1|done].
  - done.
  - by rewrite <- (assoc_L (++)).
  - change (missing st1 < n)%nat. lia.
  - exists st', cur'. rewrite <- (assoc_L (++)) in Hd'. split_and!; try done.
    etrans; [by apply dext_but_dext|]. etrans; [apply fill_ext|exact Hx'].
Qed.

(** * The decoder *)

(** Closing after a loop that filled the object. *)
Lemma finish_node opn st st' id n c c' :
  let i := Z.to_nat id in
  dgood opn st → cache st !! i = Some None → wire !! i = Some n → prim_of n = None →
  dgood ({[i]} ∪ opn) st' → dext_but (next (heap st)) (open_node i c st) st' →
  cells (heap st') !! next (heap st) = Some c' → node_cell st' n c' →
  dgood opn st' ∧ dext st st' ∧ decoded st' id (GRef (next (heap st))).
Proof.
  intros i Hg Hi Hn Hp Hg' Hx Hc Hnc.
  destruct (open_step opn st i c Hg Hi) as (_ & Hx0 & _); [by rewrite Hn; cbn; rewrite Hp|].
  assert (Hd : decoded st' id (GRef (next (heap st)))).
  { eapply decoded_ext; [apply Hx|]. apply list_lookup_insert_eq. by eapply lookup_lt_Some. }
  split_and!; [by eapply close_step| |done]. split.
  - etrans; [apply Hx0|apply Hx].
  - apply map_subseteq_spec. intros l c0 Hl. apply Hx.
    + intros ->. by rewrite (alloc_fresh _ (dg_store _ _ Hg)) in Hl.
    + eapply lookup_weaken; [exact Hl|apply Hx0].
Qed.

Lemma remember_new i c st :
  cache st !! i = Some None →
  remember i (new_object c st) = (GRef (next (heap st)), open_node i c st).
Proof. intros Hi. unfold remember, new_object. cbn. by rewrite Hi. Qed.

(** One lemma for each kind of node. *)
Section Node.
Variables (opn : gset nat) (st : dec) (id : Z) (n : WireNode).
Hypothesis Hg : dgood opn st.
Hypothesis Ho : cache st !! Z.to_nat id = Some None.
Hypothesis Hn : wire !! Z.to_nat id = Some n.

Lemma prim_answers v : prim_of n = Some v → answers opn st id (Ok (remember (Z.to_nat id) (v, st))).
Proof.
  intros Hv. unfold remember. rewrite Ho. destruct (prim_step opn st _ n v Hg Ho Hn Hv) as [Hg' Hx'].
  eexists _, _. split_and!; [done..|]. unfold decoded. cbn. apply list_lookup_insert_eq.
  by eapply lookup_lt_Some.
Qed.

Lemma leaf_answers c :
  prim_of n = None → (∀ st', node_cell st' n c) →
  answers opn st id (Ok (remember (Z.to_nat id) (new_object c st))).
Proof.
  intros Hp Hnc. rewrite remember_new by done.
  destruct (open_step opn st _ c Hg Ho) as (Hg1 & Hx1 & Hc1); [by rewrite Hn; cbn; rewrite Hp|].
  eexists _, _. split; [done|]. by eapply (finish_node opn st _ _ n c c).
Qed.

(** The new object is cached, so fewer nodes are missing. *)
Lemma open_missing c : (missing (open_node (Z.to_nat id) c st) < missing st)%nat.
Proof. apply (missing_insert (cache st) _ (GRef (next (heap st))) Ho). Qed.

Lemma open_cached c : cache (open_node (Z.to_nat id) c st) !! Z.to_nat id = Some (Some (GRef (next (heap st)))).
Proof. apply list_lookup_insert_eq. by eapply lookup_lt_Some. Qed.

Lemma array_answers at_ k ids :
  n = WArray ids → at_ok at_ k → Forall in_range ids → (missing st ≤ k)%nat →
  answers opn st id
    (st' ← decode_elems at_ (next (heap st)) ids (open_node (Z.to_nat id) (GArray []) st);
     Ok (GRef (next (heap st)), st')).
Proof.
  intros Heq Hat Hr Hm. destruct (open_step opn st _ (GArray []) Hg Ho) as (Hg1 & Hx1 & Hc1); [by rewrite Hn, Heq|].
  pose proof (open_missing (GArray [])).
  destruct (decode_elems_ok _ k _ (Z.to_nat id) (next (heap st)) ids _ [] [] Hat Hg1)
    as (st' & elems & -> & Hg' & Hx' & Hc' & Hf);
    [set_solver|apply open_cached|done|constructor|done|lia|].
  eexists _, _. split; [done|]. eapply finish_node; try done; by rewrite Heq.
Qed.

Lemma object_answers at_ k props :
  n = WObject props → at_ok at_ k → Forall (λ p, in_range p.2) props → NoDup props.*1 → (missing st ≤ k)%nat →
  answers opn st id
    (st' ← decode_props at_ (next (heap st)) props (open_node (Z.to_nat id) (GObject []) st);
     Ok (GRef (next (heap st)), st')).
Proof.
  intros Heq Hat Hr Hnd Hm.
  destruct (open_step opn st _ (GObject []) Hg Ho) as (Hg1 & Hx1 & Hc1); [by rewrite Hn, Heq|].
  pose proof (open_missing (GObject [])).
  destruct (decode_props_ok _ k _ (Z.to_nat id) (next (heap st)) props _ [] [] Hat Hg1)
    as (st' & cur & -> & Hg' & Hx' & Hc' & Hf);
    [set_solver|apply open_cached|done|constructor|done|done|lia|].
  eexists _, _. split; [done|]. eapply finish_node; try done; by rewrite Heq.
Qed.
End Node.

Lemma decode_ok fuel : at_ok (decode fuel) fuel.
Proof.
  induction fuel as [|fuel IH]; intros opn st id Hg Hid Hm; [lia|]. unfold in_range in Hid.
  destruct (lookup_lt_is_Some_2 wire (Z.to_nat id)) as [n Hn]; [lia|].
  destruct (lookup_lt_is_Some_2 (cache st) (Z.to_nat id)) as [o Ho]; [rewrite (dg_length _ _ Hg); lia|].
  assert (Hplain : plain_node n) by (rewrite Forall_forall in Hwire; by eapply Hwire, list_elem_of_lookup_2).
  cbn [decode_at]. rewrite Hn, Ho. cbn [or_panic mbind res_bind]. destruct o as [v|].
  { by exists v, st. }
  destruct n; cbn [plain_node] in Hplain; try done;
    try (by eapply prim_answers); try (by eapply leaf_answers).
  - eapply (array_answers _ _ _ (WArray items) Hg Ho Hn _ fuel items); [done..|lia].
  - destruct Hplain. eapply (object_answers _ _ _ (WObject props) Hg Ho Hn _ fuel props); [done..|lia].
Qed.
End Decoder.
