(* ===== verification/CloneProofs.v ===== *)
(** Structured clones across workers: encoding a value, writing and reading the
    bytes and decoding them gives an isomorphic copy. *)

From S2P Require Import Prelude Unicode WireCodec JsGraph CloneWire CloneEncode CloneDecode.

Section Roundtrip.
Variable bigint_of : rstring → res clone_error gval.
Variable shared_buffer : Z → res clone_error gcell.
Variable shared_view : Z → Z → Z → rstring → res clone_error gcell.
Variable h : graph.
Hypothesis Hplain : plain h.

(** * The nodes are plain *)

Lemma cell_node_plain st c n :
  good h ∅ st → plain_cell h c → cell_node st c n → plain_node (nodes st) n.
Proof.
  intros Hg Hc Hn. destruct c, n; cbn [cell_node plain_node plain_cell] in *; try done.
  - clear Hc. induction Hn as [|v i vs ids Hr _ IH]; constructor; [|done]. by eapply repr_range.
  - destruct Hc as (_ & _ & Hnd).
    assert (Hkeys : props0.*1 = props.*1).
    { clear -Hn. induction Hn as [|p q l1 l2 [Hpq _] _ IH]; cbn; congruence. }
    split; [|by rewrite Hkeys]. clear -Hg Hn.
    induction Hn as [|p q l1 l2 [_ Hr] _ IH]; constructor; [|done]. by eapply repr_range.
Qed.

Lemma nodes_plain st : good h ∅ st → Forall (plain_node (nodes st)) (nodes st).
Proof.
  intros Hg. apply Forall_lookup_2. intros i n Hn.
  destruct (good_prim _ _ _ Hg i n Hn) as [[l Hl]|Hp]; [|by destruct n].
  destruct (good_done _ _ _ Hg l _ Hl) as (c & n' & Hc & Hn' & Hcn); [set_solver|].
  rewrite Nat2Z.id in Hn'. simplify_eq. eapply cell_node_plain; [done|by eapply Hplain|done].
Qed.

(** * Putting the two halves together *)

Section Compose.
Variables (st : enc) (ds : dec).
Hypothesis Hg : good h ∅ st.
Hypothesis Hd : dgood (nodes st) ∅ ds.

(** From an object to its node, and from the node to the new object. *)
Definition renaming : gmap gloc gloc :=
  omap (λ i, match cache ds !! Z.to_nat i with Some (Some (GRef l')) => Some l' | _ => None end) (memo st).

Lemma renaming_Some l l' :
  renaming !! l = Some l' ↔ ∃ i, memo st !! l = Some i ∧ decoded ds i (GRef l').
Proof.
  unfold renaming, decoded. rewrite lookup_omap. split.
  - intros (i & Hi & Hc)%bind_Some. exists i. split; [done|]. by repeat case_match; simplify_eq.
  - intros (i & -> & Hc). cbn. by rewrite Hc.
Qed.

Lemma values_related v i v' :
  plain_val h v → repr st v i → decoded ds i v' → val_rel renaming v v'.
Proof.
  intros Hv Hr Hdec. assert (Hpr : (∀ l, v ≠ GRef l) → v' = v).
  { intros Hne. assert (∃ n, prim_of n = Some v ∧ nodes st !! Z.to_nat i = Some n) as (n & Hp & Hn).
    { destruct v; try done; try (by destruct (Hne l));
        destruct Hr as (_ & (n & [= <-] & Hn) & _); (eexists; split; [|exact Hn]; done). }
    destruct (dg_node _ _ _ Hd _ _ _ Hdec Hn) as [?|(l & -> & Hl)]; [congruence|].
    destruct (Hl ltac:(set_solver)) as (c & _ & Hc). by destruct n. }
  destruct v as [| | | | | | | |l]; try (by apply Hpr). cbn [repr val_rel] in *. clear Hpr.
  destruct (good_done _ _ _ Hg l i Hr) as (c & n & _ & Hn & Hcn); [set_solver|].
  destruct (dg_node _ _ _ Hd _ _ _ Hdec Hn) as [?|(l' & -> & _)]; [by destruct c, n|].
  exists l'. split; [|done]. apply renaming_Some. by exists i.
Qed.

Lemma cells_related c n c' :
  plain_cell h c → cell_node st c n → node_cell ds n c' → cell_rel renaming c c'.
Proof.
  intros Hc Hcn Hnc. destruct c, n, c'; cbn [plain_cell cell_node node_cell cell_rel] in *; try done; try naive_solver.
  - destruct Hc as [_ Hc]. revert elems0 Hnc.
    induction Hcn as [|v i vs ids Hr _ IH]; intros es Hnc; inversion Hnc; subst; constructor.
    + apply Forall_cons_1 in Hc as [Hv _]. by eapply values_related.
    + apply Forall_cons_1 in Hc as [_ Hc]. by apply IH.
  - destruct Hc as (_ & Hc & _). revert props1 Hnc.
    induction Hcn as [|p q ps qs [Hk Hr] _ IH]; intros es Hnc; inversion Hnc as [|? e ? ? [Hk' Hdec]]; subst; constructor.
    + apply Forall_cons_1 in Hc as [[_ Hv] _]. split; [congruence|by eapply values_related].
    + apply Forall_cons_1 in Hc as [_ Hc]. by apply IH.
Qed.

Lemma composed v i v' :
  plain_val h v → repr st v i → decoded ds i v' → isomorphic h v (cells (heap ds)) v'.
Proof.
  intros Hv Hr Hdec. exists renaming. split_and!.
  - by eapply values_related.
  - intros l1 l2 l' (i1 & H1 & Hd1)%renaming_Some (i2 & H2 & Hd2)%renaming_Some.
    pose proof (dg_inj _ _ _ Hd _ _ _ Hd1 Hd2).
    pose proof (good_range _ _ _ Hg _ _ H1). pose proof (good_range _ _ _ Hg _ _ H2).
    assert (i1 = i2) as -> by lia. by eapply Hg.
  - intros l l' (j & Hj & Hdj)%renaming_Some.
    destruct (good_done _ _ _ Hg l j Hj) as (c & n & Hc & Hn & Hcn); [set_solver|].
    destruct (dg_node _ _ _ Hd _ _ _ Hdj Hn) as [?|(l2 & ? & Hl)]; [by destruct c, n|]. simplify_eq.
    destruct (Hl ltac:(set_solver)) as (c' & Hc' & Hnc). exists c, c'. split_and!; [done..|].
    eapply cells_related; [by eapply Hplain|done..].
Qed.
End Compose.

Lemma empty_good : good h ∅ enc_empty.
Proof. split; cbn; try set_solver. Qed.

Lemma start_good (wire : list WireNode) s : store_ok s → dgood wire ∅ (mkDec (replicate (length wire) None) s).
Proof.
  intros Hs. assert (Hn : ∀ i v, replicate (length wire) None !! i ≠ Some (Some v : option gval)).
  { intros i v Hi. apply lookup_replicate_1 in Hi as [? _]. done. }
  split; cbn; [apply length_replicate|done|..]; intros; by exfalso; eapply Hn.
Qed.

Lemma start_missing (wire : list WireNode) s : (missing (mkDec (replicate (length wire) None) s) ≤ length wire)%nat.
Proof. unfold missing. cbn. etrans; [apply length_filter|]. by rewrite length_replicate. Qed.

End Roundtrip.

(** * Where clones go wrong *)

(** A map that contains itself is encoded, but the decoder, which builds a map
    after its entries, never comes back. *)
Lemma map_diverges bigint_of shared_buffer shared_view xfers fuel s :
  decode_at bigint_of shared_buffer shared_view [WMap [(0, 0)]] xfers fuel 0 (mkDec [None] s) = Panic.
Proof. induction fuel as [|fuel IH]; [done|]. cbn [decode_at]. change (Z.to_nat 0) with O. cbn. by rewrite IH. Qed.

(** Cyclic maps do not survive: a map with itself as key and value is
    encoded and written, and decoding it recurses without end, whatever the
    stack. *)
Theorem cyclic_map_diverges (bigint_of : rstring → res clone_error gval)
    (shared_buffer : Z → res clone_error gcell) (shared_view : Z → Z → Z → rstring → res clone_error gcell)
    (s : store) (fuel : nat) :
  ∃ payload, encode_value {[1%positive := GMap [(GRef 1, GRef 1)]]} 2 (GRef 1) = Ok payload ∧
    deserialize bigint_of shared_buffer shared_view fuel payload s = Panic.
Proof.
  exists (mkPayload (write_body 0 [WMap [(0, 0)]]) []). split.
  - by vm_compute.
  - unfold deserialize. cbn [body transfers]. rewrite read_write_body.
    + unfold decode_index. cbn [length replicate]. by rewrite map_diverges.
    + unfold u32_ok. lia.
    + unfold u32_len. cbn. lia.
    + repeat constructor; cbn; unfold u32_ok; lia.
Qed.

(** Of several array buffers every one arrives with the bytes of the first:
    [[buffer 1, buffer 2]] becomes an array of two buffers with the byte 1. *)
Example buffers_collapse :
  (payload ← encode_value {[1%positive := GArray [GRef 2; GRef 3]; 2%positive := GArrayBuffer [1];
                            3%positive := GArrayBuffer [2]]} 3 (GRef 1);
   '(v, s) ← deserialize (λ _, Err SharedError) (λ _, Err SharedError) (λ _ _ _ _, Err SharedError) 3 payload
               empty_store;
   Ok (v, map_to_list (cells s))) =
  Ok (GRef 1, [(3%positive, GArrayBuffer [1]); (2%positive, GArrayBuffer [1]);
               (1%positive, GArray [GRef 2; GRef 3])]).
Proof. vm_compute. reflexivity. Qed.

(** An object that contains itself and shares an array. *)
Definition knot : graph :=
  {[1%positive := GObject [([97], GRef 1); ([98], GRef 2); ([99], GRef 2)];
    2%positive := GArray [GNumber 0; GString [104; 105]; GRef 1]]}.

Lemma knot_plain : plain knot.
Proof.
  intros l c Hc. unfold knot in Hc.
  apply lookup_insert_Some in Hc as [[_ <-] | [_ Hc]]; [|apply lookup_singleton_Some in Hc as [_ <-]].
  - split_and!; [done| |by repeat constructor; set_solver].
    repeat constructor; cbn; done.
  - split; [done|]. repeat constructor; cbn; done.
Qed.

