(* ===== verification/Timers.v ===== *)
(** Timers ([modules/raster_runtime_timers/src/lib.rs]): the timers of one
    runtime, the background task that sleeps until the next one is due, and
    what JavaScript can do to them, from outside and from inside a callback.

    [RT_TIMER_STATE] has an entry per runtime and every function looks its own
    runtime's up; the model follows one runtime [rt], whose entry is [entry]
    ([None] before [init]).  The references timers hold on the event loop are
    those of [EventLoop].  Instants and durations are in nanoseconds.  Ids are
    counted in 64 bits: [TIMER_ID] and [HOOK_RESOURCE_ID] wrap.

    What JavaScript does is a parameter: a callback, the pending jobs and the
    native drivers are functions from the state to the calls they make, so
    nothing is assumed about them. *)

From S2P Require Import Prelude EventLoop.

(** * Time *)

Definition MILLI : Z := 1000000.
Definition SEC : Z := 1000 * MILLI.
Definition MIN_SLEEP : Z := 4 * MILLI.
Definition FAR_FUTURE : Z := 84200 * 365 * 30 * SEC.

(** * Data *)

Inductive ProviderType :=
  | ProviderNone
  | Resource (name : list Z)
  | Immediate | Interval | MessagePort | Microtask | TickObject | TimeoutProvider
  | FsReqCallback | GetAddrInfoReqWrap | GetNameInfoReqWrap | PipeWrap | StatWatcher
  | TcpWrap | TimerWrap | TlsWrap | UdpWrap.

(** [callback] names a JavaScript function. *)
Record Timeout := mkTimeout {
  callback : option nat;
  deadline : Z;
  id : Z;
  hook_id : Z;
  repeating : bool;
  interval : Z;
  pending_destroy : bool;
  t_referenced : bool;
  loop_ref : nat;
}.

(** [notify] says whether the [Notify] has a permit. *)
Record RuntimeTimerState := mkState {
  timers : list Timeout;
  running : bool;
  rt_deadline : Z;
  notify : bool;
  executing_hook_id : Z;
}.

Record TimerHandle := mkHandle { handle_id : Z; handle_ref : nat }.

Record ExecutingTimer := mkExecuting { x_deadline : Z; x_callback : nat; x_hook : Z }.

(** A background task of [create_spawn_loop]. *)
Record task := mkTask { sleep : Z; call_vec : list (option ExecutingTimer) }.

(** Calls into JavaScript, in order. *)
Inductive event :=
  | HookInit (p : ProviderType) (hook : Z)
  | HookBefore (hook : Z)
  | Called (cb : nat) (hook : Z)
  | HookAfter (hook : Z)
  | HookDestroy (hook : Z).

(** [issued] are the handles returned so far, [hooks] the number of hook ids
    handed out, [server_vec] the vector of the HTTP server, which polls too. *)
Record tworld := mkTWorld {
  ev : world;
  entry : option RuntimeTimerState;
  issued : list TimerHandle;
  hooks : nat;
  tasks : list task;
  server_vec : list (option ExecutingTimer);
  clock : Z;
  trace : list event;
}.

Definition set_ev (e : world) (w : tworld) : tworld :=
  mkTWorld e (entry w) (issued w) (hooks w) (tasks w) (server_vec w) (clock w) (trace w).
Definition set_entry (s : RuntimeTimerState) (w : tworld) : tworld :=
  mkTWorld (ev w) (Some s) (issued w) (hooks w) (tasks w) (server_vec w) (clock w) (trace w).
Definition set_tasks (ts : list task) (w : tworld) : tworld :=
  mkTWorld (ev w) (entry w) (issued w) (hooks w) ts (server_vec w) (clock w) (trace w).
Definition set_server_vec (v : list (option ExecutingTimer)) (w : tworld) : tworld :=
  mkTWorld (ev w) (entry w) (issued w) (hooks w) (tasks w) v (clock w) (trace w).
Definition add_clock (d : Z) (w : tworld) : tworld :=
  mkTWorld (ev w) (entry w) (issued w) (hooks w) (tasks w) (server_vec w) (clock w + d) (trace w).
Definition log (e : event) (w : tworld) : tworld :=
  mkTWorld (ev w) (entry w) (issued w) (hooks w) (tasks w) (server_vec w) (clock w) (trace w ++ [e]).
Definition issue (h : TimerHandle) (w : tworld) : tworld :=
  mkTWorld (ev w) (entry w) (issued w ++ [h]) (hooks w) (tasks w) (server_vec w) (clock w) (trace w).

Definition with_timers (ts : list Timeout) (s : RuntimeTimerState) : RuntimeTimerState :=
  mkState ts (running s) (rt_deadline s) (notify s) (executing_hook_id s).
Definition notify_one (s : RuntimeTimerState) : RuntimeTimerState :=
  mkState (timers s) (running s) (rt_deadline s) true (executing_hook_id s).
Definition with_running (b : bool) (s : RuntimeTimerState) : RuntimeTimerState :=
  mkState (timers s) b (rt_deadline s) (notify s) (executing_hook_id s).
Definition with_deadline (d : Z) (s : RuntimeTimerState) : RuntimeTimerState :=
  mkState (timers s) (running s) d (notify s) (executing_hook_id s).
Definition with_executing (h : Z) (s : RuntimeTimerState) : RuntimeTimerState :=
  mkState (timers s) (running s) (rt_deadline s) (notify s) h.

Definition pending (t : Timeout) : bool := match callback t with Some _ => true | None => false end.

(** * Ids *)

Definition wrap_usize (z : Z) : Z := z `mod` 18446744073709551616.

Definition TIMER_ID (w : tworld) : Z := wrap_usize (Z.of_nat (length (issued w))).
Definition HOOK_RESOURCE_ID (w : tworld) : Z := wrap_usize (1 + Z.of_nat (hooks w)).

Definition bump_hooks (w : tworld) : tworld :=
  mkTWorld (ev w) (entry w) (issued w) (S (hooks w)) (tasks w) (server_vec w) (clock w) (trace w).

(** The loop runs at most three times. *)
Fixpoint allocate_loop (fuel : nat) (w : tworld) : res () (Z * tworld) :=
  match fuel with
  | O => Panic
  | S fuel =>
      let id := HOOK_RESOURCE_ID w in
      let w := bump_hooks w in
      if 1 <? id then Ok (id, w) else allocate_loop fuel w
  end.
Definition allocate_hook_resource_id (w : tworld) : res () (Z * tworld) := allocate_loop 3 w.

(** [Arc::new] returns an unused location. *)
Definition fresh_loc (e : world) : nat := map_fold (λ l _ m, Nat.max (S l) m) O (handles e).

(** * The operations *)

(** The argument of [clearTimeout]: a number truncated towards zero ([None]
    for NaN), a handle, or anything else. *)
Inductive clear_arg := ArgNumber (n : option Z) | ArgHandle (h : TimerHandle) | ArgOther.

Definition timer_id_from_value (a : clear_arg) : option Z :=
  match a with
  | ArgNumber None => Some 0
  | ArgNumber (Some n) => Some (Z.max 0 (Z.min n 18446744073709551615))
  | ArgHandle h => Some (handle_id h)
  | ArgOther => None
  end.

(** [iter_mut().find(p)] followed by an update of what it found. *)
Fixpoint update_first {A} (p : A → bool) (f : A → A) (l : list A) : list A :=
  match l with
  | [] => []
  | x :: l => if p x then f x :: l else x :: update_first p f l
  end.
Definition find_first {A} (p : A → bool) (l : list A) : option A := head (filter (λ x, p x = true) l).

Section Timers.
(** The runtime; whether async hooks are tracked and their dispatcher is
    installed. *)
Variable rt : RtKey.
Variables tracking dispatcher : bool.

Definition hook (e : event) (w : tworld) : tworld := if dispatcher then log e w else w.

(** [invoke_async_hook(.., Init, ..)] *)
Definition hook_init (p : ProviderType) (h : Z) (w : tworld) : tworld :=
  if tracking then hook (HookInit p h) w else w.

Definition should_keep_timer_loop (s : RuntimeTimerState) (e : world) : bool * world :=
  if negb (existsb pending (timers s)) then (false, e) else
  let '(http, e) := has_http_inflight rt e in
  if http then (true, e) else
  let '(refed, e) := has_refed_handles rt e in
  if refed then (true, e) else
  (existsb (λ t, pending t && t_referenced t) (timers s), e).

Definition create_spawn_loop (d : Z) (w : tworld) : tworld := set_tasks (tasks w ++ [mkTask d []]) w.

Definition init (w : tworld) : tworld :=
  match entry w with
  | Some _ => w
  | None => set_entry (mkState [] false (clock w + 86400 * 365 * 30 * SEC) false 0) w
  end.

(** [RUNTIME_TIMER_STATE] after the push of a timer: wake the task, or start
    one. *)
Definition schedule (d : Z) (s : RuntimeTimerState) (w : tworld) : tworld :=
  if running s then
    set_entry (if d <? rt_deadline s then notify_one (with_deadline d s) else s) w
  else
    let '(keep, e) := should_keep_timer_loop s (ev w) in
    let w := set_ev e w in
    if keep then create_spawn_loop d (set_entry (with_running true s) w) else set_entry s w.

Definition set_timeout_interval (cb : nat) (delay : Z) (p : ProviderType) (ref : bool) (w : tworld) :
    res () (TimerHandle * tworld) :=
  '(rep, d) ← match p with
              | Immediate => Ok (false, clock w - 600 * SEC)
              | TimeoutProvider => Ok (false, clock w + delay * MILLI)
              | Interval => Ok (true, clock w + delay * MILLI)
              | _ => Err ()
              end;
  let tid := TIMER_ID w in
  '(h, w) ← allocate_hook_resource_id w;
  let w := hook_init p h w in
  let l := fresh_loc (ev w) in
  let w := set_ev ((if ref then new_referenced else new_unreferenced) rt l (ev w)) w in
  let t := mkTimeout (Some cb) d tid h rep delay false ref l in
  s ← or_panic (entry w);
  let w := schedule d (with_timers (timers s ++ [t]) s) w in
  let hd := mkHandle tid l in
  Ok (hd, issue hd w).

(** A timer that is cleared, by its own callback or from outside. *)
Definition cleared (now : Z) (self : bool) (t : Timeout) : Timeout :=
  mkTimeout None (now - SEC) (id t) (hook_id t) false (interval t) (pending_destroy t || self) false (loop_ref t).

Definition clear_timeout_interval (a : clear_arg) (w : tworld) : res () tworld :=
  match timer_id_from_value a with
  | None => Ok w
  | Some tid =>
      s ← or_panic (entry w);
      match find_first (λ t, id t =? tid) (timers s) with
      | None => Ok w
      | Some t =>
          let self := (executing_hook_id s =? hook_id t) && negb (hook_id t =? 0) in
          let s := with_timers (update_first (λ t, id t =? tid) (cleared (clock w) self) (timers s)) s in
          let w := set_entry (notify_one s) (set_ev (unreference (loop_ref t) (ev w)) w) in
          Ok (if self then w else hook (HookDestroy (hook_id t)) w)
      end
  end.

Definition set_timer_referenced (tid : Z) (b : bool) (w : tworld) : tworld :=
  match entry w with
  | None => w
  | Some s =>
      match find_first (λ t, id t =? tid) (timers s) with
      | None => w
      | Some _ =>
          let s := with_timers (update_first (λ t, id t =? tid) (λ t,
                     mkTimeout (callback t) (deadline t) (id t) (hook_id t) (repeating t) (interval t)
                       (pending_destroy t) b (loop_ref t)) (timers s)) s in
          set_entry (if b then s else notify_one s) w
      end
  end.

Definition js_ref (h : TimerHandle) (w : tworld) : tworld :=
  set_timer_referenced (handle_id h) true (set_ev (reference (handle_ref h) (ev w)) w).
Definition unref (h : TimerHandle) (w : tworld) : tworld :=
  set_timer_referenced (handle_id h) false (set_ev (unreference (handle_ref h) (ev w)) w).
Definition has_ref (h : TimerHandle) (w : tworld) : bool := is_referenced (handle_ref h) (ev w).

Definition resume_timer_loop_if_idle (w : tworld) : tworld :=
  match entry w with
  | None => w
  | Some s =>
      if running s then w else
      let '(keep, e) := should_keep_timer_loop s (ev w) in
      let w := set_ev e w in
      if keep then create_spawn_loop (rt_deadline s) (set_entry (with_running true s) w) else w
  end.

Definition keeps_timers_alive (w : tworld) : bool * tworld :=
  match entry w with
  | None => (false, w)
  | Some s => let '(keep, e) := should_keep_timer_loop s (ev w) in (keep, set_ev e w)
  end.

Definition has_pending_timer_callbacks (w : tworld) : bool :=
  match entry w with None => false | Some s => existsb pending (timers s) end.

(** Before the process exits. *)
Definition discard_all_timers_on_process_exit (w : tworld) : res () tworld :=
  s ← or_panic (entry w);
  let ids := hook_id <$> filter (λ t, pending t = true) (timers s) in
  let e := foldl (λ e t, unreference (loop_ref t) e) (ev w) (timers s) in
  let w := set_ev e (set_entry (notify_one (with_running false (with_timers [] s))) w) in
  Ok (foldl (λ w h, if h =? 0 then w else hook (HookDestroy h) w) w ids).

(** * Polling *)

(** What JavaScript and the native drivers call. *)
Inductive cmd :=
  | CSet (cb : nat) (delay : Z) (p : ProviderType) (ref : bool)
  | CClear (a : clear_arg)
  | CRef (h : nat)
  | CUnref (h : nat)
  | CResource
  | CResume
  | CWait (d : N).

Definition run_cmd (c : cmd) (w : tworld) : res () tworld :=
  match c with
  | CSet cb delay p ref =>
      match set_timeout_interval cb delay p ref w with
      | Ok (_, w) => Ok w
      | Err _ => Ok w
      | Panic => Panic
      end
  | CClear a => clear_timeout_interval a w
  | CRef i => Ok (match issued w !! i with Some h => js_ref h w | None => w end)
  | CUnref i => Ok (match issued w !! i with Some h => unref h w | None => w end)
  | CResource => '(_, w) ← allocate_hook_resource_id w; Ok w
  | CResume => Ok (resume_timer_loop_if_idle w)
  | CWait d => Ok (add_clock (Z.of_N d) w)
  end.

Fixpoint run_cmds (cs : list cmd) (w : tworld) : res () tworld :=
  match cs with
  | [] => Ok w
  | c :: cs => w ← run_cmd c w; run_cmds cs w
  end.

(** [user] gives the calls of a callback and whether it throws in the end. *)
Variable user : nat → tworld → list cmd * bool.
Variable jobs : tworld → list cmd.
Variable drivers : tworld → list cmd.
(** [sort_unstable_by_key] *)
Variable sort : list (option ExecutingTimer) → list (option ExecutingTimer).

Record retained := mkRetained {
  kept : list Timeout; to_call : list (option ExecutingTimer); lowest : Z; ret_ev : world }.

(** The [retain_mut] of [poll_timers]. *)
Fixpoint retain_due (now : Z) (ts : list Timeout) (r : retained) : retained :=
  match ts with
  | [] => r
  | t :: ts =>
      retain_due now ts
        (if deadline t <? now then
           match callback t with
           | Some cb =>
               if negb (repeating t) then
                 mkRetained (kept r) (to_call r ++ [Some (mkExecuting (deadline t) cb (hook_id t))]) (lowest r)
                   (unreference (loop_ref t) (ret_ev r))
               else
                 let d := now + interval t * MILLI in
                 mkRetained (kept r ++ [mkTimeout (Some cb) d (id t) (hook_id t) true (interval t)
                                          (pending_destroy t) (t_referenced t) (loop_ref t)])
                   (to_call r ++ [Some (mkExecuting d cb (hook_id t))]) (Z.min d (lowest r)) (ret_ev r)
           | None => r
           end
         else mkRetained (kept r ++ [t]) (to_call r) (Z.min (deadline t) (lowest r)) (ret_ev r))
  end.

Definition set_executing (h : Z) (w : tworld) : res () tworld :=
  s ← or_panic (entry w); Ok (set_entry (with_executing h s) w).

(** Destroy after a callback: the timer left the list, or was cleared by its
    own callback. *)
Definition destroy_if_done (h : Z) (w : tworld) : res () tworld :=
  s ← or_panic (entry w);
  if match find_first (λ t, hook_id t =? h) (timers s) with None => true | Some t => pending_destroy t end
  then
    let w := hook (HookDestroy h) w in
    Ok (set_entry (with_timers (filter (λ t, hook_id t ≠ h) (timers s)) s) w)
  else Ok w.

(** One due timer; [true] if its callback threw.  [ExecutingGuard] resets the
    executing id on both ways out. *)
Definition call_timer (x : ExecutingTimer) (w : tworld) : res () (bool * tworld) :=
  w ← set_executing (x_hook x) w;
  let w := hook (HookBefore (x_hook x)) w in
  let '(cs, throws) := user (x_callback x) w in
  w ← run_cmds cs (log (Called (x_callback x) (x_hook x)) w);
  let w := hook (HookAfter (x_hook x)) w in
  if throws : bool then
    w ← set_executing 0 w; Ok (true, w)
  else
    w ← run_cmds (jobs w) w;
    w ← destroy_if_done (x_hook x) w;
    w ← set_executing 0 w; Ok (false, w).

(** The loop over [call_vec]; the first callback is preceded by the pending
    jobs.  When a callback throws, what is left stays in the vector. *)
Fixpoint call_all (first : bool) (vec : list (option ExecutingTimer)) (w : tworld) :
    res () (bool * list (option ExecutingTimer) * tworld) :=
  match vec with
  | [] => Ok (false, [], w)
  | None :: vec =>
      '(threw, left_, w) ← call_all first vec w;
      Ok (threw, if threw : bool then None :: left_ else [], w)
  | Some x :: vec =>
      w ← (if first then run_cmds (jobs w) w else Ok w);
      '(threw, w) ← call_timer x w;
      if threw : bool then Ok (true, None :: vec, w)
      else
        '(threw, left_, w) ← call_all false vec w;
        Ok (threw, if threw : bool then None :: left_ else [], w)
  end.

Inductive poll_result := Continue | Stop | Threw.

Record polled := mkPolled {
  outcome : poll_result;
  new_sleep : option Z;
  left_vec : list (option ExecutingTimer);
  after : tworld;
}.

(** The timers taken off the list, before any callback runs. *)
Definition take_due (vec : list (option ExecutingTimer)) (s : RuntimeTimerState) (w : tworld) :
    list (option ExecutingTimer) * option Z * RuntimeTimerState * tworld :=
  let now := clock w in
  let r := retain_due now (timers s) (mkRetained [] vec (now + FAR_FUTURE) (ev w)) in
  let low := if lowest r - now <? MIN_SLEEP then now + MIN_SLEEP else lowest r in
  let had_items := match timers s with [] => false | _ => true end in
  let s := with_timers (kept r) s in
  (sort (to_call r), if had_items then Some low else None,
   if had_items then with_deadline low s else s, set_ev (ret_ev r) w).

(** Whether the task goes on, after the callbacks. *)
Definition settle (has_items : bool) (w : tworld) : res () (bool * tworld) :=
  s ← or_panic (entry w);
  let '(keep, e) := should_keep_timer_loop s (ev w) in
  let go := keep && has_items in
  Ok (go, set_entry (with_running go s) (set_ev e w)).

Definition poll_timers (vec : list (option ExecutingTimer)) (w : tworld) : res () polled :=
  w ← run_cmds (drivers w) w;
  match entry w with
  | None => Ok (mkPolled Stop None vec w)
  | Some s =>
      let '(vec, low, s, w) := take_due vec s w in
      let has_items := match timers s with [] => false | _ => true end in
      '(threw, left_, w) ← call_all true vec (set_entry s w);
      if threw : bool then Ok (mkPolled Threw low left_ w)
      else
        '(go, w) ← settle has_items w;
        Ok (mkPolled (if go : bool then Continue else Stop) low [] w)
  end.

(** * The background task *)

(** A turn of the [i]th task: it polls and sleeps again, or ends. *)
Definition turn (i : nat) (w : tworld) : res () tworld :=
  k ← or_panic (tasks w !! i);
  p ← poll_timers (call_vec k) w;
  let w := after p in
  Ok (match outcome p with
      | Continue => set_tasks (<[i := mkTask (default (sleep k) (new_sleep p)) (left_vec p)]> (tasks w)) w
      | Stop | Threw => set_tasks (delete i (tasks w)) w
      end).

(** The HTTP server polls without a sleep of its own and ignores errors. *)
Definition server_poll (w : tworld) : res () tworld :=
  p ← poll_timers (server_vec w) w;
  Ok (set_server_vec (left_vec p) (after p)).

(** [notified()] takes the permit. *)
Definition take_permit (w : tworld) : tworld :=
  match entry w with
  | Some s => set_entry (mkState (timers s) (running s) (rt_deadline s) false (executing_hook_id s)) w
  | None => w
  end.

(** A task runs when it is notified, when its sleep is over, or when a native
    driver wakes it. *)
Inductive tstep : tworld → tworld → Prop :=
  | StepCmd c w w' : run_cmd c w = Ok w' → tstep w w'
  | StepNotified i s w w' :
      entry w = Some s → notify s = true → turn i (take_permit w) = Ok w' → tstep w w'
  | StepSlept i k w w' :
      tasks w !! i = Some k → sleep k ≤ clock w → turn i w = Ok w' → tstep w w'
  | StepDriver i w w' : turn i w = Ok w' → tstep w w'
  | StepServer w w' : server_poll w = Ok w' → tstep w w'
  | StepExit w w' : discard_all_timers_on_process_exit w = Ok w' → tstep w w'.
End Timers.
