(* ===== verification/TimerProofs.v ===== *)
(** Timers: ids and hook ids are unique, a poll calls exactly the timers that
    are due, and a cleared timer is never called again. *)

From S2P Require Import Prelude EventLoop Timers.

(** * Lists *)

Lemma update_first_Forall2 {A} (p : A → bool) f (l : list A) :
  Forall2 (λ x y, y = x ∨ y = f x) l (update_first p f l).
Proof.
  induction l as [|x l IH]; cbn; [constructor|]. destruct (p x); constructor; auto.
  clear. induction l; constructor; auto.
Qed.

Lemma update_first_fmap {A B} (g : A → B) (p : A → bool) f (l : list A) :
  (∀ x, g (f x) = g x) → g <$> update_first p f l = g <$> l.
Proof.
  intros Hg. induction l as [|x l IH]; cbn; [done|]. destruct (p x); cbn; [by rewrite Hg|by rewrite IH].
Qed.

Lemma find_first_Some {A} (p : A → bool) (l : list A) x :
  find_first p l = Some x → x ∈ l ∧ p x = true.
Proof. unfold find_first. intros H%head_Some_elem_of. apply list_elem_of_filter in H. tauto. Qed.

Lemma find_first_None {A} (p : A → bool) (l : list A) x :
  find_first p l = None → x ∈ l → p x = false.
Proof.
  unfold find_first. intros H Hx. destruct (p x) eqn:Hp; [|done].
  assert (Hin : x ∈ filter (λ x, p x = true) l) by (by apply list_elem_of_filter).
  destruct (filter _ l); [by apply elem_of_nil in Hin|done].
Qed.

Lemma omap_Somes {A} (l : list A) : omap Datatypes.id (Some <$> l) = l.
Proof. induction l as [|x l IH]; cbn; [done|]. by f_equal. Qed.

Lemma NoDup_fmap_eq {A B} (g : A → B) (l : list A) x y :
  NoDup (g <$> l) → x ∈ l → y ∈ l → g x = g y → x = y.
Proof.
  intros Hnd [i Hi]%list_elem_of_lookup [j Hj]%list_elem_of_lookup He.
  assert (i = j) as ->; [|congruence]. eapply (NoDup_lookup (g <$> l)); [done|..].
  - rewrite list_lookup_fmap, Hi. done.
  - rewrite list_lookup_fmap, Hj, He. done.
Qed.

(** * What one call does *)

(** The callbacks called so far. *)
Definition called (es : list event) : list (nat * Z) :=
  omap (λ e, match e with Called cb h => Some (cb, h) | _ => None end) es.

Lemma called_app es es' : called (es ++ es') = called es ++ called es'.
Proof. apply omap_app. Qed.

(** The counters stay below 2^64. *)
Definition room (w : tworld) : Prop :=
  Z.of_nat (hooks w) < 18446744073709551616 ∧ Z.of_nat (length (issued w)) < 18446744073709551616.

Lemma allocate_spec w h w' :
  allocate_hook_resource_id w = Ok (h, w') →
  ∃ n, (hooks w < n)%nat ∧ h = wrap_usize (Z.of_nat n) ∧ 1 < h ∧
       w' = mkTWorld (ev w) (entry w) (issued w) n (tasks w) (server_vec w) (clock w) (trace w).
Proof.
  unfold allocate_hook_resource_id. generalize 3%nat as fuel. intros fuel. revert w.
  induction fuel as [|fuel IH]; intros w H; [done|]. cbn [allocate_loop] in H.
  destruct (Z.ltb_spec 1 (HOOK_RESOURCE_ID w)).
  - simplify_eq. exists (S (hooks w)). unfold HOOK_RESOURCE_ID in *. split_and!; [lia| |lia|done].
    f_equal. lia.
  - apply IH in H as (n & Hn & Hh & H1 & ->). exists n. cbn in *. split_and!; [lia|done|done|done].
Qed.

(** Nothing but the timers, the clock and the counters moves on, and the
    callbacks [cs] are called. *)
Record frames (cs : list (nat * Z)) (w w' : tworld) : Prop := {
  fr_called : called (trace w') = called (trace w) ++ cs;
  fr_hooks : (hooks w ≤ hooks w')%nat;
  fr_issued : issued w `prefix_of` issued w';
  fr_clock : clock w ≤ clock w';
  fr_server : server_vec w' = server_vec w;
  fr_tasks : ∃ new, tasks w' = tasks w ++ new ∧ Forall (λ k, call_vec k = []) new;
}.

Notation frame := (frames []).

Lemma frames_trans cs1 cs2 w1 w2 w3 :
  frames cs1 w1 w2 → frames cs2 w2 w3 → frames (cs1 ++ cs2) w1 w3.
Proof.
  intros [] []. split; [|lia|by etrans|lia|congruence|].
  - rewrite fr_called1, fr_called0. by rewrite (assoc_L (++)).
  - destruct fr_tasks0 as (n1 & H1 & Hn1), fr_tasks1 as (n2 & H2 & Hn2). exists (n1 ++ n2).
    rewrite H2, H1, (assoc_L (++)). split; [done|by apply Forall_app].
Qed.

(** A world that differs from [w] in its entry and event loop only. *)
Lemma frame_intro w w' :
  called (trace w') = called (trace w) → hooks w' = hooks w → issued w' = issued w → clock w' = clock w →
  server_vec w' = server_vec w → tasks w' = tasks w → frame w w'.
Proof.
  intros H1 H2 H3 H4 H5 H6. split; [by rewrite H1, app_nil_r|lia|by rewrite H3|lia|done|].
  exists []. by rewrite H6, app_nil_r.
Qed.

#[export] Instance frame_preorder : PreOrder frame.
Proof. split; [intros w; by apply frame_intro|]. intros w1 w2 w3. apply (frames_trans [] []). Qed.

(** A change of a timer that keeps its ids and never revives it. *)
Definition fades (t t' : Timeout) : Prop :=
  id t' = id t ∧ hook_id t' = hook_id t ∧ loop_ref t' = loop_ref t ∧
  (callback t' = callback t ∨ callback t' = None).

#[export] Instance fades_preorder : PreOrder fades.
Proof. split; [intros t; unfold fades; auto|]. unfold fades. intros t1 t2 t3. intuition congruence. Qed.

Inductive move (w w' : tworld) : list Timeout → list Timeout → Prop :=
  | move_fade ts ts' : Forall2 fades ts ts' → move w w' ts ts'
  | move_push ts t n :
      (hooks w < n ≤ hooks w')%nat → hook_id t = wrap_usize (Z.of_nat n) → 1 < hook_id t →
      id t = TIMER_ID w → (length (issued w) < length (issued w'))%nat →
      move w w' ts (ts ++ [t]).

Definition moved (w w' : tworld) : Prop :=
  match entry w, entry w' with
  | Some s, Some s' => executing_hook_id s' = executing_hook_id s ∧ move w w' (timers s) (timers s')
  | None, None => True
  | _, _ => False
  end.

Lemma fade_refl ts : Forall2 fades ts ts.
Proof. induction ts; by constructor. Qed.

Lemma moved_same w w' : entry w' = entry w → moved w w'.
Proof. intros He. unfold moved. rewrite He. destruct (entry w); [|done]. split; [done|]. constructor. apply fade_refl. Qed.

Section Calls.
Variable rt : RtKey.
Variables tracking dispatcher : bool.
Notation run_cmd := (run_cmd rt tracking dispatcher).
Notation run_cmds := (run_cmds rt tracking dispatcher).
Notation hook := (hook dispatcher).

Lemma frame_hook e w : (∀ cb h, e ≠ Called cb h) → frame w (hook e w).
Proof.
  intros He. unfold Timers.hook. destruct dispatcher; [|done].
  apply frame_intro; try done. cbn. rewrite called_app.
  destruct e; cbn; rewrite ?app_nil_r; try done. by destruct (He cb hook).
Qed.

Lemma hook_entry e w : entry (hook e w) = entry w.
Proof. unfold Timers.hook. by destruct dispatcher. Qed.
Lemma hook_ev e w : ev (hook e w) = ev w.
Proof. unfold Timers.hook. by destruct dispatcher. Qed.

Lemma frame_spawn d w w' : frame w w' → frame w (create_spawn_loop d w').
Proof.
  intros [? ? ? ? ? (new & Ht & Hn)]. split; cbn; try done. exists (new ++ [mkTask d []]).
  rewrite Ht, (assoc_L (++)). split; [done|]. apply Forall_app. by repeat constructor.
Qed.

(** [schedule] stores the state it is given, with new flags, and may start a
    task. *)
Lemma schedule_spec d s w :
  frame w (schedule rt d s w) ∧ issued (schedule rt d s w) = issued w ∧ hooks (schedule rt d s w) = hooks w ∧
  ∃ s', entry (schedule rt d s w) = Some s' ∧ timers s' = timers s ∧ executing_hook_id s' = executing_hook_id s.
Proof.
  unfold schedule. destruct (running s).
  - split_and!; [|done|done|].
    + by apply frame_intro.
    + eexists. split; [done|]. by destruct (_ <? _).
  - destruct (should_keep_timer_loop _ _ _) as [keep e].
    destruct keep; split_and!; try done; [apply frame_spawn; by apply frame_intro|by eexists|by apply frame_intro|by eexists].
Qed.

Lemma frame_issue hd w : frame w (issue hd w).
Proof. split; cbn; [by rewrite app_nil_r|done|by apply prefix_app_r|done|done|exists []; by rewrite app_nil_r]. Qed.

Lemma set_effect cb delay p ref w hd w' :
  set_timeout_interval rt tracking dispatcher cb delay p ref w = Ok (hd, w') → frame w w' ∧ moved w w'.
Proof.
  unfold set_timeout_interval. intros H. apply bind_ok_inv in H as ([rep d] & Hp & H). cbn in H.
  apply bind_ok_inv in H as ([h w1] & Ha & H). apply allocate_spec in Ha as (n & Hn & Hh & Hh1 & ->).
  set (w1 := mkTWorld _ _ _ n _ _ _ _) in H.
  set (w2 := hook_init tracking dispatcher p h w1) in H.
  assert (H2 : frame w1 w2 ∧ entry w2 = entry w ∧ hooks w2 = n ∧ issued w2 = issued w).
  { unfold w2, hook_init. destruct tracking; [|done]. split; [by apply frame_hook|].
    unfold Timers.hook. by destruct dispatcher. }
  destruct H2 as (Hf2 & He2 & Hn2 & Hi2).
  assert (Hf1 : frame w w2).
  { etrans; [|exact Hf2]. split; cbn; [by rewrite app_nil_r|lia|done|done|done|exists []; by rewrite app_nil_r]. }
  clearbody w2. set (e := if ref then _ else _) in H. clearbody e.
  cbn [set_ev entry] in H. rewrite He2 in H. destruct (entry w) as [s|] eqn:Hs; [|done].
  cbn [or_panic mbind res_bind] in H. injection H as <- <-.
  match goal with |- context [schedule rt d ?s2 ?w3] =>
    destruct (schedule_spec d s2 w3) as (Hf3 & Hi3 & Hn3 & s' & Hs' & Ht' & Hx'); set (w4 := schedule rt d s2 w3) in * end.
  cbn in Hi3, Hn3, Ht', Hx'. split.
  - etrans; [exact Hf1|]. etrans; [|apply frame_issue].
    etrans; [|exact Hf3]. by apply frame_intro.
  - unfold moved. cbn. rewrite Hs, Hs'. split; [done|]. rewrite Ht'. eapply (move_push _ _ _ _ n); cbn; try done.
    + lia.
    + rewrite Hi3, Hi2, length_app. cbn. lia.
Qed.

Lemma fade_update p f ts : (∀ t, fades t (f t)) → Forall2 fades ts (update_first p f ts).
Proof.
  intros Hf. eapply Forall2_impl; [apply update_first_Forall2|]. intros t t' [-> | ->]; [done|apply Hf].
Qed.

Lemma frame_state e s w : frame w (set_entry s (set_ev e w)).
Proof. by apply frame_intro. Qed.

Lemma clear_effect a w w' : clear_timeout_interval dispatcher a w = Ok w' → frame w w' ∧ moved w w'.
Proof.
  unfold clear_timeout_interval. destruct (timer_id_from_value a) as [tid|]; [|intros [= <-]; split; [done|by apply moved_same]].
  intros H. apply bind_ok_inv in H as (s & Hs & H). destruct (entry w) as [s0|] eqn:Hw; [|done]. injection Hs as ->.
  destruct (find_first _ _) as [t|]; [|injection H as <-; split; [done|by apply moved_same]].
  injection H as <-. set (self := _ && _). set (w1 := set_entry _ _).
  assert (Hf : frame w w1) by apply frame_state. split.
  - destruct self; [done|]. etrans; [exact Hf|]. by apply frame_hook.
  - assert (He : entry (if self then w1 else hook (HookDestroy (hook_id t)) w1) = entry w1).
    { destruct self; [done|apply hook_entry]. }
    unfold moved. rewrite Hw, He. cbn. split; [done|]. constructor. apply fade_update.
    intros u. unfold fades, cleared. cbn. auto.
Qed.

Lemma referenced_effect tid b w :
  frame w (set_timer_referenced tid b w) ∧ moved w (set_timer_referenced tid b w).
Proof.
  unfold set_timer_referenced. destruct (entry w) as [s|] eqn:Hs; [|split; [done|by apply moved_same]].
  destruct (find_first _ _) as [t|]; [|split; [done|by apply moved_same]]. split.
  - by apply frame_intro.
  - unfold moved. rewrite Hs. cbn. destruct b; cbn; (split; [done|]); constructor; apply fade_update; intros u; by repeat split; left.
Qed.

Lemma resume_effect w : frame w (resume_timer_loop_if_idle rt w) ∧ moved w (resume_timer_loop_if_idle rt w).
Proof.
  unfold resume_timer_loop_if_idle. destruct (entry w) as [s|] eqn:Hs; [|split; [done|by apply moved_same]].
  destruct (running s); [split; [done|by apply moved_same]|].
  destruct (should_keep_timer_loop _ _ _) as [keep e]. destruct keep; split.
  - apply frame_spawn. by apply frame_intro.
  - unfold moved. rewrite Hs. cbn. split; [done|]. constructor. apply fade_refl.
  - by apply frame_intro.
  - by apply moved_same.
Qed.

Lemma moved_ev e w w' : moved (set_ev e w) w' → moved w w'.
Proof.
  unfold moved. cbn. destruct (entry w), (entry w'); try done. intros [Hx Hm]. split; [done|].
  inversion Hm; subst; [by constructor|]. by eapply move_push.
Qed.
Lemma frame_ev e w w' : frame (set_ev e w) w' → frame w w'.
Proof. intros []. by split. Qed.

(** Every call keeps to the frame and moves the timers. *)
Lemma run_cmd_effect c w w' : run_cmd c w = Ok w' → frame w w' ∧ moved w w'.
Proof.
  destruct c as [cb delay p ref|a|i|i| | |d]; cbn [Timers.run_cmd]; intros H.
  - destruct (set_timeout_interval _ _ _ _ _ _ _ _) as [[hd w1]| |] eqn:Hs; simplify_eq.
    + by eapply set_effect.
    + split; [done|by apply moved_same].
  - by eapply clear_effect.
  - injection H as <-. destruct (issued w !! i) as [hd|]; [|split; [done|by apply moved_same]].
    unfold js_ref. destruct (referenced_effect (handle_id hd) true (set_ev (reference (handle_ref hd) (ev w)) w)).
    split; [by eapply frame_ev|by eapply moved_ev].
  - injection H as <-. destruct (issued w !! i) as [hd|]; [|split; [done|by apply moved_same]].
    unfold unref. destruct (referenced_effect (handle_id hd) false (set_ev (unreference (handle_ref hd) (ev w)) w)).
    split; [by eapply frame_ev|by eapply moved_ev].
  - apply bind_ok_inv in H as ([h w1] & Ha & H). apply allocate_spec in Ha as (n & Hn & _ & _ & ->). injection H as <-.
    split; [|by apply moved_same]. split; cbn; [by rewrite app_nil_r|lia|done|done|done|exists []; by rewrite app_nil_r].
  - injection H as <-. apply resume_effect.
  - injection H as <-. split; [|by apply moved_same]. split; cbn; [by rewrite app_nil_r|done|done|lia|done|exists []; by rewrite app_nil_r].
Qed.

(** * Invariants of the timers *)

(** Fewer timers, none of them revived. *)
Definition shrinks (ts ts' : list Timeout) : Prop := ∃ ts1, ts1 `sublist_of` ts ∧ Forall2 fades ts1 ts'.

Lemma shrinks_fade ts ts' : Forall2 fades ts ts' → shrinks ts ts'.
Proof. intros H. by exists ts. Qed.
Lemma shrinks_sublist ts ts' : ts' `sublist_of` ts → shrinks ts ts'.
Proof. intros H. exists ts'. split; [done|apply fade_refl]. Qed.

(** A property of the timers and the two counters that survives fading and new
    timers. *)
Record stable (J : list Timeout → nat → nat → Prop) : Prop := {
  st_shrink ts ts' n m : shrinks ts ts' → J ts n m → J ts' n m;
  st_mono ts n n' m m' : (n ≤ n')%nat → (m ≤ m')%nat → J ts n m → J ts n' m';
  st_push ts t n k n' m m' :
    (n < k ≤ n')%nat → (m < m')%nat → hook_id t = Z.of_nat k → id t = Z.of_nat m → 1 < hook_id t →
    J ts n m → J (ts ++ [t]) n' m';
}.

Definition holds_now (J : list Timeout → nat → nat → Prop) (w : tworld) : Prop :=
  ∀ s, entry w = Some s → J (timers s) (hooks w) (length (issued w)).

Lemma frames_room cs w w' : frames cs w w' → room w' → room w.
Proof. intros [_ Hh Hi%prefix_length _ _ _] [? ?]. split; lia. Qed.

Lemma moved_holds J cs w w' : stable J → frames cs w w' → moved w w' → room w' → holds_now J w → holds_now J w'.
Proof.
  intros HJ Hf Hm [Hr1 Hr2] HI s' Hs'. unfold moved in Hm. rewrite Hs' in Hm.
  destruct (entry w) as [s|] eqn:Hs; [|done]. destruct Hm as [_ Hm]. specialize (HI s Hs).
  destruct Hf as [_ Hh Hi%prefix_length _ _ _]. inversion Hm as [ts ts' Hfade|ts t n Hn Hhook H1 Hid Hlt]; subst.
  - eapply (st_mono _ HJ); [exact Hh|exact Hi|]. eapply (st_shrink _ HJ); [by apply shrinks_fade|done].
  - eapply (st_push _ HJ _ _ (hooks w) n); [lia|exact Hlt| | |done|done].
    + rewrite Hhook. apply Z.mod_small. lia.
    + rewrite Hid. apply Z.mod_small. lia.
Qed.

(** Storing flags, logging: the timers stay. *)
Definition keeps (w w' : tworld) : Prop :=
  timers <$> entry w' = timers <$> entry w ∧ hooks w' = hooks w ∧ issued w' = issued w.

Lemma keeps_holds J w w' : keeps w w' → holds_now J w → holds_now J w'.
Proof.
  intros (He & Hh & Hi) HI s' Hs'. rewrite Hs' in He. destruct (entry w) as [s|] eqn:Hs; [|done].
  cbn in He. injection He as ->. rewrite Hh, Hi. by apply HI.
Qed.

Lemma run_cmds_frame cs w w' : run_cmds cs w = Ok w' → frame w w'.
Proof.
  revert w. induction cs as [|c cs IH]; intros w H; cbn in H; [by simplify_eq|].
  apply bind_ok_inv in H as (w1 & H1 & H). etrans; [by eapply run_cmd_effect|by apply IH].
Qed.

Lemma run_cmds_holds J cs w w' :
  stable J → run_cmds cs w = Ok w' → room w' → holds_now J w → holds_now J w'.
Proof.
  intros HJ. revert w. induction cs as [|c cs IH]; intros w H Hr HI; cbn in H; [by simplify_eq|].
  apply bind_ok_inv in H as (w1 & H1 & H). apply (IH w1 H Hr).
  apply run_cmd_effect in H1 as [Hf Hm]. eapply moved_holds; [done|done|done| |done].
  eapply frames_room; [by eapply run_cmds_frame|done].
Qed.

(** ** Calls always return *)

Lemma allocate_total w : ∃ r, allocate_hook_resource_id w = Ok r.
Proof.
  unfold allocate_hook_resource_id. cbn [allocate_loop].
  destruct (Z.ltb_spec 1 (HOOK_RESOURCE_ID w)); [by eexists|].
  destruct (Z.ltb_spec 1 (HOOK_RESOURCE_ID (bump_hooks w))); [by eexists|].
  destruct (Z.ltb_spec 1 (HOOK_RESOURCE_ID (bump_hooks (bump_hooks w)))); [by eexists|].
  exfalso. unfold HOOK_RESOURCE_ID, wrap_usize in *. cbn [hooks bump_hooks] in *.
  pose proof (Z.div_mod (1 + Z.of_nat (hooks w)) 18446744073709551616).
  pose proof (Z.div_mod (1 + Z.of_nat (S (hooks w))) 18446744073709551616).
  pose proof (Z.div_mod (1 + Z.of_nat (S (S (hooks w)))) 18446744073709551616).
  pose proof (Z.mod_pos_bound (1 + Z.of_nat (hooks w)) 18446744073709551616).
  pose proof (Z.mod_pos_bound (1 + Z.of_nat (S (hooks w))) 18446744073709551616).
  pose proof (Z.mod_pos_bound (1 + Z.of_nat (S (S (hooks w)))) 18446744073709551616). lia.
Qed.

Lemma moved_entry w w' : moved w w' → is_Some (entry w) → is_Some (entry w').
Proof. unfold moved. destruct (entry w), (entry w'); by intros ? []. Qed.

Lemma run_cmd_total c w : is_Some (entry w) → ∃ w', run_cmd c w = Ok w'.
Proof.
  intros [s Hs]. destruct c as [cb delay p ref|a|i|i| | |d]; cbn [Timers.run_cmd]; try (by eexists).
  - unfold set_timeout_interval. destruct p; try (by eexists); cbn [mbind res_bind].
    all: destruct (allocate_total w) as [[h w1] Ha]; rewrite Ha; cbn [mbind res_bind].
    all: apply allocate_spec in Ha as (n & _ & _ & _ & ->); cbn [set_ev entry].
    all: unfold hook_init, Timers.hook; destruct tracking, dispatcher; cbn [log entry]; rewrite Hs; by eexists.
  - unfold clear_timeout_interval. rewrite Hs. destruct (timer_id_from_value a); [|by eexists].
    cbn [or_panic mbind res_bind]. destruct (find_first _ _); by eexists.
  - destruct (allocate_total w) as [[h w1] ->]. by eexists.
Qed.

Lemma run_cmds_total cs w : is_Some (entry w) → ∃ w', run_cmds cs w = Ok w' ∧ is_Some (entry w').
Proof.
  revert w. induction cs as [|c cs IH]; intros w Hs; [by exists w|]. cbn.
  destruct (run_cmd_total c w Hs) as [w1 H1]. rewrite H1. cbn. apply IH.
  apply run_cmd_effect in H1 as [_ Hm]. by eapply moved_entry.
Qed.
End Calls.

(** * A poll *)

(** Which timers are due, and what is left of them. *)
Definition due (now : Z) (t : Timeout) : option ExecutingTimer :=
  cb ← callback t;
  if deadline t <? now
  then Some (mkExecuting (if repeating t then now + interval t * MILLI else deadline t) cb (hook_id t))
  else None.

Definition stays (now : Z) (t : Timeout) : option Timeout :=
  if deadline t <? now then
    if pending t && repeating t
    then Some (mkTimeout (callback t) (now + interval t * MILLI) (id t) (hook_id t) true (interval t)
                 (pending_destroy t) (t_referenced t) (loop_ref t))
    else None
  else Some t.

(** A one-shot timer that is called gives up its reference. *)
Definition releases (now : Z) (t : Timeout) : option nat :=
  if (deadline t <? now) && pending t && negb (repeating t) then Some (loop_ref t) else None.

Lemma retain_due_spec now ts r :
  retain_due now ts r =
  mkRetained (kept r ++ omap (stays now) ts) (to_call r ++ (Some <$> omap (due now) ts))
    (foldl (λ m t, Z.min (deadline t) m) (lowest r) (omap (stays now) ts))
    (foldl (λ e l, unreference l e) (ret_ev r) (omap (releases now) ts)).
Proof.
  revert r. induction ts as [|t ts IH]; intros r; cbn [retain_due].
  { destruct r; cbn. by rewrite !app_nil_r. }
  rewrite IH. clear IH. cbn [omap list_omap]. unfold due, stays, releases, pending.
  destruct (deadline t <? now), (callback t) as [cb|], (repeating t); cbn;
    rewrite <- ?(assoc_L (++)); try done.
Qed.

Lemma due_Some now t x :
  due now t = Some x → callback t = Some (x_callback x) ∧ deadline t < now ∧ x_hook x = hook_id t.
Proof.
  unfold due. destruct (callback t) as [cb|]; [|done]. cbn. destruct (Z.ltb_spec (deadline t) now); [|done].
  intros [= <-]. done.
Qed.

Lemma stays_fades now t t' : stays now t = Some t' → fades t t'.
Proof.
  unfold stays, pending. destruct (deadline t <? now); [|by intros [= <-]].
  destruct (callback t) as [cb|] eqn:Hc; [|done]. destruct (repeating t); [|done].
  intros [= <-]. unfold fades. cbn. rewrite Hc. auto.
Qed.

Lemma shrinks_stays now ts : shrinks ts (omap (stays now) ts).
Proof.
  induction ts as [|t ts (ts1 & Hs & Hf)]; cbn; [by apply shrinks_fade|].
  destruct (stays now t) as [t'|] eqn:Ht.
  - exists (t :: ts1). split; [by constructor|]. constructor; [by eapply stays_fades|done].
  - exists ts1. split; [by constructor|done].
Qed.

(** What [sort_unstable_by_key] promises: a permutation, sorted by deadline,
    empty entries first. *)
Definition key_le (a b : option ExecutingTimer) : Prop :=
  match a, b with
  | None, _ => True
  | Some x, Some y => x_deadline x ≤ x_deadline y
  | Some _, None => False
  end.

Class SortLaws (sort : list (option ExecutingTimer) → list (option ExecutingTimer)) : Prop := {
  sort_perm l : sort l ≡ₚ l;
  sort_sorted l : StronglySorted key_le (sort l);
}.

Section Poll.
Variable rt : RtKey.
Variables tracking dispatcher : bool.
Variable user : nat → tworld → list cmd * bool.
Variables jobs drivers : tworld → list cmd.
Variable sort : list (option ExecutingTimer) → list (option ExecutingTimer).
Context `{!SortLaws sort}.
Notation run_cmds := (run_cmds rt tracking dispatcher).
Notation hook := (hook dispatcher).
Notation call_timer := (call_timer rt tracking dispatcher user jobs).
Notation call_all := (call_all rt tracking dispatcher user jobs).
Notation poll_timers := (poll_timers rt tracking dispatcher user jobs drivers sort).

Definition call_of (x : ExecutingTimer) : nat * Z := (x_callback x, x_hook x).

(** A stretch of a poll in which the callbacks [cs] are called. *)
Definition stretch (J : list Timeout → nat → nat → Prop) (cs : list (nat * Z)) (w w' : tworld) : Prop :=
  frames cs w w' ∧ (is_Some (entry w) → is_Some (entry w')) ∧ (room w' → holds_now J w → holds_now J w').

Lemma stretch_trans J cs1 cs2 w1 w2 w3 :
  stretch J cs1 w1 w2 → stretch J cs2 w2 w3 → stretch J (cs1 ++ cs2) w1 w3.
Proof.
  intros (Hf1 & Hs1 & H1) (Hf2 & Hs2 & H2). split_and!; [by eapply frames_trans|tauto|].
  intros Hr HI. apply H2; [done|]. apply H1; [by eapply frames_room|done].
Qed.

Lemma stretch_keeps J cs w w' : frames cs w w' → keeps w w' → stretch J cs w w'.
Proof.
  intros Hf Hk. split_and!; [done| |intros _; by apply keeps_holds].
  destruct Hk as (He & _ & _). intros [s Hs]. rewrite Hs in He. destruct (entry w'); [by eexists|done].
Qed.

Lemma stretch_hook J e w : (∀ cb h, e ≠ Called cb h) → stretch J [] w (hook e w).
Proof.
  intros He. apply stretch_keeps; [by apply frame_hook|]. unfold Timers.hook. by destruct dispatcher.
Qed.

Lemma stretch_called J x w : stretch J [call_of x] w (log (Called (x_callback x) (x_hook x)) w).
Proof.
  apply stretch_keeps; [|done].
  split; cbn; [by rewrite called_app|done|done|done|done|exists []; by rewrite app_nil_r].
Qed.

Lemma stretch_cmds J cs w w' : stable J → run_cmds cs w = Ok w' → stretch J [] w w'.
Proof.
  intros HJ H. split_and!; [by eapply run_cmds_frame| |by eapply run_cmds_holds].
  intros Hs. destruct (run_cmds_total rt tracking dispatcher cs w Hs) as (? & Heq & ?). congruence.
Qed.

Lemma stretch_executing J h w w' : set_executing h w = Ok w' → stretch J [] w w'.
Proof.
  unfold set_executing. intros H. apply bind_ok_inv in H as (s & Hs & H). simplify_eq.
  destruct (entry w) as [s0|] eqn:He; [|done]. simplify_eq/=. apply stretch_keeps; [by apply frame_intro|].
  unfold keeps. cbn. by rewrite He.
Qed.

Lemma stretch_destroy J h w w' : stable J → destroy_if_done dispatcher h w = Ok w' → stretch J [] w w'.
Proof.
  intros HJ. unfold destroy_if_done. intros H. apply bind_ok_inv in H as (s & Hs & H).
  destruct (entry w) as [s0|] eqn:He; [|done]. injection Hs as ->.
  match type of H with (if ?b then _ else _) = _ => destruct b end; injection H as <-;
    [|by apply stretch_keeps; [|split]].
  apply (stretch_trans J [] [] _ (hook (HookDestroy h) w)); [by apply stretch_hook|].
  split_and!; [by apply frame_intro|done|]. intros _ HI s' Hs'. injection Hs' as <-.
  eapply (st_shrink _ HJ (timers s)); [apply shrinks_sublist, sublist_filter|]. apply HI. by rewrite hook_entry.
Qed.

(** One callback: it is called once, whatever it does. *)
Lemma stretch_call J x w b w' :
  stable J → call_timer x w = Ok (b, w') → stretch J [call_of x] w w'.
Proof.
  intros HJ. unfold Timers.call_timer. intros H. apply bind_ok_inv in H as (w1 & H1 & H).
  destruct (user _ _) as [cs throws]. apply bind_ok_inv in H as (w3 & H3 & H).
  apply (stretch_trans J [] _ _ w1); [by eapply stretch_executing|].
  eapply (stretch_trans J [] [call_of x]); [by apply (stretch_hook J (HookBefore (x_hook x)))|].
  eapply (stretch_trans J [call_of x] []); [apply stretch_called|].
  eapply (stretch_trans J [] []); [by eapply stretch_cmds|].
  eapply (stretch_trans J [] []); [by apply (stretch_hook J (HookAfter (x_hook x)))|].
  destruct throws; [apply bind_ok_inv in H as (w5 & H5 & [= _ <-]); by eapply stretch_executing|].
  apply bind_ok_inv in H as (w5 & H5 & H). apply bind_ok_inv in H as (w6 & H6 & H).
  apply bind_ok_inv in H as (w7 & H7 & [= _ <-]).
  apply (stretch_trans J [] [] _ w5); [by eapply stretch_cmds|].
  apply (stretch_trans J [] [] _ w6); [by eapply stretch_destroy|by eapply stretch_executing].
Qed.

(** The callbacks that are called are the first ones of the vector, all of them
    if none throws. *)
Lemma stretch_calls J vec first w b rest w' :
  stable J → call_all first vec w = Ok (b, rest, w') →
  ∃ xs ys, omap Datatypes.id vec = xs ++ ys ∧ omap Datatypes.id rest = ys ∧
    stretch J (call_of <$> xs) w w' ∧ (b = false → rest = []).
Proof.
  intros HJ. revert first w b rest w'. induction vec as [|[x|] vec IH]; intros first w b rest w' H; cbn in H.
  - simplify_eq. exists [], []. split_and!; [done|done|by apply stretch_keeps|done].
  - apply bind_ok_inv in H as (w1 & H1 & H). apply bind_ok_inv in H as ([b1 w2] & H2 & H).
    assert (Hx : stretch J [call_of x] w w2).
    { apply (stretch_trans J [] _ _ w1); [|by eapply stretch_call].
      destruct first; [by eapply stretch_cmds|]. simplify_eq. by apply stretch_keeps. }
    destruct b1; [simplify_eq; exists [x], (omap Datatypes.id vec); done|].
    apply bind_ok_inv in H as ([[b2 l2] w3] & H3 & H). apply IH in H3 as (xs & ys & Hv & Hl & Hs & Hb). simplify_eq.
    exists (x :: xs), (omap Datatypes.id l2). split_and!.
    + cbn. by rewrite Hv.
    + destruct b; [done|]. by rewrite (Hb eq_refl).
    + by eapply (stretch_trans J [call_of x]).
    + by intros ->.
  - apply bind_ok_inv in H as ([[b2 l2] w3] & H3 & H). apply IH in H3 as (xs & ys & Hv & Hl & Hs & Hb). simplify_eq.
    exists xs, (omap Datatypes.id l2). split_and!; [done| |done|by intros ->].
    destruct b; [done|]. by rewrite (Hb eq_refl).
Qed.

Lemma take_due_spec J vec s w vec' low s' w' :
  stable J → entry w = Some s → take_due sort vec s w = (vec', low, s', w') →
  stretch J [] w (set_entry s' w') ∧
  timers s' = omap (stays (clock w)) (timers s) ∧
  vec' ≡ₚ vec ++ (Some <$> omap (due (clock w)) (timers s)) ∧ StronglySorted key_le vec'.
Proof.
  intros HJ Hs. unfold take_due. rewrite retain_due_spec. cbn [kept to_call lowest ret_ev]. intros H.
  injection H as <- <- <- <-. split_and!.
  - split_and!; [by apply frame_intro|done|]. intros _ HI s' Hs'. injection Hs' as <-.
    eapply (st_shrink _ HJ (timers s)); [|by apply (HI s)].
    destruct (timers s) as [|t ts] eqn:Ht; [by apply shrinks_fade|]. rewrite <- Ht. apply shrinks_stays.
  - by destruct (timers s).
  - apply sort_perm.
  - apply sort_sorted.
Qed.

Lemma stretch_settle J b w go w' : stable J → settle rt b w = Ok (go, w') → stretch J [] w w'.
Proof.
  intros HJ. unfold settle. intros H. apply bind_ok_inv in H as (s & Hs & H).
  destruct (entry w) as [s0|] eqn:He; [|done]. injection Hs as ->.
  destruct (should_keep_timer_loop _ _ _) as [keep e]. injection H as <- <-.
  apply stretch_keeps; [by apply frame_intro|]. unfold keeps. cbn. by rewrite He.
Qed.

Lemma poll_spec J vec w p :
  stable J → is_Some (entry w) → poll_timers vec w = Ok p →
  ∃ w1 s xs ys, run_cmds (drivers w) w = Ok w1 ∧ entry w1 = Some s ∧ stretch J [] w w1 ∧
    stretch J (call_of <$> xs) w1 (after p) ∧
    xs ++ ys ≡ₚ omap Datatypes.id vec ++ omap (due (clock w1)) (timers s) ∧
    StronglySorted (λ x y, x_deadline x ≤ x_deadline y) (xs ++ ys) ∧
    omap Datatypes.id (left_vec p) = ys ∧ (outcome p ≠ Threw → ys = []).
Proof.
  intros HJ Hs H. unfold Timers.poll_timers in H. apply bind_ok_inv in H as (w1 & H1 & H).
  pose proof (stretch_cmds J _ _ _ HJ H1) as Hst1. destruct (proj1 (proj2 Hst1) Hs) as [s Hs1]. rewrite Hs1 in H.
  destruct (take_due sort vec s w1) as [[[vec' low] s'] w2] eqn:Htake.
  destruct (take_due_spec J _ _ _ _ _ _ _ HJ Hs1 Htake) as (Hst2 & _ & Hperm & Hsort).
  apply bind_ok_inv in H as ([[b rest] w3] & H3 & H).
  destruct (stretch_calls J _ _ _ _ _ _ HJ H3) as (xs & ys & Hv & Hl & Hst3 & Hb).
  exists w1, s, xs, ys. split_and!; [done|done|done| | | | |].
  - refine (stretch_trans J [] (call_of <$> xs) w1 (set_entry s' w2) (after p) Hst2 _). destruct b; [by simplify_eq|].
    apply bind_ok_inv in H as ([go w4] & H4 & H). simplify_eq. cbn.
    rewrite <- (app_nil_r (call_of <$> xs)). eapply stretch_trans; [exact Hst3|by eapply stretch_settle].
  - rewrite <- Hv, Hperm, omap_app. by rewrite omap_Somes.
  - rewrite <- Hv. clear -Hsort. induction Hsort as [|[x|] l _ IH Hall]; cbn; [constructor|constructor|done].
    + done.
    + apply Forall_forall. intros y Hy. apply list_elem_of_omap in Hy as (o & Ho & Hoy). cbn in Hoy. subst o.
      rewrite Forall_forall in Hall. by apply (Hall _ Ho).
  - destruct b; [by simplify_eq|]. apply bind_ok_inv in H as ([go w4] & H4 & H). simplify_eq. by rewrite (Hb eq_refl).
  - destruct b; [by simplify_eq|]. intros _. by rewrite <- Hl, (Hb eq_refl).
Qed.

(** ** A poll always returns *)

Definition no_claim (_ : list Timeout) (_ _ : nat) : Prop := True.
Lemma no_claim_stable : stable no_claim.
Proof. done. Qed.

Lemma executing_total h w : is_Some (entry w) → ∃ w', set_executing h w = Ok w'.
Proof. intros [s Hs]. unfold set_executing. rewrite Hs. by eexists. Qed.
Lemma destroy_total h w : is_Some (entry w) → ∃ w', destroy_if_done dispatcher h w = Ok w'.
Proof. intros [s Hs]. unfold destroy_if_done. rewrite Hs. cbn. case_match; by eexists. Qed.

Lemma call_timer_total x w : is_Some (entry w) → ∃ r, call_timer x w = Ok r.
Proof.
  intros Hs. unfold Timers.call_timer.
  destruct (executing_total (x_hook x) w Hs) as [w1 H1]. rewrite H1. cbn [mbind res_bind].
  apply (stretch_executing no_claim) in H1 as (_ & Hs1 & _). specialize (Hs1 Hs).
  destruct (user _ _) as [cs throws].
  destruct (run_cmds_total rt tracking dispatcher cs
              (log (Called (x_callback x) (x_hook x)) (hook (HookBefore (x_hook x)) w1))) as (w2 & H2 & Hs2).
  { cbn. by rewrite hook_entry. }
  rewrite H2. cbn [mbind res_bind]. set (w3 := hook _ w2).
  assert (Hs3 : is_Some (entry w3)) by (unfold w3; by rewrite hook_entry). clearbody w3. destruct throws.
  - destruct (executing_total 0 w3 Hs3) as [w4 ->]. by eexists.
  - destruct (run_cmds_total rt tracking dispatcher (jobs w3) w3 Hs3) as (w4 & -> & Hs4). cbn [mbind res_bind].
    destruct (destroy_total (x_hook x) w4 Hs4) as [w5 H5]. rewrite H5. cbn [mbind res_bind].
    apply (stretch_destroy no_claim) in H5 as (_ & Hs5 & _); [|done]. specialize (Hs5 Hs4).
    destruct (executing_total 0 w5 Hs5) as [w6 ->]. by eexists.
Qed.

Lemma call_all_total vec first w : is_Some (entry w) → ∃ r, call_all first vec w = Ok r.
Proof.
  revert first w. induction vec as [|[x|] vec IH]; intros first w Hs; cbn; [by eexists| |].
  - assert (H1 : ∃ w1, (if first then run_cmds (jobs w) w else Ok w) = Ok w1 ∧ is_Some (entry w1)).
    { destruct first; [|by eexists]. destruct (run_cmds_total rt tracking dispatcher (jobs w) w Hs) as (w1 & H1 & ?). by exists w1. }
    destruct H1 as (w1 & -> & Hs1). cbn [mbind res_bind].
    destruct (call_timer_total x w1 Hs1) as [[b w2] H2]. rewrite H2. cbn [mbind res_bind].
    apply (stretch_call no_claim) in H2 as (_ & Hs2 & _); [|done].
    destruct b; [by eexists|]. destruct (IH false w2 (Hs2 Hs1)) as [[[b3 l3] w3] ->]. by eexists.
  - destruct (IH first w Hs) as [[[b3 l3] w3] ->]. by eexists.
Qed.

Lemma poll_total vec w : is_Some (entry w) → ∃ p, poll_timers vec w = Ok p.
Proof.
  intros Hs. unfold Timers.poll_timers.
  destruct (run_cmds_total rt tracking dispatcher (drivers w) w Hs) as (w1 & -> & [s Hs1]). cbn [mbind res_bind].
  rewrite Hs1. destruct (take_due sort vec s w1) as [[[vec' low] s'] w2].
  destruct (call_all_total vec' true (set_entry s' w2)) as [[[b rest] w3] H3]; [done|]. rewrite H3. cbn [mbind res_bind].
  destruct b; [by eexists|]. apply (stretch_calls no_claim) in H3 as (_ & _ & _ & _ & (_ & Hs3 & _) & _); [|done].
  destruct (Hs3 ltac:(done)) as [s3 Hs4]. unfold settle. rewrite Hs4. cbn.
  destruct (should_keep_timer_loop _ _ _) as [keep e]. by eexists.
Qed.


(** * Cleared timers *)

(** No timer with hook id [h] has a callback, and the id is taken. *)
Definition gone (h : Z) (ts : list Timeout) (n m : nat) : Prop :=
  h ≤ Z.of_nat n ∧ Forall (λ t, hook_id t = h → callback t = None) ts.

Lemma gone_stable h : stable (gone h).
Proof.
  split.
  - intros ts ts' n m (ts1 & Hsub & Hf) [Hh Hall]. split; [done|].
    assert (H1 : Forall (λ t, hook_id t = h → callback t = None) ts1) by (by eapply Forall_sublist).
    clear -H1 Hf. induction Hf as [|t t' ts1 ts' (_ & Hk & _ & Hc) _ IH]; [constructor|].
    apply Forall_cons_1 in H1 as [Ht H1]. constructor; [|by apply IH].
    intros He. rewrite Hk in He. specialize (Ht He). destruct Hc; congruence.
  - intros ts n n' m m' Hn _ [? ?]. split; [lia|done].
  - intros ts t n k n' m m' Hk _ Ht _ _ [Hh Hall]. split; [lia|]. apply Forall_app. split; [done|].
    repeat constructor. intros He. lia.
Qed.

(** Ids and hook ids are unique and below the counters. *)
Record tidy (ts : list Timeout) (n m : nat) : Prop := {
  tidy_ids : NoDup (id <$> ts);
  tidy_hooks : NoDup (hook_id <$> ts);
  tidy_id : Forall (λ t, 0 ≤ id t < Z.of_nat m) ts;
  tidy_hook : Forall (λ t, 1 < hook_id t ≤ Z.of_nat n) ts;
}.

Lemma Forall_fades {P : Timeout → Prop} ts ts' :
  (∀ t t', fades t t' → P t → P t') → Forall2 fades ts ts' → Forall P ts → Forall P ts'.
Proof.
  intros HP Hf. induction Hf as [|t t' ts ts' Ht _ IH]; intros H; [constructor|].
  apply Forall_cons_1 in H as [? ?]. constructor; eauto.
Qed.

Lemma fmap_fades {B} (g : Timeout → B) ts ts' :
  (∀ t t', fades t t' → g t' = g t) → Forall2 fades ts ts' → g <$> ts' = g <$> ts.
Proof. intros Hg Hf. induction Hf as [|t t' ts ts' Ht _ IH]; cbn; [done|]. f_equal; eauto. Qed.

Lemma tidy_stable : stable tidy.
Proof.
  split.
  - intros ts ts' n m (ts1 & Hsub & Hf) [H1 H2 H3 H4].
    assert (Hi : id <$> ts' = id <$> ts1) by (apply fmap_fades; [by intros ? ? (? & _)|done]).
    assert (Hh : hook_id <$> ts' = hook_id <$> ts1) by (apply fmap_fades; [by intros ? ? (_ & ? & _)|done]).
    split.
    + rewrite Hi. eapply sublist_NoDup; [exact H1|]. by apply fmap_sublist.
    + rewrite Hh. eapply sublist_NoDup; [exact H2|]. by apply fmap_sublist.
    + eapply Forall_fades; [|exact Hf|by eapply Forall_sublist]. intros t t' (-> & _) ?. done.
    + eapply Forall_fades; [|exact Hf|by eapply Forall_sublist]. intros t t' (_ & -> & _) ?. done.
  - intros ts n n' m m' Hn Hm [H1 H2 H3 H4]. split; [done|done|eapply Forall_impl; [exact H3|cbn; lia]|eapply Forall_impl; [exact H4|cbn; lia]].
  - intros ts t n k n' m m' Hk Hm Ht Hid H1k [H1 H2 H3 H4]. split.
    + rewrite fmap_app. apply NoDup_app. split_and!; [done| |apply NoDup_singleton].
      intros x (u & Hxu & Hu)%list_elem_of_fmap Hxt%list_elem_of_singleton.
      rewrite Forall_forall in H3. specialize (H3 u Hu). lia.
    + rewrite fmap_app. apply NoDup_app. split_and!; [done| |apply NoDup_singleton].
      intros x (u & Hxu & Hu)%list_elem_of_fmap Hxt%list_elem_of_singleton.
      rewrite Forall_forall in H4. specialize (H4 u Hu). lia.
    + apply Forall_app. split; [eapply Forall_impl; [exact H3|cbn; lia]|]. repeat constructor; lia.
    + apply Forall_app. split; [eapply Forall_impl; [exact H4|cbn; lia]|]. repeat constructor; lia.
Qed.

(** ** Steps *)

Notation step := (tstep rt tracking dispatcher user jobs drivers sort).

(** Hook id [h] waits in no vector. *)
Definition idle (h : Z) (vec : list (option ExecutingTimer)) : Prop :=
  Forall (λ x, x_hook x ≠ h) (omap Datatypes.id vec).
Definition idle_all (h : Z) (w : tworld) : Prop :=
  idle h (server_vec w) ∧ Forall (λ k, idle h (call_vec k)) (tasks w).

(** The calls of hook id [h]. *)
Definition fires (h : Z) (w : tworld) : list (nat * Z) := filter (λ c, c.2 = h) (called (trace w)).

Lemma fires_frames h cs w w' :
  frames cs w w' → Forall (λ c, c.2 ≠ h) cs → fires h w' = fires h w.
Proof.
  intros Hf Hcs. unfold fires. rewrite (fr_called _ _ _ Hf), filter_app.
  assert (Hnil : filter (λ c : nat * Z, c.2 = h) cs = []); [|by rewrite Hnil, app_nil_r].
  clear Hf. induction Hcs as [|c cs Hc _ IH]; [done|]. rewrite filter_cons_False by done. exact IH.
Qed.

Lemma idle_frames h cs w w' : frames cs w w' → idle_all h w → idle_all h w'.
Proof.
  intros [_ _ _ _ Hv (new & Ht & Hn)] [H1 H2]. split; [by rewrite Hv|]. rewrite Ht. apply Forall_app.
  split; [done|]. eapply Forall_impl; [done|]. intros k Hk. cbn in Hk. rewrite Hk. constructor.
Qed.

(** What a step does: it is a stretch, except that a vector may change. *)
Definition strides (J : list Timeout → nat → nat → Prop) (w w' : tworld) : Prop :=
  (is_Some (entry w) → is_Some (entry w')) ∧ (hooks w ≤ hooks w')%nat ∧ (length (issued w) ≤ length (issued w'))%nat ∧
  (room w' → holds_now J w → holds_now J w') ∧
  ∀ h, room w' → holds_now (gone h) w → idle_all h w → fires h w' = fires h w ∧ idle_all h w'.

Lemma poll_quiet h vec w p :
  is_Some (entry w) → poll_timers vec w = Ok p → room (after p) → holds_now (gone h) w → idle h vec →
  fires h (after p) = fires h w ∧ idle h (left_vec p) ∧ ∃ cs, frames cs w (after p).
Proof.
  intros Hs Hp Hr HI Hv.
  destruct (poll_spec (gone h) vec w p (gone_stable h) Hs Hp)
    as (w1 & s & xs & ys & H1 & Hs1 & (Hf1 & _ & HJ1) & (Hf2 & _ & _) & Hperm & _ & Hl & _).
  assert (Hr1 : room w1) by (by eapply frames_room). destruct (HJ1 Hr1 HI s Hs1) as [_ Hgone].
  assert (Hall : Forall (λ x, x_hook x ≠ h) (xs ++ ys)).
  { rewrite Hperm. apply Forall_app. split; [exact Hv|]. apply Forall_forall. intros x Hx.
    apply list_elem_of_omap in Hx as (t & Ht & Hdue). apply due_Some in Hdue as (Hc & _ & ->).
    rewrite Forall_forall in Hgone. intros He. specialize (Hgone t Ht He). congruence. }
  apply Forall_app in Hall as [Hxs Hys]. split_and!.
  - rewrite (fires_frames h (call_of <$> xs) w1 (after p)); [|done|by apply Forall_fmap].
    apply (fires_frames h []); [done|constructor].
  - unfold idle. by rewrite Hl.
  - eexists. by eapply frames_trans.
Qed.

Lemma fires_same h w w' : trace w' = trace w → fires h w' = fires h w.
Proof. intros Ht. unfold fires. by rewrite Ht. Qed.

(** A poll, followed by a change of the vectors only. *)
Lemma poll_strides J vec w p w' :
  stable J → is_Some (entry w) → poll_timers vec w = Ok p → (∀ h, idle_all h w → idle h vec) →
  trace w' = trace (after p) → hooks w' = hooks (after p) → issued w' = issued (after p) →
  entry w' = entry (after p) →
  (∀ h, idle h (left_vec p) → idle_all h (after p) → idle_all h w') →
  strides J w w'.
Proof.
  intros HJ Hs Hp Hvec Ht Hh Hi He Hidle.
  assert (Hroom : room w' → room (after p)) by (unfold room; by rewrite Hh, Hi).
  destruct (poll_spec J vec w p HJ Hs Hp) as (w1 & s & xs & ys & H1 & Hs1 & Hst1 & Hst2 & _).
  pose proof (stretch_trans _ _ _ _ _ _ Hst1 Hst2) as (Hf & Hse & HJ').
  split_and!; [by rewrite He|rewrite Hh; apply Hf|rewrite Hi; apply prefix_length, Hf| |].
  - intros Hr HI s' Hs'. rewrite Hh, Hi. apply HJ'; [by apply Hroom|done|congruence].
  - intros h Hr HI Hid.
    destruct (poll_quiet h vec w p Hs Hp (Hroom Hr) HI (Hvec h Hid)) as (Hfire & Hleft & cs & Hcs).
    split; [by rewrite <- Hfire; apply fires_same|]. apply Hidle; [done|]. by eapply idle_frames.
Qed.

Lemma turn_strides J i w w' :
  stable J → is_Some (entry w) → turn rt tracking dispatcher user jobs drivers sort i w = Ok w' → strides J w w'.
Proof.
  intros HJ Hs. unfold turn. destruct (tasks w !! i) as [k|] eqn:Hk; [|done]. cbn [or_panic mbind res_bind].
  intros H. apply bind_ok_inv in H as (p & Hp & [= <-]).
  eapply (poll_strides J (call_vec k) w p); [done|done|done| |..].
  - intros h [_ Hall]. rewrite Forall_lookup in Hall. by apply (Hall i).
  - by destruct (outcome p).
  - by destruct (outcome p).
  - by destruct (outcome p).
  - by destruct (outcome p).
  - intros h Hl [Hv Hall]. destruct (outcome p); (split; [exact Hv|]); cbn [set_tasks tasks].
    + by apply Forall_insert.
    + eapply Forall_sublist; [apply sublist_delete|done].
    + eapply Forall_sublist; [apply sublist_delete|done].
Qed.

Lemma server_strides J w w' :
  stable J → is_Some (entry w) → server_poll rt tracking dispatcher user jobs drivers sort w = Ok w' → strides J w w'.
Proof.
  intros HJ Hs. unfold server_poll. intros H. apply bind_ok_inv in H as (p & Hp & [= <-]).
  eapply (poll_strides J (server_vec w) w p); try done.
  - intros h [Hv _]. exact Hv.
  - intros h Hl [_ Hall]. by split.
Qed.

Lemma cmd_strides J c w w' : stable J → run_cmd rt tracking dispatcher c w = Ok w' → strides J w w'.
Proof.
  intros HJ [Hf Hm]%run_cmd_effect. split_and!; [by eapply moved_entry|apply Hf|apply prefix_length, Hf|..].
  - intros Hr. by eapply moved_holds.
  - intros h Hr _ Hid. split; [apply (fires_frames h []); [done|constructor]|by eapply idle_frames].
Qed.

Lemma exit_frame hs w :
  let w' := foldl (λ w h, if h =? 0 then w else hook (HookDestroy h) w) w hs in frame w w' ∧ keeps w w'.
Proof.
  revert w. induction hs as [|h hs IH]; intros w; [done|]. cbn.
  destruct (IH (if h =? 0 then w else hook (HookDestroy h) w)) as [Hf Hk].
  assert (H0 : frame w (if h =? 0 then w else hook (HookDestroy h) w) ∧ keeps w (if h =? 0 then w else hook (HookDestroy h) w)).
  { destruct (h =? 0); [done|]. split; [by apply frame_hook|]. unfold Timers.hook. by destruct dispatcher. }
  destruct H0 as [Hf0 Hk0]. split; [by etrans|]. unfold keeps in *. destruct Hk as (-> & -> & ->). exact Hk0.
Qed.

Lemma exit_strides J w w' :
  stable J → discard_all_timers_on_process_exit dispatcher w = Ok w' → strides J w w'.
Proof.
  intros HJ. unfold discard_all_timers_on_process_exit. intros H. apply bind_ok_inv in H as (s & Hs & [= <-]).
  destruct (entry w) as [s0|] eqn:He; [|done]. injection Hs as ->.
  match goal with |- strides J w (foldl ?f ?w0 ?l) =>
    destruct (exit_frame l w0) as [Hf (Hk1 & Hk2 & Hk3)]; set (w1 := foldl f w0 l) in *; set (wx := w0) in * end.
  assert (Hfx : frame w wx) by (by apply frame_intro).
  split_and!; [intros _; destruct (entry w1); [by eexists|done]|rewrite Hk2; done|rewrite Hk3; done| |].
  - intros _ HI s1 Hs1. rewrite Hs1 in Hk1. cbn in Hk1. injection Hk1 as ->. rewrite Hk2, Hk3.
    eapply (st_shrink _ HJ (timers s)); [|by apply HI]. apply shrinks_sublist, sublist_nil_l.
  - intros h _ _ Hid. assert (Hfw : frame w w1) by (by etrans).
    split; [apply (fires_frames h []); [done|constructor]|by eapply idle_frames].
Qed.

Lemma permit_strides J w w' : strides J (take_permit w) w' → strides J w w'.
Proof.
  assert (Hk : keeps w (take_permit w) ∧ frame w (take_permit w)).
  { unfold take_permit, keeps. destruct (entry w) as [s|] eqn:He; [|by rewrite He].
    cbn. split; [done|by apply frame_intro]. }
  destruct Hk as [Hk Hf]. pose proof Hk as (Hk1 & Hk2 & Hk3). intros (H1 & H2 & H3 & H4 & H5). split_and!.
  - intros [s Hs]. apply H1. rewrite Hs in Hk1. destruct (entry (take_permit w)); [by eexists|done].
  - lia.
  - rewrite Hk3 in H3. lia.
  - intros Hr HI. apply H4; [done|]. by eapply keeps_holds.
  - intros h Hr HI Hid. destruct (H5 h Hr) as [Hfi ?]; [by eapply keeps_holds|by eapply idle_frames|].
    split; [|done]. rewrite Hfi. apply (fires_frames h []); [done|constructor].
Qed.

Lemma step_strides J w w' : stable J → is_Some (entry w) → step w w' → strides J w w'.
Proof.
  intros HJ Hs Hst. destruct Hst as [c w w' H|i s w w' _ _ H|i k w w' _ _ H|i w w' H|w w' H|w w' H].
  - by eapply cmd_strides.
  - apply permit_strides. eapply turn_strides; [done| |done]. unfold take_permit. destruct (entry w); [by eexists|done].
  - by eapply turn_strides.
  - by eapply turn_strides.
  - by eapply server_strides.
  - by eapply exit_strides.
Qed.

Lemma steps_strides J w w' : stable J → is_Some (entry w) → rtc step w w' → strides J w w'.
Proof.
  intros HJ Hs Hst. induction Hst as [w|w1 w2 w3 Hst _ IH]; [unfold strides; by split_and!|].
  pose proof (step_strides J w1 w2 HJ Hs Hst) as (A1 & A2 & A3 & A4 & A5).
  destruct (IH (A1 Hs)) as (B1 & B2 & B3 & B4 & B5). split_and!; [tauto|lia|lia|..].
  - intros Hr HI. apply B4; [done|]. apply A4; [|done]. destruct Hr. split; lia.
  - intros h Hr HI Hid. assert (Hr2 : room w2) by (destruct Hr; split; lia).
    destruct (A5 h Hr2 HI Hid) as [Hf1 Hid1].
    destruct (step_strides (gone h) w1 w2 (gone_stable h) Hs Hst) as (_ & _ & _ & HG & _).
    destruct (B5 h Hr (HG Hr2 HI) Hid1) as [Hf2 Hid2]. split; [congruence|done].
Qed.

(** The state after [init] in a fresh process, at time [now]. *)
Definition start (now : Z) : tworld := init (mkTWorld world_init None [] 0 [] [] now []).

Lemma reachable_tidy now w : rtc step (start now) w → room w → holds_now tidy w.
Proof.
  intros Hst Hr. assert (Hs : is_Some (entry (start now))) by (eexists; reflexivity).
  destruct (steps_strides tidy _ _ tidy_stable Hs Hst) as (_ & _ & _ & HJ & _).
  apply HJ; [done|]. intros s [= <-]. split; constructor.
Qed.

Lemma update_first_unique ts t f :
  NoDup (id <$> ts) → t ∈ ts →
  ∀ u, u ∈ update_first (λ t', id t' =? id t) f ts → u = f t ∨ (u ∈ ts ∧ u ≠ t).
Proof.
  induction ts as [|a ts IH]; intros Hnd Ht u Hu; cbn in *; [by apply elem_of_nil in Ht|].
  apply NoDup_cons in Hnd as [Ha Hnd].
  destruct (Z.eqb_spec (id a) (id t)) as [Hid|Hid].
  - assert (a = t) as ->.
    { apply elem_of_cons in Ht as [->|Ht]; [done|]. destruct Ha. rewrite Hid. by apply list_elem_of_fmap_2. }
    apply elem_of_cons in Hu as [->|Hu]; [by left|]. right. split; [by right|]. intros ->. destruct Ha. by apply list_elem_of_fmap_2.
  - apply elem_of_cons in Ht as [->|Ht]; [done|]. apply elem_of_cons in Hu as [->|Hu].
    + right. split; [by left|]. by intros ->.
    + destruct (IH Hnd Ht u Hu) as [->|[? ?]]; [by left|right; split; [by right|done]].
Qed.

Lemma cleared_gone w s t w1 :
  entry w = Some s → t ∈ timers s → tidy (timers s) (hooks w) (length (issued w)) →
  clear_timeout_interval dispatcher (ArgHandle (mkHandle (id t) (loop_ref t))) w = Ok w1 →
  holds_now (gone (hook_id t)) w1.
Proof.
  intros Hs Ht [Hids Hhooks _ Hbound] H. pose proof (clear_effect dispatcher _ _ _ H) as [Hf _].
  unfold clear_timeout_interval in H. cbn [timer_id_from_value handle_id] in H. rewrite Hs in H. cbn [or_panic mbind res_bind] in H.
  destruct (find_first _ _) as [t0|] eqn:Hfind; cycle 1.
  { pose proof (find_first_None _ _ _ Hfind Ht) as Hne. cbn in Hne. apply Z.eqb_neq in Hne. done. }
  injection H as <-. intros s1 Hs1. split.
  - rewrite Forall_forall in Hbound. specialize (Hbound t Ht). cbn in Hbound. pose proof (fr_hooks _ _ _ Hf). lia.
  - set (self := _ && _) in Hs1. assert (Hs1' : timers s1 =
      update_first (λ t', id t' =? id t) (cleared (clock w) self) (timers s)).
    { revert Hs1. destruct self; [|rewrite hook_entry]; cbn; intros [= <-]; done. }
    rewrite Hs1'. apply Forall_forall. intros u Hu He.
    destruct (update_first_unique _ _ _ Hids Ht u Hu) as [->|[Hin Hne]]; [done|].
    destruct Hne. eapply NoDup_fmap_eq; done.
Qed.

(** At all times the ids of the timers are distinct and below the
    counters: no two timers share an id or a hook id and no hook id is 0 or 1,
    the values with a meaning of their own, whatever scripts, callbacks, drivers
    and servers do. *)
Theorem timer_ids_unique (now : Z) (w : tworld) (s : RuntimeTimerState) :
  rtc step (start now) w → room w → entry w = Some s →
  tidy (timers s) (hooks w) (length (issued w)).
Proof. intros Hst Hr Hs. by apply (reachable_tidy now w Hst Hr). Qed.

End Poll.
