(* ===== verification/TimerLoop.v ===== *)
(** Timers: the background task never sleeps past a timer, as long as no timer
    is unreferenced; and what happens when one is. *)

From S2P Require Import Prelude EventLoop Timers TimerProofs.

Section Loop.
Variable rt : RtKey.
Variables tracking dispatcher : bool.
Variable user : nat → tworld → list cmd * bool.
Variables jobs drivers : tworld → list cmd.
Variable sort : list (option ExecutingTimer) → list (option ExecutingTimer).
(** Deadlines are before the horizon, some 29 years after the start. *)
Variable horizon : Z.
Notation run_cmd := (run_cmd rt tracking dispatcher).
Notation run_cmds := (run_cmds rt tracking dispatcher).
Notation hook := (hook dispatcher).
Notation call_timer := (call_timer rt tracking dispatcher user jobs).
Notation call_all := (call_all rt tracking dispatcher user jobs).
Notation poll_timers := (poll_timers rt tracking dispatcher user jobs drivers sort).
Notation turn := (turn rt tracking dispatcher user jobs drivers sort).

(** * Calls that keep references *)

(** A call at time [c] that makes referenced timers within the horizon, and
    unreferences none. *)
Definition gentle (c : Z) (m : cmd) : Prop :=
  match m with
  | CSet _ delay _ ref => ref = true ∧ 0 ≤ delay ∧ c + delay * MILLI < horizon
  | CUnref _ => False
  | _ => True
  end.

Fixpoint gentle_from (c : Z) (ms : list cmd) : Prop :=
  match ms with
  | [] => True
  | m :: ms => gentle c m ∧ gentle_from (match m with CWait d => c + Z.of_N d | _ => c end) ms
  end.

(** * The invariant *)

(** A timer that waits is referenced; a cleared one is due to be dropped. *)
Definition sound (c : Z) (t : Timeout) : Prop :=
  if pending t then t_referenced t = true ∧ pending_destroy t = false else deadline t + SEC ≤ c.

(** A sleep until [low] is not too long. *)
Definition awake (low c : Z) (s : RuntimeTimerState) : Prop :=
  Forall (λ t, pending t = true → low ≤ Z.max (deadline t) (c + MIN_SLEEP)) (timers s) ∧
  low ≤ Z.max (rt_deadline s) (c + MIN_SLEEP).

(** The task is running and will sleep until [low]; either it has been
    notified, or that is soon enough and [X] holds. *)
Definition on_time (X : RuntimeTimerState → Prop) (low : Z) (w : tworld) : Prop :=
  ∃ s, entry w = Some s ∧ running s = true ∧ Forall (sound (clock w)) (timers s) ∧
       (notify s = true ∨ (awake low (clock w) s ∧ X s)).

(** What has to be shown of [X]. *)
Record lasting (X : RuntimeTimerState → Prop) : Prop := {
  last_flags s h : X s → X (with_executing h s);
  last_push s t :
    pending t = true → pending_destroy t = false → rt_deadline s ≤ deadline t < horizon →
    X s → X (with_timers (timers s ++ [t]) s);
  last_ref s p : X s → X (with_timers (update_first p (λ t,
      mkTimeout (callback t) (deadline t) (id t) (hook_id t) (repeating t) (interval t)
        (pending_destroy t) true (loop_ref t)) (timers s)) s);
}.

(** During a poll: the timers that stay wait, and there are some iff
    [has_items]. *)
Definition polling (has_items : bool) (s : RuntimeTimerState) : Prop :=
  Forall (λ t, pending_destroy t = false) (timers s) ∧
  if has_items then Exists (λ t, pending t = true) (timers s)
  else horizon ≤ rt_deadline s ∧ Forall (λ t, pending t = false) (timers s).

(** Marking a timer as referenced changes nothing else. *)
Lemma Forall_ref (P : Timeout → Prop) p ts :
  (∀ t, P t → P (mkTimeout (callback t) (deadline t) (id t) (hook_id t) (repeating t) (interval t)
                   (pending_destroy t) true (loop_ref t))) →
  Forall P ts → Forall P (update_first p (λ t,
      mkTimeout (callback t) (deadline t) (id t) (hook_id t) (repeating t) (interval t)
        (pending_destroy t) true (loop_ref t)) ts).
Proof.
  intros HP H. induction H as [|t ts Ht Hts IH]; cbn; [constructor|]. destruct (p t); constructor; auto.
Qed.

Lemma Exists_ref (P : Timeout → Prop) p ts :
  (∀ t, P t → P (mkTimeout (callback t) (deadline t) (id t) (hook_id t) (repeating t) (interval t)
                   (pending_destroy t) true (loop_ref t))) →
  Exists P ts → Exists P (update_first p (λ t,
      mkTimeout (callback t) (deadline t) (id t) (hook_id t) (repeating t) (interval t)
        (pending_destroy t) true (loop_ref t)) ts).
Proof.
  intros HP H. induction H as [t ts Ht|t ts Hts IH]; cbn; (destruct (p t); [|by constructor]); [|by constructor 2].
  constructor 1. auto.
Qed.

Lemma polling_lasting b : lasting (polling b).
Proof.
  split.
  - by intros s h [H1 H2].
  - intros s t Ht Hd Hdl [H1 H2]. split; [apply Forall_app; by repeat constructor|]. destruct b.
    + apply Exists_app. by left.
    + destruct H2 as [? _]. lia.
  - intros s p [H1 H2]. split; [by apply Forall_ref|]. destruct b; [by apply Exists_ref|].
    destruct H2. split; [done|by apply Forall_ref].
Qed.

Lemma true_lasting : lasting (λ _, True).
Proof. done. Qed.

(** Time passing is no problem. *)
Lemma sound_later c c' t : c ≤ c' → sound c t → sound c' t.
Proof. unfold sound. destruct (pending t); [done|lia]. Qed.

Lemma awake_later low c c' s : c ≤ c' → awake low c s → awake low c' s.
Proof.
  intros Hc [H1 H2]. split; [|lia]. eapply Forall_impl; [exact H1|]. cbn. intros t Ht Hp. specialize (Ht Hp). lia.
Qed.

Lemma on_time_same X low w w' :
  entry w' = entry w → clock w ≤ clock w' → on_time X low w → on_time X low w'.
Proof.
  intros He Hc (s & Hs & Hr & Hso & Hx). exists s. rewrite He. split_and!; [done|done| |].
  - eapply Forall_impl; [done|]. intros t. by apply sound_later.
  - destruct Hx as [?|[? ?]]; [by left|right]. split; [by eapply awake_later|done].
Qed.

(** ** The calls *)

Lemma set_on_time X low cb delay p w hd w' :
  lasting X → 0 ≤ delay → clock w + delay * MILLI < horizon →
  set_timeout_interval rt tracking dispatcher cb delay p true w = Ok (hd, w') →
  on_time X low w → on_time X low w' ∧ tasks w' = tasks w.
Proof.
  intros HX Hd Hhor H (s & Hs & Hrun & Hso & Hx). unfold set_timeout_interval in H.
  apply bind_ok_inv in H as ([rep d] & Hp & H). cbn [fst snd] in H.
  apply bind_ok_inv in H as ([h w1] & Ha & H). apply allocate_spec in Ha as (n & _ & _ & _ & ->).
  set (w1 := mkTWorld _ _ _ n _ _ _ _) in H. set (w2 := hook_init tracking dispatcher p h w1) in H.
  assert (H2 : entry w2 = Some s ∧ clock w2 = clock w ∧ tasks w2 = tasks w).
  { unfold w2, hook_init, Timers.hook. by destruct tracking, dispatcher. }
  destruct H2 as (Hs2 & Hc2 & Ht2). clearbody w2. cbn [set_ev entry] in H. rewrite Hs2 in H.
  cbn [or_panic mbind res_bind] in H. unfold schedule in H. cbn [with_timers running] in H. rewrite Hrun in H.
  injection H as <- <-. split; [|exact Ht2].
  eexists. split; [reflexivity|]. cbn [clock issue set_entry set_ev].
  set (t := mkTimeout (Some cb) d _ h rep delay false true _).
  assert (Hdl : d < horizon).
  { destruct p; simplify_eq/=; unfold SEC, MILLI in *; lia. }
  assert (Hts : Forall (sound (clock w2)) (timers s ++ [t])).
  { rewrite Hc2. apply Forall_app. split; [done|by repeat constructor]. }
  cbn [rt_deadline with_timers].
  destruct (Z.ltb_spec d (rt_deadline s)); [by split_and!; [..|left]|].
  split_and!; [done|done|]. destruct Hx as [?|[[Ha1 Ha2] HX']]; [by left|right]. split.
  - split; cbn; rewrite Hc2; [|done]. apply Forall_app. split; [done|]. repeat constructor. intros _. cbn. lia.
  - by apply (last_push _ HX).
Qed.

Lemma clear_on_time X low a w w' :
  clear_timeout_interval dispatcher a w = Ok w' → on_time X low w → on_time X low w' ∧ tasks w' = tasks w.
Proof.
  intros H Hon. pose proof Hon as (s & Hs & Hrun & Hso & Hx). unfold clear_timeout_interval in H.
  destruct (timer_id_from_value a) as [tid|]; [|by simplify_eq]. rewrite Hs in H. cbn [or_panic mbind res_bind] in H.
  destruct (find_first _ _) as [t|]; [|by simplify_eq]. injection H as <-. set (self := _ && _).
  set (w1 := set_entry _ _).
  assert (H1 : on_time X low w1).
  { eexists. split; [reflexivity|]. split_and!; [done| |by left]. cbn.
    clear -Hso. induction Hso as [|u ts Hu Hts IH]; cbn; [constructor|].
    destruct (id u =? tid); constructor; try done. unfold sound. cbn. lia. }
  destruct self; [done|]. split; [|by unfold Timers.hook; destruct dispatcher].
  eapply on_time_same; [apply hook_entry| |exact H1]. unfold Timers.hook. by destruct dispatcher.
Qed.

Lemma ref_on_time X low tid w :
  lasting X → on_time X low w →
  on_time X low (set_timer_referenced tid true w) ∧ tasks (set_timer_referenced tid true w) = tasks w.
Proof.
  intros HX Hon. pose proof Hon as (s & Hs & Hrun & Hso & Hx). unfold set_timer_referenced. rewrite Hs.
  destruct (find_first _ _) as [u|]; [|done]. split; [|done]. eexists. split; [reflexivity|]. cbn [clock set_entry].
  split_and!; [done|apply Forall_ref; [|done]; unfold sound, pending; cbn; intros t; destruct (callback t); naive_solver|].
  destruct Hx as [?|[[H1 H2] HX']]; [by left|right]. split; [|by apply (last_ref _ HX)].
  split; [|done]. by apply Forall_ref.
Qed.

Definition clock_after (m : cmd) (c : Z) : Z := match m with CWait d => c + Z.of_N d | _ => c end.

Lemma hook_clock e w : clock (hook e w) = clock w.
Proof. unfold Timers.hook. by destruct dispatcher. Qed.

Lemma schedule_clock d s w : clock (schedule rt d s w) = clock w.
Proof.
  unfold schedule. destruct (running s); [done|]. destruct (should_keep_timer_loop _ _ _) as [keep e]. by destruct keep.
Qed.

Lemma set_clock cb delay p ref w hd w' :
  set_timeout_interval rt tracking dispatcher cb delay p ref w = Ok (hd, w') → clock w' = clock w.
Proof.
  unfold set_timeout_interval. intros H. apply bind_ok_inv in H as ([rep d] & _ & H).
  apply bind_ok_inv in H as ([h w1] & Ha & H). apply allocate_spec in Ha as (n & _ & _ & _ & ->).
  apply bind_ok_inv in H as (s & _ & [= _ <-]). cbn. rewrite schedule_clock. cbn. unfold hook_init.
  destruct tracking; [by rewrite hook_clock|done].
Qed.

Lemma clear_clock a w w' : clear_timeout_interval dispatcher a w = Ok w' → clock w' = clock w.
Proof.
  unfold clear_timeout_interval. destruct (timer_id_from_value a); [|by intros [= <-]].
  intros H. apply bind_ok_inv in H as (s & _ & H). destruct (find_first _ _); [|by injection H as <-].
  injection H as <-. destruct (_ && _); [done|by rewrite hook_clock].
Qed.

Lemma referenced_clock tid b w : clock (set_timer_referenced tid b w) = clock w.
Proof. unfold set_timer_referenced. destruct (entry w); [|done]. by destruct (find_first _ _). Qed.

Lemma run_cmd_clock m w w' : run_cmd m w = Ok w' → clock w' = clock_after m (clock w).
Proof.
  destruct m as [cb delay p ref|a|i|i| | |d]; cbn [Timers.run_cmd clock_after]; intros H.
  - destruct (set_timeout_interval _ _ _ _ _ _ _ _) as [[hd w1]| |] eqn:Hs; simplify_eq; [by eapply set_clock|done].
  - by eapply clear_clock.
  - injection H as <-. destruct (issued w !! i); [|done]. unfold js_ref. by rewrite referenced_clock.
  - injection H as <-. destruct (issued w !! i); [|done]. unfold unref. by rewrite referenced_clock.
  - apply bind_ok_inv in H as ([h w1] & Ha & H). apply allocate_spec in Ha as (n & _ & _ & _ & ->). by injection H as <-.
  - injection H as <-. unfold resume_timer_loop_if_idle. destruct (entry w) as [s|]; [|done]. destruct (running s); [done|].
    destruct (should_keep_timer_loop _ _ _) as [keep e]. by destruct keep.
  - by injection H as <-.
Qed.

Lemma cmd_on_time X low m w w' :
  lasting X → gentle (clock w) m → run_cmd m w = Ok w' → on_time X low w →
  on_time X low w' ∧ tasks w' = tasks w.
Proof.
  intros HX Hg H Hon. pose proof Hon as (s & Hs & Hrun & _).
  destruct m as [cb delay p ref|a|i|i| | |d]; cbn [Timers.run_cmd gentle] in *; [..|].
  - destruct Hg as (-> & Hd & Hhor).
    destruct (set_timeout_interval _ _ _ _ _ _ _ _) as [[hd w1]| |] eqn:Hset; simplify_eq; [|done].
    by eapply set_on_time.
  - by eapply clear_on_time.
  - injection H as <-. destruct (issued w !! i) as [hd|]; [|done]. unfold js_ref.
    apply (ref_on_time X low (handle_id hd) (set_ev (reference (handle_ref hd) (ev w)) w)); [done|].
    by apply (on_time_same X low w).
  - done.
  - apply bind_ok_inv in H as ([h w1] & Ha & H). apply allocate_spec in Ha as (n & _ & _ & _ & ->). injection H as <-.
    split; [|done]. by apply (on_time_same X low w).
  - injection H as <-. unfold resume_timer_loop_if_idle. by rewrite Hs, Hrun.
  - injection H as <-. split; [|done]. apply (on_time_same X low w); [done|cbn; lia|done].
Qed.

Lemma cmds_on_time X low ms w w' :
  lasting X → gentle_from (clock w) ms → run_cmds ms w = Ok w' → on_time X low w →
  on_time X low w' ∧ tasks w' = tasks w.
Proof.
  intros HX. revert w. induction ms as [|m ms IH]; intros w Hg H Hon; cbn in H; [by simplify_eq|].
  apply bind_ok_inv in H as (w1 & H1 & H). destruct Hg as [Hg1 Hg2].
  destruct (cmd_on_time X low m w w1 HX Hg1 H1 Hon) as [Hon1 Ht1]. apply run_cmd_clock in H1.
  destruct (IH w1) as [? ?]; [by rewrite H1|done|done|]. split; [done|congruence].
Qed.

(** * A poll *)

Hypothesis Huser : ∀ cb w, (user cb w).2 = false ∧ gentle_from (clock w) (user cb w).1.
Hypothesis Hjobs : ∀ w, gentle_from (clock w) (jobs w).
Hypothesis Hdrivers : ∀ w, gentle_from (clock w) (drivers w).

Lemma executing_on_time X low h w w' :
  lasting X → set_executing h w = Ok w' → on_time X low w → on_time X low w' ∧ tasks w' = tasks w ∧ clock w' = clock w.
Proof.
  intros HX H (s & Hs & Hrun & Hso & Hx). unfold set_executing in H. rewrite Hs in H. injection H as <-.
  split_and!; [|done|done]. exists (with_executing h s). split_and!; [done|done|done|].
  destruct Hx as [?|[? ?]]; [by left|right]. split; [done|by apply (last_flags _ HX)].
Qed.

(** The timer of a callback is destroyed only if it cleared itself, and then
    the task has been notified. *)
Lemma destroy_on_time b low h w w' :
  destroy_if_done dispatcher h w = Ok w' → on_time (polling b) low w →
  on_time (polling b) low w' ∧ tasks w' = tasks w ∧ clock w' = clock w.
Proof.
  intros H Hon. pose proof Hon as (s & Hs & Hrun & Hso & Hx). unfold destroy_if_done in H. rewrite Hs in H.
  cbn [or_panic mbind res_bind] in H. destruct (find_first _ _) as [t|] eqn:Hfind.
  - destruct (pending_destroy t) eqn:Hd; injection H as <-; [|done].
    split_and!; [|by unfold Timers.hook; destruct dispatcher|apply hook_clock].
    eexists. split; [reflexivity|]. cbn [clock set_entry]. rewrite hook_clock.
    split_and!; [done|by eapply Forall_sublist; [apply sublist_filter|]|]. left. destruct Hx as [?|[_ [Hnd _]]]; [done|].
    apply find_first_Some in Hfind as [Ht _]. rewrite Forall_forall in Hnd. specialize (Hnd t Ht). congruence.
  - injection H as <-. assert (Hall : filter (λ t, hook_id t ≠ h) (timers s) = timers s).
    { apply filter_all, Forall_forall. intros t Ht. apply (find_first_None _ _ _ Hfind) in Ht. by apply Z.eqb_neq. }
    rewrite Hall. split_and!; [|by unfold Timers.hook; destruct dispatcher|apply hook_clock].
    exists s. cbn. rewrite hook_clock. destruct s. done.
Qed.

Lemma call_on_time b low x w r w' :
  call_timer x w = Ok (r, w') → on_time (polling b) low w →
  r = false ∧ on_time (polling b) low w' ∧ tasks w' = tasks w.
Proof.
  pose proof (polling_lasting b) as HX. unfold Timers.call_timer. intros H Hon.
  apply bind_ok_inv in H as (w1 & H1 & H). destruct (executing_on_time _ low _ _ _ HX H1 Hon) as (Hon1 & Ht1 & _).
  set (w2 := hook _ w1) in H. destruct (Huser (x_callback x) w2) as [Hthrow Hgentle].
  destruct (user (x_callback x) w2) as [cs throws]. cbn in Hthrow, Hgentle. subst throws.
  apply bind_ok_inv in H as (w3 & H3 & H). apply bind_ok_inv in H as (w5 & H5 & H).
  apply bind_ok_inv in H as (w6 & H6 & H). apply bind_ok_inv in H as (w7 & H7 & [= <- <-]). split; [done|].
  destruct (cmds_on_time (polling b) low cs (log (Called (x_callback x) (x_hook x)) w2) w3 HX Hgentle H3) as [Hon3 Ht3].
  { apply (on_time_same _ low w1); [apply (hook_entry dispatcher)|cbn; unfold w2; by rewrite hook_clock|done]. }
  destruct (cmds_on_time (polling b) low _ _ _ HX (Hjobs _) H5) as [Hon5 Ht5].
  { apply (on_time_same _ low w3); [apply hook_entry|by rewrite hook_clock|done]. }
  destruct (destroy_on_time b low _ _ _ H6 Hon5) as (Hon6 & Ht6 & _).
  destruct (executing_on_time _ low _ _ _ HX H7 Hon6) as (Hon7 & Ht7 & _). split; [done|].
  rewrite Ht7, Ht6, Ht5. transitivity (tasks w3); [by unfold Timers.hook; destruct dispatcher|].
  rewrite Ht3. cbn. transitivity (tasks w1); [by unfold w2, Timers.hook; destruct dispatcher|done].
Qed.

Lemma calls_on_time b low vec first w r rest w' :
  call_all first vec w = Ok (r, rest, w') → on_time (polling b) low w →
  r = false ∧ rest = [] ∧ on_time (polling b) low w' ∧ tasks w' = tasks w.
Proof.
  revert first w r rest w'. induction vec as [|[x|] vec IH]; intros first w r rest w' H Hon; cbn in H.
  - by simplify_eq.
  - apply bind_ok_inv in H as (w1 & H1 & H). apply bind_ok_inv in H as ([r2 w2] & H2 & H).
    assert (Hon1 : on_time (polling b) low w1 ∧ tasks w1 = tasks w).
    { destruct first; [|by simplify_eq]. eapply cmds_on_time; [apply polling_lasting|apply Hjobs|done|done]. }
    destruct Hon1 as [Hon1 Ht1]. destruct (call_on_time b low _ _ _ _ H2 Hon1) as (-> & Hon2 & Ht2).
    apply bind_ok_inv in H as ([[r3 l3] w3] & H3 & H). destruct (IH _ _ _ _ _ H3 Hon2) as (-> & -> & ? & ?).
    simplify_eq. split_and!; [done|done|done|congruence].
  - apply bind_ok_inv in H as ([[r3 l3] w3] & H3 & H). destruct (IH _ _ _ _ _ H3 Hon) as (-> & -> & ? & ?).
    by simplify_eq.
Qed.

(** ** The list of timers at the start of a poll *)

Lemma stays_sound now c t t' : now ≤ c → stays now t = Some t' → sound now t → sound c t' ∧ pending t' = true.
Proof.
  intros Hc Hst Hso. unfold stays in Hst. unfold sound in *.
  destruct (Z.ltb_spec (deadline t) now).
  - destruct (pending t) eqn:Hp; [|done]. destruct (repeating t); [|done]. cbn in Hst. injection Hst as <-.
    unfold pending in *. cbn. by destruct (callback t).
  - injection Hst as <-. destruct (pending t) eqn:Hp; [done|]. unfold SEC, MILLI in *. lia.
Qed.

Lemma lowest_le ts low0 t :
  t ∈ ts → foldl (λ m t, Z.min (deadline t) m) low0 ts ≤ deadline t.
Proof.
  assert (Hle : ∀ ts low0, foldl (λ m t, Z.min (deadline t) m) low0 ts ≤ low0).
  { clear. induction ts as [|u ts IH]; intros low0; cbn; [lia|]. specialize (IH (Z.min (deadline u) low0)). lia. }
  revert low0. induction ts as [|u ts IH]; intros low0 Ht; [by apply elem_of_nil in Ht|]. cbn.
  apply elem_of_cons in Ht as [->|Ht]; [|by apply IH]. specialize (Hle ts (Z.min (deadline u) low0)). lia.
Qed.

(** After the due timers are taken, the task may sleep until the lowest
    deadline. *)
Lemma take_on_time vec s w vec' low s' w' :
  entry w = Some s → running s = true → timers s ≠ [] → Forall (sound (clock w)) (timers s) →
  horizon ≤ clock w + FAR_FUTURE → take_due sort vec s w = (vec', low, s', w') →
  ∃ l, low = Some l ∧ tasks w' = tasks w ∧
    on_time (polling (match timers s' with [] => false | _ => true end)) l (set_entry s' w').
Proof.
  intros Hs Hrun Hne Hso Hhor. unfold take_due. rewrite retain_due_spec. cbn [kept to_call lowest ret_ev app].
  destruct (timers s) as [|t0 ts0] eqn:Hts; [done|]. rewrite <- Hts in *. clear Hne Hts t0 ts0.
  set (ks := omap (stays (clock w)) (timers s)). set (m := foldl _ _ ks).
  set (l := if m - clock w <? MIN_SLEEP then _ else _). intros H. injection H as <- <- <- <-.
  exists l. split_and!; [done|done|].
  assert (Hks : Forall (λ t, sound (clock w) t ∧ pending t = true) ks).
  { apply Forall_forall. intros t Ht. apply list_elem_of_omap in Ht as (u & Hu & Hst).
    rewrite Forall_forall in Hso. eapply stays_sound; [|done|by apply Hso]. lia. }
  eexists. split; [reflexivity|]. cbn [clock set_entry set_ev with_deadline with_timers timers rt_deadline running notify].
  split_and!; [done|eapply Forall_impl; [exact Hks|]; by intros t [? _]|]. right. split; [split|split].
  - cbn. apply Forall_forall. intros t Ht _. pose proof (lowest_le ks (clock w + FAR_FUTURE) t Ht). fold m in H.
    unfold l. destruct (Z.ltb_spec (m - clock w) MIN_SLEEP); lia.
  - cbn. lia.
  - cbn. eapply Forall_impl; [exact Hks|]. intros t [Ht Hp]. unfold sound in Ht. rewrite Hp in Ht. apply Ht.
  - cbn. destruct ks as [|k ks']; [|by constructor; apply Forall_cons_1 in Hks as [[_ ?] _]].
    split; [|constructor]. unfold l, m. cbn. unfold FAR_FUTURE, MIN_SLEEP, SEC, MILLI in *.
    destruct (Z.ltb_spec (clock w + 84200 * 365 * 30 * (1000 * 1000000) - clock w) (4 * 1000000)); lia.
Qed.

(** ** Whether to go on *)

Lemma keep_spec s e :
  (existsb (λ t, pending t && t_referenced t) (timers s) = true → (should_keep_timer_loop rt s e).1 = true) ∧
  ((should_keep_timer_loop rt s e).1 = true → Exists (λ t, pending t = true) (timers s)).
Proof.
  unfold should_keep_timer_loop. destruct (existsb pending (timers s)) eqn:Hp; cbn.
  - apply existsb_exists in Hp as (t & Ht & Hpt).
    assert (Hex : Exists (λ t, pending t = true) (timers s)).
    { apply Exists_exists. exists t. split; [by apply list_elem_of_In|done]. }
    split; [|done]. intros Href. destruct (has_http_inflight rt e) as [http e1]. destruct http; [done|].
    destruct (has_refed_handles rt e1) as [refed e2]. by destruct refed.
  - split; [|done]. intros (t & Ht & Hpt)%existsb_exists. apply andb_true_iff in Hpt as [Hpt _].
    assert (existsb pending (timers s) = true) by (apply existsb_exists; eauto). congruence.
Qed.

Lemma sound_keep c s e :
  Forall (sound c) (timers s) → Exists (λ t, pending t = true) (timers s) → (should_keep_timer_loop rt s e).1 = true.
Proof.
  intros Hso (t & Ht & Hp)%Exists_exists. apply keep_spec, existsb_exists. exists t.
  split; [by apply list_elem_of_In|]. rewrite Forall_forall in Hso. specialize (Hso t Ht). unfold sound in Hso.
  rewrite Hp in *. by destruct Hso as [-> _].
Qed.

(** * Between the turns *)

(** One task, with an empty vector, to sleep until [low]. *)
Definition ready (k : task) (low : Z) (w : tworld) : Prop :=
  ∃ s, entry w = Some s ∧ timers s ≠ [] ∧ tasks w = [k] ∧ call_vec k = [] ∧ on_time (λ _, True) low w.

Definition calm_running (w : tworld) : Prop := ∃ k, ready k (sleep k) w.

Definition calm_stopped (w : tworld) : Prop :=
  ∃ s, entry w = Some s ∧ running s = false ∧ tasks w = [] ∧ Forall (sound (clock w)) (timers s) ∧
       (notify s = true ∨ (horizon ≤ rt_deadline s ∧ Forall (λ t, pending t = false) (timers s))).

Definition calm (w : tworld) : Prop :=
  horizon ≤ clock w + FAR_FUTURE ∧ (calm_running w ∨ calm_stopped w).

Lemma move_nonempty w w' ts ts' : move w w' ts ts' → ts ≠ [] → ts' ≠ [].
Proof. intros [ts1 ts2 Hf|ts1 t n] Hne; [|by destruct ts1]. destruct Hf; [done|discriminate]. Qed.

Lemma ready_cmd k low m w w' :
  gentle (clock w) m → run_cmd m w = Ok w' → ready k low w → ready k low w'.
Proof.
  intros Hg H (s & Hs & Hne & Ht & Hv & Hon).
  destruct (cmd_on_time _ _ m w w' true_lasting Hg H Hon) as [Hon' Ht']. pose proof Hon' as (s' & Hs' & _).
  apply run_cmd_effect in H as [_ Hm]. unfold moved in Hm. rewrite Hs, Hs' in Hm. destruct Hm as [_ Hm].
  exists s'. split_and!; [done|by eapply move_nonempty|congruence|done|done].
Qed.

(** A timer that is set while no task runs starts one. *)
Lemma stopped_set cb delay p w hd w' :
  0 ≤ delay → clock w + delay * MILLI < horizon →
  set_timeout_interval rt tracking dispatcher cb delay p true w = Ok (hd, w') →
  calm_stopped w → calm_running w'.
Proof.
  intros Hd Hhor H (s & Hs & Hrun & Htask & Hso & Hx). unfold set_timeout_interval in H.
  apply bind_ok_inv in H as ([rep d] & Hp & H). cbn [fst snd] in H.
  apply bind_ok_inv in H as ([h w1] & Ha & H). apply allocate_spec in Ha as (n & _ & _ & _ & ->).
  set (w1 := mkTWorld _ _ _ n _ _ _ _) in H. set (w2 := hook_init tracking dispatcher p h w1) in H.
  assert (H2 : entry w2 = Some s ∧ clock w2 = clock w ∧ tasks w2 = []).
  { unfold w2, hook_init, Timers.hook. by destruct tracking, dispatcher. }
  destruct H2 as (Hs2 & Hc2 & Ht2). clearbody w2. cbn [set_ev entry] in H. rewrite Hs2 in H.
  cbn [or_panic mbind res_bind] in H. set (t := mkTimeout (Some cb) d _ h rep delay false true _) in H.
  set (s1 := with_timers (timers s ++ [t]) s) in H.
  assert (Hso1 : Forall (sound (clock w)) (timers s1)) by (apply Forall_app; by repeat constructor).
  assert (Hex : Exists (λ t, pending t = true) (timers s1)) by (apply Exists_app; right; by constructor).
  unfold schedule in H. change (running s1) with (running s) in H. rewrite Hrun in H.
  match type of H with context [should_keep_timer_loop rt s1 ?e] =>
    pose proof (sound_keep _ s1 e Hso1 Hex) as Hkeep; destruct (should_keep_timer_loop rt s1 e) as [keep e'] end.
  cbn in Hkeep. subst keep. injection H as <- <-.
  eexists _, _. split_and!; [reflexivity| |cbn; rewrite Ht2; reflexivity|done|].
  { cbn. by destruct (timers s). }
  eexists. split_and!; [reflexivity|done|cbn; rewrite Hc2; done|].
  destruct Hx as [?|[Hrd Hnp]]; [by left|right]. cbn. rewrite Hc2.
  assert (Hdl : d < horizon) by (destruct p; simplify_eq/=; unfold SEC, MILLI in *; lia).
  split; [split|done]; cbn; [|lia]. apply Forall_app. split; [|by repeat constructor; cbn; lia].
  eapply Forall_impl; [exact Hnp|]. cbn. congruence.
Qed.

Lemma stopped_same w w' :
  entry w' = entry w → tasks w' = tasks w → clock w ≤ clock w' → calm_stopped w → calm_stopped w'.
Proof.
  intros He Ht Hc (s & Hs & Hrun & Htask & Hso & Hx). exists s. rewrite He, Ht. split_and!; try done.
  eapply Forall_impl; [exact Hso|]. intros t. by apply sound_later.
Qed.

Lemma stopped_clear a w w' :
  clear_timeout_interval dispatcher a w = Ok w' → calm_stopped w → calm_stopped w'.
Proof.
  intros H Hst. pose proof Hst as (s & Hs & Hrun & Htask & Hso & Hx). unfold clear_timeout_interval in H.
  destruct (timer_id_from_value a) as [tid|]; [|by simplify_eq].
  rewrite Hs in H. cbn [or_panic mbind res_bind] in H. destruct (find_first _ _) as [t|]; [|by simplify_eq].
  injection H as <-. set (self := _ && _). set (w1 := set_entry _ _).
  assert (H1 : calm_stopped w1).
  { eexists. split; [reflexivity|]. split_and!; [done|done| |by left]. cbn.
    clear -Hso. induction Hso as [|u ts Hu Hts IH]; cbn; [constructor|].
    destruct (id u =? tid); constructor; try done. unfold sound. cbn. lia. }
  destruct self; [done|]. unfold Timers.hook. destruct dispatcher; [|done]. by apply (stopped_same w1).
Qed.

Lemma stopped_ref tid w : calm_stopped w → calm_stopped (set_timer_referenced tid true w).
Proof.
  intros Hst. pose proof Hst as (s & Hs & Hrun & Htask & Hso & Hx). unfold set_timer_referenced. rewrite Hs.
  destruct (find_first _ _) as [t|]; [|done]. eexists. split; [reflexivity|]. cbn.
  split_and!; [done|done|apply Forall_ref; [|done]; unfold sound, pending; cbn; intros u; destruct (callback u); naive_solver|].
  destruct Hx as [?|[? ?]]; [by left|right]. split; [done|]. by apply Forall_ref.
Qed.

(** A task that is started again has been notified. *)
Lemma stopped_resume w :
  calm_stopped w → calm_running (resume_timer_loop_if_idle rt w) ∨ calm_stopped (resume_timer_loop_if_idle rt w).
Proof.
  intros Hst. pose proof Hst as (s & Hs & Hrun & Htask & Hso & Hx).
  unfold resume_timer_loop_if_idle. rewrite Hs, Hrun. pose proof (proj2 (keep_spec s (ev w))) as Hk.
  destruct (should_keep_timer_loop rt s (ev w)) as [keep e]. destruct keep; [|right; by apply (stopped_same w)].
  specialize (Hk eq_refl). left. assert (Hn : notify s = true).
  { destruct Hx as [?|[_ Hnp]]; [done|]. apply Exists_exists in Hk as (t & Ht & Hp).
    rewrite Forall_forall in Hnp. specialize (Hnp t Ht). congruence. }
  eexists _, _. split_and!; [reflexivity|cbn; by destruct Hk|cbn; rewrite Htask; reflexivity|done|].
  eexists. split_and!; [reflexivity|done|done|by left].
Qed.

Lemma stopped_cmd m w w' :
  gentle (clock w) m → run_cmd m w = Ok w' → calm_stopped w → calm_running w' ∨ calm_stopped w'.
Proof.
  intros Hg H Hst. destruct m as [cb delay p ref|a|i|i| | |d]; cbn [Timers.run_cmd gentle] in *.
  - destruct Hg as (-> & Hd & Hhor).
    destruct (set_timeout_interval _ _ _ _ _ _ _ _) as [[hd w1]| |] eqn:Hset; simplify_eq; [|by right].
    left. by eapply stopped_set.
  - right. by eapply stopped_clear.
  - injection H as <-. right. destruct (issued w !! i) as [hd|]; [|done]. by apply stopped_ref, (stopped_same w).
  - done.
  - apply bind_ok_inv in H as ([h w1] & Ha & H). apply allocate_spec in Ha as (n & _ & _ & _ & ->). injection H as <-.
    right. by apply (stopped_same w).
  - injection H as <-. by apply stopped_resume.
  - injection H as <-. right. apply (stopped_same w); cbn; [done|done|lia|done].
Qed.

Lemma calm_cmd m w w' : gentle (clock w) m → run_cmd m w = Ok w' → calm w → calm w'.
Proof.
  intros Hg H [Hh Hc]. split.
  - pose proof (run_cmd_clock _ _ _ H) as ->. destruct m; cbn; lia.
  - destruct Hc as [[k Hc]|Hc]; [left; exists k; by eapply ready_cmd|by eapply stopped_cmd].
Qed.

Lemma ready_cmds k low ms w w' :
  gentle_from (clock w) ms → run_cmds ms w = Ok w' → ready k low w → ready k low w'.
Proof.
  revert w. induction ms as [|m ms IH]; intros w Hg H Hc; cbn in H; [by simplify_eq|].
  apply bind_ok_inv in H as (w1 & H1 & H). destruct Hg as [Hg1 Hg2].
  apply (IH w1); [|done|by eapply ready_cmd]. apply run_cmd_clock in H1. by rewrite H1.
Qed.

(** The end of a poll. *)
Lemma settle_calm b low w go w' :
  settle rt b w = Ok (go, w') → on_time (polling b) low w →
  ∃ s', entry w' = Some s' ∧ tasks w' = tasks w ∧ clock w' = clock w ∧ running s' = go ∧
    Forall (sound (clock w)) (timers s') ∧
    if go then timers s' ≠ [] ∧ on_time (λ _, True) low w'
    else notify s' = true ∨ (horizon ≤ rt_deadline s' ∧ Forall (λ t, pending t = false) (timers s')).
Proof.
  intros H (s & Hs & Hrun & Hso & Hx). unfold settle in H. rewrite Hs in H. cbn [or_panic mbind res_bind] in H.
  pose proof (keep_spec s (ev w)) as [_ Hk]. pose proof (sound_keep _ s (ev w) Hso) as Hk'.
  destruct (should_keep_timer_loop rt s (ev w)) as [keep e]. cbn [fst] in *. injection H as <- <-.
  eexists. split_and!; [reflexivity|done|done|done|done|]. destruct (keep && b) eqn:Hgo.
  - apply andb_true_iff in Hgo as [-> ->]. split; [cbn; by destruct (Hk eq_refl)|].
    eexists. split_and!; [reflexivity|done|done|]. destruct Hx as [?|[? _]]; [by left|by right].
  - cbn. destruct Hx as [?|[_ [_ HQ]]]; [by left|]. destruct b; [|by right].
    specialize (Hk' HQ). subst keep. done.
Qed.

Lemma turn_calm k low w w' :
  horizon ≤ clock w + FAR_FUTURE → ready k low w → turn 0 w = Ok w' → calm w'.
Proof.
  intros Hhor Hc H. pose proof Hc as (s0 & Hs0 & _ & Htask & Hv & _). unfold Timers.turn in H.
  rewrite Htask in H. cbn in H. rewrite Hv in H. apply bind_ok_inv in H as (p & Hp & [= <-]).
  unfold Timers.poll_timers in Hp. apply bind_ok_inv in Hp as (w1 & H1 & Hp).
  pose proof (fr_clock _ _ _ (run_cmds_frame _ _ _ _ _ _ H1)) as Hclk.
  destruct (ready_cmds k low _ _ _ (Hdrivers w) H1 Hc) as (s & Hs & Hne & Htask1 & Hv1 & (s1 & Hs1 & Hrun & Hso & _)).
  rewrite Hs in Hp, Hs1. injection Hs1 as <-.
  destruct (take_due sort [] s w1) as [[[vec' low'] s'] w2] eqn:Htake.
  destruct (take_on_time [] s w1 _ _ _ _ Hs Hrun Hne Hso ltac:(lia) Htake) as (l & -> & Ht2 & Hon2).
  apply bind_ok_inv in Hp as ([[r rest] w3] & H3 & Hp).
  destruct (calls_on_time _ _ _ _ _ _ _ _ H3 Hon2) as (-> & -> & Hon3 & Ht3).
  apply bind_ok_inv in Hp as ([go w4] & H4 & [= <-]).
  destruct (settle_calm _ _ _ _ _ H4 Hon3) as (s4 & Hs4 & Ht4 & Hc4 & Hgo & Hso4 & Hfin).
  assert (Hclk3 : clock w1 ≤ clock w3).
  { destruct (stretch_calls rt tracking dispatcher user jobs drivers no_claim _ _ _ _ _ _ no_claim_stable H3)
      as (xs & ys & _ & _ & (Hf & _) & _). apply fr_clock in Hf.
    unfold take_due in Htake. simplify_eq. cbn in Hf. lia. }
  split; [destruct go; cbn; lia|]. destruct go; cbn [outcome left_vec new_sleep after].
  - destruct Hfin as [Hne' Hon']. left. exists (mkTask l []), s4. cbn [set_tasks tasks]. rewrite Ht4, Ht3. cbn [tasks set_entry].
    rewrite Ht2, Htask1. split_and!; [done|done|done|done|]. by apply (on_time_same _ _ w4).
  - right. exists s4. cbn [set_tasks tasks entry clock]. rewrite Ht4, Ht3. cbn [tasks set_entry]. rewrite Ht2, Htask1, Hc4.
    by split_and!.
Qed.

(** A step of scripts that unreference nothing and of the background task. *)
Inductive calm_step : tworld → tworld → Prop :=
  | CalmCmd m w w' : gentle (clock w) m → run_cmd m w = Ok w' → calm_step w w'
  | CalmNotified s w w' :
      entry w = Some s → notify s = true → turn 0 (take_permit w) = Ok w' → calm_step w w'
  | CalmSlept k w w' : tasks w !! 0%nat = Some k → sleep k ≤ clock w → turn 0 w = Ok w' → calm_step w w'
  | CalmDriver w w' : turn 0 w = Ok w' → calm_step w w'.

Lemma turn_task w w' : turn 0 w = Ok w' → tasks w ≠ [].
Proof. unfold Timers.turn. by destruct (tasks w). Qed.

(** Whatever its sleep, a task that is about to poll is ready. *)
Lemma calm_ready w :
  calm w → tasks w ≠ [] → ∃ k, ready k (clock w) w ∧ ready k (clock w) (take_permit w).
Proof.
  intros [_ [[k Hc]|(s & _ & _ & Htask & _)]]; [|by rewrite Htask]. intros _.
  destruct Hc as (s & Hs & Hne & Htask & Hv & (s' & Hs' & Hrun & Hso & _)).
  rewrite Hs in Hs'. injection Hs' as <-.
  assert (Hawake : ∀ s, awake (clock w) (clock w) s).
  { intros s'. split; [apply Forall_forall; intros t _ _|]; unfold MIN_SLEEP, MILLI; lia. }
  exists k. split.
  - exists s. split_and!; try done. exists s. split_and!; try done. right. by split.
  - unfold take_permit. rewrite Hs. eexists. split_and!; try done. eexists. split_and!; try done. right. by split.
Qed.

Lemma calm_step_calm w w' : calm_step w w' → calm w → calm w'.
Proof.
  intros Hst Hc. pose proof Hc as [Hhor _].
  destruct Hst as [m w w' Hg H|s w w' Hs Hn H|k w w' Hk Hsl H|w w' H]; [by eapply calm_cmd| | |].
  - assert (Hp : tasks (take_permit w) = tasks w ∧ clock (take_permit w) = clock w) by (unfold take_permit; by rewrite Hs).
    destruct Hp as [Ht Hclk]. pose proof (turn_task _ _ H) as Hne. rewrite Ht in Hne.
    destruct (calm_ready w Hc Hne) as (k & _ & Hk). eapply turn_calm; [by rewrite Hclk|exact Hk|exact H].
  - destruct (calm_ready w Hc (turn_task _ _ H)) as (k' & Hk' & _). by eapply turn_calm.
  - destruct (calm_ready w Hc (turn_task _ _ H)) as (k' & Hk' & _). by eapply turn_calm.
Qed.
End Loop.

