(* ===== verification/TimerRef.v ===== *)
(** Timers on concrete scripts: instances for the theorems, and the situations
    in which timers do not behave as in Node. *)

From S2P Require Import Prelude EventLoop Timers TimerProofs TimerLoop.

(** * A sort *)

#[export] Instance key_le_dec : RelDecision key_le.
Proof. intros [x|] [y|]; cbn; apply _. Defined.
#[export] Instance key_le_total : Total key_le.
Proof. intros [x|] [y|]; cbn; [lia|auto..]. Qed.
#[export] Instance key_le_trans : Transitive key_le.
Proof. intros [x|] [y|] [z|]; cbn; try done. lia. Qed.

Definition stable_sort : list (option ExecutingTimer) → list (option ExecutingTimer) := merge_sort key_le.

#[export] Instance stable_sort_laws : SortLaws stable_sort.
Proof. split; intros l; [apply merge_sort_Permutation|apply (StronglySorted_merge_sort _)]. Qed.

(** * Scripts *)

(** Each callback makes the calls listed for it. *)
Definition script (table : list (list cmd)) (cb : nat) (_ : tworld) : list cmd * bool :=
  (default [] (table !! cb), false).
Definition nothing (_ : tworld) : list cmd := [].

Definition go (table : list (list cmd)) (i : nat) (w : tworld) : res () tworld :=
  turn 0 true true (script table) nothing nothing stable_sort i w.
Definition do (m : cmd) (w : tworld) : res () tworld := run_cmd 0 true true m w.
Definition wait_ms (n : N) : cmd := CWait (n * 1000000).


(** The state that a run gives. *)
Definition state_of (r : res () tworld) : tworld := match r with Ok w => w | _ => start 0 end.

(** A timeout of 5 ms, and then an interval of 10 ms. *)
Definition one : tworld := Eval vm_compute in state_of (do (CSet 7 5 TimeoutProvider true) (start 0)).
Definition two : tworld := Eval vm_compute in state_of (do (CSet 8 10 Interval true) one).

Lemma set_one : do (CSet 7 5 TimeoutProvider true) (start 0) = Ok one.
Proof. vm_compute. reflexivity. Qed.
Lemma set_two : do (CSet 8 10 Interval true) one = Ok two.
Proof. vm_compute. reflexivity. Qed.

Lemma two_steps : rtc (tstep 0 true true (script []) nothing nothing stable_sort) (start 0) two.
Proof.
  eapply rtc_l; [eapply StepCmd, set_one|]. eapply rtc_l; [eapply StepCmd, set_two|]. apply rtc_refl.
Qed.

Lemma timer_ids_unique_witness :
  ∃ s, entry two = Some s ∧ length (timers s) = 2%nat ∧ tidy (timers s) (hooks two) (length (issued two)).
Proof.
  eexists. split_and!; [reflexivity|reflexivity|].
  apply (timer_ids_unique 0 true true (script []) nothing nothing stable_sort 0 two);
    [apply two_steps|split; vm_compute; reflexivity|reflexivity].
Defined.

(** The interval is cleared, and 20 ms later the task polls. *)
Definition two_cleared : tworld :=
  Eval vm_compute in state_of (clear_timeout_interval true (ArgHandle (mkHandle 1 1)) two).
Definition two_later : tworld := Eval vm_compute in state_of (do (wait_ms 20) two_cleared).
Definition two_polled : tworld := Eval vm_compute in state_of (go [] 0 two_later).


Lemma two_calm_steps :
  rtc (calm_step 0 true true (script []) nothing nothing stable_sort (0 + FAR_FUTURE)) (start 0) two.
Proof.
  eapply rtc_l; [eapply CalmCmd, set_one|]. { split_and!; vm_compute; congruence. }
  eapply rtc_l; [eapply CalmCmd, set_two|]. { split_and!; vm_compute; congruence. }
  apply rtc_refl.
Qed.


(** * Where timers differ from Node *)

(** Calls, and turns of the task because it is notified ([None]) or because its
    sleep is over. *)
Definition run_all (table : list (list cmd)) (ms : list (cmd + option ())) (w : tworld) : res () tworld :=
  foldl (λ r m, w ← r;
           match m with
           | inl m => do m w
           | inr None => go table 0 (take_permit w)
           | inr (Some _) => go table 0 w
           end) (Ok w) ms.

(** A timer cleared by a callback that runs before it in the same poll is
    called all the same. *)
Example cleared_in_same_poll :
  (w ← run_all [[CClear (ArgHandle (mkHandle 1 1))]; []]
         [inl (CSet 0 1 TimeoutProvider true); inl (CSet 1 2 TimeoutProvider true); inl (wait_ms 5); inr (Some ())]
         (start 0);
   Ok (called (trace w))) = Ok [(0%nat, 2); (1%nat, 3)].
Proof. vm_compute. reflexivity. Qed.

(** An unreferenced timer of one second stops the task; the task that the next
    timer, of five seconds, starts is not woken for a third one of two seconds:
    it sleeps three seconds past its deadline. *)
Example unref_oversleeps :
  (w ← run_all []
         [inl (CSet 0 1000 TimeoutProvider true); inl (CUnref 0); inr None;
          inl (CSet 1 5000 TimeoutProvider true); inl (CSet 2 2000 TimeoutProvider true)] (start 0);
   s ← or_panic (entry w);
   Ok (deadline <$> timers s, notify s, sleep <$> tasks w)) =
  Ok ([1000 * MILLI; 5000 * MILLI; 2000 * MILLI], false, [5000 * MILLI]).
Proof. vm_compute. reflexivity. Qed.

(** [ref] on the handle of a timer that has fired holds the event loop, with no
    timer left to release it. *)
Example ref_after_fire_leaks :
  (w ← run_all [] [inl (CSet 0 1 TimeoutProvider true); inl (wait_ms 5); inr (Some ()); inl (CRef 0)] (start 0);
   Ok (timers <$> entry w, refs_of 0 (ev w))) = Ok (Some [], 1).
Proof. vm_compute. reflexivity. Qed.

(** Due intervals are sorted by their next deadline, not by the one that
    passed: an interval due at 10 ms is called after a timeout due at 15 ms. *)
Example interval_after_timeout :
  (w ← run_all [] [inl (CSet 0 10 Interval true); inl (CSet 1 15 TimeoutProvider true); inl (wait_ms 20); inr (Some ())]
         (start 0);
   Ok (called (trace w))) = Ok [(1%nat, 3); (0%nat, 2)].
Proof. vm_compute. reflexivity. Qed.

(** [clearTimeout(NaN)] and [clearTimeout(-1)] clear the first timer, whose id
    is 0. *)
Example clear_nan_clears_first :
  (λ n, w ← run_all [] [inl (CSet 0 1 TimeoutProvider true); inl (CClear (ArgNumber n))] (start 0);
        Ok (has_pending_timer_callbacks w)) <$> [None; Some (-1); Some 1] = [Ok false; Ok false; Ok true].
Proof. vm_compute. reflexivity. Qed.
