(* ===== verification/StructuredClone.v ===== *)
(** [structuredClone] ([libs/raster_runtime_utils/src/clone.rs]): a value is
    walked with an explicit stack, its parts are recorded on a tape, and the
    tape is folded from its end into the copy.

    Source and copy live in one heap.  Objects are told apart by the hash of
    their address, a parameter.  The loop takes fuel; running out of it is
    [Panic]. *)

From S2P Require Import Prelude Unicode WireCodec JsGraph CloneWire.

(** * Data *)

Inductive StackItem :=
  | StackValue (parent : nat) (value : gval) (object_key : option rstring) (array_index : option nat)
  | ObjectEnd.

Inductive ObjectType := SetType | MapType.

Inductive TapeValue :=
  | TapeArray (l : gloc)
  | TapeObject (l : gloc)
  | TapeVal (v : gval)
  | TapeCollection (v : option gval) (kind : ObjectType).

Record TapeItem := mkItem {
  parent : nat;
  object_key : option rstring;
  array_index : option nat;
  value : TapeValue;
}.

Record cstate := mkCState {
  tape : list TapeItem;
  stack : list StackItem;
  visited : list (Z * nat);
  sheap : store;
}.

(** [index] counts the items of the tape. *)
Definition index (st : cstate) : nat := length (tape st).

Definition push_item (p : nat) (key : option rstring) (ix : option nat) (v : TapeValue) (s : store)
    (items : list StackItem) (st : cstate) : cstate :=
  mkCState (tape st ++ [mkItem p key ix v]) (items ++ stack st) (visited st) s.

(** * What the engine does *)

(** [array.set(i, v)]: past the end, the array grows and has holes, which read
    as [undefined]. *)
Definition array_set (i : nat) (v : gval) (elems : list gval) : list gval :=
  if (i <? length elems)%nat then <[i := v]> elems
  else elems ++ replicate (i - length elems) GUndefined ++ [v].

Definition set_element (l : gloc) (i : nat) (v : gval) (s : store) : store :=
  mkStore (alter (λ c, match c with GArray e => GArray (array_set i v e) | c => c end) l (cells s)) (next s).

Definition set_property (l : gloc) (key : rstring) (v : gval) (s : store) : store :=
  mkStore (alter (λ c, match c with
                       | GObject p => GObject (set_prop key v p)
                       | GError m p => GError m (set_prop key v p)
                       | c => c
                       end) l (cells s)) (next s).

Fixpoint alloc_pairs (pairs : list (gval * gval)) (s : store) : list gval * store :=
  match pairs with
  | [] => ([], s)
  | (k, v) :: pairs =>
      let '(l, s) := alloc (GArray [k; v]) s in
      let '(refs, s) := alloc_pairs pairs s in
      (GRef l :: refs, s)
  end.

(** [Array.from] of a set or a map. *)
Definition array_from (c : gcell) (s : store) : gval * store :=
  let '(elems, s) := match c with
                     | GSet items => (items, s)
                     | GMap pairs => alloc_pairs pairs s
                     | _ => ([], s)
                     end in
  let '(l, s) := alloc (GArray elems) s in (GRef l, s).

(** [new Set(array)] and [new Map(array)] *)
Definition elements (v : gval) (s : store) : list gval :=
  match v with
  | GRef l => match cells s !! l with Some (GArray elems) => elems | _ => [] end
  | _ => []
  end.
Definition construct (kind : ObjectType) (v : gval) (s : store) : gval * store :=
  let c := match kind with
           | SetType => new_set (elements v s)
           | MapType => new_map ((λ e, (default GUndefined (elements e s !! 0%nat),
                                        default GUndefined (elements e s !! 1%nat))) <$> elements v s)
           end in
  let '(l, s) := alloc c s in (GRef l, s).

Section Clone.
Variable hash : gloc → Z.

(** [append_circular]: the copy so far; a set or map has none. *)
Definition tape_value (v : TapeValue) : res clone_error gval :=
  match v with
  | TapeArray l | TapeObject l => Ok (GRef l)
  | TapeVal v => Ok v
  | TapeCollection v _ => or_panic v
  end.

Definition append_circular (i p : nat) (key : option rstring) (ix : option nat) (st : cstate) :
    res clone_error cstate :=
  item ← or_panic (tape st !! i);
  v ← tape_value (value item);
  Ok (push_item p key ix (TapeVal v) (sheap st) [] st).

(** [check_circular]: [Some] when the object is being visited. *)
Definition check_circular (l : gloc) (st : cstate) : option nat * cstate :=
  match head (filter (λ v, v.1 = hash l) (visited st)) with
  | Some v => (Some v.2, st)
  | None => (None, mkCState (tape st) (stack st) (visited st ++ [(hash l, index st)]) (sheap st))
  end.

(** [append_transfer_value]: a buffer moves, any other object is passed on. *)
Definition append_transfer_value (l : gloc) (p : nat) (key : option rstring) (ix : option nat) (st : cstate) :
    cstate :=
  match cells (sheap st) !! l with
  | Some (GArrayBuffer bytes) =>
      let '(l', s) := alloc (GArrayBuffer bytes) (sheap st) in
      push_item p key ix (TapeVal (GRef l')) (mkStore (<[l := GArrayBuffer []]> (cells s)) (next s)) [] st
  | _ => push_item p key ix (TapeVal (GRef l)) (sheap st) [] st
  end.

Definition append_fresh (c : gcell) (p : nat) (key : option rstring) (ix : option nat) (st : cstate) : cstate :=
  let '(l, s) := alloc c (sheap st) in push_item p key ix (TapeVal (GRef l)) s [] st.

Definition append_collection (c : gcell) (kind : ObjectType) (p : nat) (key : option rstring) (ix : option nat)
    (st : cstate) : cstate :=
  let '(v, s) := array_from c (sheap st) in
  push_item p key ix (TapeCollection None kind) s [StackValue (index st) v None None; ObjectEnd] st.

(** Own properties: pushed in order, so the last one is on top. *)
Definition property_items (i : nat) (props : list (rstring * gval)) : list StackItem :=
  reverse ((λ p, StackValue i p.2 (Some p.1) None) <$> props).
(** Elements: pushed from the last one, so the first one is on top. *)
Definition element_items (i : nat) (elems : list gval) : list StackItem :=
  imap (λ j v, StackValue i v None (Some j)) elems.

(** [Type::Object], after [check_circular]. *)
Definition visit_object (l : gloc) (c : gcell) (p : nat) (key : option rstring) (ix : option nat) (st : cstate) :
    cstate :=
  match c with
  | GDate t => append_fresh (GDate t) p key ix st
  | GRegExp s f => append_fresh (GRegExp s f) p key ix st
  | GSet _ => append_collection c SetType p key ix st
  | GMap _ => append_collection c MapType p key ix st
  | GView bytes => append_fresh (GView bytes) p key ix st
  | GSharedArray _ _ _ _ | GSharedBuffer _ => push_item p key ix (TapeVal (GRef l)) (sheap st) [] st
  | _ =>
      let '(new, props) := match c with
                           | GError _ props => (GError [] [], props)
                           | GObject props => (GObject [], props)
                           | _ => (GObject [], [])
                           end in
      let '(l', s) := alloc new (sheap st) in
      push_item p key ix (TapeObject l') s (property_items (index st) props ++ [ObjectEnd]) st
  end.

(** [Type::Array], after [check_circular]. *)
Definition visit_array (elems : list gval) (p : nat) (key : option rstring) (ix : option nat) (st : cstate) : cstate :=
  let '(l', s) := alloc (GArray []) (sheap st) in
  push_item p key ix (TapeArray l') s (element_items (index st) elems ++ [ObjectEnd]) st.

Definition visit_ref (l : gloc) (p : nat) (key : option rstring) (ix : option nat) (st : cstate) :
    res clone_error cstate :=
  c ← or_panic (cells (sheap st) !! l);
  let '(seen, st) := check_circular l st in
  match seen with
  | Some i => append_circular i p key ix st
  | None => Ok (match c with GArray elems => visit_array elems p key ix st | _ => visit_object l c p key ix st end)
  end.

(** One turn of the loop, for an item that was popped. *)
Definition visit (transfer : list gloc) (item : StackItem) (st : cstate) : res clone_error cstate :=
  match item with
  | StackValue p v key ix =>
      match v with
      | GRef l =>
          if decide (l ∈ transfer) then Ok (append_transfer_value l p key ix st) else visit_ref l p key ix st
      | GCallable => Err NotCloneable
      | _ => Ok (push_item p key ix (TapeVal v) (sheap st) [] st)
      end
  | ObjectEnd => Ok (mkCState (tape st) (stack st) (take (length (visited st) - 1) (visited st)) (sheap st))
  end.

Fixpoint walk (fuel : nat) (transfer : list gloc) (st : cstate) : res clone_error cstate :=
  match stack st with
  | [] => Ok st
  | item :: rest =>
      match fuel with
      | O => Panic
      | S fuel =>
          st ← visit transfer item (mkCState (tape st) rest (visited st) (sheap st));
          walk fuel transfer st
      end
  end.

(** The loop over the tape, from its end: [n] items are left. *)
Fixpoint fold_tape (n : nat) (t : list TapeItem) (s : store) : res clone_error (gval * store) :=
  match n with
  | O => Ok (GNull, s)
  | S n =>
      item ← or_panic (t !! n);
      v ← tape_value (value item);
      match n with
      | O => Ok (v, s)
      | S _ =>
          up ← or_panic (take n t !! parent item);
          match value up with
          | TapeArray l => i ← or_panic (array_index item); fold_tape n t (set_element l i v s)
          | TapeObject l => key ← or_panic (object_key item); fold_tape n t (set_property l key v s)
          | TapeCollection _ kind =>
              let '(c, s) := construct kind v s in
              fold_tape n (<[parent item := mkItem (parent up) (object_key up) (array_index up)
                                              (TapeCollection (Some c) kind)]> t) s
          | TapeVal _ => fold_tape n t s
          end
      end
  end.

Definition structured_clone (fuel : nat) (transfer : list gloc) (v : gval) (s : store) :
    res clone_error (gval * store) :=
  st ← walk fuel transfer (mkCState [] [StackValue 0 v None None] [] s);
  fold_tape (length (tape st)) (tape st) (sheap st).
End Clone.
