(* ===== verification/StructuredProofs.v ===== *)
(** [structuredClone] copies plain data: it always returns, and the copy is a
    tree-like unfolding of the original with its cycles. *)

From S2P Require Import Prelude Unicode WireCodec JsGraph CloneWire StructuredClone.

(** The part of [h'] reachable from [v'] is new and copies the part of [h]
    reachable from [v]: every new object corresponds to an object of its class,
    and their contents correspond.  An object may have several copies. *)
Definition copy_of (h : graph) (v : gval) (h' : graph) (v' : gval) : Prop :=
  ∃ ψ : gmap gloc gloc,
    val_rel ψ v' v ∧
    ∀ l' l, ψ !! l' = Some l → h !! l' = None ∧
      ∃ c c', h !! l = Some c ∧ h' !! l' = Some c' ∧ cell_rel ψ c' c.

Section Walk.
Variable hash : gloc → Z.
Variable h : graph.

(** * Plain data *)

Definition simple_val (v : gval) : Prop :=
  match v with GCallable => False | GRef l => is_Some (h !! l) | _ => True end.

Definition simple_cell (c : gcell) : Prop :=
  match c with
  | GArray elems => Forall simple_val elems
  | GObject props => Forall (λ p, simple_val p.2) props ∧ NoDup props.*1
  | GDate _ | GRegExp _ _ => True
  | _ => False
  end.

Hypothesis Hsimple : ∀ l c, h !! l = Some c → simple_cell c.
Hypothesis Hhash : ∀ l1 l2, is_Some (h !! l1) → is_Some (h !! l2) → hash l1 = hash l2 → l1 = l2.

Definition leaf (c : gcell) : Prop := match c with GDate _ | GRegExp _ _ => True | _ => False end.

(** * The invariant of the walk *)

(** What is known of the children of an item: value, key and index. *)
Notation kid := (gval * option rstring * option nat)%type.

(** The children on the tape; the root is no child. *)
Definition kids (i : nat) (t : list TapeItem) (srcs : list gval) : list kid :=
  omap (λ q, if decide (parent q.1 = i) then Some (q.2, object_key q.1, array_index q.1) else None)
    (drop 1 (zip t srcs)).

(** The children still on the stack. *)
Definition pend (i : nat) (items : list StackItem) : list kid :=
  omap (λ item, match item with
                | StackValue p v key ix => if decide (p = i) then Some (v, key, ix) else None
                | ObjectEnd => None
                end) items.

Definition expected (tv : TapeValue) (v : gval) : list kid :=
  match tv, v with
  | TapeArray _, GRef l =>
      match h !! l with Some (GArray elems) => imap (λ j e, (e, None, Some j)) elems | _ => [] end
  | TapeObject _, GRef l =>
      match h !! l with
      | Some (GObject props) => reverse ((λ p, (p.2, Some p.1, None)) <$> props)
      | _ => []
      end
  | _, _ => []
  end.

(** Item [tv] copies the source [v]. *)
Definition item_ok (ψ : gmap gloc gloc) (s : store) (tv : TapeValue) (v : gval) : Prop :=
  match tv with
  | TapeArray l' => ∃ l elems, v = GRef l ∧ ψ !! l' = Some l ∧ h !! l = Some (GArray elems) ∧
                      cells s !! l' = Some (GArray [])
  | TapeObject l' => ∃ l props, v = GRef l ∧ ψ !! l' = Some l ∧ h !! l = Some (GObject props) ∧
                       cells s !! l' = Some (GObject [])
  | TapeVal v' => val_rel ψ v' v
  | TapeCollection _ _ => False
  end.

(** The new object [l'] was made for item [tv], whose source is [l]. *)
Definition made (s : store) (tv : TapeValue) (l' l : gloc) : Prop :=
  tv = TapeArray l' ∨ tv = TapeObject l' ∨
  (tv = TapeVal (GRef l') ∧ ∃ c, h !! l = Some c ∧ cells s !! l' = Some c ∧ leaf c).

Definition holder (tv : TapeValue) (l' : gloc) : Prop := tv = TapeArray l' ∨ tv = TapeObject l'.

Record winv (ψ : gmap gloc gloc) (srcs : list gval) (st : cstate) : Prop := {
  wi_len : length srcs = length (tape st);
  wi_sub : h ⊆ cells (sheap st);
  wi_store : store_ok (sheap st);
  wi_item : ∀ i it v, tape st !! i = Some it → srcs !! i = Some v → item_ok ψ (sheap st) (value it) v;
  wi_psi : ∀ l' l, ψ !! l' = Some l → h !! l' = None ∧
    ∃ i it, tape st !! i = Some it ∧ srcs !! i = Some (GRef l) ∧ made (sheap st) (value it) l' l;
  wi_uniq : ∀ i j it jt l', tape st !! i = Some it → tape st !! j = Some jt →
    holder (value it) l' → holder (value jt) l' → i = j;
  wi_kids : ∀ i it v, tape st !! i = Some it → srcs !! i = Some v →
    kids i (tape st) srcs ++ pend i (stack st) = expected (value it) v;
  wi_parent : ∀ i it, tape st !! i = Some it → (i = 0 ∨ parent it < i)%nat;
  wi_stack : Forall (λ item, match item with
                             | StackValue p v _ _ => simple_val v ∧ (tape st = [] ∨ (p < length (tape st))%nat)
                             | ObjectEnd => True
                             end) (stack st);
  wi_first : tape st = [] → (length (stack st) ≤ 1)%nat;
  wi_visited : Forall (λ q, ∃ it l, tape st !! q.2 = Some it ∧ srcs !! q.2 = Some (GRef l) ∧
                         is_Some (h !! l) ∧ hash l = q.1) (visited st);
}.

Lemma zip_snoc {A B} (l : list A) (k : list B) x y :
  length k = length l → zip (l ++ [x]) (k ++ [y]) = zip l k ++ [(x, y)].
Proof. intros Hl. by rewrite zip_with_app. Qed.

Lemma kids_push i t srcs it v :
  length srcs = length t →
  kids i (t ++ [it]) (srcs ++ [v]) =
  kids i t srcs ++ (if decide (t ≠ [] ∧ parent it = i) then [(v, object_key it, array_index it)] else []).
Proof.
  intros Hl. unfold kids. rewrite zip_snoc by done. destruct t as [|t0 t], srcs as [|v0 srcs]; try done.
  cbn [zip_with drop app]. rewrite !drop_0, omap_app. f_equal. cbn. do 2 case_decide; naive_solver.
Qed.

Lemma kids_none i t srcs :
  length srcs = length t → (∀ j it, t !! j = Some it → (j = 0 ∨ parent it < j)%nat) → (length t ≤ i)%nat →
  kids i t srcs = [].
Proof.
  intros Hl Hp Hi. unfold kids. destruct t as [|t0 t]; [done|]. destruct srcs as [|v0 srcs]; [done|]. cbn.
  cut (Forall (λ q : TapeItem * gval, parent q.1 ≠ i) (zip t srcs)).
  { induction 1 as [|q l Hq _ IH]; [done|]. cbn. by rewrite decide_False. }
  apply Forall_lookup_2. intros j [it v] Hj. apply lookup_zip_with_Some in Hj as (a & b & [= <- <-] & Ha & _).
  specialize (Hp (S j) _ Ha). apply lookup_lt_Some in Ha. cbn in *. lia.
Qed.

Lemma pend_app i a b : pend i (a ++ b) = pend i a ++ pend i b.
Proof. apply omap_app. Qed.

Lemma pend_none i items :
  Forall (λ item, match item with StackValue p _ _ _ => p ≠ i | ObjectEnd => True end) items → pend i items = [].
Proof. induction 1 as [|[p v k ix|] items Hp _ IH]; [done|..]; cbn; [by rewrite decide_False|done]. Qed.

Lemma val_rel_mono ψ ψ' v' v : ψ ⊆ ψ' → val_rel ψ v' v → val_rel ψ' v' v.
Proof.
  intros Hs. destruct v' as [| | | | | | | |l']; try done. cbn. intros (l & Hl & ->). exists l.
  split; [by eapply lookup_weaken|done].
Qed.

Lemma item_ok_mono ψ ψ' s s' tv v :
  ψ ⊆ ψ' → cells s ⊆ cells s' → item_ok ψ s tv v → item_ok ψ' s' tv v.
Proof.
  intros Hp Hs. destruct tv as [l'|l'|u|]; cbn; [..|by apply val_rel_mono|done].
  - intros (l & elems & -> & H1 & H2 & H3). exists l, elems. split_and!; try done; by eapply lookup_weaken.
  - intros (l & props & -> & H1 & H2 & H3). exists l, props. split_and!; try done; by eapply lookup_weaken.
Qed.

Lemma made_mono s s' tv l' l : cells s ⊆ cells s' → made s tv l' l → made s' tv l' l.
Proof.
  intros Hs [?|[?|(? & c & ? & ? & ?)]]; [by left|by right; left|right; right]. split; [done|].
  exists c. split_and!; [done|by eapply lookup_weaken|done].
Qed.

Lemma item_holder ψ s tv v l' : item_ok ψ s tv v → holder tv l' → is_Some (cells s !! l').
Proof.
  intros Hok [-> | ->]; cbn in Hok.
  - destruct Hok as (l & elems & _ & _ & _ & ->). by eexists.
  - destruct Hok as (l & props & _ & _ & _ & ->). by eexists.
Qed.

Lemma expected_other tv v : (∀ l', ¬ holder tv l') → expected tv v = [].
Proof. unfold holder. destruct tv; [intros H; destruct (H l); auto..|done|done]. Qed.

Lemma snoc_lookup {A B} (t : list A) (srcs : list B) a b i it u :
  length srcs = length t → (t ++ [a]) !! i = Some it → (srcs ++ [b]) !! i = Some u →
  (t !! i = Some it ∧ srcs !! i = Some u) ∨ (i = length t ∧ it = a ∧ u = b).
Proof.
  intros Hlen H1 H2. apply lookup_snoc_Some in H1 as [[? ?]|[-> <-]].
  - left. split; [done|]. rewrite lookup_app_l in H2; [done|lia].
  - right. split_and!; [done|done|]. rewrite list_lookup_middle in H2 by done. congruence.
Qed.

(** The children of an item, before and after one of them moves. *)
Lemma push_kids t srcs p v key ix rest tv items i it u :
  length srcs = length t →
  (∀ j it, t !! j = Some it → (j = 0 ∨ parent it < j)%nat) →
  (∀ i it v', t !! i = Some it → srcs !! i = Some v' →
     kids i t srcs ++ pend i (StackValue p v key ix :: rest) = expected (value it) v') →
  Forall (λ item, match item with StackValue q _ _ _ => q = length t | ObjectEnd => True end) items →
  (t = [] ∧ rest = [] ∨ t ≠ [] ∧ (p < length t)%nat ∧
     Forall (λ item, match item with StackValue q _ _ _ => (q < length t)%nat | ObjectEnd => True end) rest) →
  pend (length t) items = expected tv v →
  (t ++ [mkItem p key ix tv]) !! i = Some it → (srcs ++ [v]) !! i = Some u →
  kids i (t ++ [mkItem p key ix tv]) (srcs ++ [v]) ++ pend i (items ++ rest) = expected (value it) u.
Proof.
  intros Hlen Hpar Hk Hitems Hrest Hpend H1 H2. rewrite kids_push by done. cbn [parent object_key array_index].
  rewrite pend_app. destruct (snoc_lookup _ _ _ _ _ _ _ Hlen H1 H2) as [[H1' H2']|(-> & -> & ->)].
  - rewrite (pend_none i items), app_nil_l.
    + rewrite <- (Hk i it u H1' H2'), <- (assoc_L (++)). f_equal. cbn.
      assert (Hne : t ≠ []) by (by destruct t). do 2 case_decide; naive_solver.
    + eapply Forall_impl; [exact Hitems|]. intros [q w ? ?|]; [|done]. intros ->. apply lookup_lt_Some in H1'. lia.
  - rewrite kids_none by done. rewrite decide_False.
    + cbn [app]. rewrite Hpend, (pend_none (length t) rest), app_nil_r; [done|].
      destruct Hrest as [[_ ->]|(_ & _ & Hr)]; [constructor|].
      eapply Forall_impl; [exact Hr|]. intros [q w ? ?|]; [|done]. lia.
    + intros [Hne Hpe]. destruct Hrest as [[? _]|(_ & Hp & _)]; [done|lia].
Qed.

(** One item moves from the stack to the tape, and its children [items] go on
    the stack. *)
Lemma push_inv ψ ψ' srcs t p v key ix rest vis vis' s s' tv items :
  let n := length t in
  winv ψ srcs (mkCState t (StackValue p v key ix :: rest) vis s) →
  ψ ⊆ ψ' → cells s ⊆ cells s' → store_ok s' →
  item_ok ψ' s' tv v →
  (∀ l' l, ψ' !! l' = Some l → ψ !! l' = Some l ∨ (h !! l' = None ∧ v = GRef l ∧ made s' tv l' l)) →
  (∀ l', holder tv l' → cells s !! l' = None) →
  pend n items = expected tv v →
  Forall (λ item, match item with StackValue q u _ _ => q = n ∧ simple_val u | ObjectEnd => True end) items →
  (∀ q, q ∈ vis' → q ∈ vis ∨ ∃ l, v = GRef l ∧ q = (hash l, n)) →
  winv ψ' (srcs ++ [v]) (mkCState (t ++ [mkItem p key ix tv]) (items ++ rest) vis' s').
Proof.
  intros n Hw Hpsi Hs Hok Hitem Hnew Hfresh Hpend Hitems Hvis.
  destruct Hw as [Hlen Hsub Hst Hi Hps Hu Hk Hpar Hstk Hfirst Hv]. cbn [tape stack visited sheap] in *.
  apply Forall_cons_1 in Hstk as [[Hsv Hpn] Hstk].
  pose proof (λ i it u, snoc_lookup t srcs (mkItem p key ix tv) v i it u Hlen) as Hlook.
  assert (Hrest : t = [] ∧ rest = [] ∨ t ≠ [] ∧ (p < length t)%nat ∧
     Forall (λ item, match item with StackValue q _ _ _ => (q < length t)%nat | ObjectEnd => True end) rest).
  { destruct t as [|t0 t']; [left|right].
    - split; [done|]. specialize (Hfirst eq_refl). destruct rest; [done|cbn in Hfirst; lia].
    - split_and!; [done|by destruct Hpn|]. eapply Forall_impl; [exact Hstk|].
      intros [q w ? ?|]; [|done]. by intros [_ [?|?]]. }
  assert (Hsrc : ∀ i it, t !! i = Some it → ∃ u, srcs !! i = Some u).
  { intros i it Hl%lookup_lt_Some. apply lookup_lt_is_Some. lia. }
  split; cbn [tape stack visited sheap].
  - rewrite !length_app. cbn. lia.
  - by etrans.
  - done.
  - intros i it u H1 H2. destruct (Hlook _ _ _ H1 H2) as [[? ?]|(-> & -> & ->)]; [|done].
    eapply item_ok_mono; [done|done|by eapply Hi].
  - intros l' l Hl. destruct (Hnew l' l Hl) as [Hold|(? & -> & Hm)].
    + destruct (Hps l' l Hold) as [? (i & it & H1 & H2 & H3)]. split; [done|]. exists i, it.
      split_and!; [by apply lookup_app_l_Some|by apply lookup_app_l_Some|by eapply made_mono].
    + split; [done|]. exists n, (mkItem p key ix tv).
      split_and!; [by apply list_lookup_middle|apply list_lookup_middle; lia|done].
  - intros i j it jt l' H1 H2 Hh1 Hh2.
    assert (Hold : ∀ i it, t !! i = Some it → holder (value it) l' → is_Some (cells s !! l')).
    { intros i0 it0 H0 Hh. destruct (Hsrc _ _ H0) as [u Hu0]. eapply item_holder; [by eapply Hi|done]. }
    apply lookup_snoc_Some in H1 as [[_ H1]|[-> <-]], H2 as [[_ H2]|[-> <-]].
    + by eapply Hu.
    + destruct (Hold _ _ H1 Hh1) as [c Hc]. rewrite (Hfresh l' Hh2) in Hc. done.
    + destruct (Hold _ _ H2 Hh2) as [c Hc]. rewrite (Hfresh l' Hh1) in Hc. done.
    + done.
  - intros i it u. apply push_kids; try done. eapply Forall_impl; [exact Hitems|]. by intros [q w ? ?|]; [intros [? _]|].
  - intros i it H1. apply lookup_snoc_Some in H1 as [[_ H1]|[-> <-]]; [by eapply Hpar|]. cbn.
    destruct Hpn as [->|?]; [by left|right; lia].
  - apply Forall_app. split.
    + eapply Forall_impl; [exact Hitems|]. intros [q w ? ?|]; [|done]. intros [-> ?]. split; [done|]. right.
      rewrite length_app. cbn. unfold n. lia.
    + destruct Hrest as [[_ ->]|(_ & _ & Hr)]; [constructor|]. apply Forall_lookup_2. intros j item Hj.
      pose proof (Forall_lookup_1 _ _ _ _ Hstk Hj) as H1. pose proof (Forall_lookup_1 _ _ _ _ Hr Hj) as H2.
      destruct item as [q w ? ?|]; [|done]. split; [apply H1|]. right. rewrite length_app. cbn. lia.
  - by destruct t.
  - apply Forall_forall. intros q Hq. destruct (Hvis q Hq) as [Hq'|(l & -> & ->)].
    + rewrite Forall_forall in Hv. destruct (Hv q Hq') as (it & l & H1 & H2 & H3). exists it, l.
      split_and!; [by apply lookup_app_l_Some|by apply lookup_app_l_Some|apply H3|apply H3].
    + exists (mkItem p key ix tv), l. cbn. split_and!; [by apply list_lookup_middle|apply list_lookup_middle; lia|done|done].
Qed.

(** * One turn *)

Lemma winv_fresh ψ srcs st : winv ψ srcs st →
  cells (sheap st) !! next (sheap st) = None ∧ ψ !! next (sheap st) = None ∧ h !! next (sheap st) = None.
Proof.
  intros Hw. pose proof (alloc_fresh _ (wi_store _ _ _ Hw)) as Hn. split_and!; [done| |].
  - apply eq_None_not_Some. intros [l Hl]. destruct (wi_psi _ _ _ Hw _ _ Hl) as [_ (i & it & H1 & H2 & Hm)].
    pose proof (wi_item _ _ _ Hw _ _ _ H1 H2) as Hok.
    destruct Hm as [Hm|[Hm|(_ & c & _ & Hc & _)]]; [| |congruence]; rewrite Hm in Hok; cbn in Hok.
    + destruct Hok as (? & ? & _ & _ & _ & Hc). congruence.
    + destruct Hok as (? & ? & _ & _ & _ & Hc). congruence.
  - apply eq_None_not_Some. intros [c Hc]. eapply lookup_weaken in Hc; [|apply Hw]. congruence.
Qed.

(** What a turn leaves: either nothing new on the stack, or the children of an
    object that was not seen before. *)
Definition turned (l : gval) (n : nat) (rest : list StackItem) (vis : list (Z * nat)) (st : cstate) : Prop :=
  (stack st = rest ∧ ∃ extra, visited st = vis ++ extra) ∨
  (∃ l0 its, l = GRef l0 ∧ is_Some (h !! l0) ∧ hash l0 ∉ vis.*1 ∧ visited st = vis ++ [(hash l0, n)] ∧
     stack st = its ++ ObjectEnd :: rest ∧
     Forall (λ item, match item with StackValue _ _ _ _ => True | ObjectEnd => False end) its).

Section Turn.
Context {ψ : gmap gloc gloc} {srcs : list gval} {t : list TapeItem} {p : nat} {v : gval}.
Context {key : option rstring} {ix : option nat} {rest : list StackItem} {vis : list (Z * nat)} {s : store}.
Hypothesis Hw : winv ψ srcs (mkCState t (StackValue p v key ix :: rest) vis s).

(** A primitive, or a reference to an object being visited. *)
Lemma push_value vis' v' :
  val_rel ψ v' v → (∀ q, q ∈ vis' → q ∈ vis) →
  winv ψ (srcs ++ [v]) (mkCState (t ++ [mkItem p key ix (TapeVal v')]) rest vis' s).
Proof.
  intros Hv Hvis. apply (push_inv ψ ψ srcs t p v key ix rest vis vis' s s (TapeVal v') []); try done.
  - apply Hw.
  - auto.
  - by intros l' [? | ?].
  - auto.
Qed.

(** A new object for the object at [l]. *)
Lemma push_new l tv c items :
  v = GRef l → is_Some (h !! l) →
  let '(l', s') := alloc c s in
  item_ok (<[l' := l]> ψ) s' tv v → made s' tv l' l → (∀ l0, holder tv l0 → l0 = l') →
  pend (length t) items = expected tv v →
  Forall (λ item, match item with StackValue q u _ _ => q = length t ∧ simple_val u | ObjectEnd => True end) items →
  winv (<[l' := l]> ψ) (srcs ++ [v])
    (mkCState (t ++ [mkItem p key ix tv]) (items ++ rest) (vis ++ [(hash l, length t)]) s').
Proof.
  intros Hl Hh. cbn. intros Hok Hm Hhold Hpend Hitems.
  destruct (winv_fresh _ _ _ Hw) as (Hn1 & Hn2 & Hn3). cbn [sheap] in *.
  eapply push_inv; [exact Hw|by apply insert_subseteq|by apply insert_subseteq| |done| | |done|done|].
  - apply (alloc_ok c). apply Hw.
  - intros l1 l2 H12. destruct (decide (l1 = next s)) as [->|Hne].
    + right. rewrite lookup_insert_eq in H12. injection H12 as <-. done.
    + left. by rewrite lookup_insert_ne in H12.
  - intros l0 Hl0. by rewrite (Hhold l0 Hl0).
  - intros q Hq. apply elem_of_app in Hq as [?|Hq%list_elem_of_singleton]; [by left|right]. by exists l.
Qed.
End Turn.

Lemma pend_elements i elems : pend i (element_items i elems ++ [ObjectEnd]) = imap (λ j e, (e, None, Some j)) elems.
Proof.
  rewrite pend_app. cbn. rewrite app_nil_r. unfold element_items.
  induction elems as [|x elems IH] using rev_ind; [done|]. rewrite !imap_app, pend_app, IH. cbn.
  by rewrite decide_True.
Qed.

Lemma pend_properties i props :
  pend i (property_items i props ++ [ObjectEnd]) = reverse ((λ p, (p.2, Some p.1, None)) <$> props).
Proof.
  rewrite pend_app. cbn. rewrite app_nil_r. unfold property_items.
  induction props as [|x props IH]; [done|]. rewrite !fmap_cons, !reverse_cons, pend_app, IH. cbn.
  by rewrite decide_True.
Qed.

(** A primitive. *)
Lemma visit_prim ψ srcs t p v key ix rest vis s :
  winv ψ srcs (mkCState t (StackValue p v key ix :: rest) vis s) → (∀ l, v ≠ GRef l) →
  ∃ st ψ', visit hash [] (StackValue p v key ix) (mkCState t rest vis s) = Ok st ∧
    winv ψ' (srcs ++ [v]) st ∧ turned v (length t) rest vis st.
Proof.
  intros Hw Hne. pose proof (wi_stack _ _ _ Hw) as Hstk. cbn in Hstk. apply Forall_cons_1 in Hstk as [[Hsv _] _].
  exists (push_item p key ix (TapeVal v) s [] (mkCState t rest vis s)), ψ. split_and!.
  - destruct v; try done. by destruct (Hne l).
  - apply (push_value Hw); [|auto]. destruct v; try done. by destruct (Hne l).
  - left. split; [done|]. exists []. by rewrite app_nil_r.
Qed.

(** An object that is being visited. *)
Lemma visit_seen ψ srcs t p l key ix rest vis s q :
  winv ψ srcs (mkCState t (StackValue p (GRef l) key ix :: rest) vis s) → is_Some (h !! l) →
  q ∈ vis → q.1 = hash l →
  ∃ st, append_circular q.2 p key ix (mkCState t rest vis s) = Ok st ∧
    winv ψ (srcs ++ [GRef l]) st ∧ turned (GRef l) (length t) rest vis st.
Proof.
  intros Hw Hh Hq Hql. pose proof (wi_visited _ _ _ Hw) as Hv. cbn in Hv. rewrite Forall_forall in Hv.
  destruct (Hv q Hq) as (it & l0 & H1 & H2 & H3 & H4). assert (l0 = l) as -> by (apply Hhash; congruence).
  pose proof (wi_item _ _ _ Hw _ _ _ H1 H2) as Hok. cbn [sheap] in Hok.
  assert (Hval : ∃ v', tape_value (value it) = Ok v' ∧ val_rel ψ v' (GRef l)).
  { destruct (value it) as [l'|l'|u|]; cbn in Hok; [..|done].
    - destruct Hok as (? & ? & [= <-] & Hl & _). exists (GRef l'). split; [done|]. by exists l.
    - destruct Hok as (? & ? & [= <-] & Hl & _). exists (GRef l'). split; [done|]. by exists l.
    - by exists u. }
  destruct Hval as (v' & Hv' & Hrel). unfold append_circular. cbn [tape]. rewrite H1. cbn. rewrite Hv'. cbn.
  eexists. split_and!; [reflexivity|apply (push_value Hw); auto|]. left. split; [done|]. exists []. by rewrite app_nil_r.
Qed.

(** An object that is new: a date or regular expression, an array, an object. *)
Lemma visit_new ψ srcs t p l key ix rest vis s c :
  winv ψ srcs (mkCState t (StackValue p (GRef l) key ix :: rest) vis s) → h !! l = Some c →
  hash l ∉ vis.*1 →
  let st := mkCState t rest (vis ++ [(hash l, length t)]) s in
  let st' := match c with GArray elems => visit_array elems p key ix st | _ => visit_object l c p key ix st end in
  ∃ ψ', winv ψ' (srcs ++ [GRef l]) st' ∧ turned (GRef l) (length t) rest vis st'.
Proof.
  intros Hw Hc Hnew st st'. pose proof (Hsimple l c Hc) as Hsc. exists (<[next s := l]> ψ).
  assert (Hh : is_Some (h !! l)) by (by eexists).
  destruct c as [elems|props|d|rs rf| | | | | | |]; try done; unfold st', st.
  - split.
    + apply (push_new Hw l (TapeArray (next s)) (GArray []) (element_items (length t) elems ++ [ObjectEnd]) eq_refl Hh).
      * exists l, elems. cbn. by rewrite !lookup_insert_eq.
      * by left.
      * by intros l0 [[= ->]|?].
      * cbn. rewrite Hc. apply pend_elements.
      * apply Forall_app. split; [|by repeat constructor]. apply Forall_lookup_2. intros j item Hj.
        unfold element_items in Hj. rewrite list_lookup_imap in Hj. apply fmap_Some in Hj as (e & He & ->).
        split; [done|]. cbn in Hsc. rewrite Forall_lookup in Hsc. by eapply Hsc.
    + right. exists l, (element_items (length t) elems). split_and!; [done|done|done|done| |].
      * cbn. by rewrite <- (assoc_L (++)).
      * apply Forall_lookup_2. intros j item Hj. unfold element_items in Hj. rewrite list_lookup_imap in Hj.
        apply fmap_Some in Hj as (e & He & ->). done.
  - split.
    + apply (push_new Hw l (TapeObject (next s)) (GObject []) (property_items (length t) props ++ [ObjectEnd]) eq_refl Hh).
      * exists l, props. cbn. by rewrite !lookup_insert_eq.
      * by right; left.
      * by intros l0 [?|[= ->]].
      * cbn. rewrite Hc. apply pend_properties.
      * apply Forall_app. split; [|by repeat constructor]. apply Forall_reverse, Forall_fmap.
        eapply Forall_impl; [apply Hsc|]. by intros [k u] ?.
    + right. exists l, (property_items (length t) props). split_and!; [done|done|done|done| |].
      * cbn. by rewrite <- (assoc_L (++)).
      * apply Forall_reverse, Forall_fmap. by apply Forall_true.
  - split; [|left; split; [done|by eexists]].
    apply (push_new Hw l (TapeVal (GRef (next s))) (GDate d) [] eq_refl Hh).
    + exists l. by rewrite lookup_insert_eq.
    + right; right. split; [done|]. eexists. cbn. by rewrite lookup_insert_eq.
    + by intros l0 [?|?].
    + done.
    + constructor.
  - split; [|left; split; [done|by eexists]].
    apply (push_new Hw l (TapeVal (GRef (next s))) (GRegExp rs rf) [] eq_refl Hh).
    + exists l. by rewrite lookup_insert_eq.
    + right; right. split; [done|]. eexists. cbn. by rewrite lookup_insert_eq.
    + by intros l0 [?|?].
    + done.
    + constructor.
Qed.

Lemma visit_ok ψ srcs t p v key ix rest vis s :
  winv ψ srcs (mkCState t (StackValue p v key ix :: rest) vis s) →
  ∃ st ψ', visit hash [] (StackValue p v key ix) (mkCState t rest vis s) = Ok st ∧
    winv ψ' (srcs ++ [v]) st ∧ turned v (length t) rest vis st.
Proof.
  intros Hw. destruct v as [| | | | | | | |l]; try (by eapply visit_prim).
  pose proof (wi_stack _ _ _ Hw) as Hstk. cbn in Hstk. apply Forall_cons_1 in Hstk as [[[c Hc] _] _].
  cbn [visit]. rewrite decide_False by (apply not_elem_of_nil). unfold visit_ref. cbn [sheap].
  rewrite (lookup_weaken h (cells s) _ _ Hc (wi_sub _ _ _ Hw)). cbn [or_panic mbind res_bind].
  unfold check_circular. cbn [visited]. destruct (head (filter _ vis)) as [q|] eqn:Hq.
  - apply head_Some_elem_of, list_elem_of_filter in Hq as [Hq1 Hq2].
    destruct (visit_seen ψ srcs t p l key ix rest vis s q Hw ltac:(by eexists) Hq2 Hq1) as (st & H1 & H2 & H3).
    by exists st, ψ.
  - assert (Hnew : hash l ∉ vis.*1).
    { intros ([z i] & Hz & Hin)%list_elem_of_fmap. assert (Hf : (z, i) ∈ filter (λ v : Z * nat, v.1 = hash l) vis)
        by (by apply list_elem_of_filter). destruct (filter _ vis); [by apply elem_of_nil in Hf|done]. }
    destruct (visit_new ψ srcs t p l key ix rest vis s c Hw Hc Hnew) as (ψ' & H1 & H2). eexists _, ψ'. by split.
Qed.

(** * The walk ends *)

Definition unseen (vis : list (Z * nat)) : nat :=
  size (filter (λ l, hash l ∉ vis.*1) (dom h : gset gloc)).

Lemma unseen_mono vis extra : (unseen (vis ++ extra) ≤ unseen vis)%nat.
Proof. unfold unseen. apply subseteq_size. intros l. rewrite !elem_of_filter, fmap_app, not_elem_of_app. tauto. Qed.

Lemma unseen_less vis l n :
  is_Some (h !! l) → hash l ∉ vis.*1 → (unseen (vis ++ [(hash l, n)]) < unseen vis)%nat.
Proof.
  intros Hh Hl. unfold unseen. apply subset_size. split.
  - intros x. rewrite !elem_of_filter, fmap_app, not_elem_of_app. tauto.
  - intros Hs. specialize (Hs l). rewrite !elem_of_filter, fmap_app, not_elem_of_app in Hs. cbn in Hs.
    destruct Hs as [[_ Hs] _]; [split; [done|by apply elem_of_dom]|]. apply Hs. by left.
Qed.

Definition runs (st st' : cstate) : Prop :=
  ∃ m, ∀ fuel, walk hash (m + fuel) [] st = walk hash fuel [] st'.

#[local] Instance runs_preorder : PreOrder runs.
Proof.
  split; [by exists 0%nat|]. intros st1 st2 st3 [m1 H1] [m2 H2]. exists (m1 + m2)%nat. intros fuel.
  by rewrite <- H2, <- H1, Nat.add_assoc.
Qed.

Lemma runs_step item rest t vis s st' :
  visit hash [] item (mkCState t rest vis s) = Ok st' → runs (mkCState t (item :: rest) vis s) st'.
Proof. intros H. exists 1%nat. intros fuel. cbn [walk plus stack tape visited sheap]. by rewrite H. Qed.

(** From a stack to its rest: the tape grows, the visited list keeps what it
    had. *)
Definition finishes (srcs : list gval) (rest : list StackItem) (st : cstate) : Prop :=
  ∃ st' ψ' more extra, runs st st' ∧ winv ψ' (srcs ++ more) st' ∧ stack st' = rest ∧
    visited st' = visited st ++ extra.

Lemma finishes_trans srcs more rest rest' st st' ψ' extra :
  runs st st' → winv ψ' (srcs ++ more) st' → stack st' = rest → visited st' = visited st ++ extra →
  finishes (srcs ++ more) rest' st' → finishes srcs rest' st.
Proof.
  intros Hr _ _ Hv (st2 & ψ2 & more2 & extra2 & Hr2 & Hw2 & Hs2 & Hv2).
  exists st2, ψ2, (more ++ more2), (extra ++ extra2). split_and!; [by etrans|by rewrite (assoc_L (++))|done|].
  by rewrite Hv2, Hv, (assoc_L (++)).
Qed.

Lemma finishes_weaken srcs more rest st : finishes (srcs ++ more) rest st → finishes srcs rest st.
Proof.
  intros (st' & ψ' & more' & extra & H1 & H2 & H3). rewrite <- (assoc_L (++)) in H2. by exists st', ψ', (more ++ more'), extra.
Qed.

Lemma run_items n :
  (∀ ψ srcs t p v key ix rest vis s, winv ψ srcs (mkCState t (StackValue p v key ix :: rest) vis s) →
     (unseen vis < n)%nat → finishes (srcs ++ [v]) rest (mkCState t (StackValue p v key ix :: rest) vis s)) →
  ∀ its ψ srcs rest st,
    Forall (λ item, match item with StackValue _ _ _ _ => True | ObjectEnd => False end) its →
    stack st = its ++ rest → winv ψ srcs st → (unseen (visited st) < n)%nat → finishes srcs rest st.
Proof.
  intros Hrun its. induction its as [|item its IH]; intros ψ srcs rest st Hits Hst Hw Hn.
  - exists st, ψ, [], []. by rewrite !app_nil_r.
  - apply Forall_cons_1 in Hits as [Hitem Hits]. destruct item as [p v key ix|]; [|done].
    destruct st as [t stk vis s]. cbn in Hst. subst stk. cbn [visited] in Hn.
    destruct (Hrun ψ srcs t p v key ix (its ++ rest) vis s Hw Hn) as (st1 & ψ1 & more & extra & H1 & H2 & H3 & H4).
    apply (finishes_weaken srcs [v]). eapply finishes_trans; [exact H1|exact H2|exact H3|exact H4|].
    eapply IH; [done|done|done|].
    rewrite H4. cbn [visited]. pose proof (unseen_mono vis extra). lia.
Qed.

Lemma winv_end ψ srcs t rest vis vis' s :
  winv ψ srcs (mkCState t (ObjectEnd :: rest) vis s) → (∀ q, q ∈ vis' → q ∈ vis) →
  winv ψ srcs (mkCState t rest vis' s).
Proof.
  intros [] Hv. cbn in *. split; cbn; try done.
  - by apply Forall_cons_1 in wi_stack0 as [_ ?].
  - intros Ht. specialize (wi_first0 Ht). lia.
  - apply Forall_forall. intros q Hq. rewrite Forall_forall in wi_visited0. by apply wi_visited0, Hv.
Qed.

Lemma run_value n ψ srcs t p v key ix rest vis s :
  winv ψ srcs (mkCState t (StackValue p v key ix :: rest) vis s) → (unseen vis < n)%nat →
  finishes (srcs ++ [v]) rest (mkCState t (StackValue p v key ix :: rest) vis s).
Proof.
  revert ψ srcs t p v key ix rest vis s. induction n as [|n IH]; intros ψ srcs t p v key ix rest vis s Hw Hn; [lia|].
  destruct (visit_ok ψ srcs t p v key ix rest vis s Hw) as (st & ψ' & Hv & Hw' & [[Hs [extra He]]|Hobj]).
  { exists st, ψ', [], extra. rewrite app_nil_r. split_and!; [by apply runs_step|done|done|done]. }
  destruct Hobj as (l & its & -> & Hh & Hnew & Hvis & Hstk & Hits).
  destruct (run_items n IH its ψ' (srcs ++ [GRef l]) (ObjectEnd :: rest) st Hits Hstk Hw')
    as ([t2 stk2 vis2 s2] & ψ2 & more & extra & Hr2 & Hw2 & Hs2 & Hv2).
  { rewrite Hvis. pose proof (unseen_less vis l (length t) Hh Hnew). lia. }
  cbn in Hs2, Hv2. subst stk2. rewrite Hvis, <- (assoc_L (++)) in Hv2. subst vis2.
  exists (mkCState t2 rest (vis ++ take (length extra) ((hash l, length t) :: extra)) s2), ψ2, more,
    (take (length extra) ((hash l, length t) :: extra)).
  split_and!; [|eapply winv_end; [exact Hw2|]|done|reflexivity].
  - etrans; [by apply runs_step|]. etrans; [exact Hr2|]. apply runs_step. cbn. f_equal. f_equal.
    rewrite length_app. cbn. rewrite take_app. f_equal; [|f_equal; lia]. apply take_ge. lia.
  - intros q [Hq|Hq]%elem_of_app; [by apply elem_of_app; left|]. apply elem_of_app. right.
    apply elem_of_take in Hq as (j & Hj & _). by eapply list_elem_of_lookup_2.
Qed.

(** * Folding the tape *)

Definition val_of (tv : TapeValue) : gval :=
  match tv with TapeArray l | TapeObject l => GRef l | TapeVal v => v | TapeCollection _ _ => GUndefined end.

Lemma item_value ψ s tv v : item_ok ψ s tv v → tape_value tv = Ok (val_of tv) ∧ val_rel ψ (val_of tv) v.
Proof.
  destruct tv as [l'|l'|u|]; cbn; [..|done].
  - intros (l & elems & -> & Hl & _). split; [done|]. by exists l.
  - intros (l & props & -> & Hl & _). split; [done|]. by exists l.
  - done.
Qed.

Section Fold.
Context {ψ : gmap gloc gloc} {srcs : list gval} {t : list TapeItem} {vis : list (Z * nat)} {s0 : store}.
Hypothesis Hw : winv ψ srcs (mkCState t [] vis s0).

(** The children of item [i] from position [n] on. *)
Definition kids_from (i n : nat) : list (TapeItem * gval) :=
  filter (λ q, parent q.1 = i) (drop n (zip t srcs)).

Lemma kids_all i it v :
  t !! i = Some it → srcs !! i = Some v →
  (λ q, (q.2, object_key q.1, array_index q.1)) <$> kids_from i 1 = expected (value it) v.
Proof.
  intros H1 H2. rewrite <- (wi_kids _ _ _ Hw i it v H1 H2). cbn. rewrite app_nil_r. unfold kids_from, kids.
  generalize (drop 1 (zip t srcs)). intros l. induction l as [|q l IH]; [done|].
  rewrite filter_cons. cbn. case_decide; cbn; by rewrite ?IH.
Qed.

Lemma kids_split i n : (1 ≤ n)%nat → ∃ pre, kids_from i 1 = pre ++ kids_from i n.
Proof.
  intros Hn. exists (filter (λ q, parent q.1 = i) (take (n - 1) (drop 1 (zip t srcs)))). unfold kids_from.
  rewrite <- filter_app. f_equal. rewrite <- (take_drop (n - 1) (drop 1 (zip t srcs))) at 1. f_equal.
  rewrite drop_drop. f_equal. lia.
Qed.

Lemma kids_step i n it v :
  t !! n = Some it → srcs !! n = Some v →
  kids_from i n = if decide (parent it = i) then (it, v) :: kids_from i (S n) else kids_from i (S n).
Proof.
  intros H1 H2. unfold kids_from. rewrite (drop_S (zip t srcs) (it, v) n); [by rewrite filter_cons|].
  apply lookup_zip_with_Some. by exists it, v.
Qed.

(** What an array or object holds when the items from [n] on are done. *)
Definition elems_at (i n : nat) : list gval :=
  match kids_from i n with
  | [] => []
  | q :: _ => replicate (default 0%nat (array_index q.1)) GUndefined
  end ++ ((λ q, val_of (value q.1)) <$> kids_from i n).
Definition props_at (i n : nat) : list (rstring * gval) :=
  reverse ((λ q, (default [] (object_key q.1), val_of (value q.1))) <$> kids_from i n).

Record finv (n : nat) (s : store) : Prop := {
  fi_sub : h ⊆ cells s;
  fi_array : ∀ i it l, t !! i = Some it → value it = TapeArray l → cells s !! l = Some (GArray (elems_at i n));
  fi_object : ∀ i it l, t !! i = Some it → value it = TapeObject l → cells s !! l = Some (GObject (props_at i n));
  fi_leaf : ∀ l' l, ψ !! l' = Some l → (∀ i it, t !! i = Some it → ¬ holder (value it) l') →
    ∃ c, h !! l = Some c ∧ leaf c ∧ cells s !! l' = Some c;
}.

Lemma src_of i it : t !! i = Some it → ∃ v, srcs !! i = Some v ∧ item_ok ψ s0 (value it) v.
Proof.
  intros Hi. destruct (lookup_lt_is_Some_2 srcs i) as [v Hv].
  { pose proof (wi_len _ _ _ Hw) as Hl. cbn in Hl. rewrite Hl. by eapply lookup_lt_Some. }
  exists v. split; [done|]. by apply (wi_item _ _ _ Hw i).
Qed.

Lemma fold_start : finv (length t) s0.
Proof.
  assert (Hnil : ∀ i, kids_from i (length t) = []).
  { intros i. unfold kids_from. rewrite drop_ge; [done|]. rewrite length_zip_with. lia. }
  split.
  - apply Hw.
  - intros i it l Hi Hv. destruct (src_of i it Hi) as (v & _ & Hok). rewrite Hv in Hok.
    destruct Hok as (? & ? & _ & _ & _ & Hc). unfold elems_at. by rewrite Hnil.
  - intros i it l Hi Hv. destruct (src_of i it Hi) as (v & _ & Hok). rewrite Hv in Hok.
    destruct Hok as (? & ? & _ & _ & _ & Hc). unfold props_at. by rewrite Hnil.
  - intros l' l Hl Hno. destruct (wi_psi _ _ _ Hw l' l Hl) as [_ (i & it & H1 & _ & Hm)]. cbn in *.
    destruct Hm as [Hm|[Hm|(_ & c & Hc1 & Hc2 & Hc3)]]; [destruct (Hno i it H1); by left|destruct (Hno i it H1); by right|].
    by exists c.
Qed.

(** The indices of an array's children are 0, 1, 2, ... *)
Lemma array_kids i it l :
  t !! i = Some it → value it = TapeArray l →
  ∀ m q, kids_from i 1 !! m = Some q → array_index q.1 = Some m.
Proof.
  intros Hi Hv m q Hq. destruct (src_of i it Hi) as (v & Hs & Hok). rewrite Hv in Hok.
  destruct Hok as (l0 & elems & -> & _ & Hh & _). pose proof (kids_all i it _ Hi Hs) as Hk. rewrite Hv in Hk.
  cbn in Hk. rewrite Hh in Hk. apply (f_equal (lookup m)) in Hk. rewrite list_lookup_fmap, Hq, list_lookup_imap in Hk.
  cbn in Hk. destruct (elems !! m); [|done]. cbn in Hk. congruence.
Qed.

(** The keys of an object's children are distinct. *)
Lemma object_kids i it l :
  t !! i = Some it → value it = TapeObject l →
  (∀ q, q ∈ kids_from i 1 → is_Some (object_key q.1)) ∧
  NoDup ((λ q, default [] (object_key q.1)) <$> kids_from i 1).
Proof.
  intros Hi Hv. destruct (src_of i it Hi) as (v & Hs & Hok). rewrite Hv in Hok.
  destruct Hok as (l0 & props & -> & _ & Hh & _). pose proof (kids_all i it _ Hi Hs) as Hk. rewrite Hv in Hk.
  cbn in Hk. rewrite Hh in Hk. destruct (Hsimple _ _ Hh) as [_ Hnd].
  assert (Hkeys : (λ q : TapeItem * gval, object_key q.1) <$> kids_from i 1 = Some <$> reverse props.*1).
  { apply (f_equal (fmap (λ k : gval * option rstring * option nat, k.1.2))) in Hk.
    rewrite <- list_fmap_compose in Hk. rewrite fmap_reverse, <- !list_fmap_compose in Hk. rewrite fmap_reverse, <- list_fmap_compose.
    exact Hk. }
  split.
  - intros q Hq. apply (list_elem_of_fmap_2 (λ q : TapeItem * gval, object_key q.1)) in Hq. rewrite Hkeys in Hq.
    apply list_elem_of_fmap in Hq as (k & Hq & _). cbn in Hq. rewrite Hq. by eexists.
  - assert (He : (λ q : TapeItem * gval, default [] (object_key q.1)) <$> kids_from i 1 = reverse props.*1).
    { transitivity (default [] <$> ((λ q : TapeItem * gval, object_key q.1) <$> kids_from i 1)); [by rewrite <- list_fmap_compose|].
      rewrite Hkeys, <- list_fmap_compose. apply list_fmap_id. }
    by rewrite He, reverse_Permutation.
Qed.

Lemma array_set_step m v vals :
  array_set m v (match vals with [] => [] | _ => replicate (S m) GUndefined ++ vals end) = replicate m GUndefined ++ v :: vals.
Proof.
  unfold array_set. destruct vals as [|u vals].
  - cbn. by rewrite Nat.sub_0_r.
  - rewrite (proj2 (Nat.ltb_lt _ _)) by (rewrite length_app, length_replicate; lia).
    rewrite replicate_S_end, <- (assoc_L (++)). cbn. rewrite insert_app_r_alt by (by rewrite length_replicate).
    by rewrite length_replicate, Nat.sub_diag.
Qed.

Lemma elems_step i n it v up l :
  t !! i = Some up → value up = TapeArray l → (1 ≤ n)%nat →
  t !! n = Some it → srcs !! n = Some v → parent it = i →
  ∃ j, array_index it = Some j ∧ array_set j (val_of (value it)) (elems_at i (S n)) = elems_at i n.
Proof.
  intros Hi Hv Hn Hit Hs Hp. destruct (kids_split i n Hn) as [pre Hpre].
  pose proof (kids_step i n it v Hit Hs) as Hstep. rewrite decide_True in Hstep by done.
  assert (Hix : ∀ m q, kids_from i n !! m = Some q → array_index q.1 = Some (length pre + m)%nat).
  { intros m q Hq. eapply (array_kids i up l Hi Hv). rewrite Hpre, lookup_app_r by lia. rewrite <- Hq. f_equal. lia. }
  rewrite Hstep in Hix. pose proof (Hix 0%nat _ eq_refl) as H0. cbn in H0. rewrite Nat.add_0_r in H0.
  exists (length pre). split; [done|]. unfold elems_at. rewrite Hstep. cbn [fmap list_fmap fst]. rewrite H0. cbn [default].
  rewrite <- array_set_step. f_equal. destruct (kids_from i (S n)) as [|q rest]; [done|].
  pose proof (Hix 1%nat q eq_refl) as H1. rewrite H1. cbn. by rewrite Nat.add_1_r.
Qed.

Lemma props_step i n it v up l :
  t !! i = Some up → value up = TapeObject l → (1 ≤ n)%nat →
  t !! n = Some it → srcs !! n = Some v → parent it = i →
  ∃ key, object_key it = Some key ∧ set_prop key (val_of (value it)) (props_at i (S n)) = props_at i n.
Proof.
  intros Hi Hv Hn Hit Hs Hp. destruct (kids_split i n Hn) as [pre Hpre]. destruct (object_kids i up l Hi Hv) as [Hsome Hnd].
  pose proof (kids_step i n it v Hit Hs) as Hstep. rewrite decide_True in Hstep by done. rewrite Hstep in Hpre.
  destruct (Hsome (it, v)) as [key Hkey]; [rewrite Hpre; apply elem_of_app; right; by left|]. cbn in Hkey.
  exists key. split; [done|]. unfold props_at. rewrite Hstep. cbn [fmap list_fmap fst]. rewrite Hkey. cbn [default].
  rewrite reverse_cons. apply set_prop_fresh. rewrite Hpre, fmap_app in Hnd. apply NoDup_app in Hnd as (_ & _ & Hnd).
  cbn [fmap list_fmap fst] in Hnd. rewrite Hkey in Hnd. cbn in Hnd. apply NoDup_cons in Hnd as [Hnot _].
  rewrite fmap_reverse, elem_of_reverse, <- list_fmap_compose. exact Hnot.
Qed.

Lemma kids_other i n it v : t !! n = Some it → srcs !! n = Some v → parent it ≠ i → kids_from i n = kids_from i (S n).
Proof. intros H1 H2 Hne. rewrite (kids_step i n it v H1 H2). by rewrite decide_False. Qed.

(** The object of an item is changed, and no other. *)
Lemma finv_alter n s it v up l f :
  finv (S n) s → t !! n = Some it → srcs !! n = Some v → t !! parent it = Some up → holder (value up) l →
  (value up = TapeArray l → f (GArray (elems_at (parent it) (S n))) = GArray (elems_at (parent it) n)) →
  (value up = TapeObject l → f (GObject (props_at (parent it) (S n))) = GObject (props_at (parent it) n)) →
  finv n (mkStore (alter f l (cells s)) (next s)).
Proof.
  intros [Hsub Harr Hobj Hleaf] Hit Hv Hup Hhold Hfa Hfo.
  assert (Hother : ∀ i it2 l2, t !! i = Some it2 → holder (value it2) l2 → i ≠ parent it → l2 ≠ l).
  { intros i it2 l2 Hi Hh Hne ->. apply Hne. by eapply (wi_uniq _ _ _ Hw). }
  assert (Hl : h !! l = None).
  { destruct (src_of _ _ Hup) as (u & _ & Hok). assert (Hψ : ∃ l0, ψ !! l = Some l0).
    { destruct Hhold as [Hx|Hx]; rewrite Hx in Hok; destruct Hok as (l0 & ? & _ & ? & _); by exists l0. }
    destruct Hψ as [l0 Hψ]. by apply (wi_psi _ _ _ Hw) in Hψ as [? _]. }
  split; cbn [cells].
  - apply map_subseteq_spec. intros k c Hk. rewrite lookup_alter_ne by congruence. by eapply lookup_weaken.
  - intros i it2 l2 Hi Hv2. destruct (decide (i = parent it)) as [->|Hne].
    + rewrite Hup in Hi. injection Hi as <-. assert (l2 = l) as -> by (destruct Hhold; congruence).
      rewrite lookup_alter_eq, (Harr _ _ _ Hup Hv2). cbn. by rewrite Hfa.
    + rewrite lookup_alter_ne by (symmetry; apply (Hother i it2 l2); [done|by left|done]).
      rewrite (Harr _ _ _ Hi Hv2). unfold elems_at. by rewrite (kids_other i n it v) by done.
  - intros i it2 l2 Hi Hv2. destruct (decide (i = parent it)) as [->|Hne].
    + rewrite Hup in Hi. injection Hi as <-. assert (l2 = l) as -> by (destruct Hhold; congruence).
      rewrite lookup_alter_eq, (Hobj _ _ _ Hup Hv2). cbn. by rewrite Hfo.
    + rewrite lookup_alter_ne by (symmetry; apply (Hother i it2 l2); [done|by right|done]).
      rewrite (Hobj _ _ _ Hi Hv2). unfold props_at. by rewrite (kids_other i n it v) by done.
  - intros l' l0 H1 H2. destruct (Hleaf l' l0 H1 H2) as (c & ? & ? & ?). exists c. split_and!; [done|done|].
    rewrite lookup_alter_ne; [done|]. intros <-. by apply (H2 _ _ Hup).
Qed.

Lemma fold_step n s :
  (1 ≤ n < length t)%nat → finv (S n) s →
  ∃ s', fold_tape (S n) t s = fold_tape n t s' ∧ finv n s'.
Proof.
  intros Hn Hf. destruct (lookup_lt_is_Some_2 t n) as [it Hit]; [lia|].
  destruct (src_of n it Hit) as (v & Hv & Hok). apply item_value in Hok as [Hval _].
  destruct (wi_parent _ _ _ Hw n it Hit) as [?|Hpn]; [lia|].
  destruct (lookup_lt_is_Some_2 t (parent it)) as [up Hup]; [lia|].
  assert (Hin : (it, v) ∈ kids_from (parent it) 1).
  { destruct (kids_split (parent it) n) as [pre ->]; [lia|]. apply elem_of_app. right.
    rewrite (kids_step _ n it v Hit Hv), decide_True by done. by left. }
  cbn [fold_tape]. rewrite Hit. cbn [or_panic mbind res_bind]. rewrite Hval. cbn [mbind res_bind].
  destruct n as [|n']; [lia|]. set (n := S n') in *. rewrite lookup_take_lt by lia. rewrite Hup. cbn [or_panic mbind res_bind].
  destruct (value up) as [l|l|u|] eqn:Hvu.
  - destruct (elems_step _ n it v up l Hup Hvu ltac:(lia) Hit Hv eq_refl) as (j & Hj & Hset). rewrite Hj.
    eexists. split; [reflexivity|]. eapply (finv_alter n s it v up l); try done; [by left|by rewrite Hset|congruence].
  - destruct (props_step _ n it v up l Hup Hvu ltac:(lia) Hit Hv eq_refl) as (key & Hk & Hset). rewrite Hk.
    eexists. split; [reflexivity|]. eapply (finv_alter n s it v up l); try done; [by right|congruence|by rewrite Hset].
  - exfalso. destruct (src_of _ _ Hup) as (u' & Hu' & _). pose proof (kids_all _ _ _ Hup Hu') as Hk.
    rewrite Hvu in Hk. cbn in Hk. destruct (kids_from (parent it) 1); [by apply elem_of_nil in Hin|done].
  - destruct (src_of _ _ Hup) as (u' & _ & Hok). by rewrite Hvu in Hok.
Qed.

Lemma fold_all n s :
  (1 ≤ n ≤ length t)%nat → finv n s →
  ∃ it s', t !! 0%nat = Some it ∧ fold_tape n t s = Ok (val_of (value it), s') ∧ finv 1 s'.
Proof.
  intros Hn. revert s. induction n as [|n IH]; intros s Hf; [lia|]. destruct n as [|n].
  - destruct (lookup_lt_is_Some_2 t 0) as [it Hit]; [lia|]. destruct (src_of _ _ Hit) as (v & _ & Hok).
    apply item_value in Hok as [Hval _]. exists it, s. split_and!; [done| |done].
    cbn. rewrite Hit. cbn. by rewrite Hval.
  - destruct (fold_step (S n) s ltac:(lia) Hf) as (s1 & -> & Hf1). apply IH; [lia|done].
Qed.

(** When the tape is folded, every new object is a copy of its source. *)
Lemma array_copied i it l' l elems :
  t !! i = Some it → value it = TapeArray l' → srcs !! i = Some (GRef l) → h !! l = Some (GArray elems) →
  Forall2 (val_rel ψ) (elems_at i 1) elems.
Proof.
  intros Hi Hv Hs Hh. pose proof (kids_all i it _ Hi Hs) as Hk. rewrite Hv in Hk. cbn in Hk. rewrite Hh in Hk.
  apply (f_equal (fmap (λ k : gval * option rstring * option nat, k.1.1))) in Hk.
  rewrite <- list_fmap_compose, fmap_imap in Hk. assert (He : imap (λ (_ : nat) (e : gval), e) elems = elems).
  { clear. induction elems as [|e elems IH] using rev_ind; [done|]. by rewrite imap_app, IH. }
  unfold compose in Hk. cbn in Hk. rewrite He in Hk. rewrite <- Hk.
  assert (Hel : elems_at i 1 = (λ q, val_of (value q.1)) <$> kids_from i 1).
  { unfold elems_at. destruct (kids_from i 1) as [|q ks] eqn:Hks; [done|].
    rewrite (array_kids i it l' Hi Hv 0%nat q) by (by rewrite Hks). done. }
  rewrite Hel. apply Forall2_fmap, Forall_Forall2_diag, Forall_forall. intros [it2 v2] Hq.
  apply list_elem_of_filter in Hq as [_ Hq]. apply list_elem_of_lookup in Hq as [m Hq]. rewrite lookup_drop in Hq.
  apply lookup_zip_with_Some in Hq as (a & b & [= -> ->] & Ha & Hb).
  destruct (src_of _ a Ha) as (u & Hu & Hok). rewrite Hb in Hu. injection Hu as <-. by eapply item_value.
Qed.

Lemma object_copied i it l' l props :
  t !! i = Some it → value it = TapeObject l' → srcs !! i = Some (GRef l) → h !! l = Some (GObject props) →
  Forall2 (prop_rel ψ) (props_at i 1) props.
Proof.
  intros Hi Hv Hs Hh. pose proof (kids_all i it _ Hi Hs) as Hk. rewrite Hv in Hk. cbn in Hk. rewrite Hh in Hk.
  apply (f_equal (fmap (λ k : gval * option rstring * option nat, (default [] k.1.2, k.1.1)))) in Hk.
  rewrite <- list_fmap_compose, fmap_reverse, <- list_fmap_compose in Hk. apply (f_equal reverse) in Hk.
  rewrite reverse_involutive in Hk. assert (He : ∀ f, (∀ p, f p = p) → f <$> props = props).
  { intros f Hf. clear -Hf. induction props as [|p props IH]; cbn; [done|]. by rewrite Hf, IH. }
  rewrite He in Hk by (by intros []). rewrite <- Hk. unfold props_at.
  rewrite <- !fmap_reverse. apply Forall2_fmap, Forall_Forall2_diag, Forall_forall. intros [it2 v2] Hq.
  rewrite elem_of_reverse in Hq. apply list_elem_of_filter in Hq as [_ Hq]. apply list_elem_of_lookup in Hq as [m Hq]. rewrite lookup_drop in Hq.
  apply lookup_zip_with_Some in Hq as (a & b & [= -> ->] & Ha & Hb).
  destruct (src_of _ a Ha) as (u & Hu & Hok). rewrite Hb in Hu. injection Hu as <-.
  split; [done|]. by eapply item_value.
Qed.

Lemma fold_copies s v it :
  t !! 0%nat = Some it → srcs !! 0%nat = Some v → finv 1 s → copy_of h v (cells s) (val_of (value it)).
Proof.
  intros Hit Hv [Hsub Harr Hobj Hleaf]. exists ψ. split.
  { destruct (src_of _ _ Hit) as (u & Hu & Hok). rewrite Hv in Hu. injection Hu as <-. by eapply item_value. }
  intros l' l Hl. destruct (wi_psi _ _ _ Hw l' l Hl) as [Hno (i & it2 & Hi & Hs & Hm)]. cbn in Hi. split; [done|].
  pose proof (wi_item _ _ _ Hw i it2 _ Hi Hs) as Hok. destruct Hm as [Hm|[Hm|(Hm & c & Hc & Hc' & Hlf)]].
  - rewrite Hm in Hok. destruct Hok as (l0 & elems & [= <-] & _ & Hh & _).
    exists (GArray elems), (GArray (elems_at i 1)). split_and!; [done|by eapply Harr|by eapply array_copied].
  - rewrite Hm in Hok. destruct Hok as (l0 & props & [= <-] & _ & Hh & _).
    exists (GObject props), (GObject (props_at i 1)). split_and!; [done|by eapply Hobj|by eapply object_copied].
  - destruct (Hleaf l' l Hl) as (c2 & Hc2 & _ & Hc3).
    + intros j jt Hj Hhold. destruct (src_of _ _ Hj) as (u & _ & Hok2). pose proof (item_holder _ _ _ _ _ Hok2 Hhold) as _.
      destruct Hhold as [Hx|Hx]; rewrite Hx in Hok2; destruct Hok2 as (? & ? & _ & _ & _ & Hc4); cbn in Hc';
        rewrite Hc' in Hc4; injection Hc4 as ->; done.
    + exists c, c. rewrite Hc in Hc2. injection Hc2 as <-. split_and!; [done|done|]. by destruct c.
Qed.
End Fold.
End Walk.


(** * Instances and defects *)

(** An object that contains itself and, twice, an array with a date. *)
Definition tangle : store :=
  mkStore {[1%positive := GObject [([97], GRef 1); ([98], GRef 2); ([99], GRef 2)];
            2%positive := GArray [GNumber 0; GRef 3; GRef 1];
            3%positive := GDate 7]} 4.


(** A clone of [GRef 1] in heap [h], and the objects at [locs] after it. *)
Definition clone_cells (h : graph) (transfer : list gloc) (next : gloc) (locs : list gloc) :
    res clone_error (gval * list (option gcell)) :=
  '(v, s) ← structured_clone Zpos 100 transfer (GRef 1) (mkStore h next);
  Ok (v, (λ l, cells s !! l) <$> locs).

(** An array shared by two elements is copied twice. *)
Example sharing_lost :
  clone_cells {[1%positive := GArray [GRef 2; GRef 2]; 2%positive := GArray []]} [] 3 [3; 4; 5]%positive =
  Ok (GRef 3, [Some (GArray [GRef 4; GRef 5]); Some (GArray []); Some (GArray [])]).
Proof. vm_compute. reflexivity. Qed.

(** A buffer becomes an object without properties, unless it is transferred. *)
Example buffer_lost :
  clone_cells {[1%positive := GArrayBuffer [1; 2; 3]]} [] 2 [2%positive] = Ok (GRef 2, [Some (GObject [])]) ∧
  clone_cells {[1%positive := GArrayBuffer [1; 2; 3]]} [1%positive] 2 [1; 2]%positive =
    Ok (GRef 2, [Some (GArrayBuffer []); Some (GArrayBuffer [1; 2; 3])]).
Proof. vm_compute. split; reflexivity. Qed.

(** The message of an error is lost. *)
Example error_message_lost :
  clone_cells {[1%positive := GError [111; 111; 112; 115] []]} [] 2 [2%positive] = Ok (GRef 2, [Some (GError [] [])]).
Proof. vm_compute. reflexivity. Qed.

(** A set that contains itself panics. *)
Example cyclic_set_panics : clone_cells {[1%positive := GSet [GRef 1]]} [] 2 [] = Panic.
Proof. vm_compute. reflexivity. Qed.

(** Sets and maps are copied. *)
Example collections_copied :
  clone_cells {[1%positive := GMap [(GNumber 1, GRef 2)]; 2%positive := GSet [GNull; GNumber 2]]} [] 3 [9; 10]%positive =
  Ok (GRef 10, [Some (GSet [GNull; GNumber 2]); Some (GMap [(GNumber 1, GRef 9)])]).
Proof. vm_compute. reflexivity. Qed.
