(* ===== verification/Effects.v ===== *)
(** Code that changes a state, throws JavaScript exceptions and can fail in
    ways the program does not survive: the monad the emitter and the web
    streams are written in, and weakest preconditions for it. *)

From S2P Require Import Prelude.

(** A call returns, throws, or ends in a fault (a Rust panic, a deadlock); the
    state it leaves is part of the result in every case. *)
Inductive outcome (E F A : Type) := Returns (a : A) | Throws (e : E) | Fault (f : F).
Arguments Returns {E F A} a.
Arguments Throws {E F A} e.
Arguments Fault {E F A} f.

Definition M (W E F A : Type) : Type := W → W * outcome E F A.

Section Monad.
Context {W E F : Type}.

Definition ret {A} (a : A) : M W E F A := λ w, (w, Returns a).
Definition throw {A} (e : E) : M W E F A := λ w, (w, Throws e).
Definition panic {A} (f : F) : M W E F A := λ w, (w, Fault f).
Definition lift {A} (o : outcome E F A) : M W E F A := λ w, (w, o).
Definition bind {A B} (m : M W E F A) (k : A → M W E F B) : M W E F B := λ w,
  match m w with
  | (w, Returns a) => k a w
  | (w, Throws e) => (w, Throws e)
  | (w, Fault f) => (w, Fault f)
  end.
Definition gets {A} (f : W → A) : M W E F A := λ w, (w, Returns (f w)).
Definition modify (f : W → W) : M W E F () := λ w, (f w, Returns ()).

(** An exception as a value. *)
Definition catch {A} (m : M W E F A) : M W E F (E + A) := λ w,
  match m w with
  | (w, Returns a) => (w, Returns (inr a))
  | (w, Throws e) => (w, Returns (inl e))
  | (w, Fault f) => (w, Fault f)
  end.

(** The value of an option, or a fault. *)
Definition expect {A} (f : F) (o : option A) : M W E F A :=
  match o with Some a => ret a | None => panic f end.

(** [m], then [fin] whether [m] returned or threw. *)
Definition finally {A} (m : M W E F A) (fin : W → W) : M W E F A := λ w,
  match m w with
  | (w, Fault f) => (w, Fault f)
  | (w, r) => (fin w, r)
  end.

Definition when (b : bool) (m : M W E F ()) : M W E F () := if b then m else ret ().
End Monad.

Declare Scope effect_scope.
Notation "'let!' x := m 'in' k" := (bind m (λ x, k))
  (at level 200, x name, m at level 100, k at level 200) : effect_scope.
Notation "m ;! k" := (bind m (λ _, k)) (at level 199, right associativity) : effect_scope.
Open Scope effect_scope.

(** * Weakest preconditions *)

Definition wp {W E F A} (m : M W E F A) (Q : outcome E F A → W → Prop) (w : W) : Prop :=
  Q (m w).2 (m w).1.

Section Wp.
Context {W E F : Type}.
Implicit Types w : W.

Lemma wp_ret {A} (a : A) (Q : outcome E F A → W → Prop) w : Q (Returns a) w → wp (ret a) Q w.
Proof. done. Qed.
Lemma wp_throw {A} e (Q : outcome E F A → W → Prop) w : Q (Throws e) w → wp (throw e) Q w.
Proof. done. Qed.
Lemma wp_gets {A} (f : W → A) (Q : outcome E F A → W → Prop) w : Q (Returns (f w)) w → wp (gets f) Q w.
Proof. done. Qed.
Lemma wp_modify f (Q : outcome E F () → W → Prop) w : Q (Returns ()) (f w) → wp (modify f) Q w.
Proof. done. Qed.

(** What a [bind] does with each outcome of its first part. *)
Definition then_ {A B} (k : A → M W E F B) (Q : outcome E F B → W → Prop) (r : outcome E F A) w : Prop :=
  match r with
  | Returns a => wp (k a) Q w
  | Throws e => Q (Throws e) w
  | Fault f => Q (Fault f) w
  end.

Lemma wp_bind {A B} (m : M W E F A) (k : A → M W E F B) Q w : wp m (then_ k Q) w → wp (bind m k) Q w.
Proof. unfold wp, bind, then_. by destruct (m w) as [w' []]. Qed.

Lemma wp_assoc {A B C} (m : M W E F A) (k : A → M W E F B) (l : B → M W E F C) Q w :
  wp (bind (bind m k) l) Q w → wp (bind m (λ a, bind (k a) l)) Q w.
Proof. unfold wp, bind. by destruct (m w) as [w' []]. Qed.

Lemma wp_mono {A} (m : M W E F A) (Q Q' : outcome E F A → W → Prop) w :
  wp m Q w → (∀ r w', Q r w' → Q' r w') → wp m Q' w.
Proof. unfold wp. auto. Qed.

Lemma wp_seq {A B} (m : M W E F A) (k : A → M W E F B) (R : outcome E F A → W → Prop) Q w :
  wp m R w → (∀ r w', R r w' → then_ k Q r w') → wp (bind m k) Q w.
Proof. intros Hm Hk. apply wp_bind. by eapply wp_mono. Qed.

Lemma wp_expect {A} f (o : option A) a (Q : outcome E F A → W → Prop) w :
  o = Some a → Q (Returns a) w → wp (expect f o) Q w.
Proof. by intros ->. Qed.

Lemma wp_finally {A} (m : M W E F A) fin (Q : outcome E F A → W → Prop) w :
  wp m (λ r w', match r with Fault f => Q (Fault f) w' | _ => Q r (fin w') end) w →
  wp (finally m fin) Q w.
Proof. unfold wp, finally. by destruct (m w) as [w' []]. Qed.

Lemma wp_catch {A} (m : M W E F A) (Q : outcome E F (E + A) → W → Prop) w :
  wp m (λ r w', match r with
    | Returns a => Q (Returns (inr a)) w'
    | Throws e => Q (Returns (inl e)) w'
    | Fault f => Q (Fault f) w'
    end) w →
  wp (catch m) Q w.
Proof. unfold wp, catch. by destruct (m w) as [w' []]. Qed.

Lemma bind_returns {A B} (m : M W E F A) (k : A → M W E F B) w w' a :
  m w = (w', Returns a) → bind m k w = k a w'.
Proof. intros H. unfold bind. by rewrite H. Qed.

(** ** Calls that return, and calls that do not fault *)

Definition returns {A} (Q : A → W → Prop) (r : outcome E F A) (w : W) : Prop :=
  match r with Returns a => Q a w | _ => False end.
Definition safe {A} (Q : W → Prop) (r : outcome E F A) (w : W) : Prop :=
  match r with Fault _ => False | _ => Q w end.

Lemma wp_then {A B} (m : M W E F A) (k : A → M W E F B) (R : A → W → Prop) Q w :
  wp m (returns R) w → (∀ a w', R a w' → wp (k a) Q w') → wp (bind m k) Q w.
Proof. intros Hm Hk. eapply wp_seq; [done|]. intros [] w'; simpl; try done. auto. Qed.

Lemma wp_then_safe {A B} (m : M W E F A) (k : A → M W E F B) (P P' : W → Prop) w :
  wp m (safe P) w → (∀ w', P w' → P' w') → (∀ a w', P w' → wp (k a) (safe P') w') →
  wp (bind m k) (safe P') w.
Proof. intros Hm HP Hk. eapply wp_seq; [done|]. intros [] w'; simpl; auto. Qed.

Lemma wp_catch_safe {A} (m : M W E F A) (P : W → Prop) w :
  wp m (safe P) w → wp (catch m) (returns (λ _, P)) w.
Proof. intros Hm. apply wp_catch. eapply wp_mono; [done|]. by intros []. Qed.

Lemma wp_returns {A} (m : M W E F A) (Q : A → W → Prop) (R : outcome E F A → W → Prop) w :
  wp m (returns Q) w → (∀ a w', Q a w' → R (Returns a) w') → wp m R w.
Proof. intros Hm HR. eapply wp_mono; [done|]. intros []; simpl; naive_solver. Qed.

Lemma wp_bind_gets {A B} (f : W → A) (k : A → M W E F B) Q w : wp (k (f w)) Q w → wp (bind (gets f) k) Q w.
Proof. done. Qed.
Lemma wp_bind_modify {B} f (k : () → M W E F B) Q w : wp (k ()) Q (f w) → wp (bind (modify f) k) Q w.
Proof. done. Qed.
Lemma wp_bind_expect {A B} f (o : option A) (k : A → M W E F B) a Q w :
  o = Some a → wp (k a) Q w → wp (bind (expect f o) k) Q w.
Proof. by intros ->. Qed.
Lemma wp_bind_ret {A B} (a : A) (k : A → M W E F B) Q w : wp (k a) Q w → wp (bind (ret a) k) Q w.
Proof. done. Qed.
Lemma wp_when (b : bool) (m : M W E F ()) Q w :
  (b = true → wp m Q w) → (b = false → Q (Returns ()) w) → wp (when b m) Q w.
Proof. destruct b; intros H1 H2; [by apply H1|by apply H2]. Qed.

(** * Invariants *)

(** [m] keeps [P] and does not fault in a way [bad] forbids, whether it returns
    or throws. *)
Definition fine (P : W → Prop) (bad : F → Prop) {A} (r : W * outcome E F A) : Prop :=
  P r.1 ∧ ∀ f, r.2 = Fault f → ¬ bad f.
Definition good (P : W → Prop) (bad : F → Prop) {A} (m : M W E F A) : Prop :=
  ∀ w, P w → fine P bad (m w).

Lemma good_ret P bad {A} (a : A) : good P bad (ret a).
Proof. by intros w HP. Qed.
Lemma good_throw P bad {A} e : good P bad (throw (A:=A) e).
Proof. by intros w HP. Qed.
Lemma good_gets P bad {A} (f : W → A) : good P bad (gets f).
Proof. by intros w HP. Qed.
Lemma good_modify P bad f : (∀ w, P w → P (f w)) → good P bad (modify f).
Proof. intros H w HP. split; [by apply H|done]. Qed.
Lemma good_if P bad {A} (b : bool) (m n : M W E F A) :
  good P bad m → good P bad n → good P bad (if b then m else n).
Proof. by destruct b. Qed.

Lemma good_bind P bad {A B} (m : M W E F A) (k : A → M W E F B) :
  good P bad m → (∀ a, good P bad (k a)) → good P bad (bind m k).
Proof.
  intros Hm Hk w HP. unfold bind. destruct (Hm w HP) as [H1 H2].
  destruct (m w) as [w' []]; simpl in *; [by apply Hk|done|]. split; [done|]. naive_solver.
Qed.

Lemma good_catch P bad {A} (m : M W E F A) : good P bad m → good P bad (catch m).
Proof.
  intros Hm w HP. unfold catch. destruct (Hm w HP) as [H1 H2].
  destruct (m w) as [w' []]; simpl in *; try done. split; [done|]. naive_solver.
Qed.
End Wp.
