(* ===== verification/StreamQueue.v ===== *)
(** The queue with sizes and the queuing strategies the web streams share
    ([modules/raster_runtime_stream_web/src/utils/queue.rs] and
    [queuing_strategy/mod.rs]).

    Sizes are IEEE doubles ([f64] of [Numbers]).  What a JavaScript value is as
    a number ([Value::as_number]) is an [option f64]. *)

From Stdlib Require Import SpecFloat.
From S2P Require Import Prelude Numbers Effects.

(** * Values and promises *)

(** JavaScript values.  [CloseSentinel] is [Symbol.for('close sentinel')], the
    value the controller of a [WritableStream] queues for a close. *)
Inductive val :=
  | Undefined
  | CloseSentinel
  | Prim (n : nat)
  | Obj (n : nat)
  | TypeError (msg : list Z)
  | RangeError (msg : list Z)
  | AbortError
  | StackOverflow.

#[export] Instance val_eq_dec : EqDecision val.
Proof. solve_decision. Defined.

Definition is_object (v : val) : bool :=
  match v with Undefined | CloseSentinel | Prim _ => false | _ => true end.

(** A promise with its resolving functions, when it has them. *)
Record ResolveablePromise := mkRP { promise : nat; resolvers : bool }.

Definition fzero : f64 := S754_zero false.
Definition fone : f64 := f_of_Z 1.
Definition is_nan (x : f64) : bool := match x with S754_nan => true | _ => false end.
Definition is_infinite (x : f64) : bool := match x with S754_infinity _ => true | _ => false end.

(** * Sizes and strategies *)

(** A size is what the strategy's function returned, or a number of ours. *)
Inductive SizeValue := Value (as_num : option f64) | Native (size : f64).

Definition as_number (s : SizeValue) : option f64 :=
  match s with Value v => v | Native size => Some size end.

(** [SizeValue::from_js]. *)
Definition size_from_js (v : option f64) : SizeValue :=
  match v with Some size => Native size | None => Value None end.

Inductive NativeSizeFunction := ByteLength | Count.

(** [Js f]: a function of the user's, by its identity. *)
Inductive SizeFunction := Js (f : nat) | NativeFn (f : NativeSizeFunction).
Inductive SizeAlgorithm := AlwaysOne | Size (f : SizeFunction).

(** The strategy object: [highWaterMark] when it has one, as a number, and
    [size]. *)
Record QueuingStrategy := mkStrategy {
  high_water_mark : option (option f64);
  size_function : option SizeFunction
}.

Definition extract_size_algorithm (this : option QueuingStrategy) : SizeAlgorithm :=
  match this ≫= size_function with
  | None => AlwaysOne
  | Some size => Size size
  end.

(** [None]: a [RangeError]. *)
Definition extract_high_water_mark (this : option QueuingStrategy) (default_hwm : f64) :
    option f64 :=
  match this with
  | None => Some default_hwm
  | Some (mkStrategy (Some hwm) _) =>
      let hwm := default S754_nan hwm in
      if is_nan hwm || SFltb hwm fzero then None else Some hwm
  | Some _ => Some default_hwm
  end.

(** [SizeAlgorithm::call]: [size] calls a function of the user's, [byte_length]
    reads the property of a chunk. *)
Section Call.
Context {W F : Type} (size_call : nat → val → M W val F (option f64))
  (byte_length : val → M W val F (option f64)).

Definition size_algorithm_call (a : SizeAlgorithm) (chunk : val) : M W val F SizeValue :=
  match a with
  | AlwaysOne | Size (NativeFn Count) => ret (Native fone)
  | Size (Js f) => let! r := size_call f chunk in ret (size_from_js r)
  | Size (NativeFn ByteLength) =>
      if is_object chunk then let! r := byte_length chunk in ret (size_from_js r)
      else throw (TypeError (bs "ByteLengthQueuingStrategy argument 'chunk' must be an object"))
  end.
End Call.

(** * The queue *)

Section Queue.
Context {V : Type}.

Record ValueWithSize := mkSized { value : V; size : f64 }.

Record QueueWithSizes := mkQueue {
  queue : list ValueWithSize;
  queue_total_size : f64
}.

Definition new_queue : QueueWithSizes := mkQueue [] fzero.

Definition is_non_negative_number (v : SizeValue) : option f64 :=
  number ← as_number v;
  if is_nan number then None
  else if SFltb number fzero then None
  else Some number.

(** [None]: a [RangeError], the queue is as it was. *)
Definition enqueue_value_with_size (v : V) (s : SizeValue) (q : QueueWithSizes) :
    option QueueWithSizes :=
  match is_non_negative_number s with
  | None => None
  | Some s =>
      if is_infinite s then None
      else Some (mkQueue (queue q ++ [mkSized v s]) (fadd (queue_total_size q) s))
  end.

(** [None]: the panic on an empty queue. *)
Definition dequeue_value (q : QueueWithSizes) : option (V * QueueWithSizes) :=
  match queue q with
  | [] => None
  | vs :: rest =>
      let total := fsub (queue_total_size q) (size vs) in
      Some (value vs, mkQueue rest (if SFltb total fzero then fzero else total))
  end.

Definition reset_queue (q : QueueWithSizes) : QueueWithSizes := mkQueue [] fzero.
End Queue.
Arguments ValueWithSize V : clear implicits.
Arguments QueueWithSizes V : clear implicits.
