(* ===== verification/WritableStream.v ===== *)
(** [WritableStream] and its default controller and writer
    ([modules/raster_runtime_stream_web/src/writable/], with [utils/promise.rs]
    and [AbortController::abort]).

    The state is one stream with its controller and every writer made for it.
    The JavaScript the stream calls (the sink's functions, the strategy's
    [size], the listeners of the abort signal) is a parameter: scripts that call
    back into the stream, its controller and its writers, and may read the whole
    state.  A promise is an index into a store of promise states; a reaction
    registered with [upon_promise] waits in a list until the environment lets it
    run.  Native methods hold the stream, its controller and a writer borrowed
    (one flag) and give them up around JavaScript. *)

From S2P Require Import Prelude Numbers Effects StreamQueue.
From Stdlib Require Import SpecFloat.

(** * Data *)

(** The states of a promise; a request's is fulfilled with undefined. *)
Inductive pstate := Pending | Fulfilled | Rejected (reason : val).

Inductive WritableStreamState := Writable | Closed | Erroring (e : val) | Errored (e : val).

Record PendingAbortRequest := mkAbortRequest {
  abort_promise : ResolveablePromise;
  abort_reason : val;
  was_already_erroring : bool
}.

(** [writer]: the index of the writer the stream is locked to. *)
Record WritableStream := mkStream {
  backpressure : bool;
  close_request : option ResolveablePromise;
  in_flight_write_request : option ResolveablePromise;
  in_flight_close_request : option ResolveablePromise;
  pending_abort_request : option PendingAbortRequest;
  state : WritableStreamState;
  writer : option nat;
  write_requests : list ResolveablePromise
}.

Inductive SinkAlgorithm := ReturnPromiseUndefined | Function.

Record AbortSignal := mkSignal { aborted : bool; signal_reason : option val }.

Record Controller := mkController {
  abort_algorithm : option SinkAlgorithm;
  close_algorithm : option SinkAlgorithm;
  container : QueueWithSizes val;
  started : bool;
  strategy_hwm : f64;
  strategy_size_algorithm : option SizeAlgorithm;
  abort_controller : AbortSignal;
  write_algorithm : option SinkAlgorithm
}.

(** [attached]: [writer.stream] is there. *)
Record Writer := mkWriter {
  ready_promise : ResolveablePromise;
  closed_promise : ResolveablePromise;
  attached : bool
}.

(** What [upon_promise] waits for, with what its closure captured: the writer
    of the [objects] it was made with, or the abort request. *)
Inductive reaction_kind :=
  | UponStart
  | UponWrite (captured : option nat)
  | UponClose (captured : option nat)
  | UponAbort (request : PendingAbortRequest).

(** [settled]: how the promise is known to settle (one the stream itself made);
    [None] when it is up to the sink. *)
Record reaction := mkReaction { kind : reaction_kind; settled : option (val + ()) }.

(** What happened between the stream and its sink, for the statements about the
    order of things: the chunks [write] queued, the promises made for requests,
    the calls of the sink's functions and the ends of its operations. *)
Inductive entry :=
  | Requested (p : nat)
  | Accepted (chunk : val)
  | SinkWrite (chunk : val)
  | SinkClose
  | SinkAbort (reason : val)
  | StartDone (ok : bool)
  | WriteDone (ok : bool)
  | CloseDone (ok : bool).

Record world := mkWorld {
  stream : WritableStream;
  controller : Controller;
  writers : list Writer;
  promises : list pstate;
  reactions : list reaction;
  borrowed : bool;
  log : list entry
}.

(** Rust panics: the [expect]s of the source, the [panic!] of
    [writable_stream_deal_with_rejection], and a borrow of what is borrowed. *)
Inductive fault :=
  | NoWriteRequest
  | NoCloseRequest
  | NoInFlightWrite
  | NoInFlightClose
  | EmptyQueue
  | WriteAlgorithmCleared
  | CloseAlgorithmCleared
  | AbortAlgorithmCleared
  | NotWritableOrErroring
  | AlreadyBorrowed.

Notation M := (Effects.M world val fault).

(** ** Field updates *)

Definition set_backpressure b s := mkStream b (close_request s) (in_flight_write_request s)
  (in_flight_close_request s) (pending_abort_request s) (state s) (writer s) (write_requests s).
Definition set_close_request r s := mkStream (backpressure s) r (in_flight_write_request s)
  (in_flight_close_request s) (pending_abort_request s) (state s) (writer s) (write_requests s).
Definition set_in_flight_write r s := mkStream (backpressure s) (close_request s) r
  (in_flight_close_request s) (pending_abort_request s) (state s) (writer s) (write_requests s).
Definition set_in_flight_close r s := mkStream (backpressure s) (close_request s)
  (in_flight_write_request s) r (pending_abort_request s) (state s) (writer s) (write_requests s).
Definition set_pending_abort r s := mkStream (backpressure s) (close_request s)
  (in_flight_write_request s) (in_flight_close_request s) r (state s) (writer s) (write_requests s).
Definition set_state st s := mkStream (backpressure s) (close_request s)
  (in_flight_write_request s) (in_flight_close_request s) (pending_abort_request s) st (writer s)
  (write_requests s).
Definition set_writer i s := mkStream (backpressure s) (close_request s)
  (in_flight_write_request s) (in_flight_close_request s) (pending_abort_request s) (state s) i
  (write_requests s).
Definition set_write_requests l s := mkStream (backpressure s) (close_request s)
  (in_flight_write_request s) (in_flight_close_request s) (pending_abort_request s) (state s)
  (writer s) l.

Definition set_container q c := mkController (abort_algorithm c) (close_algorithm c) q (started c)
  (strategy_hwm c) (strategy_size_algorithm c) (abort_controller c) (write_algorithm c).
Definition set_started b c := mkController (abort_algorithm c) (close_algorithm c) (container c) b
  (strategy_hwm c) (strategy_size_algorithm c) (abort_controller c) (write_algorithm c).
Definition set_signal s c := mkController (abort_algorithm c) (close_algorithm c) (container c)
  (started c) (strategy_hwm c) (strategy_size_algorithm c) s (write_algorithm c).

Definition on_stream f w := mkWorld (f (stream w)) (controller w) (writers w) (promises w)
  (reactions w) (borrowed w) (log w).
Definition on_controller f w := mkWorld (stream w) (f (controller w)) (writers w) (promises w)
  (reactions w) (borrowed w) (log w).
Definition on_writers f w := mkWorld (stream w) (controller w) (f (writers w)) (promises w)
  (reactions w) (borrowed w) (log w).
Definition on_promises f w := mkWorld (stream w) (controller w) (writers w) (f (promises w))
  (reactions w) (borrowed w) (log w).
Definition on_reactions f w := mkWorld (stream w) (controller w) (writers w) (promises w)
  (f (reactions w)) (borrowed w) (log w).
Definition set_borrowed b w := mkWorld (stream w) (controller w) (writers w) (promises w)
  (reactions w) b (log w).
Definition record e w := mkWorld (stream w) (controller w) (writers w) (promises w)
  (reactions w) (borrowed w) (log w ++ [e]).

(** * Promises ([utils/promise.rs]) *)

(** The promise every runtime makes once ([promise_resolved_with_undefined]) is
    the first of the store. *)
Definition promise_resolved_with_undefined : nat := 0.
Definition resolved_with_undefined : ResolveablePromise :=
  mkRP promise_resolved_with_undefined false.

Definition make_promise (s : pstate) : M nat :=
  let! p := gets (λ w, length (promises w)) in
  modify (on_promises (λ ps, ps ++ [s])) ;!
  ret p.

Definition new_promise : M ResolveablePromise :=
  let! p := make_promise Pending in ret (mkRP p true).

Definition promise_rejected_with (v : val) : M nat := make_promise (Rejected v).

Definition promise_rejected_with_constructor (msg : list Z) : M nat :=
  promise_rejected_with (TypeError msg).

Definition rejected_with (v : val) : M ResolveablePromise :=
  let! p := promise_rejected_with v in ret (mkRP p false).

(** A promise settles once. *)
Definition settle (s : pstate) (p : ResolveablePromise) (w : world) : world :=
  if resolvers p then
    on_promises (alter (λ old, match old with Pending => s | _ => old end) (promise p)) w
  else w.
Definition resolve_undefined (p : ResolveablePromise) : M () := modify (settle Fulfilled p).
Definition reject (p : ResolveablePromise) (v : val) : M () := modify (settle (Rejected v) p).

Definition is_pending (p : ResolveablePromise) (w : world) : bool :=
  match promises w !! promise p with Some Pending => true | _ => false end.

(** [upon_promise]. *)
Definition upon_promise (k : reaction_kind) (s : option (val + ())) : M () :=
  modify (on_reactions (λ l, l ++ [mkReaction k s])).

(** * JavaScript *)

(** The functions of the user the stream calls. *)
Inductive ucall :=
  | CallStart
  | CallWrite (chunk : val)
  | CallClose
  | CallAbort (reason : val)
  | CallSize (f : nat) (chunk : val)
  | GetByteLength (chunk : val)
  | AbortListeners.

(** What JavaScript can do with the stream, its controller and writer [i]. *)
Inductive cmd :=
  | Locked
  | Abort (reason : option val)
  | Close
  | GetWriter
  | WriterDesiredSize (i : nat)
  | WriterAbort (i : nat) (reason : option val)
  | WriterClose (i : nat)
  | WriterReleaseLock (i : nat)
  | WriterWrite (i : nat) (chunk : option val)
  | ControllerError (e : option val).

Inductive reply :=
  | RBool (b : bool)
  | RPromise (p : nat)
  | RWriter (i : nat)
  | RSize (d : option f64)
  | RUnit
  | RThrown (e : val).

(** A function of the user: it ends with what its result is as a number, or
    throws, after calls into the stream. *)
Inductive script :=
  | Return (as_num : option f64)
  | Throw (e : val)
  | Call (c : cmd) (k : reply → script).

(** * Operations *)

Definition is_some {A} (o : option A) : bool := match o with Some _ => true | None => false end.

Definition ended (s : WritableStreamState) : bool :=
  match s with Closed | Errored _ => true | _ => false end.
Definition is_writable (s : WritableStreamState) : bool :=
  match s with Writable => true | _ => false end.

Definition stored_error (s : WritableStream) : option val :=
  match state s with Erroring e | Errored e => Some e | _ => None end.

Definition is_writable_stream_locked (s : WritableStream) : bool := is_some (writer s).

Definition writable_stream_has_operation_marked_in_flight (s : WritableStream) : bool :=
  is_some (in_flight_write_request s) || is_some (in_flight_close_request s).

Definition writable_stream_close_queued_or_in_flight (s : WritableStream) : bool :=
  is_some (close_request s) || is_some (in_flight_close_request s).

Definition writable_stream_default_controller_get_desired_size (c : Controller) : f64 :=
  fsub (strategy_hwm c) (queue_total_size (container c)).

Definition writable_stream_default_controller_get_backpressure (c : Controller) : bool :=
  SFleb (writable_stream_default_controller_get_desired_size c) fzero.

Definition writable_stream_default_controller_clear_algorithms (c : Controller) : Controller :=
  mkController None None (container c) (started c) (strategy_hwm c) None (abort_controller c) None.

(** [W::with_writer]: what is done with the writer the operation has. *)
Definition with_writer (wr : option nat) (default : nat → M ()) : M () :=
  match wr with Some i => default i | None => ret () end.

(** [OwnedBorrowMut::from_class] and [into_inner]. *)
Definition from_class : M () :=
  let! b := gets borrowed in
  if b then panic AlreadyBorrowed else modify (set_borrowed true).
Definition into_inner : M () := modify (set_borrowed false).

(** ** The writer's promises *)

Definition get_writer_at {A} (i : nat) (k : Writer → M A) (none : M A) : M A :=
  let! o := gets (λ w, writers w !! i) in
  match o with Some x => k x | None => none end.

Definition set_ready (i : nat) (p : ResolveablePromise) : M () :=
  modify (on_writers (alter (λ x, mkWriter p (closed_promise x) (attached x)) i)).
Definition set_closed (i : nat) (p : ResolveablePromise) : M () :=
  modify (on_writers (alter (λ x, mkWriter (ready_promise x) p (attached x)) i)).
Definition detach (i : nat) : M () :=
  modify (on_writers (alter (λ x, mkWriter (ready_promise x) (closed_promise x) false) i)).

(** Does [k] with one of the writer's promises. *)
Definition with_ready (i : nat) (k : ResolveablePromise → M ()) : M () :=
  get_writer_at i (λ x, k (ready_promise x)) (ret ()).
Definition with_closed (i : nat) (k : ResolveablePromise → M ()) : M () :=
  get_writer_at i (λ x, k (closed_promise x)) (ret ()).

(** Rejects [p], or makes a rejected promise and stores it with [set]. *)
Definition ensure_rejected (p : ResolveablePromise) (e : val) (set : ResolveablePromise → M ()) :
    M () :=
  let! pending := gets (is_pending p) in
  if pending then reject p e
  else let! p := rejected_with e in set p.

Definition writable_stream_default_writer_ensure_ready_promise_rejected (i : nat) (e : val) : M () :=
  with_ready i (λ p, ensure_rejected p e (set_ready i)).
Definition writable_stream_default_writer_ensure_closed_promise_rejected (i : nat) (e : val) : M () :=
  with_closed i (λ p, ensure_rejected p e (set_closed i)).

(** ** The stream *)

Definition writable_stream_update_backpressure (wr : option nat) (b : bool) : M () :=
  with_writer wr (λ i,
    let! old := gets (backpressure ∘ stream) in
    when (negb (Bool.eqb b old))
      (if b then let! p := new_promise in set_ready i p
       else with_ready i resolve_undefined)) ;!
  modify (on_stream (set_backpressure b)).

Definition reject_opt (p : ResolveablePromise) (e : option val) : M () :=
  reject p (default Undefined e).

Definition writable_stream_reject_close_and_closed_promise_if_needed (wr : option nat) : M () :=
  let! s := gets stream in
  match close_request s with
  | Some r =>
      reject_opt r (stored_error s) ;!
      modify (on_stream (set_close_request None))
  | None => ret ()
  end ;!
  with_writer wr (λ i, with_closed i (λ p, reject_opt p (stored_error s))).

Definition writable_stream_mark_first_write_request_in_flight : M () :=
  let! l := gets (write_requests ∘ stream) in
  match l with
  | [] => panic NoWriteRequest
  | r :: l =>
      modify (on_stream (set_write_requests l)) ;!
      modify (on_stream (set_in_flight_write (Some r)))
  end.

Definition writable_stream_mark_close_request_in_flight : M () :=
  let! o := gets (close_request ∘ stream) in
  modify (on_stream (set_close_request None)) ;!
  let! r := expect NoCloseRequest o in
  modify (on_stream (set_in_flight_close (Some r))).

(** A promise made for a request of the user's. *)
Definition new_request : M ResolveablePromise :=
  let! p := new_promise in
  modify (record (Requested (promise p))) ;!
  ret p.

Definition writable_stream_add_write_request : M nat :=
  let! p := new_request in
  modify (on_stream (λ s, set_write_requests (write_requests s ++ [p]) s)) ;!
  ret (promise p).

Definition dequeue : M () :=
  let! q := gets (container ∘ controller) in
  let! vq := expect EmptyQueue (dequeue_value q) in
  modify (on_controller (set_container vq.2)).

Definition error_steps : M () := modify (on_controller (λ c, set_container (reset_queue (container c)) c)).
Definition clear_algorithms : M () :=
  modify (on_controller writable_stream_default_controller_clear_algorithms).

Fixpoint reject_all (l : list ResolveablePromise) (e : val) : M () :=
  match l with
  | [] => ret ()
  | r :: l => reject r e ;! reject_all l e
  end.

Section Operations.
Context (user : ucall → M (option f64)).

(** A call of JavaScript from a native method: nothing is borrowed during it.
    An exception is a value for the callers that make a promise of it. *)
Definition call_user (c : ucall) : M (val + option f64) :=
  into_inner ;!
  let! r := catch (user c) in
  from_class ;!
  ret r.

(** [promise_resolved_with]: how the promise of a call settles, when that is
    already known. *)
Definition promise_of {A} (r : val + A) : option (val + ()) :=
  match r with inl e => Some (inl e) | inr _ => None end.

(** [.call] of the sink's algorithms. *)
Definition call_algorithm (a : SinkAlgorithm) (c : ucall) : M (option (val + ())) :=
  match a with
  | ReturnPromiseUndefined => into_inner ;! from_class ;! ret (Some (inr ()))
  | Function => let! r := call_user c in ret (promise_of r)
  end.

Definition abort_steps (reason : val) : M (option (val + ())) :=
  let! a := gets (abort_algorithm ∘ controller) in
  let! a := expect AbortAlgorithmCleared a in
  modify (record (SinkAbort reason)) ;!
  let! result := call_algorithm a (CallAbort reason) in
  clear_algorithms ;!
  ret result.

Definition writable_stream_finish_erroring (wr : option nat) (e : val) : M () :=
  modify (on_stream (set_state (Errored e))) ;!
  error_steps ;!
  let! l := gets (write_requests ∘ stream) in
  reject_all l e ;!
  modify (on_stream (set_write_requests [])) ;!
  let! o := gets (pending_abort_request ∘ stream) in
  modify (on_stream (set_pending_abort None)) ;!
  match o with
  | None => writable_stream_reject_close_and_closed_promise_if_needed wr
  | Some request =>
      if was_already_erroring request then
        reject (abort_promise request) e ;!
        writable_stream_reject_close_and_closed_promise_if_needed wr
      else
        let! result := abort_steps (abort_reason request) in
        into_inner ;!
        upon_promise (UponAbort request) result ;!
        from_class
  end.

Definition writable_stream_start_erroring (wr : option nat) (e : val) : M () :=
  modify (on_stream (set_state (Erroring e))) ;!
  with_writer wr (λ i, writable_stream_default_writer_ensure_ready_promise_rejected i e) ;!
  let! w := gets id in
  when (negb (writable_stream_has_operation_marked_in_flight (stream w)) && started (controller w))
    (writable_stream_finish_erroring wr e).

Definition writable_stream_deal_with_rejection (wr : option nat) (e : val) : M () :=
  let! s := gets (state ∘ stream) in
  match s with
  | Writable => writable_stream_start_erroring wr e
  | Erroring stored => writable_stream_finish_erroring wr stored
  | _ => panic NotWritableOrErroring
  end.

Definition writable_stream_finish_in_flight_write : M () :=
  let! o := gets (in_flight_write_request ∘ stream) in
  modify (on_stream (set_in_flight_write None)) ;!
  let! r := expect NoInFlightWrite o in
  resolve_undefined r.

Definition writable_stream_finish_in_flight_write_with_error (wr : option nat) (e : val) : M () :=
  let! o := gets (in_flight_write_request ∘ stream) in
  modify (on_stream (set_in_flight_write None)) ;!
  let! r := expect NoInFlightWrite o in
  reject r e ;!
  writable_stream_deal_with_rejection wr e.

(** [pending_abort_request.take()], and [k] with the promise of what was there. *)
Definition take_pending_abort (k : ResolveablePromise → M ()) : M () :=
  let! o := gets (pending_abort_request ∘ stream) in
  modify (on_stream (set_pending_abort None)) ;!
  match o with Some request => k (abort_promise request) | None => ret () end.

Definition writable_stream_finish_in_flight_close (wr : option nat) : M () :=
  let! o := gets (in_flight_close_request ∘ stream) in
  modify (on_stream (set_in_flight_close None)) ;!
  let! r := expect NoInFlightClose o in
  resolve_undefined r ;!
  let! s := gets (state ∘ stream) in
  match s with
  | Erroring _ => take_pending_abort resolve_undefined
  | _ => ret ()
  end ;!
  modify (on_stream (set_state Closed)) ;!
  with_writer wr (λ i, with_closed i resolve_undefined).

Definition writable_stream_finish_in_flight_close_with_error (wr : option nat) (e : val) : M () :=
  let! o := gets (in_flight_close_request ∘ stream) in
  modify (on_stream (set_in_flight_close None)) ;!
  let! r := expect NoInFlightClose o in
  reject r e ;!
  take_pending_abort (λ p, reject p e) ;!
  writable_stream_deal_with_rejection wr e.

(** ** The controller *)

Definition writable_stream_default_controller_process_close (wr : option nat) : M () :=
  writable_stream_mark_close_request_in_flight ;!
  dequeue ;!
  let! a := gets (close_algorithm ∘ controller) in
  let! a := expect CloseAlgorithmCleared a in
  modify (record SinkClose) ;!
  let! result := call_algorithm a CallClose in
  clear_algorithms ;!
  upon_promise (UponClose wr) result.

Definition writable_stream_default_controller_process_write (wr : option nat) (chunk : val) : M () :=
  writable_stream_mark_first_write_request_in_flight ;!
  let! a := gets (write_algorithm ∘ controller) in
  let! a := expect WriteAlgorithmCleared a in
  modify (record (SinkWrite chunk)) ;!
  let! result := call_algorithm a (CallWrite chunk) in
  upon_promise (UponWrite wr) result.

Definition writable_stream_default_controller_advance_queue_if_needed (wr : option nat) : M () :=
  let! w := gets id in
  if negb (started (controller w)) || is_some (in_flight_write_request (stream w)) then ret ()
  else
    match state (stream w) with
    | Erroring e => writable_stream_finish_erroring wr e
    | _ =>
        match queue (container (controller w)) with
        | [] => ret ()
        | v :: _ =>
            if decide (value v = CloseSentinel)
            then writable_stream_default_controller_process_close wr
            else writable_stream_default_controller_process_write wr (value v)
        end
    end.

(** [enqueue_value_with_size]: the exception, if it throws. *)
Definition enqueue (v : val) (s : SizeValue) : M (val + ()) :=
  let! q := gets (container ∘ controller) in
  match enqueue_value_with_size v s q with
  | None => ret (inl (RangeError (bs "Size must be a finite, non-NaN, non-negative number.")))
  | Some q => modify (on_controller (set_container q)) ;! ret (inr ())
  end.

Definition writable_stream_default_controller_close (wr : option nat) : M () :=
  let! r := enqueue CloseSentinel (Native fzero) in
  match r with
  | inl e => throw e
  | inr () => writable_stream_default_controller_advance_queue_if_needed wr
  end.

Definition writable_stream_default_controller_error (wr : option nat) (e : val) : M () :=
  clear_algorithms ;!
  writable_stream_start_erroring wr e.

Definition writable_stream_default_controller_error_if_needed (wr : option nat) (e : val) : M () :=
  let! s := gets (state ∘ stream) in
  when (is_writable s) (writable_stream_default_controller_error wr e).

(** The update that follows a change of the queue, unless the stream is closing
    or failing. *)
Definition update_backpressure_if_needed (wr : option nat) : M () :=
  let! w := gets id in
  when (negb (writable_stream_close_queued_or_in_flight (stream w)) && is_writable (state (stream w)))
    (writable_stream_update_backpressure wr
      (writable_stream_default_controller_get_backpressure (controller w))).

Definition writable_stream_default_controller_write (wr : option nat) (chunk : val)
    (chunk_size : SizeValue) : M () :=
  let! r := enqueue chunk chunk_size in
  match r with
  | inl e => writable_stream_default_controller_error_if_needed wr e
  | inr () =>
      modify (record (Accepted chunk)) ;!
      update_backpressure_if_needed wr ;!
      writable_stream_default_controller_advance_queue_if_needed wr
  end.

Definition writable_stream_default_controller_get_chunk_size (wr : option nat) (chunk : val) :
    M SizeValue :=
  let! a := gets (strategy_size_algorithm ∘ controller) in
  into_inner ;!
  let! r := catch (size_algorithm_call (λ f chunk, user (CallSize f chunk))
    (λ chunk, user (GetByteLength chunk)) (default AlwaysOne a) chunk) in
  from_class ;!
  match r with
  | inr chunk_size => ret chunk_size
  | inl reason =>
      writable_stream_default_controller_error_if_needed wr reason ;!
      ret (Native fone)
  end.

(** ** Requests of the user's *)

(** [AbortSignal::set_reason], [send_aborted] and [AbortController::abort];
    the listeners are JavaScript. *)
Definition set_reason (reason : option val) (s : AbortSignal) : AbortSignal :=
  mkSignal (aborted s)
    (match reason with Some v => if decide (v = Undefined) then None else Some v | None => None end).
Definition send_aborted : M () :=
  modify (on_controller (λ c, set_signal
    (mkSignal true (Some (default AbortError (signal_reason (abort_controller c))))) c)) ;!
  user AbortListeners ;!
  ret ().
Definition abort_controller_abort (reason : option val) : M () :=
  let! s := gets (abort_controller ∘ controller) in
  if aborted s then ret ()
  else modify (on_controller (λ c, set_signal (set_reason reason (abort_controller c)) c)) ;!
       send_aborted.

Definition writable_stream_abort (wr : option nat) (reason : option val) : M nat :=
  let! s := gets (state ∘ stream) in
  if ended s then ret promise_resolved_with_undefined
  else
    into_inner ;!
    abort_controller_abort reason ;!
    from_class ;!
    let! s := gets stream in
    if ended (state s) then ret promise_resolved_with_undefined
    else
      match pending_abort_request s with
      | Some request => ret (promise (abort_promise request))
      | None =>
          let was := match state s with Erroring _ => true | _ => false end in
          let reason := default Undefined (if was then None else reason) in
          let! p := new_request in
          modify (on_stream (set_pending_abort (Some (mkAbortRequest p reason was)))) ;!
          when (negb was) (writable_stream_start_erroring wr reason) ;!
          ret (promise p)
      end.

Definition writable_stream_close (wr : option nat) : M nat :=
  let! s := gets (state ∘ stream) in
  if ended s then
    promise_rejected_with_constructor
      (bs "The stream is not in the writable state and cannot be closed")
  else
    let! p := new_request in
    modify (on_stream (set_close_request (Some p))) ;!
    with_writer wr (λ i,
      let! s := gets stream in
      when (backpressure s && is_writable (state s)) (with_ready i resolve_undefined)) ;!
    writable_stream_default_controller_close wr ;!
    ret (promise p).

(** ** The writer *)

Definition set_up_writable_stream_default_writer : M nat :=
  let! s := gets stream in
  if is_writable_stream_locked s then
    throw (TypeError
      (bs "This stream has already been locked for exclusive writing by another writer"))
  else
    let! ps := match state s with
      | Writable =>
          let! ready :=
            if negb (writable_stream_close_queued_or_in_flight s) && backpressure s
            then new_promise else ret resolved_with_undefined in
          let! closed := new_promise in
          ret (ready, closed)
      | Erroring e =>
          let! ready := rejected_with e in
          let! closed := new_promise in
          ret (ready, closed)
      | Closed => ret (resolved_with_undefined, resolved_with_undefined)
      | Errored e =>
          let! p := rejected_with e in
          ret (p, p)
      end in
    let! i := gets (λ w, length (writers w)) in
    modify (on_writers (λ l, l ++ [mkWriter ps.1 ps.2 true])) ;!
    modify (on_stream (set_writer (Some i))) ;!
    ret i.

Definition writable_stream_default_writer_get_desired_size (w : world) : option f64 :=
  match state (stream w) with
  | Errored _ | Erroring _ => None
  | Closed => Some fzero
  | Writable => Some (writable_stream_default_controller_get_desired_size (controller w))
  end.

Definition writable_stream_default_writer_release (i : nat) : M () :=
  let e := TypeError (bs "Writer was released and can no longer be used to monitor the stream's closedness") in
  writable_stream_default_writer_ensure_ready_promise_rejected i e ;!
  writable_stream_default_writer_ensure_closed_promise_rejected i e ;!
  modify (on_stream (set_writer None)) ;!
  detach i.

Definition is_attached (i : nat) (w : world) : bool :=
  match writers w !! i with Some x => attached x | None => false end.

Definition writable_stream_default_writer_write (i : nat) (chunk : val) : M nat :=
  let! chunk_size := writable_stream_default_controller_get_chunk_size (Some i) chunk in
  let! w := gets id in
  if negb (is_attached i w) then
    promise_rejected_with_constructor (bs "Cannot write to a stream using a released writer")
  else
    match state (stream w) with
    | Errored e => promise_rejected_with e
    | s =>
        if writable_stream_close_queued_or_in_flight (stream w) || ended s then
          promise_rejected_with_constructor
            (bs "The stream is closing or closed and cannot be written to")
        else
          match s with
          | Erroring e => promise_rejected_with e
          | _ =>
              let! p := writable_stream_add_write_request in
              writable_stream_default_controller_write (Some i) chunk chunk_size ;!
              ret p
          end
    end.

(** * The methods *)

(** A method borrows its receiver, and with it the stream and the controller;
    what it holds is dropped when it ends, also by an exception. *)
Definition method {A} (m : M A) : M A := from_class ;! finally m (set_borrowed false).

Definition get_writer : M nat := set_up_writable_stream_default_writer.

Definition stream_abort (reason : option val) : M nat :=
  let! s := gets stream in
  if is_writable_stream_locked s then
    promise_rejected_with_constructor (bs "Cannot abort a stream that already has a writer")
  else writable_stream_abort None reason.

Definition stream_close : M nat :=
  let! s := gets stream in
  if is_writable_stream_locked s then
    promise_rejected_with_constructor (bs "Cannot close a stream that already has a writer")
  else if writable_stream_close_queued_or_in_flight s then
    promise_rejected_with_constructor (bs "Cannot close an already-closing stream")
  else writable_stream_close None.

Definition writer_desired_size (i : nat) : M (option f64) :=
  let! w := gets id in
  if is_attached i w then ret (writable_stream_default_writer_get_desired_size w)
  else throw (TypeError (bs "Cannot desiredSize a stream using a released writer")).

Definition writer_abort (i : nat) (reason : option val) : M nat :=
  let! w := gets id in
  if is_attached i w then writable_stream_abort (Some i) reason
  else promise_rejected_with_constructor (bs "Cannot abort a stream using a released writer").

Definition writer_close (i : nat) : M nat :=
  let! w := gets id in
  if is_attached i w then
    if writable_stream_close_queued_or_in_flight (stream w) then
      promise_rejected_with_constructor (bs "Cannot close an already-closing")
    else writable_stream_close (Some i)
  else promise_rejected_with_constructor (bs "Cannot close a stream using a released writer").

Definition writer_release_lock (i : nat) : M () :=
  let! w := gets id in
  when (is_attached i w) (writable_stream_default_writer_release i).

Definition writer_write (i : nat) (chunk : option val) : M nat :=
  let! w := gets id in
  if is_attached i w then writable_stream_default_writer_write i (default Undefined chunk)
  else promise_rejected_with_constructor (bs "Cannot write a stream using a released writer").

Definition controller_error (e : option val) : M () :=
  let! s := gets stream in
  when (is_writable (state s))
    (writable_stream_default_controller_error (writer s) (default Undefined e)).

Definition run_cmd (c : cmd) : M reply :=
  method (match c with
  | Locked => let! s := gets stream in ret (RBool (is_writable_stream_locked s))
  | Abort reason => let! p := stream_abort reason in ret (RPromise p)
  | Close => let! p := stream_close in ret (RPromise p)
  | GetWriter => let! i := get_writer in ret (RWriter i)
  | WriterDesiredSize i => let! d := writer_desired_size i in ret (RSize d)
  | WriterAbort i reason => let! p := writer_abort i reason in ret (RPromise p)
  | WriterClose i => let! p := writer_close i in ret (RPromise p)
  | WriterReleaseLock i => writer_release_lock i ;! ret RUnit
  | WriterWrite i chunk => let! p := writer_write i chunk in ret (RPromise p)
  | ControllerError e => controller_error e ;! ret RUnit
  end).

Fixpoint run_script (s : script) : M (option f64) :=
  match s with
  | Return n => ret n
  | Throw e => throw e
  | Call c k =>
      let! r := catch (run_cmd c) in
      run_script (k (match r with inr r => r | inl e => RThrown e end))
  end.

(** * Reactions *)

Definition upon_start (result : val + ()) : M () :=
  let! wr := gets (writer ∘ stream) in
  modify (on_controller (set_started true)) ;!
  match result with
  | inr () =>
      modify (record (StartDone true)) ;!
      writable_stream_default_controller_advance_queue_if_needed wr
  | inl r =>
      modify (record (StartDone false)) ;!
      writable_stream_deal_with_rejection wr r
  end.

Definition upon_write (result : val + ()) : M () :=
  let! wr := gets (writer ∘ stream) in
  match result with
  | inr () =>
      modify (record (WriteDone true)) ;!
      writable_stream_finish_in_flight_write ;!
      dequeue ;!
      update_backpressure_if_needed wr ;!
      writable_stream_default_controller_advance_queue_if_needed wr
  | inl reason =>
      modify (record (WriteDone false)) ;!
      let! s := gets (state ∘ stream) in
      when (is_writable s) clear_algorithms ;!
      writable_stream_finish_in_flight_write_with_error wr reason
  end.

Definition upon_close (wr : option nat) (result : val + ()) : M () :=
  match result with
  | inr () =>
      modify (record (CloseDone true)) ;!
      writable_stream_finish_in_flight_close wr
  | inl reason =>
      modify (record (CloseDone false)) ;!
      writable_stream_finish_in_flight_close_with_error wr reason
  end.

Definition upon_abort (request : PendingAbortRequest) (result : val + ()) : M () :=
  let! wr := gets (writer ∘ stream) in
  match result with
  | inr () => resolve_undefined (abort_promise request)
  | inl reason => reject (abort_promise request) reason
  end ;!
  writable_stream_reject_close_and_closed_promise_if_needed wr.

Definition run_reaction (r : reaction) (given : val + ()) : M () :=
  let result := default given (settled r) in
  method (match kind r with
  | UponStart => upon_start result
  | UponWrite _ => upon_write result
  | UponClose wr => upon_close wr result
  | UponAbort request => upon_abort request result
  end).

(** * The constructor *)

(** The functions the sink object has, and whether it has a [type]. *)
Record UnderlyingSink := mkSink {
  sink_start : bool;
  sink_write : bool;
  sink_close : bool;
  sink_abort : bool;
  sink_type : bool
}.

Definition algorithm (has : bool) : SinkAlgorithm := if has then Function else ReturnPromiseUndefined.

Definition initial_stream : WritableStream := mkStream false None None None None Writable None [].

Definition initial_controller (sink : UnderlyingSink) (hwm : f64) (size : SizeAlgorithm) : Controller :=
  mkController (Some (algorithm (sink_abort sink))) (Some (algorithm (sink_close sink))) new_queue
    false hwm (Some size) (mkSignal false None) (Some (algorithm (sink_write sink))).

Definition set_up_writable_stream_default_controller (start : SinkAlgorithm) : M () :=
  let! c := gets controller in
  writable_stream_update_backpressure None
    (writable_stream_default_controller_get_backpressure c) ;!
  into_inner ;!
  let! result := match start with
    | ReturnPromiseUndefined => ret (Some (inr ()))
    | Function => user CallStart ;! ret None
    end in
  upon_promise UponStart result.

(** [new WritableStream(sink, strategy)], after the object of the stream was
    made. *)
Definition new (sink : UnderlyingSink) (strategy : option QueuingStrategy) : M () :=
  if sink_type sink then throw (RangeError (bs "Invalid type is specified"))
  else
    match extract_high_water_mark strategy fone with
    | None => throw (RangeError (bs "Invalid highWaterMark"))
    | Some hwm =>
        modify (on_controller (λ _, initial_controller sink hwm (extract_size_algorithm strategy))) ;!
        from_class ;!
        set_up_writable_stream_default_controller (algorithm (sink_start sink))
    end.
End Operations.

(** The stream with nothing in it yet, before its constructor has run. *)
Definition empty_world : world :=
  mkWorld initial_stream (initial_controller (mkSink false false false false false) fone AlwaysOne)
    [] [Fulfilled] [] false [].

(** * Runs *)

Section Runs.
Context (body : ucall → world → script).

(** JavaScript [depth] native frames deep. *)
Fixpoint user_call (depth : nat) (c : ucall) : M (option f64) :=
  match depth with
  | O => throw StackOverflow
  | S depth => let! w := gets id in run_script (user_call depth) (body c w)
  end.

(** What the environment does with an empty stack: call a method, or run the
    reaction at index [i], the promise having settled to [given]. *)
Inductive event := Do (c : cmd) | Fire (i : nat) (given : val + ()).

Definition step (depth : nat) (e : event) : M () :=
  match e with
  | Do c => catch (run_cmd (user_call depth) c) ;! ret ()
  | Fire i given =>
      let! o := gets (λ w, reactions w !! i) in
      match o with
      | None => ret ()
      | Some r =>
          modify (on_reactions (delete i)) ;!
          catch (run_reaction (user_call depth) r given) ;!
          ret ()
      end
  end.

Fixpoint steps (depth : nat) (es : list event) : M () :=
  match es with
  | [] => ret ()
  | e :: es => step depth e ;! steps depth es
  end.

(** A stream from its construction on. *)
Definition run (depth : nat) (sink : UnderlyingSink) (strategy : option QueuingStrategy)
    (es : list event) : world * outcome val fault () :=
  (new (user_call depth) sink strategy ;! steps depth es) empty_world.
End Runs.
