(* ===== verification/WritableProofs.v ===== *)
(** What holds of a [WritableStream] whatever JavaScript does with it: no native
    method panics, the sink is called in the order its contract promises, no
    promise of a request is lost, and the [ready] promise follows the
    backpressure. *)

From S2P Require Import Prelude Numbers Effects StreamQueue WritableStream.

(** * The contract of a sink *)

(** What the sink is doing, and the chunks it has still to be given. *)
Inductive phase := Starting | Idle | Writing | Closing | Failed | Over.

(** A write or a close only when the sink has started and is idle, the chunks in
    the order they were accepted, a close only after the last chunk, an abort
    only when nothing runs and instead of anything else, nothing after a close
    or an abort. *)
Definition sink_step (s : phase * list val) (e : entry) : option (phase * list val) :=
  match e, s with
  | Requested _, _ => Some s
  | Accepted c, ((Starting | Idle | Writing) as ph, l) => Some (ph, l ++ [c])
  | StartDone ok, (Starting, l) => Some (if ok : bool then Idle else Failed, l)
  | SinkWrite c, (Idle, c' :: l) => if decide (c = c') then Some (Writing, l) else None
  | WriteDone ok, (Writing, l) => Some (if ok : bool then Idle else Failed, l)
  | SinkClose, (Idle, []) => Some (Closing, [])
  | CloseDone _, (Closing, l) => Some (Over, l)
  | SinkAbort _, ((Idle | Failed), l) => Some (Over, l)
  | _, _ => None
  end.

Fixpoint sink_run (s : phase * list val) (es : list entry) : option (phase * list val) :=
  match es with
  | [] => Some s
  | e :: es => s ← sink_step s e; sink_run s es
  end.

Lemma sink_run_snoc s es e : sink_run s (es ++ [e]) = (sink_run s es ≫= λ s, sink_step s e).
Proof.
  revert s. induction es as [|e' es IH]; intros s; simpl; [by destruct (sink_step s e)|].
  destruct (sink_step s e'); simpl; [apply IH|done].
Qed.

(** * Invariants *)

Definition opt {A} (o : option A) : list A := match o with Some a => [a] | None => [] end.

Definition chunks (w : world) : list val := value <$> queue (container (controller w)).
Definition sentinel (s : WritableStream) : list val :=
  if close_request s then [CloseSentinel] else [].
Definition algorithms (c : Controller) : Prop :=
  is_Some (write_algorithm c) ∧ is_Some (close_algorithm c) ∧ is_Some (abort_algorithm c).
Definition closing (w : world) : bool := writable_stream_close_queued_or_in_flight (stream w).

(** The promises of requests the stream will settle, and those of aborts that
    are running. *)
Definition requests (s : WritableStream) : list ResolveablePromise :=
  write_requests s ++ opt (in_flight_write_request s).
Definition aborting (l : list reaction) : list ResolveablePromise :=
  omap (λ r, match kind r with UponAbort q => Some (abort_promise q) | _ => None end) l.
Definition held (w : world) : list ResolveablePromise :=
  requests (stream w) ++ opt (in_flight_close_request (stream w)) ++ opt (close_request (stream w)) ++
  (abort_promise <$> opt (pending_abort_request (stream w))) ++ aborting (reactions w).

Definition pend (p : nat) (w : world) : Prop := promises w !! p = Some Pending.

(** Writers and promises: the stream is locked to the attached writer, and every
    pending promise of a request is held by the stream, or by the native code
    that is running ([H]). *)
Record mem (H : list ResolveablePromise) (w : world) : Prop := {
  m_link : ∀ i, writer (stream w) = Some i ↔ is_attached i w = true;
  m_known : Forall (λ r, resolvers r = true ∧ promise r < length (promises w))%nat (H ++ held w);
  m_issued : ∀ p, Requested p ∈ log w →
    (p < length (promises w))%nat ∧ (pend p w → p ∈ promise <$> (H ++ held w));
  m_resolved : promises w !! promise_resolved_with_undefined = Some Fulfilled
}.

(** What native code that is running still has to do: register the reaction to
    the sink's [start], [write] or [close], or to aborts. *)
Record debts := mkDebts {
  owe_start : bool;
  owe_write : bool;
  owe_close : bool;
  owe_abort : list ResolveablePromise
}.

Definition is_start (k : reaction_kind) : bool := match k with UponStart => true | _ => false end.
Definition is_write (k : reaction_kind) : bool := match k with UponWrite _ => true | _ => false end.
Definition is_close (k : reaction_kind) : bool := match k with UponClose _ => true | _ => false end.
Fixpoint count (f : reaction_kind → bool) (l : list reaction) : nat :=
  match l with [] => 0 | r :: l => Nat.b2n (f (kind r)) + count f l end%nat.

(** Each operation of the sink that runs has one reaction waiting for it. *)
Record reac (D : debts) (w : world) : Prop := {
  r_start : (count is_start (reactions w) + Nat.b2n (owe_start D) =
    Nat.b2n (negb (started (controller w))))%nat;
  r_write : (count is_write (reactions w) + Nat.b2n (owe_write D) =
    Nat.b2n (is_some (in_flight_write_request (stream w))))%nat;
  r_close : (count is_close (reactions w) + Nat.b2n (owe_close D) =
    Nat.b2n (is_some (in_flight_close_request (stream w))))%nat
}.

(** The operation in flight, in every state of the stream. *)
Record flight (w : world) : Prop := {
  f_close : is_Some (in_flight_close_request (stream w)) →
    chunks w = [] ∧ write_requests (stream w) = [] ∧ in_flight_write_request (stream w) = None ∧
    close_request (stream w) = None;
  f_write : is_Some (in_flight_write_request (stream w)) → chunks w ≠ [];
  f_start : started (controller w) = false →
    in_flight_write_request (stream w) = None ∧ in_flight_close_request (stream w) = None;
  f_abort : ∀ r, pending_abort_request (stream w) = Some r → was_already_erroring r = false →
    in_flight_close_request (stream w) = None → algorithms (controller w)
}.

Definition idle (w : world) : Prop :=
  started (controller w) = true ∧ in_flight_write_request (stream w) = None ∧
  in_flight_close_request (stream w) = None.

(** Where the sink is; [over w]: the stream is not going to abort it. *)
Definition phase_ok (over : world → Prop) (failed : world → Prop) (ph : phase) (w : world) : Prop :=
  match ph with
  | Starting => started (controller w) = false
  | Writing => is_Some (in_flight_write_request (stream w))
  | Closing => is_Some (in_flight_close_request (stream w))
  | Idle => idle w
  | Failed => idle w ∧ failed w
  | Over => idle w ∧ over w
  end.

Definition has_ended (w : world) : Prop := ended (state (stream w)) = true.
Definition no_abort (w : world) : Prop :=
  ∀ r, pending_abort_request (stream w) = Some r → was_already_erroring r = true.

(** The queue of a writable stream: the chunk in flight, those the sink has not
    been given, each with its request, and the sentinel of a close. *)
Definition queue_ok (l : list val) (w : world) : Prop :=
  ∃ cur, chunks w = cur ++ l ++ sentinel (stream w) ∧
    length cur = Nat.b2n (is_some (in_flight_write_request (stream w))) ∧
    Forall (λ c, c ≠ CloseSentinel) (cur ++ l) ∧
    length l = length (write_requests (stream w)).

Record ctl (D : debts) (w : world) : Prop := {
  c_flight : flight w;
  c_live : started (controller w) = false ∨ is_Some (in_flight_write_request (stream w)) ∨
    is_Some (in_flight_close_request (stream w)) →
    ended (state (stream w)) = false;
  c_ended : ended (state (stream w)) = true →
    chunks w = [] ∧ write_requests (stream w) = [] ∧ pending_abort_request (stream w) = None;
  c_closed : ended (state (stream w)) = true → is_Some (close_request (stream w)) →
    owe_abort D ++ aborting (reactions w) ≠ [];
  c_pending : is_Some (pending_abort_request (stream w)) → ∃ e, state (stream w) = Erroring e;
  c_algs : state (stream w) = Writable → in_flight_close_request (stream w) = None →
    algorithms (controller w);
  c_aborting : owe_abort D ++ aborting (reactions w) ≠ [] → ∃ e, state (stream w) = Errored e;
  c_trace : ∃ ph l, sink_run (Starting, []) (log w) = Some (ph, l) ∧
    phase_ok has_ended has_ended ph w ∧ (state (stream w) = Writable → queue_ok l w)
}.

(** The [ready] promise of the writer of a writable stream. *)
Definition ready_ok (H : list ResolveablePromise) (w : world) : Prop :=
  state (stream w) = Writable →
  ∀ i x, writer (stream w) = Some i → writers w !! i = Some x →
    ((promise (ready_promise x) < length (promises w))%nat ∧
     is_pending (ready_promise x) w = backpressure (stream w) && negb (closing w)) ∧
    (is_pending (ready_promise x) w = true →
      resolvers (ready_promise x) = true ∧
      promise (ready_promise x) ∉ promise <$> (H ++ requests (stream w))).
Definition size_ok (w : world) : Prop :=
  state (stream w) = Writable → closing w = false →
  backpressure (stream w) = writable_stream_default_controller_get_backpressure (controller w).

(** A stream that is failing or has something queued waits for the sink. *)
Definition waits (w : world) : Prop :=
  started (controller w) = false ∨ is_Some (in_flight_write_request (stream w)) ∨
  is_Some (in_flight_close_request (stream w)).
Definition progress (w : world) : Prop :=
  (∃ e, state (stream w) = Erroring e) ∨ chunks w ≠ [] → waits w.

(** What holds whenever JavaScript runs ([b = false]), and between the steps of
    native code ([b = true]). *)
Record inv (b : bool) (D : debts) (w : world) : Prop := {
  i_borrowed : borrowed w = b;
  i_mem : mem (owe_abort D) w;
  i_reac : reac D w;
  i_ctl : ctl D w;
  i_ready : ready_ok [] w;
  i_size : size_ok w;
  i_progress : progress w
}.

(** * Promises *)

Implicit Types (w : world) (H : list ResolveablePromise) (D : debts) (p : ResolveablePromise).

(** What [ctl], [reac] and [progress] depend on. *)
Definition view (w : world) : WritableStream * Controller * list reaction * bool * list entry :=
  (set_backpressure false (stream w), controller w, reactions w, borrowed w, log w).

Ltac view_fields :=
  match goal with
  | |- view ?w = view ?w' → _ =>
      destruct w as [s ? ? ? ? ? ?], w' as [s' ? ? ? ? ? ?]; unfold view; simpl;
      destruct s, s'; unfold set_backpressure; simpl;
      let E := fresh in intros E; injection E; clear E;
      repeat match goal with |- _ = _ → _ => intros ? end; subst
  end.

Lemma flight_view w w' : view w = view w' → flight w → flight w'.
Proof. view_fields. intros []. constructor; assumption. Qed.
Lemma ctl_view D w w' : view w = view w' → ctl D w → ctl D w'.
Proof.
  view_fields. intros [H1 H2 H3 H4 H5 H6 H7 H8]. constructor; try assumption.
  revert H1. by apply flight_view.
Qed.
Lemma reac_view D w w' : view w = view w' → reac D w → reac D w'.
Proof. view_fields. intros []. constructor; assumption. Qed.
Lemma progress_view w w' : view w = view w' → progress w → progress w'.
Proof. view_fields. done. Qed.
Lemma view_state w w' : view w = view w' → state (stream w) = state (stream w').
Proof. view_fields. done. Qed.
Lemma view_controller w w' : view w = view w' → controller w = controller w'.
Proof. view_fields. done. Qed.
Lemma view_close w w' :
  view w = view w' → in_flight_close_request (stream w) = in_flight_close_request (stream w').
Proof. view_fields. done. Qed.
Lemma view_writer w w' : view w = view w' → writer (stream w) = writer (stream w').
Proof. view_fields. done. Qed.
Lemma view_borrowed w w' : view w = view w' → borrowed w = borrowed w'.
Proof. view_fields. done. Qed.

Lemma is_pending_pend p w : is_pending p w = true ↔ pend (promise p) w.
Proof. unfold is_pending, pend. by destruct (promises w !! promise p) as [[]|]. Qed.

Lemma settle_lookup s p w q :
  promises (settle s p w) !! q =
  if bool_decide (resolvers p = true ∧ promise p = q) then
    (λ old, match old with Pending => s | _ => old end) <$> promises w !! q
  else promises w !! q.
Proof.
  unfold settle. destruct (resolvers p); [|by rewrite bool_decide_false by naive_solver].
  destruct (decide (promise p = q)) as [<-|Hne].
  - rewrite bool_decide_true by done. apply list_lookup_alter_eq.
  - rewrite bool_decide_false by naive_solver. by apply list_lookup_alter_ne.
Qed.

Lemma settle_view s p w : view (settle s p w) = view w.
Proof. unfold settle. by destruct (resolvers p). Qed.
Lemma settle_writers s p w : writers (settle s p w) = writers w.
Proof. unfold settle. by destruct (resolvers p). Qed.
Lemma settle_stream s p w : stream (settle s p w) = stream w.
Proof. unfold settle. by destruct (resolvers p). Qed.
Lemma settle_controller s p w : controller (settle s p w) = controller w.
Proof. unfold settle. by destruct (resolvers p). Qed.
Lemma settle_reactions s p w : reactions (settle s p w) = reactions w.
Proof. unfold settle. by destruct (resolvers p). Qed.
Lemma settle_log s p w : log (settle s p w) = log w.
Proof. unfold settle. by destruct (resolvers p). Qed.
Lemma settle_length s p w : length (promises (settle s p w)) = length (promises w).
Proof. unfold settle. destruct (resolvers p); simpl; [apply length_alter|done]. Qed.
Lemma settle_held s p w : held (settle s p w) = held w.
Proof. unfold held. by rewrite settle_stream, settle_reactions. Qed.
Lemma settle_attached s p w i : is_attached i (settle s p w) = is_attached i w.
Proof. unfold is_attached. by rewrite settle_writers. Qed.

Lemma settle_pend s p w q : pend q (settle s p w) → pend q w.
Proof.
  unfold pend. rewrite settle_lookup. case_bool_decide; [|done].
  destruct (promises w !! q) as [[]|]; simpl; naive_solver.
Qed.
Lemma settle_settles s p w : resolvers p = true → s ≠ Pending → ¬ pend (promise p) (settle s p w).
Proof.
  unfold pend. intros Hr Hs. rewrite settle_lookup, bool_decide_true by done.
  destruct (promises w !! promise p) as [[]|]; simpl; naive_solver.
Qed.
Lemma settle_other s p w q : promise p ≠ q → pend q w → pend q (settle s p w).
Proof. unfold pend. intros. by rewrite settle_lookup, bool_decide_false by naive_solver. Qed.

Lemma settle_fulfilled s p w q :
  promises w !! q = Some Fulfilled → promises (settle s p w) !! q = Some Fulfilled.
Proof. intros Hq. rewrite settle_lookup, Hq. by case_bool_decide. Qed.

(** ** The memory *)

Lemma mem_settle H s p w : mem H w → mem H (settle s p w).
Proof.
  intros [H1 H2 H3 H4]. constructor; rewrite ?settle_stream, ?settle_held, ?settle_length, ?settle_log.
  - intros i. by rewrite settle_attached.
  - done.
  - intros q Hq. destruct (H3 q Hq). split; [done|]. intros Hp%settle_pend. auto.
  - by apply settle_fulfilled.
Qed.

(** Native code settles a promise it holds. *)
Lemma mem_settle_held H s p w : s ≠ Pending → mem (p :: H) w → mem H (settle s p w).
Proof.
  intros Hs [H1 [[Hr Hl] H2]%Forall_cons H3 H4].
  constructor; rewrite ?settle_stream, ?settle_held, ?settle_length, ?settle_log.
  - intros i. by rewrite settle_attached.
  - done.
  - intros q Hq. destruct (H3 q Hq) as [? Hh]. split; [done|]. intros Hp.
    pose proof (Hh (settle_pend _ _ _ _ Hp)) as [->|?]%elem_of_cons; [|done].
    by destruct (settle_settles s p w Hr Hs).
  - by apply settle_fulfilled.
Qed.

Lemma requested_record e w :
  (∀ n, e ≠ Requested n) → ∀ q, Requested q ∈ log (record e w) → Requested q ∈ log w.
Proof. intros He q. simpl. rewrite elem_of_app, list_elem_of_singleton. naive_solver. Qed.

(** The memory depends on what is held as a set. *)
Lemma mem_held H H' w w' :
  promises w' = promises w → (∀ i, is_attached i w' = is_attached i w) →
  writer (stream w') = writer (stream w) →
  (∀ q, Requested q ∈ log w' → Requested q ∈ log w) →
  (∀ r, r ∈ H ++ held w ↔ r ∈ H' ++ held w') →
  mem H w → mem H' w'.
Proof.
  intros Hp Ha Hw Hl Hh [H1 H2 H3 H4]. constructor.
  - intros i. by rewrite Hw, Ha.
  - rewrite Hp. apply Forall_forall. intros r Hr%Hh. by eapply Forall_forall in H2.
  - intros q Hq%Hl. destruct (H3 q Hq) as [? Hi]. rewrite Hp. split; [done|].
    unfold pend in *. rewrite Hp. intros Hpe%Hi. apply list_elem_of_fmap in Hpe as (r & -> & Hr).
    apply list_elem_of_fmap. exists r. split; [done|]. by apply Hh.
  - by rewrite Hp.
Qed.

Ltac mem_same Hm := eapply mem_held; [..|exact Hm]; try done.

Lemma promises_app_pend s q w :
  (q < length (promises w))%nat → pend q (on_promises (λ l, l ++ [s]) w) ↔ pend q w.
Proof. intros Hq. unfold pend. simpl. by rewrite lookup_app_l. Qed.

Lemma mem_make H s w : mem H w → mem H (on_promises (λ l, l ++ [s]) w).
Proof.
  intros [H1 H2 H3 H4]. constructor; simpl; [..|by apply lookup_app_l_Some].
  - done.
  - rewrite length_app. eapply Forall_impl; [done|]. simpl. intros r []. split; [done|lia].
  - intros q Hq. destruct (H3 q Hq) as [Hl Hi]. rewrite length_app. split; [lia|].
    rewrite promises_app_pend by done. done.
Qed.

(** A promise made for a request is held by the code that made it. *)
Lemma mem_new_request H w :
  mem H w →
  mem (mkRP (length (promises w)) true :: H)
    (record (Requested (length (promises w))) (on_promises (λ l, l ++ [Pending]) w)).
Proof.
  intros [H1 H2 H3 H4]. constructor; simpl; [..|by apply lookup_app_l_Some].
  - done.
  - rewrite length_app. constructor; simpl; [split; [done|lia]|].
    eapply Forall_impl; [done|]. simpl. intros r []. split; [done|lia].
  - intros q [Hq|Hq]%elem_of_app.
    + destruct (H3 q Hq) as [Hl Hi]. rewrite length_app. split; [lia|].
      intros Hp. right. apply Hi. by apply (promises_app_pend Pending).
    + assert (q = length (promises w)) as -> by set_solver. rewrite length_app. split; [simpl; lia|].
      intros _. by left.
Qed.

Lemma mem_weaken p H w : mem H w → resolvers p = true → (promise p < length (promises w))%nat → mem (p :: H) w.
Proof.
  intros [H1 H2 H3 H4] ??. constructor; [done|by constructor| |done].
  intros q Hq. destruct (H3 q Hq). split; [done|]. intros. right. auto.
Qed.

(** ** Code that only touches promises and writers *)

Definition core (w : world) : WritableStream * Controller * list reaction * bool * list entry :=
  (stream w, controller w, reactions w, borrowed w, log w).

Lemma core_view w w' : core w' = core w → view w = view w'.
Proof. unfold core, view. by intros [= -> -> -> -> ->]. Qed.

Lemma settle_core s p w : core (settle s p w) = core w.
Proof. unfold settle. by destruct (resolvers p). Qed.

Definition quiet (m : M ()) : Prop :=
  ∀ H w, mem H w → wp m (returns (λ _ w', mem H w' ∧ core w' = core w)) w.

Lemma quiet_ret : quiet (ret ()).
Proof. by intros H w Hw. Qed.
Lemma quiet_settle s p : quiet (modify (settle s p)).
Proof.
  intros H w Hw. split; [by apply mem_settle|apply settle_core].
Qed.

Lemma attached_alter f i j w :
  (∀ x, attached (f x) = attached x) → is_attached j (on_writers (alter f i) w) = is_attached j w.
Proof.
  intros Hf. unfold is_attached. simpl. destruct (decide (i = j)) as [->|Hne].
  - rewrite list_lookup_alter_eq. destruct (writers w !! j); simpl; auto.
  - by rewrite list_lookup_alter_ne.
Qed.

Lemma mem_alter H f i w : (∀ x, attached (f x) = attached x) → mem H w → mem H (on_writers (alter f i) w).
Proof. intros Hf. apply mem_held; try done. intros j. by apply attached_alter. Qed.

Lemma quiet_ensure_rejected p e f i :
  (∀ q x, attached (f q x) = attached x) →
  quiet (ensure_rejected p e (λ q, modify (on_writers (alter (f q) i)))).
Proof.
  intros Hf H w Hw. unfold ensure_rejected. apply wp_bind_gets.
  destruct (is_pending p w); [by apply quiet_settle|].
  split; [|done]. apply mem_alter; [done|]. by apply mem_make.
Qed.

Lemma quiet_with_writer wr k : (∀ i, quiet (k i)) → quiet (with_writer wr k).
Proof. destruct wr; simpl; [auto|]. intros _. apply quiet_ret. Qed.
Lemma quiet_with_ready i k : (∀ p, quiet (k p)) → quiet (with_ready i k).
Proof.
  intros Hk H w Hw. apply wp_bind_gets. simpl. destruct (writers w !! i); [by apply Hk|by apply quiet_ret].
Qed.
Lemma quiet_with_closed i k : (∀ p, quiet (k p)) → quiet (with_closed i k).
Proof.
  intros Hk H w Hw. apply wp_bind_gets. simpl. destruct (writers w !! i); [by apply Hk|by apply quiet_ret].
Qed.
Lemma quiet_ensure_ready i e : quiet (writable_stream_default_writer_ensure_ready_promise_rejected i e).
Proof. apply quiet_with_ready. intros p. by apply quiet_ensure_rejected. Qed.
Lemma quiet_ensure_closed i e : quiet (writable_stream_default_writer_ensure_closed_promise_rejected i e).
Proof. apply quiet_with_closed. intros p. by apply quiet_ensure_rejected. Qed.

#[local] Hint Resolve quiet_ret quiet_settle quiet_with_writer quiet_with_ready quiet_with_closed
  quiet_ensure_ready quiet_ensure_closed : quiet.

Lemma wp_quiet {A} (m : M ()) (k : () → M A) Q H w :
  quiet m → mem H w → (∀ w', mem H w' → core w' = core w → wp (k ()) Q w') → wp (bind m k) Q w.
Proof. intros Hm Hw Hk. eapply wp_then; [by apply Hm|]. intros [] w' []. auto. Qed.

(** Rejecting a list of requests. *)
Definition settle_all (s : pstate) (l : list ResolveablePromise) (w : world) : world :=
  foldl (λ w r, settle s r w) w l.

Lemma reject_all_eq l e w : reject_all l e w = (settle_all (Rejected e) l w, Returns ()).
Proof. revert w. induction l as [|r l IH]; intros w; [done|]. apply IH. Qed.
Lemma mem_settle_all H s l w : s ≠ Pending → mem (l ++ H) w → mem H (settle_all s l w).
Proof.
  intros Hs. revert w. induction l as [|r l IH]; intros w Hw; [done|].
  apply IH. by apply mem_settle_held.
Qed.
Lemma settle_all_core s l w : core (settle_all s l w) = core w.
Proof. revert w. induction l as [|r l IH]; intros w; [done|]. simpl. by rewrite IH, settle_core. Qed.
Lemma settle_on_stream s p f w : settle s p (on_stream f w) = on_stream f (settle s p w).
Proof. unfold settle. by destruct (resolvers p). Qed.
Lemma settle_all_on_stream s l f w : settle_all s l (on_stream f w) = on_stream f (settle_all s l w).
Proof. revert w. induction l as [|r l IH]; intros w; [done|]. simpl. by rewrite settle_on_stream, IH. Qed.

Lemma settle_all_stream s l w : stream (settle_all s l w) = stream w.
Proof. by injection (settle_all_core s l w) as -> _ _ _ _. Qed.

(** * Failing *)

(** The state between the start of a failure and its end, in every state of the
    stream. *)
Record failing (D : debts) (w : world) : Prop := {
  e_borrowed : borrowed w = true;
  e_mem : mem [] w;
  e_reac : reac D w;
  e_flight : flight w;
  e_owe : owe_abort D = [];
  e_aborting : aborting (reactions w) = [];
  e_trace : ∃ ph l, sink_run (Starting, []) (log w) = Some (ph, l) ∧
    phase_ok no_abort (λ _, True) ph w
}.

Lemma not_writable_ready H w : state (stream w) ≠ Writable → ready_ok H w.
Proof. by intros ??. Qed.
Lemma not_writable_size w : state (stream w) ≠ Writable → size_ok w.
Proof. by intros ??. Qed.

(** An errored stream with nothing left to settle but the abort. *)
Record errored (D : debts) (e : val) (w : world) : Prop := {
  x_borrowed : borrowed w = true;
  x_reac : reac D w;
  x_state : state (stream w) = Errored e;
  x_idle : idle w;
  x_chunks : chunks w = [];
  x_writes : write_requests (stream w) = [];
  x_pending : pending_abort_request (stream w) = None
}.

(** The sink has nothing to do, and if it is over then [over]. *)
Definition stopped (over : Prop) (w : world) : Prop :=
  ∃ ph l, sink_run (Starting, []) (log w) = Some (ph, l) ∧
    match ph with Idle | Failed => True | Over => over | _ => False end.

Lemma inv_errored D e w :
  errored D e w → mem (owe_abort D) w → stopped True w →
  close_request (stream w) = None ∨ owe_abort D ≠ [] → inv true D w.
Proof.
  intros [Hb Hr Hs (Hst & Hiw & Hic) Hq Hwr Hp] Hm (ph & l & Ht & Hph) Hcr.
  constructor; try done; try (by intros ?; rewrite Hs in * ).
  2: { intros [[? ?]|?]; [by rewrite Hs in *|done]. }
  constructor; rewrite ?Hs, ?Hq, ?Hwr, ?Hp, ?Hiw, ?Hic; try done; try by eauto.
  - constructor; rewrite ?Hst, ?Hiw, ?Hic, ?Hp; try done; by intros [].
  - rewrite Hst. by intros [?|[[]|[]]].
  - intros _ [r Hc]. rewrite Hc in Hcr. destruct Hcr; [done|]. by destruct (owe_abort D).
  - exists ph, l. split; [done|]. split; [|done].
    destruct ph; simpl in *; try done; unfold has_ended, idle; by rewrite Hs.
Qed.

Lemma errored_core D e o w w' :
  core w' = core (on_stream (set_close_request o) w) → errored D e w → errored D e w'.
Proof.
  unfold core. simpl. intros [= Es Ec Er Eb El] [Hb [] ? Hi ? ? ?].
  constructor; unfold idle, chunks in *; rewrite ?Es, ?Ec, ?Er, ?Eb, ?El; try done.
  constructor; by rewrite ?Es, ?Ec, ?Er.
Qed.

Definition no_debt : debts := mkDebts false false false [].
Definition owing_start (b : bool) (D : debts) : debts := mkDebts b (owe_write D) (owe_close D) (owe_abort D).
Definition owing_write (b : bool) (D : debts) : debts := mkDebts (owe_start D) b (owe_close D) (owe_abort D).
Definition owing_close (b : bool) (D : debts) : debts := mkDebts (owe_start D) (owe_write D) b (owe_abort D).
Definition owing_abort (l : list ResolveablePromise) (D : debts) : debts :=
  mkDebts (owe_start D) (owe_write D) (owe_close D) l.

(** Giving up and taking the objects. *)
Lemma inv_borrowed b b' D w : inv b D w → inv b' D (set_borrowed b' w).
Proof.
  intros [? H1 H2 H3 H4 H5 H6]. constructor; try assumption; [done|..].
  - by apply (mem_held (owe_abort D) _ w).
  - destruct H2. by constructor.
  - destruct H3 as [[] ? ? ? ? ? ? ?]. constructor; try assumption. constructor; assumption.
Qed.

Lemma wp_into_inner {A} (k : () → M A) D Q w :
  inv true D w → (∀ w', inv false D w' → wp (k ()) Q w') → wp (bind into_inner k) Q w.
Proof. intros Hw Hk. apply wp_bind_modify, Hk. by eapply inv_borrowed. Qed.
Lemma wp_from_class {A} (k : () → M A) D Q w :
  inv false D w → (∀ w', inv true D w' → wp (k ()) Q w') → wp (bind from_class k) Q w.
Proof.
  intros Hw Hk. unfold from_class. apply wp_bind, wp_bind_gets. rewrite (i_borrowed _ _ _ Hw).
  apply wp_modify. simpl. apply Hk. by eapply inv_borrowed.
Qed.

Lemma inv_clear D w :
  inv true D w → has_ended w ∨ is_Some (in_flight_close_request (stream w)) →
  inv true D (on_controller writable_stream_default_controller_clear_algorithms w).
Proof.
  intros [? H1 H2 H3 H4 H5 H6] Hc. constructor; try assumption.
  - by apply (mem_held (owe_abort D) _ w).
  - destruct H2. by constructor.
  - destruct H3 as [[F1 F2 F3 F4] C2 C3 C4 C5 C6 C7 C8]. constructor; try assumption.
    + constructor; try assumption. simpl. intros r Hr _ Hf.
      destruct Hc as [Hc|[x Hc]]; [|congruence]. destruct (C3 Hc) as (_ & _ & ?). congruence.
    + simpl. intros Hw Hf. unfold has_ended in Hc. rewrite Hw, Hf in Hc. destruct Hc as [|[]]; done.
Qed.

Lemma wp_from_class_end D w : inv false D w → wp from_class (returns (λ _, inv true D)) w.
Proof.
  intros Hw. unfold from_class. apply wp_bind_gets. rewrite (i_borrowed _ _ _ Hw).
  apply wp_modify. by eapply inv_borrowed.
Qed.

(** ** Reactions *)

Lemma nonempty_members {A} (l l' : list A) : (∀ x, x ∈ l ↔ x ∈ l') → l ≠ [] → l' ≠ [].
Proof. destruct l as [|x l]; [done|]. intros Hx _ ->. by destruct (proj1 (elem_of_nil x) (proj1 (Hx x) (list_elem_of_here _ _))). Qed.

(** A change of the reactions and of the debts that leaves their sum. *)
Lemma inv_reactions b D D' f w :
  let l := reactions w in
  (count is_start (f l) + Nat.b2n (owe_start D') = count is_start l + Nat.b2n (owe_start D))%nat →
  (count is_write (f l) + Nat.b2n (owe_write D') = count is_write l + Nat.b2n (owe_write D))%nat →
  (count is_close (f l) + Nat.b2n (owe_close D') = count is_close l + Nat.b2n (owe_close D))%nat →
  (∀ r, r ∈ owe_abort D ++ aborting l ↔ r ∈ owe_abort D' ++ aborting (f l)) →
  inv b D w → inv b D' (on_reactions f w).
Proof.
  intros l H1 H2 H3 H4 [? Im [R1 R2 R3] Ic ? ? ?]. constructor; try assumption.
  - mem_same Im. intros r. unfold held. simpl.
    specialize (H4 r). fold l. rewrite !elem_of_app in *. tauto.
  - constructor; simpl; unfold l in *; lia.
  - assert (owe_abort D ++ aborting l ≠ [] ↔ owe_abort D' ++ aborting (f l) ≠ []) as Hne.
    { split; apply nonempty_members; intros r; by rewrite H4. }
    destruct Ic as [[] ? ? C4 ? ? C7 ?]. constructor; try assumption; [constructor; assumption|..]; simpl; fold l.
    + intros He Hc. apply Hne. by apply C4.
    + intros Hn%Hne. by apply C7.
Qed.

Lemma count_app f l l' : count f (l ++ l') = (count f l + count f l')%nat.
Proof. induction l as [|r l IH]; simpl; lia. Qed.
Lemma count_delete f l i r :
  l !! i = Some r → count f l = (count f (delete i l) + Nat.b2n (f (kind r)))%nat.
Proof.
  revert i. induction l as [|r' l IH]; intros [|i] Hi; simpl in *; try done.
  - simplify_eq. lia.
  - rewrite (IH _ Hi). lia.
Qed.
Lemma count_pos f l : (count f l + 0 = 1)%nat → ∃ r, r ∈ l ∧ f (kind r) = true.
Proof.
  induction l as [|r l IH]; simpl; [done|]. destruct (f (kind r)) eqn:E; simpl.
  - intros _. exists r. split; [by left|done].
  - intros (r' & ? & ?)%IH. exists r'. split; [by right|done].
Qed.
Lemma aborting_delete l i r :
  l !! i = Some r → ∀ p, p ∈ aborting l ↔ p ∈ aborting [r] ++ aborting (delete i l).
Proof.
  intros Hi p. rewrite <- (take_drop_middle _ _ _ Hi), delete_take_drop, take_drop_middle by done.
  unfold aborting. rewrite <- (take_drop_middle _ _ _ Hi) at 1.
  rewrite !omap_app. simpl. destruct (match kind r with UponAbort _ => _ | _ => _ end); set_solver.
Qed.

Section Proofs.
Context (user : ucall → M (option Numbers.f64)).
Context (user_ok : ∀ D c w, inv false D w → wp (user c) (safe (inv false D)) w).

Lemma wp_call_algorithm {A} a c (k : option (val + ()) → M A) D Q w :
  inv true D w → (∀ r w', inv true D w' → wp (k r) Q w') →
  wp (bind (call_algorithm user a c) k) Q w.
Proof.
  intros Hw Hk. eapply (wp_then _ _ (λ _, inv true D)); [|auto].
  destruct a; simpl.
  - eapply wp_into_inner; [done|]. intros w1 H1. by eapply wp_from_class.
  - unfold call_user. apply wp_bind. eapply wp_into_inner; [done|]. intros w1 H1.
    eapply wp_then; [by apply wp_catch_safe, user_ok|]. simpl. intros r w2 H2.
    by eapply wp_from_class.
Qed.

(** The end of a failure that does not abort the sink. *)
Lemma wp_reject_close wr D e w :
  errored D e w → mem (owe_abort D) w → stopped True w →
  wp (writable_stream_reject_close_and_closed_promise_if_needed wr) (returns (λ _, inv true D)) w.
Proof.
  intros He Hm Ht.
  unfold writable_stream_reject_close_and_closed_promise_if_needed. apply wp_bind_gets.
  eapply (wp_then _ _ (λ _ w', mem (owe_abort D) w' ∧
    core w' = core (on_stream (set_close_request None) w))).
  - destruct (close_request (stream w)) as [r|] eqn:Hc.
    + apply wp_bind_modify, wp_modify. rewrite <- settle_on_stream. split.
      * apply mem_settle_held; [done|]. eapply mem_held; [..|done]; try done.
        intros r'. unfold held. simpl. rewrite Hc. clear. set_solver.
      * by rewrite settle_core.
    + apply wp_ret. split; [done|]. unfold core. simpl. rewrite <- Hc. by destruct (stream w).
  - intros [] w' [Hm' Hc]. eapply wp_returns.
    { apply quiet_with_writer; [|done]. intros i. apply quiet_with_closed. intros p. apply quiet_settle. }
    intros [] w'' [Hm'' Hc']. rewrite Hc in Hc'. apply (inv_errored D e); [|done|..].
    + by eapply errored_core.
    + injection Hc' as _ _ _ _ El. unfold stopped. by rewrite El.
    + left. by injection Hc' as -> _ _ _ _.
Qed.

(** The end of a failure: the abort of the sink if one was asked for. *)
Lemma wp_abort_sink D e request w :
  errored D e w → owe_abort D = [] → aborting (reactions w) = [] →
  mem [abort_promise request] w → stopped False w → algorithms (controller w) →
  wp (let! result := abort_steps user (abort_reason request) in
      into_inner ;! upon_promise (UponAbort request) result ;! from_class)
    (returns (λ _, inv true D)) w.
Proof.
  intros He Ho Ha Hm (ph & l & Ht & Hph) (_ & _ & [a Halg]).
  unfold abort_steps. apply wp_bind, wp_bind_gets, wp_bind.
  eapply wp_expect; [done|]. simpl. apply wp_bind_modify.
  set (D' := owing_abort [abort_promise request] D).
  eapply (wp_call_algorithm _ _ _ D').
  { apply (inv_errored D' e).
    - destruct He as [? [] ? ? ? ? ?]. constructor; try assumption. constructor; assumption.
    - mem_same Hm. by apply requested_record.
    - exists Over, l. split; [|done]. simpl. rewrite sink_run_snoc, Ht. simpl. by destruct ph.
    - by right. }
  intros r w1 H1. apply wp_bind_modify, wp_ret. simpl.
  destruct (c_aborting _ _ (i_ctl _ _ _ H1)) as [e' He']; [done|].
  apply inv_clear in H1; [|left; unfold has_ended; by rewrite He'].
  eapply wp_into_inner; [done|]. clear H1. intros w2 H2. apply wp_bind_modify.
  apply wp_from_class_end. revert H2. apply inv_reactions; rewrite ?count_app; simpl; try lia.
  intros q. unfold aborting. rewrite Ho, omap_app. simpl. clear. set_solver.
Qed.

Lemma failing_stopped D w :
  failing D w → idle w →
  stopped (no_abort w) w.
Proof.
  intros [_ _ _ _ _ _ (ph & l & Ht & Hph)] (Hs & Hw & Hc). exists ph, l. split; [done|].
  destruct ph; simpl in Hph; rewrite ?Hs, ?Hw, ?Hc in Hph; try done; try by destruct Hph.
Qed.

Lemma wp_finish_erroring wr e D w :
  failing D w → idle w → wp (writable_stream_finish_erroring user wr e) (returns (λ _, inv true D)) w.
Proof.
  intros Hfail Hi. pose proof (failing_stopped _ _ Hfail Hi) as Hst.
  destruct Hfail as [Hb Hm [] Hf Ho Ha _]. unfold writable_stream_finish_erroring, error_steps.
  apply wp_bind_modify, wp_bind_modify, wp_bind_gets. simpl.
  set (reqs := write_requests (stream w)).
  match goal with |- wp (bind _ _) _ ?w1 =>
    eapply (wp_then _ _ (λ _ w', w' = settle_all (Rejected e) reqs w1));
      [unfold wp; by rewrite reject_all_eq|] end.
  intros [] ? ->. apply wp_bind_modify, wp_bind_gets, wp_bind_modify.
  rewrite <- !settle_all_on_stream. simpl. rewrite settle_all_stream. simpl.
  match goal with |- wp _ _ (settle_all _ _ ?w1) => set (w2 := w1) end.
  set (w3 := settle_all _ _ w2).
  assert (Hc : core w3 = core w2) by apply settle_all_core.
  assert (Hm3 : mem (abort_promise <$> opt (pending_abort_request (stream w))) w3).
  { apply mem_settle_all; [done|]. eapply mem_held; [..|exact Hm]; try done.
    intros r. unfold held, w2, reqs, requests. simpl. clear. set_solver. }
  assert (He : errored D e w3).
  { apply (errored_core D e (close_request (stream w2)) w2); [by rewrite Hc; destruct w2 as [[]]|].
    constructor; try done; by constructor. }
  assert (Hs3 : ∀ P : Prop, (no_abort w → P) → stopped P w3).
  { intros P HP. destruct Hst as (ph & l & ? & Hph). exists ph, l. injection Hc as _ _ _ _ ->.
    split; [done|]. destruct ph; auto. }
  assert (aborting (reactions w3) = []) as Ha3 by (injection Hc as _ _ -> _ _; done).
  clearbody w3. destruct (pending_abort_request (stream w)) as [request|] eqn:Hp; simpl in *.
  - destruct (was_already_erroring request) eqn:Hwas.
    + apply wp_bind_modify. apply (wp_reject_close _ _ e); [|rewrite Ho; by apply mem_settle_held|].
      * apply (errored_core D e (close_request (stream w3)) w3); [|done].
        rewrite settle_core. by destruct w3 as [[]].
      * unfold stopped. rewrite settle_log. by apply Hs3.
    + apply (wp_abort_sink D e); try done.
      * apply Hs3. intros Hn. specialize (Hn _ Hp). congruence.
      * injection Hc as _ Ec _ _ _. rewrite Ec. apply (f_abort _ Hf _ Hp Hwas). apply Hi.
  - apply (wp_reject_close _ _ e); [done|by rewrite Ho|by apply Hs3].
Qed.

Lemma failing_core D e w w' :
  failing D w → mem [] w' → core w' = core (on_stream (set_state e) w) → failing D w'.
Proof.
  intros [? _ [] [] ? ? Ht] Hm. unfold core. simpl. intros [= Es Ec Er Eb El].
  constructor; unfold chunks in *; rewrite ?Es, ?Ec, ?Er, ?Eb, ?El; try done.
  - constructor; by rewrite ?Es, ?Ec, ?Er.
  - constructor; unfold chunks in *; by rewrite ?Es, ?Ec.
  - destruct Ht as (ph & l & Ht & Hph). exists ph, l. split; [done|].
    revert Hph. unfold phase_ok, idle, no_abort. by rewrite Es, Ec.
Qed.

(** A failure that has to wait for the sink. *)
Lemma failing_waits D e w :
  failing D w → state (stream w) = Erroring e →
  waits w → inv true D w.
Proof.
  intros [Hb Hm Hr Hf Ho Ha (ph & l & Ht & Hph)] Hs Hw.
  constructor; rewrite ?Ho; try done; try (intros ?; congruence).
  constructor; rewrite ?Hs, ?Ho, ?Ha; try done; eauto.
  exists ph, l. split; [done|]. split; [|done].
  assert (¬ idle w) as Hn by (intros (? & E1 & E2); unfold waits in Hw; rewrite E1, E2 in Hw; destruct Hw as [|[[]|[]]]; congruence).
  destruct ph; simpl in *; tauto.
Qed.

Lemma wp_start_erroring wr e D w :
  failing D w → wp (writable_stream_start_erroring user wr e) (returns (λ _, inv true D)) w.
Proof.
  intros Hf. unfold writable_stream_start_erroring. apply wp_bind_modify.
  eapply (wp_quiet _ _ _ []).
  - apply quiet_with_writer. intros i. apply quiet_ensure_ready.
  - eapply mem_held; [..|apply Hf]; try done. 
  - intros w1 Hm1 Hc1. pose proof (failing_core D _ _ _ Hf Hm1 Hc1) as Hf1.
    assert (state (stream w1) = Erroring e) as Hs by (injection Hc1 as -> _ _ _ _; done).
    clear Hf Hc1. apply wp_bind_gets, wp_when; simpl;
      unfold writable_stream_has_operation_marked_in_flight;
      destruct (in_flight_write_request (stream w1)) eqn:Ew, (in_flight_close_request (stream w1)) eqn:Ec,
        (started (controller w1)) eqn:Est; simpl; try done; intros _.
    1: by apply wp_finish_erroring.
    all: apply (failing_waits D e); try done; unfold waits; rewrite ?Ew, ?Ec, ?Est; eauto.
Qed.

Lemma wp_deal_with_rejection wr e D w :
  failing D w → idle w → ended (state (stream w)) = false →
  wp (writable_stream_deal_with_rejection user wr e) (returns (λ _, inv true D)) w.
Proof.
  intros Hf Hi He. unfold writable_stream_deal_with_rejection. apply wp_bind_gets. simpl.
  destruct (state (stream w)); simpl in He; try done; [by apply wp_start_erroring|by apply wp_finish_erroring].
Qed.

Lemma inv_no_abort D w :
  inv true D w → ended (state (stream w)) = false → owe_abort D = [] ∧ aborting (reactions w) = [].
Proof.
  intros Hw He. apply app_eq_nil. destruct (owe_abort D ++ aborting (reactions w)) eqn:E; [done|].
  destruct (c_aborting _ _ (i_ctl _ _ _ Hw)) as [e' He']; [by rewrite E|]. by rewrite He' in He.
Qed.

Lemma inv_failing D w : inv true D w → ended (state (stream w)) = false → failing D w.
Proof.
  intros Hw He. pose proof (inv_no_abort D w Hw He) as [Ho Ha].
  destruct Hw as [Hb Hm Hr [Hf _ _ _ _ _ _ (ph & l & Ht & Hph & _)] _ _ _].
  constructor; try done; [by rewrite <- Ho|]. exists ph, l. split; [done|].
  unfold has_ended in Hph. destruct ph; simpl in *; rewrite ?He in *; naive_solver.
Qed.

(** * Giving the sink its next operation *)

(** As [inv], for a stream that may have become able to go on. *)
Record moving (D : debts) (w : world) : Prop := {
  v_borrowed : borrowed w = true;
  v_mem : mem (owe_abort D) w;
  v_reac : reac D w;
  v_ctl : ctl D w;
  v_ready : ready_ok [] w;
  v_size : size_ok w;
  v_close : in_flight_close_request (stream w) = None
}.

Lemma moving_inv D w : moving D w → progress w → inv true D w.
Proof. intros []. by constructor. Qed.
Lemma inv_moving D w : inv true D w → in_flight_close_request (stream w) = None → moving D w.
Proof. intros []. by constructor. Qed.

(** The chunks of an idle writable stream. *)
Lemma idle_queue D w :
  ctl D w → state (stream w) = Writable → idle w →
  ∃ l, sink_run (Starting, []) (log w) = Some (Idle, l) ∧ chunks w = l ++ sentinel (stream w) ∧
    Forall (λ c, c ≠ CloseSentinel) l ∧ length l = length (write_requests (stream w)).
Proof.
  intros [_ _ _ _ _ _ _ (ph & l & Ht & Hph & Hq)] Hs (Hst & Hw & Hc).
  destruct (Hq Hs) as (cur & E1 & E2 & E3 & E4). rewrite Hw in E2. simpl in E2.
  apply nil_length_inv in E2 as ->. exists l.
  destruct ph; simpl in Hph; unfold has_ended in Hph; rewrite ?Hs, ?Hw, ?Hc in Hph; naive_solver congruence.
Qed.

Lemma inv_mark_write D w r reqs v l q :
  moving D w → state (stream w) = Writable → idle w → write_requests (stream w) = r :: reqs →
  chunks w = v :: l ++ q → q = sentinel (stream w) → Forall (λ c, c ≠ CloseSentinel) (v :: l) →
  length l = length reqs → sink_run (Starting, []) (log w) = Some (Idle, v :: l) →
  inv true (owing_write true D)
    (record (SinkWrite v) (on_stream (set_in_flight_write (Some r)) (on_stream (set_write_requests reqs) w))).
Proof.
  intros [Hb Hm [] [[] ? ? ? ? ? ? _] Hr Hz _] Hs (Hst & Hiw & Hic) Hwr Hq Hsen Hl Hlen Ht.
  rewrite Hiw in r_write0. simpl in *. constructor; try assumption.
  - mem_same Hm; [by apply requested_record|].
    intros x. unfold held, requests. simpl. rewrite Hwr, Hiw. clear. set_solver.
  - constructor; simpl; [done|lia|done].
  - constructor; try assumption; simpl.
    + constructor; try assumption; simpl; rewrite ?Hic, ?Hst; try done.
      intros _. change (chunks w ≠ []). by rewrite Hq.
    + by rewrite Hs.
    + by rewrite Hs.
    + exists Writing, l. rewrite sink_run_snoc, Ht. simpl. rewrite decide_True by done.
      split_and!; [done|by eexists|]. intros _. exists [v]. split_and!; try done. by rewrite Hsen in Hq.
  - unfold ready_ok in *. simpl. intros Hs' i x Hi Hx. destruct (Hr Hs i x Hi Hx) as [E1 E2].
    split; [exact E1|]. intros Hp. destruct (E2 Hp) as [E3 E4]. split; [done|].
    unfold requests in *. rewrite Hwr, Hiw in E4. clear -E4. simpl in *. rewrite fmap_app. set_solver.
  - intros _. right. left. by eexists.
Qed.

Lemma wp_process_write wr v q D w :
  moving D w → state (stream w) = Writable → idle w → chunks w = v :: q → v ≠ CloseSentinel →
  wp (writable_stream_default_controller_process_write user wr v) (returns (λ _, inv true D)) w.
Proof.
  intros Hw Hs Hi Hq Hv. destruct (idle_queue D w (v_ctl _ _ Hw) Hs Hi) as (l & Ht & E1 & E2 & E3).
  rewrite Hq in E1. destruct l as [|v' l].
  { unfold sentinel in E1. destruct (close_request (stream w)); naive_solver. }
  simplify_eq/=. destruct (write_requests (stream w)) as [|r reqs] eqn:Hwr; [done|].
  unfold writable_stream_default_controller_process_write, writable_stream_mark_first_write_request_in_flight.
  apply wp_bind, wp_bind_gets. simpl. rewrite Hwr. apply wp_bind_modify, wp_modify. simpl.
  destruct (c_algs _ _ (v_ctl _ _ Hw) Hs (v_close _ _ Hw)) as ([a Ha] & _ & _).
  apply wp_bind_gets. eapply wp_bind_expect; [done|]. apply wp_bind_modify.
  pose proof (r_write _ _ (v_reac _ _ Hw)) as Hrw. destruct Hi as (Hi1 & Hi2 & Hi3). rewrite Hi2 in Hrw. simpl in Hrw.
  eapply (wp_call_algorithm _ _ _ (owing_write true D)).
  { eapply inv_mark_write; try done. simpl in E3. by injection E3. }
  intros s w1 H1. apply wp_modify. revert H1. apply inv_reactions; rewrite ?count_app; simpl; try lia.
  intros x. unfold aborting. rewrite omap_app. simpl. clear. set_solver.
Qed.

Lemma inv_mark_close D w r q :
  moving D w → state (stream w) = Writable → idle w → close_request (stream w) = Some r →
  write_requests (stream w) = [] → queue q = [] →
  sink_run (Starting, []) (log w) = Some (Idle, []) →
  inv true (owing_close true D)
    (record SinkClose (on_controller (set_container q)
      (on_stream (set_in_flight_close (Some r)) (on_stream (set_close_request None) w)))).
Proof.
  intros [Hb Hm [] [[] ? ? ? ? ? ? _] Hr Hz _] Hs (Hst & Hiw & Hic) Hcr Hwr Hq Ht.
  rewrite Hic in r_close0. simpl in *. constructor; try assumption.
  - mem_same Hm; [by apply requested_record|].
    intros x. unfold held, requests. simpl. rewrite Hcr, Hic. clear. set_solver.
  - constructor; simpl; [done|done|lia].
  - constructor; try assumption; simpl; rewrite ?Hs; try done.
    + constructor; unfold chunks; simpl; rewrite ?Hst, ?Hiw, ?Hq; done.
    + exists Closing, []. rewrite sink_run_snoc, Ht. simpl. split_and!; [done|by eexists|].
      intros _. exists []. unfold chunks. simpl. by rewrite Hq, Hiw, Hwr.
  - unfold ready_ok, closing, writable_stream_close_queued_or_in_flight in *. simpl in *.
    rewrite Hcr in Hr. exact Hr.
  - intros _. unfold closing, writable_stream_close_queued_or_in_flight. done.
  - intros _. right. right. by eexists.
Qed.

Lemma wp_process_close wr q D w :
  moving D w → state (stream w) = Writable → idle w → chunks w = CloseSentinel :: q →
  wp (writable_stream_default_controller_process_close user wr) (returns (λ _, inv true D)) w.
Proof.
  intros Hw Hs Hi Hq. destruct (idle_queue D w (v_ctl _ _ Hw) Hs Hi) as (l & Ht & E1 & E2 & E3).
  rewrite Hq in E1. destruct l as [|v' l]; [|inversion E2; naive_solver].
  simpl in E1. unfold sentinel in E1. destruct (close_request (stream w)) as [r|] eqn:Hcr; [|done].
  simplify_eq/=. symmetry in E3. apply nil_length_inv in E3.
  unfold chunks in Hq. destruct (queue (container (controller w))) as [|v [|]] eqn:Eq; simplify_eq/=.
  unfold writable_stream_default_controller_process_close, writable_stream_mark_close_request_in_flight, dequeue.
  apply wp_bind, wp_bind_gets, wp_bind_modify. simpl.
  eapply wp_bind_expect; [exact Hcr|]. apply wp_modify. simpl.
  apply wp_bind, wp_bind_gets. simpl.
  eapply wp_bind_expect; [unfold dequeue_value; by rewrite Eq|]. apply wp_modify. simpl.
  destruct (c_algs _ _ (v_ctl _ _ Hw) Hs (v_close _ _ Hw)) as (_ & [a Ha] & _).
  apply wp_bind_gets. eapply wp_bind_expect; [done|]. apply wp_bind_modify.
  pose proof (r_close _ _ (v_reac _ _ Hw)) as Hrc. rewrite (v_close _ _ Hw) in Hrc. simpl in Hrc.
  eapply (wp_call_algorithm _ _ _ (owing_close true D)); [by apply inv_mark_close|].
  intros s w1 H1. apply wp_bind_modify. apply inv_clear in H1.
  2: { right. pose proof (r_close _ _ (i_reac _ _ _ H1)) as Hc. simpl in Hc.
       destruct (in_flight_close_request (stream w1)); simpl in Hc; [by eexists|lia]. }
  apply wp_modify. revert H1. apply inv_reactions; rewrite ?count_app; simpl; try lia.
  intros x. unfold aborting. rewrite omap_app. simpl. clear. set_solver.
Qed.

Lemma wp_advance wr D w :
  moving D w →
  wp (writable_stream_default_controller_advance_queue_if_needed user wr) (returns (λ _, inv true D)) w.
Proof.
  intros Hw. unfold writable_stream_default_controller_advance_queue_if_needed. apply wp_bind_gets.
  unfold id. pose proof (v_close _ _ Hw) as Hc.
  destruct (started (controller w)) eqn:Hst; simpl.
  2: { apply wp_ret. apply moving_inv; [done|]. intros _. by left. }
  destruct (in_flight_write_request (stream w)) as [r|] eqn:Hiw; simpl.
  { apply wp_ret. apply moving_inv; [done|]. intros _. right. left. by rewrite Hiw. }
  assert (idle w) as Hi by done. destruct (state (stream w)) eqn:Hs.
  - pose proof (idle_queue D w (v_ctl _ _ Hw) Hs Hi) as (l & _ & Hq & _).
    destruct (queue (container (controller w))) as [|v q] eqn:Eq.
    + apply wp_ret. apply moving_inv; [done|]. unfold progress, chunks. rewrite Eq. intros [[e He]|?]; [congruence|done].
    + case_decide as Hv.
      * eapply (wp_process_close _ (value <$> q)); try done. unfold chunks. by rewrite Eq, <- Hv.
      * eapply (wp_process_write _ _ (value <$> q)); try done. unfold chunks. by rewrite Eq.
  - destruct (c_ended _ _ (v_ctl _ _ Hw)) as (Hq & _ & _); [by rewrite Hs|].
    pose proof Hq as Hq'. unfold chunks in Hq. destruct (queue _); [|done].
    apply wp_ret. apply moving_inv; [done|]. intros [[e He]|?]; congruence.
  - apply wp_finish_erroring; [|done].
    destruct Hw as [Hb Hm Hr [Hf _ _ _ _ _ Ha (ph & l & Ht & Hph & _)] _ _ _].
    destruct (app_eq_nil (owe_abort D) (aborting (reactions w))) as [Ho Hab].
    { destruct (owe_abort D ++ aborting (reactions w)); [done|]. destruct Ha as [e' He']; [done|]. congruence. }
    constructor; try done; [by rewrite <- Ho|]. exists ph, l. split; [done|].
    destruct ph; simpl in *; unfold has_ended in Hph; rewrite ?Hs in Hph; naive_solver.
  - destruct (c_ended _ _ (v_ctl _ _ Hw)) as (Hq & _ & _); [by rewrite Hs|].
    pose proof Hq as Hq'. unfold chunks in Hq. destruct (queue _); [|done].
    apply wp_ret. apply moving_inv; [done|]. intros [[e' He]|?]; congruence.
Qed.

(** * Backpressure *)

Lemma current_writer H w i :
  mem H w → writer (stream w) = Some i → ∃ x, writers w !! i = Some x ∧ attached x = true.
Proof.
  intros Hm Hi. apply (m_link _ _ Hm) in Hi. unfold is_attached in Hi.
  destruct (writers w !! i) as [x|] eqn:Hx; [|done]. by exists x.
Qed.

Lemma known_fresh H w : mem H w → length (promises w) ∉ promise <$> (H ++ held w).
Proof.
  intros Hm Hin. apply list_elem_of_fmap in Hin as (r & Hr & Hin).
  pose proof (m_known _ _ Hm) as Hk. rewrite Forall_forall in Hk. specialize (Hk _ Hin). lia.
Qed.

Lemma requests_held w r : r ∈ requests (stream w) → r ∈ held w.
Proof. unfold held. set_solver. Qed.

Lemma ready_new H w i :
  mem H w → state (stream w) = Writable → closing w = false → writer (stream w) = Some i →
  ready_ok H (on_stream (set_backpressure true)
    (on_writers (alter (λ x, mkWriter (mkRP (length (promises w)) true) (closed_promise x) (attached x)) i)
      (on_promises (λ l, l ++ [Pending]) w))).
Proof.
  intros Hm Hs Hc Hi _ i' x Hi' Hx. simpl in *. assert (i' = i) as -> by congruence.
  rewrite list_lookup_alter_eq in Hx. apply fmap_Some in Hx as (x' & Hx' & ->). simpl.
  assert (is_pending (mkRP (length (promises w)) true) (on_promises (λ l, l ++ [Pending]) w) = true) as Hp.
  { apply is_pending_pend. unfold pend. simpl. by apply list_lookup_middle. }
  split; [|intros _; split; [done|]].
  - split; [rewrite length_app; simpl; lia|]. change (closing _) with (closing w). rewrite Hc. exact Hp.
  - intros Hin. apply (known_fresh _ _ Hm). rewrite fmap_app in *. unfold held. rewrite fmap_app.
    change (requests _) with (requests (stream w)) in Hin. clear -Hin. set_solver.
Qed.

Lemma ready_resolved H w i x :
  ready_ok H w → state (stream w) = Writable → writer (stream w) = Some i → writers w !! i = Some x →
  ¬ pend (promise (ready_promise x)) (settle Fulfilled (ready_promise x) w).
Proof.
  intros Hr Hs Hi Hx. destruct (Hr Hs i x Hi Hx) as [_ Hp]. intros Hpend.
  pose proof (settle_pend _ _ _ _ Hpend) as Hold. apply is_pending_pend in Hold.
  by apply (settle_settles Fulfilled (ready_promise x) w) in Hpend; [|by apply Hp|].
Qed.

Lemma wp_update_backpressure H b w :
  mem H w → ready_ok H w → state (stream w) = Writable → closing w = false →
  wp (writable_stream_update_backpressure (writer (stream w)) b)
    (returns (λ _ w', mem H w' ∧ view w' = view w ∧ ready_ok H w' ∧ backpressure (stream w') = b)) w.
Proof.
  intros Hm Hr Hs Hc. unfold writable_stream_update_backpressure.
  destruct (writer (stream w)) as [i|] eqn:Hi; simpl.
  2: { apply wp_bind_ret, wp_modify. split_and!; try done; [by mem_same Hm|].
       intros _ i' x. simpl. by rewrite Hi. }
  destruct (current_writer _ _ _ Hm Hi) as (x & Hx & _).
  apply wp_bind, wp_bind_gets. simpl. destruct (backpressure (stream w)) eqn:Hb, b; simpl.
  - apply wp_ret, wp_modify. split_and!; try done; [by mem_same Hm|].
    intros _ i' x' Hi' Hx'. destruct (Hr Hs _ _ Hi' Hx') as [E1 E2]. rewrite Hb in E1. by split.
  - apply wp_bind_gets. rewrite Hx. apply wp_modify. simpl. apply wp_modify. split_and!.
    + apply (mem_held H _ (settle Fulfilled (ready_promise x) w)); try done. by apply mem_settle.
    + unfold view. simpl. by rewrite settle_stream, settle_controller, settle_reactions,
        settle_log, (view_borrowed _ _ (settle_view _ _ _)).
    + intros _ i' x' Hi' Hx'. simpl in Hi', Hx'. rewrite settle_stream in Hi'. rewrite settle_writers in Hx'.
      simplify_eq. assert (is_pending (ready_promise x) (settle Fulfilled (ready_promise x) w) = false) as E.
      { apply not_true_iff_false. rewrite is_pending_pend. by eapply ready_resolved. }
      destruct (Hr Hs _ _ Hi Hx) as [[? _] _].
      unfold is_pending in *. simpl. by rewrite E, settle_length.
    + done.
  - apply wp_bind, wp_bind, wp_bind_gets, wp_bind_modify, wp_ret. simpl. apply wp_ret, wp_modify. simpl.
    apply wp_modify. split_and!; try done; [|by apply ready_new].
    eapply mem_held; [..|apply (mem_make _ Pending), Hm]; try done. intros j. by apply attached_alter.
  - apply wp_ret, wp_modify. split_and!; try done; [by mem_same Hm|].
    intros _ i' x' Hi' Hx'. destruct (Hr Hs _ _ Hi' Hx') as [E1 E2]. rewrite Hb in E1. by split.
Qed.

Lemma wp_update_if_needed D w :
  borrowed w = true → mem (owe_abort D) w → reac D w → ctl D w → ready_ok [] w →
  in_flight_close_request (stream w) = None → 
  wp (update_backpressure_if_needed (writer (stream w)))
    (returns (λ _ w', moving D w')) w.
Proof.
  intros Hb Hm Hr Hc Hrd Hf. unfold update_backpressure_if_needed. apply wp_bind_gets. unfold id.
  apply wp_when; rewrite andb_true_iff || rewrite andb_false_iff.
  - intros [Hcl%negb_true_iff Hs]. destruct (state (stream w)) eqn:Es; try done.
    assert (owe_abort D = []) as Ho.
    { destruct (owe_abort D) eqn:E; [done|]. destruct (c_aborting _ _ Hc) as [e He]; [by rewrite E|congruence]. }
    rewrite Ho in Hm. eapply wp_returns; [by apply (wp_update_backpressure [])|].
    intros [] w' (Hm' & Hv & Hrd' & Hbp). symmetry in Hv. constructor.
    + by rewrite <- (view_borrowed _ _ Hv).
    + by rewrite Ho.
    + by apply (reac_view _ w).
    + by apply (ctl_view _ w).
    + done.
    + intros _ _. by rewrite Hbp, (view_controller _ _ Hv).
    + by rewrite <- (view_close _ _ Hv).
  - intros Hn. constructor; try done. intros Hs Hcl. rewrite Hs in Hn. unfold closing in Hcl.
    rewrite Hcl in Hn. by destruct Hn.
Qed.

(** * Requests *)

(** The state after a promise was made for a request. *)
Definition with_request (f : ResolveablePromise → WritableStream → WritableStream) (w : world) : world :=
  let p := mkRP (length (promises w)) true in
  on_stream (f p) (record (Requested (promise p)) (on_promises (λ l, l ++ [Pending]) w)).

Lemma wp_new_request {A} (f : ResolveablePromise → WritableStream → WritableStream) (k : () → ResolveablePromise → M A) Q w :
  wp (k () (mkRP (length (promises w)) true)) Q (with_request f w) →
  wp (let! p := new_request in modify (on_stream (f p)) ;! k () p) Q w.
Proof. done. Qed.

Lemma mem_request H f w :
  (∀ p s, writer (f p s) = writer s) →
  (∀ p r, r ∈ p :: held w ↔ r ∈ held (on_stream (f p) w)) →
  mem H w → mem H (with_request f w).
Proof.
  intros Hw Hf Hm. apply mem_new_request in Hm. mem_same Hm; [by intros; simpl; rewrite Hw|].
  intros r. specialize (Hf (mkRP (length (promises w)) true) r). rewrite !elem_of_app, !elem_of_cons in *.
  change (held (with_request f w)) with (held (on_stream (f (mkRP (length (promises w)) true)) w)).
  change (held (record _ _)) with (held w). rewrite <- Hf. tauto.
Qed.

Lemma is_pending_request f p w :
  (promise p < length (promises w))%nat → is_pending p (with_request f w) = is_pending p w.
Proof. intros Hp. unfold is_pending. simpl. by rewrite lookup_app_l. Qed.

Definition add_write (p : ResolveablePromise) (s : WritableStream) : WritableStream :=
  set_write_requests (write_requests s ++ [p]) s.

Lemma mem_add_write H w : mem H w → mem H (with_request add_write w).
Proof.
  apply mem_request; [done|]. intros p r. unfold held, requests, add_write. simpl.
  rewrite !elem_of_cons, !elem_of_app, list_elem_of_singleton. tauto.
Qed.

Lemma ready_add_write w : ready_ok [] w → ready_ok [] (with_request add_write w).
Proof.
  intros Hr Hs i x Hi Hx. destruct (Hr Hs i x Hi Hx) as [[Hl E1] E2].
  rewrite is_pending_request by done. change (closing _) with (closing w).
  split; [split; [simpl; rewrite length_app; lia|done]|].
  intros Hp. destruct (E2 Hp) as [E3 E4]. split; [done|]. clear -E4 Hl.
  unfold requests in *. simpl in *. rewrite !fmap_app in *. simpl.
  rewrite !not_elem_of_app, list_elem_of_singleton in *. split_and!; naive_solver lia.
Qed.

Lemma enqueue_queue {V} (v : V) s q q' :
  enqueue_value_with_size v s q = Some q' → value <$> queue q' = (value <$> queue q) ++ [v].
Proof.
  unfold enqueue_value_with_size. destruct (is_non_negative_number s); [|done].
  destruct (is_infinite _); [done|]. intros [= <-]. simpl. by rewrite fmap_app.
Qed.

Lemma not_closing w : closing w = false ↔
  close_request (stream w) = None ∧ in_flight_close_request (stream w) = None.
Proof.
  unfold closing, writable_stream_close_queued_or_in_flight.
  destruct (close_request (stream w)), (in_flight_close_request (stream w)); naive_solver.
Qed.

(** A chunk that was queued. *)
Lemma accept_ctl D w v q' :
  inv true D w → state (stream w) = Writable → closing w = false → v ≠ CloseSentinel →
  value <$> queue q' = chunks w ++ [v] →
  ctl D (record (Accepted v) (on_controller (set_container q') (with_request add_write w))).
Proof.
  intros [Hb Hm Hr [[F1 F2 F3 F4] C2 C3 C4 C5 C6 C7 (ph & l & Ht & Hph & Hq)] Hrd Hz Hp] Hs
    [Hcr Hic]%not_closing Hv Hq'.
  assert (E : chunks (record (Accepted v) (on_controller (set_container q') (with_request add_write w)))
    = chunks w ++ [v]) by done.
  constructor; try assumption.
  - constructor; try assumption.
    + simpl. rewrite Hic. by intros [].
    + intros _. rewrite E. by destruct (chunks w).
  - simpl. by rewrite Hs.
  - destruct (Hq Hs) as (cur & E1 & E2 & E3 & E4). exists ph, (l ++ [v]). split_and!.
    + simpl. rewrite !sink_run_snoc, Ht. simpl.
      destruct ph; simpl in Hph; try done; unfold has_ended in Hph; rewrite ?Hs, ?Hic in Hph;
        naive_solver.
    + exact Hph.
    + intros _. exists cur. rewrite E, E1. unfold sentinel. simpl. rewrite Hcr, !app_nil_r, <- app_assoc.
      split_and!; [done|done| |rewrite !length_app; simpl; lia].
      rewrite app_assoc. apply Forall_app. split; [done|by constructor].
Qed.

(** A chunk that could not be queued. *)
Lemma reject_chunk_failing D w :
  inv true D w → state (stream w) = Writable → closing w = false →
  failing D (on_controller writable_stream_default_controller_clear_algorithms (with_request add_write w)).
Proof.
  intros Hw Hs [Hcr Hic]%not_closing. pose proof (c_pending _ _ (i_ctl _ _ _ Hw)) as Hpe.
  destruct (inv_failing D w Hw) as [Hb Hm [] [F1 F2 F3 F4] Ho Ha Ht]; [by rewrite Hs|].
  constructor; try assumption; try by constructor.
  - apply mem_add_write in Hm. mem_same Hm.
  - constructor; try assumption; simpl; [rewrite Hic; by intros []|].
    intros r Hr. destruct Hpe as [e He]; [by eexists|congruence].
  - simpl. destruct Ht as (ph & l & Ht & Hph). exists ph, l. rewrite sink_run_snoc, Ht. by split.
Qed.

Lemma wp_error wr e D w :
  inv true D w → state (stream w) = Writable →
  wp (writable_stream_default_controller_error user wr e) (returns (λ _, inv true D)) w.
Proof.
  intros Hw Hs. unfold writable_stream_default_controller_error. apply wp_bind_modify, wp_start_erroring.
  pose proof (c_pending _ _ (i_ctl _ _ _ Hw)) as Hpe.
  destruct (inv_failing D w Hw) as [Hb Hm [] [F1 F2 F3 F4] Ho Ha Ht]; [by rewrite Hs|].
  constructor; try assumption; [by mem_same Hm|by constructor|].
  constructor; try assumption. intros r Hr. destruct Hpe as [e' He]; [by eexists|congruence].
Qed.

Lemma wp_error_if_needed wr e D w :
  inv true D w → wp (writable_stream_default_controller_error_if_needed user wr e) (returns (λ _, inv true D)) w.
Proof.
  intros Hw. apply wp_bind_gets, wp_when; simpl; [|done].
  intros Hs. apply wp_error; [done|]. by destruct (state (stream w)).
Qed.

Lemma wp_get_chunk_size wr chunk D w :
  inv true D w →
  wp (writable_stream_default_controller_get_chunk_size user wr chunk) (returns (λ _, inv true D)) w.
Proof.
  intros Hw. apply wp_bind_gets. eapply wp_into_inner; [done|]. intros w1 H1.
  eapply (wp_then _ _ (λ _, inv false D)).
  - apply wp_catch_safe. unfold size_algorithm_call.
    destruct (default _ _) as [|[f|[]]]; simpl; try done; [|destruct (is_object chunk); [|done]];
      (eapply wp_then_safe; [by apply user_ok|done|done]).
  - intros r w2 H2. eapply wp_from_class; [done|]. intros w3 H3. destruct r as [e|s]; [|done].
    eapply wp_then; [by apply wp_error_if_needed|]. by intros [] w4 H4.
Qed.

Lemma wp_promise_rejected D v w :
  inv true D w → wp (promise_rejected_with v) (returns (λ _, inv true D)) w.
Proof.
  intros Hw. unfold promise_rejected_with, make_promise. apply wp_bind_gets, wp_bind_modify, wp_ret. simpl.
  set (w' := on_promises _ w). destruct Hw as [? Hm ? ? Hr ? ?]. constructor; try assumption.
  - by apply mem_make.
  - by apply (reac_view _ w).
  - by apply (ctl_view _ w).
  - intros Hs i x Hi Hx. destruct (Hr Hs i x Hi Hx) as [[Hl E1] E2].
    assert (is_pending (ready_promise x) w' = is_pending (ready_promise x) w) as ->.
    { unfold is_pending. simpl. by rewrite lookup_app_l. }
    split; [split; [simpl; rewrite length_app; lia|done]|done].
Qed.

Lemma wp_writer_write i chunk D w :
  chunk ≠ CloseSentinel → inv true D w →
  wp (writable_stream_default_writer_write user i chunk) (returns (λ _, inv true D)) w.
Proof.
  intros Hv Hw. eapply wp_then; [by apply wp_get_chunk_size|]. simpl. clear w Hw. intros s w Hw.
  apply wp_bind_gets. unfold id. destruct (is_attached i w) eqn:Hatt; simpl; [|by apply wp_promise_rejected].
  apply (m_link _ _ (i_mem _ _ _ Hw)) in Hatt.
  destruct (writable_stream_close_queued_or_in_flight (stream w)) eqn:Hc.
  { destruct (state (stream w)); by apply wp_promise_rejected. }
  destruct (state (stream w)) eqn:Hs; simpl; try by apply wp_promise_rejected.
  eapply (wp_then _ _ (λ _ w', w' = with_request add_write w)); [done|]. intros ? ? ->.
  unfold writable_stream_default_controller_write, enqueue.
  apply wp_bind, wp_bind, wp_bind_gets. simpl.
  destruct (enqueue_value_with_size chunk s _) as [q'|] eqn:Hq.
  - apply enqueue_queue in Hq. apply wp_bind_modify, wp_ret. simpl. apply wp_bind_modify.
    pose proof (accept_ctl D w chunk q' Hw Hs Hc Hv Hq) as Hctl.
    set (w2 := record _ _) in *. assert (Some i = writer (stream w2)) as -> by done.
    apply not_closing in Hc as [_ Hic]. destruct Hw as [Hb Hm [] _ Hrd _ _].
    eapply wp_then.
    + apply (wp_update_if_needed D); try done; [|by apply (ready_add_write w)].
      apply mem_add_write in Hm. mem_same Hm. by apply (requested_record _ (with_request add_write w)).
    + intros [] w3 H3. eapply wp_returns; [by apply wp_advance|]. done.
  - apply wp_ret. simpl. apply wp_bind_gets, wp_when; simpl; rewrite Hs; [|done]. intros _.
    unfold writable_stream_default_controller_error. apply wp_bind_modify.
    eapply wp_returns; [by apply wp_start_erroring, reject_chunk_failing|]. done.
Qed.

(** ** Close *)

Definition add_close (p : ResolveablePromise) (s : WritableStream) : WritableStream :=
  set_close_request (Some p) s.

Lemma mem_add_close H w : close_request (stream w) = None → mem H w → mem H (with_request add_close w).
Proof.
  intros Hc. apply mem_request; [done|]. intros p r. unfold held, add_close. simpl. rewrite Hc. simpl.
  clear. set_solver.
Qed.

(** The [ready] promise of a stream that closes is settled. *)
Lemma wp_close_ready H w :
  mem H w → ready_ok [] w → closing w = false →
  let w1 := with_request add_close w in
  wp (with_writer (writer (stream w)) (λ i,
    let! s := gets stream in
    when (backpressure s && is_writable (state s)) (with_ready i resolve_undefined)))
    (returns (λ _ w', mem H w' ∧ core w' = core w1 ∧ ready_ok [] w')) w1.
Proof.
  intros Hm Hr Hc w1. pose proof Hc as [Hcr _]%not_closing.
  pose proof (mem_add_close _ _ Hcr Hm) as Hm1.
  destruct (writer (stream w)) as [i|] eqn:Hi; simpl.
  2: { apply wp_ret. split_and!; try done. intros _ i x. simpl. congruence. }
  destruct (current_writer _ _ _ Hm Hi) as (x & Hx & _).
  assert (Hrd : state (stream w) = Writable → (promise (ready_promise x) < length (promises w))%nat ∧
    is_pending (ready_promise x) w1 = backpressure (stream w) ∧
    (is_pending (ready_promise x) w1 = true → resolvers (ready_promise x) = true)).
  { intros Hs. destruct (Hr Hs _ _ Hi Hx) as [[Hl E] E2]. unfold w1. rewrite is_pending_request by done.
    rewrite Hc, andb_true_r in E. naive_solver. }
  apply wp_bind_gets, wp_when; simpl; rewrite andb_true_iff || rewrite andb_false_iff.
  - intros [Hb Hs]. apply wp_bind_gets. simpl. rewrite Hx. apply wp_modify.
    split_and!; [by apply mem_settle|apply settle_core|].
    intros _ i' x' Hi' Hx'. rewrite settle_stream in Hi'. rewrite settle_writers in Hx'. simpl in *. simplify_eq.
    destruct Hrd as (Hl & E1 & E2); [by destruct (state (stream w))|].
    assert (is_pending (ready_promise x) (settle Fulfilled (ready_promise x) w1) = false) as ->.
    { apply not_true_iff_false. rewrite is_pending_pend. apply settle_settles; [|done]. apply E2. by rewrite E1. }
    rewrite settle_length. unfold closing. rewrite settle_stream. simpl. rewrite length_app, andb_false_r. naive_solver lia.
  - intros Hn. split_and!; try done. intros Hs i' x' Hi' Hx'. simpl in *. simplify_eq.
    destruct Hrd as (Hl & E1 & E2); [done|]. rewrite Hs in Hn. destruct Hn as [Hn|Hn]; [|done].
    rewrite Hn in E1. rewrite E1, length_app. unfold closing. simpl. rewrite andb_false_r. naive_solver lia.
Qed.

Lemma close_ctl D w q' :
  inv true D w → ended (state (stream w)) = false → closing w = false →
  value <$> queue q' = chunks w ++ [CloseSentinel] →
  ctl D (on_controller (set_container q') (with_request add_close w)).
Proof.
  intros [Hb Hm Hr [[F1 F2 F3 F4] C2 C3 C4 C5 C6 C7 (ph & l & Ht & Hph & Hq)] Hrd Hz Hp] Hs
    [Hcr Hic]%not_closing Hq'.
  assert (E : chunks (on_controller (set_container q') (with_request add_close w))
    = chunks w ++ [CloseSentinel]) by done.
  constructor; try assumption.
  - constructor; try assumption.
    + simpl. rewrite Hic. by intros [].
    + intros _. rewrite E. by destruct (chunks w).
  - simpl. by rewrite Hs.
  - simpl. by rewrite Hs.
  - exists ph, l. split_and!.
    + simpl. by rewrite sink_run_snoc, Ht.
    + exact Hph.
    + intros Hwr. destruct (Hq Hwr) as (cur & E1 & E2 & E3 & E4). exists cur. rewrite E, E1. unfold sentinel. simpl.
      rewrite Hcr, app_nil_r, <- app_assoc. done.
Qed.

Lemma wp_stream_close D w :
  inv true D w → closing w = false →
  wp (writable_stream_close user (writer (stream w))) (returns (λ _, inv true D)) w.
Proof.
  intros Hw Hc. apply wp_bind_gets. simpl. destruct (ended (state (stream w))) eqn:Hs.
  { by apply wp_promise_rejected. }
  apply (wp_new_request add_close (λ _ _, _)).
  eapply wp_then; [by apply wp_close_ready; [apply Hw|apply Hw|]|]. simpl.
  intros _ w2 (Hm2 & Hc2 & Hr2). pose proof Hc2 as [= Es Ec Er Eb El].
  apply wp_bind, wp_bind, wp_bind_gets.
  destruct (enqueue_value_with_size CloseSentinel (Native fzero) ((container ∘ controller) w2))
    as [q'|] eqn:Hq; [|discriminate].
  apply enqueue_queue in Hq. unfold compose in Hq. rewrite Ec in Hq. apply wp_bind_modify, wp_ret. simpl.
  eapply wp_returns; [apply (wp_advance _ D)|by intros [] w3 H3].
  pose proof Hc as [Hcr Hic]%not_closing. destruct Hw as [Hb Hm [] ? ? ? ?]. constructor.
  - simpl. by rewrite Eb.
  - mem_same Hm2.
  - constructor; simpl; by rewrite ?Es, ?Ec, ?Er.
  - eapply (ctl_view _ (on_controller (set_container q') (with_request add_close w))).
    + apply core_view. unfold core. simpl. by rewrite Es, Ec, Er, Eb, El.
    + apply close_ctl; try done. 
  - exact Hr2.
  - intros _ Hcl. unfold closing in Hcl. simpl in Hcl. by rewrite Es in Hcl.
  - simpl. by rewrite Es.
Qed.

(** ** Abort *)

Lemma inv_signal b D f w : inv b D w → inv b D (on_controller (λ c, set_signal (f c) c) w).
Proof.
  intros [? Hm [] [[] ? ? ? ? ? ? ?] ? ? ?]. constructor; try assumption; [by mem_same Hm|by constructor|].
  constructor; try assumption. by constructor.
Qed.

Lemma wp_abort_controller_abort reason D w :
  inv false D w → wp (abort_controller_abort user reason) (safe (inv false D)) w.
Proof.
  intros Hw. apply wp_bind_gets. simpl. destruct (aborted _); [done|].
  apply wp_bind_modify, wp_bind_modify. eapply wp_then_safe; [|done|done].
  apply user_ok. by apply inv_signal, inv_signal.
Qed.

Definition add_abort (reason : val) (was : bool) (p : ResolveablePromise) (s : WritableStream) : WritableStream :=
  set_pending_abort (Some (mkAbortRequest p reason was)) s.

Lemma mem_add_abort H reason was w :
  pending_abort_request (stream w) = None → mem H w → mem H (with_request (add_abort reason was) w).
Proof.
  intros Hp. apply mem_request; [done|]. intros p r. unfold held, add_abort. simpl. rewrite Hp. simpl.
  clear. set_solver.
Qed.

Lemma inv_add_abort D reason e w :
  inv true D w → state (stream w) = Erroring e → pending_abort_request (stream w) = None →
  inv true D (with_request (add_abort reason true) w).
Proof.
  intros [? Hm [] [[F1 F2 F3 F4] C2 C3 C4 C5 C6 C7 (ph & l & Ht & Hph & Hq)] ? ? ?] Hs Hp.
  constructor; try assumption; [by apply mem_add_abort|by constructor| |].
  - constructor; try assumption.
    + constructor; try assumption. by intros r [= <-].
    + simpl. by rewrite Hs.
    + intros _. by exists e.
    + simpl. exists ph, l. rewrite sink_run_snoc, Ht. done.
  - apply not_writable_ready. simpl. by rewrite Hs.
Qed.

Lemma failing_add_abort D reason w :
  inv true D w → state (stream w) = Writable → pending_abort_request (stream w) = None →
  failing D (with_request (add_abort reason false) w).
Proof.
  intros Hw Hs Hp. pose proof (c_algs _ _ (i_ctl _ _ _ Hw) Hs) as Halg.
  destruct (i_ctl _ _ _ Hw) as [_ _ _ _ _ _ _ (ph & l & Ht & Hph & _)].
  destruct (inv_failing D w Hw) as [Hb Hm [] [F1 F2 F3 F4] Ho Ha _]; [by rewrite Hs|].
  constructor; try assumption; [by apply mem_add_abort|by constructor|constructor; try assumption|].
  - by intros r [= <-] _.
  - simpl. exists ph, l. rewrite sink_run_snoc, Ht. split; [done|].
    destruct ph; simpl in *; unfold has_ended in Hph; rewrite ?Hs in Hph; naive_solver.
Qed.

Definition ends (D : debts) (w : world) : Prop := ∃ b, inv b D w.

Lemma returns_ends {A} (m : M A) D w : wp m (returns (λ _, inv true D)) w → wp m (safe (ends D)) w.
Proof. intros Hm. eapply wp_returns; [done|]. by exists true. Qed.

Lemma wp_stream_abort wr reason D w :
  inv true D w → wp (writable_stream_abort user wr reason) (safe (ends D)) w.
Proof.
  intros Hw. apply wp_bind_gets. simpl. destruct (ended (state (stream w))).
  { apply wp_ret. by exists true. }
  eapply wp_into_inner; [done|]. clear w Hw. intros w Hw.
  eapply wp_then_safe; [by apply wp_abort_controller_abort|by exists false|]. clear w Hw. intros _ w Hw.
  eapply wp_from_class; [done|]. clear w Hw. intros w Hw. apply returns_ends.
  apply wp_bind_gets. destruct (ended (state (stream w))) eqn:He; [done|].
  destruct (pending_abort_request (stream w)) as [r|] eqn:Hp; [done|].
  apply (wp_new_request (add_abort _ _) (λ _ _, _)).
  eapply (wp_then _ _ (λ _, inv true D)); [|by intros [] w' ?].
  destruct (state (stream w)) eqn:Hs; try done; simpl.
  - by apply wp_start_erroring, failing_add_abort.
  - apply wp_ret. by eapply inv_add_abort.
Qed.

(** ** The writer *)

Lemma inv_new_writer D w ready closed n :
  inv true D w → writer (stream w) = None →
  (promise ready < length (promises w ++ n))%nat →
  (state (stream w) = Writable → 
    is_pending ready (on_promises (λ l, l ++ n) w) = backpressure (stream w) && negb (closing w)) →
  (is_pending ready (on_promises (λ l, l ++ n) w) = true →
    resolvers ready = true ∧ (length (promises w) <= promise ready)%nat) →
  inv true D (on_stream (set_writer (Some (length (writers w))))
    (on_writers (λ l, l ++ [mkWriter ready closed true]) (on_promises (λ l, l ++ n) w))).
Proof.
  intros [? [L1 L2 L3 L4] [] Hc ? ? ?] Hn Hl Hp1 Hp2. 
  assert (Hlink : ∀ i, is_attached i (on_writers (λ l, l ++ [mkWriter ready closed true]) w) = true ↔
    i = length (writers w)).
  { intros i. unfold is_attached. simpl. specialize (L1 i). unfold is_attached in L1. rewrite Hn in L1.
    destruct (decide (i < length (writers w))%nat).
    - rewrite lookup_app_l by done. naive_solver lia.
    - destruct (decide (i = length (writers w))) as [->|]; [by rewrite list_lookup_middle|].
      rewrite (proj2 (lookup_ge_None _ _)) by (rewrite length_app; simpl; lia). naive_solver. }
  constructor; try assumption.
  - constructor.
    + intros i. simpl. specialize (Hlink i). unfold is_attached in *. simpl in *. naive_solver.
    + simpl. rewrite length_app. eapply Forall_impl; [exact L2|]. simpl. intros r []. split; [done|lia].
    + intros p Hp. destruct (L3 p Hp). simpl. rewrite length_app. split; [lia|].
      unfold pend. simpl. rewrite lookup_app_l by done. done.
    + simpl. by apply lookup_app_l_Some.
  - by constructor.
  - destruct Hc as [[] ? ? ? ? ? ? ?]. constructor; try assumption. by constructor.
  - intros Hs i x Hi Hx. simpl in *. simplify_eq. rewrite list_lookup_middle in Hx by done. simplify_eq/=.
    split; [split; [done|by apply Hp1]|]. intros Hpe. destruct (Hp2 Hpe) as [? Hge]. split; [done|].
    intros Hin. apply list_elem_of_fmap in Hin as (r & Er & Hin).
    apply requests_held in Hin. assert (r ∈ owe_abort D ++ held w) as Hk by (apply elem_of_app; by right).
    eapply Forall_forall in L2; [|exact Hk]. simpl in L2. lia.
Qed.

Lemma on_promises_app a b w :
  on_promises (λ l, l ++ [b]) (on_promises (λ l, l ++ [a]) w) = on_promises (λ l, l ++ [a; b]) w.
Proof. unfold on_promises. simpl. by rewrite <- app_assoc. Qed.
Lemma on_promises_nil w : on_promises (λ l, l ++ []) w = w.
Proof. unfold on_promises. rewrite app_nil_r. by destruct w. Qed.

Lemma wp_set_up_writer D w :
  inv true D w → wp set_up_writable_stream_default_writer (safe (inv true D)) w.
Proof.
  intros Hw. apply wp_bind_gets. unfold is_writable_stream_locked.
  destruct (writer (stream w)) eqn:Hwr; [done|]. simpl.
  pose proof (inv_new_writer D w) as Hnew.
  assert (Hz : ∀ n, is_pending resolved_with_undefined (on_promises (λ l, l ++ n) w) = false).
  { intros n. pose proof (m_resolved _ _ (i_mem _ _ _ Hw)) as Hz. unfold is_pending. simpl.
    by rewrite (lookup_app_l_Some _ _ _ _ Hz). }
  assert (H0 : ∀ n, (promise_resolved_with_undefined < length (promises w ++ n))%nat).
  { intros n. pose proof (m_resolved _ _ (i_mem _ _ _ Hw)) as Hz'%lookup_lt_Some. rewrite length_app. lia. }
  assert (Hlast : ∀ s n b, is_pending (mkRP (length (promises w)) b) (on_promises (λ l, l ++ s :: n) w) =
    match s with Pending => true | _ => false end).
  { intros s n b. unfold is_pending. simpl. by rewrite list_lookup_middle. }
  destruct (state (stream w)) eqn:Hs.
  - destruct (negb (writable_stream_close_queued_or_in_flight (stream w)) && backpressure (stream w)) eqn:E;
      (apply wp_bind; repeat first [apply wp_bind_gets|apply wp_bind_modify|apply wp_ret|apply wp_bind]; simpl).
    + rewrite on_promises_app. apply Hnew; rewrite ?Hlast; try done.
      * rewrite length_app. simpl. lia.
      * intros _. unfold closing. by rewrite andb_comm, E.
    + apply Hnew; rewrite ?Hz; try done. intros _. unfold closing. by rewrite andb_comm, E.
  - repeat first [apply wp_bind_gets|apply wp_bind_modify|apply wp_ret|apply wp_bind]; simpl.
    rewrite <- (on_promises_nil w) at 2. apply Hnew; rewrite ?Hz; done.
  - repeat first [apply wp_bind_gets|apply wp_bind_modify|apply wp_ret|apply wp_bind]; simpl.
    rewrite on_promises_app. apply Hnew; rewrite ?Hlast; try done.
    rewrite length_app. simpl. lia.
  - repeat first [apply wp_bind_gets|apply wp_bind_modify|apply wp_ret|apply wp_bind]; simpl.
    apply Hnew; rewrite ?Hlast; try done. rewrite length_app. simpl. lia.
Qed.

Lemma mem_release H w i :
  mem H w → writer (stream w) = Some i →
  mem H (on_writers (alter (λ x, mkWriter (ready_promise x) (closed_promise x) false) i)
    (on_stream (set_writer None) w)).
Proof.
  intros [L1 L2 L3 L4] Hi. constructor; try done. intros j. simpl. split; [done|].
  unfold is_attached. simpl. destruct (decide (i = j)) as [->|Hne].
  - rewrite list_lookup_alter_eq. by destruct (writers w !! j).
  - rewrite list_lookup_alter_ne by done. intros Hj. destruct Hne.
    assert (writer (stream w) = Some j) as Hj' by by apply L1. congruence.
Qed.

Lemma wp_release i D w :
  inv true D w → is_attached i w = true →
  wp (writable_stream_default_writer_release i) (returns (λ _, inv true D)) w.
Proof.
  intros Hw Hi. apply (m_link _ _ (i_mem _ _ _ Hw)) in Hi.
  eapply wp_quiet; [apply quiet_ensure_ready|apply Hw|]. intros w1 Hm1 Hc1.
  eapply wp_quiet; [apply quiet_ensure_closed|done|]. intros w2 Hm2 Hc2. rewrite Hc1 in Hc2. clear w1 Hm1 Hc1.
  apply wp_bind_modify, wp_modify. injection Hc2 as Es Ec Er Eb El.
  destruct Hw as [Hb _ [] [[] ? ? ? ? ? ? ?] _ Hz Hp]. constructor.
  - simpl. by rewrite Eb.
  - apply mem_release; [done|]. by rewrite Es.
  - constructor; simpl; by rewrite ?Es, ?Ec, ?Er.
  - constructor; unfold queue_ok, phase_ok, has_ended, idle, chunks, sentinel; simpl;
      rewrite ?Es, ?Ec, ?Er, ?El; try assumption.
    constructor; unfold chunks; simpl; rewrite ?Es, ?Ec; assumption.
  - by intros _ j x.
  - unfold size_ok, closing, writable_stream_close_queued_or_in_flight. simpl. rewrite Es, Ec. exact Hz.
  - unfold progress, waits, chunks. simpl. rewrite Es, Ec. exact Hp.
Qed.

(** * Methods and scripts *)

Lemma wp_method {A} (m : M A) D w :
  inv false D w → (∀ w, inv true D w → wp m (safe (ends D)) w) → wp (method m) (safe (inv false D)) w.
Proof.
  intros Hw Hm. unfold method. eapply wp_from_class; [done|]. intros w1 H1. apply wp_finally.
  eapply wp_mono; [by apply Hm|]. intros [] w2; simpl; try done; intros [b Hb]; by eapply inv_borrowed.
Qed.

(** Scripts that write no close sentinel. *)
Definition fair_cmd (c : cmd) : Prop :=
  match c with WriterWrite _ (Some v) => v ≠ CloseSentinel | _ => True end.
Fixpoint fair (s : script) : Prop :=
  match s with Call c k => fair_cmd c ∧ ∀ r, fair (k r) | _ => True end.

Lemma wp_reply {A B} (m : M A) (f : A → B) D w :
  wp m (safe (ends D)) w → wp (let! a := m in ret (f a)) (safe (ends D)) w.
Proof. intros Hm. eapply wp_then_safe; [done|done|]. by intros a w' Hw'. Qed.

Lemma wp_run_cmd c D w : fair_cmd c → inv false D w → wp (run_cmd user c) (safe (inv false D)) w.
Proof.
  intros Hc Hw. apply wp_method; [done|]. clear w Hw. intros w Hw.
  assert (∀ v, wp (promise_rejected_with v) (safe (ends D)) w) as Hrej
    by (intros v; by apply returns_ends, wp_promise_rejected).
  destruct c as [|reason| | |i|i reason|i|i|i chunk|e]; try apply wp_reply.
  - by exists true.
  - apply wp_bind_gets. destruct (is_writable_stream_locked _); [apply Hrej|]. by apply wp_stream_abort.
  - apply wp_bind_gets. unfold is_writable_stream_locked. destruct (writer (stream w)) eqn:Hwr; [apply Hrej|]. simpl.
    destruct (writable_stream_close_queued_or_in_flight (stream w)) eqn:Hcl; [apply Hrej|].
    apply returns_ends. rewrite <- Hwr. by apply wp_stream_close.
  - eapply wp_mono; [by apply wp_set_up_writer|]. intros [] w'; simpl; try done; by exists true.
  - apply wp_bind_gets. destruct (is_attached i _); by exists true.
  - apply wp_bind_gets. destruct (is_attached i _); [by apply wp_stream_abort|apply Hrej].
  - apply wp_bind_gets. unfold id. destruct (is_attached i w) eqn:Hi; [|apply Hrej].
    destruct (writable_stream_close_queued_or_in_flight (stream w)) eqn:Hcl; [apply Hrej|].
    apply (m_link _ _ (i_mem _ _ _ Hw)) in Hi. apply returns_ends. rewrite <- Hi. by apply wp_stream_close.
  - apply wp_bind_gets, wp_when; unfold id; [|by exists true]. intros Hi. by apply returns_ends, wp_release.
  - apply wp_bind_gets. destruct (is_attached i _); [|apply Hrej]. apply returns_ends, wp_writer_write; [|done].
    by destruct chunk.
  - apply wp_bind_gets, wp_when; [|by exists true]. intros Hs. apply returns_ends, wp_error; [done|].
    by destruct (state (stream w)).
Qed.

Lemma wp_run_script s D w : fair s → inv false D w → wp (run_script user s) (safe (inv false D)) w.
Proof.
  revert w. induction s as [n|e|c k IH]; intros w; simpl; try done.
  intros [Hc Hk] Hw. eapply wp_then; [by apply wp_catch_safe, wp_run_cmd|].
  intros r w' Hw'. by apply IH.
Qed.

(** * Reactions *)

Lemma ready_settle s r w f :
  (∀ st, state (f st) = state st ∧ writer (f st) = writer st ∧ backpressure (f st) = backpressure st ∧
    writable_stream_close_queued_or_in_flight (f st) = writable_stream_close_queued_or_in_flight st) →
  (∀ p, p ∈ requests (f (stream w)) → p ∈ requests (stream w)) →
  r ∈ requests (stream w) → ready_ok [] w → ready_ok [] (settle s r (on_stream f w)).
Proof.
  intros Hf Hsub Hr Hok Hs i x Hi Hx. destruct (Hf (stream w)) as (F1 & F2 & F3 & F4).
  unfold closing in *. rewrite settle_stream in *. rewrite settle_writers in Hx. simpl in *.
  rewrite F1 in Hs. rewrite F2 in Hi. rewrite F3, F4.
  destruct (Hok Hs i x Hi Hx) as [[Hl E1] E2].
  assert (is_pending (ready_promise x) (settle s r (on_stream f w)) = is_pending (ready_promise x) w) as ->.
  { destruct (is_pending (ready_promise x) w) eqn:Hp.
    - apply is_pending_pend, settle_other; [|by apply is_pending_pend in Hp].
      destruct (E2 eq_refl) as [_ Hn]. intros E. apply Hn. rewrite <- E. by apply list_elem_of_fmap_2.
    - apply not_true_iff_false. rewrite is_pending_pend. intros Hp'%settle_pend.
      apply not_true_iff_false in Hp. apply Hp. by apply is_pending_pend. }
  rewrite settle_length. split; [done|]. intros Hp. destruct (E2 Hp) as [? Hn]. split; [done|].
  intros Hin. apply Hn. apply list_elem_of_fmap in Hin as (p & -> & Hin). apply list_elem_of_fmap_2. by apply Hsub.
Qed.

Lemma inv_live D w : inv true D w → ¬ idle w → ended (state (stream w)) = false.
Proof.
  intros Hw Hn. apply (c_live _ _ (i_ctl _ _ _ Hw)). unfold idle in Hn.
  destruct (started (controller w)), (in_flight_write_request (stream w)), (in_flight_close_request (stream w)); naive_solver.
Qed.

(** What is known when a reaction to the sink's start runs. *)
Lemma starting D w :
  inv true (owing_start true D) w → owe_start D = false →
  started (controller w) = false ∧ idle (on_controller (set_started true) w) ∧
  ended (state (stream w)) = false ∧ reac D (on_controller (set_started true) w) ∧
  ∃ l, sink_run (Starting, []) (log w) = Some (Starting, l) ∧ (state (stream w) = Writable → queue_ok l w).
Proof.
  intros Hw Ho. pose proof (i_reac _ _ _ Hw) as [R1 R2 R3]. simpl in R1.
  assert (started (controller w) = false) as Hst by (destruct (started (controller w)); simpl in R1; [lia|done]).
  pose proof (c_flight _ _ (i_ctl _ _ _ Hw)) as Hf. destruct (f_start _ Hf Hst) as [Hiw Hic].
  split_and!; try done.
  - apply (inv_live _ _ Hw). intros [E _]. congruence.
  - rewrite Hst in R1. constructor; simpl in *; rewrite ?Ho; simpl; lia.
  - destruct (c_trace _ _ (i_ctl _ _ _ Hw)) as (ph & l & Ht & Hph & Hq). exists l. split; [|done].
    unfold idle in Hph. destruct ph; simpl in Hph; rewrite ?Hst, ?Hiw, ?Hic in Hph; try done; unfold idle in Hph; naive_solver congruence.
Qed.

Lemma wp_upon_start result D w :
  inv true (owing_start true D) w → owe_start D = false →
  wp (upon_start user result) (returns (λ _, inv true D)) w.
Proof.
  intros Hw Ho. destruct (starting D w Hw Ho) as (Hst & Hi & He & Hr & l & Ht & Hq).
  apply wp_bind_gets, wp_bind_modify.
  destruct result as [e|[]]; apply wp_bind_modify.
  - apply wp_deal_with_rejection; try done.
    destruct (inv_failing _ _ Hw He) as [Hb Hm [] [] Ho' Ha _]. destruct Hr. constructor; try assumption.
    + mem_same Hm. by apply (requested_record _ w).
    + by constructor.
    + constructor; try assumption. done.
    + exists Failed, l. simpl. by rewrite sink_run_snoc, Ht.
  - apply wp_advance. destruct Hw as [Hb Hm _ [[] C2 C3 C4 C5 C6 C7 _] Hrd Hz _]. destruct Hr.
    destruct Hi as (_ & Hiw & Hic). simpl in Hiw, Hic.
    constructor; try assumption.
    + mem_same Hm. by apply (requested_record _ w).
    + by constructor.
    + constructor; try assumption; simpl; try done.
      exists Idle, l. by rewrite sink_run_snoc, Ht.
Qed.

(** What is known when a reaction to a write runs. *)
Lemma writing D w :
  inv true (owing_write true D) w → owe_write D = false →
  ∃ r c q l, in_flight_write_request (stream w) = Some r ∧ in_flight_close_request (stream w) = None ∧
    started (controller w) = true ∧ queue (container (controller w)) = c :: q ∧
    ended (state (stream w)) = false ∧ reac D (on_stream (set_in_flight_write None) w) ∧
    sink_run (Starting, []) (log w) = Some (Writing, l) ∧
    (state (stream w) = Writable → value <$> q = l ++ sentinel (stream w) ∧
      Forall (λ c, c ≠ CloseSentinel) l ∧ length l = length (write_requests (stream w))).
Proof.
  intros Hw Ho. pose proof (i_reac _ _ _ Hw) as [R1 R2 R3]. simpl in R2.
  destruct (in_flight_write_request (stream w)) as [r|] eqn:Hiw; simpl in R2; [|lia].
  pose proof (c_flight _ _ (i_ctl _ _ _ Hw)) as Hf.
  assert (in_flight_close_request (stream w) = None) as Hic.
  { apply eq_None_not_Some. intros Hs. destruct (f_close _ Hf Hs) as (_ & _ & ? & _). congruence. }
  assert (started (controller w) = true) as Hst.
  { apply not_false_iff_true. intros Hs. destruct (f_start _ Hf Hs). congruence. }
  assert (chunks w ≠ []) as Hne by (apply (f_write _ Hf); by eexists).
  destruct (c_trace _ _ (i_ctl _ _ _ Hw)) as (ph & l & Ht & Hph & Hq).
  unfold chunks in Hne. destruct (queue (container (controller w))) as [|c q] eqn:Eq; [done|].
  exists r, c, q, l. split_and!; try done.
  - apply (inv_live _ _ Hw). intros (_ & E & _). congruence.
  - constructor; simpl in *; rewrite ?Ho; simpl; lia.
  - unfold idle in Hph. destruct ph; simpl in Hph; rewrite ?Hst, ?Hiw, ?Hic in Hph; try done;
      unfold idle in Hph; naive_solver congruence.
  - intros Hs. destruct (Hq Hs) as (cur & E1 & E2 & E3 & E4). rewrite Hiw in E2. simpl in E2.
    destruct cur as [|c' [|]]; try done. unfold chunks in E1. rewrite Eq in E1. simplify_eq/=.
    inversion E3. done.
Qed.

(** Native code that holds the promise of the operation in flight. *)
Lemma mem_take_write H w r e :
  in_flight_write_request (stream w) = Some r → (∀ n, e ≠ Requested n) → mem H w →
  mem (r :: H) (on_stream (set_in_flight_write None) (record e w)).
Proof.
  intros Hr He Hm. mem_same Hm; [by apply (requested_record _ w)|].
  intros p. unfold held, requests. simpl. rewrite Hr. clear. set_solver.
Qed.
Lemma mem_take_close H w r e :
  in_flight_close_request (stream w) = Some r → (∀ n, e ≠ Requested n) → mem H w →
  mem (r :: H) (on_stream (set_in_flight_close None) (record e w)).
Proof.
  intros Hr He Hm. mem_same Hm; [by apply (requested_record _ w)|].
  intros p. unfold held, requests. simpl. rewrite Hr. clear. set_solver.
Qed.

Lemma wp_upon_write_ok D w :
  inv true (owing_write true D) w → owe_write D = false →
  wp (upon_write user (inr ())) (returns (λ _, inv true D)) w.
Proof.
  intros Hw Ho. destruct (writing D w Hw Ho) as (r & c & q & l & Hiw & Hic & Hst & Eq & He & Hr & Ht & Hq).
  apply wp_bind_gets, wp_bind_modify, wp_bind, wp_bind_gets, wp_bind_modify. simpl.
  eapply wp_bind_expect; [done|]. apply wp_modify. simpl. apply wp_bind, wp_bind_gets. unfold compose.
  rewrite settle_controller. simpl.
  eapply wp_bind_expect; [unfold dequeue_value; by rewrite Eq|]. apply wp_modify. cbn [then_].
  match goal with |- wp _ _ ?w' => set (w2 := w') end.
  assert (Es : stream w2 = set_in_flight_write None (stream w)) by (unfold w2; simpl; by rewrite settle_stream).
  assert (Ec : started (controller w2) = true ∧ algorithms (controller w2) = algorithms (controller w))
    by (unfold w2; simpl; by rewrite settle_controller).
  assert (Ek : chunks w2 = value <$> q) by done.
  assert (Er : reactions w2 = reactions w) by (unfold w2; simpl; by rewrite settle_reactions).
  assert (El : log w2 = log w ++ [WriteDone true]) by (unfold w2; simpl; by rewrite settle_log).
  assert (Hm2 : mem (owe_abort D) w2).
  { apply (mem_held (owe_abort D) _ (settle Fulfilled r (on_stream (set_in_flight_write None) (record (WriteDone true) w)))); try done.
    apply mem_settle_held; [done|]. apply mem_take_write; try done. apply Hw. }
  assert (Hrd : ready_ok [] w2).
  { apply (ready_settle _ _ (record (WriteDone true) w)); [done|..|apply Hw];
      unfold requests; simpl; rewrite ?Hiw; clear; set_solver. }
  assert (Hb : borrowed w2 = true).
  { unfold w2. simpl. rewrite (view_borrowed _ _ (settle_view _ _ _)). apply Hw. }
  clearbody w2. destruct Ec as [Ec1 Ec2].
  destruct (i_ctl _ _ _ Hw) as [[F1 F2 F3 F4] C2 C3 C4 C5 C6 C7 _].
  assert (Hctl : ctl D w2).
  { constructor; rewrite ?Es, ?Er, ?Ec2; simpl; try done.
    - constructor; rewrite ?Es, ?Ec2, ?Ec1, ?Ek; simpl; rewrite ?Hic; try done. by eauto.
    - by rewrite He.
    - exists Idle, l. rewrite El, sink_run_snoc, Ht. split; [done|]. split; [unfold phase_ok, idle; by rewrite Es, Ec1|].
      intros Hs. destruct (Hq Hs) as (E1 & E2 & E3). exists []. unfold sentinel in *. rewrite Ek, Es. by simpl. }
  assert (writer (stream w) = writer (stream w2)) as -> by by rewrite Es.
  eapply wp_then; [apply (wp_update_if_needed D); try done|].
  - destruct Hr. simpl in *. rewrite Hst in *. constructor; rewrite ?Es, ?Er, ?Ec1; done.
  - by rewrite Es.
  - intros [] w3 H3. by apply wp_advance.
Qed.

Lemma failing_core_eq D w w' :
  core w' = core w → mem [] w' → borrowed w = true → reac D w → flight w → owe_abort D = [] →
  aborting (reactions w) = [] →
  (∃ ph l, sink_run (Starting, []) (log w) = Some (ph, l) ∧ phase_ok no_abort (λ _, True) ph w) →
  failing D w'.
Proof.
  intros Hc Hm Hb [] Hf Ho Ha (ph & l & Ht & Hph). pose proof (core_view _ _ Hc) as Hv.
  unfold core in Hc. injection Hc as Es Ec Er Eb El.
  constructor; rewrite ?Es, ?Ec, ?Er, ?Eb, ?El; try done.
  - constructor; by rewrite ?Es, ?Ec, ?Er.
  - by apply (flight_view w).
  - exists ph, l. split; [done|]. revert Hph. unfold phase_ok, idle, no_abort. by rewrite Es, Ec.
Qed.

Lemma wp_upon_write_error e D w :
  inv true (owing_write true D) w → owe_write D = false →
  wp (upon_write user (inl e)) (returns (λ _, inv true D)) w.
Proof.
  intros Hw Ho. destruct (writing D w Hw Ho) as (r & c & q & l & Hiw & Hic & Hst & Eq & He & Hr & Ht & _).
  destruct (inv_failing _ _ Hw He) as [Hb Hm _ [F1 F2 F3 F4] Ho' Ha _].
  apply wp_bind_gets, wp_bind_modify, wp_bind_gets. cbn [compose].
  eapply (wp_then _ _ (λ _ w', ∃ f, w' = on_controller f (record (WriteDone false) w) ∧
    started (f (controller w)) = true ∧
    (is_Some (pending_abort_request (stream w)) → f (controller w) = controller w))).
  { apply wp_when; simpl; intros Hs.
    - exists writable_stream_default_controller_clear_algorithms. split_and!; [done|done|].
      intros Hp. destruct (c_pending _ _ (i_ctl _ _ _ Hw) Hp) as [e' E]. by rewrite E in Hs.
    - by exists id. }
  intros _ ? (f & -> & Hf1 & Hf2). apply wp_bind_gets, wp_bind_modify. simpl.
  eapply wp_bind_expect; [done|]. apply wp_bind_modify. destruct Hr.
  apply wp_deal_with_rejection.
  - eapply failing_core_eq; [apply settle_core| |done|..]; simpl; try done.
    + apply mem_settle_held; [done|].
      apply (mem_held (r :: []) _ (on_stream (set_in_flight_write None) (record (WriteDone false) w))); try done.
      by apply mem_take_write.
    + constructor; simpl; rewrite ?Hf1; try done. simpl in *. by rewrite Hst in *.
    + constructor; simpl; rewrite ?Hic, ?Hf1; try done.
      intros r' Hr'. rewrite Hf2 by (by eexists). intros. eapply F4; eauto.
    + exists Failed, l. rewrite sink_run_snoc, Ht. done.
  - unfold idle. rewrite settle_stream, settle_controller. simpl. by rewrite Hf1.
  - by rewrite settle_stream.
Qed.

(** What is known when a reaction to a close runs. *)
Lemma closing_down D w :
  inv true (owing_close true D) w → owe_close D = false →
  ∃ r l, in_flight_close_request (stream w) = Some r ∧ in_flight_write_request (stream w) = None ∧
    started (controller w) = true ∧ ended (state (stream w)) = false ∧
    reac D (on_stream (set_in_flight_close None) w) ∧
    sink_run (Starting, []) (log w) = Some (Closing, l).
Proof.
  intros Hw Ho. pose proof (i_reac _ _ _ Hw) as [R1 R2 R3]. simpl in R3.
  destruct (in_flight_close_request (stream w)) as [r|] eqn:Hic; simpl in R3; [|lia].
  pose proof (c_flight _ _ (i_ctl _ _ _ Hw)) as Hf.
  destruct (f_close _ Hf) as (_ & _ & Hiw & _); [by eexists|].
  assert (started (controller w) = true) as Hst.
  { apply not_false_iff_true. intros Hs. destruct (f_start _ Hf Hs). congruence. }
  destruct (c_trace _ _ (i_ctl _ _ _ Hw)) as (ph & l & Ht & Hph & _).
  exists r, l. split_and!; try done.
  - apply (inv_live _ _ Hw). intros (_ & _ & E). congruence.
  - constructor; simpl in *; rewrite ?Ho; simpl; lia.
  - destruct ph; simpl in Hph; rewrite ?Hst, ?Hiw, ?Hic in Hph; try done;
      unfold idle in Hph; naive_solver congruence.
Qed.

(** Taking the pending abort and settling its promise. *)
Lemma wp_take_pending_abort s w :
  s ≠ Pending → mem [] w →
  wp (take_pending_abort (λ p, modify (settle s p)))
    (returns (λ _ w', mem [] w' ∧ core w' = core (on_stream (set_pending_abort None) w))) w.
Proof.
  intros Hs Hm. apply wp_bind_gets, wp_bind_modify. simpl.
  destruct (pending_abort_request (stream w)) as [r|] eqn:Hp.
  - apply wp_modify. split; [|apply settle_core]. apply mem_settle_held; [done|]. mem_same Hm.
    intros p. unfold held. simpl. rewrite Hp. simpl. clear. set_solver.
  - apply wp_ret. split; [|done]. mem_same Hm. intros p. unfold held. simpl. by rewrite Hp.
Qed.

Lemma wp_upon_close_error wr e D w :
  inv true (owing_close true D) w → owe_close D = false →
  wp (upon_close user wr (inl e)) (returns (λ _, inv true D)) w.
Proof.
  intros Hw Ho. destruct (closing_down D w Hw Ho) as (r & l & Hic & Hiw & Hst & He & Hr & Ht).
  destruct (inv_failing _ _ Hw He) as [Hb Hm _ [F1 F2 F3 F4] Ho' Ha _].
  apply wp_bind_modify, wp_bind_gets, wp_bind_modify. simpl. eapply wp_bind_expect; [done|]. apply wp_bind_modify.
  eapply wp_then; [apply (wp_take_pending_abort (Rejected e)); [done|]|].
  { apply mem_settle_held; [done|]. by apply mem_take_close. }
  intros _ w2 [Hm2 Hc2]. rewrite <- settle_on_stream, settle_core in Hc2.
  pose proof Hc2 as Hc. unfold core in Hc. injection Hc as Es Ec Er Eb El.
  apply wp_deal_with_rejection; [|unfold idle; rewrite Es, Ec; done|rewrite Es; done].
  eapply failing_core_eq; [exact Hc2|done|done|..]; simpl; try done.
  - destruct Hr. by constructor.
  - constructor; simpl; rewrite ?Hiw, ?Hst; try done.
  - exists Over, l. rewrite sink_run_snoc, Ht. done.
Qed.

Lemma inv_closed D w :
  borrowed w = true → mem [] w → reac D w → owe_abort D = [] → aborting (reactions w) = [] →
  state (stream w) = Closed → idle w → chunks w = [] → write_requests (stream w) = [] →
  close_request (stream w) = None → pending_abort_request (stream w) = None →
  (∃ l, sink_run (Starting, []) (log w) = Some (Over, l)) → inv true D w.
Proof.
  intros Hb Hm Hr Ho Ha Hs (Hst & Hiw & Hic) Hk Hwr Hcr Hp [l Ht].
  constructor; rewrite ?Ho; try done; try (by intros ?; rewrite Hs in * ).
  2: { intros [[e ?]|?]; congruence. }
  constructor; rewrite ?Hs, ?Hk, ?Hwr, ?Hcr, ?Hp, ?Hiw, ?Hic, ?Hst, ?Ho, ?Ha; try done.
  - constructor; rewrite ?Hst, ?Hiw, ?Hic, ?Hp; try done; by intros [].
  - by intros [?|[[]|[]]].
  - exists Over, l. unfold phase_ok, idle, has_ended. by rewrite Hs.
Qed.

Lemma wp_upon_close_ok wr D w :
  inv true (owing_close true D) w → owe_close D = false →
  wp (upon_close user wr (inr ())) (returns (λ _, inv true D)) w.
Proof.
  intros Hw Ho. destruct (closing_down D w Hw Ho) as (r & l & Hic & Hiw & Hst & He & Hr & Ht).
  destruct (inv_failing _ _ Hw He) as [Hb Hm _ [F1 F2 F3 F4] Ho' Ha _].
  destruct F1 as (Hk & Hwr & _ & Hcr); [by eexists|].
  apply wp_bind_modify, wp_bind_gets, wp_bind_modify. simpl. eapply wp_bind_expect; [done|].
  apply wp_bind_modify, wp_bind_gets.
  set (w1 := settle _ _ _). assert (Hm1 : mem [] w1).
  { apply mem_settle_held; [done|]. by apply mem_take_close. }
  assert (Hc1 : core w1 = core (on_stream (set_in_flight_close None) (record (CloseDone true) w))) by apply settle_core.
  clearbody w1. pose proof Hc1 as Hc. unfold core in Hc. injection Hc as Es Ec Er Eb El.
  eapply (wp_then _ _ (λ _ w2, mem [] w2 ∧ core w2 = core (on_stream (set_pending_abort None) w1))).
  { destruct (state (stream w)) eqn:Hs; unfold compose; rewrite Es; simpl; rewrite Hs; simpl; try done.
    - split; [done|]. unfold core. simpl. rewrite Es. simpl.
      destruct (pending_abort_request (stream w)) eqn:Hp; [|by rewrite <- Hp; destruct (stream w)].
      destruct (c_pending _ _ (i_ctl _ _ _ Hw)) as [e' E]; [by eexists|congruence].
    - by apply wp_take_pending_abort. }
  intros [] w2 [Hm2 Hc2]. apply wp_bind_modify.
  eapply (wp_returns _ (λ _ w', mem [] w' ∧ core w' = core (on_stream (set_state Closed) w2))).
  { apply quiet_with_writer; [|mem_same Hm2]. intros i. apply quiet_with_closed. intros p. apply quiet_settle. }
  intros [] w3 [Hm3 Hc3]. unfold core in Hc2, Hc3. simpl in *.
  injection Hc2 as Es2 Ec2 Er2 Eb2 El2. injection Hc3 as Es3 Ec3 Er3 Eb3 El3. destruct Hr.
  apply inv_closed; unfold idle, chunks in *;
    rewrite ?Es3, ?Ec3, ?Er3, ?Eb3, ?El3, ?Es2, ?Ec2, ?Er2, ?Eb2, ?El2, ?Es, ?Ec, ?Er, ?Eb, ?El; try done.
  - constructor; rewrite ?Es3, ?Ec3, ?Er3, ?Es2, ?Ec2, ?Er2, ?Es, ?Ec, ?Er; done.
  - exists l. by rewrite sink_run_snoc, Ht.
Qed.

Lemma wp_upon_abort request result D w :
  inv true (owing_abort [abort_promise request] D) w → owe_abort D = [] →
  wp (upon_abort request result) (returns (λ _, inv true D)) w.
Proof.
  intros Hw Ho. destruct (c_aborting _ _ (i_ctl _ _ _ Hw)) as [e He]; [done|].
  assert (Hi : idle w).
  { destruct (i_ctl _ _ _ Hw) as [_ C2 _ _ _ _ _ _]. rewrite He in C2. unfold idle.
    destruct (started _), (in_flight_write_request _), (in_flight_close_request _); try done;
      exfalso; by discriminate C2; eauto. }
  assert (Hsettle : ∀ s, s ≠ Pending → wp
    (modify (settle s (abort_promise request)) ;!
      writable_stream_reject_close_and_closed_promise_if_needed (writer (stream w)))
    (returns (λ _, inv true D)) w).
  { intros s Hs. apply wp_bind_modify. apply (wp_reject_close _ _ e).
    - apply (errored_core D e (close_request (stream w)) w); [rewrite settle_core; by destruct w as [[]]|].
      destruct Hw as [? ? [] [_ _ C3 _ _ _ _ _] _ _ _]. rewrite He in C3. destruct C3 as (? & ? & ?); [done|].
      by constructor.
    - rewrite Ho. apply mem_settle_held; [done|]. apply Hw.
    - unfold stopped. rewrite settle_log. destruct (c_trace _ _ (i_ctl _ _ _ Hw)) as (ph & l & Ht & Hph & _).
      exists ph, l. split; [done|]. destruct Hi as (H1 & H2 & H3).
      destruct ph; simpl in Hph; rewrite ?H1, ?H2, ?H3 in Hph; try done; by destruct Hph. }
  apply wp_bind_gets. destruct result as [r|[]]; by apply Hsettle.
Qed.

(** A reaction takes over what the native code that registered it owed. *)
Lemma wp_run_reaction i r given w :
  inv false no_debt w → reactions w !! i = Some r →
  wp (run_reaction user r given) (safe (inv false no_debt)) (on_reactions (delete i) w).
Proof.
  intros Hw Hi.
  assert (Htake : ∀ D', 
    Nat.b2n (owe_start D') = Nat.b2n (is_start (kind r)) → Nat.b2n (owe_write D') = Nat.b2n (is_write (kind r)) →
    Nat.b2n (owe_close D') = Nat.b2n (is_close (kind r)) → owe_abort D' = aborting [r] →
    inv false D' (on_reactions (delete i) w)).
  { intros D' H1 H2 H3 H4. revert Hw. 
    apply inv_reactions; rewrite ?H1, ?H2, ?H3, ?H4, ?(count_delete _ _ _ _ Hi); simpl; try lia.
    intros p. by rewrite (aborting_delete _ _ _ Hi). }
  assert (Hrun : ∀ D' (m : M ()), inv false D' (on_reactions (delete i) w) →
    (∀ w, inv true D' w → wp m (returns (λ _, inv true no_debt)) w) →
    wp (method m) (safe (inv false no_debt)) (on_reactions (delete i) w)).
  { intros D' m HD Hm. unfold method. eapply wp_from_class; [exact HD|]. intros w1 H1. apply wp_finally.
    eapply wp_returns; [by apply Hm|]. intros a w2 H2. by apply (inv_borrowed true). }
  unfold run_reaction. unfold aborting in Htake. simpl in Htake. destruct (kind r) as [|c|c|q].
  - apply (Hrun (owing_start true no_debt)); [by apply Htake|]. intros. by apply wp_upon_start.
  - apply (Hrun (owing_write true no_debt)); [by apply Htake|]. intros.
    destruct (default _ _) as [e|[]]; [by apply wp_upon_write_error|by apply wp_upon_write_ok].
  - apply (Hrun (owing_close true no_debt)); [by apply Htake|]. intros.
    destruct (default _ _) as [e|[]]; [by apply wp_upon_close_error|by apply wp_upon_close_ok].
  - apply (Hrun (owing_abort [abort_promise q] no_debt)); [by apply Htake|]. intros. by apply wp_upon_abort.
Qed.

(** * The constructor *)

Lemma inv_set_up sink hwm size b :
  let c := initial_controller sink hwm size in
  b = writable_stream_default_controller_get_backpressure c →
  inv true (owing_start true no_debt)
    (mkWorld (set_backpressure b initial_stream) c [] [Fulfilled] [] true []).
Proof.
  intros c ->. constructor; try done.
  - constructor; try done; intros i; simpl; try done. intros Hi. by apply elem_of_nil in Hi.
  - constructor; try done; simpl.
    + constructor; simpl; done.
    + by intros [].
    + exists Starting, []. split_and!; try done. intros _. exists []. by split_and!.
  - intros [[e He]|Hc]; [done|]. by left.
Qed.

Lemma wp_new sink strategy :
  wp (new user sink strategy)
    (λ r w, match r with Returns _ => inv false no_debt w | Throws _ => True | Fault _ => False end)
    empty_world.
Proof.
  unfold new. destruct (sink_type sink); [done|].
  destruct (extract_high_water_mark strategy fone) as [hwm|]; [|done].
  apply wp_bind_modify, wp_bind, wp_bind_gets, wp_modify. simpl.
  apply wp_bind_gets, wp_bind, wp_bind_ret, wp_modify. simpl.
  eapply wp_into_inner; [by apply (inv_set_up sink hwm (extract_size_algorithm strategy))|]. intros w Hw.
  assert (Hupon : ∀ s w, inv false (owing_start true no_debt) w →
    inv false no_debt (on_reactions (λ l, l ++ [mkReaction UponStart s]) w)).
  { intros s w' Hw'. revert Hw'. apply inv_reactions; rewrite ?count_app; simpl; try lia.
    intros x. unfold aborting. rewrite omap_app. simpl. by rewrite app_nil_r. }
  destruct (sink_start sink); simpl.
  - eapply wp_seq; [eapply wp_then_safe; [by apply user_ok|done|by intros]|].
    intros [] w'; simpl; try done. intros Hw'. by apply Hupon.
  - by apply Hupon.
Qed.
End Proofs.

(** * Runs *)

Section Runs.
Context (body : ucall → world → script) (Hbody : ∀ c w, fair (body c w)).

Lemma user_call_ok depth D c w :
  inv false D w → wp (user_call body depth c) (safe (inv false D)) w.
Proof.
  revert D c w. induction depth as [|depth IH]; intros D c w Hw; simpl; [done|].
  apply wp_bind_gets. by apply wp_run_script.
Qed.

Definition fair_event (e : event) : Prop := match e with Do c => fair_cmd c | Fire _ _ => True end.

Lemma wp_step depth e w :
  fair_event e → inv false no_debt w → wp (step body depth e) (returns (λ _, inv false no_debt)) w.
Proof.
  intros He Hw. destruct e as [c|i given]; simpl.
  - eapply wp_then; [apply wp_catch_safe, wp_run_cmd; [apply user_call_ok|done|done]|]. by intros.
  - apply wp_bind_gets. destruct (reactions w !! i) as [r|] eqn:Hi; [|done]. apply wp_bind_modify.
    eapply wp_then; [apply wp_catch_safe, wp_run_reaction; [apply user_call_ok|done|done]|]. by intros.
Qed.

Lemma wp_steps depth es w :
  Forall fair_event es → inv false no_debt w →
  wp (steps body depth es) (returns (λ _, inv false no_debt)) w.
Proof.
  intros Hes. revert w. induction Hes as [|e es He Hes IH]; intros w Hw; simpl; [done|].
  eapply wp_then; [by apply wp_step|]. intros [] w' Hw'. by apply IH.
Qed.

Lemma run_ok depth sink strategy es :
  Forall fair_event es →
  match run body depth sink strategy es with
  | (w, Returns _) => inv false no_debt w
  | (_, Throws _) => True
  | (_, Fault _) => False
  end.
Proof.
  intros Hes. pose proof (wp_new (user_call body depth) (user_call_ok depth) sink strategy) as Hn.
  unfold run, bind. unfold wp in Hn. destruct (new _ _ _ _) as [w []]; simpl in Hn; [|done|done].
  pose proof (wp_steps depth es w Hes Hn) as Hs. unfold wp in Hs.
  by destruct (steps body depth es w) as [w' []].
Qed.
End Runs.

(** * The contract of the sink, unfolded *)

Definition accepted (es : list entry) : list val :=
  omap (λ e, match e with Accepted c => Some c | _ => None end) es.
Definition written (es : list entry) : list val :=
  omap (λ e, match e with SinkWrite c => Some c | _ => None end) es.

Lemma sink_run_order es ph l ph' l' :
  sink_run (ph, l) es = Some (ph', l') → l ++ accepted es = written es ++ l'.
Proof.
  revert ph l. induction es as [|e es IH]; intros ph l; simpl.
  { intros [= -> ->]. by rewrite app_nil_r. }
  intros ([ph1 l1] & Hs & Hr)%bind_Some. apply IH in Hr.
  destruct e, ph; simpl in Hs; try done; try (destruct l; [|done]); simplify_eq/=; try done;
    try (by rewrite <- Hr, <- app_assoc).
  destruct l as [|c l]; [done|]. case_decide; simplify_eq/=. by rewrite Hr.
Qed.

Lemma sink_run_over es ph l ph' l' :
  ph = Closing ∨ ph = Over → sink_run (ph, l) es = Some (ph', l') → l' = l.
Proof.
  revert ph l. induction es as [|e es IH]; intros ph l Hph; simpl; [by intros [= -> ->]|].
  intros ([ph1 l1] & Hs & Hr)%bind_Some. apply IH in Hr as ->;
    destruct Hph as [->| ->], e; simpl in Hs; try done; simplify_eq; auto.
Qed.

Lemma sink_run_closed es s ph l : sink_run s es = Some (ph, l) → SinkClose ∈ es → l = [].
Proof.
  revert s. induction es as [|e es IH]; intros [ph0 l0]; simpl; [set_solver|].
  intros ([ph1 l1] & Hs & Hr)%bind_Some [<-|Hin]%elem_of_cons; [|by eapply IH].
  destruct ph0; simpl in Hs; try done. destruct l0; [|done]. simplify_eq/=.
  apply sink_run_over in Hr; auto.
Qed.

(** * Properties *)

Section Properties.
Context (body : ucall → world → script) (depth : nat) (sink : UnderlyingSink).
Context (strategy : option QueuingStrategy) (es : list event).

(** C8. No native method of a stream panics, whatever the sink, the strategy and
    the listeners of the signal do when they are called and in whatever order
    the promises settle: every [expect] on a request, an algorithm or the queue
    holds, the borrows never conflict, and the failure code never runs in a
    finished stream.  The only thing asked of the scripts is that none of them
    writes the symbol the stream queues for a close. *)
Theorem writable_no_panic :
  (∀ c w, fair (body c w)) → Forall fair_event es →
  ∀ f, (run body depth sink strategy es).2 ≠ Fault f.
Proof.
  intros Hb Hes f. pose proof (run_ok body Hb depth sink strategy es Hes) as Hr.
  destruct (run body depth sink strategy es) as [w []]; naive_solver.
Qed.



(** C35. The [ready] promise is the backpressure signal: while the stream is
    writable and not closing, the promise of the writer it is locked to is
    pending exactly when the desired size is zero or less. *)
Theorem ready_is_backpressure w i :
  (∀ c w, fair (body c w)) → Forall fair_event es →
  run body depth sink strategy es = (w, Returns ()) →
  state (stream w) = Writable → closing w = false → writer (stream w) = Some i →
  ∃ x, writers w !! i = Some x ∧
    is_pending (ready_promise x) w = writable_stream_default_controller_get_backpressure (controller w).
Proof.
  intros Hb Hes Hr Hs Hc Hi. pose proof (run_ok body Hb depth sink strategy es Hes) as Hw. rewrite Hr in Hw.
  destruct (current_writer _ _ _ (i_mem _ _ _ Hw) Hi) as (x & Hx & _). exists x. split; [done|].
  destruct (i_ready _ _ _ Hw Hs i x Hi Hx) as [[_ E] _]. rewrite E, (i_size _ _ _ Hw Hs Hc), Hc. apply andb_true_r.
Qed.

End Properties.
