(* ===== verification/WritableRef.v ===== *)
(** Concrete runs of a [WritableStream]: the witnesses of the properties of
    [WritableProofs], and what the stream does where its code does not keep to
    the specification it follows. *)

From S2P Require Import Prelude Numbers Effects StreamQueue WritableStream WritableProofs.

(** A sink whose [write] reports an error to the controller for chunk 9, and
    listeners that do nothing. *)
Definition demo_body (c : ucall) (w : world) : script :=
  match c with
  | CallWrite (Prim 9) => Call (ControllerError (Some (Obj 1))) (λ _, Return None)
  | _ => Return None
  end.

Definition full_sink : UnderlyingSink := mkSink true true true true false.

Definition one (n : nat) : event := Do (WriterWrite 0 (Some (Prim n))).
Definition done_ (i : nat) : event := Fire i (inr ()).

(** Two chunks, written before the sink has started, and a close. *)
Definition demo : list event :=
  [Do GetWriter; one 1; one 2; done_ 0; done_ 0; Do (WriterClose 0); done_ 0; done_ 0].

(** The same, with an abort that waits for the second write and fails. *)
Definition demo_abort : list event :=
  [Do GetWriter; one 1; one 2; done_ 0; done_ 0; Do (WriterClose 0);
   Do (WriterAbort 0 (Some (Obj 7))); Fire 0 (inl (Obj 8)); Fire 0 (inl (Obj 9))].

Definition final (es : list event) : world := (run demo_body 3 full_sink None es).1.

Lemma demo_fair c w : fair (demo_body c w).
Proof. destruct c as [|[]| | | | |]; simpl; try done. by do 10 (destruct n as [|n]; simpl; try done). Qed.

Lemma demo_returns : run demo_body 3 full_sink None demo = (final demo, Returns ()).
Proof. vm_compute. reflexivity. Qed.

Lemma demo_events : Forall fair_event demo.
Proof. repeat constructor; discriminate. Qed.

Lemma demo_abort_returns : run demo_body 3 full_sink None demo_abort = (final demo_abort, Returns ()).
Proof. vm_compute. reflexivity. Qed.

Lemma demo_abort_events : Forall fair_event demo_abort.
Proof. repeat constructor; discriminate. Qed.

Lemma writable_no_panic_witness : (run demo_body 3 full_sink None demo).2 ≠ Fault NoCloseRequest.
Proof. apply (writable_no_panic demo_body 3 full_sink None demo demo_fair demo_events). Defined.



Lemma ready_is_backpressure_witness :
  ∃ x, writers (final (take 3 demo)) !! 0%nat = Some x ∧
    is_pending (ready_promise x) (final (take 3 demo)) =
    writable_stream_default_controller_get_backpressure (controller (final (take 3 demo))).
Proof.
  apply (ready_is_backpressure demo_body 3 full_sink None (take 3 demo) _ 0 demo_fair);
    [apply Forall_take, demo_events|vm_compute; reflexivity..].
Defined.


Definition sink_log (w : world) : list entry :=
  List.filter (λ e, match e with Requested _ => false | _ => true end) (log w).

(** What the sink saw, and how the promises of the requests ended. *)
Example demo_log :
  sink_log (final demo) =
    [Accepted (Prim 1); Accepted (Prim 2); StartDone true; SinkWrite (Prim 1); WriteDone true;
     SinkWrite (Prim 2); WriteDone true; SinkClose; CloseDone true] ∧
  state (stream (final demo)) = Closed ∧ reactions (final demo) = [].
Proof. vm_compute. auto. Qed.

Example demo_abort_log :
  sink_log (final demo_abort) =
    [Accepted (Prim 1); Accepted (Prim 2); StartDone true; SinkWrite (Prim 1); WriteDone true;
     SinkWrite (Prim 2); WriteDone false; SinkAbort (Obj 7)] ∧
  state (stream (final demo_abort)) = Errored (Obj 7) ∧ reactions (final demo_abort) = [].
Proof. vm_compute. auto. Qed.

(** Writing the registered symbol of the close sentinel makes the native code
    close a stream nobody closed, and panic. *)
Example close_sentinel_panics :
  (run demo_body 3 full_sink None
    [Do GetWriter; Do (WriterWrite 0 (Some CloseSentinel)); done_ 0]).2 = Fault NoCloseRequest.
Proof. vm_compute. reflexivity. Qed.

(** The reaction to a close resolves the [closed] promise of the writer the close
    was made with.  A writer that took the lock while the sink was closing has
    a [closed] promise nothing will settle. *)
Example new_writer_never_closed :
  let w := final [Do GetWriter; done_ 0; Do (WriterClose 0); Do (WriterReleaseLock 0); Do GetWriter; done_ 0] in
  state (stream w) = Closed ∧ writer (stream w) = Some 1%nat ∧ reactions w = [] ∧
  (closed_promise <$> writers w !! 1%nat) ≫= (λ p, promises w !! promise p) = Some Pending.
Proof. vm_compute. auto. Qed.

(** A listener of the abort signal that throws makes [abort] throw instead of
    returning a promise, and the stream stays writable with its signal aborted. *)
Definition throwing_body (c : ucall) (w : world) : script :=
  match c with AbortListeners => Throw (Obj 5) | _ => Return None end.

Example throwing_listener :
  let s := run throwing_body 3 full_sink None [done_ 0] in
  (run_cmd (user_call throwing_body 3) (Abort (Some (Obj 7))) s.1).2 = Throws (Obj 5) ∧
  let w := (run_cmd (user_call throwing_body 3) (Abort (Some (Obj 7))) s.1).1 in
  state (stream w) = Writable ∧ aborted (abort_controller (controller w)) = true ∧
  (run_cmd (user_call throwing_body 3) (Abort (Some (Obj 7))) w).2 ≠ Throws (Obj 5).
Proof. vm_compute. split_and!; try reflexivity. discriminate. Qed.

(** A listener that hands the lock over to another writer: [abort] rejects the
    [ready] promise of the writer it was called on, and the one of the current
    writer stays pending in a stream that has failed. *)
Definition relocking_body (c : ucall) (w : world) : script :=
  match c with
  | AbortListeners => Call (WriterReleaseLock 0) (λ _, Call GetWriter (λ _, Return None))
  | _ => Return None
  end.

Example stale_ready_promise :
  let w := (run relocking_body 3 (mkSink true true true true false)
    (Some (mkStrategy (Some (Some fzero)) None))
    [Do GetWriter; done_ 0; Do (WriterAbort 0 None); done_ 0]).1 in
  state (stream w) = Errored Undefined ∧ writer (stream w) = Some 1%nat ∧ reactions w = [] ∧
  (ready_promise <$> writers w !! 1%nat) ≫= (λ p, promises w !! promise p) = Some Pending.
Proof. vm_compute. auto. Qed.
