(* ===== verification/ReadableStream.v ===== *)
(** [ReadableStream] with its default controller and default reader
    ([modules/raster_runtime_stream_web/src/readable/], with [utils/promise.rs]).

    The state is one stream with its controller and every reader made for it.
    The code the stream calls (the functions of the underlying source, native
    ones included, the strategy's [size]) is a parameter: scripts that call back
    into the stream, its controller and its readers, and may read the whole
    state.  A promise is an index into a store of promise states; a reaction
    registered with [upon_promise] waits in a list until the environment lets it
    run.  Native methods hold the stream, its controller and a reader borrowed
    (one flag) and give them up around the code they call.  A read request is
    the promise [read] returned. *)

From S2P Require Import Prelude Numbers Effects StreamQueue.
From Stdlib Require Import SpecFloat.

(** * Data *)

(** What a promise of the stream is fulfilled with: undefined, or the result of
    a read. *)
Inductive result := Done_undefined | ReadResult (value : option val) (done : bool).

Inductive pstate := Pending | Fulfilled (r : result) | Rejected (reason : val).

Inductive ReadableStreamState := Readable | Closed | Errored (e : val).

#[export] Instance state_eq_dec : EqDecision ReadableStreamState.
Proof. solve_decision. Defined.

(** [reader]: the index of the reader the stream is locked to. *)
Record ReadableStream := mkStream {
  disturbed : bool;
  state : ReadableStreamState;
  reader : option nat
}.

Inductive SourceAlgorithm := ReturnPromiseUndefined | Function | RustFunction.

(** [cancel_fn]: the [FnOnce] of a native cancel algorithm has not been taken. *)
Record Controller := mkController {
  cancel_algorithm : option SourceAlgorithm;
  cancel_fn : bool;
  close_requested : bool;
  pull_again : bool;
  pull_algorithm : option SourceAlgorithm;
  pulling : bool;
  container : QueueWithSizes val;
  started : bool;
  strategy_hwm : f64;
  strategy_size_algorithm : option SizeAlgorithm;
  native_pull : bool
}.

(** [attached]: [reader.generic.stream] is there. *)
Record Reader := mkReader {
  closed_promise : ResolveablePromise;
  attached : bool;
  read_requests : list ResolveablePromise
}.

(** What [upon_promise] waits for.  [UponCancel p] and [UponNative p] settle [p]:
    the promise [cancel] returned, and the one a native read made of a future. *)
Inductive reaction_kind :=
  | UponStart
  | UponPull
  | UponCancel (p : ResolveablePromise)
  | UponNative (p : ResolveablePromise).

(** How a promise settles: with a reason, or with a value if it has one. *)
Notation settlement := (val + option val)%type.

(** [settled]: how the promise is known to settle; [None] when it is up to the
    source. *)
Record reaction := mkReaction { kind : reaction_kind; settled : option settlement }.

(** What happened, for the statements about the order of things: reads asked
    for, chunks accepted from the source, the chunk a read was matched with,
    reads that ended without one, requests a released reader dropped, chunks
    thrown away; the end of the stream ([by_cancel]: because it was cancelled);
    the calls of the source's functions and the ends of its operations. *)
Inductive entry :=
  | Asked (p : nat)
  | Accepted (chunk : val)
  | Matched (p : nat) (chunk : val)
  | Answered (p : nat)
  | Dropped (p : nat)
  | Discarded
  | Ended (by_cancel : bool)
  | StartDone (ok : bool)
  | SourcePull
  | PullDone (ok : bool)
  | SourceCancel (reason : val).

Record world := mkWorld {
  stream : ReadableStream;
  controller : Controller;
  readers : list Reader;
  promises : list pstate;
  reactions : list reaction;
  borrowed : bool;
  log : list entry
}.

(** Rust panics: the [expect]s of the source, and a borrow of what is borrowed. *)
Inductive fault :=
  | PullAlgorithmCleared
  | SizeAlgorithmCleared
  | CancelAlgorithmCleared
  | CancelCalledTwice
  | NoDesiredSize
  | NoReadRequest
  | EmptyQueue
  | NoReader
  | AlreadyBorrowed.

Notation M := (Effects.M world val fault).

(** ** Field updates *)

Definition set_disturbed b s := mkStream b (state s) (reader s).
Definition set_state st s := mkStream (disturbed s) st (reader s).
Definition set_reader i s := mkStream (disturbed s) (state s) i.

Definition set_cancel_fn b c := mkController (cancel_algorithm c) b (close_requested c)
  (pull_again c) (pull_algorithm c) (pulling c) (container c) (started c) (strategy_hwm c)
  (strategy_size_algorithm c) (native_pull c).
Definition set_close_requested b c := mkController (cancel_algorithm c) (cancel_fn c) b
  (pull_again c) (pull_algorithm c) (pulling c) (container c) (started c) (strategy_hwm c)
  (strategy_size_algorithm c) (native_pull c).
Definition set_pull_again b c := mkController (cancel_algorithm c) (cancel_fn c)
  (close_requested c) b (pull_algorithm c) (pulling c) (container c) (started c) (strategy_hwm c)
  (strategy_size_algorithm c) (native_pull c).
Definition set_pulling b c := mkController (cancel_algorithm c) (cancel_fn c)
  (close_requested c) (pull_again c) (pull_algorithm c) b (container c) (started c)
  (strategy_hwm c) (strategy_size_algorithm c) (native_pull c).
Definition set_container q c := mkController (cancel_algorithm c) (cancel_fn c)
  (close_requested c) (pull_again c) (pull_algorithm c) (pulling c) q (started c)
  (strategy_hwm c) (strategy_size_algorithm c) (native_pull c).
Definition set_started b c := mkController (cancel_algorithm c) (cancel_fn c)
  (close_requested c) (pull_again c) (pull_algorithm c) (pulling c) (container c) b
  (strategy_hwm c) (strategy_size_algorithm c) (native_pull c).
Definition set_native_pull b c := mkController (cancel_algorithm c) (cancel_fn c)
  (close_requested c) (pull_again c) (pull_algorithm c) (pulling c) (container c) (started c)
  (strategy_hwm c) (strategy_size_algorithm c) b.

Definition on_stream f w := mkWorld (f (stream w)) (controller w) (readers w) (promises w)
  (reactions w) (borrowed w) (log w).
Definition on_controller f w := mkWorld (stream w) (f (controller w)) (readers w) (promises w)
  (reactions w) (borrowed w) (log w).
Definition on_readers f w := mkWorld (stream w) (controller w) (f (readers w)) (promises w)
  (reactions w) (borrowed w) (log w).
Definition on_promises f w := mkWorld (stream w) (controller w) (readers w) (f (promises w))
  (reactions w) (borrowed w) (log w).
Definition on_reactions f w := mkWorld (stream w) (controller w) (readers w) (promises w)
  (f (reactions w)) (borrowed w) (log w).
Definition set_borrowed b w := mkWorld (stream w) (controller w) (readers w) (promises w)
  (reactions w) b (log w).
Definition record e w := mkWorld (stream w) (controller w) (readers w) (promises w)
  (reactions w) (borrowed w) (log w ++ [e]).

(** * Promises ([utils/promise.rs]) *)

Definition make_promise (s : pstate) : M nat :=
  let! p := gets (λ w, length (promises w)) in
  modify (on_promises (λ ps, ps ++ [s])) ;!
  ret p.

Definition new_promise : M ResolveablePromise :=
  let! p := make_promise Pending in ret (mkRP p true).

Definition promise_rejected_with (v : val) : M nat := make_promise (Rejected v).

Definition promise_rejected_with_constructor (msg : list Z) : M nat :=
  promise_rejected_with (TypeError msg).

(** [promise_resolved_with] of a value that is no promise. *)
Definition promise_resolved_with (r : result) : M nat := make_promise (Fulfilled r).

(** The promise every runtime makes once is the first of the store. *)
Definition promise_resolved_with_undefined : nat := 0.
Definition resolved_with_undefined : ResolveablePromise :=
  mkRP promise_resolved_with_undefined false.

Definition rejected_with (v : val) : M ResolveablePromise :=
  let! p := promise_rejected_with v in ret (mkRP p false).

(** A promise settles once. *)
Definition settle (s : pstate) (p : ResolveablePromise) (w : world) : world :=
  if resolvers p then
    on_promises (alter (λ old, match old with Pending => s | _ => old end) (promise p)) w
  else w.
Definition resolve (p : ResolveablePromise) (r : result) : M () := modify (settle (Fulfilled r) p).
Definition resolve_undefined (p : ResolveablePromise) : M () := resolve p Done_undefined.
Definition reject (p : ResolveablePromise) (v : val) : M () := modify (settle (Rejected v) p).

Definition upon_promise (k : reaction_kind) (s : option settlement) : M () :=
  modify (on_reactions (λ l, l ++ [mkReaction k s])).

(** * The code the stream calls *)

Inductive ucall :=
  | CallStart
  | CallPull
  | CallCancel (reason : val)
  | CallSize (f : nat) (chunk : val)
  | GetByteLength (chunk : val).

(** What JavaScript can do with the stream, its controller and reader [i]; the
    last three are the functions native sources call. *)
Inductive cmd :=
  | Locked
  | Disturbed
  | Cancel (reason : option val)
  | GetReader (byob : bool)
  | ReaderRead (i : nat)
  | ReaderReleaseLock (i : nat)
  | ReaderClosed (i : nat)
  | ReaderCancel (i : nat) (reason : option val)
  | DesiredSize
  | ControllerClose
  | ControllerEnqueue (chunk : option val)
  | ControllerError (e : option val)
  | EnqueueValue (chunk : val)
  | CloseStream
  | ErrorStream (e : val).

Inductive reply :=
  | RBool (b : bool)
  | RPromise (p : nat)
  | RReader (i : nat)
  | RSize (d : option f64)
  | RUnit
  | RThrown (e : val).

(** A function of the source: it ends with what its result is as a number, or
    throws, after calls into the stream. *)
Inductive script :=
  | Return (as_num : option f64)
  | Throw (e : val)
  | Call (c : cmd) (k : reply → script).

(** What a native pull answers. *)
Inductive NativePullResult := Ready (chunk : val) | Eof | PendingFuture.

(** * Operations *)

Definition is_some {A} (o : option A) : bool := match o with Some _ => true | None => false end.
Definition is_readable (s : ReadableStreamState) : bool :=
  match s with Readable => true | _ => false end.
Definition is_nil {A} (l : list A) : bool := match l with [] => true | _ => false end.

Definition is_readable_stream_locked (s : ReadableStream) : bool := is_some (reader s).

(** [OwnedBorrowMut::from_class] and [into_inner]. *)
Definition from_class : M () :=
  let! b := gets borrowed in
  if b then panic AlreadyBorrowed else modify (set_borrowed true).
Definition into_inner : M () := modify (set_borrowed false).

(** ** Readers *)

(** [with_reader], for a default controller: what is done with the reader the
    operation has. *)
Definition with_reader {A} (rd : option nat) (default : nat → Reader → M A) (none : M A) : M A :=
  match rd with
  | None => none
  | Some i =>
      let! o := gets (λ w, readers w !! i) in
      let! x := expect NoReader o in
      default i x
  end.

Definition set_closed (i : nat) (p : ResolveablePromise) : M () :=
  modify (on_readers (alter (λ x, mkReader p (attached x) (read_requests x)) i)).
Definition set_requests (i : nat) (l : list ResolveablePromise) : M () :=
  modify (on_readers (alter (λ x, mkReader (closed_promise x) (attached x) l) i)).
Definition detach (i : nat) : M () :=
  modify (on_readers (alter (λ x, mkReader (closed_promise x) false (read_requests x)) i)).

(** The steps of the request [read] makes. *)
Definition chunk_steps (r : ResolveablePromise) (chunk : val) : M () :=
  resolve r (ReadResult (Some chunk) false).
Definition close_steps (r : ResolveablePromise) : M () :=
  modify (record (Answered (promise r))) ;!
  resolve r (ReadResult None true).
Definition request_error_steps (r : ResolveablePromise) (e : val) : M () :=
  modify (record (Answered (promise r))) ;!
  reject r e.

Fixpoint for_each (f : ResolveablePromise → M ()) (l : list ResolveablePromise) : M () :=
  match l with
  | [] => ret ()
  | r :: l => f r ;! for_each f l
  end.

Definition readable_stream_default_reader_error_read_requests (i : nat) (e : val) : M () :=
  with_reader (Some i) (λ i x,
    set_requests i [] ;!
    for_each (λ r, request_error_steps r e) (read_requests x)) (ret ()).

Definition readable_stream_get_num_read_requests (x : Reader) : nat := length (read_requests x).

Definition readable_stream_add_read_request (i : nat) (r : ResolveablePromise) : M () :=
  with_reader (Some i) (λ i x, set_requests i (read_requests x ++ [r])) (ret ()).

Definition readable_stream_fulfill_read_request (i : nat) (chunk : val) (done : bool) : M () :=
  with_reader (Some i) (λ i x,
    match read_requests x with
    | [] => panic NoReadRequest
    | r :: l =>
        set_requests i l ;!
        if done then close_steps r
        else modify (record (Matched (promise r) chunk)) ;! chunk_steps r chunk
    end) (ret ()).

(** ** The stream *)

Definition readable_stream_error (rd : option nat) (e : val) : M () :=
  modify (on_stream (set_state (Errored e))) ;!
  modify (record (Ended false)) ;!
  with_reader rd (λ i x,
    reject (closed_promise x) e ;!
    readable_stream_default_reader_error_read_requests i e) (ret ()).

(** [by_cancel] only matters for the log. *)
Definition readable_stream_close (by_cancel : bool) (rd : option nat) : M () :=
  modify (on_stream (set_state Closed)) ;!
  modify (record (Ended by_cancel)) ;!
  with_reader rd (λ i x,
    resolve_undefined (closed_promise x) ;!
    set_requests i [] ;!
    for_each close_steps (read_requests x)) (ret ()).

(** ** The controller *)

Definition readable_stream_default_controller_clear_algorithms (c : Controller) : Controller :=
  mkController None (cancel_fn c) (close_requested c) (pull_again c) None (pulling c)
    (container c) (started c) (strategy_hwm c) None false.
Definition clear_algorithms : M () :=
  modify (on_controller readable_stream_default_controller_clear_algorithms).

Definition readable_stream_default_controller_can_close_or_enqueue (c : Controller)
    (s : ReadableStream) : bool :=
  match state s with Readable => negb (close_requested c) | _ => false end.
Definition can_close_or_enqueue (w : world) : bool :=
  readable_stream_default_controller_can_close_or_enqueue (controller w) (stream w).

Definition readable_stream_default_controller_get_desired_size (c : Controller)
    (s : ReadableStream) : option f64 :=
  match state s with
  | Errored _ => None
  | Closed => Some fzero
  | Readable => Some (fsub (strategy_hwm c) (queue_total_size (container c)))
  end.

Definition reset_container : M () :=
  modify (record Discarded) ;!
  modify (on_controller (λ c, set_container (reset_queue (container c)) c)).

Definition readable_stream_default_controller_error (rd : option nat) (e : val) : M () :=
  let! s := gets (state ∘ stream) in
  if negb (is_readable s) then ret ()
  else
    reset_container ;!
    clear_algorithms ;!
    readable_stream_error rd e.

Definition readable_stream_default_controller_should_call_pull (rd : option nat) : M bool :=
  let! w := gets id in
  if negb (can_close_or_enqueue w) then ret false
  else if negb (started (controller w)) then ret false
  else
    let! waiting := with_reader rd
      (λ _ x, ret (0 <? readable_stream_get_num_read_requests x)%nat) (ret false) in
    if waiting : bool then ret true
    else
      let! desired_size := expect NoDesiredSize
        (readable_stream_default_controller_get_desired_size (controller w) (stream w)) in
      ret (SFltb fzero desired_size).

Definition readable_stream_default_controller_close (rd : option nat) : M () :=
  let! w := gets id in
  if negb (can_close_or_enqueue w) then ret ()
  else
    modify (on_controller (set_close_requested true)) ;!
    when (is_nil (queue (container (controller w))))
      (clear_algorithms ;! readable_stream_close false rd).

Definition dequeue : M val :=
  let! q := gets (container ∘ controller) in
  let! vq := expect EmptyQueue (dequeue_value q) in
  modify (on_controller (set_container vq.2)) ;!
  ret vq.1.

(** [enqueue_value_with_size]: the exception, if it throws. *)
Definition enqueue_value (chunk : val) (s : SizeValue) : M (val + ()) :=
  let! q := gets (container ∘ controller) in
  match enqueue_value_with_size chunk s q with
  | None => ret (inl (RangeError (bs "Size must be a finite, non-NaN, non-negative number.")))
  | Some q =>
      modify (record (Accepted chunk)) ;!
      modify (on_controller (set_container q)) ;!
      ret (inr ())
  end.

Section Operations.
Context (user : ucall → M (option f64)) (native : world → val + NativePullResult).

(** A call of the source from a native method: nothing is borrowed during it. *)
Definition call_user (c : ucall) : M (val + option f64) :=
  into_inner ;!
  let! r := catch (user c) in
  from_class ;!
  ret r.

(** [promise_resolved_with]: how the promise of a call settles, when that is
    already known. *)
Definition promise_of {A} (r : val + A) : option settlement :=
  match r with inl e => Some (inl e) | inr _ => None end.

(** The [.call] of the source's algorithms: an exception of a JavaScript function
    is a rejected promise, one of a native function is thrown. *)
Definition call_algorithm (a : SourceAlgorithm) (c : ucall) : M (option settlement) :=
  match a with
  | ReturnPromiseUndefined => into_inner ;! from_class ;! ret (Some (inr None))
  | Function => let! r := call_user c in ret (promise_of r)
  | RustFunction =>
      let! r := call_user c in
      match r with inl e => throw e | inr _ => ret None end
  end.

Definition run_pull_algorithm : M (option settlement) :=
  let! a := gets (pull_algorithm ∘ controller) in
  let! a := expect PullAlgorithmCleared a in
  modify (record SourcePull) ;!
  call_algorithm a CallPull.

Definition readable_stream_default_controller_call_pull_if_needed (rd : option nat) : M () :=
  let! should_pull := readable_stream_default_controller_should_call_pull rd in
  if negb should_pull then ret ()
  else
    let! c := gets controller in
    if pulling c then modify (on_controller (set_pull_again true))
    else
      modify (on_controller (set_pulling true)) ;!
      let! pull_promise := run_pull_algorithm in
      upon_promise UponPull pull_promise.

(** The [FnOnce] of a native cancel algorithm is taken before it is called. *)
Definition take_cancel_fn (a : SourceAlgorithm) : M () :=
  match a with
  | RustFunction =>
      let! c := gets controller in
      if cancel_fn c then modify (on_controller (set_cancel_fn false)) else panic CancelCalledTwice
  | _ => ret ()
  end.

Definition run_cancel_algorithm (reason : val) : M (option settlement) :=
  let! a := gets (cancel_algorithm ∘ controller) in
  let! a := expect CancelAlgorithmCleared a in
  take_cancel_fn a ;!
  modify (record (SourceCancel reason)) ;!
  call_algorithm a (CallCancel reason).

Definition cancel_steps (reason : val) : M (option settlement) :=
  reset_container ;!
  let! result := run_cancel_algorithm reason in
  clear_algorithms ;!
  ret result.

Definition call_size_algorithm (chunk : val) : M (val + SizeValue) :=
  let! a := gets (strategy_size_algorithm ∘ controller) in
  let! a := expect SizeAlgorithmCleared a in
  into_inner ;!
  let! r := catch (size_algorithm_call (λ f chunk, user (CallSize f chunk))
    (λ chunk, user (GetByteLength chunk)) a chunk) in
  from_class ;!
  ret r.

Definition readable_stream_default_controller_enqueue (rd : option nat) (chunk : val) : M () :=
  let! w := gets id in
  if negb (can_close_or_enqueue w) then ret ()
  else
    let! els := with_reader rd (λ i x,
      if (0 <? readable_stream_get_num_read_requests x)%nat then
        modify (record (Accepted chunk)) ;!
        readable_stream_fulfill_read_request i chunk false ;!
        ret false
      else ret true) (ret true) in
    when els (
      let! result := call_size_algorithm chunk in
      match result with
      | inl err =>
          readable_stream_default_controller_error rd err ;!
          throw err
      | inr chunk_size =>
          let! enqueue_result := enqueue_value chunk chunk_size in
          match enqueue_result with
          | inl err =>
              readable_stream_default_controller_error rd err ;!
              throw err
          | inr () => ret ()
          end
      end) ;!
    readable_stream_default_controller_call_pull_if_needed rd.

Definition pull_steps (i : nat) (r : ResolveablePromise) : M () :=
  let! c := gets controller in
  if negb (is_nil (queue (container c))) then
    let! chunk := dequeue in
    modify (record (Matched (promise r) chunk)) ;!
    let! c := gets controller in
    (if close_requested c && is_nil (queue (container c)) then
       clear_algorithms ;!
       readable_stream_close false (Some i)
     else readable_stream_default_controller_call_pull_if_needed (Some i)) ;!
    chunk_steps r chunk
  else
    readable_stream_add_read_request i r ;!
    readable_stream_default_controller_call_pull_if_needed (Some i).

(** ** Requests of the user's *)

Definition readable_stream_cancel (rd : option nat) (reason : val) : M nat :=
  modify (on_stream (set_disturbed true)) ;!
  let! s := gets (state ∘ stream) in
  match s with
  | Closed => promise_resolved_with Done_undefined
  | Errored e => promise_rejected_with e
  | Readable =>
      readable_stream_close true rd ;!
      let! source_cancel_promise := cancel_steps reason in
      let! p := new_promise in
      upon_promise (UponCancel p) source_cancel_promise ;!
      ret (promise p)
  end.

Definition readable_stream_default_reader_read (i : nat) (r : ResolveablePromise) : M () :=
  modify (on_stream (set_disturbed true)) ;!
  modify (record (Asked (promise r))) ;!
  let! s := gets (state ∘ stream) in
  match s with
  | Closed => close_steps r
  | Errored e => request_error_steps r e
  | Readable => pull_steps i r
  end.

Definition readable_stream_reader_generic_initialize : M ResolveablePromise :=
  let! s := gets (state ∘ stream) in
  match s with
  | Readable => new_promise
  | Closed => ret resolved_with_undefined
  | Errored e => rejected_with e
  end.

Definition already_locked : val :=
  TypeError (bs "This stream has already been locked for exclusive reading by another reader").

Definition set_up_readable_stream_default_reader : M nat :=
  let! s := gets stream in
  if is_readable_stream_locked s then throw already_locked
  else
    let! p := readable_stream_reader_generic_initialize in
    let! i := gets (λ w, length (readers w)) in
    modify (on_readers (λ l, l ++ [mkReader p true []])) ;!
    modify (on_stream (set_reader (Some i))) ;!
    ret i.

(** The controller of this file is not a byte controller. *)
Definition set_up_readable_stream_byob_reader : M nat :=
  let! s := gets stream in
  if is_readable_stream_locked s then throw already_locked
  else throw (TypeError (bs "Cannot construct a ReadableStreamBYOBReader for a stream not constructed with a byte source")).

Definition released_error : val :=
  TypeError (bs "Reader was released and can no longer be used to monitor the stream's closedness").

Definition readable_stream_reader_generic_release (i : nat) : M () :=
  let! s := gets (state ∘ stream) in
  with_reader (Some i) (λ i x,
    match s with
    | Readable => reject (closed_promise x) released_error
    | _ => let! p := rejected_with released_error in set_closed i p
    end) (ret ()) ;!
  modify (on_stream (set_reader None)) ;!
  detach i.

Definition readable_stream_default_reader_release (i : nat) : M () :=
  with_reader (Some i) (λ i x,
    for_each (λ r, modify (record (Dropped (promise r)))) (read_requests x) ;!
    set_requests i []) (ret ()) ;!
  readable_stream_reader_generic_release i ;!
  readable_stream_default_reader_error_read_requests i (TypeError (bs "Reader was released")).

(** ** Reading *)

Definition try_get_native_pull (w : world) : bool :=
  is_readable (state (stream w)) && is_nil (queue (container (controller w))) &&
  negb (pulling (controller w)) && native_pull (controller w).

Definition read_native : M nat :=
  let! r := gets native in
  match r with
  | inl e => throw e
  | inr (Ready chunk) => promise_resolved_with (ReadResult (Some chunk) false)
  | inr Eof => promise_resolved_with (ReadResult None true)
  | inr PendingFuture =>
      let! p := new_promise in
      upon_promise (UponNative p) None ;!
      ret (promise p)
  end.

Definition read_default (i : nat) : M nat :=
  let! p := new_promise in
  readable_stream_default_reader_read i p ;!
  ret (promise p).

(** * The methods *)

(** A method borrows its receiver, and with it the stream, the controller and a
    reader; what it holds is dropped when it ends, also by an exception. *)
Definition method {A} (m : M A) : M A := from_class ;! finally m (set_borrowed false).

Definition is_attached (i : nat) (w : world) : bool :=
  match readers w !! i with Some x => attached x | None => false end.

Definition stream_cancel (reason : option val) : M nat :=
  let! s := gets stream in
  if is_readable_stream_locked s then
    promise_rejected_with_constructor (bs "Cannot cancel a stream that already has a reader")
  else readable_stream_cancel (reader s) (default Undefined reason).

Definition get_reader (byob : bool) : M nat :=
  if byob then set_up_readable_stream_byob_reader else set_up_readable_stream_default_reader.

Definition reader_read (i : nat) : M nat :=
  let! w := gets id in
  if negb (is_attached i w) then
    promise_rejected_with_constructor (bs "Cannot read from a stream using a released reader")
  else if try_get_native_pull w then
    modify (on_stream (set_disturbed true)) ;!
    read_native
  else read_default i.

Definition reader_release_lock (i : nat) : M () :=
  let! w := gets id in
  when (is_attached i w) (readable_stream_default_reader_release i).

Definition reader_cancel (i : nat) (reason : option val) : M nat :=
  let! w := gets id in
  if negb (is_attached i w) then
    promise_rejected_with_constructor (bs "Cannot cancel a stream using a released reader")
  else readable_stream_cancel (Some i) (default Undefined reason).

Definition controller_close : M () :=
  let! w := gets id in
  if negb (can_close_or_enqueue w) then
    throw (TypeError (bs "The stream is not in a state that permits close"))
  else readable_stream_default_controller_close (reader (stream w)).

Definition controller_enqueue (chunk : option val) : M () :=
  let! w := gets id in
  if negb (can_close_or_enqueue w) then
    throw (TypeError (bs "The stream is not in a state that permits enqueue"))
  else readable_stream_default_controller_enqueue (reader (stream w)) (default Undefined chunk).

Definition controller_error (e : option val) : M () :=
  let! s := gets stream in
  readable_stream_default_controller_error (reader s) (default Undefined e).

Definition readable_stream_default_controller_enqueue_value (chunk : val) : M () :=
  let! w := gets id in
  if negb (can_close_or_enqueue w) then ret ()
  else readable_stream_default_controller_enqueue (reader (stream w)) chunk.

Definition readable_stream_default_controller_close_stream : M () :=
  let! w := gets id in
  if negb (can_close_or_enqueue w) then ret ()
  else readable_stream_default_controller_close (reader (stream w)).

Definition readable_stream_default_controller_error_stream (e : val) : M () :=
  let! s := gets stream in
  readable_stream_default_controller_error (reader s) e.

Definition run_cmd (c : cmd) : M reply :=
  method (match c with
  | Locked => let! s := gets stream in ret (RBool (is_readable_stream_locked s))
  | Disturbed => let! s := gets stream in ret (RBool (disturbed s))
  | Cancel reason => let! p := stream_cancel reason in ret (RPromise p)
  | GetReader byob => let! i := get_reader byob in ret (RReader i)
  | ReaderRead i => let! p := reader_read i in ret (RPromise p)
  | ReaderReleaseLock i => reader_release_lock i ;! ret RUnit
  | ReaderClosed i =>
      let! o := gets (λ w, readers w !! i) in
      ret (match o with Some x => RPromise (promise (closed_promise x)) | None => RUnit end)
  | ReaderCancel i reason => let! p := reader_cancel i reason in ret (RPromise p)
  | DesiredSize =>
      let! w := gets id in
      ret (RSize (readable_stream_default_controller_get_desired_size (controller w) (stream w)))
  | ControllerClose => controller_close ;! ret RUnit
  | ControllerEnqueue chunk => controller_enqueue chunk ;! ret RUnit
  | ControllerError e => controller_error e ;! ret RUnit
  | EnqueueValue chunk => readable_stream_default_controller_enqueue_value chunk ;! ret RUnit
  | CloseStream => readable_stream_default_controller_close_stream ;! ret RUnit
  | ErrorStream e => readable_stream_default_controller_error_stream e ;! ret RUnit
  end).

Fixpoint run_script (s : script) : M (option f64) :=
  match s with
  | Return n => ret n
  | Throw e => throw e
  | Call c k =>
      let! r := catch (run_cmd c) in
      run_script (k (match r with inr r => r | inl e => RThrown e end))
  end.

(** * Reactions *)

Definition upon_start (result : settlement) : M () :=
  let! rd := gets (reader ∘ stream) in
  match result with
  | inr _ =>
      modify (record (StartDone true)) ;!
      modify (on_controller (set_started true)) ;!
      readable_stream_default_controller_call_pull_if_needed rd
  | inl r =>
      readable_stream_default_controller_error rd r ;!
      modify (record (StartDone false))
  end.

Definition upon_pull (result : settlement) : M () :=
  let! rd := gets (reader ∘ stream) in
  match result with
  | inr _ =>
      modify (record (PullDone true)) ;!
      modify (on_controller (set_pulling false)) ;!
      let! c := gets controller in
      when (pull_again c)
        (modify (on_controller (set_pull_again false)) ;!
         readable_stream_default_controller_call_pull_if_needed rd)
  | inl e =>
      readable_stream_default_controller_error rd e ;!
      modify (record (PullDone false))
  end.

(** The promise [cancel] returned, and that of a native read. *)
Definition upon_cancel (p : ResolveablePromise) (result : settlement) : M () :=
  match result with inr _ => resolve_undefined p | inl e => reject p e end.
Definition upon_native (p : ResolveablePromise) (result : settlement) : M () :=
  match result with
  | inr chunk => resolve p (ReadResult chunk (negb (is_some chunk)))
  | inl e => reject p e
  end.

Definition run_reaction (r : reaction) (given : settlement) : M () :=
  let result := default given (settled r) in
  method (match kind r with
  | UponStart => upon_start result
  | UponPull => upon_pull result
  | UponCancel p => upon_cancel p result
  | UponNative p => upon_native p result
  end).

(** * The constructors *)

Definition algorithm (has : bool) : SourceAlgorithm := if has then Function else ReturnPromiseUndefined.

Definition initial_stream : ReadableStream := mkStream false Readable None.

Definition initial_controller (pull cancel : SourceAlgorithm) (hwm : f64) (size : SizeAlgorithm) :
    Controller :=
  mkController (Some cancel) true false false (Some pull) false new_queue false hwm (Some size) false.

Definition set_up_readable_stream_default_controller (start : bool) (pull cancel : SourceAlgorithm)
    (hwm : f64) (size : SizeAlgorithm) : M () :=
  modify (on_controller (λ _, initial_controller pull cancel hwm size)) ;!
  from_class ;!
  into_inner ;!
  (if start then user CallStart ;! upon_promise UponStart None
   else upon_promise UponStart (Some (inr None))).

(** [new ReadableStream({start, pull, cancel}, strategy)] without a [type], after
    the object of the stream was made. *)
Definition new (start pull cancel : bool) (strategy : option QueuingStrategy) : M () :=
  match extract_high_water_mark strategy fone with
  | None => throw (RangeError (bs "Invalid highWaterMark"))
  | Some hwm =>
      set_up_readable_stream_default_controller start (algorithm pull) (algorithm cancel) hwm
        (extract_size_algorithm strategy)
  end.

Definition create_readable_stream (start : bool) (pull cancel : SourceAlgorithm)
    (high_water_mark : option f64) (size : option SizeAlgorithm) : M () :=
  set_up_readable_stream_default_controller start pull cancel
    (default fone high_water_mark) (default AlwaysOne size).

Definition from_pull_algorithm_with_options (pull cancel : SourceAlgorithm)
    (high_water_mark : option f64) : M () :=
  create_readable_stream false pull cancel high_water_mark None.

Definition from_pull_algorithm (pull cancel : SourceAlgorithm) : M () :=
  from_pull_algorithm_with_options pull cancel None.
End Operations.

(** The stream with nothing in it yet, before its constructor has run. *)
Definition empty_world : world :=
  mkWorld initial_stream
    (initial_controller ReturnPromiseUndefined ReturnPromiseUndefined fone AlwaysOne)
    [] [Fulfilled Done_undefined] [] false [].

(** * Runs *)

Section Runs.
Context (body : ucall → world → script) (native : world → val + NativePullResult).

(** The source's code, [depth] native frames deep. *)
Fixpoint user_call (depth : nat) (c : ucall) : M (option f64) :=
  match depth with
  | O => throw StackOverflow
  | S depth => let! w := gets id in run_script (user_call depth) native (body c w)
  end.

(** What the environment does with an empty stack: call a method, run the
    reaction at index [i], the promise having settled to [given], or give the
    controller a native pull. *)
Inductive event := Do (c : cmd) | Fire (i : nat) (given : settlement) | SetNativePull.

Definition step (depth : nat) (e : event) : M () :=
  match e with
  | Do c => catch (run_cmd (user_call depth) native c) ;! ret ()
  | Fire i given =>
      let! o := gets (λ w, reactions w !! i) in
      match o with
      | None => ret ()
      | Some r =>
          modify (on_reactions (delete i)) ;!
          catch (run_reaction (user_call depth) r given) ;!
          ret ()
      end
  | SetNativePull => modify (on_controller (set_native_pull true))
  end.

Fixpoint steps (depth : nat) (es : list event) : M () :=
  match es with
  | [] => ret ()
  | e :: es => step depth e ;! steps depth es
  end.

(** How a stream is made. *)
Inductive constructor :=
  | New (start pull cancel : bool) (strategy : option QueuingStrategy)
  | Create (start : bool) (pull cancel : SourceAlgorithm) (high_water_mark : option f64)
      (size : option SizeAlgorithm).

Definition construct (depth : nat) (k : constructor) : M () :=
  match k with
  | New start pull cancel strategy => new (user_call depth) start pull cancel strategy
  | Create start pull cancel hwm size =>
      create_readable_stream (user_call depth) start pull cancel hwm size
  end.

(** A stream from its construction on. *)
Definition run (depth : nat) (k : constructor) (es : list event) : world * outcome val fault () :=
  (construct depth k ;! steps depth es) empty_world.
End Runs.
