(* ===== verification/ReadableProofs.v ===== *)
(** What holds of a [ReadableStream] with a default controller whatever its
    source and the code that reads it do: no native method panics, the source is
    called in the order its contract promises, an ended stream stays as it is;
    and, when the strategy's [size] does not call back into the stream, the
    reads are answered with the chunks in order, none is lost and the [closed]
    promise follows the stream. *)

From S2P Require Import Prelude Numbers Effects StreamQueue ReadableStream.

(** * The contract of a source *)

(** What the source is doing, and what has become of the stream. *)
Inductive operation := Starting | Idle | Pulling | Broken.
Inductive life := Live | Cancelling | Over.

(** A pull only when the source has started, no other pull runs and the stream
    is readable; the stream ends once; a cancel only when the stream was ended by
    one, and then once. *)
Definition source_step (s : operation * life) (e : entry) : option (operation * life) :=
  match e, s with
  | StartDone ok, (Starting, l) => Some (if ok : bool then Idle else Broken, l)
  | SourcePull, (Idle, Live) => Some (Pulling, Live)
  | PullDone ok, (Pulling, l) => Some (if ok : bool then Idle else Broken, l)
  | Ended by_cancel, (o, Live) => Some (o, if by_cancel : bool then Cancelling else Over)
  | SourceCancel _, (o, Cancelling) => Some (o, Over)
  | (Asked _ | Accepted _ | Matched _ _ | Answered _ | Dropped _ | Discarded), _ => Some s
  | _, _ => None
  end.

(** * The contract of the reads *)

(** The reads that wait, and the chunks that do. *)
Record reads := mkReads { waiting : list nat; buffer : list val }.

(** A chunk goes to the read that waits longest, and is the oldest one; a read
    that ends without a chunk is the one that waits longest. *)
Definition reads_step (s : reads) (e : entry) : option reads :=
  match e with
  | Asked p => Some (mkReads (waiting s ++ [p]) (buffer s))
  | Accepted c => Some (mkReads (waiting s) (buffer s ++ [c]))
  | Matched p c =>
      match waiting s, buffer s with
      | q :: ws, d :: b => if decide (p = q ∧ c = d) then Some (mkReads ws b) else None
      | _, _ => None
      end
  | Answered p | Dropped p =>
      match waiting s with
      | q :: ws => if decide (p = q) then Some (mkReads ws (buffer s)) else None
      | [] => None
      end
  | Discarded => Some (mkReads (waiting s) [])
  | _ => Some s
  end.

(** Runs of the two machines. *)
Fixpoint machine_run {S} (step : S → entry → option S) (s : S) (es : list entry) : option S :=
  match es with
  | [] => Some s
  | e :: es => s ← step s e; machine_run step s es
  end.
Notation source_run := (machine_run source_step).
Notation reads_run := (machine_run reads_step).

Lemma machine_run_snoc {S} step (s : S) es e :
  machine_run step s (es ++ [e]) = (machine_run step s es ≫= λ s, step s e).
Proof.
  revert s. induction es as [|e' es IH]; intros s; simpl; [by destruct (step s e)|].
  destruct (step s e'); simpl; [apply IH|done].
Qed.

(** * Promises and reads *)

Definition dropped (es : list entry) : list nat :=
  omap (λ e, match e with Dropped p => Some p | _ => None end) es.

(** How a read ends that the end of the stream answers, and the [closed] promise. *)
Definition answer (s : ReadableStreamState) : option pstate :=
  match s with
  | Readable => None
  | Closed => Some (Fulfilled (ReadResult None true))
  | Errored e => Some (Rejected e)
  end.
Definition final (s : ReadableStreamState) : pstate :=
  match s with
  | Readable => Pending
  | Closed => Fulfilled Done_undefined
  | Errored e => Rejected e
  end.

Lemma final_ended st : st ≠ Readable → final st ≠ Pending.
Proof. by destruct st. Qed.

Definition delivered (c : val) : pstate := Fulfilled (ReadResult (Some c) false).

(** The promises that code of the stream will settle, each held once: those of
    matched reads whose chunk the running code delivers ([H]), of waiting reads
    ([W]) and of reactions ([O]); and those of dropped reads, which nobody does. *)
Definition owned (H : list (nat * val)) (W O : list nat) (lg : list entry) : list nat :=
  H.*1 ++ W ++ O ++ dropped lg.

Record mem (H : list (nat * val)) (W O : list nat) (ps : list pstate) (lg : list entry)
    (q : list val) (st : ReadableStreamState) : Prop := {
  m_pending : Forall (λ p, ps !! p = Some Pending) (owned H W O lg);
  m_nodup : NoDup (owned H W O lg);
  m_reads : reads_run (mkReads [] []) lg = Some (mkReads W q);
  m_asked : ∀ p, Asked p ∈ lg →
    (p < length ps)%nat ∧ (ps !! p = Some Pending → p ∈ H.*1 ++ W ++ dropped lg);
  m_matched : ∀ p c, Matched p c ∈ lg → (p, c) ∈ H ∨ ps !! p = Some (delivered c);
  m_answered : ∀ p, Answered p ∈ lg → ∃ s, answer st = Some s ∧ ps !! p = Some s;
  m_resolved : ps !! promise_resolved_with_undefined = Some (Fulfilled Done_undefined)
}.

Definition settle_at (s : pstate) (p : nat) (ps : list pstate) : list pstate :=
  alter (λ old, match old with Pending => s | _ => old end) p ps.

Lemma settle_at_ne s p ps q : p ≠ q → settle_at s p ps !! q = ps !! q.
Proof. intros. by apply list_lookup_alter_ne. Qed.
Lemma settle_at_eq s p ps : ps !! p = Some Pending → settle_at s p ps !! p = Some s.
Proof. intros Hp. unfold settle_at. by rewrite list_lookup_alter_eq, Hp. Qed.
Lemma settle_at_settled s p ps q st :
  st ≠ Pending → ps !! q = Some st → settle_at s p ps !! q = Some st.
Proof.
  intros Hst Hq. destruct (decide (p = q)) as [->|]; [|by rewrite settle_at_ne].
  unfold settle_at. rewrite list_lookup_alter_eq, Hq. by destruct st.
Qed.
Lemma settle_at_pending s p ps q :
  s ≠ Pending → settle_at s p ps !! q = Some Pending → ps !! q = Some Pending.
Proof.
  destruct (decide (p = q)) as [->|]; [|by rewrite settle_at_ne].
  unfold settle_at. rewrite list_lookup_alter_eq. destruct (ps !! q) as [[]|]; simpl; naive_solver.
Qed.
Lemma settle_at_length s p ps : length (settle_at s p ps) = length ps.
Proof. apply length_alter. Qed.

Lemma dropped_app l l' : dropped (l ++ l') = dropped l ++ dropped l'.
Proof. apply omap_app. Qed.

Lemma mem_ended_not_pending st s : answer st = Some s → s ≠ Pending.
Proof. destruct st; naive_solver. Qed.

Lemma owned_other H W O lg p : owned H W (p :: O) lg ≡ₚ p :: owned H W O lg.
Proof. unfold owned. simpl. by rewrite <- !Permutation_middle. Qed.
Lemma owned_wait H W O lg p : owned H (p :: W) O lg ≡ₚ p :: owned H W O lg.
Proof. unfold owned. simpl. by rewrite <- Permutation_middle. Qed.

#[export] Instance owned_proper H W : Proper ((≡ₚ) ==> (=) ==> (≡ₚ)) (owned H W).
Proof. intros O O' E lg lg' <-. unfold owned. by rewrite E. Qed.

Section Mem.
Context {H : list (nat * val)} {W O : list nat} {ps : list pstate} {lg : list entry}
  {q : list val} {st : ReadableStreamState}.
Hypothesis Hm : mem H W O ps lg q st.

Lemma mem_bound p : p ∈ owned H W O lg → (p < length ps)%nat.
Proof.
  intros Hp. pose proof (m_pending _ _ _ _ _ _ _ Hm) as F. rewrite Forall_forall in F.
  by eapply lookup_lt_Some, F.
Qed.

Lemma rs_mem_make s : mem H W O (ps ++ [s]) lg q st.
Proof.
  destruct Hm as [H1 H2 H3 H4 H5 H6 H7]. constructor; try done.
  - eapply Forall_impl; [exact H1|]. intros p Hp. by apply lookup_app_l_Some.
  - intros p Hp. destruct (H4 p Hp) as [Hl Hi]. rewrite length_app. split; [lia|].
    by rewrite lookup_app_l.
  - intros p c [?|Hp]%H5; [by left|right]. by apply lookup_app_l_Some.
  - intros p (s' & Hs & Hp)%H6. exists s'. split; [done|]. by apply lookup_app_l_Some.
  - by apply lookup_app_l_Some.
Qed.

(** A promise made by code that is going to hand it on. *)
Lemma mem_fresh : mem H W (length ps :: O) (ps ++ [Pending]) lg q st.
Proof.
  pose proof (rs_mem_make Pending) as [H1 H2 H3 H4 H5 H6 H7]. constructor; try done.
  - unfold owned in *. rewrite !Forall_app in H1. rewrite !Forall_app, Forall_cons.
    destruct H1 as (? & ? & ? & ?). split_and!; try done. simpl.
    by rewrite lookup_app_r, Nat.sub_diag.
  - rewrite owned_other. constructor; [|done]. intros Hin%mem_bound. lia.
Qed.

Lemma mem_other O' : O ≡ₚ O' → mem H W O' ps lg q st.
Proof.
  intros E. destruct Hm as [H1 H2 H3 H4 H5 H6 H7].
  assert (owned H W O lg ≡ₚ owned H W O' lg) as E' by (unfold owned; by rewrite E).
  constructor; try done; by rewrite <- E'.
Qed.

(** What is only logged. *)
Lemma mem_log e :
  match e with Ended _ | StartDone _ | SourcePull | PullDone _ | SourceCancel _ => True | _ => False end →
  mem H W O ps (lg ++ [e]) q st.
Proof.
  intros He. destruct Hm as [H1 H2 H3 H4 H5 H6 H7].
  assert (dropped (lg ++ [e]) = dropped lg) as Ed.
  { rewrite dropped_app. destruct e; try done; apply app_nil_r. }
  constructor; unfold owned in *; rewrite ?Ed; try done.
  - rewrite machine_run_snoc, H3. by destruct e.
  - intros p [?|Hp%list_elem_of_singleton]%elem_of_app; [auto|by subst].
  - intros p c [?|Hp%list_elem_of_singleton]%elem_of_app; [auto|by subst].
  - intros p [?|Hp%list_elem_of_singleton]%elem_of_app; [auto|by subst].
Qed.

Lemma mem_end st' : st = Readable → mem H W O ps lg q st'.
Proof.
  intros ->. destruct Hm as [H1 H2 H3 H4 H5 H6 H7]. constructor; try done.
  intros p (s & [=] & _)%H6.
Qed.

Lemma mem_accept c : mem H W O ps (lg ++ [Accepted c]) (q ++ [c]) st.
Proof.
  destruct Hm as [H1 H2 H3 H4 H5 H6 H7].
  assert (dropped (lg ++ [Accepted c]) = dropped lg) as Ed by (rewrite dropped_app; apply app_nil_r).
  constructor; unfold owned in *; rewrite ?Ed; try done.
  - by rewrite machine_run_snoc, H3.
  - intros p [?|[=]%list_elem_of_singleton]%elem_of_app; auto.
  - intros p d [?|[=]%list_elem_of_singleton]%elem_of_app; auto.
  - intros p [?|[=]%list_elem_of_singleton]%elem_of_app; auto.
Qed.

Lemma mem_discard : mem H W O ps (lg ++ [Discarded]) [] st.
Proof.
  destruct Hm as [H1 H2 H3 H4 H5 H6 H7].
  assert (dropped (lg ++ [Discarded]) = dropped lg) as Ed by (rewrite dropped_app; apply app_nil_r).
  constructor; unfold owned in *; rewrite ?Ed; try done.
  - by rewrite machine_run_snoc, H3.
  - intros p [?|[=]%list_elem_of_singleton]%elem_of_app; auto.
  - intros p d [?|[=]%list_elem_of_singleton]%elem_of_app; auto.
  - intros p [?|[=]%list_elem_of_singleton]%elem_of_app; auto.
Qed.

(** A promise nobody of the list holds and that is no read's, the [closed]
    promise of a reader for one. *)
Lemma mem_settle_unowned s p :
  s ≠ Pending → p ∉ owned H W O lg → mem H W O (settle_at s p ps) lg q st.
Proof.
  intros Hs Hp. destruct Hm as [H1 H2 H3 H4 H5 H6 H7]. constructor; try done.
  - apply Forall_forall. intros r Hr. rewrite Forall_forall in H1.
    rewrite settle_at_ne by (by intros ->). by apply H1.
  - intros r Hr. destruct (H4 r Hr) as [? Hi]. rewrite settle_at_length. split; [done|].
    intros Hq%settle_at_pending; auto.
  - intros r c [?|?]%H5; [by left|right]. by apply settle_at_settled.
  - intros r (s' & Hs' & Hr)%H6. exists s'. split; [done|].
    apply settle_at_settled; [by eapply mem_ended_not_pending|done].
  - by apply settle_at_settled.
Qed.
End Mem.

(** A promise held by the code that settles it. *)
Lemma mem_settle_other H W O p s ps lg q st :
  s ≠ Pending → mem H W (p :: O) ps lg q st → mem H W O (settle_at s p ps) lg q st.
Proof.
  intros Hs Hm. assert (mem H W O ps lg q st) as Hm'.
  { destruct Hm as [H1 H2 H3 H4 H5 H6 H7]. rewrite owned_other in H1, H2.
    apply Forall_cons in H1 as [_ ?]. apply NoDup_cons in H2 as [_ ?]. by constructor. }
  apply mem_settle_unowned; [done..|]. pose proof (m_nodup _ _ _ _ _ _ _ Hm) as Hn.
  rewrite owned_other in Hn. by apply NoDup_cons in Hn as [? _].
Qed.

Lemma mem_ask H W O p ps lg q st :
  mem H W (p :: O) ps lg q st → mem H (W ++ [p]) O ps (lg ++ [Asked p]) q st.
Proof.
  intros Hm. pose proof (mem_bound Hm p) as Hb. destruct Hm as [H1 H2 H3 H4 H5 H6 H7].
  assert (dropped (lg ++ [Asked p]) = dropped lg) as Ed by (rewrite dropped_app; apply app_nil_r).
  assert (owned H (W ++ [p]) O (lg ++ [Asked p]) ≡ₚ owned H W (p :: O) lg) as E.
  { unfold owned. rewrite Ed. by rewrite <- app_assoc. }
  constructor; rewrite ?E; try done.
  - by rewrite machine_run_snoc, H3.
  - intros r [Hr|[= ->]%list_elem_of_singleton]%elem_of_app.
    + destruct (H4 r Hr) as [? Hi]. split; [done|]. intros Hp%Hi. rewrite Ed. set_solver.
    + split; [apply Hb; rewrite owned_other; set_solver|]. set_solver.
  - intros r c [?|[=]%list_elem_of_singleton]%elem_of_app; auto.
  - intros r [?|[=]%list_elem_of_singleton]%elem_of_app; auto.
Qed.

Lemma mem_match H W O p c ps lg q st :
  mem H (p :: W) O ps lg (c :: q) st → mem ((p, c) :: H) W O ps (lg ++ [Matched p c]) q st.
Proof.
  intros [H1 H2 H3 H4 H5 H6 H7].
  assert (dropped (lg ++ [Matched p c]) = dropped lg) as Ed by (rewrite dropped_app; apply app_nil_r).
  assert (owned ((p, c) :: H) W O (lg ++ [Matched p c]) ≡ₚ owned H (p :: W) O lg) as E.
  { unfold owned. rewrite Ed. simpl. by rewrite Permutation_middle. }
  constructor; rewrite ?E; try done.
  - rewrite machine_run_snoc, H3. simpl. by rewrite decide_True.
  - intros r [Hr|[=]%list_elem_of_singleton]%elem_of_app. destruct (H4 r Hr) as [? Hi].
    split; [done|]. intros Hp%Hi. rewrite Ed. set_solver.
  - intros r d [Hr|[= -> ->]%list_elem_of_singleton]%elem_of_app; [|left; by left].
    destruct (H5 r d Hr); [left; by right|by right].
  - intros r [?|[=]%list_elem_of_singleton]%elem_of_app; auto.
Qed.

Lemma mem_deliver H W O p c ps lg q st :
  mem ((p, c) :: H) W O ps lg q st → mem H W O (settle_at (delivered c) p ps) lg q st.
Proof.
  intros [H1 H2 H3 H4 H5 H6 H7]. unfold owned in *. simpl in *.
  apply Forall_cons in H1 as [Hp H1]. apply NoDup_cons in H2 as [Hn H2]. constructor; try done.
  - apply Forall_forall. intros r Hr. rewrite Forall_forall in H1.
    rewrite settle_at_ne by (by intros ->). by apply H1.
  - intros r Hr. destruct (H4 r Hr) as [? Hi]. rewrite settle_at_length. split; [done|].
    intros Hq. destruct (decide (p = r)) as [->|Hne]; [by rewrite settle_at_eq in Hq|].
    apply settle_at_pending in Hq; [|done]. set_solver.
  - intros r d [[[= -> ->]|?]%elem_of_cons|?]%H5.
    + right. by apply settle_at_eq.
    + by left.
    + right. by apply settle_at_settled.
  - intros r (s' & Hs' & Hr)%H6. exists s'. split; [done|].
    apply settle_at_settled; [by eapply mem_ended_not_pending|done].
  - by apply settle_at_settled.
Qed.

Lemma mem_answer H W O p s ps lg q st :
  answer st = Some s → mem H (p :: W) O ps lg q st →
  mem H W O (settle_at s p ps) (lg ++ [Answered p]) q st.
Proof.
  intros Hs [H1 H2 H3 H4 H5 H6 H7]. pose proof (mem_ended_not_pending _ _ Hs) as Hs'.
  assert (dropped (lg ++ [Answered p]) = dropped lg) as Ed by (rewrite dropped_app; apply app_nil_r).
  rewrite owned_wait in H1, H2. apply Forall_cons in H1 as [Hp H1].
  apply NoDup_cons in H2 as [Hn H2]. unfold owned in *. constructor; unfold owned; rewrite ?Ed; try done.
  - apply Forall_forall. intros r Hr. rewrite Forall_forall in H1.
    rewrite settle_at_ne by (by intros ->). by apply H1.
  - rewrite machine_run_snoc, H3. simpl. by rewrite decide_True.
  - intros r [Hr|[=]%list_elem_of_singleton]%elem_of_app. destruct (H4 r Hr) as [? Hi].
    rewrite settle_at_length. split; [done|]. intros Hq.
    destruct (decide (p = r)) as [->|Hne]; [rewrite settle_at_eq in Hq by done; naive_solver|].
    apply settle_at_pending in Hq; [|done]. set_solver.
  - intros r d [Hr|[=]%list_elem_of_singleton]%elem_of_app.
    destruct (H5 r d Hr); [by left|right]. by apply settle_at_settled.
  - intros r [Hr|[= ->]%list_elem_of_singleton]%elem_of_app.
    + destruct (H6 r Hr) as (s' & ? & ?). exists s'. split; [done|].
      apply settle_at_settled; [by eapply mem_ended_not_pending|done].
    + exists s. split; [done|]. by apply settle_at_eq.
  - by apply settle_at_settled.
Qed.

Lemma mem_drop H W O p ps lg q st :
  mem H (p :: W) O ps lg q st → mem H W O ps (lg ++ [Dropped p]) q st.
Proof.
  intros [H1 H2 H3 H4 H5 H6 H7].
  assert (dropped (lg ++ [Dropped p]) = dropped lg ++ [p]) as Ed by (by rewrite dropped_app).
  assert (owned H W O (lg ++ [Dropped p]) ≡ₚ owned H (p :: W) O lg) as E.
  { rewrite owned_wait. unfold owned. rewrite Ed, !(assoc_L (++)).
    by rewrite (Permutation_app_comm _ [p]). }
  constructor; rewrite ?E; try done.
  - rewrite machine_run_snoc, H3. simpl. by rewrite decide_True.
  - intros r [Hr|[=]%list_elem_of_singleton]%elem_of_app. destruct (H4 r Hr) as [? Hi].
    split; [done|]. intros Hp%Hi. rewrite Ed. set_solver.
  - intros r d [Hr|[=]%list_elem_of_singleton]%elem_of_app; auto.
  - intros r [?|[=]%list_elem_of_singleton]%elem_of_app; auto.
Qed.

(** * Invariants *)

Definition current (w : world) : option Reader := reader (stream w) ≫= λ i, readers w !! i.
Definition requests (w : world) : list ResolveablePromise := from_option read_requests [] (current w).
Definition queued (w : world) : list val := value <$> queue (container (controller w)).
Definition reacting (l : list reaction) : list ResolveablePromise :=
  omap (λ r, match kind r with UponCancel p | UponNative p => Some p | _ => None end) l.

Definition is_start (k : reaction_kind) : bool := match k with UponStart => true | _ => false end.
Definition is_pull (k : reaction_kind) : bool := match k with UponPull => true | _ => false end.
Fixpoint count (f : reaction_kind → bool) (l : list reaction) : nat :=
  match l with [] => 0 | r :: l => Nat.b2n (f (kind r)) + count f l end%nat.

(** What code that is running relies on: the number of readers there are, the
    state the stream ended in, if it has; and what it still has to do, register
    the reaction to the source's [start] or [pull]. *)
Record frame := mkFrame {
  known : nat;
  ended_as : option ReadableStreamState;
  owe_start : bool;
  owe_pull : bool
}.

Definition starting (o : operation) : bool := match o with Starting => true | _ => false end.
Definition in_pull (o : operation) : bool := match o with Pulling => true | _ => false end.

(** The machine of the source's contract is where the stream takes it to be. *)
Record source_ok (F : frame) (w : world) (s : operation * life) : Prop := {
  s_op : match s.1 with
    | Starting => started (controller w) = false ∧ pulling (controller w) = false
    | Idle => started (controller w) = true ∧ pulling (controller w) = false
    | Pulling => started (controller w) = true ∧ pulling (controller w) = true
    | Broken => state (stream w) ≠ Readable
    end;
  s_life : s.2 = Live ↔ state (stream w) = Readable;
  s_start : (count is_start (reactions w) + Nat.b2n (owe_start F) ≤ Nat.b2n (starting s.1))%nat;
  s_pull : (count is_pull (reactions w) + Nat.b2n (owe_pull F) ≤ Nat.b2n (in_pull s.1))%nat
}.

Definition algorithms (c : Controller) : Prop :=
  is_Some (pull_algorithm c) ∧ is_Some (cancel_algorithm c) ∧
  is_Some (strategy_size_algorithm c) ∧ cancel_fn c = true.

(** What holds whatever the code around the stream does. *)
Record base (F : frame) (b : bool) (w : world) : Prop := {
  b_borrowed : borrowed w = b;
  b_link : ∀ i, reader (stream w) = Some i ↔ is_attached i w = true;
  b_known : (known F ≤ length (readers w))%nat;
  b_ended : ∀ s, ended_as F = Some s → s ≠ Readable ∧ state (stream w) = s;
  b_algs : state (stream w) = Readable → algorithms (controller w);
  b_source : ∃ s, source_run (Starting, Live) (log w) = Some s ∧ source_ok F w s
}.

(** The reads and their promises: [Q] and [A] are requests the running code
    holds, in front of those of the reader and behind them. *)
Record reads_ok (H : list (nat * val)) (Q A : list ResolveablePromise) (w : world) : Prop := {
  q_mem : mem H (promise <$> Q ++ requests w ++ A) (promise <$> reacting (reactions w))
    (promises w) (log w) (queued w) (state (stream w));
  q_resolvers : Forall (λ r, resolvers r = true) (Q ++ requests w ++ A ++ reacting (reactions w))
}.

(** The [closed] promise of the reader follows the stream. *)
Definition closed_ok (H : list (nat * val)) (A : list ResolveablePromise) (w : world) : Prop :=
  ∀ x, current w = Some x →
    promises w !! promise (closed_promise x) = Some (final (state (stream w))) ∧
    (state (stream w) = Readable → resolvers (closed_promise x) = true ∧
      promise (closed_promise x) ∉
        owned H (promise <$> requests w ++ A) (promise <$> reacting (reactions w)) (log w)).

(** No read waits while there is a chunk, nothing is left of an ended stream,
    a stream that is to be closed has chunks left, and the source's [pull] is not
    a native function, which can throw. *)
Record tidy (w : world) : Prop := {
  t_either : requests w = [] ∨ queued w = [];
  t_ended : state (stream w) ≠ Readable → requests w = [] ∧ queued w = [];
  t_closing : state (stream w) = Readable → close_requested (controller w) = true → queued w ≠ [];
  t_source : pull_algorithm (controller w) ≠ Some RustFunction
}.

Record strong (H : list (nat * val)) (w : world) : Prop := {
  g_reads : reads_ok H [] [] w;
  g_closed : closed_ok H [] w;
  g_tidy : tidy w
}.

(** * Code that only settles promises and answers reads *)

(** What [base] depends on. *)
Definition bview (w : world) :
    ReadableStream * Controller * list reaction * bool * list bool * option (operation * life) :=
  (stream w, controller w, reactions w, borrowed w, attached <$> readers w,
   source_run (Starting, Live) (log w)).

Lemma attached_view i w : is_attached i w = default false ((attached <$> readers w) !! i).
Proof. unfold is_attached. rewrite list_lookup_fmap. by destruct (readers w !! i). Qed.

Lemma view_fields w w' :
  bview w' = bview w →
  stream w' = stream w ∧ controller w' = controller w ∧ reactions w' = reactions w ∧
  length (readers w') = length (readers w) ∧
  source_run (Starting, Live) (log w') = source_run (Starting, Live) (log w).
Proof.
  unfold bview. intros [= E1 E2 E3 _ E5 E6]. split_and!; try done.
  by rewrite <- (length_fmap attached), E5, length_fmap.
Qed.

Lemma base_view F b w w' : bview w' = bview w → base F b w → base F b w'.
Proof.
  unfold bview. intros [= E1 E2 E3 E4 E5 E6] [H1 H2 H3 H4 H5 (s & Hs & [S1 S2 S3 S4])].
  constructor; rewrite ?E1, ?E2, ?E4; try done.
  - intros i. by rewrite attached_view, E5, <- attached_view.
  - by rewrite <- (length_fmap attached), E5, length_fmap.
  - exists s. rewrite E6. split; [done|]. constructor; by rewrite ?E1, ?E2, ?E3.
Qed.

Definition quiet {A} (m : M A) : Prop := ∀ w, wp m (returns (λ _ w', bview w' = bview w)) w.

Lemma rs_quiet_ret {A} (a : A) : quiet (ret a).
Proof. by intros w. Qed.
Lemma quiet_modify f : (∀ w, bview (f w) = bview w) → quiet (modify f).
Proof. intros Hf w. apply Hf. Qed.
Lemma quiet_bind {A B} (m : M A) (k : A → M B) : quiet m → (∀ a, quiet (k a)) → quiet (bind m k).
Proof.
  intros Hm Hk w. eapply wp_then; [apply Hm|]. intros a w' E.
  eapply wp_mono; [apply Hk|]. intros [] w''; simpl; try done. congruence.
Qed.
Lemma quiet_gets {A} (f : world → A) : quiet (gets f).
Proof. by intros w. Qed.
Lemma rs_settle_view s p w : bview (settle s p w) = bview w.
Proof. unfold settle. by destruct (resolvers p). Qed.
Lemma rs_quiet_settle s p : quiet (modify (settle s p)).
Proof. apply quiet_modify, rs_settle_view. Qed.
Lemma alter_view f i w : (∀ x, attached (f x) = attached x) → bview (on_readers (alter f i) w) = bview w.
Proof.
  intros Hf. unfold bview. simpl. do 2 f_equal. apply list_eq. intros j.
  rewrite !list_lookup_fmap. destruct (decide (i = j)) as [->|].
  - rewrite list_lookup_alter_eq. by destruct (readers w !! j); simpl; rewrite ?Hf.
  - by rewrite list_lookup_alter_ne.
Qed.
Lemma quiet_set_requests i l : quiet (set_requests i l).
Proof. apply quiet_modify. intros w. by apply alter_view. Qed.
Lemma quiet_set_closed i p : quiet (set_closed i p).
Proof. apply quiet_modify. intros w. by apply alter_view. Qed.
Lemma record_view e w :
  match e with Asked _ | Accepted _ | Matched _ _ | Answered _ | Dropped _ | Discarded => True | _ => False end →
  bview (record e w) = bview w.
Proof.
  intros He. unfold bview. simpl. rewrite machine_run_snoc.
  destruct (source_run _ (log w)) as [[]|]; by destruct e.
Qed.
Lemma quiet_record e :
  match e with Asked _ | Accepted _ | Matched _ _ | Answered _ | Dropped _ | Discarded => True | _ => False end →
  quiet (modify (record e)).
Proof. intros He. apply quiet_modify. intros w. by apply record_view. Qed.
Lemma quiet_make s : quiet (make_promise s).
Proof. by intros w. Qed.
Lemma quiet_for_each f l : (∀ r, quiet (f r)) → quiet (for_each f l).
Proof. intros Hf. induction l as [|r l IH]; [apply rs_quiet_ret|]. by apply quiet_bind. Qed.

#[local] Hint Resolve rs_quiet_ret quiet_bind quiet_gets rs_quiet_settle quiet_set_requests quiet_set_closed
  quiet_record quiet_make quiet_for_each : quiet.


(** * Ending the stream *)

Definition core (w : world) : ReadableStream * Controller * list Reader * list reaction :=
  (stream w, controller w, readers w, reactions w).

(** A promise that has settled stays so. *)
Definition kept (w w' : world) : Prop :=
  ∀ p s, s ≠ Pending → promises w !! p = Some s → promises w' !! p = Some s.

Lemma kept_trans w1 w2 w3 : kept w1 w2 → kept w2 w3 → kept w1 w3.
Proof. unfold kept. auto. Qed.

Lemma settle_on s p w : resolvers p = true → settle s p w = on_promises (settle_at s (promise p)) w.
Proof. intros Hp. unfold settle. by rewrite Hp. Qed.

Lemma core_requests w w' : core w' = core w → requests w' = requests w ∧ current w' = current w.
Proof. unfold core, requests, current. intros [= E1 _ E3 _]. by rewrite E1, E3. Qed.

(** [for_each] of the steps that answer the requests of a stream that has ended. *)
Lemma wp_answer_loop H s l w :
  answer (state (stream w)) = Some s → reads_ok H l [] w →
  wp (for_each (λ r, modify (record (Answered (promise r))) ;! modify (settle s r)) l)
    (returns (λ _ w', reads_ok H [] [] w' ∧ core w' = core w ∧ kept w w')) w.
Proof.
  revert w. induction l as [|r l IH]; intros w Hs [Hm Hr]; [split_and!; [by split|done|by intros p]|].
  simpl in Hr.
  apply Forall_cons in Hr as [Hr Hrs]. apply wp_bind, wp_bind_modify. unfold modify, wp. simpl.
  rewrite settle_on by done. set (w1 := on_promises _ _).
  eapply wp_mono; [apply (IH w1)|].
  - done.
  - split; [|done]. by apply mem_answer.
  - intros [] w'; simpl; try done. intros (? & ? & K). split_and!; try done.
    eapply kept_trans; [|exact K]. intros p s' Hs' Hp. by apply settle_at_settled.
Qed.

(** What [readable_stream_close] and [readable_stream_error] both do. *)
Definition end_stream (st : ReadableStreamState) (by_cancel : bool) (rd : option nat) : M () :=
  modify (on_stream (set_state st)) ;!
  modify (record (Ended by_cancel)) ;!
  with_reader rd (λ i x,
    modify (settle (final st) (closed_promise x)) ;!
    set_requests i [] ;!
    for_each (λ r, modify (record (Answered (promise r))) ;!
      modify (settle (default Pending (answer st)) r)) (read_requests x)) (ret ()).

Lemma close_end b rd : readable_stream_close b rd = end_stream Closed b rd.
Proof. done. Qed.
Lemma with_reader_eq {A} i (f : nat → Reader → M A) none w :
  with_reader (Some i) f none w =
  match readers w !! i with Some x => f i x w | None => (w, Fault NoReader) end.
Proof. unfold with_reader, bind, gets. by destruct (readers w !! i). Qed.

Lemma error_end rd e w : readable_stream_error rd e w = end_stream (Errored e) false rd w.
Proof.
  destruct rd as [i|]; [|done]. set (w0 := record (Ended false) (on_stream (set_state (Errored e)) w)).
  etransitivity; [exact (with_reader_eq i _ _ w0)|]. symmetry.
  etransitivity; [exact (with_reader_eq i _ _ w0)|].
  destruct (readers w0 !! i) as [x|] eqn:Hx; [|done]. symmetry.
  set (w1 := settle (Rejected e) (closed_promise x) w0).
  etransitivity; [exact (with_reader_eq i _ _ w1)|].
  assert (readers w1 = readers w0) as -> by (unfold w1, settle; by destruct (resolvers _)).
  by rewrite Hx.
Qed.

(** The stream of [w] is readable and that of [w'] is not. *)
Lemma base_end F b w w' st by_cancel :
  base F b w → state (stream w) = Readable → st ≠ Readable →
  stream w' = set_state st (stream w) →
  started (controller w') = started (controller w) → pulling (controller w') = pulling (controller w) →
  attached <$> readers w' = attached <$> readers w → reactions w' = reactions w →
  borrowed w' = borrowed w →
  source_run (Starting, Live) (log w') =
    (source_run (Starting, Live) (log w) ≫= λ s, source_step s (Ended by_cancel)) →
  base F b w'.
Proof.
  intros [H1 H2 H3 H4 H5 ([o l] & Hs & [S1 S2 S3 S4])] Hst Hne E1 E2 E3 E4 E5 E6 E7.
  simpl in *. constructor; rewrite ?E1, ?E6; simpl; try done.
  - intros i. by rewrite attached_view, E4, <- attached_view.
  - by rewrite <- (length_fmap attached), E4, length_fmap.
  - intros s Hs'. destruct (H4 s Hs'). naive_solver.
  - rewrite E7, Hs. simpl. assert (l = Live) as -> by tauto.
    eexists. split; [done|]. constructor; simpl; rewrite ?E2, ?E3, ?E5, ?E1; try done.
    + by destruct o.
    + simpl. destruct by_cancel; naive_solver.
Qed.

Definition rd_ok (strict : bool) (rd : option nat) (w : world) : Prop :=
  (strict = true → rd = reader (stream w)) ∧ ∀ i, rd = Some i → (i < length (readers w))%nat.

Lemma wp_with_reader {A} rd strict w (f : nat → Reader → M A) none Q :
  rd_ok strict rd w →
  (∀ i x, rd = Some i → readers w !! i = Some x → wp (f i x) Q w) →
  (rd = None → wp none Q w) → wp (with_reader rd f none) Q w.
Proof.
  intros [_ Hl] Hf Hn. destruct rd as [i|]; [|by apply Hn].
  destruct (lookup_lt_is_Some_2 (readers w) i (Hl i eq_refl)) as [x Hx].
  unfold with_reader. apply wp_bind_gets. rewrite Hx. apply wp_bind_ret. by apply Hf.
Qed.

(** The tail of [end_stream] does not touch what [base] is about. *)
Lemma quiet_end_tail st i x :
  quiet (modify (settle (final st) (closed_promise x)) ;!
    set_requests i [] ;!
    for_each (λ r, modify (record (Answered (promise r))) ;!
      modify (settle (default Pending (answer st)) r)) (read_requests x)).
Proof.
  apply quiet_bind; [auto with quiet|]. intros _. apply quiet_bind; [auto with quiet|]. intros _.
  apply quiet_for_each. intros r. apply quiet_bind; [by apply quiet_record|]. auto with quiet.
Qed.

(** What the end of a stream depends on. *)
Definition eview (w : world) :
    ReadableStream * bool * bool * list bool * list reaction * bool * option (operation * life) :=
  (stream w, started (controller w), pulling (controller w), attached <$> readers w, reactions w,
   borrowed w, source_run (Starting, Live) (log w)).

Lemma base_ended F b by_cancel st w0 w :
  base F b w0 → eview w = eview w0 → state (stream w) = Readable → st ≠ Readable →
  base F b (record (Ended by_cancel) (on_stream (set_state st) w)).
Proof.
  unfold eview. intros Hb [= E1 E2 E3 E4 E5 E6 E7] Hst Hne. rewrite E1 in Hst.
  apply (base_end F b w0 _ st by_cancel); simpl; try done.
  - by rewrite E1.
  - by rewrite machine_run_snoc, E7.
Qed.

Lemma ended_life F b by_cancel st w0 w :
  base F b w0 → eview w = eview w0 → state (stream w) = Readable →
  ∃ o, source_run (Starting, Live) (log (record (Ended by_cancel) (on_stream (set_state st) w))) =
    Some (o, if by_cancel then Cancelling else Over).
Proof.
  unfold eview. intros Hb [= E1 _ _ _ _ _ E7] Hst. rewrite E1 in Hst.
  destruct (b_source _ _ _ Hb) as ([o l] & Hs & [_ S2 _ _]). simpl in *.
  exists o. rewrite machine_run_snoc, E7, Hs. simpl. by rewrite (proj2 S2 Hst).
Qed.

(** The reads when the stream ends. *)
Lemma wp_end_tail H st i x w :
  reader (stream w) = Some i → readers w !! i = Some x → state (stream w) = st → st ≠ Readable →
  reads_ok H [] [] w → promises w !! promise (closed_promise x) = Some Pending →
  resolvers (closed_promise x) = true →
  promise (closed_promise x) ∉
    owned H (promise <$> requests w ++ []) (promise <$> reacting (reactions w)) (log w) →
  wp (modify (settle (final st) (closed_promise x)) ;!
      set_requests i [] ;!
      for_each (λ r, modify (record (Answered (promise r))) ;!
        modify (settle (default Pending (answer st)) r)) (read_requests x))
    (returns (λ _ w', reads_ok H [] [] w' ∧ closed_ok H [] w' ∧ requests w' = [] ∧
      stream w' = stream w ∧ controller w' = controller w ∧ reactions w' = reactions w)) w.
Proof.
  intros Hi Hx Hst Hne [Hm Hr] Hp Hres Hno. apply wp_bind_modify. rewrite settle_on by done.
  unfold set_requests. apply wp_bind_modify. set (w1 := on_readers _ _).
  assert (requests w = read_requests x) as Erq by (unfold requests, current; by rewrite Hi; simpl; rewrite Hx).
  assert (current w1 = Some (mkReader (closed_promise x) (attached x) [])) as Ec.
  { unfold current. simpl. rewrite Hi. simpl. by rewrite list_lookup_alter_eq, Hx. }
  assert (requests w1 = []) as E1 by (unfold requests; by rewrite Ec).
  pose proof (final_ended st Hne) as Hf.
  eapply wp_mono; [apply (wp_answer_loop H _ (read_requests x) w1)|].
  - simpl. rewrite Hst. by destruct st.
  - constructor; rewrite E1; simpl in *; rewrite !app_nil_r in *; rewrite Erq in *; [|done].
    by apply mem_settle_unowned.
  - intros [[]| |] w'; simpl; try done. intros (Hq & Hc & K). destruct (core_requests _ _ Hc) as [Hrq Hcu].
    injection Hc as C1 C2 C3 C4. split_and!; try done; [|by rewrite Hrq].
    intros y Hy. rewrite Hcu, Ec in Hy. injection Hy as <-. simpl. rewrite C1. simpl. rewrite Hst.
    split; [|done]. apply K; [done|]. by apply settle_at_eq.
Qed.

Lemma wp_end_stream strict F H by_cancel st rd w0 w :
  base F true w0 → eview w = eview w0 → state (stream w) = Readable → st ≠ Readable →
  rd_ok strict rd w → (strict = true → reads_ok H [] [] w ∧ closed_ok H [] w) →
  wp (end_stream st by_cancel rd) (returns (λ _ w', base F true w' ∧ state (stream w') = st ∧
    controller w' = controller w ∧
    (∃ o, source_run (Starting, Live) (log w') = Some (o, if by_cancel then Cancelling else Over)) ∧
    (strict = true → reads_ok H [] [] w' ∧ closed_ok H [] w' ∧ requests w' = []))) w.
Proof.
  intros Hb Ev Hst Hne Hrd Hs. pose proof (base_ended F true by_cancel st w0 w Hb Ev Hst Hne) as Hb'.
  pose proof (ended_life F true by_cancel st w0 w Hb Ev Hst) as Hl.
  apply wp_bind_modify, wp_bind_modify. set (w1 := record _ _) in *.
  assert (rd_ok strict rd w1) as Hrd1 by exact Hrd.
  assert (strict = true → reads_ok H [] [] w1) as Hr1.
  { intros Ht. destruct (Hs Ht) as [[Hm Hr] _]. split; [|done]. apply mem_log; [|done].
    eapply mem_end; [exact Hm|done]. }
  eapply wp_with_reader; [exact Hrd1|..].
  - intros i x -> Hx. pose proof (quiet_end_tail st i x w1) as Hq.
    destruct strict.
    + destruct (Hs eq_refl) as [_ Hc]. destruct Hrd1 as [Hi _]. specialize (Hi eq_refl). simpl in Hi.
      destruct (Hc x) as [Hp Hfree]; [unfold current; rewrite <- Hi; exact Hx|].
      rewrite Hst in Hp. destruct (Hfree Hst) as [Hres Hno].
      pose proof (wp_end_tail H st i x w1 (eq_sym Hi) Hx eq_refl Hne (Hr1 eq_refl) Hp Hres) as Ht.
      assert (dropped (log w1) = dropped (log w)) as Ed by (simpl; rewrite dropped_app; apply app_nil_r).
      unfold owned in Ht, Hno. rewrite Ed in Ht. specialize (Ht Hno).
      unfold wp, returns in *. destruct (bind (modify _) _ w1) as [w' [[]| |]]; simpl in *; try done.
      destruct Ht as (? & ? & ? & E1 & E2 & E3). destruct (view_fields _ _ Hq) as (_ & _ & _ & _ & E6).
      split_and!; try done; [by apply (base_view _ _ w1)|by rewrite E1|by rewrite E6].
    + unfold wp, returns in *. destruct (bind (modify _) _ w1) as [w' [[]| |]]; simpl in *; try done.
      destruct (view_fields _ _ Hq) as (E1 & E2 & _ & _ & E6).
      split_and!; try done; [by apply (base_view _ _ w1)|by rewrite E1|by rewrite E6].
  - intros ->. apply wp_ret. simpl. split_and!; try done. intros Ht. destruct Hrd1 as [Hi _].
    specialize (Hi Ht). simpl in Hi. split_and!; [auto| |].
    + intros y. unfold current. simpl. by rewrite <- Hi.
    + unfold requests, current. simpl. by rewrite <- Hi.
Qed.

(** * The strong invariant under changes it does not see *)

Definition sview (w : world) : list pstate * list ResolveablePromise * ReadableStreamState *
    option nat * list Reader * list val :=
  (promises w, reacting (reactions w), state (stream w), reader (stream w), readers w, queued w).
Definition flags (w : world) : bool * option SourceAlgorithm :=
  (close_requested (controller w), pull_algorithm (controller w)).

Lemma sview_current w w' : sview w' = sview w → current w' = current w ∧ requests w' = requests w.
Proof. unfold sview, requests, current. intros [= _ _ _ E4 E5 _]. by rewrite E4, E5. Qed.

Lemma tidy_same w w' :
  requests w' = requests w → queued w' = queued w → state (stream w') = state (stream w) →
  flags w' = flags w → tidy w → tidy w'.
Proof.
  unfold flags. intros E1 E2 E3 [= E4 E5] [H1 H2 H3 H4].
  constructor; by rewrite ?E1, ?E2, ?E3, ?E4, ?E5.
Qed.

Lemma tidy_view w w' : sview w' = sview w → flags w' = flags w → tidy w → tidy w'.
Proof.
  intros E Ef. destruct (sview_current _ _ E) as [_ Er]. injection E as _ _ E3 _ _ E6.
  by apply tidy_same.
Qed.

Lemma closed_view H A w w' :
  sview w' = sview w → dropped (log w') = dropped (log w) → closed_ok H A w → closed_ok H A w'.
Proof.
  intros E Ed Hc x. destruct (sview_current _ _ E) as [Ec Er]. injection E as E1 E2 E3 _ _ _.
  unfold owned. rewrite Ec, Er, E1, E2, E3, Ed. apply Hc.
Qed.

Lemma reads_view H Q A w w' :
  sview w' = sview w → log w' = log w → reads_ok H Q A w → reads_ok H Q A w'.
Proof.
  intros E El [Hm Hr]. destruct (sview_current _ _ E) as [_ Er]. injection E as E1 E2 E3 _ _ E6.
  constructor; by rewrite ?Er, ?E1, ?E2, ?E3, ?E6, ?El.
Qed.

Definition silent (e : entry) : Prop :=
  match e with Ended _ | StartDone _ | SourcePull | PullDone _ | SourceCancel _ => True | _ => False end.

Lemma reads_log H Q A e w w' :
  silent e → sview w' = sview w → log w' = log w ++ [e] → reads_ok H Q A w → reads_ok H Q A w'.
Proof.
  intros He E El [Hm Hr]. destruct (sview_current _ _ E) as [_ Er]. injection E as E1 E2 E3 _ _ E6.
  constructor; rewrite ?Er, ?E1, ?E2, ?E3, ?E6, ?El; [|done]. by apply mem_log.
Qed.

Lemma dropped_silent e l : silent e → dropped (l ++ [e]) = dropped l.
Proof. intros He. rewrite dropped_app. destruct e; try done; apply app_nil_r. Qed.

Lemma strong_view H w w' :
  sview w' = sview w → flags w' = flags w → log w' = log w → strong H w → strong H w'.
Proof.
  intros E Ec El [H1 H2 H3]. constructor; [by eapply reads_view|eapply closed_view; [done|by rewrite El|done]|].
  by eapply tidy_view.
Qed.
Lemma strong_log H e w w' :
  silent e → sview w' = sview w → flags w' = flags w → log w' = log w ++ [e] →
  strong H w → strong H w'.
Proof.
  intros He E Ec El [H1 H2 H3]. constructor; [by eapply reads_log| |by eapply tidy_view].
  eapply closed_view; [done| |done]. rewrite El. by apply dropped_silent.
Qed.

(** ** Changes [base] does not see but for the machine *)

Lemma base_weaken F F' b w :
  base F' b w → (known F ≤ known F')%nat → (∀ s, ended_as F = Some s → ended_as F' = Some s) →
  (owe_start F = true → owe_start F' = true) → (owe_pull F = true → owe_pull F' = true) → base F b w.
Proof.
  intros [H1 H2 H3 H4 H5 (s & Hs & [S1 S2 S3 S4])] K1 K2 K3 K4. constructor; try done.
  - lia.
  - auto.
  - exists s. split; [done|]. constructor; try done.
    + destruct (owe_start F); simpl; [rewrite K3 in S3 by done; done|lia].
    + destruct (owe_pull F); simpl; [rewrite K4 in S4 by done; done|lia].
Qed.

(** Every reader there is may be relied on. *)
Lemma base_known F b w :
  base F b w → base (mkFrame (length (readers w)) (ended_as F) (owe_start F) (owe_pull F)) b w.
Proof.
  intros [H1 H2 H3 H4 H5 (s & Hs & [S1 S2 S3 S4])]. constructor; try done.
  exists s. split; [done|]. by constructor.
Qed.

Lemma base_borrowed F b b' w : base F b w → base F b' (set_borrowed b' w).
Proof.
  intros [H1 H2 H3 H4 H5 (s & Hs & [S1 S2 S3 S4])]. constructor; try done.
  exists s. split; [done|]. by constructor.
Qed.

(** A change of the controller while the machine stands still. *)
Lemma base_controller F b f w :
  base F b w → started (f (controller w)) = started (controller w) →
  pulling (f (controller w)) = pulling (controller w) →
  (state (stream w) = Readable → algorithms (f (controller w))) →
  base F b (on_controller f w).
Proof.
  intros [H1 H2 H3 H4 H5 (s & Hs & [S1 S2 S3 S4])] E1 E2 E3. constructor; try done.
  exists s. split; [done|]. constructor; simpl; by rewrite ?E1, ?E2.
Qed.

Lemma base_disturbed F b d w : base F b w → base F b (on_stream (set_disturbed d) w).
Proof.
  intros [H1 H2 H3 H4 H5 (s & Hs & [S1 S2 S3 S4])]. constructor; try done.
  exists s. split; [done|]. by constructor.
Qed.

Lemma base_log F b e w :
  match e with Asked _ | Accepted _ | Matched _ _ | Answered _ | Dropped _ | Discarded => True | _ => False end →
  base F b w → base F b (record e w).
Proof. intros He. apply base_view. by apply record_view. Qed.

Lemma rs_count_snoc f l r : count f (l ++ [r]) = (count f l + Nat.b2n (f (kind r)))%nat.
Proof. induction l as [|r' l IH]; simpl; [lia|]. rewrite IH. lia. Qed.

(** A reaction that is neither of the source's operations. *)
Lemma base_reaction F b r w :
  is_start (kind r) = false → is_pull (kind r) = false →
  base F b w → base F b (on_reactions (λ l, l ++ [r]) w).
Proof.
  intros R1 R2 [H1 H2 H3 H4 H5 (s & Hs & [S1 S2 S3 S4])]. constructor; try done.
  exists s. split; [done|]. constructor; simpl; rewrite ?rs_count_snoc, ?R1, ?R2; simpl; try done; lia.
Qed.

(** * Operations *)

Definition is_size (c : ucall) : bool :=
  match c with CallSize _ _ | GetByteLength _ => true | _ => false end.

Section Operations.
Context (strict : bool) (user : ucall → M (option f64)) (native : world → val + NativePullResult).

Definition inv (b : bool) (F : frame) (H : list (nat * val)) (w : world) : Prop :=
  base F b w ∧ (strict = true → strong H w).

Hypothesis user_ok : ∀ c F H w, inv false F H w → wp (user c) (safe (inv false F H)) w.
Hypothesis size_ok : strict = true → ∀ c w, is_size c = true →
  ∃ r, user c w = (w, r) ∧ ∀ f, r ≠ Fault f.

Notation rd_ok := (rd_ok strict).

Lemma inv_weaken F F' b H w :
  inv b F' H w → (known F ≤ known F')%nat → (∀ s, ended_as F = Some s → ended_as F' = Some s) →
  (owe_start F = true → owe_start F' = true) → (owe_pull F = true → owe_pull F' = true) → inv b F H w.
Proof. intros [? ?] ????. split; [by eapply base_weaken|done]. Qed.

Lemma rs_inv_borrowed F b b' H w : inv b F H w → inv b' F H (set_borrowed b' w).
Proof. intros [Hb Hs]. split; [by eapply base_borrowed|]. intros Ht. by apply (strong_view _ w), Hs. Qed.

Lemma rs_wp_into_inner {B} (k : () → M B) F H Q w :
  inv true F H w → (inv false F H (set_borrowed false w) → wp (k ()) Q (set_borrowed false w)) →
  wp (bind into_inner k) Q w.
Proof. intros Hw Hk. apply wp_bind_modify, Hk. by eapply rs_inv_borrowed. Qed.

Lemma rs_wp_from_class {B} (k : () → M B) F H Q w :
  inv false F H w → (inv true F H (set_borrowed true w) → wp (k ()) Q (set_borrowed true w)) →
  wp (bind from_class k) Q w.
Proof.
  intros Hw Hk. apply wp_bind, wp_bind_gets. rewrite (b_borrowed _ _ _ (proj1 Hw)).
  apply wp_modify, Hk. by eapply rs_inv_borrowed.
Qed.

Lemma wp_call_user c F H w :
  inv true F H w → wp (call_user user c) (returns (λ _, inv true F H)) w.
Proof.
  intros Hw. eapply rs_wp_into_inner; [done|]. intros H1.
  eapply wp_then; [by apply wp_catch_safe, user_ok|]. intros r w2 H2. simpl in H2.
  eapply rs_wp_from_class; [done|]. intros H3. by apply wp_ret.
Qed.

Lemma rs_wp_call_algorithm a c F H w :
  inv true F H w → wp (call_algorithm user a c) (safe (inv true F H)) w.
Proof.
  intros Hw. destruct a; simpl.
  - eapply rs_wp_into_inner; [done|]. intros H1. eapply rs_wp_from_class; [done|]. intros H2. by apply wp_ret.
  - eapply wp_then; [by apply wp_call_user|]. intros r w' H'. by apply wp_ret.
  - eapply wp_then; [by apply wp_call_user|]. intros [e|r] w' H'; [by apply wp_throw|by apply wp_ret].
Qed.

(** ** Errors and closing *)


Lemma reads_discard H w f :
  (∀ c, container (f c) = reset_queue (container c)) → reads_ok H [] [] w →
  reads_ok H [] [] (on_controller f (record Discarded w)).
Proof.
  intros Hf [Hm Hr]. constructor; [|done].
  assert (queued (on_controller f (record Discarded w)) = []) as -> by (unfold queued; simpl; by rewrite Hf).
  by eapply mem_discard.
Qed.

Lemma closed_log H A e w w' :
  dropped (log w ++ [e]) = dropped (log w) →
  promises w' = promises w → reactions w' = reactions w → stream w' = stream w → readers w' = readers w →
  log w' = log w ++ [e] → closed_ok H A w → closed_ok H A w'.
Proof.
  intros Ed E1 E2 E3 E4 E5 Hc x. unfold requests, current, owned. rewrite E1, E2, E3, E4, E5, Ed. apply Hc.
Qed.

Lemma wp_controller_error_ended rd e F H w :
  inv true F H w → rd_ok rd w →
  wp (readable_stream_default_controller_error rd e)
    (returns (λ _ w', inv true F H w' ∧ state (stream w') ≠ Readable)) w.
Proof.
  intros [Hb Hs] Hrd. apply wp_bind_gets. simpl.
  destruct (is_readable (state (stream w))) eqn:Hst; simpl.
  2: { apply wp_ret. simpl. split; [done|]. by intros E; rewrite E in Hst. }
  assert (state (stream w) = Readable) as Hst' by (by destruct (state (stream w))).
  unfold reset_container, clear_algorithms. apply wp_bind, wp_bind_modify, wp_modify. simpl.
  apply wp_bind_modify. set (w2 := on_controller _ (on_controller _ _)).
  unfold wp. rewrite error_end. change (wp (end_stream (Errored e) false rd)
    (returns (λ _ w', inv true F H w' ∧ state (stream w') ≠ Readable)) w2).
  eapply wp_mono; [apply (wp_end_stream strict F H false (Errored e) rd w w2 Hb)|].
  - pose proof (record_view Discarded w I) as E. unfold bview in E. injection E as E.
    unfold eview. simpl. by rewrite E.
  - done.
  - done.
  - exact Hrd.
  - intros Ht. destruct (Hs Ht) as [Hr Hc _]. split.
    + apply (reads_view _ _ _ (on_controller (λ c, set_container (reset_queue (container c)) c) (record Discarded w)));
        [done|done|]. by apply reads_discard.
    + eapply (closed_log _ _ Discarded w); try done. rewrite dropped_app. apply app_nil_r.
  - intros [[]| |] w'; simpl; try done. intros (Hb' & E1 & E2 & _ & Hs').
    split; [split; [done|]|by rewrite E1].
    intros Ht. destruct (Hs' Ht) as (Hr & Hc & Hq). constructor; [done|done|].
    assert (queued w' = []) as Eq by (unfold queued; by rewrite E2).
    constructor; [by left|done|by rewrite E1|by rewrite E2].
Qed.

Lemma wp_controller_error rd e F H w :
  inv true F H w → rd_ok rd w →
  wp (readable_stream_default_controller_error rd e) (returns (λ _, inv true F H)) w.
Proof.
  intros Hw Hrd. eapply wp_returns; [by apply wp_controller_error_ended|]. by intros [] w' [? _].
Qed.

Lemma can_close_readable w :
  can_close_or_enqueue w = true → state (stream w) = Readable ∧ close_requested (controller w) = false.
Proof.
  unfold can_close_or_enqueue, readable_stream_default_controller_can_close_or_enqueue.
  destruct (state (stream w)); try done. by destruct (close_requested _).
Qed.

Lemma is_empty_true {A} (l : list A) : is_nil l = true → l = [].
Proof. by destruct l. Qed.
Lemma is_empty_false {A} (l : list A) : is_nil l = false → l ≠ [].
Proof. by destruct l. Qed.
Lemma queued_nil w : queue (container (controller w)) = [] ↔ queued w = [].
Proof. unfold queued. by destruct (queue _). Qed.

(** The stream closes when the last chunk is gone. *)
Lemma wp_close_now rd F H w0 w :
  base F true w0 → eview w = eview w0 → state (stream w) = Readable → rd_ok rd w →
  queued w = [] → pull_algorithm (controller w) ≠ Some RustFunction →
  (strict = true → reads_ok H [] [] w ∧ closed_ok H [] w) →
  wp (readable_stream_close false rd) (returns (λ _, inv true F H)) w.
Proof.
  intros Hb Ev Hst Hrd Hq Hpa Hs. rewrite close_end.
  eapply wp_mono; [by apply (wp_end_stream strict F H false Closed rd w0 w)|].
  intros [[]| |] w'; simpl; try done. intros (Hb' & E1 & E2 & _ & Hs'). split; [done|].
  intros Ht. destruct (Hs' Ht) as (Hr & Hc & Hrq). constructor; [done|done|].
  assert (queued w' = []) as Eq by (unfold queued; by rewrite E2).
  constructor; [by left|done|by rewrite E1|]. rewrite E2. auto.
Qed.

Lemma wp_controller_close rd F H w :
  inv true F H w → rd_ok rd w →
  wp (readable_stream_default_controller_close rd) (returns (λ _, inv true F H)) w.
Proof.
  intros [Hb Hs] Hrd. apply wp_bind_gets. simpl.
  destruct (can_close_or_enqueue w) eqn:Hc; simpl; [|by apply wp_ret].
  destruct (can_close_readable w Hc) as [Hst Hcr]. apply wp_bind_modify, wp_when; intros He.
  - apply is_empty_true in He. unfold clear_algorithms. apply wp_bind_modify.
    eapply (wp_close_now _ _ _ w); try done; [by apply queued_nil|].
    intros Ht. destruct (Hs Ht) as [Hr Hcl _]. split; [by apply (reads_view _ _ _ w)|exact Hcl].
  - apply is_empty_false in He. simpl. split.
    + apply base_controller; try done. exact (b_algs _ _ _ Hb).
    + intros Ht. destruct (Hs Ht) as [Hr Hcl [T1 T2 T3 T4]].
      constructor; [by apply (reads_view _ _ _ w)|exact Hcl|].
      constructor; try done. intros _ _. by rewrite <- queued_nil.
Qed.
(** ** Pulling *)

Lemma should_pull_eq rd w :
  rd_ok rd w →
  ∃ b, readable_stream_default_controller_should_call_pull rd w = (w, Returns b) ∧
    (b = true → state (stream w) = Readable ∧ started (controller w) = true).
Proof.
  intros [_ Hl]. unfold readable_stream_default_controller_should_call_pull.
  erewrite bind_returns by done. simpl.
  destruct (can_close_or_enqueue w) eqn:Hc; simpl; [|by exists false].
  destruct (can_close_readable w Hc) as [Hst _].
  destruct (started (controller w)) eqn:Hsr; simpl; [|by exists false].
  set (m := with_reader _ _ _). assert (∃ b, m w = (w, Returns b)) as [b Hm].
  { unfold m. destruct rd as [i|]; [|by exists false]. rewrite with_reader_eq.
    destruct (lookup_lt_is_Some_2 (readers w) i (Hl i eq_refl)) as [x ->]. by eexists. }
  erewrite bind_returns by done. destruct b; [by exists true|].
  unfold readable_stream_default_controller_get_desired_size. rewrite Hst. by eexists.
Qed.

Definition pull_frame (F : frame) (w : world) : frame :=
  mkFrame (length (readers w)) (ended_as F) (owe_start F) true.

Lemma inv_source_pull F H w :
  inv true F H w → state (stream w) = Readable → started (controller w) = true →
  pulling (controller w) = false →
  owe_pull F = false ∧
  inv true (pull_frame F w) H (record SourcePull (on_controller (set_pulling true) w)).
Proof.
  intros [Hb Hs] Hst Hsr Hpu. destruct (b_source _ _ _ Hb) as ([o l] & Hrun & [S1 S2 S3 S4]).
  simpl in *. rewrite Hsr, Hpu in S1. assert (o = Idle) as -> by (destruct o; naive_solver).
  assert (l = Live) as -> by (by apply S2). simpl in *. split; [by destruct (owe_pull F); [simpl in S4; lia|]|].
  split.
  - destruct Hb as [B1 B2 B3 B4 B5 _]. constructor; simpl; try done.
    exists (Pulling, Live). rewrite machine_run_snoc, Hrun. split; [done|].
    constructor; simpl; try done. destruct (owe_pull F); simpl in S4; lia.
  - intros Ht. by apply (strong_log _ SourcePull w), Hs.
Qed.

(** The reaction to a pull is registered. *)
Lemma inv_upon_pull n st os H w r :
  inv true (mkFrame n st os true) H w → kind r = UponPull →
  inv true (mkFrame n st os false) H (on_reactions (λ l, l ++ [r]) w).
Proof.
  intros [Hb Hs] Hk. split.
  - destruct Hb as [B1 B2 B3 B4 B5 (s & Hrun & [S1 S2 S3 S4])]. constructor; try done.
    exists s. split; [done|]. simpl in *. constructor; simpl; rewrite ?rs_count_snoc, ?Hk; simpl; try done; lia.
  - intros Ht. apply (strong_view _ w); try done; [|by apply Hs].
    unfold sview. simpl. unfold reacting. rewrite omap_app. simpl. rewrite Hk. by rewrite app_nil_r.
Qed.

(** An exception only when the strong invariant is not at stake. *)
Definition loose {A} (P : world → Prop) (r : outcome val fault A) (w : world) : Prop :=
  match r with Returns _ => P w | Throws _ => P w ∧ strict ≠ true | Fault _ => False end.

Lemma wp_then_loose {A B} (m : M A) (k : A → M B) (P P' : world → Prop) w :
  wp m (loose P) w → (∀ w', strict ≠ true → P w' → P' w') → (∀ a w', P w' → wp (k a) (loose P') w') →
  wp (bind m k) (loose P') w.
Proof. intros Hm HP Hk. eapply wp_seq; [done|]. intros [] w'; simpl; naive_solver. Qed.

Lemma wp_call_algorithm_loose a c F H w :
  inv true F H w → (strict = true → a ≠ RustFunction) →
  wp (call_algorithm user a c) (loose (inv true F H)) w.
Proof.
  intros Hw Ha. destruct a; simpl.
  - eapply rs_wp_into_inner; [done|]. intros H1. eapply rs_wp_from_class; [done|]. intros H2. by apply wp_ret.
  - eapply wp_then; [by apply wp_call_user|]. intros r w' H'. by apply wp_ret.
  - eapply wp_then; [by apply wp_call_user|]. intros [e|r] w' H'; [apply wp_throw|by apply wp_ret].
    split; [done|]. naive_solver.
Qed.

Lemma wp_call_pull rd F H w :
  inv true F H w → rd_ok rd w →
  wp (readable_stream_default_controller_call_pull_if_needed user rd) (loose (inv true F H)) w.
Proof.
  intros Hw Hrd. destruct (should_pull_eq rd w Hrd) as (b & Eb & Hb).
  unfold wp, readable_stream_default_controller_call_pull_if_needed. erewrite bind_returns by exact Eb.
  destruct b; simpl; [|done]. destruct (Hb eq_refl) as [Hst Hsr].
  change (wp (let! c := gets controller in
    if pulling c then modify (on_controller (set_pull_again true))
    else modify (on_controller (set_pulling true)) ;!
      let! pull_promise := run_pull_algorithm user in
      upon_promise UponPull pull_promise) (loose (inv true F H)) w).
  apply wp_bind_gets. destruct (pulling (controller w)) eqn:Hpu.
  - apply wp_modify. simpl. destruct Hw as [HB HS]. split.
    + apply base_controller; try done. exact (b_algs _ _ _ HB).
    + intros Ht. by apply (strong_view _ w), HS.
  - destruct (inv_source_pull F H w Hw Hst Hsr Hpu) as [Ho Hw'].
    destruct (b_algs _ _ _ (proj1 Hw) Hst) as ([a Ha] & _).
    assert (∀ w', inv true (pull_frame F w) H w' → inv true F H w') as Hback.
    { intros w' Hi. eapply inv_weaken; [exact Hi|..]; simpl; try done. apply Hw. }
    apply wp_bind_modify. unfold run_pull_algorithm.
    eapply (wp_then_loose _ _ (inv true (pull_frame F w) H)); [|auto|].
    + apply wp_bind_gets. simpl. eapply wp_bind_expect; [exact Ha|]. apply wp_bind_modify.
      apply wp_call_algorithm_loose; [done|]. intros Ht ->.
      by destruct (t_source _ (g_tidy _ _ (proj2 Hw Ht))).
    + intros r w' Hi. apply wp_modify. simpl.
      eapply inv_weaken; [by apply (inv_upon_pull _ _ _ _ _ (mkReaction UponPull r) Hi)|..]; simpl; try done;
        [apply Hw|by rewrite Ho].
Qed.

(** ** Enqueuing *)

(** The reader of the stream has lost its first request, which got a chunk. *)
Lemma strong_fulfill H i x r l chunk w :
  strong H w → can_close_or_enqueue w = true →
  reader (stream w) = Some i → readers w !! i = Some x → read_requests x = r :: l →
  strong H (settle (delivered chunk) r (record (Matched (promise r) chunk)
    (on_readers (alter (λ x, mkReader (closed_promise x) (attached x) l) i)
      (record (Accepted chunk) w)))).
Proof.
  intros [[Hm Hr] Hc [T1 T2 T3 T4]] Hcan Hi Hx Hrq. destruct (can_close_readable w Hcan) as [Hst Hcr].
  assert (requests w = r :: l) as Er by (unfold requests, current; rewrite Hi; simpl; by rewrite Hx).
  assert (queued w = []) as Eq by (rewrite Er in T1; by destruct T1).
  rewrite Er in Hm, Hr. simpl in Hm, Hr. apply Forall_cons in Hr as [Hres Hr].
  rewrite settle_on by done. set (w' := on_promises _ _).
  assert (current w' = Some (mkReader (closed_promise x) (attached x) l)) as Ec.
  { unfold current. simpl. rewrite Hi. simpl. by rewrite list_lookup_alter_eq, Hx. }
  assert (requests w' = l) as Er' by (unfold requests; by rewrite Ec).
  constructor.
  - constructor; rewrite Er'; [|done]. simpl. apply mem_deliver, mem_match.
    rewrite Eq in Hm. unfold queued. simpl. fold (queued w). rewrite Eq.
    apply (mem_accept (q := [])). exact Hm.
  - intros y Hy. rewrite Ec in Hy. injection Hy as <-. rewrite Er'. simpl.
    destruct (Hc x) as [Hp Hfree]; [unfold current; rewrite Hi; exact Hx|]. rewrite Hst in *.
    destruct (Hfree eq_refl) as [Hrx Hno]. rewrite Er in Hno. simpl in Hno. rewrite owned_wait in Hno.
    apply not_elem_of_cons in Hno as [Hne Hno]. split.
    + by rewrite settle_at_ne.
    + intros _. split; [done|]. revert Hno. unfold owned. rewrite !dropped_app. simpl.
      by rewrite !app_nil_r.
  - constructor; [by right|by intros []| |done]. intros _ Hn. simpl in Hn. congruence.
Qed.

Lemma fulfill_eq i chunk x r l w :
  readers w !! i = Some x → read_requests x = r :: l →
  readable_stream_fulfill_read_request i chunk false w =
    (settle (delivered chunk) r (record (Matched (promise r) chunk)
      (on_readers (alter (λ x, mkReader (closed_promise x) (attached x) l) i) w)), Returns ()).
Proof.
  intros Hx Hrq. unfold readable_stream_fulfill_read_request. rewrite with_reader_eq, Hx, Hrq. done.
Qed.

Lemma wp_fulfill i chunk x r l F H w :
  inv true F H w → can_close_or_enqueue w = true → rd_ok (Some i) w →
  readers w !! i = Some x → read_requests x = r :: l →
  wp (modify (record (Accepted chunk)) ;!
      readable_stream_fulfill_read_request i chunk false ;! ret false)
    (returns (λ b w', b = false ∧ inv true F H w' ∧ rd_ok (Some i) w')) w.
Proof.
  intros [Hb Hs] Hcan [R1 R2] Hx Hrq. apply wp_bind_modify. unfold wp.
  rewrite (bind_returns _ _ _ _ _ (fulfill_eq i chunk x r l (record (Accepted chunk) w) Hx Hrq)). simpl.
  set (w' := settle _ _ (record _ _)). assert (bview w' = bview w) as Ev.
  { unfold w'. rewrite rs_settle_view, record_view, alter_view, record_view; done. }
  destruct (view_fields _ _ Ev) as (E1 & _ & _ & E4 & _). split_and!; [done| |].
  - split; [by apply (base_view _ _ w)|]. intros Ht. eapply strong_fulfill; eauto.
    by rewrite <- (R1 Ht).
  - split; [|by rewrite E4]. intros Ht. rewrite E1. auto.
Qed.

Notation size_call := (size_algorithm_call (λ f chunk, user (CallSize f chunk))
  (λ chunk, user (GetByteLength chunk))).

Lemma wp_size_call a chunk F H w :
  inv false F H w → wp (size_call a chunk) (safe (inv false F H)) w.
Proof.
  intros Hw. unfold size_algorithm_call.
  destruct a as [|[f|[]]]; simpl; try done; [|destruct (is_object chunk); [|done]];
    (eapply wp_then_safe; [by apply user_ok|done|done]).
Qed.

Lemma size_call_calm a chunk w :
  strict = true → ∃ r, catch (size_call a chunk) w = (w, Returns r).
Proof.
  intros Ht. assert (∀ c, is_size c = true →
    ∃ r, catch (let! r := user c in ret (size_from_js r)) w = (w, Returns r)) as Hu.
  { intros c Hc. destruct (size_ok Ht c w Hc) as (r & Er & Hf). unfold catch, bind. rewrite Er.
    destruct r as [a'|e|f]; [by eexists|by eexists|by destruct (Hf f)]. }
  destruct a as [|[f|[]]]; simpl; [by eexists|by apply Hu| |by eexists].
  destruct (is_object chunk); [by apply Hu|by eexists].
Qed.

Lemma set_borrowed_back b w : borrowed w = b → set_borrowed b (set_borrowed (negb b) w) = w.
Proof. destruct w. simpl. by intros ->. Qed.

Lemma wp_call_size rd chunk F H w :
  inv true F H w → state (stream w) = Readable → rd_ok rd w →
  wp (call_size_algorithm user chunk)
    (returns (λ _ w', inv true F H w' ∧ rd_ok rd w' ∧ (strict = true → w' = w))) w.
Proof.
  intros Hw Hst [R1 R2]. destruct (b_algs _ _ _ (proj1 Hw) Hst) as (_ & _ & [a Ha] & _).
  apply wp_bind_gets. simpl. eapply wp_bind_expect; [exact Ha|].
  set (F' := mkFrame (length (readers w)) (ended_as F) (owe_start F) (owe_pull F)).
  assert (inv true F' H w) as Hw'.
  { split; [|apply Hw]. by apply base_known, Hw. }
  eapply rs_wp_into_inner; [exact Hw'|]. intros H1. destruct (decide (strict = true)) as [Ht|Ht].
  - destruct (size_call_calm a chunk (set_borrowed false w) Ht) as (r & Er).
    unfold wp. rewrite (bind_returns _ _ _ _ _ Er).
    change (wp (from_class ;! ret r) (returns (λ _ w', inv true F H w' ∧ rd_ok rd w' ∧ (strict = true → w' = w)))
      (set_borrowed false w)).
    eapply rs_wp_from_class; [exact H1|]. intros _.
    pose proof (set_borrowed_back true w (b_borrowed _ _ _ (proj1 Hw))) as E. simpl in E.
    rewrite E. by apply wp_ret.
  - eapply (wp_then _ _ (λ _, inv false F' H)); [by apply wp_catch_safe, wp_size_call|].
    intros r w2 H2. eapply rs_wp_from_class; [exact H2|]. intros H3. apply wp_ret. simpl. split_and!; [|split|]; try done.
    + eapply inv_weaken; [exact H3|..]; simpl; try done. apply Hw.
    + intros i Hi. pose proof (b_known _ _ _ (proj1 H2)) as K. simpl in *. specialize (R2 i Hi). lia.
Qed.

Lemma rs_enqueue_queue (c : val) s (q q' : QueueWithSizes val) :
  enqueue_value_with_size c s q = Some q' → value <$> queue q' = (value <$> queue q) ++ [c].
Proof.
  unfold enqueue_value_with_size. destruct (is_non_negative_number s) as [n|]; [|done].
  destruct (is_infinite n); [done|]. intros [= <-]. simpl. by rewrite fmap_app.
Qed.

Lemma strong_accept H chunk s q w :
  strong H w → can_close_or_enqueue w = true → requests w = [] →
  enqueue_value_with_size chunk s (container (controller w)) = Some q →
  strong H (on_controller (set_container q) (record (Accepted chunk) w)).
Proof.
  intros [[Hm Hr] Hc [T1 T2 T3 T4]] Hcan Hrq Hq. destruct (can_close_readable w Hcan) as [Hst Hcr].
  set (w' := on_controller _ _). assert (queued w' = queued w ++ [chunk]) as Eq.
  { unfold queued. simpl. by eapply rs_enqueue_queue. }
  constructor.
  - constructor; [|done]. rewrite Eq. by apply mem_accept.
  - eapply (closed_log _ _ (Accepted chunk) w); try done. rewrite dropped_app. apply app_nil_r.
  - constructor; [by left|by intros []| |done]. intros _ Hn. simpl in Hn. congruence.
Qed.

(** A reader that has requests gets the chunk at once. *)
Definition enqueue_direct (rd : option nat) (chunk : val) : M bool :=
  with_reader rd (λ i x,
    if (0 <? readable_stream_get_num_read_requests x)%nat then
      modify (record (Accepted chunk)) ;!
      readable_stream_fulfill_read_request i chunk false ;!
      ret false
    else ret true) (ret true).

Lemma wp_enqueue_direct rd chunk F H w :
  inv true F H w → rd_ok rd w → can_close_or_enqueue w = true →
  wp (enqueue_direct rd chunk) (returns (λ els w', inv true F H w' ∧ rd_ok rd w' ∧
    (els = true → w' = w ∧ (strict = true → requests w = [])))) w.
Proof.
  intros Hw Hrd Hcan. eapply wp_with_reader; [exact Hrd|..].
  - intros i x -> Hx. unfold readable_stream_get_num_read_requests.
    destruct (read_requests x) as [|r l] eqn:Hrq; simpl.
    + apply wp_ret. simpl. split_and!; try done. intros _. split; [done|]. intros Ht.
      destruct Hrd as [R1 _]. unfold requests, current. rewrite <- (R1 Ht). simpl. by rewrite Hx.
    + eapply wp_mono; [by eapply wp_fulfill|]. intros [[]| |] w'; simpl; naive_solver.
  - intros ->. apply wp_ret. simpl. split_and!; try done. intros _. split; [done|]. intros Ht.
    destruct Hrd as [R1 _]. unfold requests, current. by rewrite <- (R1 Ht).
Qed.

(** ... otherwise it is queued with the size the strategy gives it. *)
Definition enqueue_sized (rd : option nat) (chunk : val) : M () :=
  let! result := call_size_algorithm user chunk in
  match result with
  | inl err => readable_stream_default_controller_error rd err ;! throw err
  | inr chunk_size =>
      let! enqueue_result := enqueue_value chunk chunk_size in
      match enqueue_result with
      | inl err => readable_stream_default_controller_error rd err ;! throw err
      | inr () => ret ()
      end
  end.

Lemma wp_error_throw {A} rd e F H (Q : outcome val fault A → world → Prop) w :
  inv true F H w → rd_ok rd w → (∀ w', inv true F H w' → Q (Throws e) w') →
  wp (readable_stream_default_controller_error rd e ;! throw e) Q w.
Proof.
  intros Hw Hrd HP. eapply wp_then; [by apply wp_controller_error|]. intros [] w' H'. by apply wp_throw, HP.
Qed.

Lemma wp_enqueue_sized rd chunk F H w :
  inv true F H w → rd_ok rd w → can_close_or_enqueue w = true → (strict = true → requests w = []) →
  wp (enqueue_sized rd chunk) (λ r w', match r with
    | Returns _ => inv true F H w' ∧ rd_ok rd w'
    | Throws _ => inv true F H w'
    | Fault _ => False
    end) w.
Proof.
  intros Hw Hrd Hcan Hrq. destruct (can_close_readable w Hcan) as [Hst _].
  eapply wp_then; [by apply wp_call_size|]. intros [err|s] w1 (H1 & R1 & Hsame).
  - by eapply wp_error_throw.
  - apply wp_bind, wp_bind_gets. simpl.
    destruct (enqueue_value_with_size chunk s (container (controller w1))) as [q|] eqn:Hq.
    + apply wp_bind_modify, wp_bind_modify. simpl. split; [|exact R1]. destruct H1 as [Hb Hs]. split.
      * apply base_controller; try done; [by apply base_log|]. exact (b_algs _ _ _ Hb).
      * intros Ht. rewrite (Hsame Ht) in *. eapply strong_accept; eauto.
    + apply wp_ret. simpl. by eapply wp_error_throw.
Qed.

Lemma wp_enqueue rd chunk F H w :
  inv true F H w → rd_ok rd w →
  wp (readable_stream_default_controller_enqueue user rd chunk) (safe (inv true F H)) w.
Proof.
  intros Hw Hrd. apply wp_bind_gets. simpl. destruct (can_close_or_enqueue w) eqn:Hcan; simpl; [|by apply wp_ret].
  eapply wp_then; [by apply (wp_enqueue_direct rd chunk)|]. intros els w1 (H1 & R1 & Hels).
  eapply (wp_seq _ _ (λ r w', match r with
    | Returns _ => inv true F H w' ∧ rd_ok rd w'
    | Throws _ => inv true F H w'
    | Fault _ => False
    end)).
  - destruct els; simpl; [|by apply wp_ret]. destruct (Hels eq_refl) as [-> Hrq].
    by apply wp_enqueue_sized.
  - intros [[]| |] w2; simpl; try done. intros [H2 R2].
    eapply wp_mono; [by apply wp_call_pull|]. intros [] w3; simpl; naive_solver.
Qed.

(** ** Reading *)

(** A read has been asked for and is in no list yet. *)
Record asked (H : list (nat * val)) (r : ResolveablePromise) (w : world) : Prop := {
  a_reads : reads_ok H [] [r] w;
  a_closed : closed_ok H [r] w;
  a_tidy : tidy w
}.

Definition ask_world (w : world) : world :=
  record (Asked (length (promises w))) (on_stream (set_disturbed true)
    (on_promises (λ ps, ps ++ [Pending]) w)).

Lemma strong_ask H w : strong H w → asked H (mkRP (length (promises w)) true) (ask_world w).
Proof.
  intros [[Hm Hr] Hc Ht]. constructor.
  - constructor; [|by rewrite !Forall_app in *; naive_solver].
    assert (promise <$> [] ++ requests (ask_world w) ++ [mkRP (length (promises w)) true] =
      (promise <$> [] ++ requests w ++ []) ++ [length (promises w)]) as ->.
    { simpl. rewrite app_nil_r, fmap_app. done. }
    apply mem_ask. by apply mem_fresh.
  - intros x Hx. destruct (Hc x Hx) as [Hp Hfree]. split.
    + simpl. by apply lookup_app_l_Some.
    + intros Hst. destruct (Hfree Hst) as [? Hno]. split; [done|]. simpl.
      unfold owned in *. rewrite dropped_app. simpl. rewrite (app_nil_r (dropped _)).
      change (requests (ask_world w)) with (requests w). rewrite app_nil_r in Hno.
      rewrite fmap_app. apply lookup_lt_Some in Hp. simpl. rewrite !elem_of_app in *.
      rewrite list_elem_of_singleton. assert (promise (closed_promise x) ≠ length (promises w)) by lia.
      naive_solver.
  - by apply (tidy_same w).
Qed.

(** ... answered by a stream that has ended, *)
Lemma strong_answer H r s w :
  asked H r w → answer (state (stream w)) = Some s →
  strong H (settle s r (record (Answered (promise r)) w)).
Proof.
  intros [[Hm Hr] Hc [T1 T2 T3 T4]] Hs.
  assert (state (stream w) ≠ Readable) as Hne by (by intros E; rewrite E in Hs).
  destruct (T2 Hne) as [Er Eq]. rewrite Er in Hm, Hr. simpl in Hm, Hr.
  apply Forall_cons in Hr as [Hres Hr]. rewrite settle_on by done. set (w' := on_promises _ _).
  assert (requests w' = []) as Er' by exact Er.
  constructor; [|intros x Hx|].
  - constructor; rewrite Er'; [|done]. by apply mem_answer.
  - destruct (Hc x Hx) as [Hp _]. split; [|done].
    apply settle_at_settled; [by apply final_ended|done].
  - constructor; [by left|by split|by intros ?%Hne|done].
Qed.

(** ... added to the requests of the reader, *)
Lemma strong_add H r i x w :
  asked H r w → reader (stream w) = Some i → readers w !! i = Some x → queued w = [] →
  state (stream w) = Readable →
  strong H (on_readers (alter (λ x, mkReader (closed_promise x) (attached x) (read_requests x ++ [r])) i) w).
Proof.
  intros [[Hm Hr] Hc [T1 T2 T3 T4]] Hi Hx Hq Hst. set (w' := on_readers _ _).
  assert (requests w = read_requests x) as Er by (unfold requests, current; rewrite Hi; simpl; by rewrite Hx).
  assert (current w' = Some (mkReader (closed_promise x) (attached x) (read_requests x ++ [r]))) as Ec.
  { unfold current. simpl. rewrite Hi. simpl. by rewrite list_lookup_alter_eq, Hx. }
  assert (requests w' = requests w ++ [r]) as Er' by (unfold requests at 1; by rewrite Ec, Er).
  constructor.
  - constructor; rewrite Er'; simpl in *; rewrite ?app_nil_r; [done|].
    by rewrite <- app_assoc.
  - intros y Hy. rewrite Ec in Hy. injection Hy as <-. rewrite Er', app_nil_r.
    apply (Hc x). unfold current. by rewrite Hi.
  - constructor; [by right|by intros []| |done]. intros ? Hcr. by destruct (T3 Hst Hcr).
Qed.

(** ... or matched with the first chunk of the queue. *)
Lemma asked_match H r v q w :
  asked H r w → queued w = v :: q →
  ∀ c, value <$> queue c = q →
  reads_ok ((promise r, v) :: H) [] [] (record (Matched (promise r) v) (on_controller (set_container c) w)) ∧
  closed_ok ((promise r, v) :: H) [] (record (Matched (promise r) v) (on_controller (set_container c) w)) ∧
  requests w = [] ∧ resolvers r = true.
Proof.
  intros [[Hm Hr] Hc [T1 T2 T3 T4]] Hq c Hcq.
  assert (requests w = []) as Er by (rewrite Hq in T1; by destruct T1).
  rewrite Er, Hq in Hm. rewrite Er in Hr. simpl in Hm, Hr. apply Forall_cons in Hr as [Hres Hr].
  set (w' := record _ _). assert (queued w' = q) as Eq' by done.
  split_and!; [| |done|done].
  - constructor; change (requests w') with (requests w); rewrite Er; [|done].
    rewrite Eq'. by apply mem_match.
  - intros x Hx. destruct (Hc x Hx) as [Hp Hfree]. split; [done|]. intros Hst.
    destruct (Hfree Hst) as [? Hno]. split; [done|]. revert Hno.
    change (requests w') with (requests w). rewrite Er. unfold owned. simpl.
    rewrite dropped_app. simpl. rewrite app_nil_r. rewrite !elem_of_app, !elem_of_cons, !elem_of_app. naive_solver.
Qed.

Lemma strong_deliver H p c w :
  strong ((p, c) :: H) w → strong H (settle (delivered c) (mkRP p true) w).
Proof.
  intros [[Hm Hr] Hc Ht]. rewrite settle_on by done. constructor; [| |by apply (tidy_same w)].
  - constructor; [|done]. by apply mem_deliver.
  - intros x Hx. destruct (Hc x Hx) as [Hp Hfree]. simpl.
    destruct (decide (state (stream w) = Readable)) as [Hst|Hst].
    + destruct (Hfree Hst) as [? Hno]. unfold owned in Hno. simpl in Hno.
      apply not_elem_of_cons in Hno as [? Hno]. by rewrite settle_at_ne.
    + split; [|done]. apply settle_at_settled; [by apply final_ended|done].
Qed.

Lemma dequeue_eq w v q :
  queued w = v :: q →
  ∃ c, dequeue w = (on_controller (set_container c) w, Returns v) ∧ value <$> queue c = q.
Proof.
  unfold dequeue, queued, dequeue_value. intros Hq. erewrite bind_returns by done. simpl.
  destruct (queue (container (controller w))) as [|s l]; [done|]. injection Hq as Hv Hl.
  eexists. simpl. unfold bind, ret, modify. simpl. rewrite Hv. by split.
Qed.

Lemma wp_deliver r chunk F H w :
  inv true F ((promise r, chunk) :: H) w → (strict = true → resolvers r = true) →
  wp (chunk_steps r chunk) (returns (λ _, inv true F H)) w.
Proof.
  intros [Hb Hs] Hr. apply wp_modify. simpl. split; [by apply (base_view _ _ w), Hb; apply rs_settle_view|].
  intros Ht. specialize (Hr Ht). destruct r as [p []]; [|done]. by apply strong_deliver, Hs.
Qed.

(** The chunk has left the queue. *)
Lemma wp_pull_dequeued i r chunk q F H w :
  base F true w → (strict = true → asked H r w) → rd_ok (Some i) w → queued w = chunk :: q →
  state (stream w) = Readable →
  ∀ c, value <$> queue c = q →
  wp ((if close_requested (controller w) && is_nil (queue c) then
         clear_algorithms ;! readable_stream_close false (Some i)
       else readable_stream_default_controller_call_pull_if_needed user (Some i)) ;!
      chunk_steps r chunk) (loose (inv true F H))
    (record (Matched (promise r) chunk) (on_controller (set_container c) w)).
Proof.
  intros Hb Hs Hrd Hq Hst c Hc. set (w' := record _ _).
  assert (base F true w') as Hb'.
  { apply base_log; [done|]. apply base_controller; try done. exact (b_algs _ _ _ Hb). }
  assert (strict = true → resolvers r = true) as Hres.
  { intros Ht. by eapply asked_match in Hs as (_ & _ & _ & ?). }
  eapply (wp_then_loose _ _ (λ w, base F true w ∧ (strict = true → strong ((promise r, chunk) :: H) w))).
  - destruct (close_requested (controller w) && is_nil (queue c)) eqn:Hcl.
    + apply andb_prop in Hcl as [_ He%is_empty_true]. unfold clear_algorithms. apply wp_bind_modify.
      eapply wp_mono; [apply (wp_close_now _ F ((promise r, chunk) :: H) w')|]; try done.
      * unfold queued. simpl. by rewrite He.
      * intros Ht. destruct (asked_match H r chunk q w (Hs Ht) Hq c Hc) as (Hr & Hcl & _).
        split; [by apply (reads_view _ _ _ w')|exact Hcl].
      * intros [] ?; simpl; naive_solver.
    + apply wp_call_pull; [|exact Hrd]. split; [done|]. intros Ht.
      destruct (asked_match H r chunk q w (Hs Ht) Hq c Hc) as (Hr & Hcl' & Hrq & _).
      destruct (a_tidy _ _ _ (Hs Ht)) as [T1 T2 T3 T4]. constructor; [done|done|].
      constructor; [by left|by intros []| |done]. intros _ Hcr. simpl in Hcr. rewrite Hcr in Hcl.
      simpl in Hcl. apply is_empty_false in Hcl. unfold queued. simpl. by destruct (queue c).
  - intros w1 Hn [B _]. by split.
  - intros [] w1 Hi. eapply wp_returns; [by apply wp_deliver|]. by intros [] w2.
Qed.

Lemma wp_pull_steps i r F H w :
  base F true w → (strict = true → asked H r w) → rd_ok (Some i) w → state (stream w) = Readable →
  wp (pull_steps user i r) (loose (inv true F H)) w.
Proof.
  intros Hb Hs Hrd Hst. apply wp_bind_gets.
  destruct (queue (container (controller w))) as [|v l] eqn:Hq; simpl.
  - assert (queued w = []) as Hq' by (by apply queued_nil).
    destruct Hrd as [R1 R2]. destruct (lookup_lt_is_Some_2 (readers w) i (R2 i eq_refl)) as [x Hx].
    unfold readable_stream_add_read_request, wp.
    erewrite bind_returns by (by rewrite with_reader_eq, Hx). set (w' := on_readers _ w).
    assert (bview w' = bview w) as Ev by (by apply alter_view).
    destruct (view_fields _ _ Ev) as (E1 & _ & _ & E4 & _).
    apply wp_call_pull; [|split; [by rewrite E1|by rewrite E4]].
    split; [by apply (base_view _ _ w)|]. intros Ht.
    assert (w' = on_readers (alter (λ x, mkReader (closed_promise x) (attached x) (read_requests x ++ [r])) i) w) as ->.
    { unfold w', on_readers. f_equal. apply list_eq. intros j.
      destruct (decide (i = j)) as [<-|]; [|by rewrite !list_lookup_alter_ne].
      by rewrite !list_lookup_alter_eq, Hx. }
    eapply strong_add; eauto. by rewrite <- (R1 Ht).
  - assert (queued w = value v :: (value <$> l)) as Hq' by (unfold queued; by rewrite Hq).
    destruct (dequeue_eq w _ _ Hq') as (c & Ed & Hc).
    unfold wp. erewrite bind_returns by exact Ed.
    by eapply (wp_pull_dequeued i r (value v) _ F H w).
Qed.

Lemma attached_reader F b i w : base F b w → is_attached i w = true → rd_ok (Some i) w.
Proof.
  intros Hb Ha. split.
  - intros _. symmetry. by apply (b_link _ _ _ Hb).
  - intros j [= <-]. unfold is_attached in Ha. destruct (readers w !! i) eqn:E; [|done].
    by eapply lookup_lt_Some.
Qed.

Lemma base_make F b s w : base F b w → base F b (on_promises (λ l, l ++ [s]) w).
Proof. by apply base_view. Qed.

Lemma wp_read_default i F H w :
  inv true F H w → is_attached i w = true → wp (read_default user i) (safe (inv true F H)) w.
Proof.
  intros [Hb Hs] Ha. unfold read_default, new_promise, make_promise.
  apply wp_bind, wp_bind, wp_bind_gets, wp_bind_modify, wp_ret. simpl.
  apply wp_ret. simpl. set (r := mkRP _ _).
  apply wp_bind, wp_bind_modify, wp_bind_modify, wp_bind_gets.
  set (w2 := record _ _). change w2 with (ask_world w) in *. clear w2. simpl.
  assert (base F true (ask_world w)) as Hb2 by (by apply base_log, base_disturbed, base_make).
  assert (strict = true → asked H r (ask_world w)) as Hs2 by (intros Ht; by apply strong_ask, Hs).
  assert (rd_ok (Some i) (ask_world w)) as Hrd by (by apply (attached_reader F true)).
  assert (∀ s, answer (state (stream w)) = Some s →
    inv true F H (settle s r (record (Answered (promise r)) (ask_world w)))) as Hans.
  { intros s Hst. split; [|intros Ht; by apply strong_answer; auto].
    apply (base_view _ _ (record (Answered (promise r)) (ask_world w))); [apply rs_settle_view|].
    by apply base_log. }
  destruct (state (stream w)) eqn:Hst.
  - eapply wp_mono; [by apply wp_pull_steps|]. intros [[]| |] w'; simpl; naive_solver.
  - apply wp_bind_modify, wp_modify. simpl. by apply Hans.
  - apply wp_bind_modify, wp_modify. simpl. by apply Hans.
Qed.

Lemma strong_make H s w : strong H w → strong H (on_promises (λ l, l ++ [s]) w).
Proof.
  intros [[Hm Hr] Hc Ht]. constructor; [| |by apply (tidy_same w)].
  - constructor; [|done]. by apply rs_mem_make.
  - intros x Hx. destruct (Hc x Hx) as [Hp Hfree]. split; [|done]. simpl. by apply lookup_app_l_Some.
Qed.

(** A promise that a reaction is going to settle. *)
Lemma strong_pend H k s w :
  (k = UponCancel (mkRP (length (promises w)) true) ∨ k = UponNative (mkRP (length (promises w)) true)) →
  strong H w →
  strong H (on_reactions (λ l, l ++ [mkReaction k s]) (on_promises (λ l, l ++ [Pending]) w)).
Proof.
  intros Hk [[Hm Hr] Hc Ht]. set (w' := on_reactions _ _).
  assert (reacting (reactions w') = reacting (reactions w) ++ [mkRP (length (promises w)) true]) as Er.
  { unfold reacting. simpl. rewrite omap_app. simpl. by destruct Hk as [-> | ->]. }
  constructor; [| |by apply (tidy_same w)].
  - constructor; rewrite Er; [|rewrite !Forall_app in *; naive_solver].
    eapply (mem_other (mem_fresh Hm)). rewrite fmap_app. simpl.
    by rewrite (Permutation_app_comm _ [length _]).
  - intros x Hx. destruct (Hc x Hx) as [Hp Hfree]. split; [simpl; by apply lookup_app_l_Some|].
    intros Hst. destruct (Hfree Hst) as [? Hno]. split; [done|].
    apply lookup_lt_Some in Hp. rewrite Er, (fmap_app _ (reacting _)), (Permutation_app_comm (promise <$> reacting _)).
    change (log w') with (log w). change (requests w') with (requests w). simpl.
    rewrite owned_other. apply not_elem_of_cons. split; [lia|done].
Qed.

Lemma inv_make F H s w : inv true F H w → inv true F H (on_promises (λ l, l ++ [s]) w).
Proof. intros [Hb Hs]. split; [by apply base_make|]. intros Ht. by apply strong_make, Hs. Qed.

Lemma wp_make s F H w : inv true F H w → wp (make_promise s) (returns (λ _, inv true F H)) w.
Proof. intros Hw. apply wp_bind_gets, wp_bind_modify, wp_ret. by apply inv_make. Qed.

Lemma inv_pend F H k s w :
  (k = UponCancel (mkRP (length (promises w)) true) ∨ k = UponNative (mkRP (length (promises w)) true)) →
  inv true F H w →
  inv true F H (on_reactions (λ l, l ++ [mkReaction k s]) (on_promises (λ l, l ++ [Pending]) w)).
Proof.
  intros Hk [Hb Hs]. split; [|intros Ht; by apply strong_pend, Hs].
  apply base_reaction; [by destruct Hk as [-> | ->]..|]. by apply base_make.
Qed.

Lemma wp_pend k s F H w :
  (∀ p, k p = UponCancel p) ∨ (∀ p, k p = UponNative p) → inv true F H w →
  wp (let! p := new_promise in upon_promise (k p) s ;! ret (promise p)) (returns (λ _, inv true F H)) w.
Proof.
  intros Hk Hw. apply wp_bind. unfold new_promise, make_promise.
  apply wp_bind, wp_bind_gets, wp_bind_modify, wp_ret. simpl. apply wp_ret. simpl.
  apply wp_bind_modify, wp_ret. simpl. apply inv_pend; [|done]. destruct Hk as [Hk|Hk]; rewrite Hk; auto.
Qed.

Lemma wp_read_native F H w :
  inv true F H w → wp (read_native native) (safe (inv true F H)) w.
Proof.
  intros Hw. apply wp_bind_gets. destruct (native w) as [e|[chunk| |]]; [by apply wp_throw|..].
  - eapply wp_returns; [by apply wp_make|]. by intros.
  - eapply wp_returns; [by apply wp_make|]. by intros.
  - eapply wp_returns; [apply (wp_pend UponNative); [by right|done]|]. by intros.
Qed.

Lemma inv_disturbed F H d w : inv true F H w → inv true F H (on_stream (set_disturbed d) w).
Proof. intros [Hb Hs]. split; [by apply base_disturbed|]. intros Ht. by apply (strong_view _ w), Hs. Qed.

Lemma wp_reader_read i F H w :
  inv true F H w → wp (reader_read user native i) (safe (inv true F H)) w.
Proof.
  intros Hw. apply wp_bind_gets. simpl. destruct (is_attached i w) eqn:Ha; simpl.
  - destruct (try_get_native_pull w).
    + apply wp_bind_modify, wp_read_native. by apply inv_disturbed.
    + by apply wp_read_default.
  - eapply wp_returns; [by apply wp_make|]. by intros.
Qed.

(** ** Cancelling *)

Lemma base_as F b st w :
  base F b w → state (stream w) = st → st ≠ Readable →
  base (mkFrame (known F) (Some st) (owe_start F) (owe_pull F)) b w.
Proof.
  intros [H1 H2 H3 H4 H5 (s & Hs & [S1 S2 S3 S4])] Hst Hne. constructor; simpl; try done.
  - by intros ? [= <-].
  - exists s. split; [done|]. by constructor.
Qed.

(** The source's [cancel] is about to be called. *)
Lemma inv_source_cancel F H a reason o w :
  inv true F H w → state (stream w) = Closed → cancel_fn (controller w) = true →
  source_run (Starting, Live) (log w) = Some (o, Cancelling) →
  wp (take_cancel_fn a ;! modify (record (SourceCancel reason)))
    (returns (λ _, inv true (mkFrame (known F) (Some Closed) (owe_start F) (owe_pull F)) H)) w.
Proof.
  intros [Hb Hs] Hst Hfn Hrun.
  assert (∀ w', stream w' = stream w → readers w' = readers w → reactions w' = reactions w →
    borrowed w' = borrowed w → started (controller w') = started (controller w) →
    pulling (controller w') = pulling (controller w) → log w' = log w ++ [SourceCancel reason] →
    base (mkFrame (known F) (Some Closed) (owe_start F) (owe_pull F)) true w') as Hgo.
  { intros w' E1 E2 E3 E4 E5 E6 E7.
    destruct Hb as [H1 H2 H3 H4 H5 (s & Hs' & [S1 S2 S3 S4])]. rewrite Hrun in Hs'. injection Hs' as <-.
    constructor; simpl; unfold is_attached; rewrite ?E1, ?E2, ?E3, ?E4; simpl; try done.
    - by intros ? [= <-].
    - by rewrite Hst.
    - exists (o, Over). rewrite E7, machine_run_snoc, Hrun. split; [done|].
      constructor; simpl in *; rewrite ?E1, ?E3, ?E5, ?E6; try done. rewrite Hst. naive_solver. }
  unfold take_cancel_fn. apply wp_bind.
  destruct a; [apply wp_ret|apply wp_ret|apply wp_bind_gets; rewrite Hfn; apply wp_modify]; simpl;
    (split; [by apply Hgo|]; intros Ht; by apply (strong_log _ (SourceCancel reason) w), Hs).
Qed.

Lemma wp_cancel_steps F H reason o w :
  base F true w → state (stream w) = Closed → algorithms (controller w) →
  source_run (Starting, Live) (log w) = Some (o, Cancelling) →
  (strict = true → reads_ok H [] [] w ∧ closed_ok H [] w ∧ requests w = [] ∧
    pull_algorithm (controller w) ≠ Some RustFunction) →
  wp (cancel_steps user reason) (safe (inv true F H)) w.
Proof.
  intros Hb Hst (Hp & [a Ha] & Hz & Hfn) Hrun Hs. unfold cancel_steps, reset_container.
  apply wp_bind, wp_bind_modify, wp_modify. simpl. set (w1 := on_controller _ _).
  assert (inv true F H w1) as H1.
  { split; [apply base_controller; try done; by apply base_log|].
    intros Ht. destruct (Hs Ht) as (Hr & Hc & Hq & Hpa). constructor; [by apply reads_discard| |].
    2: { constructor; [by left|by split| |done]. intros E. simpl in E. congruence. }
    eapply (closed_log _ _ Discarded w); try done. rewrite dropped_app. apply app_nil_r. }
  assert (source_run (Starting, Live) (log w1) = Some (o, Cancelling)) as Hrun1.
  { simpl. rewrite machine_run_snoc, Hrun. done. }
  set (F' := mkFrame (known F) (Some Closed) (owe_start F) (owe_pull F)).
  assert (∀ w', inv true F' H w' → inv true F H w') as Hback.
  { intros w' Hi. eapply inv_weaken; [exact Hi|..]; simpl; try done.
    intros s Es. destruct (b_ended _ _ _ Hb s Es) as [_ <-]. by rewrite Hst. }
  eapply (wp_then_safe _ _ (inv true F' H)); [|exact Hback|].
  - unfold run_cancel_algorithm. apply wp_bind_gets. simpl. eapply wp_bind_expect; [exact Ha|].
    apply wp_assoc. eapply wp_then; [by apply (inv_source_cancel F H a reason o w1)|].
    intros [] w2 H2. by apply rs_wp_call_algorithm.
  - intros r w2 H2. apply wp_bind_modify, wp_ret. simpl. apply Hback.
    destruct (b_ended _ _ _ (proj1 H2) Closed eq_refl) as [_ Hst2]. destruct H2 as [Hb2 Hs2]. split.
    + apply base_controller; try done. by rewrite Hst2.
    + intros Ht. destruct (Hs2 Ht) as [Hr Hc [T1 T2 T3 T4]].
      constructor; [by apply (reads_view _ _ _ w2)|exact Hc|]. by constructor.
Qed.

Lemma wp_cancel rd F H reason w :
  inv true F H w → rd_ok rd w → wp (readable_stream_cancel user rd reason) (safe (inv true F H)) w.
Proof.
  intros Hw Hrd. apply wp_bind_modify, wp_bind_gets. simpl.
  apply (inv_disturbed _ _ true) in Hw. set (w1 := on_stream _ w) in *. destruct Hw as [Hb Hs].
  destruct (state (stream w)) eqn:Hst.
  - rewrite close_end. eapply wp_then; [apply (wp_end_stream strict F H true Closed rd w1 w1)|]; try done.
    { intros Ht. by destruct (Hs Ht). }
    intros [] w2 (Hb2 & Hst2 & Ec & [o Hrun] & Hs2).
    eapply wp_then_safe; [eapply wp_cancel_steps; try done| |].
    + rewrite Ec. by apply (b_algs _ _ _ Hb).
    + intros Ht. destruct (Hs2 Ht) as (? & ? & ?). split_and!; try done. rewrite Ec.
      apply (t_source _ (g_tidy _ _ (Hs Ht))).
    + done.
    + intros r w3 H3. eapply wp_returns; [apply (wp_pend UponCancel r F H); [by left|done]|]. by intros.
  - eapply wp_returns; [by apply (wp_make _ F H)|]. by intros.
  - eapply wp_returns; [by apply (wp_make _ F H)|]. by intros.
Qed.

(** ** Readers *)

Lemma base_lock F b x w :
  base F b w → reader (stream w) = None → attached x = true →
  base F b (on_stream (set_reader (Some (length (readers w)))) (on_readers (λ l, l ++ [x]) w)).
Proof.
  intros [H1 H2 H3 H4 H5 (s & Hs & [S1 S2 S3 S4])] Hn Hx. constructor; try done.
  - intros i. unfold is_attached. simpl. destruct (decide (i < length (readers w))%nat) as [Hlt|Hge].
    + rewrite lookup_app_l by done. change (Some (length (readers w)) = Some i ↔ is_attached i w = true).
      rewrite <- H2, Hn. split; [intros [= ?]; lia|done].
    + destruct (decide (i = length (readers w))) as [->|Hne].
      * by rewrite lookup_app_r, Nat.sub_diag by lia.
      * rewrite lookup_ge_None_2 by (rewrite length_app; simpl; lia). split; [intros [= ?]; lia|done].
  - simpl. rewrite length_app. lia.
  - exists s. split; [done|]. by constructor.
Qed.

(** A new reader, whose [closed] promise is as the stream has it. *)
Lemma strong_lock H p w :
  strong H w → reader (stream w) = None → promises w !! promise p = Some (final (state (stream w))) →
  (state (stream w) = Readable → resolvers p = true ∧
    promise p ∉ owned H [] (promise <$> reacting (reactions w)) (log w)) →
  strong H (on_stream (set_reader (Some (length (readers w)))) (on_readers (λ l, l ++ [mkReader p true []]) w)).
Proof.
  intros [[Hm Hr] Hc [T1 T2 T3 T4]] Hn Hp Hfree. set (w' := on_stream _ _).
  assert (current w' = Some (mkReader p true [])) as Ec.
  { unfold current. simpl. by rewrite lookup_app_r, Nat.sub_diag by lia. }
  assert (requests w' = []) as Er by (unfold requests; by rewrite Ec).
  assert (requests w = []) as Er0 by (unfold requests, current; by rewrite Hn).
  rewrite Er0 in *. constructor.
  - by constructor; rewrite Er.
  - intros y Hy. rewrite Ec in Hy. injection Hy as <-. rewrite Er. by split.
  - constructor; try done; [by left|]. intros Hne. split; [done|]. by apply T2.
Qed.

Lemma fresh_unowned H w s :
  strong H w → reader (stream w) = None →
  length (promises w) ∉ owned H [] (promise <$> reacting (reactions (on_promises s w))) (log w).
Proof.
  intros [[Hm _] _ _] Hn Hin. assert (requests w = []) as Er by (unfold requests, current; by rewrite Hn).
  rewrite Er in Hm. simpl in Hm. apply (mem_bound Hm) in Hin. lia.
Qed.

Lemma wp_initialize F H w :
  inv true F H w → reader (stream w) = None →
  wp readable_stream_reader_generic_initialize (returns (λ p w', inv true F H w' ∧
    stream w' = stream w ∧ readers w' = readers w ∧
    (strict = true → promises w' !! promise p = Some (final (state (stream w))) ∧
      (state (stream w) = Readable → resolvers p = true ∧
        promise p ∉ owned H [] (promise <$> reacting (reactions w')) (log w'))))) w.
Proof.
  intros Hw Hn. apply wp_bind_gets. simpl.
  pose proof (λ s, inv_make F H s w Hw) as Hmk. destruct (state (stream w)) as [| |e] eqn:Hst.
  - unfold new_promise, make_promise. apply wp_bind, wp_bind_gets, wp_bind_modify, wp_ret. simpl.
    apply wp_ret. simpl. split_and!; try done. intros Ht. split; [by rewrite lookup_app_r, Nat.sub_diag|].
    intros _. split; [done|]. by apply (fresh_unowned H w id), Hn; apply Hw.
  - apply wp_ret. simpl. split_and!; try done. intros Ht. split; [|done].
    by destruct (q_mem _ _ _ _ (g_reads _ _ (proj2 Hw Ht))).
  - unfold rejected_with, promise_rejected_with, make_promise.
    apply wp_bind, wp_bind_gets, wp_bind_modify, wp_ret. simpl. apply wp_ret. simpl.
    split_and!; try done. intros Ht. split; [by rewrite lookup_app_r, Nat.sub_diag|done].
Qed.

Lemma wp_get_reader byob F H w : inv true F H w → wp (get_reader byob) (safe (inv true F H)) w.
Proof.
  intros Hw. destruct byob; simpl.
  - apply wp_bind_gets. by destruct (is_readable_stream_locked (stream w)).
  - apply wp_bind_gets. destruct (reader (stream w)) as [i|] eqn:Hn; unfold is_readable_stream_locked;
      rewrite Hn; simpl; [by apply wp_throw|].
    eapply wp_then; [by apply (wp_initialize F H)|]. intros p w1 (H1 & E1 & E2 & Hp).
    apply wp_bind_gets, wp_bind_modify, wp_bind_modify, wp_ret. simpl.
    rewrite <- E1 in Hn, Hp. destruct H1 as [Hb Hs]. split; [by apply base_lock|].
    intros Ht. destruct (Hp Ht). apply strong_lock; auto.
Qed.

(** A reader that is released drops its requests. *)
Definition drops (l : list ResolveablePromise) : list entry := (λ r, Dropped (promise r)) <$> l.
Definition log_app (es : list entry) (w : world) : world := mkWorld (stream w) (controller w)
  (readers w) (promises w) (reactions w) (borrowed w) (log w ++ es).

Lemma drop_loop l w :
  for_each (λ r, modify (record (Dropped (promise r)))) l w = (log_app (drops l) w, Returns ()).
Proof.
  revert w. induction l as [|r l IH]; intros w.
  - unfold log_app. simpl. rewrite app_nil_r. by destruct w.
  - simpl. unfold bind, modify. rewrite IH. unfold log_app. simpl. by rewrite <- app_assoc.
Qed.

Lemma drops_view l w : bview (log_app (drops l) w) = bview w.
Proof.
  revert w. induction l as [|r l IH]; intros w.
  - unfold log_app. simpl. rewrite app_nil_r. by destruct w.
  - transitivity (bview (log_app (drops l) (record (Dropped (promise r)) w))).
    + unfold log_app, record. simpl. by rewrite <- app_assoc.
    + rewrite IH. by apply record_view.
Qed.

Lemma mem_drops H O l ps lg q st :
  mem H (promise <$> l) O ps lg q st → mem H [] O ps (lg ++ drops l) q st.
Proof.
  revert lg. induction l as [|r l IH]; intros lg Hm; [by rewrite app_nil_r|].
  change (drops (r :: l)) with ([Dropped (promise r)] ++ drops l). rewrite app_assoc.
  apply IH, mem_drop, Hm.
Qed.
Lemma dropped_drops lg l : dropped (lg ++ drops l) = dropped lg ++ (promise <$> l).
Proof.
  rewrite dropped_app. f_equal. induction l as [|r l IH]; [done|].
  change (promise r :: dropped (drops l) = promise r :: (promise <$> l)). by rewrite IH.
Qed.

(** ... and no longer locks the stream. *)
Definition unlock (i : nat) (w : world) : world :=
  on_readers (alter (λ x, mkReader (closed_promise x) false (read_requests x)) i)
    (on_stream (set_reader None) w).

Lemma base_unlock F b i w :
  base F b w → reader (stream w) = Some i → base F b (unlock i w).
Proof.
  intros [H1 H2 H3 H4 H5 (s & Hs & [S1 S2 S3 S4])] Hi. constructor; try done.
  - intros j. split; [done|]. unfold is_attached. simpl. destruct (decide (i = j)) as [<-|Hne].
    + rewrite list_lookup_alter_eq. by destruct (readers w !! i).
    + rewrite list_lookup_alter_ne by done. intros Ha. change (is_attached j w = true) in Ha.
      apply H2 in Ha. congruence.
  - simpl. by rewrite length_alter.
  - exists s. split; [done|]. by constructor.
Qed.

Lemma strong_unlock H w w' :
  reads_ok H [] [] w → requests w = [] → tidy w → promises w' = promises w → log w' = log w →
  stream w' = set_reader None (stream w) → reactions w' = reactions w → controller w' = controller w →
  strong H w'.
Proof.
  intros [Hm Hr] Er Ht E1 E2 E3 E4 E5.
  assert (current w' = None) as Ec by (unfold current; by rewrite E3).
  assert (requests w' = []) as Er' by (unfold requests; by rewrite Ec).
  assert (queued w' = queued w) as Eq by (unfold queued; by rewrite E5).
  constructor.
  - constructor; rewrite Er', ?Eq, ?E1, ?E2, ?E3, ?E4; simpl; rewrite Er in *; done.
  - intros x. by rewrite Ec.
  - apply (tidy_same w); rewrite ?Er', ?E3; try done. unfold flags. by rewrite E5.
Qed.

(** What is left after the requests were dropped. *)
Record emptied (H : list (nat * val)) (x : Reader) (w : world) : Prop := {
  e_reads : reads_ok H [] [] w;
  e_tidy : tidy w;
  e_requests : requests w = [];
  e_closed : state (stream w) = Readable →
    promise (closed_promise x) ∉ owned H [] (promise <$> reacting (reactions w)) (log w)
}.

Lemma strong_drop H i x w :
  strong H w → reader (stream w) = Some i → readers w !! i = Some x →
  emptied H x (on_readers (alter (λ x, mkReader (closed_promise x) (attached x) []) i)
    (log_app (drops (read_requests x)) w)).
Proof.
  intros [[Hm Hr] Hc [T1 T2 T3 T4]] Hi Hx. set (w' := on_readers _ _).
  assert (requests w = read_requests x) as Er by (unfold requests, current; rewrite Hi; simpl; by rewrite Hx).
  assert (requests w' = []) as Er'.
  { unfold requests, current. simpl. rewrite Hi. simpl. by rewrite list_lookup_alter_eq, Hx. }
  rewrite Er in *. simpl in *. rewrite app_nil_r in Hm. constructor; [| |done|].
  - constructor; rewrite Er'; [by apply mem_drops|]. by apply Forall_app in Hr as [_ ?].
  - constructor; try done; [by left|]. intros Hne. split; [done|]. by apply T2.
  - intros Hst. destruct (Hc x) as [_ Hfree]; [unfold current; by rewrite Hi|].
    destruct (Hfree Hst) as [_ Hno]. rewrite Er, app_nil_r in Hno. unfold owned in *. simpl.
    rewrite dropped_drops. rewrite !elem_of_app in *. naive_solver.
Qed.

Lemma emptied_settle H x s w :
  emptied H x w → state (stream w) = Readable → s ≠ Pending →
  emptied H x (settle s (closed_promise x) w).
Proof.
  intros He Hst Hs. unfold settle. destruct (resolvers _); [|done]. destruct He as [[Hm Hr] Ht Er Hc].
  constructor; [|by apply (tidy_same w)|exact Er|exact Hc]. constructor; [|exact Hr].
  change (requests (on_promises _ _)) with (requests w). rewrite Er in Hm |- *.
  apply mem_settle_unowned; [exact Hm|done|]. simpl. auto.
Qed.

Lemma requests_closed i p w :
  requests (on_readers (alter (λ x, mkReader p (attached x) (read_requests x)) i) w) = requests w.
Proof.
  unfold requests, current. simpl. destruct (reader (stream w)) as [j|]; [|done]. simpl.
  destruct (decide (i = j)) as [<-|]; [|by rewrite list_lookup_alter_ne].
  rewrite list_lookup_alter_eq. by destruct (readers w !! i).
Qed.

Lemma emptied_replace H x y i p s w :
  emptied H x w → state (stream w) ≠ Readable →
  emptied H y (on_readers (alter (λ x, mkReader p (attached x) (read_requests x)) i)
    (on_promises (λ l, l ++ [s]) w)).
Proof.
  intros [[Hm Hr] Ht Er Hc] Hst. set (w' := on_readers _ _).
  assert (requests w' = requests w) as E by exact (requests_closed i p (on_promises _ w)).
  constructor; [|by apply (tidy_same w)|by rewrite E|done].
  constructor; rewrite E; [|done]. by apply rs_mem_make.
Qed.

(** The [closed] promise of a released reader is rejected. *)
Lemma wp_release_closed i x F H w :
  base F true w → (strict = true → emptied H x w) → readers w !! i = Some x →
  wp (let! s := gets (state ∘ stream) in
      with_reader (Some i) (λ i x,
        match s with
        | Readable => reject (closed_promise x) released_error
        | _ => let! p := rejected_with released_error in set_closed i p
        end) (ret ()))
    (returns (λ _ w', bview w' = bview w ∧ (strict = true → emptied H x w') ∧
      (∃ y, readers w' !! i = Some y ∧ read_requests y = read_requests x))) w.
Proof.
  intros Hb Hs Hx. apply wp_bind_gets. unfold wp. rewrite with_reader_eq, Hx.
  change (wp (match state (stream w) with
        | Readable => reject (closed_promise x) released_error
        | _ => let! p := rejected_with released_error in set_closed i p
        end) (returns (λ _ w', bview w' = bview w ∧ (strict = true → emptied H x w') ∧
      (∃ y, readers w' !! i = Some y ∧ read_requests y = read_requests x))) w).
  assert (wp (let! p := rejected_with released_error in set_closed i p) (returns (λ _ w',
    bview w' = bview w ∧ (state (stream w) ≠ Readable → strict = true → emptied H x w') ∧
      (∃ y, readers w' !! i = Some y ∧ read_requests y = read_requests x))) w) as Hrej.
  { unfold rejected_with, promise_rejected_with, make_promise, set_closed.
    apply wp_bind, wp_bind, wp_bind_gets, wp_bind_modify, wp_ret. simpl. apply wp_ret. simpl.
    apply wp_modify. simpl. split_and!.
    - by rewrite alter_view.
    - intros. by eapply emptied_replace; auto.
    - eexists. rewrite list_lookup_alter_eq, Hx. done. }
  destruct (state (stream w)) eqn:Hst.
  - apply wp_modify. simpl. split_and!; [apply rs_settle_view|intros; by apply emptied_settle; auto|].
    exists x. split; [|done]. unfold settle. by destruct (resolvers _).
  - eapply wp_mono; [exact Hrej|]. intros [[]| |] w'; simpl; [|done..]. intros (? & ? & ?). auto.
  - eapply wp_mono; [exact Hrej|]. intros [[]| |] w'; simpl; [|done..]. intros (? & ? & ?). auto.
Qed.

Lemma rs_wp_release i F H w :
  inv true F H w → is_attached i w = true →
  wp (readable_stream_default_reader_release i) (returns (λ _, inv true F H)) w.
Proof.
  intros [Hb Hs] Ha. pose proof (proj2 (b_link _ _ _ Hb i) Ha) as Hi.
  unfold is_attached in Ha. destruct (readers w !! i) as [x|] eqn:Hx; [|done].
  unfold readable_stream_default_reader_release. set (w1 := on_readers
    (alter (λ x, mkReader (closed_promise x) (attached x) []) i) (log_app (drops (read_requests x)) w)).
  assert (bview w1 = bview w) as E1 by (unfold w1; rewrite alter_view, drops_view; done).
  assert (readers w1 !! i = Some (mkReader (closed_promise x) (attached x) [])) as Hx1.
  { simpl. by rewrite list_lookup_alter_eq, Hx. }
  unfold wp. erewrite bind_returns.
  2: { rewrite with_reader_eq, Hx. rewrite (bind_returns _ _ _ _ _ (drop_loop _ _)). done. }
  change (wp (readable_stream_reader_generic_release i ;!
    readable_stream_default_reader_error_read_requests i (TypeError (bs "Reader was released")))
    (returns (λ _, inv true F H)) w1).
  eapply (wp_then _ _ (λ _ w', ∃ w2, w' = unlock i w2 ∧ bview w2 = bview w ∧
    (strict = true → emptied H (mkReader (closed_promise x) (attached x) []) w2) ∧
    (∃ y, readers w2 !! i = Some y ∧ read_requests y = []))).
  - apply wp_assoc. eapply wp_then; [apply (wp_release_closed i (mkReader (closed_promise x) (attached x) []) F H w1)|];
      [| |exact Hx1|].
    + by apply (base_view _ _ w).
    + intros Ht. destruct (strong_drop H i x w (Hs Ht) Hi Hx). by constructor.
    + intros [] w2 (Ev & He & Hy). apply wp_bind_modify, wp_modify. simpl. exists w2.
      split_and!; try done. by rewrite Ev.
  - intros [] w' (w2 & -> & Ev & He & y & Hy & Hyr). unfold wp, readable_stream_default_reader_error_read_requests.
    rewrite with_reader_eq. simpl. rewrite list_lookup_alter_eq, Hy. simpl. rewrite Hyr. simpl.
    set (w4 := on_readers _ _). destruct (view_fields _ _ Ev) as (E2 & E3 & E4 & _).
    assert (base F true w2) as Hb2 by (by apply (base_view _ _ w)). split.
    + apply (base_view _ _ (unlock i w2)); [by apply alter_view|]. apply base_unlock; [done|by rewrite E2].
    + intros Ht. destruct (He Ht). by eapply (strong_unlock _ w2).
Qed.
(** * Methods *)

Lemma wp_method_from {A} (m : M A) F H w :
  borrowed w = false → wp m (safe (inv true F H)) (set_borrowed true w) →
  wp (method m) (safe (inv false F H)) w.
Proof.
  intros Hw Hm. apply wp_bind, wp_bind_gets. rewrite Hw. apply wp_modify, wp_finally.
  eapply wp_mono; [exact Hm|]. intros [] w2; simpl; try done; apply rs_inv_borrowed.
Qed.

Lemma rs_wp_method {A} (m : M A) F H w :
  inv false F H w → (∀ w', inv true F H w' → wp m (safe (inv true F H)) w') →
  wp (method m) (safe (inv false F H)) w.
Proof.
  intros Hw Hm. apply wp_method_from; [apply (b_borrowed _ _ _ (proj1 Hw))|].
  by apply Hm, (rs_inv_borrowed _ false).
Qed.

Lemma rs_wp_reply {A} (m : M A) (f : A → reply) F H w :
  wp m (safe (inv true F H)) w → wp (let! a := m in ret (f a)) (safe (inv true F H)) w.
Proof. intros Hm. eapply wp_then_safe; [exact Hm|done|]. intros a w' H'. by apply wp_ret. Qed.

Lemma current_rd F b w : base F b w → rd_ok (reader (stream w)) w.
Proof.
  intros Hb. split; [done|]. intros i Hi. apply (b_link _ _ _ Hb) in Hi. unfold is_attached in Hi.
  destruct (readers w !! i) eqn:E; [|done]. by eapply lookup_lt_Some.
Qed.

Lemma wp_safe_unit (m : M ()) F H w :
  wp m (returns (λ _, inv true F H)) w → wp m (safe (inv true F H)) w.
Proof. intros Hm. eapply wp_returns; [exact Hm|]. by intros. Qed.

Lemma rs_wp_run_cmd c F H w :
  inv false F H w → wp (run_cmd user native c) (safe (inv false F H)) w.
Proof.
  intros Hw. apply rs_wp_method; [done|]. clear w Hw. intros w Hw.
  pose proof (current_rd _ _ _ (proj1 Hw)) as Hrd. destruct c as [| |r|b|i|i|i|i r| | |c|e|c| |e].
  - by apply rs_wp_reply.
  - by apply rs_wp_reply.
  - apply rs_wp_reply, wp_bind_gets. destruct (is_readable_stream_locked (stream w)) eqn:Hl.
    + eapply wp_returns; [by apply wp_make|]. by intros.
    + by apply wp_cancel.
  - by apply rs_wp_reply, wp_get_reader.
  - by apply rs_wp_reply, wp_reader_read.
  - apply rs_wp_reply, wp_bind_gets, wp_when; simpl; [|done]. intros Ha. by apply wp_safe_unit, rs_wp_release.
  - by apply rs_wp_reply.
  - apply rs_wp_reply, wp_bind_gets. destruct (is_attached i w) eqn:Ha; simpl; rewrite ?Ha; simpl.
    + apply wp_cancel; [done|]. by eapply attached_reader; [apply Hw|].
    + eapply wp_returns; [by apply wp_make|]. by intros.
  - by apply rs_wp_reply.
  - apply rs_wp_reply, wp_bind_gets. simpl. destruct (can_close_or_enqueue w); simpl; [|done].
    by apply wp_safe_unit, wp_controller_close.
  - apply rs_wp_reply, wp_bind_gets. simpl. destruct (can_close_or_enqueue w); simpl; [|done]. by apply wp_enqueue.
  - apply rs_wp_reply, wp_bind_gets. simpl. by apply wp_safe_unit, wp_controller_error.
  - apply rs_wp_reply, wp_bind_gets. simpl. destruct (can_close_or_enqueue w); simpl; [|done]. by apply wp_enqueue.
  - apply rs_wp_reply, wp_bind_gets. simpl. destruct (can_close_or_enqueue w); simpl; [|done].
    by apply wp_safe_unit, wp_controller_close.
  - apply rs_wp_reply, wp_bind_gets. simpl. by apply wp_safe_unit, wp_controller_error.
Qed.

Lemma rs_wp_run_script s F H w :
  inv false F H w → wp (run_script user native s) (safe (inv false F H)) w.
Proof.
  revert w. induction s as [n|e|c k IH]; intros w Hw; [done|done|]. simpl.
  eapply wp_then; [by apply wp_catch_safe, rs_wp_run_cmd|]. intros r w' H'. by apply IH.
Qed.

(** * Reactions *)

Lemma rs_count_delete f l i r :
  l !! i = Some r → count f l = (Nat.b2n (f (kind r)) + count f (delete i l))%nat.
Proof.
  revert i. induction l as [|r' l IH]; intros [|i] Hi; try done; simpl in *; [by injection Hi as ->|].
  rewrite (IH i Hi). lia.
Qed.

Lemma reacting_delete l i r :
  l !! i = Some r →
  reacting l ≡ₚ match kind r with UponCancel p | UponNative p => [p] | _ => [] end ++ reacting (delete i l).
Proof.
  intros Hi. unfold reacting. rewrite <- (take_drop_middle l i r Hi) at 1. rewrite delete_take_drop.
  rewrite !omap_app. simpl. destruct (kind r); simpl; by rewrite ?Permutation_middle.
Qed.

(** The reaction leaves the list. *)
Definition fire_frame (F : frame) (k : reaction_kind) : frame :=
  mkFrame (known F) (ended_as F) (is_start k) (is_pull k).

Lemma base_fire F b i r w :
  base F b w → owe_start F = false → owe_pull F = false → reactions w !! i = Some r →
  base (fire_frame F (kind r)) b (on_reactions (delete i) w).
Proof.
  intros [H1 H2 H3 H4 H5 (s & Hs & [S1 S2 S3 S4])] O1 O2 Hi. constructor; try done.
  exists s. split; [done|]. rewrite O1 in S3. rewrite O2 in S4.
  rewrite (rs_count_delete _ _ _ _ Hi) in S3. rewrite (rs_count_delete _ _ _ _ Hi) in S4.
  constructor; simpl in *; try done; lia.
Qed.

Lemma strong_fire H i r w :
  strong H w → reactions w !! i = Some r →
  match kind r with UponCancel _ | UponNative _ => False | _ => True end →
  strong H (on_reactions (delete i) w).
Proof.
  intros [[Hm Hr] Hc Ht] Hi Hk. pose proof (reacting_delete _ _ _ Hi) as E.
  assert (reacting (reactions w) ≡ₚ reacting (delete i (reactions w))) as E' by (by destruct (kind r)).
  clear E. constructor; [| |by apply (tidy_same w)].
  - constructor; [|simpl; by rewrite <- E']. eapply (mem_other Hm). simpl. by rewrite E'.
  - intros x Hx. destruct (Hc x Hx) as [Hp Hfree]. split; [done|]. intros Hst.
    destruct (Hfree Hst) as [? Hno]. split; [done|]. simpl. by rewrite <- E'.
Qed.

(** The promise a reaction settles. *)
Lemma strong_settle H i r p s w :
  strong H w → reactions w !! i = Some r → s ≠ Pending →
  kind r = UponCancel p ∨ kind r = UponNative p →
  strong H (settle s p (on_reactions (delete i) w)).
Proof.
  intros [[Hm Hr] Hc Ht] Hi Hs Hk. pose proof (reacting_delete _ _ _ Hi) as E.
  assert (reacting (reactions w) ≡ₚ p :: reacting (delete i (reactions w))) as E'.
  { rewrite E. by destruct Hk as [-> | ->]. }
  clear E. assert (Forall (λ r, resolvers r = true)
    (requests w ++ p :: reacting (delete i (reactions w)))) as Hr'.
  { rewrite <- E'. exact Hr. }
  apply Forall_app in Hr' as [Hq [Hp Hr']%Forall_cons].
  rewrite settle_on by done. constructor; [| |by apply (tidy_same w)].
  - constructor; [|simpl; by apply Forall_app]. apply mem_settle_other; [done|].
    eapply (mem_other Hm). by rewrite E'.
  - intros x Hx. destruct (Hc x Hx) as [Hpx Hfree]. simpl.
    destruct (decide (state (stream w) = Readable)) as [Hst|Hst].
    + destruct (Hfree Hst) as [? Hno]. rewrite E' in Hno. simpl in Hno. rewrite owned_other in Hno.
      apply not_elem_of_cons in Hno as [Hne Hno]. by rewrite settle_at_ne.
    + split; [|done]. apply settle_at_settled; [by apply final_ended|done].
Qed.

(** The source has started, or a pull has ended. *)
Lemma inv_op_done F H (w w' : world) e :
  inv true F H w → silent e → sview w' = sview w → flags w' = flags w → log w' = log w ++ [e] →
  stream w' = stream w → readers w' = readers w → reactions w' = reactions w → borrowed w' = borrowed w →
  (state (stream w) = Readable → algorithms (controller w')) →
  (∀ s, source_run (Starting, Live) (log w) = Some s → source_ok F w s →
    ∃ s', source_step s e = Some s' ∧ source_ok (mkFrame (known F) (ended_as F) false false) w' s') →
  inv true (mkFrame (known F) (ended_as F) false false) H w'.
Proof.
  intros [Hb Hs] He Ev Ef El E1 E2 E3 E4 Ha Hstep. split; [|intros Ht; by apply (strong_log H e w), Hs].
  destruct Hb as [H1 H2 H3 H4 H5 (s & Hs' & Hok)].
  destruct (Hstep s Hs' Hok) as (s' & Hst & Hok').
  constructor; simpl; unfold is_attached; rewrite ?E1, ?E2, ?E4; try done.
  exists s'. by rewrite El, machine_run_snoc, Hs'.
Qed.

Lemma owes_start F w s : source_ok F w s → owe_start F = true → s.1 = Starting.
Proof. intros [_ _ S3 _] E. rewrite E in S3. destruct (s.1); simpl in S3; [done|lia..]. Qed.
Lemma owes_pull F w s : source_ok F w s → owe_pull F = true → s.1 = Pulling.
Proof. intros [_ _ _ S4] E. rewrite E in S4. destruct (s.1); simpl in S4; [lia..|done|lia]. Qed.

Lemma rs_wp_upon_start result n st H w :
  inv true (mkFrame n st true false) H w →
  wp (upon_start user result) (safe (inv true (mkFrame n st false false) H)) w.
Proof.
  intros Hw. apply wp_bind_gets. simpl. pose proof (current_rd _ _ _ (proj1 Hw)) as Hrd.
  destruct result as [e|v].
  - eapply wp_then; [by apply wp_controller_error_ended|]. intros [] w1 [H1 Hst]. apply wp_modify. simpl.
    eapply (inv_op_done _ H w1 _ (StartDone false) H1); try done.
    intros [o l] _ Hok. pose proof (owes_start _ _ _ Hok eq_refl) as E. simpl in E. subst o.
    exists (Broken, l). split; [done|]. destruct Hok as [_ S2 S3 S4]. constructor; simpl in *; try done; lia.
  - apply wp_bind_modify, wp_bind_modify. set (w1 := on_controller _ _).
    assert (inv true (mkFrame n st false false) H w1) as H1.
    { eapply (inv_op_done _ H w _ (StartDone true) Hw); try done; [exact (b_algs _ _ _ (proj1 Hw))|].
      intros [o l] _ Hok. pose proof (owes_start _ _ _ Hok eq_refl) as E. simpl in E. subst o.
      exists (Idle, l). split; [done|]. destruct Hok as [S1 S2 S3 S4]. simpl in *.
      constructor; simpl; try done; [naive_solver|lia..]. }
    eapply wp_mono; [by apply wp_call_pull|]. intros [] w2; simpl; [done|by intros []|done].
Qed.

Lemma wp_upon_pull result n st H w :
  inv true (mkFrame n st false true) H w →
  wp (upon_pull user result) (safe (inv true (mkFrame n st false false) H)) w.
Proof.
  intros Hw. apply wp_bind_gets. simpl. pose proof (current_rd _ _ _ (proj1 Hw)) as Hrd.
  destruct result as [e|v].
  - eapply wp_then; [by apply wp_controller_error_ended|]. intros [] w1 [H1 Hst]. apply wp_modify. simpl.
    eapply (inv_op_done _ H w1 _ (PullDone false) H1); try done.
    intros [o l] _ Hok. pose proof (owes_pull _ _ _ Hok eq_refl) as E. simpl in E. subst o.
    exists (Broken, l). split; [done|]. destruct Hok as [_ S2 S3 S4]. constructor; simpl in *; try done; lia.
  - apply wp_bind_modify, wp_bind_modify. set (w1 := on_controller _ _).
    assert (inv true (mkFrame n st false false) H w1) as H1.
    { eapply (inv_op_done _ H w _ (PullDone true) Hw); try done; [exact (b_algs _ _ _ (proj1 Hw))|].
      intros [o l] _ Hok. pose proof (owes_pull _ _ _ Hok eq_refl) as E. simpl in E. subst o.
      exists (Idle, l). split; [done|]. destruct Hok as [S1 S2 S3 S4]. simpl in *.
      constructor; simpl; try done; [naive_solver|lia..]. }
    apply wp_bind_gets, wp_when; [|done]. intros _. apply wp_bind_modify. set (w2 := on_controller _ w1).
    assert (inv true (mkFrame n st false false) H w2) as H2.
    { destruct H1 as [B S]. split; [apply base_controller; try done; exact (b_algs _ _ _ B)|].
      intros Ht. by apply (strong_view _ w1), S. }
    eapply wp_mono; [by apply wp_call_pull|]. intros [] w3; simpl; [done|by intros []|done].
Qed.

Lemma rs_wp_run_reaction i r given n st H w :
  inv false (mkFrame n st false false) H w → reactions w !! i = Some r →
  wp (run_reaction user r given) (safe (inv false (mkFrame n st false false) H)) (on_reactions (delete i) w).
Proof.
  intros [Hb Hs] Hi. pose proof (base_fire _ _ i r w Hb eq_refl eq_refl Hi) as Hb'.
  apply wp_method_from; [apply (b_borrowed _ _ _ Hb')|].
  apply (base_borrowed _ _ true) in Hb'. unfold fire_frame in Hb'.
  assert (∀ s p, s ≠ Pending → kind r = UponCancel p ∨ kind r = UponNative p →
    inv true (mkFrame n st false false) H (settle s p (set_borrowed true (on_reactions (delete i) w)))) as Hset.
  { intros s p Hns Hk. split.
    - apply (base_view _ _ (set_borrowed true (on_reactions (delete i) w))); [apply rs_settle_view|].
      by destruct Hk as [E|E]; rewrite E in Hb'.
    - intros Ht. eapply (strong_view _ (settle s p (on_reactions (delete i) w)));
        [unfold settle; by destruct (resolvers p)..|]. eapply strong_settle; eauto. }
  assert (match kind r with UponCancel _ | UponNative _ => False | _ => True end → strict = true →
    strong H (set_borrowed true (on_reactions (delete i) w))) as Hst.
  { intros Hk Ht. apply (strong_view _ (on_reactions (delete i) w)); try done. by eapply strong_fire; auto. }
  destruct (kind r) as [| |p|p].
  - apply rs_wp_upon_start. split; auto.
  - apply wp_upon_pull. split; auto.
  - destruct (default given (settled r)); apply wp_modify; simpl; apply Hset; auto.
  - destruct (default given (settled r)); apply wp_modify; simpl; apply Hset; auto.
Qed.

End Operations.

(** * Runs *)

(** A script that does not call back. *)
Definition is_plain (s : script) : bool := match s with Call _ _ => false | _ => true end.

(** The strategy's [size] (and the [byteLength] of a chunk) is plain. *)
Definition plain_size (body : ucall → world → script) : Prop :=
  ∀ c w, is_size c = true → is_plain (body c w) = true.

(** The source's [pull] is JavaScript, or there is none. *)
Definition script_pull (k : constructor) : Prop :=
  match k with New _ _ _ _ => True | Create _ pull _ _ _ => pull ≠ RustFunction end.

Section Runs.
Context (strict : bool) (body : ucall → world → script) (native : world → val + NativePullResult).
Hypothesis plain : strict = true → plain_size body.

Lemma user_call_plain depth :
  strict = true → ∀ c w, is_size c = true →
  ∃ r, user_call body native depth c w = (w, r) ∧ ∀ f, r ≠ Fault f.
Proof.
  intros Ht c w Hc. destruct depth as [|depth]; [by eexists|]. simpl.
  pose proof (plain Ht c w Hc) as Hp. unfold bind, gets. simpl.
  destruct (body c w); [by eexists|by eexists|done].
Qed.

Lemma rs_user_call_ok depth c F H w :
  inv strict false F H w → wp (user_call body native depth c) (safe (inv strict false F H)) w.
Proof.
  revert c F H w. induction depth as [|depth IH]; intros c F H w Hw; [done|].
  simpl. apply wp_bind_gets. apply rs_wp_run_script; [exact IH|by apply user_call_plain|done].
Qed.

Lemma rs_wp_steps depth es n st H w :
  inv strict false (mkFrame n st false false) H w →
  wp (steps body native depth es) (returns (λ _, inv strict false (mkFrame n st false false) H)) w.
Proof.
  revert w. induction es as [|e es IH]; intros w Hw; [done|]. simpl.
  eapply (wp_then _ _ (λ _, inv strict false (mkFrame n st false false) H)); [|by intros [] w' H'; apply IH].
  destruct e as [c|i given|]; simpl.
  - eapply wp_then; [apply wp_catch_safe, rs_wp_run_cmd; [apply rs_user_call_ok|by apply user_call_plain|done]|].
    by intros r w'.
  - apply wp_bind_gets. destruct (reactions w !! i) as [r|] eqn:Hi; [|done]. apply wp_bind_modify.
    eapply wp_then; [apply wp_catch_safe, rs_wp_run_reaction; try done; [apply rs_user_call_ok|by apply user_call_plain]|].
    by intros r' w'.
  - destruct Hw as [Hb Hs]. split.
    + apply base_controller; try done. exact (b_algs _ _ _ Hb).
    + intros Ht. by apply (strong_view _ w), Hs.
Qed.

Lemma initial_inv pull cancel hwm size :
  (strict = true → pull ≠ RustFunction) →
  inv strict false (mkFrame 0 None true false) []
    (on_controller (λ _, initial_controller pull cancel hwm size) empty_world).
Proof.
  intros Hp. split.
  - constructor; [done| |simpl; lia|done| |].
    + intros i. by destruct i.
    + intros _. split_and!; by eexists.
    + exists (Starting, Live). split; [done|]. by constructor; simpl; [| |lia|lia].
  - intros Ht. constructor.
    + constructor; [|done]. constructor; simpl; try done; [constructor|set_solver..].
    + done.
    + constructor; try done; [by left|]. intros [= E]. by destruct (Hp Ht).
Qed.

Lemma wp_construct depth k :
  (strict = true → script_pull k) →
  wp (construct body native depth k) (safe (inv strict false (mkFrame 0 None false false) [])) empty_world.
Proof.
  intros Hk. assert (∀ start pull cancel hwm size, (strict = true → pull ≠ RustFunction) →
    wp (set_up_readable_stream_default_controller (user_call body native depth) start pull cancel hwm size)
      (safe (inv strict false (mkFrame 0 None false false) [])) empty_world) as Hgo.
  { intros start pull cancel hwm size Hp. apply wp_bind_modify.
    pose proof (initial_inv pull cancel hwm size Hp) as H0. set (w0 := on_controller _ _) in *.
    eapply rs_wp_from_class; [exact H0|]. intros H1. eapply rs_wp_into_inner; [exact H1|]. intros H2.
    assert (∀ s w', inv strict false (mkFrame 0 None true false) [] w' →
      inv strict false (mkFrame 0 None false false) [] (on_reactions (λ l, l ++ [mkReaction UponStart s]) w')) as Hup.
    { intros s w' [[B1 B2 B3 B4 B5 (ss & Hs & [S1 S2 S3 S4])] S]. split.
      - constructor; try done. exists ss. split; [done|]. simpl in *.
        constructor; simpl; rewrite ?rs_count_snoc; simpl; try done; lia.
      - intros Ht. apply (strong_view _ w'); try done; [|by apply S].
        unfold sview. simpl. unfold reacting. rewrite omap_app. simpl. by rewrite app_nil_r. }
    destruct start.
    - eapply (wp_then_safe _ _ (inv strict false (mkFrame 0 None true false) [])); [by apply rs_user_call_ok| |].
      + intros w' Hi. by eapply inv_weaken; [exact Hi|..].
      + intros r w' Hi. apply wp_modify. by apply Hup.
    - apply wp_modify. by apply Hup. }
  destruct k as [start pull cancel strategy|start pull cancel hwm size]; simpl.
  - unfold new. destruct (extract_high_water_mark strategy fone) as [hwm|].
    + apply Hgo. by destruct pull.
    + apply wp_throw. simpl. eapply inv_weaken; [apply (initial_inv ReturnPromiseUndefined ReturnPromiseUndefined fone AlwaysOne)|..]; done.
  - by apply Hgo.
Qed.

Lemma rs_run_ok depth k es :
  (strict = true → script_pull k) →
  wp (construct body native depth k ;! steps body native depth es)
    (safe (inv strict false (mkFrame 0 None false false) [])) empty_world.
Proof.
  intros Hk. eapply wp_then_safe; [by apply wp_construct|done|]. intros a w Hw.
  eapply wp_returns; [by apply rs_wp_steps|]. by intros.
Qed.
End Runs.

(** * What a run guarantees *)

Lemma run_safe body native depth k es :
  let r := run body native depth k es in
  (∀ f, r.2 ≠ Fault f) ∧ base (mkFrame 0 None false false) false r.1.
Proof.
  pose proof (rs_run_ok false body native (λ E, ltac:(done)) depth k es (λ E, ltac:(done))) as H.
  unfold wp, safe in H. unfold run. destruct (bind _ _ empty_world) as [w []]; simpl in *; try done;
    destruct H; by split.
Qed.

Lemma run_strong body native depth k es :
  plain_size body → script_pull k → strong [] (run body native depth k es).1.
Proof.
  intros Hp Hk.
  pose proof (rs_run_ok true body native (λ _, Hp) depth k es (λ _, Hk)) as H.
  unfold wp, safe in H. unfold run. destruct (bind _ _ empty_world) as [w []]; simpl in *; try done;
    destruct H; auto.
Qed.

(** C11. Whatever the source's functions, native pulls and the events are, no
    native method of a [ReadableStream] panics; and the source is called as its
    contract promises: [pull] only after [start] has ended well, never while
    another pull runs, only while the stream is readable, [cancel] only when the
    stream was cancelled and then once, and the stream ends at most once. *)
Theorem source_contract body native depth k es :
  (∀ f, (run body native depth k es).2 ≠ Fault f) ∧
  ∃ o l, source_run (Starting, Live) (log (run body native depth k es).1) = Some (o, l) ∧
    (l = Live ↔ state (stream (run body native depth k es).1) = Readable).
Proof.
  destruct (run_safe body native depth k es) as [Hf Hb]. split; [done|].
  destruct (b_source _ _ _ Hb) as ([o l] & Hs & [_ Hl _ _]). by exists o, l.
Qed.

(** C12. A read gets the oldest chunk, the read that waits longest first; no read
    waits while there is a chunk; a read that was matched with a chunk is
    fulfilled with it, one the end of the stream answers is done or rejected with
    the stored error; and a read is pending only while it waits with the reader
    or after its reader was released.  The strategy's [size] does not call back
    and [pull] is not native. *)
Theorem reads_refine body native depth k es :
  plain_size body → script_pull k →
  let w := (run body native depth k es).1 in
  reads_run (mkReads [] []) (log w) = Some (mkReads (promise <$> requests w) (queued w)) ∧
  (requests w = [] ∨ queued w = []) ∧
  (∀ p c, Matched p c ∈ log w → promises w !! p = Some (delivered c)) ∧
  (∀ p, Answered p ∈ log w → ∃ s, answer (state (stream w)) = Some s ∧ promises w !! p = Some s) ∧
  (∀ p, Asked p ∈ log w →
    promises w !! p = Some Pending ↔ p ∈ (promise <$> requests w) ∨ Dropped p ∈ log w).
Proof.
  intros Hp Hk w. destruct (run_strong body native depth k es Hp Hk) as [[Hm _] _ Ht].
  fold w in Hm, Ht. simpl in Hm. rewrite app_nil_r in Hm. destruct Hm as [H1 H2 H3 H4 H5 H6 _].
  assert (∀ p, Dropped p ∈ log w ↔ p ∈ dropped (log w)) as Hd.
  { intros p. unfold dropped. rewrite list_elem_of_omap. split.
    - intros. by exists (Dropped p).
    - intros ([] & ? & [= ->]). done. }
  split_and!; [done|apply Ht| |done|].
  - intros p c Hin. destruct (H5 p c Hin) as [[]%not_elem_of_nil|?]; done.
  - intros p Hin. rewrite Hd. split.
    + intros Hpe. destruct (H4 p Hin) as [_ Hi]. specialize (Hi Hpe). simpl in Hi.
      by apply elem_of_app in Hi.
    + rewrite Forall_forall in H1. intros Hi. apply H1. unfold owned. simpl.
      rewrite !elem_of_app. tauto.
Qed.


Lemma steps_app body native depth es es' w :
  steps body native depth (es ++ es') w = (steps body native depth es ;! steps body native depth es') w.
Proof.
  revert w. induction es as [|e es IH]; intros w; [done|]. simpl. unfold bind in *.
  destruct (step body native depth e w) as [w' []]; [apply IH|done|done].
Qed.

(** C14. A stream that has closed or errored stays so, with the error it had:
    nothing that happens later changes its state. *)
Theorem ended_for_good body native depth k es es' st :
  state (stream (run body native depth k es).1) = st → st ≠ Readable →
  state (stream (run body native depth k (es ++ es')).1) = st.
Proof.
  intros Hst Hne. destruct (run_safe body native depth k es) as [Hf Hb].
  unfold run in *. unfold bind in *. destruct (construct body native depth k empty_world) as [w0 []];
    simpl in *; [|done|done].
  rewrite steps_app. unfold bind. destruct (steps body native depth es w0) as [w []]; simpl in *; [|done|done].
  assert (inv false false (mkFrame 0 (Some st) false false) [] w) as Hi.
  { split; [|done]. by apply (base_as (mkFrame 0 None false false)). }
  pose proof (rs_wp_steps false body native (λ E, ltac:(done)) depth es' 0 (Some st) [] w Hi) as H.
  unfold wp, returns in H. destruct (steps body native depth es' w) as [w' []]; simpl in *; [|done|done].
  by destruct (b_ended _ _ _ (proj1 H) st eq_refl).
Qed.
