(* ===== verification/ReadableRef.v ===== *)
(** Concrete runs of a [ReadableStream]: the witnesses of the properties of
    [ReadableProofs], and what the stream does where its code does not keep to
    the specification it follows. *)

From S2P Require Import Prelude Numbers Effects StreamQueue ReadableStream ReadableProofs.

Definition pulls (w : world) : nat :=
  length (List.filter (λ e, match e with SourcePull => true | _ => false end) (log w)).

(** A source whose first two pulls each give a chunk and whose third closes the
    stream. *)
Definition source_body (c : ucall) (w : world) : script :=
  match c with
  | CallPull =>
      if (pulls w <=? 2)%nat then Call (ControllerEnqueue (Some (Prim (pulls w)))) (λ _, Return None)
      else Call ControllerClose (λ _, Return None)
  | _ => Return None
  end.

Definition no_native (w : world) : val + NativePullResult := inr Eof.

Definition settles (i : nat) : event := Fire i (inr None).
Definition read : event := Do (ReaderRead 0).

Definition source_run_of (es : list event) : world :=
  (run source_body no_native 5 (New true true true None) es).1.

(** Two reads before the source has started, and two after it has closed. *)
Definition session : list event :=
  [Do (GetReader false); read; read; settles 0; settles 0; settles 0; read; settles 0; read].

Lemma source_plain : plain_size source_body.
Proof. by intros []. Qed.

(** The [k]-th read is fulfilled with the [k]-th chunk, the others with the end. *)
Example session_reads :
  (take 4 (drop 2 (promises (source_run_of session))), state (stream (source_run_of session))) =
  ([delivered (Prim 1); delivered (Prim 2); Fulfilled (ReadResult None true);
    Fulfilled (ReadResult None true)], Closed).
Proof. vm_compute. reflexivity. Qed.

Lemma reads_refine_witness :
  reads_run (mkReads [] []) (log (source_run_of session)) = Some (mkReads [] []) ∧
  promises (source_run_of session) !! 3%nat = Some (delivered (Prim 2)).
Proof.
  destruct (reads_refine source_body no_native 5 (New true true true None) session source_plain I)
    as (H1 & _ & H2 & _).
  split; [exact H1|]. apply H2. apply list_elem_of_lookup_2 with 9%nat. vm_compute. reflexivity.
Defined.


Lemma ended_for_good_witness :
  state (stream (source_run_of (session ++ [Do (ControllerError (Some (Obj 3))); read]))) = Closed.
Proof.
  apply (ended_for_good source_body no_native 5 (New true true true None) session); [vm_compute; reflexivity|done].
Defined.

(** * Where the stream does not follow the specification *)

Definition idle_body (c : ucall) (w : world) : script := Return None.

(** [releaseLock] while a read waits: the request is thrown away before the
    requests are rejected, and the read never settles; an enqueue after it does
    not reach it. *)
Definition released : world :=
  (run idle_body no_native 5 (New false false false None)
    [settles 0; Do (GetReader false); read; Do (ReaderReleaseLock 0);
     Do (ControllerEnqueue (Some (Prim 1))); Do (GetReader false); Do (ReaderRead 1);
     Do ControllerClose]).1.

Example released_read_hangs :
  (promises released !! 2%nat, state (stream released)) = (Some Pending, Closed).
Proof. vm_compute. reflexivity. Qed.

(** A [size] that asks for a read: the chunk is queued although a read waits, and
    that read gets the next chunk. *)
Definition size_reads_body (c : ucall) (w : world) : script :=
  match c, readers w with
  | CallSize _ _, [] =>
      Call (GetReader false) (λ _, Call (ReaderRead 0) (λ _, Return (Some fone)))
  | CallSize _ _, _ => Return (Some fone)
  | _, _ => Return None
  end.

Definition js_size : option QueuingStrategy := Some (mkStrategy None (Some (Js 0))).

Definition overtaken : world :=
  (run size_reads_body no_native 5 (New false false false js_size)
    [settles 0; Do (ControllerEnqueue (Some (Prim 1))); Do (ControllerEnqueue (Some (Prim 2)))]).1.

Example size_read_overtakes :
  (promises overtaken !! 2%nat, queued overtaken) = (Some (delivered (Prim 2)), [Prim 1]).
Proof. vm_compute. reflexivity. Qed.

(** A [size] that gets a reader, reads and throws: the stream is errored with the
    reader it had before the call, none; the new reader's read and its [closed]
    promise stay pending. *)
Definition size_throws_body (c : ucall) (w : world) : script :=
  match c with
  | CallSize _ _ => Call (GetReader false) (λ _, Call (ReaderRead 0) (λ _, Throw (Obj 5)))
  | _ => Return None
  end.

Definition stranded : world :=
  (run size_throws_body no_native 5 (New false false false js_size)
    [settles 0; Do (ControllerEnqueue (Some (Prim 1)))]).1.

Example stale_reader_stranded :
  (state (stream stranded), reader (stream stranded), promises stranded !! 1%nat,
   promises stranded !! 2%nat) = (Errored (Obj 5), Some 0%nat, Some Pending, Some Pending).
Proof. vm_compute. reflexivity. Qed.

(** ** Native pulls *)

(** The end of the data a native pull reports does not close the stream: the
    [closed] promise stays pending. *)
Definition native_ended : world :=
  (run idle_body no_native 5 (Create false RustFunction ReturnPromiseUndefined (Some fzero) None)
    [SetNativePull; settles 0; Do (GetReader false); read]).1.

Example native_eof_stays_open :
  (promises native_ended !! 2%nat, state (stream native_ended), promises native_ended !! 1%nat) =
  (Some (Fulfilled (ReadResult None true)), Readable, Some Pending).
Proof. vm_compute. reflexivity. Qed.

(** A read that waits is overtaken by the next one, which the native pull
    answers: the first was asked for while a pull ran that gave nothing. *)
Definition ready_native (w : world) : val + NativePullResult := inr (Ready (Prim 7)).
Definition native_race : world :=
  (run idle_body ready_native 5 (Create false RustFunction ReturnPromiseUndefined None None)
    [SetNativePull; settles 0; Do (GetReader false); read; settles 0; settles 0; read]).1.

Example native_read_overtakes :
  (promises native_race !! 2%nat, promises native_race !! 3%nat) = (Some Pending, Some (delivered (Prim 7))).
Proof. vm_compute. reflexivity. Qed.

(** An error of a native pull is thrown by [read], which returns no promise. *)
Definition failing_native (w : world) : val + NativePullResult := inl (Obj 4).
Example native_error_thrown :
  (run_cmd (user_call idle_body failing_native 5) failing_native (ReaderRead 0)
    (run idle_body failing_native 5 (Create false RustFunction ReturnPromiseUndefined (Some fzero) None)
      [SetNativePull; settles 0; Do (GetReader false)]).1).2 = Throws (Obj 4).
Proof. vm_compute. reflexivity. Qed.
