(* ===== verification/Events.v ===== *)
(** [EventEmitter] and [EventTarget] ([modules/raster_runtime_events/src/lib.rs]):
    the listener lists, the operations on them, and listeners that call back
    into the emitter.

    Event lists are shared ([Arc<RwLock<..>>]): they live in a store and
    objects name them.  An object of a native class that implements the trait
    [Emitter] has its own list; any other object gets a hidden [EventEmitter] in
    its [__ee] property.  A [RwLock] is a set of held locations, and taking a
    held one is a deadlock.  The shared [fired] cell of an [EventItem] is named
    by the item's id.

    What a listener does is a parameter: a script of calls into the emitters,
    each continuing on the reply of the call, an exception included, which may
    depend on everything that happened before.  Nesting is bounded by the
    JavaScript stack: [do_emit] at depth zero throws, and every theorem is for
    any depth. *)

From S2P Require Import Prelude Effects.

(** * Data *)

Inductive EventKey := KSymbol (n : nat) | KString (s : list Z).
#[export] Instance EventKey_eq_dec : EqDecision EventKey.
Proof. solve_decision. Defined.

(** The native classes: the two of this module, those with the default
    [on_event_changed], and those that own a readable stream. *)
Inductive class := CEventEmitter | CEventTarget | CPlain (n : nat) | CReadable (n : nat).
#[export] Instance class_eq_dec : EqDecision class.
Proof. solve_decision. Defined.

(** Numbers: a quotient, an infinity or NaN. *)
Inductive num := NaN | Infinity (neg : bool) | Fin (n : Z) (d : positive).

Inductive jsval :=
  | VString (s : list Z) | VSymbol (n : nat) | VFunction (f : nat)
  | VNumber (n : num) | VUndefined | VOther (n : nat).

Inductive exn := NotASymbol | TypeError | RangeError | StackOverflow | Thrown (v : jsval).

Record EventItem := mkItem { id : nat; callback : nat; once_ : bool }.
#[export] Instance EventItem_eq_dec : EqDecision EventItem.
Proof. solve_decision. Defined.

Notation EventList := (list (EventKey * list EventItem)).

Inductive ReadableState := Init | Flowing | Paused.
Record ReadableStreamInner := mkReadable { state : ReadableState; listener : option (list Z) }.

(** [own_events] is the list of a native object, [hidden] its property [__ee]. *)
Record object := mkObject {
  obj_class : option class;
  own_events : nat;
  hidden : option nat;
  proto : option nat;
  max_listeners : option num;
  inner : ReadableStreamInner;
}.

(** What happens, in order: registrations, calls of listeners, calls queued as
    jobs, and messages of [data_listener_attached_tx]. *)
Inductive entry :=
  | LAdd (it : EventItem)
  | LCall (it : EventItem) (this : nat) (args : list jsval)
  | LDefer (it : EventItem) (this : nat) (args : list jsval)
  | LAttached (this : nat).

Record world := mkWorld {
  objects : list object;
  lists : list EventList;
  held : gset nat;
  NEXT_LISTENER_ID : nat;
  fired : gset nat;
  log : list entry;
}.

Definition set_objects (x : list object) (w : world) : world :=
  mkWorld x (lists w) (held w) (NEXT_LISTENER_ID w) (fired w) (log w).
Definition set_lists (x : list EventList) (w : world) : world :=
  mkWorld (objects w) x (held w) (NEXT_LISTENER_ID w) (fired w) (log w).
Definition set_held (x : gset nat) (w : world) : world :=
  mkWorld (objects w) (lists w) x (NEXT_LISTENER_ID w) (fired w) (log w).
Definition set_next (x : nat) (w : world) : world :=
  mkWorld (objects w) (lists w) (held w) x (fired w) (log w).
Definition set_fired (x : gset nat) (w : world) : world :=
  mkWorld (objects w) (lists w) (held w) (NEXT_LISTENER_ID w) x (log w).
Definition push_log (e : entry) (w : world) : world :=
  mkWorld (objects w) (lists w) (held w) (NEXT_LISTENER_ID w) (fired w) (log w ++ [e]).

(** * Effects on the world *)

(** An [unwrap] of [None], and a lock taken by the thread that holds it. *)
Inductive fault := UnwrapNone | Deadlock.

Notation M := (Effects.M world exn fault).

(** Taking and dropping the guard of a list. *)
Definition lock (l : nat) : M () := λ w,
  if decide (l ∈ held w) then (w, Fault Deadlock) else (set_held ({[l]} ∪ held w) w, Returns ()).
Definition unlock (l : nat) : M () := modify (λ w, set_held (held w ∖ {[l]}) w).

Definition get_list (l : nat) : M EventList := gets (λ w, default [] (lists w !! l)).
Definition put_list (l : nat) (es : EventList) : M () :=
  modify (λ w, set_lists (<[l := es]> (lists w)) w).

Definition alter_object (f : object → object) (o : nat) : M () :=
  modify (λ w, set_objects (alter f o (objects w)) w).

(** * Keys *)

(** [EventKey::from_value]. *)
Definition from_value (v : jsval) : outcome exn fault EventKey :=
  match v with
  | VString s => Returns (KString s)
  | VSymbol n => Returns (KSymbol n)
  | _ => Throws NotASymbol
  end.
Definition key_of (v : jsval) : M EventKey := lift (from_value v).

(** [from_value] while the guard of [l] is alive: the error drops it. *)
Definition key_of_locked (l : nat) (v : jsval) : M EventKey :=
  match from_value v with
  | Returns k => ret k
  | r => unlock l ;! lift r
  end.

Definition event_key_to_value (k : EventKey) : jsval :=
  match k with KString s => VString s | KSymbol n => VSymbol n end.

Definition removeListener_key : EventKey := KString (bs "removeListener").
Definition is_remove_listener_key (k : EventKey) : bool := bool_decide (k = removeListener_key).

Definition has_key_at (k : EventKey) (e : EventKey * list EventItem) : bool :=
  bool_decide (e.1 = k).

(** The entry of a key: the first with that key. *)
Definition find_key (k : EventKey) (es : EventList) : option (nat * list EventItem) :=
  match find_pos (has_key_at k) es with
  | Some i => match es !! i with Some e => Some (i, e.2) | None => None end
  | None => None
  end.
Definition items_of (k : EventKey) (es : EventList) : list EventItem :=
  match find_key k es with Some (_, items) => items | None => [] end.

(** The list without the item at [pos] of the entry at [index]: an entry left
    without items goes. *)
Definition removed_at (key : EventKey) (index pos : nat) (items : list EventItem)
    (es : EventList) : EventList :=
  if bool_decide (delete pos items = []) then delete index es
  else <[index := (key, delete pos items)]> es.

(** * Where the list of an object is *)

(** [Class::<C>::from_object]. *)
Definition is_instance (C : class) (this : nat) (w : world) : bool :=
  match objects w !! this with Some o => bool_decide (obj_class o = Some C) | None => false end.

Definition native_events (C : class) (this : nat) (w : world) : option nat :=
  if is_instance C this w then own_events <$> objects w !! this else None.

(** Reading [__ee] follows the prototypes. *)
Fixpoint get_hidden (fuel : nat) (this : nat) (w : world) : option nat :=
  match fuel, objects w !! this with
  | S fuel, Some o =>
      match hidden o, proto o with
      | Some l, _ => Some l
      | None, Some p => get_hidden fuel p w
      | None, None => None
      end
  | _, _ => None
  end.

Definition with_hidden (l : nat) (o : object) : object :=
  mkObject (obj_class o) (own_events o) (Some l) (proto o) (max_listeners o) (inner o).

Definition new_list : M nat := λ w,
  (set_lists (lists w ++ [[]]) w, Returns (length (lists w))).

Definition resolve_events (this : nat) : M nat :=
  let! e := gets (native_events CEventEmitter this) in
  match e with
  | Some l => ret l
  | None =>
      let! t := gets (native_events CEventTarget this) in
      match t with
      | Some l => ret l
      | None =>
          let! h := gets (λ w, get_hidden (length (objects w)) this w) in
          match h with
          | Some l => ret l
          | None =>
              let! l := new_list in
              alter_object (with_hidden l) this ;!
              ret l
          end
      end
  end.

Definition resolve_events_from (C : class) (this : nat) : M nat :=
  let! e := gets (native_events C this) in
  match e with Some l => ret l | None => resolve_events this end.

(** * The flow of a readable stream *)

Definition with_inner (i : ReadableStreamInner) (o : object) : object :=
  mkObject (obj_class o) (own_events o) (hidden o) (proto o) (max_listeners o) i.

Definition is_flowing (s : ReadableState) : bool := match s with Flowing => true | _ => false end.
Definition is_paused (s : ReadableState) : bool := match s with Paused => true | _ => false end.

(** [ReadableStreamInner::on_event_changed]: the new state, and whether the
    waiters for a data listener are told. *)
Definition readable_changed (k : EventKey) (added : bool) (i : ReadableStreamInner) :
    ReadableStreamInner * bool :=
  if bool_decide (k = KString (bs "data")) then
    if added then (mkReadable Flowing (Some (bs "data")), is_paused (state i))
    else (mkReadable (if is_flowing (state i) then Paused else state i) None, false)
  else if bool_decide (k = KString (bs "readable")) then
    if added then (mkReadable Paused (Some (bs "readable")), false)
    else (mkReadable (state i) None, false)
  else (i, false).

(** [Emitter::on_event_changed] of the object's class. *)
Definition on_event_changed (this : nat) (k : EventKey) (added : bool) : M () := λ w,
  match objects w !! this with
  | Some o =>
      match obj_class o with
      | Some (CReadable _) =>
          let '(i, attached) := readable_changed k added (inner o) in
          let w := set_objects (<[this := with_inner i o]> (objects w)) w in
          (if attached then push_log (LAttached this) w else w, Returns ())
      | _ => (w, Returns ())
      end
  | None => (w, Returns ())
  end.

Definition notify_if (C : class) (this : nat) (k : EventKey) (added : bool) : M () :=
  let! b := gets (is_instance C this) in
  if b then on_event_changed this k added else ret ().

(** * The calls a listener makes *)

Inductive cmd :=
  | New (c : option class) (p : option nat)
  | On (C : class) (this : nat) (event : jsval) (f : nat)
  | Once (C : class) (this : nat) (event : jsval) (f : nat)
  | PrependListener (C : class) (this : nat) (event : jsval) (f : nat)
  | PrependOnceListener (C : class) (this : nat) (event : jsval) (f : nat)
  | AddEventListener (C : class) (this : nat) (event : jsval) (f : nat) (once : option bool)
  | RemoveListener (C : class) (this : nat) (event : jsval) (f : nat)
  | RemoveAllListeners (C : class) (this : nat) (event : option jsval)
  | Emit (C : class) (this : nat) (event : jsval) (args : list jsval)
  | EmitStr (C : class) (this : nat) (event : list Z) (args : list jsval) (defer : bool)
  | DispatchEvent (C : class) (this : nat) (event : jsval) (type : option jsval)
  | EventNames (C : class) (this : nat)
  | ListenerCount (C : class) (this : nat) (event : jsval)
  | Listeners (C : class) (this : nat) (event : jsval)
  | HasListener (C : class) (this : nat) (event : list Z)
  | EmitError (C : class) (this : nat) (error : option exn)
  | SetMaxListeners (this : nat) (n : jsval)
  | GetMaxListeners (this : nat).

Inductive reply :=
  | RUnit | RObject (o : nat) | RBool (b : bool) | RCount (n : nat) | RNumber (n : Z)
  | RValues (l : list jsval) | RThrown (e : exn).

(** A listener's body: it returns, throws, or makes a call and goes on with the
    reply, so [try] and [catch] are in the continuation. *)
Inductive script :=
  | Return
  | Throw (e : exn)
  | Call (c : cmd) (k : reply → script).

(** * The operations *)

(** [do_emit] calls itself through the listeners and through the removal of a
    once listener: the operations are written over the [do_emit] one level
    down. *)
Section Operations.
Context (body : nat → nat → list jsval → list entry → script).
Context (defaultMaxListeners : jsval).
Context (emit_below : class → jsval → nat → list jsval → bool → M bool).

(** After a removal: the event [removeListener], then the change of the key. *)
Definition after_removal (this : nat) (key : EventKey) (removed : option EventItem)
    (now_empty emit_meta : bool) : M bool :=
  (if emit_meta then
     emit_below CEventEmitter (VString (bs "removeListener")) this
       (event_key_to_value key :: option_list (VFunction ∘ callback <$> removed)) false ;!
     ret ()
   else ret ()) ;!
  (if now_empty then
     let! e := gets (is_instance CEventEmitter this) in
     if e then on_event_changed this key false
     else notify_if CEventTarget this key false
   else ret ()) ;!
  ret true.

Definition remove_listener_by_id (this : nat) (key : EventKey) (id_ : nat) (emit_meta : bool) :
    M bool :=
  let! l := resolve_events this in
  lock l ;!
  let! es := get_list l in
  match find_key key es with
  | None => unlock l ;! ret false
  | Some (index, items) =>
      match find_pos (λ it, (id it =? id_)%nat) items with
      | None => unlock l ;! ret false
      | Some pos =>
          put_list l (removed_at key index pos items es) ;!
          unlock l ;!
          after_removal this key (items !! pos) (bool_decide (delete pos items = [])) emit_meta
      end
  end.

Fixpoint remove_ids (this : nat) (key : EventKey) (ids : list nat) : M () :=
  match ids with
  | [] => ret ()
  | i :: ids => remove_listener_by_id this key i true ;! remove_ids this key ids
  end.

Definition remove_all_for_key (this : nat) (key : EventKey) : M () :=
  let! l := resolve_events this in
  lock l ;!
  let! es := get_list l in
  unlock l ;!
  remove_ids this key (reverse (id <$> items_of key es)).

Definition remove_event_listener (C : class) (this : nat) (event : jsval) (f : nat) : M () :=
  let! l := resolve_events_from C this in
  lock l ;!
  let! key := key_of_locked l event in
  let! es := get_list l in
  match find_key key es with
  | None => unlock l
  | Some (index, items) =>
      match rfind_pos (λ it, (callback it =? f)%nat) items with
      | None => unlock l
      | Some pos =>
          put_list l (removed_at key index pos items es) ;!
          unlock l ;!
          emit_below C (VString (bs "removeListener")) this [event; VFunction f] false ;!
          if bool_decide (delete pos items = []) then notify_if C this key false else ret ()
      end
  end.

(** The new list, and whether the key is new. *)
Definition insert_item (key : EventKey) (it : EventItem) (prepend : bool) (es : EventList) :
    EventList * bool :=
  match find_key key es with
  | Some (index, items) =>
      (<[index := (key, if prepend then it :: items else items ++ [it])]> es, false)
  | None => (es ++ [(key, [it])], true)
  end.

Definition fresh_item (f : nat) (once : bool) : M EventItem := λ w,
  let it := mkItem (NEXT_LISTENER_ID w) f once in
  (push_log (LAdd it) (set_next (S (NEXT_LISTENER_ID w)) w), Returns it).

(** The guard is alive until the end, [on_event_changed] included. *)
Definition add_event_listener (C : class) (this : nat) (event : jsval) (f : nat)
    (prepend once : bool) : M () :=
  emit_below C (VString (bs "newListener")) this [event; VFunction f] false ;!
  let! l := resolve_events_from C this in
  lock l ;!
  let! key := key_of_locked l event in
  let! it := fresh_item f once in
  let! es := get_list l in
  put_list l (insert_item key it prepend es).1 ;!
  (if (insert_item key it prepend es).2 then notify_if C this key true else ret ()) ;!
  unlock l.

Definition add_event_listener_str (C : class) (this : nat) (event : list Z) (f : nat)
    (prepend once : bool) : M () :=
  add_event_listener C this (VString event) f prepend once.
Definition remove_event_listener_str (C : class) (this : nat) (event : list Z) (f : nat) : M () :=
  remove_event_listener C this (VString event) f.

Definition on (C : class) (this : nat) (event : jsval) (f : nat) : M () :=
  add_event_listener C this event f false false.
Definition once (C : class) (this : nat) (event : jsval) (f : nat) : M () :=
  add_event_listener C this event f false true.
Definition prepend_listener (C : class) (this : nat) (event : jsval) (f : nat) : M () :=
  add_event_listener C this event f true false.
Definition prepend_once_listener (C : class) (this : nat) (event : jsval) (f : nat) : M () :=
  add_event_listener C this event f true true.

(** [opt] is the [once] of the options, when they have one. *)
Definition evt_add_event_listener (C : class) (this : nat) (event : jsval) (f : nat)
    (opt : option bool) : M () :=
  add_event_listener C this event f false (default false opt).

Definition emit (C : class) (this : nat) (event : jsval) (args : list jsval) : M bool :=
  emit_below C event this args false.
Definition emit_str (C : class) (this : nat) (event : list Z) (args : list jsval) (defer : bool) :
    M () :=
  emit_below C (VString event) this args defer ;! ret ().

(** [type_] is what the [type] of the event reads as, [None] when it is
    undefined or null, or the event is not an object. *)
Definition evt_dispatch_event (C : class) (this : nat) (event : jsval) (type_ : option jsval) :
    M bool :=
  match type_ with
  | Some t => emit_below C t this [event] false
  | None => panic UnwrapNone
  end.

(** A read under a guard dropped at the end of the statement. *)
Definition read_list {A} (l : nat) (f : EventList → A) : M A :=
  lock l ;!
  let! es := get_list l in
  unlock l ;!
  ret (f es).

Definition event_names (C : class) (this : nat) : M (list jsval) :=
  let! l := resolve_events_from C this in
  read_list l (λ es, event_key_to_value ∘ fst <$> es).

Definition listener_count (C : class) (this : nat) (event : jsval) : M nat :=
  let! l := resolve_events_from C this in
  let! key := key_of event in
  read_list l (λ es, length (items_of key es)).

Definition find_all_listeners (l : nat) (key : EventKey) : M (list nat) :=
  read_list l (λ es, callback <$> items_of key es).

Definition listeners (C : class) (this : nat) (event : jsval) : M (list nat) :=
  let! l := resolve_events_from C this in
  let! key := key_of event in
  find_all_listeners l key.

Definition raw_listeners (C : class) (this : nat) (event : jsval) : M (list nat) :=
  listeners C this event.

Definition has_key (l : nat) (key : EventKey) : M bool :=
  read_list l (λ es, existsb (has_key_at key) es).

(** [self.get_event_list()] of a native object. *)
Definition has_listener_str (C : class) (this : nat) (event : list Z) : M bool :=
  let! o := gets (native_events C this) in
  match o with Some l => has_key l (KString event) | None => ret false end.

Definition has_listener (C : class) (this : nat) (event : jsval) : M bool :=
  let! key := key_of event in
  let! o := gets (native_events C this) in
  match o with Some l => has_key l key | None => ret false end.

Definition get_listeners (C : class) (this : nat) (event : jsval) : M (list nat) :=
  let! key := key_of event in
  let! o := gets (native_events C this) in
  match o with Some l => find_all_listeners l key | None => ret [] end.
Definition get_listeners_str (C : class) (this : nat) (event : list Z) : M (list nat) :=
  get_listeners C this (VString event).

Definition emit_error (C : class) (this : nat) (error : option exn) : M bool :=
  match error with
  | None => ret false
  | Some e =>
      let! b := has_listener_str C this (bs "error") in
      if b then
        emit_below C (VString (bs "error")) this
          [match e with Thrown v => v | _ => VOther 0 end] false ;!
        ret true
      else throw e
  end.

(** [n as u32]. *)
Definition num_as_u32 (n : num) : Z :=
  match n with
  | NaN => 0
  | Infinity neg => if neg then 0 else 4294967295
  | Fin n d => Z.min 4294967295 (Z.max 0 (Z.quot n (Z.pos d)))
  end.
Definition num_negative (n : num) : bool :=
  match n with NaN => false | Infinity neg => neg | Fin n _ => n <? 0 end.
Definition num_is_nan (n : num) : bool := match n with NaN => true | _ => false end.

Definition set_max_listeners (this : nat) (n : jsval) : M () :=
  match n with
  | VNumber n =>
      if num_is_nan n || num_negative n then throw RangeError
      else alter_object (λ o,
        mkObject (obj_class o) (own_events o) (hidden o) (proto o)
          (Some (Fin (num_as_u32 n) 1)) (inner o)) this
  | _ => throw TypeError
  end.

Fixpoint get_max_property (fuel : nat) (this : nat) (w : world) : option num :=
  match fuel, objects w !! this with
  | S fuel, Some o =>
      match max_listeners o, proto o with
      | Some n, _ => Some n
      | None, Some p => get_max_property fuel p w
      | None, None => None
      end
  | _, _ => None
  end.

Definition get_max_listeners (this : nat) : M Z :=
  let! stored := gets (λ w, get_max_property (length (objects w)) this w) in
  ret (match stored, defaultMaxListeners with
       | Some n, _ => num_as_u32 n
       | None, VNumber n => num_as_u32 n
       | None, _ => 10
       end).

Fixpoint remove_keys (this : nat) (keys : list EventKey) : M () :=
  match keys with
  | [] => ret ()
  | k :: keys => remove_all_for_key this k ;! remove_keys this keys
  end.

Definition remove_every (C : class) (this : nat) : M () :=
  let! l := resolve_events_from C this in
  let! keys := read_list l (λ es,
    fst <$> filter (λ e : EventKey * list EventItem, e.2 ≠ []) es) in
  remove_keys this (filter (λ k, is_remove_listener_key k = false) keys) ;!
  remove_all_for_key this removeListener_key.

Definition remove_all_listeners (C : class) (this : nat) (event : option jsval) : M () :=
  match event with
  | Some VUndefined | None => remove_every C this
  | Some v => let! key := key_of v in remove_all_for_key this key
  end.

(** [EventEmitter::new], the constructor of another class, or an object literal
    with a prototype. *)
Definition new (c : option class) (p : option nat) : M nat :=
  let! l := new_list in
  let! o := gets (λ w, length (objects w)) in
  modify (λ w, set_objects (objects w ++
    [mkObject c l None p None (mkReadable Init None)]) w) ;!
  ret o.

(** * Running a listener *)

Definition run_cmd (c : cmd) : M reply :=
  match c with
  | New c p => let! o := new c p in ret (RObject o)
  | On C o v f => on C o v f ;! ret RUnit
  | Once C o v f => once C o v f ;! ret RUnit
  | PrependListener C o v f => prepend_listener C o v f ;! ret RUnit
  | PrependOnceListener C o v f => prepend_once_listener C o v f ;! ret RUnit
  | AddEventListener C o v f b => evt_add_event_listener C o v f b ;! ret RUnit
  | RemoveListener C o v f => remove_event_listener C o v f ;! ret RUnit
  | RemoveAllListeners C o v => remove_all_listeners C o v ;! ret RUnit
  | Emit C o v args => let! b := emit C o v args in ret (RBool b)
  | EmitStr C o v args d => emit_str C o v args d ;! ret RUnit
  | DispatchEvent C o v t => let! b := evt_dispatch_event C o v t in ret (RBool b)
  | EventNames C o => let! l := event_names C o in ret (RValues l)
  | ListenerCount C o v => let! n := listener_count C o v in ret (RCount n)
  | Listeners C o v => let! l := listeners C o v in ret (RValues (VFunction <$> l))
  | HasListener C o v => let! b := has_listener_str C o v in ret (RBool b)
  | EmitError C o e => let! b := emit_error C o e in ret (RBool b)
  | SetMaxListeners o n => set_max_listeners o n ;! ret RUnit
  | GetMaxListeners o => let! n := get_max_listeners o in ret (RNumber n)
  end.

Fixpoint run_script (s : script) : M () :=
  match s with
  | Return => ret ()
  | Throw e => throw e
  | Call c k => let! r := catch (run_cmd c) in
      run_script (k (match r with inr r => r | inl e => RThrown e end))
  end.

(** [callback.call] and [callback.defer]. *)
Definition call (it : EventItem) (this : nat) (args : list jsval) : M () :=
  let! past := gets log in
  modify (push_log (LCall it this args)) ;!
  run_script (body (callback it) this args past).
Definition invoke (it : EventItem) (this : nat) (args : list jsval) (defer : bool) : M () :=
  if defer then modify (push_log (LDefer it this args)) else call it this args.

Fixpoint emit_loop (this : nat) (key : EventKey) (args : list jsval) (defer : bool)
    (callbacks : list EventItem) : M () :=
  match callbacks with
  | [] => ret ()
  | it :: rest =>
      if once_ it then
        let! f := gets (λ w, bool_decide (id it ∈ fired w)) in
        if f then emit_loop this key args defer rest
        else
          remove_listener_by_id this key (id it) true ;!
          modify (λ w, set_fired ({[id it]} ∪ fired w) w) ;!
          invoke it this args defer ;!
          emit_loop this key args defer rest
      else
        invoke it this args defer ;!
        emit_loop this key args defer rest
  end.

Definition emit_body (C : class) (event : jsval) (this : nat) (args : list jsval) (defer : bool) :
    M bool :=
  let! l := resolve_events_from C this in
  lock l ;!
  let! key := key_of_locked l event in
  let! es := get_list l in
  match find_key key es with
  | Some (_, callbacks) =>
      unlock l ;!
      emit_loop this key args defer callbacks ;!
      ret true
  | None => unlock l ;! ret false
  end.
End Operations.

Section Emitter.
Context (body : nat → nat → list jsval → list entry → script).
Context (dm : jsval).

Fixpoint do_emit (depth : nat) (C : class) (event : jsval) (this : nat) (args : list jsval)
    (defer : bool) : M bool :=
  match depth with
  | O => throw StackOverflow
  | S depth => emit_body body dm (do_emit depth) C event this args defer
  end.

(** A script run from outside. *)
Definition run (depth : nat) (s : script) : M () := run_script dm (do_emit depth) s.
End Emitter.

Definition init_world : world := mkWorld [] [] ∅ 1 ∅ [].
