(* ===== verification/EventProofs.v ===== *)
(** Listeners that re-enter: whatever the listeners do, the lists stay
    well formed, no lock is taken twice, and a once listener runs at most once. *)

From S2P Require Import Prelude Effects Events.

(** * The ids of the listeners *)

Definition entry_ids (e : EventKey * list EventItem) : list nat := id <$> e.2.
Definition list_ids (es : EventList) : list nat := es ≫= entry_ids.
Definition ids (w : world) : list nat := lists w ≫= list_ids.

(** One entry per key, with its listeners, at least one. *)
Definition wf_list (es : EventList) : Prop :=
  NoDup (fst <$> es) ∧ Forall (λ e : EventKey * list EventItem, e.2 ≠ []) es.

(** Every listener has an id of its own, below the next one. *)
Definition wf (w : world) : Prop :=
  Forall wf_list (lists w) ∧ NoDup (ids w) ∧ Forall (λ i, (i < NEXT_LISTENER_ID w)%nat) (ids w).

(** Calls of the once listener with id [i]. *)
Definition once_call (i : nat) (e : entry) : bool :=
  match e with
  | LCall it _ _ | LDefer it _ _ => once_ it && (id it =? i)%nat
  | _ => false
  end.
Definition once_calls (i : nat) (w : world) : nat := length (filter (λ e, once_call i e = true) (log w)).

(** What the operations do to the world between two calls of listeners. *)
Inductive change : world → world → Prop :=
  | change_alloc w : change w (set_lists (lists w ++ [[]]) w)
  | change_objects w x : change w (set_objects x w)
  | change_attached w o : change w (push_log (LAttached o) w)
  | change_remove w l es key index items pos :
      lists w !! l = Some es → find_key key es = Some (index, items) →
      (pos < length items)%nat →
      change w (set_lists (<[l := removed_at key index pos items es]> (lists w)) w)
  | change_add w l key f once prepend :
      let it := mkItem (NEXT_LISTENER_ID w) f once in
      change w
        (set_lists (<[l := (insert_item key it prepend (default [] (lists w !! l))).1]> (lists w))
           (push_log (LAdd it) (set_next (S (NEXT_LISTENER_ID w)) w))).

(** * Lists *)

Lemma find_key_lookup key es index items :
  find_key key es = Some (index, items) → es !! index = Some (key, items).
Proof.
  unfold find_key. intros H. destruct (find_pos _ _) as [i|] eqn:Hf; [|done].
  apply find_pos_Some in Hf as ([k its] & Hi & Hk & _). rewrite Hi in H. simplify_eq.
  apply bool_decide_eq_true in Hk. simpl in Hk. by subst.
Qed.

Lemma find_key_None key es : find_key key es = None → key ∉ es.*1.
Proof.
  unfold find_key. intros H Hk. destruct (find_pos _ _) as [i|] eqn:Hf.
  { apply find_pos_Some in Hf as (e & He & _). by rewrite He in H. }
  apply find_pos_None in Hf. rewrite Forall_forall in Hf.
  apply list_elem_of_fmap in Hk as (e & -> & He). specialize (Hf e He).
  by apply bool_decide_eq_false in Hf.
Qed.

(** Replacing an element of a list moves its share of a [bind] only. *)
Lemma bind_insert_perm {A B} (f : A → list B) l i x y :
  l !! i = Some x → f x ++ (<[i:=y]> l ≫= f) ≡ₚ f y ++ (l ≫= f).
Proof.
  intros Hi. assert (Hlt := lookup_lt_Some _ _ _ Hi).
  rewrite insert_take_drop by done.
  rewrite <- (take_drop_middle l i x Hi) at 3.
  rewrite !bind_app, !bind_cons. solve_Permutation.
Qed.

Lemma list_ids_removed key index pos items es it :
  es !! index = Some (key, items) → items !! pos = Some it →
  list_ids es ≡ₚ id it :: list_ids (removed_at key index pos items es).
Proof.
  intros He Hi. unfold removed_at, list_ids.
  assert (Hp : id <$> items ≡ₚ id it :: (id <$> delete pos items))
    by (by rewrite (delete_Permutation items pos it Hi) at 1).
  case_bool_decide as Hd.
  - rewrite (delete_Permutation es index _ He) at 1. rewrite bind_cons.
    unfold entry_ids at 1. simpl. by rewrite Hp, Hd.
  - assert (H := bind_insert_perm entry_ids es index _ (key, delete pos items) He).
    change (entry_ids (key, items)) with (id <$> items) in H. rewrite Hp in H. simpl in H.
    apply (Permutation_app_inv_l (id <$> delete pos items)).
    unfold entry_ids in H at 2. simpl in H. rewrite <- H. solve_Permutation.
Qed.

Lemma list_ids_inserted key it prepend es :
  list_ids (insert_item key it prepend es).1 ≡ₚ id it :: list_ids es.
Proof.
  unfold insert_item, list_ids. destruct (find_key key es) as [[index items]|] eqn:Hf; simpl.
  - apply find_key_lookup in Hf.
    assert (H := bind_insert_perm entry_ids es index _
      (key, if prepend then it :: items else items ++ [it]) Hf).
    apply (Permutation_app_inv_l (entry_ids (key, items))). rewrite H.
    unfold entry_ids at 1 4. simpl. destruct prepend; rewrite ?fmap_app; simpl; solve_Permutation.
  - rewrite bind_app. simpl. solve_Permutation.
Qed.

Lemma ids_insert w l es es' :
  lists w !! l = Some es →
  list_ids es ++ (<[l := es']> (lists w) ≫= list_ids) ≡ₚ list_ids es' ++ ids w.
Proof. apply bind_insert_perm. Qed.

Lemma ids_removed w l es key index items pos it :
  lists w !! l = Some es → es !! index = Some (key, items) → items !! pos = Some it →
  ids w ≡ₚ id it :: ids (set_lists (<[l := removed_at key index pos items es]> (lists w)) w).
Proof.
  intros Hl He Hi. assert (H := ids_insert w l es (removed_at key index pos items es) Hl).
  rewrite (list_ids_removed _ _ _ _ _ _ He Hi) in H.
  apply (Permutation_app_inv_l (list_ids (removed_at key index pos items es))).
  rewrite <- H. unfold ids. simpl. solve_Permutation.
Qed.

Lemma ids_added w l key it prepend x :
  lists x = lists w →
  ids (set_lists (<[l := (insert_item key it prepend (default [] (lists w !! l))).1]> (lists w)) x)
    ⊆+ id it :: ids w.
Proof.
  intros _. destruct (lists w !! l) as [es|] eqn:Hl; simpl.
  - assert (H := ids_insert w l es (insert_item key it prepend es).1 Hl).
    rewrite list_ids_inserted in H. apply Permutation_submseteq.
    apply (Permutation_app_inv_l (list_ids es)).
    unfold ids at 1. simpl. rewrite H. solve_Permutation.
  - unfold ids. simpl. rewrite list_insert_ge by by apply lookup_ge_None. by apply submseteq_cons.
Qed.

Lemma wf_removed key index pos items es :
  es !! index = Some (key, items) → wf_list es → wf_list (removed_at key index pos items es).
Proof.
  intros He [Hk Hn]. unfold removed_at. case_bool_decide as Hd.
  - assert (Hs : sublist (delete index es) es) by apply sublist_delete. split.
    + eapply sublist_NoDup; [exact Hk|]. by apply fmap_sublist.
    + by eapply Forall_sublist.
  - split.
    + rewrite list_fmap_insert. simpl. by rewrite list_insert_id by by rewrite list_lookup_fmap, He.
    + by apply Forall_insert.
Qed.

Lemma wf_inserted key it prepend es : wf_list es → wf_list (insert_item key it prepend es).1.
Proof.
  intros [Hk Hn]. unfold insert_item. destruct (find_key key es) as [[index items]|] eqn:Hf; simpl.
  - apply find_key_lookup in Hf. split.
    + rewrite list_fmap_insert. simpl. by rewrite list_insert_id by by rewrite list_lookup_fmap, Hf.
    + apply Forall_insert; [done|]. simpl. by destruct prepend, items.
  - apply find_key_None in Hf. split.
    + rewrite fmap_app. apply NoDup_app. split; [done|]. split; [|apply NoDup_singleton].
      simpl. intros k ? ->%list_elem_of_singleton. done.
    + by apply Forall_app_2; [|apply Forall_singleton].
Qed.

(** * Operations under an invariant *)

(** [m] keeps [P] and does not deadlock, whether it returns or throws. *)
Notation fine P := (Effects.fine P (eq Deadlock)).
Notation good P := (Effects.good P (eq Deadlock)).

Lemma bind_get_list {A} l (k : EventList → M A) w :
  (let! es := get_list l in k es) w = k (default [] (lists w !! l)) w.
Proof. done. Qed.

Lemma set_held_id w : held w = ∅ → set_held ∅ w = w.
Proof. destruct w; simpl. by intros ->. Qed.

Lemma lock_free l w : held w = ∅ → lock l w = (set_held {[l]} w, Returns ()).
Proof.
  intros Hh. unfold lock. rewrite Hh, decide_False by set_solver. by rewrite (right_id_L ∅ (∪)).
Qed.

Lemma bind_lock {A} l (k : M A) w : held w = ∅ → (lock l ;! k) w = k (set_held {[l]} w).
Proof. intros Hh. unfold bind at 1. by rewrite lock_free. Qed.

Lemma unlock_held l w : held w = ∅ → unlock l (set_held {[l]} w) = (w, Returns ()).
Proof.
  intros Hh. unfold unlock, modify. simpl. rewrite difference_diag_L.
  by rewrite <- (set_held_id w Hh) at 2.
Qed.

Lemma bind_unlock {A} l (k : M A) w :
  held w = ∅ → (unlock l ;! k) (set_held {[l]} w) = k w.
Proof. intros Hh. unfold bind at 1. by rewrite unlock_held. Qed.

Lemma bind_put_unlock {A} l es (k : M A) w :
  held w = ∅ →
  (put_list l es ;! unlock l ;! k) (set_held {[l]} w) = k (set_lists (<[l := es]> (lists w)) w).
Proof.
  intros Hh. by rewrite <- (bind_unlock l k (set_lists (<[l := es]> (lists w)) w)).
Qed.

Lemma on_event_changed_held this k b h w :
  on_event_changed this k b (set_held h w) =
  (set_held h (on_event_changed this k b w).1, Returns ()) ∧
  (on_event_changed this k b w).2 = Returns ().
Proof.
  unfold on_event_changed. simpl. destruct (objects w !! this) as [o|]; [|done].
  destruct (obj_class o) as [[]|]; try done.
  destruct (readable_changed k b (inner o)) as [i []]; done.
Qed.

Lemma notify_held C this k b h w :
  notify_if C this k b (set_held h w) = (set_held h (notify_if C this k b w).1, Returns ()).
Proof.
  unfold notify_if, bind, gets. change (is_instance C this (set_held h w)) with (is_instance C this w).
  destruct (is_instance C this w); [|done]. apply on_event_changed_held.
Qed.

(** Resolving a list returns it, and may have made it. *)
Lemma resolve_spec this w :
  ∃ w' l, resolve_events this w = (w', Returns l) ∧ rtc change w w'.
Proof.
  unfold resolve_events, bind, gets.
  destruct (native_events CEventEmitter this w) as [l|]; [by exists w, l|].
  destruct (native_events CEventTarget this w) as [l|]; [by exists w, l|].
  destruct (get_hidden _ this w) as [l|]; [by exists w, l|].
  eexists _, _. split; [done|]. eapply rtc_l; [apply change_alloc|]. apply rtc_once, change_objects.
Qed.

Lemma change_held w w' : change w w' → held w' = held w.
Proof. by destruct 1. Qed.

Lemma changes_held w w' : rtc change w w' → held w' = held w.
Proof. induction 1 as [|w1 w2 w3 H _ IH]; [done|]. rewrite IH. by apply change_held. Qed.

(** A removal does nothing, or changes a list and goes on. *)
Lemma removal_cases emit_below this key i meta w :
  held w = ∅ →
  ∃ w1, rtc change w w1 ∧
    (remove_listener_by_id emit_below this key i meta w = (w1, Returns false) ∨
     ∃ l es index items pos it,
       lists w1 !! l = Some es ∧ find_key key es = Some (index, items) ∧
       items !! pos = Some it ∧ id it = i ∧
       remove_listener_by_id emit_below this key i meta w =
       after_removal emit_below this key (Some it) (bool_decide (delete pos items = [])) meta
         (set_lists (<[l := removed_at key index pos items es]> (lists w1)) w1)).
Proof.
  intros Hh. destruct (resolve_spec this w) as (w1 & l & Hr & Hc). exists w1. split; [done|].
  assert (Hh1 : held w1 = ∅) by by rewrite (changes_held _ _ Hc).
  unfold remove_listener_by_id. rewrite (bind_returns _ _ _ _ _ Hr), !bind_lock by done.
  rewrite bind_get_list. change (lists (set_held {[l]} w1)) with (lists w1).
  destruct (lists w1 !! l) as [es|] eqn:Hl; simpl; [|by left; rewrite bind_unlock by auto].
  destruct (find_key key es) as [[index items]|] eqn:Hf; [|by left; rewrite bind_unlock by auto].
  destruct (find_pos _ items) as [pos|] eqn:Hp; [|by left; rewrite bind_unlock by auto].
  right. apply find_pos_Some in Hp as (it & Hi & Hid & _). exists l, es, index, items, pos, it.
  split_and!; try done; [by apply Nat.eqb_eq|]. by rewrite bind_put_unlock, Hi by auto.
Qed.

Section Frame.
Context (P : world → Prop) (P_held : ∀ w, P w → held w = ∅).
Context (P_change : ∀ w w', change w w' → P w → P w').

Lemma good_alter_object f o : good P (alter_object f o).
Proof. apply good_modify. intros w. apply P_change. constructor. Qed.

Lemma good_new_list : good P new_list.
Proof. intros w HP. split; [|done]. eapply P_change, HP. constructor. Qed.

Lemma good_key_of v : good P (key_of v).
Proof. intros w HP. unfold key_of. by destruct v. Qed.

Lemma good_on_event_changed this k b : good P (on_event_changed this k b).
Proof.
  intros w HP. unfold on_event_changed. destruct (objects w !! this) as [o|]; [|done].
  destruct (obj_class o) as [[]|]; try done.
  destruct (readable_changed k b (inner o)) as [i []]; (split; [|done]); simpl.
  - eapply P_change; [constructor|]. eapply P_change, HP. constructor.
  - eapply P_change, HP. constructor.
Qed.
Hint Resolve good_ret good_throw good_gets good_bind good_if good_alter_object good_new_list
  good_key_of good_on_event_changed : raster.

Lemma good_notify C this k b : good P (notify_if C this k b).
Proof. unfold notify_if. eauto with raster. Qed.

Lemma good_resolve this : good P (resolve_events this).
Proof.
  unfold resolve_events. apply good_bind; [auto with raster|]. intros [l|]; [auto with raster|].
  apply good_bind; [auto with raster|]. intros [l|]; [auto with raster|].
  apply good_bind; [auto with raster|]. intros [l|]; eauto 10 with raster.
Qed.
Hint Resolve good_notify good_resolve : raster.

Lemma good_resolve_from C this : good P (resolve_events_from C this).
Proof.
  unfold resolve_events_from. apply good_bind; [auto with raster|].
  intros [l|]; auto with raster.
Qed.
Hint Resolve good_resolve_from : raster.

(** A critical section. *)
Lemma good_locked {A} l (k : EventList → M A) :
  (∀ w, P w → fine P (k (default [] (lists w !! l)) (set_held {[l]} w))) →
  good P (lock l ;! let! es := get_list l in k es).
Proof. intros H w HP. rewrite bind_lock by auto. exact (H w HP). Qed.

Lemma good_locked_key {A} l v (k : EventKey → M A) :
  (∀ key w, P w → fine P (k key (set_held {[l]} w))) →
  good P (lock l ;! let! key := key_of_locked l v in k key).
Proof.
  intros H w HP. rewrite bind_lock by auto. unfold key_of_locked.
  destruct v; cbn [from_value]; try exact (H _ w HP);
    unfold bind at 1; rewrite bind_unlock by auto; done.
Qed.

Lemma good_read_list {A} l (f : EventList → A) : good P (read_list l f).
Proof. apply good_locked. intros w HP. by rewrite bind_unlock by auto. Qed.
Hint Resolve good_read_list : raster.

(** ** With a [do_emit] one level down that is good *)
Context (dm : jsval) (emit_below : class → jsval → nat → list jsval → bool → M bool).
Context (emit_good : ∀ C v o args d, good P (emit_below C v o args d)).
Hint Resolve emit_good : raster.


Lemma good_after_removal this key it b meta : good P (after_removal emit_below this key it b meta).
Proof. unfold after_removal. eauto 15 with raster. Qed.


Lemma P_changes w w' : rtc change w w' → P w → P w'.
Proof. induction 1; eauto. Qed.

Lemma good_remove this key i meta : good P (remove_listener_by_id emit_below this key i meta).
Proof.
  intros w HP. destruct (removal_cases emit_below this key i meta w (P_held w HP)) as (w1 & Hc & Hr).
  assert (HP1 := P_changes _ _ Hc HP).
  destruct Hr as [->|(l & es & index & items & pos & it & Hl & Hf & Hi & _ & ->)]; [done|].
  apply good_after_removal. eapply P_change, HP1. econstructor; try done. by eapply lookup_lt_Some.
Qed.
Hint Resolve good_remove : raster.

Lemma good_remove_ids this key l : good P (remove_ids emit_below this key l).
Proof. induction l; simpl; auto with raster. Qed.
Hint Resolve good_remove_ids : raster.

Lemma good_remove_all_for_key this key : good P (remove_all_for_key emit_below this key).
Proof.
  unfold remove_all_for_key. apply good_bind; [auto with raster|]. intros l.
  apply good_locked. intros w HP. rewrite bind_unlock by auto. by apply good_remove_ids.
Qed.
Hint Resolve good_remove_all_for_key : raster.

Lemma good_remove_keys this keys : good P (remove_keys emit_below this keys).
Proof. induction keys; simpl; auto with raster. Qed.

Lemma good_remove_all_listeners C this v : good P (remove_all_listeners emit_below C this v).
Proof.
  assert (good P (remove_every emit_below C this)).
  { unfold remove_every. eauto using good_remove_keys with raster. }
  unfold remove_all_listeners. destruct v as [[]|]; eauto with raster.
Qed.

Lemma good_remove_event_listener C this v f :
  good P (remove_event_listener emit_below C this v f).
Proof.
  unfold remove_event_listener. apply good_bind; [auto with raster|]. intros l.
  apply good_locked_key. intros key w HP. rewrite bind_get_list.
  change (lists (set_held {[l]} w)) with (lists w).
  destruct (lists w !! l) as [es|] eqn:Hl; cbn -[unlock]; [|by rewrite unlock_held by auto].
  destruct (find_key key es) as [[index items]|] eqn:Hf; [|by rewrite unlock_held by auto].
  destruct (rfind_pos _ items) as [pos|] eqn:Hp; [|by rewrite unlock_held by auto].
  rewrite bind_put_unlock by auto. apply rfind_pos_Some in Hp as (it & Hi & _).
  assert (Hg : good P (emit_below C (VString (bs "removeListener")) this [v; VFunction f] false ;!
    if bool_decide (delete pos items = []) then notify_if C this key false else ret ()))
    by eauto with raster.
  apply Hg. eapply P_change, HP. econstructor; try done. by eapply lookup_lt_Some.
Qed.

Lemma good_add C this v f prepend once :
  good P (add_event_listener emit_below C this v f prepend once).
Proof.
  unfold add_event_listener. apply good_bind; [auto with raster|]. intros _.
  apply good_bind; [auto with raster|]. intros l. apply good_locked_key. intros key w HP.
  set (it := mkItem (NEXT_LISTENER_ID w) f once).
  set (es := default [] (lists w !! l)).
  set (w1 := set_lists (<[l := (insert_item key it prepend es).1]> (lists w))
    (push_log (LAdd it) (set_next (S (NEXT_LISTENER_ID w)) w))).
  assert (HP1 : P w1) by (eapply P_change, HP; constructor).
  assert (Hh1 : held w1 = ∅) by auto.
  change (fine P (((if (insert_item key it prepend es).2 then notify_if C this key true
    else ret ()) ;! unlock l) (set_held {[l]} w1))).
  destruct (insert_item key it prepend es).2.
  - unfold bind. rewrite notify_held. destruct (good_notify C this key true w1 HP1) as [HP2 _].
    cbn -[unlock]. by rewrite unlock_held by auto.
  - unfold bind, ret. by rewrite unlock_held by auto.
Qed.

Lemma good_has_listener C this v : good P (has_listener_str C this v).
Proof.
  unfold has_listener_str, has_key. apply good_bind; [auto with raster|].
  intros [l|]; auto with raster.
Qed.
Hint Resolve good_remove_all_listeners good_remove_event_listener good_add good_has_listener : raster.

Lemma good_new c p : good P (new c p).
Proof.
  unfold new. apply good_bind; [auto with raster|]. intros l. apply good_bind; [auto with raster|].
  intros o. apply good_bind; [|auto with raster]. apply good_modify. intros w. apply P_change.
  constructor.
Qed.

Lemma good_run_cmd c : good P (run_cmd dm emit_below c).
Proof.
  destruct c; simpl; apply good_bind; auto using good_new with raster; try (by intros; auto with raster).
  all: unfold on, Events.once, prepend_listener, prepend_once_listener, evt_add_event_listener, emit,
    emit_str, event_names, listener_count, listeners, find_all_listeners, get_max_listeners;
    eauto 6 with raster.
  - unfold evt_dispatch_event. destruct type; [auto with raster|].
    intros w HP. split; [done|]. by intros f [= <-].
  - unfold emit_error. destruct error; [|auto with raster]. eauto 6 with raster.
  - unfold set_max_listeners. destruct n; auto with raster.
Qed.

Lemma good_run_script s : good P (run_script dm emit_below s).
Proof.
  induction s as [|e|c k IH]; simpl; [auto with raster..|]. apply good_bind; [|done].
  apply good_catch, good_run_cmd.
Qed.
End Frame.

(** * [do_emit] under an invariant *)

Definition called (it : EventItem) (this : nat) (args : list jsval) (defer : bool) : entry :=
  if defer then LDefer it this args else LCall it this args.

(** A once listener consumed and called. *)
Definition consumed (it : EventItem) (this : nat) (args : list jsval) (defer : bool) (w : world) :
    world :=
  push_log (called it this args defer) (set_fired ({[id it]} ∪ fired w) w).

Section EmitFrame.
Context (body : nat → nat → list jsval → list entry → script) (dm : jsval).
Context (P : world → Prop) (P_held : ∀ w, P w → held w = ∅).
Context (P_change : ∀ w w', change w w' → P w → P w').
(** What is known of a listener in a snapshot. *)
Context (Snap : EventItem → Prop).
Context (P_snap : ∀ w l es e it, P w → lists w !! l = Some es → e ∈ es → it ∈ e.2 → Snap it).
Context (P_call : ∀ w it this args defer, P w → Snap it → once_ it = false →
  P (push_log (called it this args defer) w)).
Context (P_once : ∀ depth it this key w,
  (∀ C v o args d, good P (do_emit body dm depth C v o args d)) →
  P w → Snap it → once_ it = true → id it ∉ fired w →
  ∀ b, (remove_listener_by_id (do_emit body dm depth) this key (id it) true w).2 = Returns b →
  ∀ args defer, P (consumed it this args defer
    (remove_listener_by_id (do_emit body dm depth) this key (id it) true w).1)).

Lemma invoke_good emit_below it this args defer w :
  (∀ C v o args d, good P (emit_below C v o args d)) →
  P (push_log (called it this args defer) w) →
  fine P (invoke body dm emit_below it this args defer w).
Proof. intros He HP. destruct defer; [done|]. by apply good_run_script. Qed.

Lemma good_emit_loop depth this key args defer callbacks :
  (∀ C v o args d, good P (do_emit body dm depth C v o args d)) →
  Forall Snap callbacks →
  good P (emit_loop body dm (do_emit body dm depth) this key args defer callbacks).
Proof.
  intros He. induction 1 as [|it rest Hs _ IH]; simpl; [by intros w HP|].
  destruct (once_ it) eqn:Ho.
  - intros w HP. rewrite (bind_returns (gets _) _ w w _ eq_refl).
    case_bool_decide as Hf; [by apply IH|].
    unfold bind at 1. assert (Hr := P_once depth it this key w He HP Hs Ho Hf).
    destruct (good_remove P P_held P_change _ He this key (id it) true w HP) as [H1 H2].
    destruct (remove_listener_by_id _ this key (id it) true w) as [w' r]. simpl in *.
    destruct r; [|done|split; [done|naive_solver]]. unfold bind at 1, modify.
    specialize (Hr a eq_refl args defer).
    apply (invoke_good _ _ _ _ _ (set_fired ({[id it]} ∪ fired w') w') He) in Hr as [H3 H4].
    unfold bind. destruct (invoke _ _ _ it this args defer _) as [w2 []]; [by apply IH|done|].
    split; [done|naive_solver].
  - apply good_bind; [|done]. intros w HP. apply invoke_good; [done|]. by apply P_call.
Qed.

Lemma good_do_emit depth C v o args d : good P (do_emit body dm depth C v o args d).
Proof.
  revert C v o args d. induction depth as [|depth IH]; intros C v o args d; simpl; [by intros w|].
  unfold emit_body. apply good_bind; [by apply good_resolve_from|]. intros l.
  apply good_locked_key; [done..|]. intros key w HP. rewrite bind_get_list.
  change (lists (set_held {[l]} w)) with (lists w).
  destruct (lists w !! l) as [es|] eqn:Hl; cbn [from_option];
    [|change (fine P ((unlock l ;! ret false) (set_held {[l]} w))); by rewrite bind_unlock by auto].
  change (Datatypes.id es) with es.
  destruct (find_key key es) as [[index items]|] eqn:Hf; rewrite bind_unlock by auto; [|done].
  apply good_bind; [|done|done]. apply good_emit_loop; [done|]. apply Forall_forall. intros it Hit.
  apply find_key_lookup in Hf. eapply P_snap; [done..| |]; [by eapply list_elem_of_lookup_2|done].
Qed.
End EmitFrame.

(** * What a change keeps *)

Lemma change_ids w w' :
  change w w' →
  ids w' ⊆+ ids w ∧ NEXT_LISTENER_ID w' = NEXT_LISTENER_ID w ∨
  ids w' ⊆+ NEXT_LISTENER_ID w :: ids w ∧ NEXT_LISTENER_ID w' = S (NEXT_LISTENER_ID w).
Proof.
  destruct 1 as [w|w x|w o|w l es key index items pos Hl Hf Hp|w l key f once prepend it].
  - left. unfold ids. simpl. rewrite bind_app. simpl. by rewrite app_nil_r.
  - by left.
  - by left.
  - left. split; [|done]. apply find_key_lookup in Hf. apply lookup_lt_is_Some_2 in Hp as [it Hi].
    rewrite (ids_removed w l es key index items pos it) by done. by apply submseteq_cons.
  - right. split; [|done]. by apply (ids_added w l key it prepend).
Qed.

Lemma change_fired w w' : change w w' → fired w' = fired w.
Proof. by destruct 1. Qed.

Lemma once_calls_push i e w :
  once_calls i (push_log e w) = (once_calls i w + if once_call i e then 1 else 0)%nat.
Proof.
  unfold once_calls. simpl. rewrite filter_app, length_app. f_equal.
  rewrite filter_cons, filter_nil. by destruct (once_call i e).
Qed.

Lemma change_once_calls i w w' : change w w' → once_calls i w' = once_calls i w.
Proof.
  destruct 1; try done; [rewrite once_calls_push; simpl; lia|].
  change (once_calls i (push_log (LAdd it) w) = once_calls i w). rewrite once_calls_push. simpl. lia.
Qed.

Lemma NoDup_submseteq_inv {A} (l k : list A) : l ⊆+ k → NoDup k → NoDup l.
Proof.
  intros [l' ->]%submseteq_Permutation Hn. by apply NoDup_app in Hn as [? _].
Qed.

Lemma Forall_submseteq {A} (Q : A → Prop) (l k : list A) : l ⊆+ k → Forall Q k → Forall Q l.
Proof. intros [l' ->]%submseteq_Permutation Hn. by apply Forall_app in Hn as [? _]. Qed.

Lemma change_wf w w' : change w w' → wf w → wf w'.
Proof.
  intros Hc (Hl & Hn & Hb). split.
  - destruct Hc as [w|w x|w o|w l es key index items pos Hl' Hf Hp|w l key f once prepend it]; simpl; try done.
    + apply Forall_app_2; [done|]. repeat constructor.
    + apply Forall_insert; [done|]. apply wf_removed; [by apply find_key_lookup|].
      by eapply Forall_lookup_1.
    + destruct (lists w !! l) as [es|] eqn:He; simpl.
      * apply Forall_insert; [done|]. apply wf_inserted. by eapply Forall_lookup_1.
      * by rewrite list_insert_ge by by apply lookup_ge_None.
  - apply change_ids in Hc as [[Hs ->]|[Hs ->]].
    + split; [by eapply NoDup_submseteq_inv|by eapply Forall_submseteq].
    + assert (Hn' : NoDup (NEXT_LISTENER_ID w :: ids w)).
      { constructor; [|done]. intros Hin. rewrite Forall_forall in Hb. specialize (Hb _ Hin). lia. }
      split; [by eapply NoDup_submseteq_inv|]. eapply Forall_submseteq; [exact Hs|].
      constructor; [lia|]. eapply Forall_impl; [exact Hb|]. simpl. lia.
Qed.

(** * A listener that was removed is not called any more *)

Definition dead (i n : nat) (w : world) : Prop :=
  held w = ∅ ∧ (i < NEXT_LISTENER_ID w)%nat ∧ i ∉ ids w ∧ once_calls i w = n ∧ i ∉ fired w.

Lemma dead_change i n w w' : change w w' → dead i n w → dead i n w'.
Proof.
  intros Hc (H1 & H2 & H3 & H4 & H5). unfold dead.
  rewrite (change_held _ _ Hc), (change_once_calls _ _ _ Hc), (change_fired _ _ Hc).
  destruct (change_ids _ _ Hc) as [[Hs ->]|[Hs ->]]; split_and!; try done; try lia.
  - intros Hin. apply H3. by eapply elem_of_submseteq.
  - intros Hin. eapply elem_of_submseteq in Hs; [|done]. apply elem_of_cons in Hs as [->|Hs]; [lia|done].
Qed.

Lemma once_call_called i it this args defer :
  once_call i (called it this args defer) = once_ it && (id it =? i)%nat.
Proof. by destruct defer. Qed.

Lemma elem_of_ids w l es e it :
  lists w !! l = Some es → e ∈ es → it ∈ e.2 → id it ∈ ids w.
Proof.
  intros Hl He Hi. apply list_elem_of_bind. exists es. split; [|by eapply list_elem_of_lookup_2].
  apply list_elem_of_bind. exists e. split; [|done]. by apply list_elem_of_fmap_2.
Qed.

Section Listeners.
Context (body : nat → nat → list jsval → list entry → script) (dm : jsval).

Lemma good_dead i n depth C v o args d : good (dead i n) (do_emit body dm depth C v o args d).
Proof.
  apply (good_do_emit body dm (dead i n)) with (Snap := λ it, id it ≠ i).
  - by intros w [].
  - apply dead_change.
  - intros w l es e it (_ & _ & Hd & _) Hl He Hi <-. apply Hd. by eapply elem_of_ids.
  - intros w it this args' defer (H1 & H2 & H3 & H4 & H5) _ Ho. split_and!; try done.
    rewrite once_calls_push, once_call_called, Ho. simpl. lia.
  - intros depth' it this key w He Hd Hi Ho Hf b _ args' defer.
    destruct (good_remove (dead i n)) with (emit_below := do_emit body dm depth') (this := this)
      (key := key) (i := id it) (meta := true) (w := w) as [(H1 & H2 & H3 & H4 & H5) _];
      [by intros ? []|apply dead_change|done|done|].
    split_and!; try done; [|simpl; set_solver]. unfold consumed.
    rewrite once_calls_push, once_call_called, (proj2 (Nat.eqb_neq _ _) Hi), andb_false_r.
    simpl. rewrite Nat.add_0_r. exact H4.
Qed.

(** * The invariant *)

Definition sound (w : world) : Prop :=
  held w = ∅ ∧ wf w ∧ ∀ i, once_calls i w = if bool_decide (i ∈ fired w) then 1%nat else O.

Lemma sound_change w w' : change w w' → sound w → sound w'.
Proof.
  intros Hc (H1 & H2 & H3). split_and!.
  - by rewrite (change_held _ _ Hc).
  - by eapply change_wf.
  - intros i. by rewrite (change_once_calls _ _ _ Hc), (change_fired _ _ Hc).
Qed.

Lemma sound_consumed it this args defer w :
  sound w → once_ it = true → id it ∉ fired w → sound (consumed it this args defer w).
Proof.
  intros (H1 & H2 & H3) Ho Hf. split_and!; [done..|]. intros i. unfold consumed.
  rewrite once_calls_push, once_call_called, Ho. simpl.
  change (once_calls i (set_fired _ w)) with (once_calls i w). rewrite H3.
  destruct (Nat.eqb_spec (id it) i) as [<-|Hi].
  - rewrite bool_decide_false, bool_decide_true by set_solver. done.
  - rewrite Nat.add_0_r. by rewrite (bool_decide_ext (i ∈ fired w) (i ∈ {[id it]} ∪ fired w)) by set_solver.
Qed.

(** Consuming a once listener leaves it unfired until it is marked. *)
Lemma remove_keeps_unfired depth it this key w :
  sound w → id it ∉ fired w →
  id it ∉ fired (remove_listener_by_id (do_emit body dm depth) this key (id it) true w).1.
Proof.
  intros Hs Hf. destruct (removal_cases (do_emit body dm depth) this key (id it) true w)
    as (w1 & Hc & Hr); [by destruct Hs|].
  assert (Hs1 : sound w1) by (clear -Hs Hc; induction Hc; eauto using sound_change).
  assert (Hf1 : id it ∉ fired w1).
  { clear -Hf Hc. induction Hc as [|w1 w2 w3 H _ IH]; [done|]. apply IH. by rewrite (change_fired _ _ H). }
  destruct Hr as [->|(l & es & index & items & pos & it' & Hl & Hk & Hi & Hid & ->)]; [done|].
  set (w2 := set_lists _ w1).
  assert (Hp : ids w1 ≡ₚ id it :: ids w2).
  { rewrite <- Hid. apply ids_removed; [done|by apply find_key_lookup|done]. }
  destruct Hs1 as (H1 & (H2 & H3 & H4) & H5).
  assert (Hd : dead (id it) 0 w2).
  { rewrite Hp in H3, H4. apply NoDup_cons in H3 as [H3 _]. apply Forall_cons in H4 as [H4 _].
    split_and!; try done. change (once_calls (id it) w2) with (once_calls (id it) w1).
    rewrite H5. by rewrite bool_decide_false. }
  destruct (good_after_removal (dead (id it) 0)) with (emit_below := do_emit body dm depth)
    (this := this) (key := key) (it := Some it')
    (b := bool_decide (delete pos items = [])) (meta := true) (w := w2)
    as [(_ & _ & _ & _ & H) _]; [apply dead_change|apply good_dead|done|done].
Qed.

Lemma good_sound depth C v o args d : good sound (do_emit body dm depth C v o args d).
Proof.
  apply (good_do_emit body dm sound) with (Snap := λ _, True).
  - by intros w [].
  - apply sound_change.
  - done.
  - intros w it this args' defer (H1 & H2 & H3) _ Ho. split_and!; [done..|]. intros i.
    rewrite once_calls_push, once_call_called, Ho. simpl. rewrite Nat.add_0_r. apply H3.
  - intros depth' it this key w He Hs _ Ho Hf b _ args' defer.
    apply sound_consumed; [|done|by apply remove_keeps_unfired].
    apply (good_remove sound); [by intros ? []|apply sound_change|done|done].
Qed.

Lemma run_sound depth s : good sound (run body dm depth s).
Proof. apply good_run_script; [by intros ? []|apply sound_change|apply good_sound]. Qed.
End Listeners.

Lemma init_sound : sound init_world.
Proof.
  split_and!; [done| |].
  - repeat split; constructor.
  - intros i. by rewrite bool_decide_false by set_solver.
Qed.

(** * The properties *)

(** The log entries that call the listener [it], now or as a job. *)
Definition calls_of (it : EventItem) (e : entry) : bool :=
  match e with
  | LCall it' _ _ | LDefer it' _ _ => bool_decide (it' = it)
  | _ => false
  end.

(** C7. A listener registered with [once] is called at most once, whatever the
    listeners do: emit the same event again from inside, remove and add
    listeners, throw, or catch what another one throws. *)
Theorem once_called_once body dm depth s it :
  once_ it = true →
  (length (filter (λ e, calls_of it e = true) (log (run body dm depth s init_world).1)) ≤ 1)%nat.
Proof.
  intros Ho. destruct (run_sound body dm depth s init_world init_sound) as [(_ & _ & H) _].
  specialize (H (id it)). unfold once_calls in H.
  assert (Hle : ∀ l, (length (filter (λ e, calls_of it e = true) l) ≤
    length (filter (λ e, once_call (id it) e = true) l))%nat).
  { induction l as [|e l IH]; [done|]. rewrite !filter_cons.
    destruct (calls_of it e) eqn:Hc.
    - assert (once_call (id it) e = true) as ->.
      { destruct e; try done; apply bool_decide_eq_true in Hc; subst; simpl;
          by rewrite Ho, Nat.eqb_refl. }
      rewrite !decide_True by done. cbn [length]. lia.
    - rewrite decide_False by done. destruct (decide (once_call _ e = true)); cbn [length]; lia. }
  rewrite Hle, H. case_bool_decide; lia.
Qed.

(** However listeners re-enter, every event list keeps one entry per key,
    with at least one listener, every listener keeps an id of its own, and no
    call deadlocks on the lock of a list. *)
Theorem emitter_well_formed body dm depth s :
  let r := run body dm depth s init_world in
  Forall (λ es, NoDup es.*1 ∧ Forall (λ e : EventKey * list EventItem, e.2 ≠ []) es) (lists r.1) ∧
  NoDup (ids r.1) ∧ held r.1 = ∅ ∧ r.2 ≠ Fault Deadlock.
Proof.
  destruct (run_sound body dm depth s init_world init_sound) as [(H1 & (H2 & H3 & _) & _) H4].
  split_and!; try done. intros Hd. by apply (H4 Deadlock).
Qed.

(** ** Order *)

(** The log grows and fired listeners stay fired. *)
Definition after (w0 : world) (w : world) : Prop :=
  held w = ∅ ∧ log w0 `prefix_of` log w ∧ fired w0 ⊆ fired w.

Lemma after_change w0 w w' : change w w' → after w0 w → after w0 w'.
Proof.
  intros Hc (H1 & H2 & H3). split_and!.
  - by rewrite (change_held _ _ Hc).
  - destruct Hc; simpl; try done; by apply prefix_app_r.
  - by rewrite (change_fired _ _ Hc).
Qed.

Lemma after_trans w0 w1 w2 : after w0 w1 → after w1 w2 → after w0 w2.
Proof. intros (_ & H1 & H2) (H & H3 & H4). split_and!; [done|by etrans|set_solver]. Qed.

Section Order.
Context (body : nat → nat → list jsval → list entry → script) (dm : jsval).

Lemma good_after w0 depth C v o args d : good (after w0) (do_emit body dm depth C v o args d).
Proof.
  apply (good_do_emit body dm (after w0)) with (Snap := λ _, True).
  - by intros w [].
  - apply after_change.
  - done.
  - intros w it this args' defer (H1 & H2 & H3) _ _. split_and!; [done| |done]. simpl. by apply prefix_app_r.
  - intros depth' it this key w He Ha _ _ _ b _ args' defer.
    destruct (good_remove (after w0)) with (emit_below := do_emit body dm depth') (this := this)
      (key := key) (i := id it) (meta := true) (w := w) as [(H1 & H2 & H3) _];
      [by intros ? []|apply after_change|done|done|].
    split_and!; [done|simpl; by apply prefix_app_r|simpl; set_solver].
Qed.

Lemma invoke_after depth it this args defer w w' r :
  held w = ∅ → invoke body dm (do_emit body dm depth) it this args defer w = (w', r) →
  after (push_log (called it this args defer) w) w'.
Proof.
  intros Hh H. set (w1 := push_log _ _).
  destruct (invoke_good body dm (after w1)) with (emit_below := do_emit body dm depth)
    (it := it) (this := this) (args := args) (defer := defer) (w := w) as [H1 _].
  - by intros ? [].
  - apply after_change.
  - apply good_after.
  - split_and!; done.
  - by rewrite H in H1.
Qed.

(** The calls of the ordinary listeners of a snapshot, and its once listeners. *)
Definition ordinary_calls (this : nat) (args : list jsval) (defer : bool) (items : list EventItem) :
    list entry :=
  (λ it, called it this args defer) <$> filter (λ it, once_ it = false) items.
Definition once_fired (items : list EventItem) (w : world) : Prop :=
  Forall (λ it, once_ it = true → id it ∈ fired w) items.

Lemma once_fired_after items w w' : after w w' → once_fired items w → once_fired items w'.
Proof.
  intros (_ & _ & Hf) H. eapply Forall_impl; [exact H|]. simpl. intros it Hi Ho. set_solver.
Qed.


(** One call and the rest of the loop. *)
Lemma called_then it this args defer rest w w1 w2 new :
  after (push_log (called it this args defer) w) w1 → log w2 = log w1 ++ new →
  ordinary_calls this args defer rest `sublist_of` new →
  ∃ new', log w2 = log w ++ new' ∧
    called it this args defer :: ordinary_calls this args defer rest `sublist_of` new'.
Proof.
  intros (_ & [l Hl] & _) H2 Hs. rewrite H2, Hl. simpl. eexists. rewrite <- !app_assoc.
  split; [done|]. simpl. apply sublist_skip. by apply sublist_inserts_l.
Qed.

Lemma emit_loop_order depth this key args defer items w w' :
  held w = ∅ →
  emit_loop body dm (do_emit body dm depth) this key args defer items w = (w', Returns ()) →
  after w w' ∧ once_fired items w' ∧
  ∃ new, log w' = log w ++ new ∧ ordinary_calls this args defer items `sublist_of` new.
Proof.
  revert w. induction items as [|it rest IH]; intros w Hh H; simpl in H.
  { unfold ret in H. simplify_eq. split_and!; [done|constructor|]. exists []. by rewrite app_nil_r. }
  assert (Ha0 : after w w) by by split_and!.
  unfold ordinary_calls, once_fired. rewrite filter_cons. destruct (once_ it) eqn:Ho.
  - rewrite decide_False by done. rewrite (bind_returns (gets _) _ w w _ eq_refl) in H.
    case_bool_decide as Hf.
    { destruct (IH w Hh H) as (H1 & H2 & H3). split_and!; try done. constructor; [|done].
      intros _. destruct H1 as (_ & _ & H1). set_solver. }
    destruct (good_remove (after w)) with (emit_below := do_emit body dm depth) (this := this)
      (key := key) (i := id it) (meta := true) (w := w) as [Hr _];
      [by intros ? []|apply after_change|apply good_after|done|].
    unfold bind at 1 in H. destruct (remove_listener_by_id _ _ _ _ _ w) as [w1 []]; try done.
    rewrite (bind_returns (modify _) _ w1 _ _ eq_refl) in H. simpl in Hr.
    set (w2 := set_fired ({[id it]} ∪ fired w1) w1) in *.
    unfold bind at 1 in H. destruct (invoke _ _ _ _ _ _ _ w2) as [w3 r] eqn:Hi.
    destruct r; try done. apply invoke_after in Hi; [|by destruct Hr].
    assert (Ha : after w w3 ∧ id it ∈ fired w3).
    { destruct Hr as (R1 & R2 & R3), Hi as (I1 & I2 & I3). simpl in *.
      split; [split_and!; [done| |set_solver]|set_solver].
      etrans; [exact R2|]. etrans; [|exact I2]. by exists [called it this args defer]. }
    destruct (IH w3 (proj1 (proj1 Ha)) H) as (H1 & H2 & new & H3 & H4). split_and!.
    + by eapply after_trans; [apply Ha|].
    + constructor; [|done]. intros _. destruct H1 as (_ & _ & H1). set_solver.
    + destruct Ha as [(_ & [l Hl] & _) _]. exists (l ++ new). rewrite H3, Hl, app_assoc.
      split; [done|]. by apply sublist_inserts_l.
  - rewrite decide_True by done. simpl.
    unfold bind at 1 in H. destruct (invoke _ _ _ _ _ _ _ w) as [w3 r] eqn:Hi.
    destruct r; try done. apply invoke_after in Hi; [|done].
    assert (Ha : after w w3).
    { destruct Hi as (I1 & I2 & I3). split_and!; [done| |done]. etrans; [|exact I2]. by exists [called it this args defer]. }
    destruct (IH w3 (proj1 Ha) H) as (H1 & H2 & new & H3 & H4). split_and!.
    + by eapply after_trans.
    + constructor; [congruence|done].
    + by eapply called_then.
Qed.

(** C34. [emit] on a native emitter says whether the event has listeners; when
    it returns it has called every ordinary listener the event had at the time of
    the call, in order, though listeners may have been removed or added in
    between, and has consumed the once listeners. *)
Theorem emit_calls_snapshot depth C v key this l args w w' b :
  sound w → native_events C this w = Some l → from_value v = Returns key →
  do_emit body dm depth C v this args false w = (w', Returns b) →
  let items := items_of key (default [] (lists w !! l)) in
  b = negb (bool_decide (items = [])) ∧
  once_fired items w' ∧
  ∃ new, log w' = log w ++ new ∧
    (λ it, LCall it this args) <$> filter (λ it, once_ it = false) items `sublist_of` new.
Proof.
  intros (Hh & (Hwf & _) & _) Hn Hk H. destruct depth as [|depth]; [done|]. simpl in H.
  unfold emit_body in H.
  rewrite (bind_returns _ _ w w l) in H by (unfold resolve_events_from, bind, gets; by rewrite Hn).
  rewrite bind_lock in H by done. unfold key_of_locked in H. rewrite Hk in H.
  rewrite (bind_returns (ret key) _ _ _ _ eq_refl), bind_get_list in H.
  change (lists (set_held {[l]} w)) with (lists w) in H. set (es := default [] (lists w !! l)) in *.
  intros items. unfold items, items_of.
  destruct (find_key key es) as [[index its]|] eqn:Hf; rewrite bind_unlock in H by done.
  - unfold bind, ret in H. destruct (emit_loop _ _ _ _ _ _ _ its w) as [w1 r] eqn:Hl.
    destruct r as [[]| |]; simplify_eq. apply emit_loop_order in Hl as (_ & H2 & H3); [|done].
    split_and!; [|done|done]. rewrite bool_decide_false; [done|]. apply find_key_lookup in Hf.
    unfold es in Hf. destruct (lists w !! l) as [es'|] eqn:Hes; [|done].
    eapply Forall_lookup_1 in Hwf as [_ Hwf]; [|done]. by apply (Forall_lookup_1 _ _ _ _ Hwf Hf).
  - unfold ret in H. simplify_eq. split_and!; [done|constructor|]. exists []. by rewrite app_nil_r.
Qed.
End Order.
