(* ===== verification/EventRef.v ===== *)
(** Runs of the emitter model: the scenarios of [tests/unit/events.test.ts],
    the witnesses of the properties, and what happens to once listeners and
    [removeAllListeners] on the other native classes. *)

From S2P Require Import Prelude Effects Events EventProofs.

Definition x : jsval := VString (bs "x").
Definition removeListener : jsval := VString (bs "removeListener").

Definition calls (w : world) : list (nat * list jsval) :=
  omap (λ e, match e with LCall it _ args => Some (callback it, args) | _ => None end) (log w).

Fixpoint calls_in_order (cs : list cmd) : script :=
  match cs with [] => Return | c :: cs => Call c (λ _, calls_in_order cs) end.

(** Listener 1 emits [x] again the first two times it runs, listener 2 removes
    listener 3, listener 9 throws, the others return. *)
Definition demo (f this : nat) (args : list jsval) (past : list entry) : script :=
  match f with
  | 1%nat =>
      if (length (filter (λ e, calls_of (mkItem 1 1 false) e = true) past) <? 2)%nat
      then Call (Emit CEventEmitter this x []) (λ _, Return) else Return
  | 2%nat => Call (RemoveListener CEventEmitter this x 3) (λ _, Return)
  | 9%nat => Throw (Thrown VUndefined)
  | _ => Return
  end.

Definition demo_run (cs : list cmd) : world * outcome exn fault () :=
  run demo VUndefined 8 (calls_in_order cs) init_world.

Definition Ee := CEventEmitter.

(** A once listener among re-entrant emits. *)
Example reentrant_once :
  calls (demo_run [New (Some Ee) None; On Ee 0 x 1; Once Ee 0 x 4; Emit Ee 0 x []]).1 =
  [(1, []); (1, []); (1, []); (4, [])]%nat.
Proof. vm_compute. reflexivity. Qed.

Lemma once_called_once_witness :
  (length (filter (λ e, calls_of (mkItem 2 4 true) e = true)
     (log (demo_run [New (Some Ee) None; On Ee 0 x 1; Once Ee 0 x 4; Emit Ee 0 x []]).1)) ≤ 1)%nat.
Proof.
  apply (once_called_once demo VUndefined 8
    (calls_in_order [New (Some Ee) None; On Ee 0 x 1; Once Ee 0 x 4; Emit Ee 0 x []])
    (mkItem 2 4 true)). reflexivity.
Defined.

(** Listener 2 removes listener 3 and listener 4 is a once listener: both are
    called. *)
Definition before : world := Eval vm_compute in
  (demo_run [New (Some Ee) None; On Ee 0 x 2; On Ee 0 x 3; Once Ee 0 x 4]).1.
Definition emitted : world := Eval vm_compute in
  (do_emit demo VUndefined 8 Ee x 0 [] false before).1.

Lemma before_sound : sound before.
Proof.
  apply (run_sound demo VUndefined 8
    (calls_in_order [New (Some Ee) None; On Ee 0 x 2; On Ee 0 x 3; Once Ee 0 x 4])
    init_world init_sound).
Qed.

Lemma emit_calls_snapshot_witness :
  let items := [mkItem 1 2 false; mkItem 2 3 false; mkItem 3 4 true] in
  true = negb (bool_decide (items = [])) ∧ once_fired items emitted ∧
  ∃ new, log emitted = log before ++ new ∧
    [LCall (mkItem 1 2 false) 0 []; LCall (mkItem 2 3 false) 0 []] `sublist_of` new.
Proof.
  apply (emit_calls_snapshot demo VUndefined 8 Ee x (KString (bs "x")) 0 0 [] before emitted true);
    [apply before_sound|reflexivity|reflexivity|vm_compute; reflexivity].
Defined.

(** ** The unit tests *)

Example two_once_same_callback :
  calls (demo_run [New (Some Ee) None; Once Ee 0 x 4; Once Ee 0 x 4; Emit Ee 0 x []; Emit Ee 0 x []]).1 =
  [(4, []); (4, [])]%nat.
Proof. vm_compute. reflexivity. Qed.

Example remove_most_recent :
  calls (demo_run [New (Some Ee) None; On Ee 0 x 4; On Ee 0 x 5; On Ee 0 x 4;
    RemoveListener Ee 0 x 4; Emit Ee 0 x []]).1 = [(4, []); (5, [])]%nat.
Proof. vm_compute. reflexivity. Qed.

Example remove_all_reverse :
  calls (demo_run [New (Some Ee) None; On Ee 0 removeListener 8; PrependListener Ee 0 x 6;
    On Ee 0 x 4; On Ee 0 x 5; RemoveAllListeners Ee 0 (Some x)]).1 =
  [(8, [x; VFunction 5]); (8, [x; VFunction 4]); (8, [x; VFunction 6])]%nat.
Proof. vm_compute. reflexivity. Qed.

Example remove_all_then_removeListener :
  let w := (demo_run [New (Some Ee) None; On Ee 0 removeListener 8; On Ee 0 x 4;
    On Ee 0 (VString (bs "y")) 5; RemoveAllListeners Ee 0 None]).1 in
  calls w = [(8, [x; VFunction 4]); (8, [VString (bs "y"); VFunction 5])]%nat ∧ lists w = [[]].
Proof. vm_compute. split; reflexivity. Qed.

(** A listener that throws while a once listener is being removed: the once
    listener is gone, not marked and not called. *)
Example throw_while_removing :
  let w := (demo_run [New (Some Ee) None; On Ee 0 removeListener 9; Once Ee 0 x 4;
    Emit Ee 0 x []; Emit Ee 0 x []]).1 in
  calls w = [(9, [x; VFunction 4])]%nat ∧ fired w = ∅.
Proof. vm_compute. split; reflexivity. Qed.

(** ** Other native classes *)

(** [remove_listener_by_id] resolves the list with [resolve_events], which knows
    [EventEmitter] and [EventTarget] only.  On any other class it finds, or
    makes, the empty hidden list: [removeAllListeners] removes nothing. *)
Example remove_all_misses_other_classes :
  let w := (demo_run [New (Some (CPlain 0)) None; On (CPlain 0) 0 x 4;
    RemoveAllListeners (CPlain 0) 0 (Some x); RemoveAllListeners (CPlain 0) 0 None;
    Emit (CPlain 0) 0 x []]).1 in
  calls w = [(4, [])]%nat ∧ lists w !! O = Some [(KString (bs "x"), [mkItem 1 4 false])].
Proof. vm_compute. split; reflexivity. Qed.

(** A once listener on such a class stays in the list, no [removeListener] is
    emitted, and a stream goes on flowing to it though it is not called again. *)
Example once_stays_on_other_classes :
  let data := VString (bs "data") in
  let w := (demo_run [New (Some (CReadable 0)) None; On (CReadable 0) 0 removeListener 8;
    Once (CReadable 0) 0 data 4; Emit (CReadable 0) 0 data []; Emit (CReadable 0) 0 data []]).1 in
  calls w = [(4, [])]%nat ∧
  (listener_count (CReadable 0) 0 data w).2 = Returns 1%nat ∧
  inner <$> objects w !! O = Some (mkReadable Flowing (Some (bs "data"))).
Proof. vm_compute. repeat split; reflexivity. Qed.

(** The same stream after [off]: the key goes and the stream pauses. *)
Example off_pauses :
  let data := VString (bs "data") in
  let w := (demo_run [New (Some (CReadable 0)) None; On (CReadable 0) 0 data 4;
    RemoveListener (CReadable 0) 0 data 4]).1 in
  inner <$> objects w !! O = Some (mkReadable Paused None).
Proof. vm_compute. reflexivity. Qed.

(** [dispatchEvent] of something without a [type] panics. *)
Example dispatch_without_type :
  (demo_run [New (Some CEventTarget) None; DispatchEvent CEventTarget 0 VUndefined None]).2 = Fault UnwrapNone.
Proof. vm_compute. reflexivity. Qed.
