(* ===== verification/BytearrayBuffer.v ===== *)
(** The byte queue between a stream's reader and JavaScript
    ([libs/raster_runtime_utils/src/bytearray_buffer.rs]): writers that wait for
    room, and the reads, closes and clears that wake them.

    A buffer's tasks run on one thread and interleave where they await.  The
    only await that can block is that of [notify]: [write_semaphore] has one
    permit and [let _ = ..] drops it in the statement that acquires it, so it is
    always free and is not part of the state.  [Notify] keeps the waiting tasks
    in order, or one permit.  A writer may be dropped while it waits. *)

From S2P Require Import Prelude.

(** The capacity of a [VecDeque]: [with_capacity n] has room for [n], and
    [reserve] gives room for [n] elements in all and never shrinks. *)
Class VecDeque := {
  alloc : nat → nat;
  grow : nat → nat → nat;
  alloc_ge n : (n ≤ alloc n)%nat;
  grow_ge c n : (n ≤ grow c n)%nat;
  grow_keeps c n : (c ≤ grow c n)%nat;
}.

(** [inner] and [capacity] are the [VecDeque].  [committed] and [taken] are the
    bytes that ever went in and out, in order. *)
Record buf := mkBuf {
  inner : list Z;
  capacity : nat;
  max_capacity : nat;
  len : nat;
  closed : bool;
  permit : bool;
  waiters : list nat;
  committed : list Z;
  taken : list Z;
}.

(** A call of [write] or [write_consuming]: [item] is the slice, and
    [slice_index] how much of it is committed; [write_consuming] drains [item],
    which [source] remembers. *)
Inductive kind := Write | WriteConsuming.
Inductive phase := Ready | Waiting | Notified | Returned (n : nat) | Dropped.
#[export] Instance phase_eq_dec : EqDecision phase.
Proof. solve_decision. Defined.
Record task := mkTask {
  t_kind : kind;
  source : list Z;
  slice_index : nat;
  t_phase : phase;
}.
Definition item (t : task) : list Z := drop (slice_index t) (source t).
Definition written (t : task) : list Z := take (slice_index t) (source t).

Record sys := mkSys { buffer : buf; tasks : list task }.

Definition set_inner (l : list Z) (c n : nat) (b : buf) : buf :=
  mkBuf l c (max_capacity b) n (closed b) (permit b) (waiters b) (committed b) (taken b).
Definition set_max (c m : nat) (b : buf) : buf :=
  mkBuf (inner b) c m (len b) (closed b) (permit b) (waiters b) (committed b) (taken b).
Definition set_closed (x : bool) (b : buf) : buf :=
  mkBuf (inner b) (capacity b) (max_capacity b) (len b) x (permit b) (waiters b) (committed b) (taken b).
Definition set_notify (p : bool) (ws : list nat) (b : buf) : buf :=
  mkBuf (inner b) (capacity b) (max_capacity b) (len b) (closed b) p ws (committed b) (taken b).
Definition set_history (c t : list Z) (b : buf) : buf :=
  mkBuf (inner b) (capacity b) (max_capacity b) (len b) (closed b) (permit b) (waiters b) c t.

Definition set_phase (p : phase) (t : task) : task :=
  mkTask (t_kind t) (source t) (slice_index t) p.
Definition set_index (n : nat) (t : task) : task := mkTask (t_kind t) (source t) n (t_phase t).

Section Buffer.
Context `{VecDeque}.

Definition reserve (additional : nat) (b : buf) : nat :=
  let n := (length (inner b) + additional)%nat in
  if (n <=? capacity b)%nat then capacity b else grow (capacity b) n.

Definition new (n : nat) : buf := mkBuf [] (alloc n) (alloc n) 0 false false [] [] [].

(** [inner.extend] and [len.fetch_add]. *)
Definition extend (bytes : list Z) (b : buf) : buf :=
  set_history (committed b ++ bytes) (taken b)
    (set_inner (inner b ++ bytes) (reserve (length bytes) b) (len b + length bytes) b).

(** The first [n] bytes of the queue, and the rest. *)
Definition drain (n : nat) (b : buf) : buf :=
  set_history (committed b) (taken b ++ take n (inner b))
    (set_inner (drop n (inner b)) (capacity b) (length (drop n (inner b))) b).

(** [notify_one]: the first waiting task, or the permit. *)
Definition notify_one (s : sys) : sys :=
  match waiters (buffer s) with
  | [] => mkSys (set_notify true [] (buffer s)) (tasks s)
  | i :: ws =>
      mkSys (set_notify (permit (buffer s)) ws (buffer s)) (alter (set_phase Notified) i (tasks s))
  end.

Definition write_forced (bytes : list Z) (b : buf) : buf :=
  let b := extend bytes b in set_max (capacity b) (capacity b) b.

(** The loop of [write], up to its return or a [notified] that blocks; a
    permit lets it go round again. *)
Fixpoint write (fuel : nat) (t : task) (b : buf) : res () (buf * task) :=
  match fuel with
  | O => Panic
  | S fuel =>
      if closed b then Ok (b, set_phase (Returned (max_capacity b)) t)
      else if (max_capacity b <? len b)%nat then Panic
      else
        let available := (max_capacity b - len b)%nat in
        let notified t b :=
          if permit b then write fuel t (set_notify false (waiters b) b)
          else Ok (b, set_phase Waiting t) in
        if (0 <? available)%nat then
          if (length (source t) =? 0)%nat then Panic
          else
            let end_index := Nat.min (length (source t) - 1) (slice_index t + available - 1) in
            if (end_index + 1 <? slice_index t)%nat then Panic
            else
              let sub_slice := take (end_index + 1 - slice_index t) (item t) in
              let b' := extend sub_slice b in
              let t := set_index (slice_index t + length sub_slice) t in
              if (slice_index t =? length (source t))%nat
              then Ok (b', set_phase (Returned (max_capacity b)) t)
              else notified t b'
        else notified t b
  end.

Fixpoint write_consuming (fuel : nat) (t : task) (b : buf) : res () (buf * task) :=
  match fuel with
  | O => Panic
  | S fuel =>
      if closed b then Ok (b, set_phase (Returned (max_capacity b)) t)
      else if (length (item t) =? 0)%nat then Ok (b, set_phase (Returned (max_capacity b)) t)
      else
        let available := (max_capacity b - len b)%nat in
        let notified t b :=
          if permit b then write_consuming fuel t (set_notify false (waiters b) b)
          else Ok (b, set_phase Waiting t) in
        if (0 <? available)%nat then
          let n := Nat.min (length (item t)) available in
          let chunk := take n (item t) in
          let b' := extend chunk b in
          let t := set_index (slice_index t + length chunk) t in
          if (length (item t) =? 0)%nat then Ok (b', set_phase (Returned (max_capacity b)) t)
          else notified t b'
        else notified t b
  end.

(** A second turn is the last: a writer goes round again with a full queue. *)
Definition turns : nat := 2.

Definition step_task (t : task) : buf → res () (buf * task) :=
  match t_kind t with Write => write turns t | WriteConsuming => write_consuming turns t end.

(** Polling a task that runs or was woken; a waiting one is put in the queue. *)
Definition poll (i : nat) (s : sys) : res () sys :=
  match tasks s !! i with
  | Some t =>
      match t_phase t with
      | Ready | Notified =>
          '(b, t) ← step_task t (buffer s);
          let ws := match t_phase t with Waiting => waiters b ++ [i] | _ => waiters b end in
          Ok (mkSys (set_notify (permit b) ws b) (<[i := t]> (tasks s)))
      | _ => Ok s
      end
  | None => Ok s
  end.

(** Dropping a writer's future: a notification it has not used passes on. *)
Definition forget (i : nat) (s : sys) : sys :=
  mkSys (set_notify (permit (buffer s)) (filter (λ j, j ≠ i) (waiters (buffer s))) (buffer s))
    (alter (set_phase Dropped) i (tasks s)).
Definition cancel (i : nat) (s : sys) : sys :=
  match t_phase <$> tasks s !! i with
  | Some Ready | Some Waiting => forget i s
  | Some Notified => notify_one (forget i s)
  | _ => s
  end.

Definition on_buffer (f : buf → buf) (s : sys) : sys := mkSys (f (buffer s)) (tasks s).

Definition close (s : sys) : sys := notify_one (on_buffer (set_closed true) s).

Definition clear (s : sys) : sys :=
  on_buffer (set_closed false ∘ drain (length (inner (buffer s))))
    (notify_one (on_buffer (set_closed false) s)).

Definition read (desired_size : option nat) (s : sys) : sys * option (list Z) :=
  let b := buffer s in
  let take_out n := (notify_one (on_buffer (drain n) s), Some (take n (inner b))) in
  if closed b then take_out (length (inner b))
  else
    match desired_size with
    | Some desired_len =>
        if (max_capacity b <? desired_len)%nat then
          let diff := (desired_len - max_capacity b)%nat in
          let c := reserve (diff - 1) b in
          let c := if (c <? desired_len)%nat
                   then reserve (desired_len - c) (set_max c (max_capacity b) b) else c in
          (notify_one (on_buffer (set_max c c) s), None)
        else if (len b <? desired_len)%nat then (notify_one s, None)
        else take_out desired_len
    | None => take_out (length (inner b))
    end.

(** * What the program does with a buffer *)

Inductive op :=
  | Spawn (k : kind) (bytes : list Z)
  | Poll (i : nat)
  | Cancel (i : nat)
  | Read (desired_size : option nat)
  | Close
  | Clear
  | Forced (bytes : list Z).

Definition exec (o : op) (s : sys) : res () sys :=
  match o with
  | Spawn k bytes => Ok (mkSys (buffer s) (tasks s ++ [mkTask k bytes 0 Ready]))
  | Poll i => poll i s
  | Cancel i => Ok (cancel i s)
  | Read d => Ok (read d s).1
  | Close => Ok (close s)
  | Clear => Ok (clear s)
  | Forced bytes => Ok (on_buffer (write_forced bytes) s)
  end.

Fixpoint exec_all (os : list op) (s : sys) : res () sys :=
  match os with [] => Ok s | o :: os => exec o s ≫= exec_all os end.

Definition start (n : nat) : sys := mkSys (new n) [].
End Buffer.
