(* ===== verification/BufferProofs.v ===== *)
(** The byte queue: its bounds, that bytes come out in the order they went in,
    and that a writer finishes when the queue is read. *)

From S2P Require Import Prelude BytearrayBuffer.

(** [len] counts the queue, the queue fits, and what went in is what came out
    and what is still there. *)
Record buf_ok (b : buf) : Prop := {
  len_inner : len b = length (inner b);
  len_max : (len b ≤ max_capacity b)%nat;
  max_fits : (max_capacity b ≤ capacity b)%nat;
  fifo : committed b = taken b ++ inner b;
}.

Definition task_ok (t : task) : Prop :=
  (slice_index t ≤ length (source t))%nat ∧ (t_kind t = Write → source t ≠ []).

Definition full (b : buf) : Prop := len b = max_capacity b.

(** One call of the loop: it commits the next bytes of the item, and blocks only
    on a full open queue. *)
Record turn (b : buf) (t : task) (b' : buf) (t' : task) : Prop := {
  turn_buf : buf_ok b';
  turn_task : task_ok t';
  turn_kind : t_kind t' = t_kind t;
  turn_source : source t' = source t;
  turn_index : (slice_index t ≤ slice_index t')%nat;
  turn_committed : committed b' = committed b ++ take (slice_index t' - slice_index t) (item t);
  turn_taken : taken b' = taken b;
  turn_waiters : waiters b' = waiters b;
  turn_closed : closed b' = closed b;
  turn_max : max_capacity b' = max_capacity b;
  turn_phase :
    (t_phase t' = Waiting ∧ item t' ≠ [] ∧ full b' ∧ closed b' = false) ∨
    (∃ n, t_phase t' = Returned n ∧ (closed b' = true ∨ item t' = []));
}.

Section Proofs.
Context `{VecDeque}.

Lemma reserve_ge n b : (length (inner b) + n ≤ reserve n b)%nat.
Proof. unfold reserve. case_match; bool_to_prop; [done|]. apply grow_ge. Qed.
Lemma reserve_keeps n b : (capacity b ≤ reserve n b)%nat.
Proof. unfold reserve. case_match; [done|]. apply grow_keeps. Qed.

Lemma new_ok n : buf_ok (new n).
Proof. split; simpl; try done. lia. Qed.

Lemma extend_ok bytes b :
  buf_ok b → (len b + length bytes ≤ max_capacity b)%nat → buf_ok (extend bytes b).
Proof.
  intros [H1 H2 H3 H4] Hb. split; simpl.
  - rewrite length_app. lia.
  - done.
  - etrans; [exact H3|apply reserve_keeps].
  - by rewrite H4, app_assoc.
Qed.

Lemma forced_ok bytes b : buf_ok b → buf_ok (write_forced bytes b).
Proof.
  intros [H1 H2 H3 H4]. split; simpl; [rewrite length_app; lia| |done|by rewrite H4, app_assoc].
  rewrite H1. apply reserve_ge.
Qed.

Lemma drain_ok n b : buf_ok b → buf_ok (drain n b).
Proof.
  intros [H1 H2 H3 H4]. split; simpl; try done.
  - rewrite length_drop. lia.
  - by rewrite H4, <- app_assoc, take_drop.
Qed.

(** What is not read by [buf_ok] may change. *)
Lemma notify_fields_ok p ws b : buf_ok b → buf_ok (set_notify p ws b).
Proof. by intros [H1 H2 H3 H4]; split. Qed.
Lemma closed_ok x b : buf_ok b → buf_ok (set_closed x b).
Proof. by intros [H1 H2 H3 H4]; split. Qed.
Lemma set_max_ok c b : (capacity b ≤ c)%nat → buf_ok b → buf_ok (set_max c c b).
Proof. intros Hc [H1 H2 H3 H4]. split; simpl; try done. lia. Qed.

Lemma item_index n t : item (set_index (slice_index t + n) t) = drop n (item t).
Proof. unfold item. simpl. by rewrite drop_drop. Qed.

Lemma length_item t : length (item t) = (length (source t) - slice_index t)%nat.
Proof. apply length_drop. Qed.

Lemma item_nil t : task_ok t → slice_index t = length (source t) ↔ item t = [].
Proof.
  intros [Ht _]. rewrite <- length_zero_iff_nil, length_item. lia.
Qed.

(** A turn that commits nothing, and one that commits [n] bytes. *)
Lemma turn_nothing b t p :
  buf_ok b → task_ok t →
  (p = Waiting ∧ item t ≠ [] ∧ full b ∧ closed b = false) ∨ (∃ n, p = Returned n ∧ (closed b = true ∨ item t = [])) →
  turn b t b (set_phase p t).
Proof.
  intros Hb Ht Hp. split; try done; simpl; try lia. by rewrite Nat.sub_diag, app_nil_r.
Qed.

Lemma turn_commit b t n p :
  buf_ok b → task_ok t → (n ≤ length (item t))%nat → (len b + n ≤ max_capacity b)%nat →
  closed b = false →
  (p = Waiting ∧ n ≠ length (item t) ∧ (len b + n)%nat = max_capacity b) ∨ (∃ m, p = Returned m ∧ n = length (item t)) →
  turn b t (extend (take n (item t)) b) (set_phase p (set_index (slice_index t + n) t)).
Proof.
  intros Hb [Ht Hk] Hn Hm Hc Hp. assert (Hl : length (take n (item t)) = n) by (rewrite length_take; lia).
  rewrite length_item in Hn. split; simpl; try done.
  - apply extend_ok; [done|]. by rewrite Hl.
  - split; [simpl; lia|done].
  - lia.
  - do 2 f_equal. lia.
  - destruct Hp as [(-> & Hne & Hf)|(m & -> & Hn')]; [left|right].
    + split_and!; [done| | |done]; [|unfold full; simpl; by rewrite Hl].
      intros Hi%length_zero_iff_nil. rewrite length_item in Hi, Hne. simpl in Hi. lia.
    + exists m. split; [done|]. right. apply length_zero_iff_nil. rewrite length_item. simpl.
      rewrite length_item in Hn'. lia.
Qed.

(** A permit used on the way. *)
Lemma turn_permit p b t b' t' : turn b t b' t' → turn b t (set_notify p (waiters b') b') t'.
Proof. intros []. split; try done. by apply notify_fields_ok. Qed.

(** On a full open queue a writer waits, at once or after using the permit. *)
Lemma write_full fuel t b :
  buf_ok b → closed b = false → full b → permit b = false →
  write (S fuel) t b = Ok (b, set_phase Waiting t).
Proof.
  intros Hb Hc Hf Hp. simpl. rewrite Hc, Hf, Nat.ltb_irrefl, Nat.sub_diag, Hp. done.
Qed.

Lemma write_consuming_full fuel t b :
  closed b = false → full b → permit b = false → item t ≠ [] →
  write_consuming (S fuel) t b = Ok (b, set_phase Waiting t).
Proof.
  intros Hc Hf Hp Hi. simpl. rewrite Hc, Hf, Nat.sub_diag, Hp.
  by rewrite (proj2 (Nat.eqb_neq _ _)) by by rewrite length_zero_iff_nil.
Qed.

Lemma write_turn t b :
  buf_ok b → task_ok t → item t ≠ [] → t_kind t = Write →
  ∃ b' t', write turns t b = Ok (b', t') ∧ turn b t b' t'.
Proof.
  intros Hb Ht Hi Hk. unfold turns.
  assert (Hlen : (slice_index t < length (source t))%nat).
  { assert (Hl := length_item t). destruct (item t); [done|]. simpl in Hl. lia. }
  destruct (closed b) eqn:Hc.
  { exists b, (set_phase (Returned (max_capacity b)) t). simpl. rewrite Hc. split; [done|].
    apply turn_nothing; [done..|]. right. eauto. }
  assert (Hm := len_max b Hb). remember 1%nat as fuel eqn:Hfuel. simpl. rewrite Hc.
  rewrite (proj2 (Nat.ltb_ge _ _)) by done.
  destruct (Nat.ltb_spec 0 (max_capacity b - len b)).
  - rewrite (proj2 (Nat.eqb_neq _ _)) by lia.
    set (e := Nat.min _ _). rewrite (proj2 (Nat.ltb_ge _ _)) by lia.
    set (n := (e + 1 - slice_index t)%nat).
    assert (Hn : n = Nat.min (length (item t)) (max_capacity b - len b))
      by (unfold n, e; rewrite length_item; lia).
    assert (Hl : length (take n (item t)) = n) by (rewrite length_take; lia).
    rewrite Hl. simpl. destruct (Nat.eqb_spec (slice_index t + n) (length (source t))) as [He|He].
    + eexists _, _. split; [done|]. apply turn_commit; try done; try lia.
      right. eexists. split; [done|]. rewrite length_item. lia.
    + assert (Hw : turn b t (extend (take n (item t)) b) (set_phase Waiting (set_index (slice_index t + n) t))).
      { apply turn_commit; try done; try lia. left. rewrite length_item in *. split_and!; [done|lia..]. }
      destruct (permit b) eqn:Hp; [|by eexists _, _].
      subst fuel. rewrite write_full; try done.
      * eexists _, _. split; [done|]. by apply (turn_permit false) in Hw.
      * apply notify_fields_ok, Hw.
      * by destruct Hw as [_ _ _ _ _ _ _ _ _ _ [(_ & _ & Hf & _)|(? & ? & _)]].
  - assert (Hf : full b) by (unfold full; lia).
    assert (Hw : turn b t b (set_phase Waiting t)) by (apply turn_nothing; auto).
    destruct (permit b) eqn:Hp; [|by eexists _, _].
    subst fuel. rewrite write_full; try done; [|by apply notify_fields_ok].
    eexists _, _. split; [done|]. by apply (turn_permit false) in Hw.
Qed.
Lemma consuming_turn t b :
  buf_ok b → task_ok t → ∃ b' t', write_consuming turns t b = Ok (b', t') ∧ turn b t b' t'.
Proof.
  intros Hb Ht. unfold turns.
  destruct (closed b) eqn:Hc.
  { exists b, (set_phase (Returned (max_capacity b)) t). simpl. rewrite Hc. split; [done|].
    apply turn_nothing; [done..|]. right. eauto. }
  assert (Hm := len_max b Hb). remember 1%nat as fuel eqn:Hfuel. simpl. rewrite Hc.
  destruct (Nat.eqb_spec (length (item t)) 0) as [Hi|Hi].
  { apply length_zero_iff_nil in Hi. eexists _, _. split; [done|]. apply turn_nothing; [done..|].
    right. eauto. }
  assert (Hi' : item t ≠ []) by (by rewrite <- length_zero_iff_nil).
  destruct (Nat.ltb_spec 0 (max_capacity b - len b)).
  - set (n := Nat.min _ _).
    assert (Hl : length (take n (item t)) = n) by (rewrite length_take; lia).
    rewrite Hl, item_index, length_drop. destruct (Nat.eqb_spec (length (item t) - n) 0) as [He|He].
    + eexists _, _. split; [done|]. apply turn_commit; try done; try lia.
      right. eexists. split; [done|]. lia.
    + assert (Hw : turn b t (extend (take n (item t)) b) (set_phase Waiting (set_index (slice_index t + n) t))).
      { apply turn_commit; try done; try lia. left. split_and!; [done|lia..]. }
      change (permit (extend (take n (item t)) b)) with (permit b).
      destruct (permit b) eqn:Hp; [|by eexists _, _].
      assert (Hf := turn_phase _ _ _ _ Hw). destruct Hf as [(_ & Hne & Hf & _)|(? & ? & _)]; [|done].
      subst fuel. rewrite write_consuming_full; try done.
      eexists _, _. split; [done|]. by apply (turn_permit false) in Hw.
  - assert (Hf : full b) by (unfold full; lia).
    assert (Hw : turn b t b (set_phase Waiting t)) by (apply turn_nothing; auto).
    destruct (permit b) eqn:Hp; [|by eexists _, _].
    subst fuel. rewrite write_consuming_full; try done.
    eexists _, _. split; [done|]. by apply (turn_permit false) in Hw.
Qed.

(** * The system *)

Definition pending (t : task) : bool :=
  match t_phase t with Ready | Waiting | Notified => true | _ => false end.

(** A writer that has not returned has something left to write, if it borrows
    its slice. *)
Definition writer_ok (t : task) : Prop :=
  task_ok t ∧ (t_kind t = Write → pending t = true → item t ≠ []).

(** The tasks in the queue of [Notify] wait. *)
Definition waits (ts : list task) (i : nat) : Prop :=
  ∃ t, ts !! i = Some t ∧ t_phase t = Waiting.

Record sys_ok (s : sys) : Prop := {
  ok_buf : buf_ok (buffer s);
  ok_tasks : Forall writer_ok (tasks s);
  ok_waiters : Forall (waits (tasks s)) (waiters (buffer s));
  ok_order : NoDup (waiters (buffer s));
}.

Lemma step_turn t b :
  buf_ok b → writer_ok t → pending t = true →
  ∃ b' t', step_task t b = Ok (b', t') ∧ turn b t b' t'.
Proof.
  intros Hb [Ht Hw] Hp. unfold step_task. destruct (t_kind t) eqn:Hk.
  - apply write_turn; auto.
  - by apply consuming_turn.
Qed.

Lemma turn_writer_ok b t b' t' : turn b t b' t' → writer_ok t'.
Proof.
  intros [? Ht _ _ _ _ _ _ _ _ [(_ & Hi & _)|(n & Hn & _)]]; split; try done.
  unfold pending. by rewrite Hn.
Qed.

Lemma writer_ok_phase p t : writer_ok t → pending t = true → writer_ok (set_phase p t).
Proof. intros [Ht Hw] Hp. split; [exact Ht|]. intros Hk _. by apply Hw. Qed.

Lemma writer_ok_dropped t : writer_ok t → writer_ok (set_phase Dropped t).
Proof. intros [Ht Hw]. by split. Qed.

Lemma waits_alter ts i j f : i ≠ j → waits ts i → waits (alter f j ts) i.
Proof. intros Hij (t' & Ht & Hp). exists t'. split; [|done]. by rewrite list_lookup_alter_ne. Qed.
Lemma waits_insert ts i j t : i ≠ j → waits ts i → waits (<[j := t]> ts) i.
Proof. intros Hij (t' & Ht & Hp). exists t'. split; [|done]. by rewrite list_lookup_insert_ne. Qed.

Lemma on_buffer_ok f s :
  (buf_ok (buffer s) → buf_ok (f (buffer s))) → waiters (f (buffer s)) = waiters (buffer s) →
  sys_ok s → sys_ok (on_buffer f s).
Proof. intros Hf Hw [H1 H2 H3 H4]. split; simpl; rewrite ?Hw; auto. Qed.

Lemma notify_one_ok s : sys_ok s → sys_ok (notify_one s).
Proof.
  intros [H1 H2 H3 H4]. unfold notify_one. destruct (waiters (buffer s)) as [|i ws] eqn:Hw.
  { split; simpl; [by apply notify_fields_ok|done|constructor|constructor]. }
  apply Forall_cons in H3 as [(t & Ht & Hp) H3]. apply NoDup_cons in H4 as [H4 H5].
  split; simpl; [by apply notify_fields_ok| | |done].
  - apply Forall_alter; [done|]. intros t' Ht'. simplify_eq.
    intros Hok. apply writer_ok_phase; [done|]. unfold pending. by rewrite Hp.
  - rewrite Forall_forall in *. intros j Hj. apply waits_alter; [by intros ->|by apply H3].
Qed.

(** What a poll does to a task that can run. *)
Definition runs (t : task) : bool := match t_phase t with Ready | Notified => true | _ => false end.

Lemma poll_cases i s :
  sys_ok s →
  (poll i s = Ok s ∧ ∀ t, tasks s !! i = Some t → runs t = false) ∨
  ∃ t b' t', tasks s !! i = Some t ∧ runs t = true ∧ turn (buffer s) t b' t' ∧
    poll i s = Ok (mkSys (set_notify (permit b')
      (match t_phase t' with Waiting => waiters b' ++ [i] | _ => waiters b' end) b')
      (<[i := t']> (tasks s))).
Proof.
  intros [H1 H2 H3 H4]. unfold poll. destruct (tasks s !! i) as [t|] eqn:Ht; [|by left].
  destruct (runs t) eqn:Hr; [right|left; unfold runs in Hr; split;
    [by destruct (t_phase t)|by intros t' [= <-]]].
  destruct (step_turn t (buffer s)) as (b' & t' & Hst & Htn);
    [done|by eapply Forall_lookup_1|unfold runs in Hr; unfold pending; by destruct (t_phase t)|].
  exists t, b', t'. split_and!; try done. rewrite Hst. unfold runs in Hr. by destruct (t_phase t).
Qed.

Lemma poll_ok i s : sys_ok s → ∃ s', poll i s = Ok s' ∧ sys_ok s'.
Proof.
  intros Hs. destruct (poll_cases i s Hs) as [[-> _]|(t & b' & t' & Ht & Hr & Htn & ->)]; [by exists s|].
  destruct Hs as [H1 H2 H3 H4]. eexists. split; [done|].
  assert (Hi : i ∉ waiters (buffer s)).
  { intros Hin. rewrite Forall_forall in H3. destruct (H3 i Hin) as (t0 & Ht' & Hp).
    simplify_eq. unfold runs in Hr. by rewrite Hp in Hr. }
  assert (Hold : Forall (waits (<[i := t']> (tasks s))) (waiters b')).
  { rewrite (turn_waiters _ _ _ _ Htn). rewrite Forall_forall in *. intros j Hj.
    apply waits_insert; [by intros ->|by apply H3]. }
  assert (Hno : NoDup (waiters b')) by by rewrite (turn_waiters _ _ _ _ Htn).
  split; simpl.
  - apply notify_fields_ok, Htn.
  - apply Forall_insert; [done|]. by eapply turn_writer_ok.
  - destruct (t_phase t') eqn:Hp; try done. apply Forall_app_2; [done|]. apply Forall_singleton.
    exists t'. split; [|done]. apply list_lookup_insert_eq. by eapply lookup_lt_Some.
  - destruct (t_phase t'); try done. apply NoDup_app. split_and!; [done| |apply NoDup_singleton].
    intros j Hj ->%list_elem_of_singleton. by rewrite (turn_waiters _ _ _ _ Htn) in Hj.
Qed.

Lemma forget_ok i s : sys_ok s → sys_ok (forget i s).
Proof.
  intros [H1 H2 H3 H4]. split; simpl; [by apply notify_fields_ok| | |by apply NoDup_filter].
  - apply Forall_alter; [done|]. intros t' Ht'. apply writer_ok_dropped.
  - rewrite Forall_forall in *. intros j [Hj Hin]%list_elem_of_filter.
    apply waits_alter; [done|by apply H3].
Qed.

Lemma cancel_ok i s : sys_ok s → sys_ok (cancel i s).
Proof.
  intros Hs. unfold cancel.
  destruct (t_phase <$> tasks s !! i) as [[]|]; auto using forget_ok, notify_one_ok.
Qed.

Lemma read_ok d s : sys_ok s → sys_ok (read d s).1.
Proof.
  intros Hs. unfold read.
  assert (Hd : ∀ n, sys_ok (notify_one (on_buffer (drain n) s))).
  { intros n. apply notify_one_ok, on_buffer_ok; [apply drain_ok|done|done]. }
  destruct (closed (buffer s)); [apply Hd|]. destruct d as [d|]; [|apply Hd].
  destruct (max_capacity (buffer s) <? d)%nat; simpl.
  { apply notify_one_ok, on_buffer_ok; [|done|done]. apply set_max_ok.
    case_match; [|apply reserve_keeps].
    etrans; [|apply reserve_keeps]. simpl. apply reserve_keeps. }
  destruct (len (buffer s) <? d)%nat; simpl; [by apply notify_one_ok|apply Hd].
Qed.

(** A [write] of nothing is the only operation that can panic. *)
Definition no_empty_write (o : op) : Prop := o ≠ Spawn Write [].

Lemma exec_ok o s : no_empty_write o → sys_ok s → ∃ s', exec o s = Ok s' ∧ sys_ok s'.
Proof.
  intros Ho Hs. destruct o as [k bytes|i|i|d| | |bytes]; simpl.
  - eexists. split; [done|]. destruct Hs as [H1 H2 H3 H4]. split; simpl; try done.
    + apply Forall_app_2; [done|]. apply Forall_singleton.
      assert (Hb : k = Write → bytes ≠ []) by (intros -> ->; by apply Ho).
      split; [split; simpl; [lia|done]|simpl; intros Hk _; by apply Hb].
    + eapply Forall_impl; [exact H3|]. intros j (t & Ht & Hp). exists t. split; [|done].
      by apply lookup_app_l_Some.
  - by apply poll_ok.
  - eexists. split; [done|]. by apply cancel_ok.
  - eexists. split; [done|]. by apply read_ok.
  - eexists. split; [done|]. apply notify_one_ok, on_buffer_ok; [apply closed_ok|done|done].
  - eexists. split; [done|]. apply on_buffer_ok; [| |apply notify_one_ok, on_buffer_ok; [apply closed_ok|done|done]].
    + intros Hb. by apply closed_ok, drain_ok.
    + done.
  - eexists. split; [done|]. apply on_buffer_ok; [apply forced_ok|done|done].
Qed.

Lemma start_ok n : sys_ok (start n).
Proof. split; simpl; [apply new_ok|constructor..]. Qed.

Lemma exec_all_ok os s :
  Forall no_empty_write os → sys_ok s → ∃ s', exec_all os s = Ok s' ∧ sys_ok s'.
Proof.
  intros Ho. revert s. induction Ho as [|o os Ho _ IH]; intros s Hs; simpl; [by exists s|].
  destruct (exec_ok o s Ho Hs) as (s' & -> & Hs'). by apply IH.
Qed.

(** * One writer at a time *)

(** Each write starts when the ones before it have returned or been dropped,
    and the queue is not closed. *)
Fixpoint serial (os : list op) (s : sys) : bool :=
  match os with
  | [] => true
  | o :: os =>
      match o with
      | Spawn _ _ => forallb (negb ∘ pending) (tasks s)
      | Close | Forced _ => false
      | _ => true
      end && match exec o s with Ok s => serial os s | _ => false end
  end.

Record serial_ok (s : sys) : Prop := {
  s_ok : sys_ok s;
  s_open : closed (buffer s) = false;
  s_committed : committed (buffer s) = concat (written <$> tasks s);
  s_last : ∀ i t, tasks s !! i = Some t → pending t = true → S i = length (tasks s);
  s_returned : ∀ i t n, tasks s !! i = Some t → t_phase t = Returned n → item t = [];
  s_waiting : ∀ i t, tasks s !! i = Some t → t_phase t = Waiting → i ∈ waiters (buffer s);
}.
Definition none_waits (s : sys) : Prop := ∀ i t, tasks s !! i = Some t → t_phase t ≠ Waiting.
Definition waits_on_full (s : sys) : Prop :=
  ∀ i t, tasks s !! i = Some t → t_phase t = Waiting → full (buffer s).

Lemma written_alter p (i : nat) (ts : list task) : written <$> alter (set_phase p) i ts = written <$> ts.
Proof. revert i. induction ts as [|t ts IH]; intros [|i]; simpl; [done..|]. f_equal. apply IH. Qed.

Lemma lookup_alter_phase p (i j : nat) (ts : list task) t :
  alter (set_phase p) i ts !! j = Some t →
  (i = j ∧ ∃ t0, ts !! j = Some t0 ∧ t = set_phase p t0) ∨ (i ≠ j ∧ ts !! j = Some t).
Proof.
  intros H1. destruct (decide (i = j)) as [->|Hij].
  - rewrite list_lookup_alter_eq in H1. apply fmap_Some in H1 as (t0 & ? & ->). eauto.
  - rewrite list_lookup_alter_ne in H1 by done. auto.
Qed.

Lemma serial_notify s : serial_ok s → serial_ok (notify_one s) ∧ none_waits (notify_one s).
Proof.
  intros Hs. assert (Hok := notify_one_ok s (s_ok s Hs)). destruct Hs as [H0 H1 H2 H3 H4 H5].
  unfold notify_one in *. destruct (waiters (buffer s)) as [|i ws] eqn:Hw.
  { split; [split; simpl; try done; by rewrite <- Hw|].
    intros i t Ht Hp. apply (H5 i t Ht) in Hp. by apply elem_of_nil in Hp. }
  destruct H0 as [_ _ Hwt Hnd]. rewrite Hw in Hwt, Hnd.
  apply Forall_cons in Hwt as [(t & Ht & Hp) Hwt]. apply NoDup_cons in Hnd as [Hnd _].
  assert (Hlast : S i = length (tasks s)) by (eapply H3; [done|unfold pending; by rewrite Hp]).
  assert (Hnone : ∀ j t', alter (set_phase Notified) i (tasks s) !! j = Some t' → t_phase t' ≠ Waiting).
  { intros j t' [(-> & t0 & _ & ->)|(Hij & Ht')]%lookup_alter_phase; [done|]. intros Hp'.
    assert (S j = length (tasks s)) by (eapply H3; [done|unfold pending; by rewrite Hp']). lia. }
  split; [|exact Hnone]. split; simpl; try done.
  - by rewrite written_alter.
  - intros j t'. rewrite length_alter.
    intros [(-> & _)|(_ & Ht')]%lookup_alter_phase Hp'; [done|by eapply H3].
  - intros j t' n [(_ & t0 & _ & ->)|(_ & Ht')]%lookup_alter_phase; [done|by apply (H4 j)].
  - intros j t' Ht' Hp'. by apply Hnone in Ht'.
Qed.

(** The buffer may change if the history of what went in does not. *)
Lemma serial_buffer f s :
  (buf_ok (buffer s) → buf_ok (f (buffer s))) → waiters (f (buffer s)) = waiters (buffer s) →
  closed (f (buffer s)) = false → committed (f (buffer s)) = committed (buffer s) →
  serial_ok s → serial_ok (on_buffer f s).
Proof.
  intros Hf Hw Hc Hh [H0 H1 H2 H3 H4 H5]. split; simpl; rewrite ?Hw, ?Hh; try done.
  by apply on_buffer_ok.
Qed.

Lemma serial_spawn k bytes s :
  no_empty_write (Spawn k bytes) → forallb (negb ∘ pending) (tasks s) = true → serial_ok s →
  waits_on_full s → ∃ s', exec (Spawn k bytes) s = Ok s' ∧ serial_ok s' ∧ waits_on_full s'.
Proof.
  intros Hne Hset Hs Hf. destruct (exec_ok _ s Hne (s_ok s Hs)) as (s' & He & Hok). exists s'.
  simpl in He. simplify_eq. split; [done|]. destruct Hs as [H0 H1 H2 H3 H4 H5].
  assert (Hn : ∀ i t, tasks s !! i = Some t → pending t = false).
  { intros i t Ht. rewrite forallb_forall in Hset. apply negb_true_iff, Hset.
    apply list_elem_of_In. by eapply list_elem_of_lookup_2. }
  split; [split; simpl; try done|]; simpl.
  - rewrite fmap_app, concat_app. simpl. by rewrite app_nil_r.
  - intros i t [Ht|[Hi Ht]]%lookup_app_Some Hp.
    + apply Hn in Ht. congruence.
    + apply list_lookup_singleton_Some in Ht as [? _]. rewrite length_app. simpl. lia.
  - intros i t n [Ht|[Hi Ht]]%lookup_app_Some Hp; [by eapply H4|].
    by apply list_lookup_singleton_Some in Ht as [_ <-].
  - intros i t [Ht|[Hi Ht]]%lookup_app_Some Hp; [by eapply H5|].
    by apply list_lookup_singleton_Some in Ht as [_ <-].
  - intros i t [Ht|[Hi Ht]]%lookup_app_Some Hp; [by eapply Hf|].
    by apply list_lookup_singleton_Some in Ht as [_ <-].
Qed.

Lemma turn_written b t b' t' :
  turn b t b' t' → written t' = written t ++ take (slice_index t' - slice_index t) (item t).
Proof.
  intros [_ [Ht _] _ Hs Hi _ _ _ _ _ _]. unfold written, item. rewrite Hs.
  replace (slice_index t') with (slice_index t + (slice_index t' - slice_index t))%nat at 1 by lia.
  by rewrite take_take_drop.
Qed.

Lemma written_insert_last (ts : list task) i t t' x :
  ts !! i = Some t → S i = length ts → written t' = written t ++ x →
  concat (written <$> <[i := t']> ts) = concat (written <$> ts) ++ x.
Proof.
  intros Ht Hi Hw. rewrite <- (take_drop_middle ts i t Ht) at 2.
  rewrite insert_take_drop by lia. rewrite (drop_ge ts (S i)) by lia.
  rewrite !fmap_app, !concat_app. simpl. by rewrite !app_nil_r, Hw, app_assoc.
Qed.

Lemma serial_poll i s :
  serial_ok s → waits_on_full s → ∃ s', exec (Poll i) s = Ok s' ∧ serial_ok s' ∧ waits_on_full s'.
Proof.
  intros Hs Hf. simpl. destruct (poll_ok i s (s_ok s Hs)) as (s' & He & Hok). exists s'. split; [done|].
  destruct (poll_cases i s (s_ok s Hs)) as [[H1 _]|(t & b' & t' & Ht & Hr & Htn & H1)];
    rewrite He in H1; simplify_eq; [done|]. destruct Hs as [H0 H1 H2 H3 H4 H5].
  assert (Hlast : S i = length (tasks s)).
  { eapply H3; [done|]. unfold pending, runs in *. by destruct (t_phase t). }
  assert (Hlt := lookup_lt_Some _ _ _ Ht). assert (Hph := turn_phase _ _ _ _ Htn).
  assert (Hcl := turn_closed _ _ _ _ Htn). assert (Hwr := turn_written _ _ _ _ Htn).
  assert (Hother : ∀ j t0, <[i := t']> (tasks s) !! j = Some t0 →
    (j = i ∧ t0 = t') ∨ (j ≠ i ∧ tasks s !! j = Some t0)).
  { intros j t0 Hj. destruct (decide (i = j)) as [->|Hij].
    - rewrite list_lookup_insert_eq in Hj by done. left. naive_solver.
    - rewrite list_lookup_insert_ne in Hj by done. right. naive_solver. }
  split; [split; simpl; try done|].
  - congruence.
  - rewrite (turn_committed _ _ _ _ Htn), H2. symmetry. by apply written_insert_last with t.
  - rewrite length_insert. intros j t0 [[-> ->]|[Hij Hj]]%Hother Hp; [done|by eapply H3].
  - intros j t0 n [[-> ->]|[Hij Hj]]%Hother Hp; [|by eapply H4].
    destruct Hph as [(? & _)|(? & _ & [?|?])]; congruence.
  - intros j t0 [[-> ->]|[Hij Hj]]%Hother Hp.
    + rewrite Hp. set_solver.
    + rewrite (turn_waiters _ _ _ _ Htn). apply H5 in Hj; [|done]. case_match; set_solver.
  - intros j t0 [[-> ->]|[Hij Hj]]%Hother Hp; simpl.
    + destruct Hph as [(_ & _ & Hfull & _)|(? & ? & _)]; [exact Hfull|congruence].
    + assert (S j = length (tasks s)) by (eapply H3; [done|unfold pending; by rewrite Hp]). lia.
Qed.

Lemma none_waits_full s : none_waits s → waits_on_full s.
Proof. intros Hn i t Ht Hp. by apply Hn in Ht. Qed.

Lemma serial_read d s : serial_ok s → serial_ok (read d s).1 ∧ none_waits (read d s).1.
Proof.
  intros Hs. assert (Ho := s_open s Hs). unfold read. rewrite Ho.
  assert (Hd : ∀ n, serial_ok (on_buffer (drain n) s)).
  { intros n. apply serial_buffer; try done. apply drain_ok. }
  destruct d as [d|]; [|by apply serial_notify].
  destruct (max_capacity (buffer s) <? d)%nat; simpl.
  { apply serial_notify, serial_buffer; try done. apply set_max_ok.
    case_match; [|apply reserve_keeps]. etrans; [|apply reserve_keeps]. apply reserve_keeps. }
  destruct (len (buffer s) <? d)%nat; simpl; by apply serial_notify.
Qed.

Lemma serial_clear s : serial_ok s → serial_ok (clear s) ∧ none_waits (clear s).
Proof.
  intros Hs. unfold clear.
  destruct (serial_notify (on_buffer (set_closed false) s)) as [H1 H2].
  { apply serial_buffer; try done. apply closed_ok. }
  split; [|exact H2]. apply serial_buffer; try done. intros Hb. by apply closed_ok, drain_ok.
Qed.

Lemma serial_forget i s :
  serial_ok s → waits_on_full s → serial_ok (forget i s) ∧ waits_on_full (forget i s).
Proof.
  intros [H0 H1 H2 H3 H4 H5] Hf. split; [split; simpl; try done|].
  - by apply forget_ok.
  - by rewrite written_alter.
  - rewrite length_alter. intros j t' [(_ & t0 & _ & ->)|(_ & Ht')]%lookup_alter_phase; [done|].
    by apply H3.
  - intros j t' n [(_ & t0 & _ & ->)|(_ & Ht')]%lookup_alter_phase; [done|]. by apply (H4 j).
  - intros j t' [(_ & t0 & _ & ->)|(Hij & Ht')]%lookup_alter_phase Hp; [done|].
    apply list_elem_of_filter. split; [done|]. by eapply H5.
  - intros j t' [(_ & t0 & _ & ->)|(_ & Ht')]%lookup_alter_phase Hp; [done|]. by eapply Hf.
Qed.

Lemma serial_cancel i s :
  serial_ok s → waits_on_full s → serial_ok (cancel i s) ∧ waits_on_full (cancel i s).
Proof.
  intros Hs Hf. destruct (serial_forget i s Hs Hf) as [H1 H2]. unfold cancel.
  destruct (t_phase <$> tasks s !! i) as [[]|]; try done.
  apply serial_notify in H1 as [H1 H3]. auto using none_waits_full.
Qed.

Lemma serial_exec_all os s :
  Forall no_empty_write os → serial os s = true → serial_ok s → waits_on_full s →
  ∃ s', exec_all os s = Ok s' ∧ serial_ok s' ∧ waits_on_full s'.
Proof.
  intros Ho. revert s. induction Ho as [|o os Ho _ IH]; intros s Hser Hs Hf; simpl in *; [by exists s|].
  apply andb_prop in Hser as [Hset Hser].
  assert (∃ s', exec o s = Ok s' ∧ serial_ok s' ∧ waits_on_full s') as (s' & He & Hs' & Hf').
  { destruct o as [k bytes|i|i|d| | |bytes]; try done.
    - by apply serial_spawn.
    - by apply serial_poll.
    - eexists. split; [done|]. by apply serial_cancel.
    - eexists. split; [done|]. destruct (serial_read d s Hs) as [? ?%none_waits_full]. by split.
    - eexists. split; [done|]. apply serial_clear in Hs as [? ?%none_waits_full]. by split. }
  rewrite He in Hser |- *. by apply IH.
Qed.

Lemma serial_start n : serial_ok (start n) ∧ waits_on_full (start n).
Proof. split; [split; try done; apply start_ok|done]. Qed.

(** ** Reading until the writer is done *)

(** The writer is polled and the queue emptied, [k] times. *)
Definition rounds (k : nat) : list op := concat (replicate k [Poll 0; Read None]).

(** After [j] rounds: the queue is empty, and the writer has returned or has
    committed at least [j] bytes and can run. *)
Record pumped (k : kind) (bytes : list Z) (j : nat) (s : sys) : Prop := {
  p_serial : serial_ok s;
  p_full : waits_on_full s;
  p_empty : inner (buffer s) = [];
  p_room : (0 < max_capacity (buffer s))%nat;
  p_task : ∃ t, tasks s = [t] ∧ t_kind t = k ∧ source t = bytes ∧
    ((∃ m, t_phase t = Returned m) ∨ (runs t = true ∧ item t ≠ [] ∧ (j ≤ slice_index t)%nat));
}.

Lemma notify_only s t :
  sys_ok s → none_waits (notify_one s) → tasks s = [t] →
  tasks (notify_one s) = [if bool_decide (t_phase t = Waiting) then set_phase Notified t else t].
Proof.
  intros [_ _ H3 _] Hn Ht. unfold notify_one in *. destruct (waiters (buffer s)) as [|i ws] eqn:Hw.
  - simpl in *. rewrite Ht in *. specialize (Hn O t eq_refl). by rewrite bool_decide_false.
  - apply Forall_cons in H3 as [(t' & Ht' & Hp) _]. rewrite Ht in Ht'.
    apply list_lookup_singleton_Some in Ht' as [-> ->]. simpl. rewrite Ht, bool_decide_true by done. done.
Qed.

Lemma read_none s :
  closed (buffer s) = false →
  read None s = (notify_one (on_buffer (drain (length (inner (buffer s)))) s), Some (inner (buffer s))).
Proof. intros Hc. unfold read. rewrite Hc. by rewrite firstn_all. Qed.

Lemma notify_inner s :
  inner (buffer (notify_one s)) = inner (buffer s) ∧
  max_capacity (buffer (notify_one s)) = max_capacity (buffer s).
Proof. unfold notify_one. by destruct (waiters (buffer s)). Qed.

(** Emptying the queue after a poll. *)
Lemma pumped_read k bytes j s t :
  serial_ok s → tasks s = [t] → t_kind t = k → source t = bytes →
  (0 < max_capacity (buffer s))%nat →
  (∃ m, t_phase t = Returned m) ∨ (t_phase t = Waiting ∧ item t ≠ [] ∧ (j ≤ slice_index t)%nat) →
  pumped k bytes j (read None s).1.
Proof.
  intros Hs Ht Hk Hb Hm Hp. destruct (serial_read None s Hs) as [H1 H2].
  rewrite read_none in * by apply Hs. simpl in *. set (s1 := on_buffer _ s) in *.
  destruct (notify_inner s1) as [Hi Hx]. split; [done|by apply none_waits_full| | |].
  - rewrite Hi. simpl. by rewrite drop_all.
  - by rewrite Hx.
  - assert (Hok : sys_ok s1) by (apply on_buffer_ok; [apply drain_ok|done|apply Hs]).
    rewrite (notify_only s1 t) by done. eexists. split; [done|].
    destruct Hp as [[m Hr]|(Hw & Hne & Hj)].
    + rewrite bool_decide_false by congruence. eauto 10.
    + rewrite bool_decide_true by done. split_and!; [done..|]. right. by split_and!.
Qed.

Lemma pumped_round k bytes j s :
  pumped k bytes j s → ∃ s', exec_all [Poll 0; Read None] s = Ok s' ∧ pumped k bytes (S j) s'.
Proof.
  intros [Hs Hf He Hm (t & Ht & Hk & Hb & Hp)].
  destruct (serial_poll 0 s Hs Hf) as (s1 & He1 & Hs1 & Hf1). cbn [exec exec_all] in He1 |- *.
  rewrite He1. simpl. eexists. split; [done|].
  destruct (poll_cases 0 s (s_ok s Hs)) as [[H1 Hno]|(t0 & b' & t' & Ht0 & Hr & Htn & H1)];
    rewrite He1 in H1; simplify_eq.
  - destruct Hp as [Hp|(Hr & _)]; [|rewrite Ht in Hno; specialize (Hno t eq_refl); congruence].
    eapply pumped_read; eauto.
  - rewrite Ht in Ht0. simplify_eq/=. rewrite Ht in *.
    destruct Hp as [[m Hp]|(_ & Hne & Hj)]; [unfold runs in Hr; by rewrite Hp in Hr|].
    eapply pumped_read; simpl; [done|done|apply Htn|apply Htn|by rewrite (turn_max _ _ _ _ Htn)|].
    destruct (turn_phase _ _ _ _ Htn) as [(Hw & Hne' & Hfull & _)|(m & Hm' & _)]; [right|left; eauto].
    split_and!; [done|done|]. destruct (turn_buf _ _ _ _ Htn) as [L1 _ _ L4].
    rewrite (turn_committed _ _ _ _ Htn), (turn_taken _ _ _ _ Htn), (fifo _ (ok_buf _ (s_ok s Hs))) in L4.
    rewrite He, app_nil_r in L4. apply app_inv_head in L4. unfold full in Hfull.
    rewrite (turn_max _ _ _ _ Htn), L1, <- L4, length_take in Hfull.
    assert (Hi := turn_index _ _ _ _ Htn). lia.
Qed.

Lemma pumped_rounds k bytes i j s :
  pumped k bytes j s → ∃ s', exec_all (rounds i) s = Ok s' ∧ pumped k bytes (i + j) s'.
Proof.
  revert j s. induction i as [|i IH]; intros j s Hp; [by exists s|].
  destruct (pumped_round k bytes j s Hp) as (s1 & He & Hp1).
  destruct (IH _ _ Hp1) as (s2 & He2 & Hp2). exists s2. split; [|by rewrite Nat.add_succ_comm].
  unfold rounds. simpl in *. destruct (poll 0 s) as [s0| |]; [|done..]. simpl in *. simplify_eq. exact He2.
Qed.
End Proofs.

(** * The properties *)

(** C33. Whatever the writers, reads, closes and clears do, in whatever order
    and on however many bytes, nothing panics (a [write] of no bytes apart),
    [len] counts the queue, the queue never holds more than [max_capacity], which
    its allocation has room for, and bytes leave in the order they went in. *)
Theorem buffer_bounds `{VecDeque} n os :
  Forall (λ o, o ≠ Spawn Write []) os →
  ∃ s, exec_all os (start n) = Ok s ∧
    let b := buffer s in
    len b = length (inner b) ∧ (len b ≤ max_capacity b ≤ capacity b)%nat ∧
    committed b = taken b ++ inner b.
Proof.
  intros Ho. destruct (exec_all_ok os (start n) Ho (start_ok n)) as (s & He & [[H1 H2 H3 H4] _ _ _]).
  by exists s.
Qed.


(** A write of any bytes, of either kind, into a queue with room for one
    byte or more returns when the queue is polled and emptied as many times as
    there are bytes, and what was read is the bytes written. *)
Theorem write_completes `{VecDeque} n k bytes :
  (0 < n)%nat → bytes ≠ [] →
  ∃ s m, exec_all (Spawn k bytes :: rounds (length bytes)) (start n) = Ok s ∧
    tasks s = [mkTask k bytes (length bytes) (Returned m)] ∧
    taken (buffer s) = bytes ∧ inner (buffer s) = [].
Proof.
  intros Hn Hb. destruct (serial_start n) as [H1 H2].
  destruct (serial_spawn k bytes (start n)) as (s1 & He & Hs1 & Hf1); [congruence|done..|].
  assert (Hp : pumped k bytes 0 s1).
  { simpl in He. simplify_eq. split; simpl; [done|done|done| |].
    - assert (Hc := alloc_ge n). lia.
    - eexists. split; [done|]. split_and!; [done..|]. right. by split_and!. }
  destruct (pumped_rounds k bytes (length bytes) 0 s1 Hp) as (s & He2 & [Hs Hf Hi _ (t & Ht & Hk & Hsrc & Hph)]).
  assert (∃ m, t_phase t = Returned m) as [m Hm].
  { destruct Hph as [?|(_ & Hne & Hj)]; [done|]. destruct Hne. apply length_zero_iff_nil.
    rewrite length_item, Hsrc. lia. }
  assert (Hnil : item t = []) by (eapply (s_returned s Hs 0); [by rewrite Ht|done]).
  assert (Hx := fifo _ (ok_buf _ (s_ok s Hs))).
  rewrite (s_committed s Hs), Ht, Hi, app_nil_r in Hx. simpl in Hx. rewrite app_nil_r in Hx.
  assert (Hw : written t = bytes).
  { rewrite <- Hsrc, <- (take_drop (slice_index t) (source t)). unfold written, item in *.
    by rewrite Hnil, app_nil_r. }
  exists s, m. split_and!; [by rewrite <- He2; simpl in *; simplify_eq| |congruence|done].
  assert (Hix : slice_index t = length bytes).
  { apply (item_nil t) in Hnil; [congruence|]. destruct (ok_tasks _ (s_ok s Hs)) as [|? ? [? _] ?];
      by simplify_eq. }
  rewrite Ht. destruct t. by simplify_eq/=.
Qed.
