(* ===== verification/BufferRef.v ===== *)
(** Runs of the byte queue: an allocator that gives exactly what is asked,
    witnesses of the properties, and what concurrent writers and [clear] do. *)

From S2P Require Import Prelude BytearrayBuffer BufferProofs.

#[export] Program Instance exact : VecDeque := {| alloc n := n; grow c n := Nat.max c n |}.
Next Obligation. done. Qed.
Next Obligation. intros. simpl. lia. Qed.
Next Obligation. intros. simpl. lia. Qed.

Definition result (os : list op) (n : nat) : option (list Z * list Z * list phase) :=
  match exec_all os (start n) with
  | Ok s => Some (taken (buffer s), inner (buffer s), t_phase <$> tasks s)
  | _ => None
  end.

(** A write in two parts, one dropped half way, and a read that asks for more
    than the capacity. *)
Definition demo : list op :=
  [Spawn WriteConsuming [1; 2; 3; 4; 5]; Poll 0; Read (Some 4%nat); Poll 0; Cancel 0;
   Spawn Write [6; 7]; Poll 1; Read None; Poll 1; Clear; Read None].

Lemma buffer_bounds_witness :
  ∃ s, exec_all demo (start 3) = Ok s ∧
    let b := buffer s in
    len b = length (inner b) ∧ (len b ≤ max_capacity b ≤ capacity b)%nat ∧
    committed b = taken b ++ inner b.
Proof. apply (buffer_bounds 3 demo). repeat constructor; discriminate. Defined.


Lemma write_completes_witness :
  ∃ s m, exec_all (Spawn Write [1; 2; 3; 4; 5] :: rounds 5) (start 2) = Ok s ∧
    tasks s = [mkTask Write [1; 2; 3; 4; 5] 5 (Returned m)] ∧
    taken (buffer s) = [1; 2; 3; 4; 5] ∧ inner (buffer s) = [].
Proof. apply (write_completes 2 Write [1; 2; 3; 4; 5]); [lia|discriminate]. Defined.

(** The test [write_consuming_drains_on_partial_write]. *)
Example partial_write :
  result [Forced [1; 2; 3]; Spawn WriteConsuming [4; 5; 6; 7; 8]; Poll 0; Cancel 0; Read None] 4 =
  Some ([1; 2; 3; 4], [], [Dropped]).
Proof. vm_compute. reflexivity. Qed.

(** Two writers at once: the permit of [write_semaphore] is dropped as soon as
    it is acquired, and their bytes mix. *)
Example writers_mix :
  result [Spawn Write [1; 2; 3; 4; 5; 6]; Spawn Write [11; 12; 13; 14]; Poll 0; Poll 1;
    Read None; Poll 0; Read None; Poll 1; Read None; Poll 0; Read None; Poll 1; Read None] 2 =
  Some ([1; 2; 3; 4; 11; 12; 5; 6; 13; 14], [], [Returned 2; Returned 2]).
Proof. vm_compute. reflexivity. Qed.

(** [clear] opens the queue instead of closing it, and does not wait for the
    write in progress: the rest of the item goes in after the clear. *)
Example clear_keeps_writing :
  result [Spawn Write [1; 2; 3; 4]; Poll 0; Clear; Poll 0] 2 = Some ([1; 2], [3; 4], [Returned 2]).
Proof. vm_compute. reflexivity. Qed.

(** [close] wakes one writer only: the second stays blocked. *)
Example close_wakes_one :
  result [Spawn Write [1; 2; 3]; Spawn Write [4]; Poll 0; Poll 1; Close; Poll 0; Poll 1] 2 =
  Some ([], [1; 2], [Returned 2; Waiting]).
Proof. vm_compute. reflexivity. Qed.

(** A [write] of no bytes panics when there is room. *)
Example empty_write_panics : result [Spawn Write []; Poll 0] 2 = None.
Proof. vm_compute. reflexivity. Qed.
